(* ===== verification/_CoqProject ===== *)
-Q . S2P
Prelude.v
Heap.v
Api.v
Util.v
Backoff.v
SchedulingQueue.v
SchedulingQueueProofs.v
PoolQueue.v
PoolQueueProofs.v
Fifo.v
Resource.v
HostPorts.v
NodeTree.v
NodeInfo.v
PoolInfo.v
PoolInfoProofs.v
Predicates.v
Cache.v
CacheProofs.v
Debugger.v
GenericScheduler.v
GenericSchedulerProofs.v
Extender.v
ExtenderProofs.v
Metadata.v
MetadataProofs.v
PredicateFuncs.v
PredicateProofs.v
VolumePredicates.v
VolumeProofs.v
Float64.v
Priorities.v
PriorityProofs.v
AffinityScoreProofs.v
PrioritizeProofs.v
PriorityExample.v
Plugins.v
ConfigFactory.v
PluginProofs.v
ProviderProofs.v
ComponentConfig.v
PluginExample.v
Scheduler.v
EventHandlers.v
SchedulerProofs.v
FrameProofs.v
BindingProofs.v
ServedProofs.v
SchedulerExample.v
