(* ===== verification/Prelude.v ===== *)
(** * Verification of ai-scheduler

    ai-scheduler is a Kubernetes scheduler that divides the nodes of a cluster
    into resource pools.  Informers report pods, nodes and pools to two
    components: pending pods go to the queue of their pool, nodes and running
    pods to the cache.  The scheduling loop takes a pod from a queue, refreshes
    the snapshot of the pool, chooses a node on it, and assumes the pod in the
    cache until its binding is confirmed or expires.  A pod that does not fit is
    put back, preempts others, or borrows another pool.  This library models the
    core of that program (Go, under src/pkg/scheduler) as executable
    definitions that follow the code statement by statement, and proves what
    makes it correct.

    ** Conventions

    Go's integers are integers [Z] with their wrap-around written out; a
    [time.Time] is a number of nanoseconds; a map is a [gmap] and the order of an
    iteration over it is a parameter (class [MapRange]), as is the order in which
    sort.Sort leaves equal elements (class [GoSort], file Util).  A run-time panic or
    a nil dereference is [None] of the option type ([comp]), an [error] a value beside the
    new state, so a theorem that an operation returns [Some] says that it does
    not panic.  Functions of k8s.io packages, which are not part of the
    repository, are the fields of the class [K8sLib] (file Api), with what
    their documentation promises in [K8sLaws]; the witnesses instantiate them
    with [docK8s].  Locks are not modelled: a method that runs under the lock
    of its structure is one step.  Workers that run in parallel and share state are
    steps in the order of a schedule, and theorems hold for every schedule.  Definitions keep the names of the source, with
    the receiver's type in front where two methods share a name.

    ** The files

    - Prelude: machine integers, time, panics, map iteration, slices, tactics.
    - Heap (util/heap.go): the keyed heap over container/heap.  It refines a
      finite map; Pop returns a least object; draining it sorts.
    - Api: the records of the API objects and the parameters.  Util
      (util/utils.go): priorities, names, pool of a pod.
    - Backoff (util/backoff_utils.go): back-off durations double up to the cap,
      garbage collection is exact.
    - SchedulingQueue, SchedulingQueueProofs (internal/queue/scheduling_queue.go):
      the three sub-queues of a pool, nominated pods, move requests and the
      condition variable.  The queue refines a map from pods to places; a pod is
      in one place only; Pop serves a first pod; no wake-up and no move request is
      lost.
    - PoolQueue, PoolQueueProofs (internal/queue/pool_queue.go): the queues of all
      pools behind the interface [SchedulingQueue] (a class with laws that the
      queue discharges).  Pods are routed to their pool; removing a pool and
      calling back borrowing pods loses none.
    - Fifo (scheduling_queue.go): the queue without priorities, around the FIFO of client-go, which is a
      parameter.  It satisfies the laws of a scheduling queue, so the theorems on the program hold
      for it too.
    - Resource, HostPorts, NodeTree, NodeInfo (info/node_info.go, host_ports.go,
      node_tree.go, util.go, snapshot.go): resource vectors modulo 2^64, used
      ports, round-robin enumeration of nodes by zone, and the aggregates of a
      node, which are always those of its pods.
    - PoolInfo, PoolInfoProofs (info/pool_info.go): the nodes of a pool in a
      doubly linked list of pointers, most recent first.  The incremental
      refresh of the snapshot is equal to a full copy, the books of used and
      shared resources balance.
    - Cache, CacheProofs (internal/cache/cache.go): assumed, added and expired pods,
      nodes and pools.  No pod is lost or invented, expiry is exact, forgetting
      undoes assuming, borrowing picks an allowed pool that fits.
    - Debugger (internal/cache/debugger/comparer.go): the comparison of the cache with the listers, which is a
      difference of multisets.
    - Predicates (algorithm/predicates/error.go, predicates.go, metadata.go): failure
      reasons, the type of a predicate and the interface of the metadata.
    - GenericScheduler, GenericSchedulerProofs (core/generic_scheduler.go): the search for
      nodes by parallel workers, scores, the choice of a host, and preemption.  The
      search is right under every schedule of its workers, a pod declared unschedulable
      failed on every node of its pool, the victims of a preemption are enough and each
      is necessary, the node that is chosen is the cheapest.
    - Extender, ExtenderProofs (core/extender.go): the extenders that are services on the network, with
      what is sent to them and what is made of their answers; HTTP and JSON are parameters
      (class [HTTPLib]).  A node that is chosen was accepted by every extender, and the candidates of a
      preemption come back as they were sent but for the violated budgets.
    - Metadata, MetadataProofs (algorithm/predicates/metadata.go): what is computed once per
      pod, topology maps above all, and its changes when pods come and go.  The maps
      are those of the placement; this discharges the interface that preemption is
      proved against ([MetadataLaws], by [predicateMetadata_laws]).
    - PredicateFuncs, PredicateProofs (algorithm/predicates/predicates.go, utils.go): the
      predicates on resources, the node and inter-pod affinity.  A node is not
      overcommitted, the verdict on affinity is the one that the terms ask for, and
      preemption gives up only on nodes that are hopeless.
    - VolumePredicates, VolumeProofs (predicates.go, csi_volume_predicate.go): disks,
      volume limits, zones, binding and service affinity.  Pods on a node do not exclude each
      other, and limits on volumes are kept exactly.
    - Float64: the arithmetic of float64, rounded to the nearest, in integers.  Priorities, PriorityProofs,
      AffinityScoreProofs, PrioritizeProofs, PriorityExample (algorithm/priorities): all priority
      functions.  Scores are on the scale whatever the rounding, their weighted sum is exact, the
      score of the affinity between pods is that of a definition without optimisations, and nodes
      that ask to be spared a pod come last.
    - Plugins, ConfigFactory (factory/plugins.go, algorithmprovider/defaults, factory/factory.go,
      api/validation): the registry of predicates and priorities, what registers itself at the start, feature
      gates, the validation of a policy and how names become the functions of a scheduler.
      ComponentConfig (apis/config, scheduler.go, cmd/ai-scheduler/app/server.go): the configuration of the
      component with its defaults and validation, and the scheduler that is made of it.
      PluginProofs, ProviderProofs, PluginExample: every name that is needed has a function in every state
      of the registry; what a policy and the default provider give, exactly; which errors
      there are, and that a policy in good form does not end the process; a valid configuration
      gives a scheduler.
    - Scheduler, EventHandlers (scheduler.go, eventhandlers.go, and the handlers in
      factory/factory.go): the loop of each pool, assuming, binding, preempting and
      retrying, and the callbacks of the informers, as one state machine whose steps are
      the events, the goroutines and the timers in any order.
    - SchedulerProofs, FrameProofs, BindingProofs, ServedProofs, SchedulerExample: the whole program.
      Every pod has one place and moves along the arrows of its life cycle; none is lost but for
      the listed reasons; an assumed pod has its binding finished; every queue is
      served.  The queues enter through the laws of their class only.  SchedulerExample runs the program on
      a small cluster.

    ** Invariants, specifications and fuel

    Each stateful component has an invariant as a [Record] or [Definition]
    ([pq_inv], [tree_wf], [NodeInfo_inv], [pool_ok], [cache_inv], [registry_ok]) that every
    operation keeps; runs are inductive relations over the operations with the
    conditions under which the program calls them ([..._legal]), and the
    theorems are about every state such a run reaches.  Loops that are not
    structural run on fuel: the heap's sifting on the length of the array, [Next]
    on one more than the number of zones, the walk of the snapshot on the number of
    items; the loop over the pods of a node in selectVictimsOnNode runs on their number, and
    the search on its schedule; the theorems show that this is enough, since they state that the
    function returns.  The generation counter of nodes is an [int64]; the theorems on
    snapshots ask that it has not reached its end.

    ** Not modelled

    Logging, metrics and events for users; TryBackoffAndWait (channels), which is an
    answer of the outside; the
    construction of informers and clients; flags, leader election and servers; the signal handler and the dumper of
    the cache; generated code, clients and command lines.  A removed queue that is still
    referred to is not kept, because nothing takes pods from it.  The
    moves of nodes between pools (UpdatePool, RemovePool, UpdateNode across
    pools) are modelled; the theorem on the pods of the cache does not cover
    them, because they do not keep its invariant: see the examples
    [moved_node_missing] and [removed_pool_leaks_pod]. *)
From stdpp Require Export base numbers list gmap strings option fin_maps sorting.
From Stdlib Require Export ZArith Lia ZifyNat.
#[export] Set Default Goal Selector "!".

(** ** Scopes and notations *)

Declare Scope sched_scope.
Delimit Scope sched_scope with sched.
Open Scope Z_scope.

(** ** Machine integers

    Go's [int64], [int32] and [int] (64 bits on the supported platforms) are
    integers [Z] kept in two's complement range by writing the wrap-around out
    at every arithmetic operation. *)

Definition wrap (w x : Z) : Z := (x + 2 ^ (w - 1)) mod 2 ^ w - 2 ^ (w - 1).
Definition wrap64 (x : Z) : Z := wrap 64 x.
Definition wrap32 (x : Z) : Z := wrap 32 x.
Definition add64 (x y : Z) : Z := wrap64 (x + y).
Definition sub64 (x y : Z) : Z := wrap64 (x - y).
Definition mul64 (x y : Z) : Z := wrap64 (x * y).
Definition MaxInt64 : Z := 2 ^ 63 - 1.
Definition MinInt64 : Z := - 2 ^ 63.
Definition MaxInt32 : Z := 2 ^ 31 - 1.
Definition MinInt32 : Z := - 2 ^ 31.
Definition int64 (x : Z) : Prop := MinInt64 <= x <= MaxInt64.
Definition int32 (x : Z) : Prop := MinInt32 <= x <= MaxInt32.

#[global] Instance int64_dec x : Decision (int64 x).
Proof. unfold int64; apply _. Defined.
#[global] Instance int32_dec x : Decision (int32 x).
Proof. unfold int32; apply _. Defined.

(** ** Time

    A [time.Time] is the number of nanoseconds since the zero time, so that
    [time.Time{}] is [0]; a [time.Duration] is an [int64] of nanoseconds.
    [Time.Sub] saturates at the extreme durations, as the Go library
    documents. *)

Definition Time := Z.
Definition Duration := Z.
Definition zeroTime : Time := 0.
Definition Second : Duration := 1000000000.
Definition time_add (t : Time) (d : Duration) : Time := t + d.
Definition time_sub (t u : Time) : Duration := Z.max MinInt64 (Z.min MaxInt64 (t - u)).
Definition time_before (t u : Time) : bool := t <? u.
Definition time_after (t u : Time) : bool := u <? t.

(** ** Errors and panics

    A Go function that returns an [error] returns it beside the new state; a
    run-time panic (index out of range, nil dereference) is [None] of the
    option monad, so that a theorem that an operation returns says at once that
    it does not panic. *)

Definition error := string.
Abbreviation panic := None.
Abbreviation comp A := (option A).

(** ** Iteration over a Go map

    The order in which [range] visits the entries of a map is unspecified.
    The model takes it as a parameter: any function that enumerates exactly the
    entries of a map. *)

Class MapRange := {
  range : ∀ {A : Type}, gmap string A → list (string * A);
  range_perm : ∀ A (m : gmap string A), range m ≡ₚ map_to_list m
}.

(** The enumeration order used by the witnesses. *)
Definition stdRange : MapRange :=
  {| range := λ A m, map_to_list m; range_perm := λ A m, reflexivity _ |}.

Lemma range_elem `{MapRange} {A} (m : gmap string A) k x : (k, x) ∈ range m ↔ m !! k = Some x.
Proof. by rewrite range_perm, elem_of_map_to_list. Qed.

Lemma filter_ext_in {A} (P1 P2 : A → Prop) `{!∀ x, Decision (P1 x), !∀ x, Decision (P2 x)} (l : list A) :
  (∀ x, x ∈ l → P1 x ↔ P2 x) → filter P1 l = filter P2 l.
Proof.
  induction l as [|x l IH]; intros Hl; [done|]. rewrite !filter_cons, IH by (intros y Hy; apply Hl; by right).
  pose proof (Hl x (list_elem_of_here _ _)) as Hx. destruct (decide (P1 x)), (decide (P2 x)); tauto.
Qed.

(** ** Slices *)

(** [s[i] = s[len(s)-1]; s = s[:len(s)-1]] *)
Definition swap_delete {A} (i : nat) (l : list A) : list A :=
  match last l with
  | Some x => take (length l - 1) (<[i := x]> l)
  | None => l
  end.

(** [append(s[:i], s[i+1:]...)] *)
Definition slice_delete {A} (i : nat) (l : list A) : list A :=
  take i l ++ drop (S i) l.

(** The index of the first element that satisfies [f]. *)
Fixpoint find_index {A} (f : A → bool) (l : list A) : option nat :=
  match l with
  | [] => None
  | x :: l => if f x then Some O else S <$> find_index f l
  end.

(** ** Automation *)

Create HintDb sched discriminated.
Create Rewrite HintDb sched_rw.

(** Split every conditional and match of the goal and the hypotheses. *)
Ltac cases :=
  repeat first
    [ progress simplify_eq/=
    | case_bool_decide
    | case_match ].

(** Linear arithmetic with division by constants. *)
Ltac divlia := zify; Z.to_euclidean_division_equations; lia.

(** Boolean comparisons to propositions. *)
Ltac bool_to_prop :=
  repeat match goal with
  | H : _ && _ = true |- _ => apply andb_true_iff in H as [? ?]
  | H : _ && _ = false |- _ => apply andb_false_iff in H
  | H : _ || _ = false |- _ => apply orb_false_iff in H as [? ?]
  | H : _ || _ = true |- _ => apply orb_true_iff in H
  | H : negb _ = true |- _ => apply negb_true_iff in H
  | H : negb _ = false |- _ => apply negb_false_iff in H
  | H : (_ <? _)%Z = true |- _ => apply Z.ltb_lt in H
  | H : (_ <? _)%Z = false |- _ => apply Z.ltb_ge in H
  | H : (_ <=? _)%Z = true |- _ => apply Z.leb_le in H
  | H : (_ <=? _)%Z = false |- _ => apply Z.leb_gt in H
  | H : (_ =? _)%Z = true |- _ => apply Z.eqb_eq in H
  | H : (_ =? _)%Z = false |- _ => apply Z.eqb_neq in H
  | H : bool_decide _ = true |- _ => apply bool_decide_eq_true_1 in H
  | H : bool_decide _ = false |- _ => apply bool_decide_eq_false_1 in H
  end.

(** ** Lemmas on machine integers *)

Lemma wrap_mod w x : 0 < w → wrap w x mod 2 ^ w = x mod 2 ^ w.
Proof.
  intros Hw. unfold wrap.
  rewrite Zminus_mod_idemp_l. f_equal. lia.
Qed.

Lemma wrap_mod_inj w x y : 0 < w → x mod 2 ^ w = y mod 2 ^ w → wrap w x = wrap w y.
Proof.
  intros Hw H. unfold wrap.
  by rewrite <-(Zplus_mod_idemp_l x), <-(Zplus_mod_idemp_l y), H.
Qed.

Lemma wrap_range w x : 0 < w → - 2 ^ (w - 1) <= wrap w x < 2 ^ (w - 1).
Proof.
  intros Hw. unfold wrap.
  assert (2 ^ w = 2 * 2 ^ (w - 1)) as E.
  { rewrite <-Z.pow_succ_r by lia. f_equal; lia. }
  assert (0 < 2 ^ (w - 1)) by (apply Z.pow_pos_nonneg; lia).
  pose proof (Z.mod_pos_bound (x + 2 ^ (w - 1)) (2 ^ w)). lia.
Qed.

Lemma wrap64_id x : int64 x → wrap64 x = x.
Proof.
  unfold int64, MinInt64, MaxInt64, wrap64, wrap. intros H.
  rewrite Z.mod_small; lia.
Qed.

Lemma wrap32_id x : int32 x → wrap32 x = x.
Proof.
  unfold int32, MinInt32, MaxInt32, wrap32, wrap. intros H.
  rewrite Z.mod_small; lia.
Qed.

Lemma wrap64_int64 x : int64 (wrap64 x).
Proof. pose proof (wrap_range 64 x). unfold int64, MinInt64, MaxInt64, wrap64. lia. Qed.

Lemma wrap64_add_l x y : wrap64 (wrap64 x + y) = wrap64 (x + y).
Proof.
  apply wrap_mod_inj; [lia|]. rewrite <-Zplus_mod_idemp_l.
  unfold wrap64. by rewrite wrap_mod, Zplus_mod_idemp_l.
Qed.

Lemma wrap64_add_r x y : wrap64 (x + wrap64 y) = wrap64 (x + y).
Proof. rewrite !(Z.add_comm x). apply wrap64_add_l. Qed.

Lemma wrap64_sub_l x y : wrap64 (wrap64 x - y) = wrap64 (x - y).
Proof. apply (wrap64_add_l x (- y)). Qed.

Lemma wrap64_sub_r x y : wrap64 (x - wrap64 y) = wrap64 (x - y).
Proof.
  apply wrap_mod_inj; [lia|]. rewrite <-Zminus_mod_idemp_r.
  unfold wrap64. by rewrite wrap_mod, Zminus_mod_idemp_r.
Qed.

#[export] Hint Rewrite wrap64_add_l wrap64_add_r wrap64_sub_l wrap64_sub_r : sched_rw.
#[export] Hint Resolve wrap64_int64 : sched.

(** Equality of two nests of 64-bit additions and subtractions. *)
Ltac wrap_eq :=
  unfold add64, sub64; autorewrite with sched_rw;
  first [ done | f_equal; lia ].

Lemma add64_comm x y : add64 x y = add64 y x.
Proof. wrap_eq. Qed.
Lemma add64_assoc x y z : add64 x (add64 y z) = add64 (add64 x y) z.
Proof. wrap_eq. Qed.
Lemma sub64_add64 x y : int64 x → sub64 (add64 x y) y = x.
Proof. intros H. rewrite <-(wrap64_id x) at 2 by done. wrap_eq. Qed.
Lemma add64_sub64 x y : int64 x → add64 (sub64 x y) y = x.
Proof. intros H. rewrite <-(wrap64_id x) at 2 by done. wrap_eq. Qed.
Lemma add64_int64 x y : int64 (add64 x y).
Proof. apply wrap64_int64. Qed.
Lemma sub64_int64 x y : int64 (sub64 x y).
Proof. apply wrap64_int64. Qed.
#[export] Hint Resolve add64_int64 sub64_int64 : sched.

(** ** Strings *)

(** No character [c] in the string [s]. *)
Fixpoint no_char (c : Ascii.ascii) (s : string) : bool :=
  match s with
  | EmptyString => true
  | String d s => negb (bool_decide (c = d)) && no_char c s
  end.

(** Joining with a separator that occurs in no first part is injective. *)
Lemma app_sep_inj c s1 s2 t1 t2 :
  no_char c s1 = true → no_char c s2 = true →
  (s1 +:+ String c t1 = s2 +:+ String c t2)%string → s1 = s2 ∧ t1 = t2.
Proof.
  revert s2. induction s1 as [|d s1 IH]; intros [|e s2]; simpl; intros H1 H2 E; simplify_eq;
    bool_to_prop; try done; try (by destruct H1 || by destruct H2).
  destruct (IH s2) as [-> ->]; naive_solver.
Qed.

(** ** Lists *)

(** Distinct images under [f] are distinct under a finer function [g]. *)
Lemma NoDup_fmap_finer {A B C} (f : A → B) (g : A → C) (l : list A) :
  (∀ x y, g x = g y → f x = f y) → NoDup (f <$> l) → NoDup (g <$> l).
Proof.
  intros Hfg. induction l as [|x l IH]; simpl; [intros; constructor|].
  rewrite !NoDup_cons. intros [Hx Hl]. split; [|by apply IH].
  intros (y & E & Hy)%list_elem_of_fmap. apply Hx, list_elem_of_fmap. eauto.
Qed.

Lemma find_index_Some {A} (f : A → bool) l i :
  find_index f l = Some i → ∃ x, l !! i = Some x ∧ f x = true.
Proof.
  revert i. induction l as [|x l IH]; intros i; simpl; [done|]. destruct (f x) eqn:E.
  - intros [= <-]. eauto.
  - intros (j & Hj & ->)%fmap_Some. by apply IH.
Qed.

Lemma find_index_None {A} (f : A → bool) l : find_index f l = None → ∀ x, x ∈ l → f x = false.
Proof.
  induction l as [|y l IH]; simpl; [intros _ x Hx; by apply elem_of_nil in Hx|]. destruct (f y) eqn:E; [done|].
  intros Hn%fmap_None x [->|Hx]%elem_of_cons; auto.
Qed.

Lemma slice_delete_perm {A} (l : list A) i x : l !! i = Some x → l ≡ₚ x :: slice_delete i l.
Proof. intros E. unfold slice_delete. rewrite <-(take_drop_middle l i x E) at 1. by rewrite Permutation_middle. Qed.

(** Overwriting with the last element and cutting it off removes one element. *)
Lemma swap_delete_perm {A} (l : list A) i x : l !! i = Some x → l ≡ₚ x :: swap_delete i l.
Proof.
  intros E. unfold swap_delete. destruct (last l) as [y|] eqn:El.
  2:{ apply last_None in El. by subst. }
  apply last_Some in El as [l' ->]. rewrite length_app. simpl. rewrite Nat.add_sub.
  destruct (decide (i < length l')%nat) as [Hi|Hi].
  - rewrite insert_app_l, take_app_length' by (rewrite ?length_insert; lia).
    rewrite lookup_app_l in E by done.
    rewrite <-(take_drop_middle l' i x E) at 1. rewrite insert_take_drop by done.
    rewrite (Permutation_app_comm _ [y]). simpl. rewrite <-!Permutation_middle. apply Permutation_swap.
  - rewrite lookup_app_r in E by lia. apply list_lookup_singleton_Some in E as [Hi' ->].
    rewrite take_insert_ge, take_app_length by lia. by rewrite Permutation_app_comm.
Qed.

(** Deleting the element just appended. *)
Lemma swap_delete_snoc {A} (l : list A) x : swap_delete (length l) (l ++ [x]) = l.
Proof.
  unfold swap_delete. rewrite last_snoc, length_app. simpl. rewrite Nat.add_sub.
  by rewrite take_insert_ge, take_app_length by lia.
Qed.

Lemma find_index_snoc {A} (f : A → bool) l x :
  (∀ y, y ∈ l → f y = false) → f x = true → find_index f (l ++ [x]) = Some (length l).
Proof.
  intros Hl Hx. induction l as [|y l IH]; simpl; [by rewrite Hx|].
  rewrite Hl by (by left). rewrite IH; [done|]. intros z Hz. apply Hl. by right.
Qed.
