(* ===== verification/Heap.v ===== *)
(** * The keyed heap (src/pkg/scheduler/util/heap.go)

    [heapData] is the structure of heap.go: a map from keys to objects with
    their position, and the array of keys.  The functions [heap_*] are the
    algorithms of Go's container/heap that heap.go calls through the
    [heap.Interface] methods; the functions [Heap_*] are the methods of [Heap].
    The second half proves that a [Heap] is a keyed priority queue: it refines
    a finite map from keys to objects ([contents]), no operation panics on a
    well-formed heap, and [Pop] returns an object that no other precedes. *)
From S2P Require Import Prelude.
Local Open Scope nat_scope.

Record heapItem (A : Type) := HeapItem { hi_obj : A; hi_index : nat }.
Arguments HeapItem {A} _ _.
Arguments hi_obj {A} _.
Arguments hi_index {A} _.

Record heapData (A : Type) := HeapData {
  hd_items : gmap string (heapItem A);
  hd_queue : list string
}.
Arguments HeapData {A} _ _.
Arguments hd_items {A} _.
Arguments hd_queue {A} _.

Section heap.
Context {A : Type}.
Context (less : A → A → bool).

Implicit Types (h : heapData A) (a b : A) (k : string).

(** ** The methods of heap.Interface *)

Definition heapData_Less h (i j : nat) : comp bool :=
  if bool_decide (length (hd_queue h) < i ∨ length (hd_queue h) < j) then Some false
  else
    ki ← hd_queue h !! i;
    match hd_items h !! ki with
    | None => Some false
    | Some itemi =>
        kj ← hd_queue h !! j;
        match hd_items h !! kj with
        | None => Some false
        | Some itemj => Some (less (hi_obj itemi) (hi_obj itemj))
        end
    end.

Definition heapData_Len h : nat := length (hd_queue h).

Definition heapData_Swap h (i j : nat) : comp (heapData A) :=
  ki ← hd_queue h !! i;
  kj ← hd_queue h !! j;
  let queue := <[j := ki]> (<[i := kj]> (hd_queue h)) in
  k1 ← queue !! i;
  item1 ← hd_items h !! k1;
  let items := <[k1 := HeapItem (hi_obj item1) i]> (hd_items h) in
  k2 ← queue !! j;
  item2 ← items !! k2;
  Some (HeapData (<[k2 := HeapItem (hi_obj item2) j]> items) queue).

Definition heapData_Push h k a : heapData A :=
  HeapData (<[k := HeapItem a (length (hd_queue h))]> (hd_items h)) (hd_queue h ++ [k]).

Definition heapData_Pop h : comp (heapData A * option A) :=
  key ← last (hd_queue h);
  let queue := take (length (hd_queue h) - 1) (hd_queue h) in
  match hd_items h !! key with
  | None => Some (HeapData (hd_items h) queue, None)
  | Some item => Some (HeapData (delete key (hd_items h)) queue, Some (hi_obj item))
  end.

Definition heapData_Peek h : comp (option A) :=
  match hd_queue h with
  | k :: _ => item ← hd_items h !! k; Some (Some (hi_obj item))
  | [] => Some None
  end.

(** ** container/heap *)

Fixpoint heap_up (fuel : nat) h (j : nat) : comp (heapData A) :=
  match fuel with
  | O => None
  | S fuel =>
      let i := (j - 1) / 2 in
      if bool_decide (i = j) then Some h
      else
        b ← heapData_Less h j i;
        if negb b then Some h
        else h' ← heapData_Swap h i j; heap_up fuel h' i
  end.

Fixpoint heap_down (fuel : nat) h (i n : nat) : comp (heapData A * nat) :=
  match fuel with
  | O => None
  | S fuel =>
      let j1 := 2 * i + 1 in
      if bool_decide (n ≤ j1) then Some (h, i)
      else
        let j2 := j1 + 1 in
        right ← (if bool_decide (j2 < n) then heapData_Less h j2 j1 else Some false);
        let j := if right : bool then j2 else j1 in
        b ← heapData_Less h j i;
        if negb b then Some (h, i)
        else h' ← heapData_Swap h i j; heap_down fuel h' j n
  end.

(** [up] halves its index and [down] at least doubles it: [S j] and [S n]
    iterations are always enough. *)
Definition up h (j : nat) : comp (heapData A) := heap_up (S j) h j.
Definition down h (i0 n : nat) : comp (heapData A * bool) :=
  r ← heap_down (S n) h i0 n; Some (r.1, bool_decide (i0 < r.2)).

Definition heap_Push h k a : comp (heapData A) :=
  let h' := heapData_Push h k a in
  up h' (heapData_Len h' - 1).

Definition heap_Pop h : comp (heapData A * option A) :=
  match heapData_Len h with
  | O => panic
  | S n =>
      h1 ← heapData_Swap h 0 n;
      r ← down h1 0 n;
      heapData_Pop r.1
  end.

Definition heap_Remove h (i : nat) : comp (heapData A * option A) :=
  match heapData_Len h with
  | O => panic
  | S n =>
      h1 ← (if bool_decide (n = i) then Some h
            else
              h1 ← heapData_Swap h i n;
              r ← down h1 i n;
              if r.2 : bool then Some r.1 else up r.1 i);
      heapData_Pop h1
  end.

Definition heap_Fix h (i : nat) : comp (heapData A) :=
  r ← down h i (heapData_Len h);
  if r.2 : bool then Some r.1 else up r.1 i.

(** ** The methods of Heap *)

Definition NewHeap : heapData A := HeapData ∅ [].

Section keyed.
Context (keyFunc : A → error + string).

Definition Heap_Add h a : comp (heapData A * option error) :=
  match keyFunc a with
  | inl err => Some (h, Some err)
  | inr key =>
      match hd_items h !! key with
      | Some item =>
          let h' := HeapData (<[key := HeapItem a (hi_index item)]> (hd_items h)) (hd_queue h) in
          h'' ← heap_Fix h' (hi_index item); Some (h'', None)
      | None => h' ← heap_Push h key a; Some (h', None)
      end
  end.

Definition Heap_AddIfNotPresent h a : comp (heapData A * option error) :=
  match keyFunc a with
  | inl err => Some (h, Some err)
  | inr key =>
      match hd_items h !! key with
      | Some _ => Some (h, None)
      | None => h' ← heap_Push h key a; Some (h', None)
      end
  end.

Definition Heap_Update h a : comp (heapData A * option error) := Heap_Add h a.

Definition Heap_Delete h a : comp (heapData A * option error) :=
  match keyFunc a with
  | inl err => Some (h, Some err)
  | inr key =>
      match hd_items h !! key with
      | Some item => r ← heap_Remove h (hi_index item); Some (r.1, None)
      | None => Some (h, Some "object not found"%string)
      end
  end.

Definition Heap_Peek h : comp (option A) := heapData_Peek h.

Definition Heap_Pop h : comp (heapData A * (error + A)) :=
  r ← heap_Pop h;
  match r.2 with
  | Some a => Some (r.1, inr a)
  | None => Some (r.1, inl "object was removed from heap data"%string)
  end.

Definition Heap_GetByKey h k : option A := hi_obj <$> hd_items h !! k.

Definition Heap_Get h a : error + option A :=
  match keyFunc a with
  | inl err => inl err
  | inr key => inr (Heap_GetByKey h key)
  end.

End keyed.

Definition Heap_List `{MapRange} h : list A := (λ p, hi_obj p.2) <$> range (hd_items h).

Definition Heap_Len h : nat := length (hd_queue h).

End heap.

(** Assignment through a pointer to a stored object: the object under key [k]
    changes in place, and no heap algorithm runs. *)
Definition heap_poke {A} (k : string) (f : A → A) (h : heapData A) : heapData A :=
  HeapData (alter (λ it, HeapItem (f (hi_obj it)) (hi_index it)) k (hd_items h)) (hd_queue h).

Section rep.
Context {A : Type}.
Implicit Types (h : heapData A) (a b : A) (k : string).

(** ** Well-formedness

    [rep h l]: the heap [h] stores the list [l] of keys and objects, the item
    of every key recording its position. *)

Record rep h (l : list (string * A)) : Prop := {
  rep_queue : hd_queue h = l.*1;
  rep_nodup : NoDup l.*1;
  rep_item i k a : l !! i = Some (k, a) ↔ hd_items h !! k = Some (HeapItem a i)
}.

Definition wf h : Prop := ∃ l, rep h l.

(** The abstract value of a heap: the finite map from keys to objects. *)
Definition contents h : gmap string A := hi_obj <$> hd_items h.

(** Exchange of two positions of a list. *)
Definition list_swap {B} (i j : nat) (l : list B) : list B :=
  match l !! i, l !! j with
  | Some x, Some y => <[j := x]> (<[i := y]> l)
  | _, _ => l
  end.

Lemma list_swap_lookup {B} (l : list B) i j m :
  i < length l → j < length l →
  list_swap i j l !! m = if decide (m = i) then l !! j
                         else if decide (m = j) then l !! i else l !! m.
Proof.
  intros Hi Hj. unfold list_swap.
  destruct (lookup_lt_is_Some_2 l i Hi) as [x Hx].
  destruct (lookup_lt_is_Some_2 l j Hj) as [y Hy].
  rewrite Hx, Hy, !list_lookup_insert, length_insert.
  repeat case_decide; naive_solver lia.
Qed.

Lemma list_swap_l {B} (l : list B) i j x y :
  l !! i = Some x → l !! j = Some y → list_swap i j l !! i = Some y.
Proof.
  intros Hi Hj. rewrite list_swap_lookup by eauto using lookup_lt_Some.
  by case_decide.
Qed.

Lemma list_swap_r {B} (l : list B) i j x y :
  l !! i = Some x → l !! j = Some y → list_swap i j l !! j = Some x.
Proof.
  intros Hi Hj. rewrite list_swap_lookup by eauto using lookup_lt_Some.
  repeat case_decide; naive_solver.
Qed.

Lemma list_swap_length {B} (l : list B) i j : length (list_swap i j l) = length l.
Proof. unfold list_swap. cases; by rewrite ?length_insert. Qed.

Lemma list_swap_insert {B} (l : list B) i j x y :
  l !! i = Some x → l !! j = Some y → <[j := x]> (<[i := y]> l) = list_swap i j l.
Proof. intros Hi Hj. unfold list_swap. by rewrite Hi, Hj. Qed.

Lemma list_swap_perm {B} (l : list B) i j : list_swap i j l ≡ₚ l.
Proof.
  destruct (decide (i < length l ∧ j < length l)) as [[Hi Hj]|Hn].
  - apply Permutation_inj. split; [by rewrite list_swap_length|].
    exists (λ m, if decide (m = i) then j else if decide (m = j) then i else m).
    split.
    + intros a b. repeat case_decide; naive_solver lia.
    + intros m. rewrite list_swap_lookup by done. repeat case_decide; naive_solver.
  - unfold list_swap. destruct (l !! i) eqn:E1; [|done]. destruct (l !! j) eqn:E2; [|done].
    apply lookup_lt_Some in E1, E2. tauto.
Qed.

Lemma list_swap_fmap {B C} (f : B → C) (l : list B) i j :
  f <$> list_swap i j l = list_swap i j (f <$> l).
Proof.
  unfold list_swap. rewrite !list_lookup_fmap.
  destruct (l !! i), (l !! j); simpl; by rewrite ?list_fmap_insert.
Qed.

Lemma rep_length h l : rep h l → length (hd_queue h) = length l.
Proof. intros [-> _ _]. by rewrite length_fmap. Qed.

Lemma rep_key h l i k a : rep h l → l !! i = Some (k, a) → hd_queue h !! i = Some k.
Proof. intros H Hi. by rewrite (rep_queue _ _ H), list_lookup_fmap, Hi. Qed.

Lemma rep_key_pos h l i j k a b :
  rep h l → l !! i = Some (k, a) → l !! j = Some (k, b) → i = j.
Proof.
  intros H Hi%(rep_item _ _ H) Hj%(rep_item _ _ H). congruence.
Qed.

Lemma Less_rep (less : A → A → bool) h l i j ki kj a b :
  rep h l → l !! i = Some (ki, a) → l !! j = Some (kj, b) →
  heapData_Less less h i j = Some (less a b).
Proof.
  intros H Hi Hj. unfold heapData_Less.
  pose proof (lookup_lt_Some _ _ _ Hi). pose proof (lookup_lt_Some _ _ _ Hj).
  rewrite (rep_length _ _ H), bool_decide_false by lia.
  rewrite (rep_key _ _ _ _ _ H Hi), (rep_key _ _ _ _ _ H Hj). simpl.
  apply (rep_item _ _ H) in Hi, Hj. by rewrite Hi, Hj.
Qed.

(** Exchanging two positions and writing both items back. *)
Lemma swap_items h l i j ki kj a b :
  rep h l → l !! i = Some (ki, a) → l !! j = Some (kj, b) →
  rep (HeapData (<[ki := HeapItem a j]> (<[kj := HeapItem b i]> (hd_items h)))
                (list_swap i j l).*1) (list_swap i j l).
Proof.
  intros H Ei Ej.
  pose proof (lookup_lt_Some _ _ _ Ei). pose proof (lookup_lt_Some _ _ _ Ej).
  split; simpl; [done| |].
  - rewrite list_swap_fmap, list_swap_perm. apply H.
  - intros m k c. rewrite list_swap_lookup by done.
    assert (∀ m c, l !! m = Some (ki, c) → m = i ∧ c = a) as Ui.
    { intros m' c' E. pose proof (rep_key_pos _ _ _ _ _ _ _ H Ei E). naive_solver. }
    assert (∀ m c, l !! m = Some (kj, c) → m = j ∧ c = b) as Uj.
    { intros m' c' E. pose proof (rep_key_pos _ _ _ _ _ _ _ H Ej E). naive_solver. }
    rewrite !lookup_insert. pose proof (rep_item _ _ H m k c) as Hb.
    destruct (decide (ki = k)) as [<-|Hki]; [|destruct (decide (kj = k)) as [<-|Hkj]].
    + destruct (decide (m = i)) as [->|]; [|destruct (decide (m = j)) as [->|]];
        naive_solver.
    + destruct (decide (m = i)) as [->|]; [|destruct (decide (m = j)) as [->|]];
        naive_solver.
    + rewrite <-Hb. repeat case_decide; naive_solver.
Qed.

Lemma Swap_rep h l i j :
  rep h l → i < length l → j < length l →
  ∃ h', heapData_Swap h i j = Some h' ∧ rep h' (list_swap i j l).
Proof.
  intros H Hi Hj.
  destruct (lookup_lt_is_Some_2 l i Hi) as [[ki a] Ei].
  destruct (lookup_lt_is_Some_2 l j Hj) as [[kj b] Ej].
  eexists. split; [|exact (swap_items _ _ _ _ _ _ _ _ H Ei Ej)].
  unfold heapData_Swap. rewrite (rep_key _ _ _ _ _ H Ei), (rep_key _ _ _ _ _ H Ej). simpl.
  rewrite (list_swap_insert (hd_queue h) i j ki kj)
    by eauto using rep_key.
  rewrite (rep_queue _ _ H), <-list_swap_fmap, !list_lookup_fmap,
    (list_swap_l _ _ _ (ki, a) (kj, b)), (list_swap_r _ _ _ (ki, a) (kj, b)) by done.
  simpl. rewrite (proj1 (rep_item _ _ H _ _ _) Ej). simpl.
  assert (<[kj:=HeapItem b i]> (hd_items h) !! ki = Some (HeapItem a i)) as ->.
  { rewrite lookup_insert. case_decide; [|by apply (rep_item _ _ H)].
    subst. pose proof (rep_key_pos _ _ _ _ _ _ _ H Ei Ej). naive_solver. }
  done.
Qed.

End rep.

(** ** Heap order *)

Section order_defs.
Context {A : Type} (less : A → A → bool).

Definition parent (j : nat) : nat := (j - 1) / 2.

(** The object at a position, and the order between two positions: the second
    object does not precede the first one. *)
Definition obj (l : list (string * A)) (i : nat) : option A := snd <$> l !! i.
Definition ole (x y : option A) : Prop :=
  match x, y with Some a, Some b => less b a = false | _, _ => True end.
Definition le_at (l : list (string * A)) (i j : nat) : Prop := ole (obj l i) (obj l j).

(** The first [n] positions are in heap order. *)
Definition ordered (n : nat) (l : list (string * A)) : Prop :=
  ∀ j, 0 < j < n → le_at l (parent j) j.

(** In heap order but for the pairs that involve position [i]. *)
Definition almost (n i : nat) (l : list (string * A)) : Prop :=
  (∀ j, 0 < j < n → j ≠ i → parent j ≠ i → le_at l (parent j) j) ∧
  (∀ j, 0 < j < n → parent j = i → 0 < i → le_at l (parent i) j).

Definition up_ok (n i : nat) (l : list (string * A)) : Prop :=
  almost n i l ∧ ∀ j, 0 < j < n → parent j = i → le_at l i j.

Definition down_ok (n i : nat) (l : list (string * A)) : Prop :=
  almost n i l ∧ (0 < i → le_at l (parent i) i).

End order_defs.

(** The order a heap needs: a strict weak order. *)
Class StrictWeakOrder {A} (less : A → A → bool) := {
  swo_asym a b : less a b = true → less b a = false;
  swo_negtrans a b c : less a b = false → less b c = false → less a c = false
}.

(** The comparison [less] that a heap runs with may be finer than the order
    [ord] that is kept: the heap algorithms preserve every strict weak order
    that [less] never contradicts. *)
Class OrdersBy {A} (less ord : A → A → bool) := {
  ord_swo :: StrictWeakOrder ord;
  less_ord a b : less a b = true → ord b a = false;
  nless_ord a b : less a b = false → ord a b = false
}.

#[export] Instance orders_self {A} (less : A → A → bool) :
  StrictWeakOrder less → OrdersBy less less.
Proof. intros H. split; [done|apply swo_asym|done]. Qed.

Section heap_order.
Context {A : Type} (less ord : A → A → bool).
Implicit Types (h : heapData A) (l : list (string * A)) (a b : A) (k : string).

Lemma obj_swap l i j m :
  i < length l → j < length l →
  obj (list_swap i j l) m = if decide (m = i) then obj l j
                            else if decide (m = j) then obj l i else obj l m.
Proof. intros. unfold obj. rewrite list_swap_lookup by done. by repeat case_decide. Qed.

Lemma parent_lt j : 0 < j → parent j < j.
Proof. unfold parent. divlia. Qed.
Lemma parent_child j i : 0 < j → parent j = i → j = 2 * i + 1 ∨ j = 2 * i + 2.
Proof. unfold parent. divlia. Qed.

Lemma up_ok_ordered n i l :
  up_ok ord n i l → (0 < i → le_at ord l (parent i) i) → ordered ord n l.
Proof.
  intros [[H1 _] H2] H3 j Hj. destruct (decide (j = i)) as [->|]; [apply H3; lia|].
  destruct (decide (parent j = i)) as [E|]; [rewrite E; by apply H2|]. by apply H1.
Qed.

Context `{!StrictWeakOrder ord}.

Lemma ole_trans x a z : ole ord x (Some a) → ole ord (Some a) z → ole ord x z.
Proof. destruct x, z; simpl; try done. intros ??. by eapply swo_negtrans. Qed.

Lemma ole_refl x : ole ord x x.
Proof.
  destruct x as [a|]; simpl; [|done].
  destruct (ord a a) eqn:E; [by rewrite (swo_asym _ _ E) in E|done].
Qed.


Lemma le_at_swap_ne l i j p q :
  i < length l → j < length l → p ≠ i → p ≠ j → q ≠ i → q ≠ j →
  le_at ord (list_swap i j l) p q ↔ le_at ord l p q.
Proof.
  intros Hi Hj ????. unfold le_at. rewrite !obj_swap by done. by repeat case_decide.
Qed.

Lemma less_ole `{!OrdersBy less ord} a b : less a b = true → ole ord (Some a) (Some b).
Proof. apply less_ord. Qed.

Lemma up_step `{!OrdersBy less ord} n l j a b :
  up_ok ord n j l → n ≤ length l → 0 < j < n →
  obj l j = Some a → obj l (parent j) = Some b → less a b = true →
  up_ok ord n (parent j) (list_swap (parent j) j l).
Proof.
  intros [[H1 H2] H3] Hn Hj Ea Eb Hab. pose proof (parent_lt j). remember (parent j) as i eqn:Ep.
  assert (i < length l ∧ j < length l) as [Li Lj] by lia.
  assert (obj (list_swap i j l) i = Some a) as Si
    by (rewrite obj_swap by done; case_decide; congruence).
  assert (obj (list_swap i j l) j = Some b) as Sj
    by (rewrite obj_swap by done; repeat case_decide; lia || congruence).
  assert (∀ m, m ≠ i → m ≠ j → obj (list_swap i j l) m = obj l m) as Sm
    by (intros; rewrite obj_swap by done; by repeat case_decide).
  repeat split.
  - intros m Hm Hmi Hpi. destruct (decide (m = j)) as [->|]; [done|].
    pose proof (parent_lt m). unfold le_at. rewrite (Sm m) by done.
    destruct (decide (parent m = j)) as [E|].
    + rewrite E, Sj, <-Eb. apply (H2 m); lia.
    + rewrite Sm by done. by apply (H1 m).
  - intros m Hm Hpi Hi. pose proof (parent_lt i). unfold le_at.
    rewrite (Sm (parent i)) by lia.
    assert (ole ord (obj l (parent i)) (Some b)) as Hpb.
    { rewrite <-Eb. apply (H1 i); lia. }
    destruct (decide (m = j)) as [->|]; [by rewrite Sj|].
    pose proof (parent_lt m). rewrite Sm by lia. eapply ole_trans; [exact Hpb|].
    rewrite <-Eb, <-Hpi. apply (H1 m); lia.
  - intros m Hm Hpi. unfold le_at. rewrite Si.
    destruct (decide (m = j)) as [->|]; [rewrite Sj; by apply less_ole|].
    rewrite Sm by (pose proof (parent_lt m); lia).
    eapply ole_trans; [by apply less_ole|]. rewrite <-Eb, <-Hpi. apply (H1 m); lia.
Qed.

(** [j] is a least child of [i] among the first [n] positions. *)
Definition least_child n l i j : Prop :=
  j < n ∧ 0 < j ∧ parent j = i ∧ ∀ m, 0 < m < n → parent m = i → le_at ord l j m.

Lemma down_step `{!OrdersBy less ord} n l i j a b :
  almost ord n i l → n ≤ length l → least_child n l i j →
  obj l j = Some a → obj l i = Some b → less a b = true →
  down_ok ord n j (list_swap i j l).
Proof.
  intros [H1 H2] Hn (Hjn & Hj0 & Hp & Hmin) Ea Eb Hab. pose proof (parent_lt j).
  assert (i < length l ∧ j < length l) as [Li Lj] by lia.
  assert (obj (list_swap i j l) i = Some a) as Si
    by (rewrite obj_swap by done; case_decide; congruence).
  assert (obj (list_swap i j l) j = Some b) as Sj
    by (rewrite obj_swap by done; repeat case_decide; lia || congruence).
  assert (∀ m, m ≠ i → m ≠ j → obj (list_swap i j l) m = obj l m) as Sm
    by (intros; rewrite obj_swap by done; by repeat case_decide).
  repeat split.
  - intros m Hm Hmj Hpj. pose proof (parent_lt m). unfold le_at.
    destruct (decide (m = i)) as [->|].
    { rewrite Si, Sm by lia. rewrite <-Ea. apply (H2 j); lia. }
    rewrite (Sm m) by done. destruct (decide (parent m = i)) as [E|].
    + rewrite E, Si, <-Ea. by apply Hmin.
    + rewrite Sm by done. by apply (H1 m).
  - intros m Hm Hpm _. pose proof (parent_lt m). unfold le_at.
    rewrite Hp, Si, (Sm m) by lia. rewrite <-Ea, <-Hpm. apply (H1 m); lia.
  - intros _. unfold le_at. rewrite Hp, Si, Sj. by apply less_ole.
Qed.

Lemma down_stop `{!OrdersBy less ord} n l i j a b :
  almost ord n i l → least_child n l i j →
  obj l j = Some a → obj l i = Some b → less a b = false → up_ok ord n i l.
Proof.
  intros H (Hjn & Hj0 & Hp & Hmin) Ea Eb Hab. split; [done|].
  intros m Hm Hpm. unfold le_at. rewrite Eb. eapply (ole_trans _ a); [by apply nless_ord|].
  rewrite <-Ea. by apply Hmin.
Qed.

End heap_order.

Lemma obj_Some {A} (l : list (string * A)) i :
  i < length l → ∃ k a, l !! i = Some (k, a) ∧ obj l i = Some a.
Proof.
  intros [[k a] E]%lookup_lt_is_Some_2. exists k, a. unfold obj. by rewrite E.
Qed.

(** ** The sift loops

    On a well-formed heap the loops return, permute the stored list, and, for
    a strict weak order, restore the heap order. *)
Section heap_loops.
Context {A : Type} (less : A → A → bool).
Implicit Types (h : heapData A) (l : list (string * A)) (a b : A) (k : string).

Lemma heap_up_spec fuel h l j n :
  rep h l → n ≤ length l → j < n → j < fuel →
  ∃ h' l', heap_up less fuel h j = Some h' ∧ rep h' l' ∧ l' ≡ₚ l ∧
    (∀ m, n ≤ m → l' !! m = l !! m) ∧
    (∀ ord, OrdersBy less ord → up_ok ord n j l → ordered ord n l').
Proof.
  revert h l j. induction fuel as [|fuel IH]; intros h l j H Hn Hj Hf; [lia|].
  cbn [heap_up]. change ((j - 1) / 2) with (parent j). cbn zeta. case_bool_decide as Ep.
  { exists h, l. split_and!; [done..|].
    intros ord ? Hu. eapply up_ok_ordered; [done|]. intros. pose proof (parent_lt j). lia. }
  assert (0 < j) as Hj0 by (destruct j; [done|lia]). pose proof (parent_lt j Hj0) as Hpj.
  destruct (obj_Some l j) as (kj & a & Ej & Oj); [lia|].
  destruct (obj_Some l (parent j)) as (ki & b & Ei & Oi); [lia|].
  rewrite (Less_rep less _ _ _ _ _ _ _ _ H Ej Ei). simpl.
  destruct (less a b) eqn:Hab; simpl.
  - destruct (Swap_rep _ _ (parent j) j H) as (h1 & -> & Hr1); [lia|lia|]. simpl.
    destruct (IH h1 _ (parent j) Hr1) as (h' & l' & E & Hr & Hp & Hm & Ho);
      [rewrite list_swap_length; lia|lia|lia|].
    exists h', l'. split_and!; try done.
    + by rewrite Hp, list_swap_perm.
    + intros m Hnm. rewrite Hm, list_swap_lookup by lia. repeat case_decide; try lia; done.
    + intros ord ? Hu. apply Ho; [done|]. by eapply (up_step less ord).
  - exists h, l. split_and!; [done..|].
    intros ord ? Hu. eapply up_ok_ordered; [done|]. intros _. unfold le_at. rewrite Oi, Oj. by apply nless_ord.
Qed.

Lemma least_child_choice n l i k1 a1 :
  n ≤ length l → 2 * i + 1 < n → l !! (2 * i + 1) = Some (k1, a1) →
  ∃ k a (right : bool), let j := if right then 2 * i + 1 + 1 else 2 * i + 1 in
    (∀ h, rep h l →
      (if bool_decide (2 * i + 1 + 1 < n) then heapData_Less less h (2 * i + 1 + 1) (2 * i + 1)
       else Some false) = Some right) ∧
    j < n ∧ i < j ∧ l !! j = Some (k, a) ∧
    (∀ ord, OrdersBy less ord → least_child ord n l i j).
Proof.
  intros Hn Hj E1. assert (parent (2 * i + 1) = i) by (unfold parent; divlia).
  assert (parent (2 * i + 1 + 1) = i) by (unfold parent; divlia).
  case_bool_decide as H2.
  - destruct (obj_Some l (2 * i + 1 + 1)) as (k2 & a2 & E2 & O2); [lia|].
    assert (obj l (2 * i + 1) = Some a1) as O1 by (unfold obj; by rewrite E1).
    exists (if less a2 a1 then k2 else k1), (if less a2 a1 then a2 else a1), (less a2 a1).
    split; [intros h H'; by rewrite (Less_rep less _ _ _ _ _ _ _ _ H' E2 E1)|].
    destruct (less a2 a1) eqn:Hl; split_and!; try done; try lia;
      intros ord Hswo; split_and!; try done; try lia;
      intros m Hm [->| ->]%parent_child; try lia; unfold le_at;
      replace (2 * i + 2) with (2 * i + 1 + 1) by lia; rewrite ?O1, ?O2;
      first [ apply ole_refl, _ | by apply (less_ole less ord) | by apply nless_ord ].
  - exists k1, a1, false. split_and!; try done; try lia.
    intros ord Hswo. split_and!; try done; try lia.
    intros m Hm [->| ->]%parent_child; try lia. apply ole_refl, _.
Qed.

Lemma heap_down_spec fuel h l i n :
  rep h l → n ≤ length l → n - i < fuel →
  ∃ h' l' i', heap_down less fuel h i n = Some (h', i') ∧ rep h' l' ∧ l' ≡ₚ l ∧
    (∀ m, n ≤ m → l' !! m = l !! m) ∧ i ≤ i' ∧ (i' = i → l' = l) ∧
    (∀ ord, OrdersBy less ord → almost ord n i l →
      if decide (i' = i) then up_ok ord n i l else ordered ord n l').
Proof.
  revert h l i. induction fuel as [|fuel IH]; intros h l i H Hn Hf; [lia|].
  cbn [heap_down]. case_bool_decide as Hj.
  { exists h, l, i. split_and!; try done. intros ord Hswo Ha. rewrite decide_True by done.
    split; [done|]. intros m Hm [->| ->]%parent_child; lia. }
  destruct (obj_Some l (2 * i + 1)) as (k1 & a1 & E1 & O1); [lia|].
  destruct (least_child_choice n l i k1 a1) as (kj & a & right & Hl & Hjn & Hij & Ej & Hlc);
    [lia|lia|done|].
  rewrite (Hl h H). cbn [mbind option_bind].
  set (j := if right then 2 * i + 1 + 1 else 2 * i + 1) in *.
  destruct (obj_Some l i) as (ki & b & Ei & Oi); [lia|].
  assert (obj l j = Some a) as Oj by (unfold obj; by rewrite Ej).
  rewrite (Less_rep less _ _ _ _ _ _ _ _ H Ej Ei). simpl.
  destruct (less a b) eqn:Hab; simpl.
  - destruct (Swap_rep _ _ i j H) as (h1 & -> & H1); [lia|lia|]. simpl.
    destruct (IH h1 _ j H1) as (h' & l' & i' & E & Hr & Hp & Hm & Hle & Heq & Ho);
      [rewrite list_swap_length; lia|lia|].
    exists h', l', i'. split_and!; try done; try lia.
    + by rewrite Hp, list_swap_perm.
    + intros m Hnm. rewrite Hm, list_swap_lookup by lia. repeat case_decide; try lia; done.
    + intros ord Hswo Ha. rewrite decide_False by lia.
      destruct (down_step less ord n l i j a b) as [Ha' Hd]; [auto..|].
      specialize (Ho ord Hswo Ha'). case_decide as Ei'; [|done].
      rewrite (Heq Ei'). by eapply up_ok_ordered.
  - exists h, l, i. split_and!; try done. intros ord Hswo Ha. rewrite decide_True by done.
    eapply (down_stop less ord); eauto.
Qed.

End heap_loops.

(** ** The abstract value *)
Section heap_contents.
Context {A : Type}.
Implicit Types (h : heapData A) (l : list (string * A)) (a b : A) (k : string).

Lemma contents_rep h l k a : rep h l → contents h !! k = Some a ↔ (k, a) ∈ l.
Proof.
  intros H. unfold contents. rewrite lookup_fmap, fmap_Some, list_elem_of_lookup. split.
  - intros ([b i] & E & ->). exists i. by apply (rep_item _ _ H).
  - intros [i E]. exists (HeapItem a i). split; [|done]. by apply (rep_item _ _ H).
Qed.

Lemma rep_contents h l : rep h l → contents h = list_to_map l.
Proof.
  intros H. apply map_eq. intros k. apply option_eq. intros a.
  by rewrite (contents_rep _ _ _ _ H), elem_of_list_to_map by apply H.
Qed.

Lemma rep_inj h l l' : rep h l → rep h l' → l = l'.
Proof.
  intros H H'. apply list_eq. intros i. apply option_eq. intros [k a].
  by rewrite (rep_item _ _ H), (rep_item _ _ H').
Qed.

Lemma rep_perm_contents h h' l l' : rep h l → rep h' l' → l' ≡ₚ l → contents h' = contents h.
Proof.
  intros H H' Hp. rewrite (rep_contents _ _ H), (rep_contents _ _ H').
  apply list_to_map_proper; [apply H'|done].
Qed.

Lemma rep_not_in h l k : rep h l → hd_items h !! k = None ↔ k ∉ l.*1.
Proof.
  intros H. rewrite list_elem_of_fmap. split.
  - intros E ([k' a] & -> & [i Hi]%list_elem_of_lookup). apply (rep_item _ _ H) in Hi.
    simpl in E. congruence.
  - intros Hn. apply eq_None_not_Some. intros [[a i] E]. apply Hn.
    exists (k, a). split; [done|]. apply list_elem_of_lookup. exists i. by apply (rep_item _ _ H).
Qed.

Lemma rep_Len h l : rep h l → Heap_Len h = size (contents h).
Proof.
  intros H. unfold Heap_Len. rewrite (rep_length _ _ H), (rep_contents _ _ H).
  rewrite <-(length_map_to_list (list_to_map l)).
  by rewrite map_to_list_to_map by apply H.
Qed.

Lemma NewHeap_rep : rep (NewHeap : heapData A) [].
Proof.
  split; simpl; [done|constructor|]. intros. by rewrite lookup_nil, lookup_empty.
Qed.

Lemma Push_rep h l k a :
  rep h l → hd_items h !! k = None → rep (heapData_Push h k a) (l ++ [(k, a)]).
Proof.
  intros H Hk. pose proof (proj1 (rep_not_in _ _ _ H) Hk) as Hk'.
  unfold heapData_Push. split; simpl.
  - by rewrite (rep_queue _ _ H), fmap_app.
  - rewrite fmap_app. apply NoDup_app. split_and!; [apply H| |apply NoDup_singleton].
    intros x Hx ->%list_elem_of_singleton. done.
  - intros i k' b. rewrite (rep_length _ _ H), lookup_insert. case_decide as E.
    + subst k'. rewrite lookup_app_Some, list_lookup_singleton_Some. split.
      * intros [Hi|(Hi & Hi' & Hi'')].
        { destruct Hk'. apply list_elem_of_fmap. exists (k, b).
          split; [done|]. by eapply list_elem_of_lookup_2. }
        simplify_eq. by replace (length l) with i by lia.
      * intros ?. simplify_eq. right. split; [done|]. split; [lia|done].
    + rewrite lookup_app_Some, list_lookup_singleton_Some, <-(rep_item _ _ H). naive_solver.
Qed.

Lemma Pop_rep h l k a :
  rep h (l ++ [(k, a)]) → ∃ h', heapData_Pop h = Some (h', Some a) ∧ rep h' l.
Proof.
  intros H. unfold heapData_Pop.
  assert (hd_queue h = l.*1 ++ [k]) as E by (by rewrite (rep_queue _ _ H), fmap_app).
  assert (hd_items h !! k = Some (HeapItem a (length l))) as Ek.
  { apply (rep_item _ _ H). by apply list_lookup_middle. }
  rewrite E, last_snoc. simpl. rewrite Ek. eexists. split; [done|].
  pose proof (rep_nodup _ _ H) as Hnd. rewrite fmap_app in Hnd. apply NoDup_app in Hnd as (Hnd & Hk & _).
  rewrite length_app. simpl. rewrite Nat.add_sub, take_app_length.
  split; simpl; [done|done|]. intros i k' b. rewrite lookup_delete. case_decide as Ekk.
  - subst. split; [|done]. intros Hi. destruct (Hk k'); [|by constructor].
    apply list_elem_of_fmap. exists (k', b). split; [done|]. by eapply list_elem_of_lookup_2.
  - rewrite <-(rep_item _ _ H), lookup_app_Some, list_lookup_singleton_Some. naive_solver.
Qed.

Lemma set_rep h l k a b i :
  rep h l → hd_items h !! k = Some (HeapItem a i) →
  rep (HeapData (<[k := HeapItem b i]> (hd_items h)) (hd_queue h)) (<[i := (k, b)]> l).
Proof.
  intros H Ek. pose proof Ek as Ei. apply (rep_item _ _ H) in Ei.
  pose proof (lookup_lt_Some _ _ _ Ei) as Hi.
  assert ((<[i:=(k, b)]> l).*1 = l.*1) as El.
  { rewrite list_fmap_insert. apply list_insert_id. by rewrite list_lookup_fmap, Ei. }
  split; simpl.
  - by rewrite El, (rep_queue _ _ H).
  - rewrite El. apply H.
  - intros j k' c. rewrite list_lookup_insert, lookup_insert.
    pose proof (rep_item _ _ H j k' c) as Hb.
    destruct (decide (i = j ∧ i < length l)) as [[-> _]|Hne]; destruct (decide (k = k')) as [<-|].
    + naive_solver.
    + rewrite <-Hb. naive_solver.
    + split; [|naive_solver]. rewrite Hb. naive_solver.
    + done.
Qed.

End heap_contents.

(** ** container/heap on well-formed heaps *)
Section heap_ops.
Context {A : Type} (less : A → A → bool).
Implicit Types (h : heapData A) (l : list (string * A)) (a b : A) (k : string).

Lemma obj_app_l l l' i : i < length l → obj (l ++ l') i = obj l i.
Proof. intros. unfold obj. by rewrite lookup_app_l. Qed.

Lemma obj_take n l i : i < n → obj (take n l) i = obj l i.
Proof. intros. unfold obj. by rewrite lookup_take_lt. Qed.

Lemma obj_insert_ne l i j x : i ≠ j → obj (<[i := x]> l) j = obj l j.
Proof. intros. unfold obj. by rewrite list_lookup_insert_ne. Qed.

Lemma ordered_take (ord : A → A → bool) n l : ordered ord n l → ordered ord n (take n l).
Proof.
  clear less. intros H j Hj. pose proof (parent_lt j). unfold le_at. rewrite !obj_take by lia. by apply H.
Qed.

Lemma ordered_snoc_up (ord : A → A → bool) l x : ordered ord (length l) l → up_ok ord (S (length l)) (length l) (l ++ [x]).
Proof.
  clear less. intros H. split; [split|].
  - intros j Hj Hne Hp. pose proof (parent_lt j). unfold le_at.
    rewrite !obj_app_l by lia. apply H. lia.
  - intros j Hj Hp. pose proof (parent_lt j). lia.
  - intros j Hj Hp. pose proof (parent_lt j). lia.
Qed.

Lemma ordered_grandparent (ord : A → A → bool) `{!StrictWeakOrder ord} n l i j :
  ordered ord n l → n ≤ length l → 0 < j < n → parent j = i → 0 < i → le_at ord l (parent i) j.
Proof.
  clear less. intros H Hn Hj Hp Hi. pose proof (parent_lt j).
  destruct (obj_Some l i) as (k & a & _ & E); [lia|].
  unfold le_at. eapply (ole_trans ord _ a).
  - rewrite <-E. apply (H i). lia.
  - rewrite <-E, <-Hp. apply (H j). lia.
Qed.

(** What is at position [i] does not matter. *)
Lemma almost_other (ord : A → A → bool) n l l' i :
  almost ord n i l → (∀ m, m < n → m ≠ i → obj l' m = obj l m) → almost ord n i l'.
Proof.
  clear less. intros [H1 H2] E. split.
  - intros j Hj Hne Hp. pose proof (parent_lt j). unfold le_at. rewrite !E by lia. by apply H1.
  - intros j Hj Hp Hi. pose proof (parent_lt j). pose proof (parent_lt i). unfold le_at.
    rewrite !E by lia. by apply H2.
Qed.

Lemma almost_le (ord : A → A → bool) n n' l i : almost ord n i l → n' ≤ n → almost ord n' i l.
Proof. clear less. intros [H1 H2] Hn. split; intros; [apply H1|apply H2]; lia. Qed.

(** A heap in order in which position [i] is overwritten. *)
Lemma ordered_almost (ord : A → A → bool) `{!StrictWeakOrder ord} n l l' i :
  ordered ord n l → n ≤ length l → (∀ m, m < n → m ≠ i → obj l' m = obj l m) →
  almost ord n i l'.
Proof.
  clear less. intros H Hn E. split.
  - intros j Hj Hne Hp. pose proof (parent_lt j). unfold le_at.
    rewrite !E by lia. by apply H.
  - intros j Hj Hp Hi. pose proof (parent_lt j). pose proof (parent_lt i). unfold le_at.
    rewrite !E by lia. by eapply ordered_grandparent.
Qed.

Lemma cut_rep h l n k a :
  rep h l → length l = S n → l !! n = Some (k, a) →
  ∃ h', heapData_Pop h = Some (h', Some a) ∧ rep h' (take n l).
Proof.
  intros H Hl E. rewrite <-(take_drop_middle l n (k, a)) in H by done.
  rewrite drop_ge in H by lia. by apply (Pop_rep _ _ k).
Qed.

Lemma down_spec h l i n :
  rep h l → n ≤ length l →
  ∃ h' l' (moved : bool), down less h i n = Some (h', moved) ∧ rep h' l' ∧ l' ≡ₚ l ∧
    (∀ m, n ≤ m → l' !! m = l !! m) ∧ (moved = false → l' = l) ∧
    (∀ ord, OrdersBy less ord → almost ord n i l →
      if moved then ordered ord n l' else up_ok ord n i l).
Proof.
  intros H Hn. unfold down.
  destruct (heap_down_spec less (S n) h l i n H Hn)
    as (h' & l' & i' & -> & Hr & Hp & Hm & Hle & Heq & Ho); [lia|].
  simpl. exists h', l', (bool_decide (i < i')). split_and!; try done.
  - intros E. bool_to_prop. apply Heq. lia.
  - intros ord Hswo Ha. specialize (Ho ord Hswo Ha). repeat case_decide; case_bool_decide; try lia; done.
Qed.


Lemma heap_Push_spec h l k a :
  rep h l → hd_items h !! k = None →
  ∃ h' l', heap_Push less h k a = Some h' ∧ rep h' l' ∧ l' ≡ₚ (k, a) :: l ∧
    (∀ ord, OrdersBy less ord → ordered ord (length l) l → ordered ord (length l') l').
Proof.
  intros H Hk. pose proof (Push_rep _ _ _ a H Hk) as Hr.
  assert (length (l ++ [(k, a)]) = S (length l)) as Hlen by (rewrite length_app; simpl; lia).
  unfold heap_Push, heapData_Len, up. rewrite (rep_length _ _ Hr), Hlen, Nat.sub_1_r. simpl Nat.pred.
  destruct (heap_up_spec less (S (length l)) _ _ (length l) (S (length l)) Hr)
    as (h' & l' & -> & Hr' & Hp & _ & Ho); [lia|lia|lia|].
  exists h', l'. split_and!; [done|done| |].
  - rewrite Hp. by rewrite Permutation_app_comm.
  - intros ord Hswo Hord. rewrite (Permutation_length Hp), Hlen. apply Ho; [done|].
    by apply ordered_snoc_up.
Qed.

(** [down], then [up] if nothing moved: the common body of Fix and Remove. *)
Lemma sift_spec h l i n :
  rep h l → n ≤ length l → i < n →
  ∃ h1 (moved : bool), down less h i n = Some (h1, moved) ∧
  ∃ h' l', (if moved then Some h1 else up less h1 i) = Some h' ∧ rep h' l' ∧ l' ≡ₚ l ∧
    (∀ m, n ≤ m → l' !! m = l !! m) ∧
    (∀ ord, OrdersBy less ord → almost ord n i l → ordered ord n l').
Proof.
  intros H Hn Hi.
  destruct (down_spec h l i n H Hn) as (h1 & l1 & moved & E & Hr & Hp & Hm & Heq & Ho).
  exists h1, moved. split; [done|]. destruct moved; [naive_solver|].
  rewrite (Heq eq_refl) in Hr. unfold up.
  destruct (heap_up_spec less (S i) h1 l i n Hr) as (h' & l' & -> & Hr' & Hp' & Hm' & Ho');
    [lia..|].
  exists h', l'. split_and!; try done. intros ord Hswo Ha. by apply Ho', Ho.
Qed.

Lemma heap_Fix_spec h l i :
  rep h l → i < length l →
  ∃ h' l', heap_Fix less h i = Some h' ∧ rep h' l' ∧ l' ≡ₚ l ∧
    (∀ ord, OrdersBy less ord → almost ord (length l) i l → ordered ord (length l') l').
Proof.
  intros H Hi. unfold heap_Fix, heapData_Len. rewrite (rep_length _ _ H).
  destruct (sift_spec h l i (length l) H) as (h1 & moved & -> & h' & l' & E & Hr & Hp & _ & Ho);
    [lia..|].
  simpl. exists h', l'. split_and!; try done. by rewrite (Permutation_length Hp).
Qed.

Lemma heap_Remove_spec h l i k a :
  rep h l → l !! i = Some (k, a) →
  ∃ h' l', heap_Remove less h i = Some (h', Some a) ∧ rep h' l' ∧ l ≡ₚ (k, a) :: l' ∧
    (∀ ord, OrdersBy less ord → almost ord (length l) i l → ordered ord (length l') l').
Proof.
  intros H Hi. pose proof (lookup_lt_Some _ _ _ Hi) as Hlt.
  unfold heap_Remove, heapData_Len. rewrite (rep_length _ _ H).
  destruct (length l) as [|n] eqn:Hlen; [lia|].
  assert (∃ h1 l1, (if bool_decide (n = i) then Some h
     else h1 ← heapData_Swap h i n; r ← down less h1 i n;
          if r.2 : bool then Some r.1 else up less r.1 i) = Some h1 ∧
     rep h1 l1 ∧ l1 ≡ₚ l ∧ l1 !! n = Some (k, a) ∧
     (∀ ord, OrdersBy less ord → almost ord (S n) i l → ordered ord n l1))
    as (h1 & l1 & -> & Hr & Hp & En & Ho).
  { case_bool_decide as Eni.
    - subst. exists h, l. split_and!; try done. intros ord _ Hord j Hj. pose proof (parent_lt j). apply Hord; lia.
    - destruct (Swap_rep h l i n H) as (h1 & -> & Hr1); [lia|lia|]. simpl.
      destruct (sift_spec h1 _ i n Hr1) as (h2 & moved & -> & h' & l' & E & Hr & Hp & Hm & Ho);
        [rewrite list_swap_length; lia|lia|].
      simpl. exists h', l'. split_and!; try done.
      + by rewrite Hp, list_swap_perm.
      + rewrite Hm, list_swap_lookup by lia. repeat case_decide; try lia; done.
      + intros ord Hswo Hord. apply Ho; [done|]. apply (almost_other ord n l).
        * by eapply almost_le; [done|lia].
        * intros m Hm' Hne. rewrite obj_swap by lia. repeat case_decide; try lia; done. }
  simpl. assert (length l1 = S n) as Hl1 by (by rewrite (Permutation_length Hp)).
  destruct (cut_rep h1 l1 n k a Hr Hl1 En) as (h' & -> & Hr').
  exists h', (take n l1). split_and!; [done|done| |].
  - rewrite <-Hp, <-(take_drop_middle l1 n (k, a)) at 1 by done.
    rewrite drop_ge by lia. by rewrite Permutation_app_comm.
  - intros ord Hswo Hord. rewrite length_take, Hl1, Nat.min_l by lia.
    by apply ordered_take, Ho.
Qed.

Lemma heap_Pop_spec h l k a :
  rep h l → l !! 0 = Some (k, a) →
  ∃ h' l', heap_Pop less h = Some (h', Some a) ∧ rep h' l' ∧ l ≡ₚ (k, a) :: l' ∧
    (∀ ord, OrdersBy less ord → ordered ord (length l) l → ordered ord (length l') l').
Proof.
  intros H Hi. pose proof (lookup_lt_Some _ _ _ Hi) as Hlt.
  unfold heap_Pop, heapData_Len. rewrite (rep_length _ _ H).
  destruct (length l) as [|n] eqn:Hlen; [lia|].
  destruct (Swap_rep h l 0 n H) as (h1 & -> & Hr1); [lia|lia|]. simpl.
  destruct (down_spec h1 _ 0 n Hr1) as (h2 & l2 & moved & -> & Hr & Hp & Hm & Heq & Ho);
    [rewrite list_swap_length; lia|].
  simpl. assert (length l2 = S n) as Hl2 by (by rewrite (Permutation_length Hp), list_swap_length).
  destruct (cut_rep h2 l2 n k a Hr Hl2) as (h' & -> & Hr').
  { rewrite Hm, list_swap_lookup by lia. repeat case_decide; congruence. }
  exists h', (take n l2). split_and!; [done|done| |].
  - rewrite <-(list_swap_perm l 0 n), <-Hp, <-(take_drop_middle l2 n (k, a)) at 1.
    + rewrite drop_ge by lia. by rewrite Permutation_app_comm.
    + rewrite Hm, list_swap_lookup by lia. repeat case_decide; congruence.
  - intros ord Hswo Hord. rewrite length_take, Hl2, Nat.min_l by lia. apply ordered_take.
    assert (almost ord n 0 (list_swap 0 n l)) as Ha.
    { apply (ordered_almost ord n l); [intros j Hj; apply Hord; lia|lia|].
      intros m Hm' Hne. rewrite obj_swap by lia. repeat case_decide; try lia; done. }
    specialize (Ho ord Hswo Ha). destruct moved; [done|]. rewrite (Heq eq_refl).
    eapply up_ok_ordered; [done|lia].
Qed.

(** The root precedes every stored object. *)
Lemma ordered_root (ord : A → A → bool) `{!StrictWeakOrder ord} l j :
  ordered ord (length l) l → j < length l → le_at ord l 0 j.
Proof.
  clear less. intros H. induction j as [j IH] using lt_wf_ind. intros Hj.
  destruct (decide (j = 0)) as [->|]; [apply (ole_refl ord)|].
  pose proof (parent_lt j). destruct (obj_Some l (parent j)) as (k & a & _ & E); [lia|].
  unfold le_at. eapply (ole_trans ord _ a); rewrite <-E; [apply IH; lia|]. apply H. lia.
Qed.

End heap_ops.

(** ** The methods of Heap *)
Section heap_invariants.
Context {A : Type} (keyFunc : A → error + string) (less : A → A → bool).
Implicit Types (h : heapData A) (a : A) (k : string).

(** The representation invariant: the items and the array of keys agree and
    the array is in heap order. *)
Definition heap_inv h : Prop := ∃ l, rep h l ∧ ordered less (length l) l.

(** The same, but for the object under key [k]. *)
Definition heap_inv_but k h : Prop :=
  ∃ l i a, rep h l ∧ l !! i = Some (k, a) ∧ almost less (length l) i l.

(** Every object is stored under its own key. *)
Definition keyed h : Prop := map_Forall (λ k a, keyFunc a = inr k) (contents h).

(** [a] may be served first: no stored object precedes it. *)
Definition least (m : gmap string A) a : Prop := ∀ k b, m !! k = Some b → less b a = false.

End heap_invariants.

Section heap_methods.
Context {A : Type} (keyFunc : A → error + string) (less : A → A → bool).
Implicit Types (h : heapData A) (l : list (string * A)) (a b : A) (k : string).

Lemma heap_inv_wf h : heap_inv less h → wf h.
Proof. intros (l & H & _). by exists l. Qed.

Lemma NewHeap_contents : contents (NewHeap : heapData A) = ∅.
Proof. apply fmap_empty. Qed.
Lemma NewHeap_wf : wf (NewHeap : heapData A).
Proof. exists []. apply NewHeap_rep. Qed.
Lemma NewHeap_inv : heap_inv less NewHeap.
Proof. exists []. split; [apply NewHeap_rep|]. intros j Hj. simpl in Hj. lia. Qed.

Lemma contents_items h k : contents h !! k = None ↔ hd_items h !! k = None.
Proof. unfold contents. by rewrite lookup_fmap, fmap_None. Qed.

Lemma Heap_Push_ok h k a :
  wf h → hd_items h !! k = None →
  ∃ h', heap_Push less h k a = Some h' ∧ wf h' ∧ contents h' = <[k := a]> (contents h) ∧
    (∀ ord, OrdersBy less ord → heap_inv ord h → heap_inv ord h').
Proof.
  intros [l H] Hk. destruct (heap_Push_spec less h l k a H Hk) as (h' & l' & -> & Hr & Hp & Ho).
  exists h'. split_and!; [done|by exists l'| |].
  - rewrite (rep_contents _ _ Hr), (rep_contents _ _ H).
    rewrite (list_to_map_proper l' ((k, a) :: l)); [done|apply Hr|done].
  - intros ord Hswo (l2 & H2 & Ho2). exists l'. split; [done|]. apply Ho; [done|].
    by rewrite <-(rep_inj h l2 l).
Qed.

Lemma Heap_Add_ok h a k :
  wf h → keyFunc a = inr k →
  ∃ h', Heap_Add less keyFunc h a = Some (h', None) ∧ wf h' ∧
    contents h' = <[k := a]> (contents h) ∧
    (∀ ord, OrdersBy less ord → heap_inv ord h → heap_inv ord h').
Proof.
  intros [l H] Hk. unfold Heap_Add. rewrite Hk.
  destruct (hd_items h !! k) as [[b i]|] eqn:Ek.
  - pose proof (set_rep h l k b a i H Ek) as Hr. pose proof Ek as Ei.
    apply (rep_item _ _ H) in Ei. pose proof (lookup_lt_Some _ _ _ Ei) as Hi.
    destruct (heap_Fix_spec less _ _ i Hr) as (h' & l' & E & Hr' & Hp & Ho);
      [by rewrite length_insert|].
    simpl. rewrite E. simpl. exists h'. split_and!; [done|by exists l'| |].
    + rewrite (rep_perm_contents _ _ _ _ Hr Hr' Hp). unfold contents. simpl.
      by rewrite fmap_insert.
    + intros ord Hswo (l2 & H2 & Ho2). rewrite (rep_inj h l2 l) in Ho2 by done.
      exists l'. split; [done|]. apply Ho; [done|]. rewrite length_insert.
      apply (ordered_almost ord _ l); [done|done|].
      intros m _ Hne. by apply obj_insert_ne.
  - destruct (Heap_Push_ok h k a) as (h' & -> & Hw & Hc & Ho); [by exists l|done|].
    exists h'. naive_solver.
Qed.

Lemma Heap_AddIfNotPresent_ok h a k :
  wf h → keyFunc a = inr k →
  ∃ h', Heap_AddIfNotPresent less keyFunc h a = Some (h', None) ∧ wf h' ∧
    contents h' = match contents h !! k with Some _ => contents h | None => <[k := a]> (contents h) end ∧
    (∀ ord, OrdersBy less ord → heap_inv ord h → heap_inv ord h').
Proof.
  intros Hw Hk. unfold Heap_AddIfNotPresent. rewrite Hk. unfold contents at 2.
  rewrite lookup_fmap. destruct (hd_items h !! k) as [it|] eqn:Ek; simpl.
  - exists h. naive_solver.
  - destruct (Heap_Push_ok h k a) as (h' & -> & Hw' & Hc & Ho); [done..|].
    exists h'. naive_solver.
Qed.

Lemma rep_delete h h' l l' k a :
  rep h l → rep h' l' → l ≡ₚ (k, a) :: l' →
  contents h !! k = Some a ∧ contents h' = delete k (contents h).
Proof.
  intros H H' Hp. assert (NoDup ((k, a) :: l').*1) as Hnd.
  { rewrite <-Hp. apply H. }
  assert (contents h = <[k := a]> (contents h')) as ->.
  { rewrite (rep_contents _ _ H), (rep_contents _ _ H').
    rewrite (list_to_map_proper l ((k, a) :: l')); [done|apply H|done]. }
  split; [apply lookup_insert_eq|]. rewrite delete_insert_id; [done|].
  rewrite (rep_contents _ _ H'). apply not_elem_of_list_to_map_1.
  by apply NoDup_cons in Hnd as [? _].
Qed.

(** A method that takes out one entry of the stored list. *)
Lemma remove_transfer h h' l l' k a :
  rep h l → rep h' l' → l ≡ₚ (k, a) :: l' →
  wf h' ∧ contents h !! k = Some a ∧ contents h' = delete k (contents h).
Proof.
  intros H H' Hp. destruct (rep_delete _ _ _ _ _ _ H H' Hp). split_and!; try done. by exists l'.
Qed.

Lemma heap_inv_but_intro ord k h :
  StrictWeakOrder ord → heap_inv ord h → is_Some (contents h !! k) → heap_inv_but ord k h.
Proof.
  clear keyFunc less. intros Hswo (l & H & Ho) [a Ha].
  apply (contents_rep _ _ _ _ H), list_elem_of_lookup in Ha as [i Hi].
  exists l, i, a. split_and!; [done..|]. by apply (ordered_almost ord _ l).
Qed.

(** The order of the other objects alone matters to [heap_inv_but]. *)
Lemma heap_inv_but_ext ord ord' k h :
  (∀ k1 k2 a b, contents h !! k1 = Some a → contents h !! k2 = Some b → k1 ≠ k → k2 ≠ k →
     ord b a = false → ord' b a = false) →
  heap_inv_but ord k h → heap_inv_but ord' k h.
Proof.
  clear keyFunc less. intros He (l & i & a & H & Hi & H1 & H2).
  assert (∀ p q, p ≠ i → q ≠ i → le_at ord l p q → le_at ord' l p q) as Hle.
  { intros p q Hp Hq. unfold le_at, ole, obj.
    destruct (l !! p) as [[k1 c]|] eqn:E1; simpl; [|done].
    destruct (l !! q) as [[k2 d]|] eqn:E2; simpl; [|done].
    apply (He k1 k2).
    - apply (contents_rep _ _ _ _ H). by eapply list_elem_of_lookup_2.
    - apply (contents_rep _ _ _ _ H). by eapply list_elem_of_lookup_2.
    - intros ->. by pose proof (rep_key_pos _ _ _ _ _ _ _ H Hi E1).
    - intros ->. by pose proof (rep_key_pos _ _ _ _ _ _ _ H Hi E2). }
  exists l, i, a. split_and!; [done..|]. split.
  - intros j Hj Hne Hp. apply Hle; [done|done|]. by apply H1.
  - intros j Hj Hp Hpos. pose proof (parent_lt j). pose proof (parent_lt i).
    apply Hle; [lia|lia|]. by apply H2.
Qed.

Lemma heap_inv_ext ord ord' h :
  (∀ k1 k2 a b, contents h !! k1 = Some a → contents h !! k2 = Some b →
     ord b a = false → ord' b a = false) →
  heap_inv ord h → heap_inv ord' h.
Proof.
  clear keyFunc less. intros He (l & H & Ho). exists l. split; [done|].
  intros j Hj. specialize (Ho j Hj). revert Ho. unfold le_at, ole, obj.
  destruct (l !! parent j) as [[k1 c]|] eqn:E1; simpl; [|done].
  destruct (l !! j) as [[k2 d]|] eqn:E2; simpl; [|done].
  apply (He k1 k2); apply (contents_rep _ _ _ _ H); by eapply list_elem_of_lookup_2.
Qed.

Lemma Heap_Delete_ok h a k :
  wf h → keyFunc a = inr k → is_Some (contents h !! k) →
  ∃ h', Heap_Delete less keyFunc h a = Some (h', None) ∧ wf h' ∧
    contents h' = delete k (contents h) ∧
    (∀ ord, OrdersBy less ord → heap_inv_but ord k h → heap_inv ord h').
Proof.
  intros [l H] Hk [b Hb]. unfold Heap_Delete. rewrite Hk.
  unfold contents in Hb. rewrite lookup_fmap in Hb.
  destruct (hd_items h !! k) as [[c i]|] eqn:Ek; [|done]. simpl.
  pose proof Ek as Ei. apply (rep_item _ _ H) in Ei.
  destruct (heap_Remove_spec less h l i k c H Ei) as (h' & l' & -> & Hr & Hp & Ho).
  destruct (remove_transfer _ _ _ _ _ _ H Hr Hp) as (? & ? & ?).
  exists h'. split_and!; [done..|]. intros ord Hord (l2 & i2 & a2 & Hl2 & Hi2 & Ha2).
  rewrite (rep_inj h l2 l) in Ha2, Hi2 by done. exists l'. split; [done|]. apply Ho; [done|].
  by rewrite (rep_key_pos _ _ _ _ _ _ _ H Ei Hi2).
Qed.

Lemma Heap_Delete_absent h a k :
  keyFunc a = inr k → contents h !! k = None →
  Heap_Delete less keyFunc h a = Some (h, Some "object not found"%string).
Proof. intros Hk Hn%contents_items. unfold Heap_Delete. by rewrite Hk, Hn. Qed.

Lemma rep_head h l : rep h l → contents h ≠ ∅ → ∃ k a, l !! 0 = Some (k, a).
Proof.
  intros H Hne. destruct l as [|[k a] l]; [|by exists k, a].
  destruct Hne. by rewrite (rep_contents _ _ H).
Qed.

Lemma Heap_Pop_ok h :
  wf h → contents h ≠ ∅ →
  ∃ h' k a, Heap_Pop less h = Some (h', inr a) ∧ Heap_Peek h = Some (Some a) ∧ wf h' ∧
    contents h !! k = Some a ∧ contents h' = delete k (contents h) ∧
    (∀ ord, OrdersBy less ord → heap_inv ord h → heap_inv ord h' ∧ least ord (contents h) a).
Proof.
  intros [l H] Hne. destruct (rep_head _ _ H Hne) as (k & a & E0).
  unfold Heap_Pop.
  destruct (heap_Pop_spec less h l k a H E0) as (h' & l' & -> & Hr & Hp & Ho). simpl.
  destruct (remove_transfer _ _ _ _ _ _ H Hr Hp) as (? & ? & ?).
  exists h', k, a. split_and!; try done.
  - unfold Heap_Peek, heapData_Peek. rewrite (rep_queue _ _ H).
    destruct l as [|x l]; [done|]. simplify_eq/=.
    by rewrite (proj1 (rep_item _ _ H 0 k a) eq_refl).
  - intros ord Hswo Hinv. destruct Hinv as (l2 & Hl2 & Ho2).
    rewrite (rep_inj h l2 l) in Ho2 by done. split; [exists l'; by auto|]. intros k' b Hb.
    apply (contents_rep _ _ _ _ H), list_elem_of_lookup in Hb as [j Hj].
    pose proof (ordered_root ord l j Ho2 (lookup_lt_Some _ _ _ Hj)) as Hle.
    unfold le_at, obj in Hle. by rewrite E0, Hj in Hle.
Qed.

Lemma Heap_empty h : wf h → contents h = ∅ → hd_queue h = [].
Proof.
  intros [l H] E. rewrite (rep_queue _ _ H). destruct l as [|[k a] l]; [done|].
  assert (contents h !! k = Some a) as E' by (apply (contents_rep _ _ _ _ H); by left).
  by rewrite E in E'.
Qed.

Lemma Heap_Peek_empty h : wf h → contents h = ∅ → Heap_Peek h = Some None.
Proof. intros Hw E. unfold Heap_Peek, heapData_Peek. by rewrite (Heap_empty h). Qed.

Lemma Heap_Pop_empty h : wf h → contents h = ∅ → Heap_Pop less h = panic.
Proof.
  intros Hw E. unfold Heap_Pop, heap_Pop, heapData_Len. by rewrite (Heap_empty h).
Qed.

Lemma Heap_GetByKey_contents h k : Heap_GetByKey h k = contents h !! k.
Proof. unfold Heap_GetByKey, contents. by rewrite lookup_fmap. Qed.

Lemma Heap_Get_contents h a k : keyFunc a = inr k → Heap_Get keyFunc h a = inr (contents h !! k).
Proof. intros Hk. unfold Heap_Get. by rewrite Hk, Heap_GetByKey_contents. Qed.

Lemma Heap_List_perm `{MapRange} h : Heap_List h ≡ₚ (map_to_list (contents h)).*2.
Proof.
  unfold Heap_List, contents. rewrite range_perm, map_to_list_fmap, <-!list_fmap_compose.
  apply reflexive_eq, list_fmap_ext. by intros i [k it] _.
Qed.

Lemma heap_poke_contents k f h : contents (heap_poke k f h) = alter f k (contents h).
Proof.
  unfold contents, heap_poke. simpl. apply map_eq. intros k'.
  rewrite lookup_fmap, !lookup_alter, !lookup_fmap. case_decide; [|done]. subst.
  by destruct (hd_items h !! k').
Qed.

(** An in-place change that the order does not see keeps the invariant. *)
Lemma heap_poke_ok k f h :
  (∀ a b, less (f a) b = less a b) → (∀ a b, less b (f a) = less b a) →
  heap_inv less h → heap_inv less (heap_poke k f h).
Proof.
  clear keyFunc.
  intros Hl Hr (l & H & Ho). destruct (hd_items h !! k) as [[a i]|] eqn:Ek.
  - exists (<[i := (k, f a)]> l). split.
    + unfold heap_poke. replace (alter _ k (hd_items h)) with (<[k := HeapItem (f a) i]> (hd_items h)).
      * by eapply set_rep.
      * apply map_eq. intros k'. rewrite lookup_insert, lookup_alter.
        case_decide as E; [|done]. subst. by rewrite Ek.
    + rewrite length_insert. intros j Hj. specialize (Ho j Hj).
      apply (rep_item _ _ H) in Ek. unfold le_at, obj in *. rewrite !list_lookup_insert.
      repeat case_decide; simpl; try done.
      * pose proof (parent_lt j). lia.
      * destruct_and!. subst. rewrite Ek in Ho. simpl in Ho.
        destruct (l !! j) as [[k' b]|]; simpl in *; [|done]. by rewrite Hr.
      * destruct_and!. subst. rewrite Ek in Ho. simpl in Ho.
        destruct (l !! parent _) as [[k' b]|]; simpl in *; [|done]. by rewrite Hl.
  - exists l. split; [|done]. unfold heap_poke. rewrite alter_id' by done. by destruct h.
Qed.

Lemma Heap_Len_contents h : wf h → Heap_Len h = size (contents h).
Proof. intros [l H]. by eapply rep_Len. Qed.

End heap_methods.

(** ** Refinement: a Heap is a keyed priority map *)

Inductive heap_op (A : Type) :=
  | OpAdd (a : A) | OpAddIfNotPresent (a : A) | OpUpdate (a : A) | OpDelete (a : A) | OpPop.
Arguments OpAdd {A} _.
Arguments OpAddIfNotPresent {A} _.
Arguments OpUpdate {A} _.
Arguments OpDelete {A} _.
Arguments OpPop {A}.

Inductive heap_reply (A : Type) := ROk | RErr (e : error) | RObj (a : A).
Arguments ROk {A}.
Arguments RErr {A} _.
Arguments RObj {A} _.

Section heap_refinement.
Context {A : Type} (keyFunc : A → error + string) (less : A → A → bool).
Implicit Types (h : heapData A) (m : gmap string A) (a b : A) (k : string).

Definition reply_of (e : option error) : heap_reply A :=
  match e with None => ROk | Some e => RErr e end.

(** One method call on the concrete heap. *)
Definition heap_exec h (op : heap_op A) : comp (heapData A * heap_reply A) :=
  match op with
  | OpAdd a => r ← Heap_Add less keyFunc h a; Some (r.1, reply_of r.2)
  | OpAddIfNotPresent a => r ← Heap_AddIfNotPresent less keyFunc h a; Some (r.1, reply_of r.2)
  | OpUpdate a => r ← Heap_Update less keyFunc h a; Some (r.1, reply_of r.2)
  | OpDelete a => r ← Heap_Delete less keyFunc h a; Some (r.1, reply_of r.2)
  | OpPop => r ← Heap_Pop less h;
             Some (r.1, match r.2 with inl e => RErr e | inr a => RObj a end)
  end.

(** The same calls on the abstract map. *)
Inductive spec_step m : heap_op A → gmap string A → heap_reply A → Prop :=
  | spec_key_error op a e :
      op = OpAdd a ∨ op = OpAddIfNotPresent a ∨ op = OpUpdate a ∨ op = OpDelete a →
      keyFunc a = inl e → spec_step m op m (RErr e)
  | spec_add op a k :
      op = OpAdd a ∨ op = OpUpdate a →
      keyFunc a = inr k → spec_step m op (<[k := a]> m) ROk
  | spec_add_absent a k :
      keyFunc a = inr k → m !! k = None → spec_step m (OpAddIfNotPresent a) (<[k := a]> m) ROk
  | spec_add_present a b k :
      keyFunc a = inr k → m !! k = Some b → spec_step m (OpAddIfNotPresent a) m ROk
  | spec_delete a b k :
      keyFunc a = inr k → m !! k = Some b → spec_step m (OpDelete a) (delete k m) ROk
  | spec_delete_absent a k :
      keyFunc a = inr k → m !! k = None →
      spec_step m (OpDelete a) m (RErr "object not found"%string)
  | spec_pop k a :
      m !! k = Some a → least less m a → spec_step m OpPop (delete k m) (RObj a).

Fixpoint heap_run h (ops : list (heap_op A)) : comp (heapData A * list (heap_reply A)) :=
  match ops with
  | [] => Some (h, [])
  | op :: ops =>
      r ← heap_exec h op;
      rs ← heap_run r.1 ops;
      Some (rs.1, r.2 :: rs.2)
  end.

Inductive spec_run : gmap string A → list (heap_op A) → gmap string A → list (heap_reply A) → Prop :=
  | spec_run_nil m : spec_run m [] m []
  | spec_run_cons m op m' r ops m'' rs :
      spec_step m op m' r → spec_run m' ops m'' rs → spec_run m (op :: ops) m'' (r :: rs).

Context `{!StrictWeakOrder less}.

Lemma heap_exec_sim h op :
  heap_inv less h → (op = OpPop → contents h ≠ ∅) →
  ∃ h' r, heap_exec h op = Some (h', r) ∧ heap_inv less h' ∧
    spec_step (contents h) op (contents h') r.
Proof.
  intros Hi Hpop. pose proof (heap_inv_wf less h Hi) as Hw.
  assert (∀ a, op = OpAdd a ∨ op = OpUpdate a → heap_exec h op =
            (r ← Heap_Add less keyFunc h a; Some (r.1, reply_of r.2))) as Eadd
    by (by intros a [->| ->]).
  assert (∀ a, op = OpAdd a ∨ op = OpUpdate a → ∃ h' r, heap_exec h op = Some (h', r) ∧
            heap_inv less h' ∧ spec_step (contents h) op (contents h') r) as Hadd.
  { intros a Hop. rewrite (Eadd a Hop). destruct (keyFunc a) as [e|k] eqn:Hk.
    - unfold Heap_Add. rewrite Hk. eexists _, _. split_and!; [done|done|].
      simpl. eapply spec_key_error; naive_solver.
    - destruct (Heap_Add_ok keyFunc less h a k) as (h' & -> & _ & Hc & Ho); [done..|].
      simpl. eexists _, _. split_and!; [done|by apply (Ho _ _)|]. rewrite Hc. by eapply spec_add. }
  destruct op as [a|a|a|a|]; [by eauto| |by eauto| |]; clear Eadd Hadd; simpl.
  - destruct (keyFunc a) as [e|k] eqn:Hk.
    { unfold Heap_AddIfNotPresent. rewrite Hk. eexists _, _. split_and!; [done|done|].
      eapply spec_key_error; naive_solver. }
    destruct (Heap_AddIfNotPresent_ok keyFunc less h a k) as (h' & -> & _ & Hc & Ho); [done..|].
    simpl. eexists _, _. split_and!; [done|by apply (Ho _ _)|]. rewrite Hc.
    destruct (contents h !! k) eqn:E; [by eapply spec_add_present|by eapply spec_add_absent].
  - destruct (keyFunc a) as [e|k] eqn:Hk.
    { unfold Heap_Delete. rewrite Hk. eexists _, _. split_and!; [done|done|].
      eapply spec_key_error; naive_solver. }
    destruct (contents h !! k) as [b|] eqn:E.
    + destruct (Heap_Delete_ok keyFunc less h a k) as (h' & -> & _ & Hc & Ho); [done..|].
      simpl. eexists _, _. split_and!; [done|by apply (Ho _ _), heap_inv_but_intro|].
      rewrite Hc. by eapply spec_delete.
    + rewrite (Heap_Delete_absent keyFunc less h a k) by done. simpl.
      eexists _, _. split_and!; [done|done|]. by eapply spec_delete_absent.
  - destruct (Heap_Pop_ok less h) as (h' & k & a & -> & _ & _ & Ha & Hc & Ho); [auto..|].
    simpl. destruct (Ho _ _ Hi) as [Hi' Hl]. eexists _, _. split_and!; [done|done|].
    rewrite Hc. by apply spec_pop.
Qed.

Lemma heap_run_inv h ops h' rs :
  heap_inv less h → heap_run h ops = Some (h', rs) → heap_inv less h'.
Proof.
  revert h rs. induction ops as [|op ops IH]; intros h rs Hi; simpl; [naive_solver|].
  intros E. destruct (heap_exec h op) as [[h1 r]|] eqn:E1; [|done]. simpl in E.
  destruct (heap_run h1 ops) as [[h2 rs']|] eqn:E2; [|done]. simplify_eq/=.
  refine (IH _ _ _ E2).
  destruct (decide (contents h = ∅)) as [Hz|Hz].
  - assert (op ≠ OpPop) as Hop.
    { intros ->. simpl in E1. rewrite Heap_Pop_empty in E1; [done|by eapply heap_inv_wf|done]. }
    destruct (heap_exec_sim h op Hi) as (? & ? & ? & ? & _); [done|]. by simplify_eq.
  - destruct (heap_exec_sim h op Hi) as (? & ? & ? & ? & _); [done|]. by simplify_eq.
Qed.

(** C31: a [Heap] refines the keyed priority map.  From a well-formed heap every
    sequence of [Add], [AddIfNotPresent], [Update], [Delete] and [Pop] calls
    gives the replies of the abstract map and ends in a well-formed heap with
    that map's contents ([Pop] returning an object that no stored object
    precedes); the only panic is a [Pop] of an empty heap. *)
Theorem heap_refines_map h ops :
  heap_inv less h →
  match heap_run h ops with
  | Some (h', rs) => heap_inv less h' ∧ spec_run (contents h) ops (contents h') rs
  | None => ∃ pre post rs, ops = pre ++ OpPop :: post ∧ spec_run (contents h) pre ∅ rs
  end.
Proof.
  revert h. induction ops as [|op ops IH]; intros h Hi; simpl.
  { split; [done|constructor]. }
  assert (op = OpPop ∧ contents h = ∅ ∨ (op = OpPop → contents h ≠ ∅)) as [[-> E]|Hne]
    by (destruct (decide (contents h = ∅)), op; auto).
  - pose proof (heap_inv_wf less h Hi). simpl. rewrite (Heap_Pop_empty less h) by done. simpl.
    exists [], ops, []. split; [done|]. rewrite E. constructor.
  - destruct (heap_exec_sim h op Hi) as (h1 & r & -> & Hi1 & Hs); [done|]. simpl.
    specialize (IH h1 Hi1). destruct (heap_run h1 ops) as [[h2 rs]|]; simpl.
    + destruct IH as [? ?]. split; [done|]. by econstructor.
    + destruct IH as (pre & post & rs & -> & Hr). exists (op :: pre), post, (r :: rs).
      split; [done|]. by econstructor.
Qed.
End heap_refinement.

(** ** Draining a heap *)

Section heap_drain.
Context {A : Type} (less : A → A → bool).
Implicit Types (h : heapData A) (a b : A).

(** [Pop] until the heap is empty. *)
Fixpoint heap_drain (fuel : nat) h : comp (list A) :=
  match fuel with
  | O => Some []
  | S fuel =>
      r ← Heap_Pop less h;
      match r.2 with
      | inl _ => panic
      | inr a => l ← heap_drain fuel r.1; Some (a :: l)
      end
  end.

(** Popping a well-formed heap [Len] times returns all its objects, each
    once, and no later object precedes an earlier one. *)
Theorem heap_drain_sorted `{!StrictWeakOrder less} h :
  heap_inv less h →
  ∃ l, heap_drain (Heap_Len h) h = Some l ∧ l ≡ₚ (map_to_list (contents h)).*2 ∧
    StronglySorted (λ a b, less b a = false) l.
Proof.
  remember (Heap_Len h) as n eqn:En. revert h En.
  induction n as [|n IH]; intros h En Hi; pose proof (heap_inv_wf less h Hi) as Hw;
    rewrite (Heap_Len_contents h Hw) in En.
  { exists []. symmetry in En. apply map_size_empty_iff in En. rewrite En, map_to_list_empty.
    split_and!; [done|done|constructor]. }
  destruct (Heap_Pop_ok less h Hw) as (h' & k & a & E & _ & Hw' & Ha & Hc & Ho);
    [intros Hz; by rewrite Hz, map_size_empty in En|].
  destruct (Ho _ _ Hi) as [Hi' Hl].
  assert (contents h = <[k := a]> (contents h')) as Hins
    by (by rewrite Hc, insert_delete_eq, insert_id).
  assert (contents h' !! k = None) as Hnone by (by rewrite Hc, lookup_delete_eq).
  destruct (IH h') as (l & El & Hp & Hs).
  { rewrite Heap_Len_contents by done. rewrite Hins, map_size_insert_None in En by done. lia. }
  { done. }
  exists (a :: l). cbn [heap_drain]. rewrite E. simpl. rewrite El. simpl. split_and!; [done| |].
  - by rewrite Hins, map_to_list_insert, Hp by done.
  - constructor; [done|]. rewrite Hp, Forall_fmap, Forall_forall. intros [k' b] Hb%elem_of_map_to_list.
    simpl. apply (Hl k'). rewrite Hins, lookup_insert_ne; congruence.
Qed.
End heap_drain.

(** ** A concrete heap *)

Module HeapExample.
Definition ex_key (p : string * Z) : error + string := inr p.1.
Definition ex_less (p q : string * Z) : bool := (p.2 <? q.2)%Z.

#[export] Instance ex_less_swo : StrictWeakOrder ex_less.
Proof. unfold ex_less. split; intros; bool_to_prop; apply Z.ltb_ge; lia. Qed.

Definition ex_ops : list (heap_op (string * Z)) :=
  [OpAdd ("a"%string, 5%Z); OpAdd ("b"%string, 2%Z); OpAdd ("c"%string, 9%Z);
   OpUpdate ("c"%string, 1%Z); OpDelete ("a"%string, 0%Z); OpDelete ("z"%string, 0%Z);
   OpAddIfNotPresent ("b"%string, 0%Z); OpPop; OpPop].

Definition ex_heap : heapData (string * Z) :=
  match heap_run ex_key ex_less NewHeap (take 4 ex_ops) with Some r => r.1 | None => NewHeap end.

Lemma heap_refines_map_witness :
  (snd <$> heap_run ex_key ex_less NewHeap ex_ops =
     Some [ROk; ROk; ROk; ROk; ROk; RErr "object not found"%string; ROk;
           RObj ("c"%string, 1%Z); RObj ("b"%string, 2%Z)]) ∧
  match heap_run ex_key ex_less NewHeap ex_ops with
  | Some (h', rs) => heap_inv ex_less h' ∧ spec_run ex_key ex_less ∅ ex_ops (contents h') rs
  | None => False
  end.
Proof.
  pose proof (heap_refines_map ex_key ex_less NewHeap ex_ops (NewHeap_inv ex_less)) as H.
  split; [by vm_compute|]. revert H. rewrite NewHeap_contents.
  destruct (heap_run ex_key ex_less NewHeap ex_ops) as [[h' rs]|] eqn:E; [done|].
  vm_compute in E. done.
Defined.

Lemma heap_drain_sorted_witness :
  heap_inv ex_less ex_heap ∧
  heap_drain ex_less (Heap_Len ex_heap) ex_heap =
    Some [("c"%string, 1%Z); ("b"%string, 2%Z); ("a"%string, 5%Z)] ∧
  StronglySorted (λ a b, ex_less b a = false) [("c"%string, 1%Z); ("b"%string, 2%Z); ("a"%string, 5%Z)].
Proof.
  assert (heap_inv ex_less ex_heap) as Hi.
  { unfold ex_heap. destruct (heap_run _ _ _ _) as [[h rs]|] eqn:E; [|apply NewHeap_inv].
    apply (heap_run_inv ex_key ex_less _ _ _ _ (NewHeap_inv ex_less) E). }
  destruct (heap_drain_sorted ex_less ex_heap Hi) as (l & E & _ & Hs).
  assert (Some l = Some [("c"%string, 1%Z); ("b"%string, 2%Z); ("a"%string, 5%Z)]) as El
    by (rewrite <-E; by vm_compute).
  injection El as ->. done.
Defined.
End HeapExample.
