(* ===== verification/Api.v ===== *)
(** * The Kubernetes objects the scheduler reads

    The types of k8s.io/api and k8s.io/apimachinery are not part of the
    repository.  The records below keep the fields that the modelled code
    reads or writes, under the names of the Go structs; the content of a
    structure that no modelled code looks into is kept as one opaque number
    ([..._other]), so that [reflect.DeepEqual] still sees it.  [Pool] is the
    custom resource of src/pkg/apis/resource/v1alpha1/types.go.

    The functions of those packages that the scheduler calls are parameters,
    the fields of the class [K8sLib]; what their documentation promises and the
    scheduler relies on is the class [K8sLaws]. *)
From S2P Require Import Prelude.
From Stdlib Require Import Ascii.

(** ** Quantities: the two readings of a resource.Quantity, [Value()] and
    [MilliValue()], both [int64]. *)
Record Quantity := MkQuantity { Quantity_Value : Z; Quantity_MilliValue : Z }.
Abbreviation ResourceList := (gmap string Quantity).

Definition ResourceCPU : string := "cpu".
Definition ResourceMemory : string := "memory".
Definition ResourcePods : string := "pods".
Definition ResourceEphemeralStorage : string := "ephemeral-storage".

(** ** Label selectors *)
Record LabelSelectorRequirement := MkLabelSelectorRequirement {
  lsr_Key : string; lsr_Operator : string; lsr_Values : list string
}.
Record LabelSelector := MkLabelSelector {
  MatchLabels : gmap string string;
  LabelMatchExpressions : list LabelSelectorRequirement
}.

(** The interface labels.Selector. *)
Record Selector := MkSelector {
  Selector_Matches : gmap string string → bool;
  Selector_Empty : bool
}.

(** ** Metadata *)
Record ObjectMeta := MkObjectMeta {
  Name : string;
  Namespace : string;
  UID : string;
  ResourceVersion : string;
  Generation : Z;
  Labels : gmap string string;
  Annotations : gmap string string;
  CreationTimestamp : Time;
  DeletionTimestamp : option Time;
  meta_other : N
}.

(** ** Pods *)
Record ContainerPort := MkContainerPort { HostIP : string; Protocol : string; HostPort : Z }.

Record Container := MkContainer {
  Image : string;
  Requests : ResourceList;
  Limits : ResourceList;
  Ports : list ContainerPort
}.

Record PodAffinityTerm := MkPodAffinityTerm {
  pat_LabelSelector : option LabelSelector;
  pat_Namespaces : list string;
  pat_TopologyKey : string
}.
Record PodAffinity := MkPodAffinity {
  RequiredTerms : list PodAffinityTerm;
  PreferredTerms : list (Z * PodAffinityTerm)
}.

Record NodeSelectorRequirement := MkNodeSelectorRequirement {
  nsr_Key : string; nsr_Operator : string; nsr_Values : list string
}.
Record NodeSelectorTerm := MkNodeSelectorTerm {
  MatchExpressions : list NodeSelectorRequirement;
  MatchFields : list NodeSelectorRequirement
}.
Record NodeAffinity := MkNodeAffinity {
  RequiredNodeSelector : option (list NodeSelectorTerm);
  PreferredNodeTerms : list (Z * NodeSelectorTerm)
}.

Record Affinity := MkAffinity {
  aff_NodeAffinity : option NodeAffinity;
  aff_PodAffinity : option PodAffinity;
  aff_PodAntiAffinity : option PodAffinity
}.

Record Toleration := MkToleration {
  tol_Key : string; tol_Operator : string; tol_Value : string; tol_Effect : string
}.

(** Disks with a name and whether they are mounted read-only. *)
Record DiskSource := MkDiskSource { disk_Name : string; disk_ReadOnly : bool }.
Record RBDVolumeSource := MkRBDVolumeSource {
  CephMonitors : list string; RBDPool : string; RBDImage : string; rbd_ReadOnly : bool
}.
(** The claim by its name, EBS, Azure and Cinder volumes by their ID, GCE disks by PDName
    and ISCSI volumes by IQN. *)
Record Volume := MkVolume {
  PersistentVolumeClaim : option string;
  GCEPersistentDisk : option DiskSource;
  AWSElasticBlockStore : option string;
  ISCSI : option DiskSource;
  RBD : option RBDVolumeSource;
  AzureDisk : option string;
  Cinder : option string;
  volume_other : N
}.

Record PodSpec := MkPodSpec {
  NodeName : string;
  SchedulerName : string;
  Priority : option Z;
  Containers : list Container;
  InitContainers : list Container;
  spec_Affinity : option Affinity;
  NodeSelector : gmap string string;
  Tolerations : list Toleration;
  Volumes : list Volume;
  spec_other : N
}.

Record PodCondition := MkPodCondition {
  cond_Type : string;
  cond_Status : string;
  cond_Reason : string;
  cond_LastProbeTime : Time;
  cond_LastTransitionTime : Time
}.

Record PodStatus := MkPodStatus {
  NominatedNodeName : string;
  Conditions : list PodCondition;
  status_other : N
}.

Record Pod := MkPod { pod_Meta : ObjectMeta; pod_Spec : PodSpec; pod_Status : PodStatus }.

Definition pod_Name (p : Pod) : string := Name (pod_Meta p).
Definition pod_Namespace (p : Pod) : string := Namespace (pod_Meta p).
Definition pod_UID (p : Pod) : string := UID (pod_Meta p).
Definition pod_NodeName (p : Pod) : string := NodeName (pod_Spec p).
Definition pod_Containers (p : Pod) : list Container := Containers (pod_Spec p).

(** ** Nodes *)
Record Taint := MkTaint { taint_Key : string; taint_Value : string; taint_Effect : string }.
Record NodeCondition := MkNodeCondition { ncond_Type : string; ncond_Status : string }.
Record ContainerImage := MkContainerImage { Names : list string; SizeBytes : Z }.

Record Node := MkNode {
  node_Meta : ObjectMeta;
  Taints : list Taint;
  Unschedulable : bool;
  Capacity : ResourceList;
  Allocatable : ResourceList;
  node_Conditions : list NodeCondition;
  Images : list ContainerImage;
  node_other : N
}.
Definition node_Name (n : Node) : string := Name (node_Meta n).
Definition node_Labels (n : Node) : gmap string string := Labels (node_Meta n).

(** ** Pools *)
Record PoolSpec := MkPoolSpec {
  PoolNodeSelector : option LabelSelector;
  spec_DisablePreemption : bool;
  spec_DisableBorrowing : bool;
  BorrowingPools : list string;
  spec_DisableSharing : bool
}.
Record Pool := MkPool { pool_Meta : ObjectMeta; pool_Spec : PoolSpec }.
Definition pool_Name (p : Pool) : string := Name (pool_Meta p).

(** ** Decidable equality: reflect.DeepEqual *)
#[global] Instance Quantity_eq_dec : EqDecision Quantity.
Proof. solve_decision. Defined.
#[global] Instance LabelSelectorRequirement_eq_dec : EqDecision LabelSelectorRequirement.
Proof. solve_decision. Defined.
#[global] Instance LabelSelector_eq_dec : EqDecision LabelSelector.
Proof. solve_decision. Defined.
#[global] Instance ObjectMeta_eq_dec : EqDecision ObjectMeta.
Proof. solve_decision. Defined.
#[global] Instance ContainerPort_eq_dec : EqDecision ContainerPort.
Proof. solve_decision. Defined.
#[global] Instance Container_eq_dec : EqDecision Container.
Proof. solve_decision. Defined.
#[global] Instance PodAffinityTerm_eq_dec : EqDecision PodAffinityTerm.
Proof. solve_decision. Defined.
#[global] Instance PodAffinity_eq_dec : EqDecision PodAffinity.
Proof. solve_decision. Defined.
#[global] Instance NodeSelectorRequirement_eq_dec : EqDecision NodeSelectorRequirement.
Proof. solve_decision. Defined.
#[global] Instance NodeSelectorTerm_eq_dec : EqDecision NodeSelectorTerm.
Proof. solve_decision. Defined.
#[global] Instance NodeAffinity_eq_dec : EqDecision NodeAffinity.
Proof. solve_decision. Defined.
#[global] Instance Affinity_eq_dec : EqDecision Affinity.
Proof. solve_decision. Defined.
#[global] Instance Toleration_eq_dec : EqDecision Toleration.
Proof. solve_decision. Defined.
#[global] Instance DiskSource_eq_dec : EqDecision DiskSource.
Proof. solve_decision. Defined.
#[global] Instance RBDVolumeSource_eq_dec : EqDecision RBDVolumeSource.
Proof. solve_decision. Defined.
#[global] Instance Volume_eq_dec : EqDecision Volume.
Proof. solve_decision. Defined.
#[global] Instance PodSpec_eq_dec : EqDecision PodSpec.
Proof. solve_decision. Defined.
#[global] Instance PodCondition_eq_dec : EqDecision PodCondition.
Proof. solve_decision. Defined.
#[global] Instance PodStatus_eq_dec : EqDecision PodStatus.
Proof. solve_decision. Defined.
#[global] Instance Pod_eq_dec : EqDecision Pod.
Proof. solve_decision. Defined.
#[global] Instance Taint_eq_dec : EqDecision Taint.
Proof. solve_decision. Defined.
#[global] Instance NodeCondition_eq_dec : EqDecision NodeCondition.
Proof. solve_decision. Defined.
#[global] Instance ContainerImage_eq_dec : EqDecision ContainerImage.
Proof. solve_decision. Defined.
#[global] Instance Node_eq_dec : EqDecision Node.
Proof. solve_decision. Defined.
#[global] Instance PoolSpec_eq_dec : EqDecision PoolSpec.
Proof. solve_decision. Defined.
#[global] Instance Pool_eq_dec : EqDecision Pool.
Proof. solve_decision. Defined.

(** ** Library functions the scheduler calls *)
Class K8sLib := {
  (** client-go tools/cache *)
  MetaNamespaceKeyFunc : Pod → error + string;
  (** apimachinery types.NamespacedName, given namespace and name *)
  NamespacedName_String : string → string → string;
  (** apimachinery meta/v1; the argument is a pointer *)
  LabelSelectorAsSelector : option LabelSelector → error + Selector;
  (** kubernetes pkg/util/node *)
  GetZoneKey : Node → string;
  (** apimachinery api/resource: quantities made from an [int64] *)
  NewQuantity : Z → Quantity;
  NewMilliQuantity : Z → Quantity;
  (** kubernetes pkg/apis/core/v1/helper *)
  IsScalarResourceName : string → bool;
  IsAttachableVolumeResourceName : string → bool
}.

(** The names the API server accepts for a pod: RFC 1123 labels and subdomains
    have neither a slash nor an underscore, and a pod has a namespace. *)
Definition valid_pod (p : Pod) : Prop :=
  no_char "/"%char (pod_Name p) = true ∧ no_char "_"%char (pod_Name p) = true ∧
  no_char "/"%char (pod_Namespace p) = true ∧ no_char "_"%char (pod_Namespace p) = true ∧
  pod_Namespace p ≠ EmptyString.

Definition pod_id (p : Pod) : string * string := (pod_Namespace p, pod_Name p).

Class K8sLaws `{K8sLib} := {
  (** a pod always has a key, "<namespace>/<name>" *)
  meta_key_total p : ∃ k, MetaNamespaceKeyFunc p = inr k;
  meta_key_id p q : pod_id p = pod_id q → MetaNamespaceKeyFunc p = MetaNamespaceKeyFunc q;
  meta_key_inj p q : valid_pod p → valid_pod q →
    MetaNamespaceKeyFunc p = MetaNamespaceKeyFunc q → pod_id p = pod_id q;
  NewQuantity_Value v : int64 v → Quantity_Value (NewQuantity v) = v;
  NewMilliQuantity_MilliValue v : int64 v → Quantity_MilliValue (NewMilliQuantity v) = v;
  nsname_inj p q : valid_pod p → valid_pod q →
    NamespacedName_String (pod_Namespace p) (pod_Name p) =
    NamespacedName_String (pod_Namespace q) (pod_Name q) → pod_id p = pod_id q
}.

(** ** A concrete library, after the documented formats; the witnesses use it. *)

Definition doc_matches (s : LabelSelector) (m : gmap string string) : bool :=
  bool_decide (map_Forall (λ k v, m !! k = Some v) (MatchLabels s)) &&
  forallb (λ r,
    match m !! lsr_Key r with
    | Some v => if bool_decide (lsr_Operator r = "In"%string) then bool_decide (v ∈ lsr_Values r)
                else if bool_decide (lsr_Operator r = "NotIn"%string) then negb (bool_decide (v ∈ lsr_Values r))
                else bool_decide (lsr_Operator r = "Exists"%string)
    | None => bool_decide (lsr_Operator r = "NotIn"%string) || bool_decide (lsr_Operator r = "DoesNotExist"%string)
    end) (LabelMatchExpressions s).

Definition doc_selector (s : option LabelSelector) : error + Selector :=
  match s with
  | None => inr (MkSelector (λ _, false) true)
  | Some s =>
      if forallb (λ r, bool_decide (lsr_Operator r ∈ ["In"; "NotIn"; "Exists"; "DoesNotExist"]%string))
           (LabelMatchExpressions s)
      then inr (MkSelector (doc_matches s)
             (bool_decide (MatchLabels s = ∅) && bool_decide (LabelMatchExpressions s = [])))
      else inl "is not a valid pod selector operator"%string
  end.

Definition doc_zone (n : Node) : string :=
  let region := default EmptyString (node_Labels n !! "failure-domain.beta.kubernetes.io/region"%string) in
  let zone := default EmptyString (node_Labels n !! "failure-domain.beta.kubernetes.io/zone"%string) in
  if bool_decide (region = EmptyString ∧ zone = EmptyString) then EmptyString
  else (region +:+ ":" +:+ zone)%string.

Definition docK8s : K8sLib := {|
  MetaNamespaceKeyFunc p :=
    inr (if bool_decide (pod_Namespace p = EmptyString) then pod_Name p
         else pod_Namespace p +:+ "/" +:+ pod_Name p)%string;
  NamespacedName_String ns n := (ns +:+ "/" +:+ n)%string;
  LabelSelectorAsSelector := doc_selector;
  GetZoneKey := doc_zone;
  NewQuantity v := MkQuantity v (Z.max MinInt64 (Z.min MaxInt64 (v * 1000)));
  NewMilliQuantity v := MkQuantity (- ((- v) / 1000)) v;
  IsScalarResourceName r := negb (no_char "/"%char r) || String.prefix "attachable-volumes-" r;
  IsAttachableVolumeResourceName r := String.prefix "attachable-volumes-" r
|}.

Lemma docK8s_laws : @K8sLaws docK8s.
Proof.
  split.
  - intros p. by eexists.
  - intros p q [= E1 E2]. simpl. by rewrite E1, E2.
  - intros p q (_ & _ & Hp & _ & ?) (_ & _ & Hq & _ & ?). simpl.
    rewrite !bool_decide_false by done. intros [= E].
    destruct (app_sep_inj "/"%char _ _ _ _ Hp Hq E) as [E1 E2]. unfold pod_id. by rewrite E1, E2.
  - done.
  - done.
  - intros p q (_ & _ & Hp & _ & ?) (_ & _ & Hq & _ & ?) E.
    destruct (app_sep_inj "/"%char _ _ _ _ Hp Hq E) as [E1 E2]. unfold pod_id. by rewrite E1, E2.
Qed.
