(* ===== verification/Util.v ===== *)
(** * Shared helpers (src/pkg/scheduler/util/utils.go and info/util.go)

    Pod names, priorities and pools, and the sorting of util.SortableList. *)
From S2P Require Import Prelude Heap Api.
From Stdlib Require Import Ascii.

(** ** sort.Sort

    The order in which sort.Sort leaves elements of equal rank is unspecified;
    the model takes the sorting function as a parameter that permutes its input
    and, for a strict weak order, sorts it. *)
Class GoSort := {
  go_sort : ∀ {A : Type}, (A → A → bool) → list A → list A;
  go_sort_perm : ∀ A (less : A → A → bool) l, go_sort less l ≡ₚ l;
  go_sort_sorted : ∀ A (less : A → A → bool) l,
    StrictWeakOrder less → StronglySorted (λ a b, less b a = false) (go_sort less l)
}.

(** The format %q of a name, which has no character to escape. *)
Definition quoted (name : string) : string :=
  let quote := String (ascii_of_nat 34) EmptyString in (quote +:+ name +:+ quote)%string.

(** ** utils.go *)

Definition GetContainerPorts (pods : list Pod) : list ContainerPort :=
  concat ((λ p, concat (Ports <$> pod_Containers p)) <$> pods).

Definition GetPodFullName (p : Pod) : string := (pod_Name p +:+ "_" +:+ pod_Namespace p)%string.

(** scheduling.DefaultPriorityWhenNoDefaultClassExists *)
Definition DefaultPriority : Z := 0.

Definition GetPodPriority (p : Pod) : Z :=
  match Priority (pod_Spec p) with
  | Some prio => prio
  | None => DefaultPriority
  end.

Definition HigherPriorityPod (p1 p2 : Pod) : bool := GetPodPriority p2 <? GetPodPriority p1.

(** The key of src/pkg/apis/resource/v1alpha1/labels.go. *)
Definition GroupNameAnnotationKey : string := "resource.aibee.cn/pool".

(** info.GetPodAnnotationsPoolName; the argument is a pointer. *)
Definition GetPodAnnotationsPoolName (p : option Pod) : string :=
  match p with
  | None => EmptyString
  | Some p => default EmptyString (Annotations (pod_Meta p) !! GroupNameAnnotationKey)
  end.

Definition SelfPoolHasHigherPriorityFunc (poolName : string) (p1 p2 : Pod) : bool :=
  let pool1 := GetPodAnnotationsPoolName (Some p1) in
  let pool2 := GetPodAnnotationsPoolName (Some p2) in
  if bool_decide (pool1 = poolName) && negb (bool_decide (pool2 = poolName)) then true
  else if negb (bool_decide (pool1 = poolName)) && bool_decide (pool2 = poolName) then false
  else GetPodPriority p2 <? GetPodPriority p1.

Definition ResponsibleForPod (p : Pod) (schedulerName : string) : bool :=
  bool_decide (schedulerName = SchedulerName (pod_Spec p)).

(** ** Lemmas *)

Lemma GetPodFullName_id p q : pod_id p = pod_id q → GetPodFullName p = GetPodFullName q.
Proof. unfold GetPodFullName. by intros [= -> ->]. Qed.

Lemma GetPodFullName_inj p q :
  valid_pod p → valid_pod q → GetPodFullName p = GetPodFullName q → pod_id p = pod_id q.
Proof.
  intros (_ & Hp & _) (_ & Hq & _) E.
  destruct (app_sep_inj "_"%char _ _ _ _ Hp Hq E) as [E1 E2].
  unfold pod_id. by rewrite E1, E2.
Qed.

(** Comparing a key is a strict weak order; so is comparing two keys in turn. *)
Lemma swo_key {A} (f : A → Z) : StrictWeakOrder (λ a b, f b <? f a).
Proof. split; intros; bool_to_prop; apply Z.ltb_ge; lia. Qed.

#[export] Instance HigherPriorityPod_swo : StrictWeakOrder HigherPriorityPod.
Proof. apply (swo_key GetPodPriority). Qed.

#[export] Instance SelfPoolHasHigherPriority_swo poolName :
  StrictWeakOrder (SelfPoolHasHigherPriorityFunc poolName).
Proof.
  unfold SelfPoolHasHigherPriorityFunc.
  split; intros; repeat case_bool_decide; simpl in *; try done; bool_to_prop; apply Z.ltb_ge; lia.
Qed.

(** Insertion sort, the sorting function of the witnesses. *)
Fixpoint ins {A} (less : A → A → bool) (a : A) (l : list A) : list A :=
  match l with
  | [] => [a]
  | b :: l => if less b a then b :: ins less a l else a :: b :: l
  end.
Definition insertion_sort {A} (less : A → A → bool) (l : list A) : list A := foldr (ins less) [] l.

Lemma ins_perm {A} (less : A → A → bool) a l : ins less a l ≡ₚ a :: l.
Proof.
  induction l as [|b l IH]; simpl; [done|]. case_match; [|done]. rewrite IH. apply Permutation_swap.
Qed.
Lemma insertion_sort_perm {A} (less : A → A → bool) l : insertion_sort less l ≡ₚ l.
Proof. induction l as [|a l IH]; simpl; [done|]. by rewrite ins_perm, IH. Qed.
Lemma insertion_sort_sorted {A} (less : A → A → bool) l :
  StrictWeakOrder less → StronglySorted (λ a b, less b a = false) (insertion_sort less l).
Proof.
  intros Hswo. induction l as [|a l IH]; simpl; [constructor|].
  induction (insertion_sort less l) as [|b k IHk]; simpl; [by repeat constructor|].
  apply StronglySorted_inv in IH as [Hk Hb]. case_match eqn:E.
  - constructor; [by apply IHk|]. rewrite ins_perm. constructor; [by apply swo_asym|done].
  - constructor; [by constructor|]. constructor; [done|].
    eapply Forall_impl; [done|]. simpl. intros c Hc. by eapply swo_negtrans.
Qed.

Definition stdSort : GoSort := {|
  go_sort A less l := insertion_sort less l;
  go_sort_perm A less l := insertion_sort_perm less l;
  go_sort_sorted A less l := insertion_sort_sorted less l
|}.
