(* ===== verification/Backoff.v ===== *)
(** * Pod back-off (src/pkg/scheduler/util/backoff_utils.go)

    A [PodBackoff] is a heap of entries ordered by their last update, keyed by
    the namespaced name of the pod.  The clock of the Go structure is the
    argument [now] of the operations that read it.  The methods that wait on
    channels ([TryBackoffAndWait]) are not modelled. *)
From S2P Require Import Prelude Heap Api.

(** ktypes.NamespacedName *)
Record NamespacedName := MkNamespacedName { nn_Namespace : string; nn_Name : string }.

Record backoffEntry := MkBackoffEntry {
  initialized : bool;
  podName : NamespacedName;
  backoff : Duration;
  lastUpdate : Time;
  reqInFlight : Z
}.

Record PodBackoff := MkPodBackoff {
  expiryQ : heapData backoffEntry;
  defaultDuration : Duration;
  maxDuration : Duration
}.

Section backoff.
Context `{K8sLib}.

Definition nn_String (n : NamespacedName) : string :=
  NamespacedName_String (nn_Namespace n) (nn_Name n).

(** ** backoffEntry *)

(** atomic.CompareAndSwapInt32(&b.reqInFlight, 0, 1) *)
Definition tryLock (b : backoffEntry) : backoffEntry * bool :=
  if reqInFlight b =? 0
  then (MkBackoffEntry (initialized b) (podName b) (backoff b) (lastUpdate b) 1, true)
  else (b, false).

Definition unlock (b : backoffEntry) : comp backoffEntry :=
  if reqInFlight b =? 1
  then Some (MkBackoffEntry (initialized b) (podName b) (backoff b) (lastUpdate b) 0)
  else panic.

Definition backoffTime (b : backoffEntry) : Time := time_add (lastUpdate b) (backoff b).

Definition getBackoff (b : backoffEntry) (maxD : Duration) : backoffEntry * Duration :=
  if negb (initialized b)
  then (MkBackoffEntry true (podName b) (backoff b) (lastUpdate b) (reqInFlight b), backoff b)
  else
    let newDuration := mul64 (backoff b) 2 in
    let newDuration := if maxD <? newDuration then maxD else newDuration in
    (MkBackoffEntry (initialized b) (podName b) newDuration (lastUpdate b) (reqInFlight b),
     newDuration).

Definition backoffEntryKeyFunc (b : backoffEntry) : error + string := inr (nn_String (podName b)).

Definition backoffEntryCompareUpdate (b1 b2 : backoffEntry) : bool :=
  time_before (lastUpdate b1) (lastUpdate b2).

(** ** PodBackoff *)

Definition CreatePodBackoffWithClock (defaultD maxD : Duration) : PodBackoff :=
  MkPodBackoff NewHeap defaultD maxD.

Definition MaxDuration (p : PodBackoff) : Duration := maxDuration p.

Definition with_expiryQ (p : PodBackoff) (q : heapData backoffEntry) : PodBackoff :=
  MkPodBackoff q (defaultDuration p) (maxDuration p).

Definition expiryQ_Update (p : PodBackoff) (b : backoffEntry) : comp PodBackoff :=
  r ← Heap_Update backoffEntryCompareUpdate backoffEntryKeyFunc (expiryQ p) b;
  Some (with_expiryQ p r.1).

Definition getEntry (p : PodBackoff) (podID : NamespacedName) : comp (PodBackoff * backoffEntry) :=
  match Heap_GetByKey (expiryQ p) (nn_String podID) with
  | Some entry => Some (p, entry)
  | None =>
      let be := MkBackoffEntry false podID (defaultDuration p) zeroTime 0 in
      p' ← expiryQ_Update p be;
      Some (p', be)
  end.

(** The entry is a pointer into the heap: its time is set before the heap is
    fixed, and its duration is changed in place afterwards. *)
Definition BackoffPod (now : Time) (p : PodBackoff) (podID : NamespacedName)
  : comp (PodBackoff * Duration) :=
  r ← getEntry p podID;
  let entry := r.2 in
  let entry := MkBackoffEntry (initialized entry) (podName entry) (backoff entry) now (reqInFlight entry) in
  p1 ← expiryQ_Update r.1 entry;
  Some (with_expiryQ p1 (heap_poke (nn_String (podName entry))
                           (λ e, (getBackoff e (maxDuration p1)).1) (expiryQ p1)),
        (getBackoff entry (maxDuration p1)).2).

(** The loop runs at most once per stored entry. *)
Fixpoint Gc_loop (fuel : nat) (now : Time) (p : PodBackoff) : comp PodBackoff :=
  match fuel with
  | O => panic
  | S fuel =>
      e ← Heap_Peek (expiryQ p);
      match e with
      | None => Some p
      | Some be =>
          if maxDuration p <? time_sub now (lastUpdate be)
          then r ← Heap_Pop backoffEntryCompareUpdate (expiryQ p); Gc_loop fuel now (with_expiryQ p r.1)
          else Some p
      end
  end.
Definition Gc (now : Time) (p : PodBackoff) : comp PodBackoff :=
  Gc_loop (S (Heap_Len (expiryQ p))) now p.

Definition GetBackoffTime (p : PodBackoff) (podID : NamespacedName) : Time * bool :=
  match Heap_GetByKey (expiryQ p) (nn_String podID) with
  | None => (zeroTime, false)
  | Some be => (time_add (lastUpdate be) (backoff be), true)
  end.

Definition ClearPodBackoff (p : PodBackoff) (podID : NamespacedName) : comp (PodBackoff * bool) :=
  match Heap_GetByKey (expiryQ p) (nn_String podID) with
  | Some entry =>
      r ← Heap_Delete backoffEntryCompareUpdate backoffEntryKeyFunc (expiryQ p) entry;
      Some (with_expiryQ p r.1, match r.2 with None => true | Some _ => false end)
  | None => Some (p, false)
  end.

(** ** The invariant

    The heap is well formed, every entry is stored under its own key, and
    durations stay between the default and the maximum. *)
Definition entries (p : PodBackoff) : gmap string backoffEntry := contents (expiryQ p).

Record backoff_inv (p : PodBackoff) : Prop := {
  bi_heap : heap_inv backoffEntryCompareUpdate (expiryQ p);
  bi_keyed : keyed backoffEntryKeyFunc (expiryQ p);
  bi_durations : 0 <= defaultDuration p <= maxDuration p;
  bi_max : maxDuration p < 2 ^ 62;
  bi_entries k e : entries p !! k = Some e → defaultDuration p <= backoff e <= maxDuration p
}.

#[export] Instance backoffEntryCompareUpdate_swo : StrictWeakOrder backoffEntryCompareUpdate.
Proof. unfold backoffEntryCompareUpdate, time_before. split; intros; bool_to_prop; apply Z.ltb_ge; lia. Qed.

Lemma CreatePodBackoff_inv d m : 0 <= d <= m → m < 2 ^ 62 → backoff_inv (CreatePodBackoffWithClock d m).
Proof.
  intros. split; simpl; [apply NewHeap_inv| |done|done|]; unfold keyed, entries; simpl;
    rewrite NewHeap_contents; [apply map_Forall_empty|done].
Qed.

(** [getBackoff] on an entry in range: the default first, then doubling up to
    the maximum. *)
Definition nextDuration (e : backoffEntry) (maxD : Duration) : Duration :=
  if initialized e then Z.min (2 * backoff e) maxD else backoff e.

Lemma getBackoff_next e maxD :
  0 <= backoff e <= maxD → maxD < 2 ^ 62 →
  getBackoff e maxD =
    (MkBackoffEntry true (podName e) (nextDuration e maxD) (lastUpdate e) (reqInFlight e),
     nextDuration e maxD).
Proof.
  intros He Hm. unfold getBackoff, nextDuration. destruct (initialized e); simpl; [|done].
  assert (mul64 (backoff e) 2 = 2 * backoff e) as ->.
  { unfold mul64. rewrite wrap64_id; [lia|]. unfold int64, MinInt64, MaxInt64. lia. }
  destruct (Z.ltb_spec maxD (2 * backoff e)); [by rewrite Z.min_r by lia|by rewrite Z.min_l by lia].
Qed.

Lemma getBackoff_lastUpdate e maxD : lastUpdate (getBackoff e maxD).1 = lastUpdate e.
Proof. unfold getBackoff. by destruct (initialized e). Qed.
Lemma getBackoff_less_l maxD a b :
  backoffEntryCompareUpdate (getBackoff a maxD).1 b = backoffEntryCompareUpdate a b.
Proof. unfold backoffEntryCompareUpdate. by rewrite getBackoff_lastUpdate. Qed.
Lemma getBackoff_less_r maxD a b :
  backoffEntryCompareUpdate b (getBackoff a maxD).1 = backoffEntryCompareUpdate b a.
Proof. unfold backoffEntryCompareUpdate. by rewrite getBackoff_lastUpdate. Qed.

Lemma expiryQ_Update_spec p e :
  backoff_inv p → defaultDuration p <= backoff e <= maxDuration p →
  ∃ p', expiryQ_Update p e = Some p' ∧ backoff_inv p' ∧
    defaultDuration p' = defaultDuration p ∧ maxDuration p' = maxDuration p ∧
    entries p' = <[nn_String (podName e) := e]> (entries p).
Proof.
  intros Hi He. unfold expiryQ_Update, Heap_Update.
  destruct (Heap_Add_ok backoffEntryKeyFunc backoffEntryCompareUpdate (expiryQ p) e
    (nn_String (podName e))) as (q & -> & _ & Hc & Ho); [eapply heap_inv_wf, Hi|done|].
  simpl. eexists. split_and!; [done| |done|done|done].
  destruct Hi as [Hh Hk Hd Hm He']. split; simpl; [by apply (Ho _ _)| |done|done|].
  - unfold keyed. rewrite Hc. intros k e' [[<- <-]|[_ E]]%lookup_insert_Some; [done|by apply Hk].
  - unfold entries. simpl. rewrite Hc. intros k e' [[<- <-]|[_ E]]%lookup_insert_Some; [done|].
    by apply (He' k).
Qed.

(** The entry that [getEntry] returns for a pod. *)
Definition entry_or_new (p : PodBackoff) (id : NamespacedName) : backoffEntry :=
  default (MkBackoffEntry false id (defaultDuration p) zeroTime 0) (entries p !! nn_String id).

Lemma getEntry_spec p id :
  backoff_inv p →
  ∃ p', getEntry p id = Some (p', entry_or_new p id) ∧ backoff_inv p' ∧
    defaultDuration p' = defaultDuration p ∧ maxDuration p' = maxDuration p ∧
    entries p' = <[nn_String id := entry_or_new p id]> (entries p).
Proof.
  intros Hi. unfold getEntry, entry_or_new. rewrite Heap_GetByKey_contents. fold (entries p).
  destruct (entries p !! nn_String id) as [e|] eqn:E; simpl.
  - exists p. split_and!; try done. by rewrite insert_id.
  - destruct (expiryQ_Update_spec p (MkBackoffEntry false id (defaultDuration p) zeroTime 0))
      as (p' & -> & ?); [done|simpl; destruct Hi; lia|]. by exists p'.
Qed.

Lemma entry_or_new_name p id :
  backoff_inv p → nn_String (podName (entry_or_new p id)) = nn_String id.
Proof.
  intros Hi. unfold entry_or_new. destruct (entries p !! nn_String id) as [e|] eqn:E; simpl; [|done].
  pose proof (bi_keyed _ Hi _ _ E) as Hk. by injection Hk.
Qed.

Lemma entry_or_new_range p id :
  backoff_inv p → defaultDuration p <= backoff (entry_or_new p id) <= maxDuration p.
Proof.
  intros Hi. unfold entry_or_new. destruct (entries p !! nn_String id) as [e|] eqn:E; simpl.
  - by apply (bi_entries _ Hi _ _ E).
  - destruct Hi; lia.
Qed.

Lemma BackoffPod_spec now p id :
  backoff_inv p →
  let e := entry_or_new p id in
  let d := nextDuration e (maxDuration p) in
  ∃ p', BackoffPod now p id = Some (p', d) ∧ backoff_inv p' ∧
    defaultDuration p' = defaultDuration p ∧ maxDuration p' = maxDuration p ∧
    entries p' = <[nn_String id := MkBackoffEntry true (podName e) d now (reqInFlight e)]> (entries p).
Proof.
  intros Hi e d. unfold BackoffPod.
  pose proof (entry_or_new_range p id Hi) as Hr. pose proof (entry_or_new_name p id Hi) as Hn.
  fold e in Hr, Hn.
  destruct (getEntry_spec p id Hi) as (p1 & -> & Hi1 & Hd1 & Hm1 & He1). simpl. fold e.
  set (e1 := MkBackoffEntry (initialized e) (podName e) (backoff e) now (reqInFlight e)).
  destruct (expiryQ_Update_spec p1 e1) as (p2 & -> & Hi2 & Hd2 & Hm2 & He2);
    [done|simpl; lia|]. simpl.
  rewrite getBackoff_next by (simpl; destruct Hi2; lia).
  assert (nextDuration e1 (maxDuration p2) = d) as Hnext
    by (unfold d, nextDuration; simpl; by rewrite Hm2, Hm1).
  rewrite Hnext.
  simpl. set (e2 := MkBackoffEntry true (podName e) d now (reqInFlight e)).
  assert (entries (with_expiryQ p2 (heap_poke (nn_String (podName e))
            (λ e, (getBackoff e (maxDuration p2)).1) (expiryQ p2)))
          = <[nn_String id := e2]> (entries p)) as Hent.
  { unfold entries. simpl. rewrite heap_poke_contents. fold (entries p2).
    rewrite He2, He1. simpl. rewrite Hn, !insert_insert_eq.
    apply map_eq. intros k. rewrite lookup_alter, !lookup_insert. repeat case_decide; try done.
    simpl. by rewrite getBackoff_next, Hnext by (simpl; destruct Hi2; lia). }
  eexists. split_and!; [done| |simpl; congruence|simpl; congruence|done].
  destruct Hi2 as [Hh Hk Hdm Hmx Hen]. split; simpl; [| |done|done|].
  - by apply heap_poke_ok; [apply getBackoff_less_l|apply getBackoff_less_r|].
  - intros k e' E. change (entries (with_expiryQ p2 (heap_poke (nn_String (podName e))
      (λ e, (getBackoff e (maxDuration p2)).1) (expiryQ p2))) !! k = Some e') in E.
    rewrite Hent in E. apply lookup_insert_Some in E as [[<- <-]|[_ E]]; [|by apply (bi_keyed _ Hi)].
    unfold backoffEntryKeyFunc. simpl. by rewrite Hn.
  - rewrite Hent. intros k e' [[<- <-]|[_ E]]%lookup_insert_Some; simpl.
    + rewrite Hd2, Hd1, Hm2, Hm1. unfold d, nextDuration. case_match; lia.
    + rewrite Hd2, Hd1, Hm2, Hm1. by apply (bi_entries _ Hi k).
Qed.

Lemma GetBackoffTime_entries p id :
  GetBackoffTime p id =
    match entries p !! nn_String id with
    | None => (zeroTime, false)
    | Some e => (backoffTime e, true)
    end.
Proof. unfold GetBackoffTime. by rewrite Heap_GetByKey_contents. Qed.

(** ** Garbage collection *)

(** The entries that [Gc] keeps at time [now]. *)
Definition fresh (now : Time) (p : PodBackoff) (ke : string * backoffEntry) : Prop :=
  time_sub now (lastUpdate ke.2) <= maxDuration p.

#[export] Instance fresh_dec now p ke : Decision (fresh now p ke).
Proof. unfold fresh. apply _. Defined.

Lemma time_sub_mono now t u : t <= u → time_sub now u <= time_sub now t.
Proof. unfold time_sub. lia. Qed.

(** The invariant survives a change of the heap that drops entries. *)
Lemma backoff_inv_subset p q :
  backoff_inv p → heap_inv backoffEntryCompareUpdate q → contents q ⊆ entries p →
  backoff_inv (with_expiryQ p q).
Proof.
  intros [Hh Hk Hd Hm He] Hq Hs. split; simpl; try done.
  - intros k e E. apply Hk. by eapply lookup_weaken.
  - unfold entries. simpl. intros k e E. apply (He k). by eapply lookup_weaken.
Qed.

Lemma ClearPodBackoff_spec p id :
  backoff_inv p →
  ∃ p' b, ClearPodBackoff p id = Some (p', b) ∧ backoff_inv p' ∧
    b = bool_decide (is_Some (entries p !! nn_String id)) ∧
    entries p' = delete (nn_String id) (entries p) ∧
    defaultDuration p' = defaultDuration p ∧ maxDuration p' = maxDuration p.
Proof.
  intros Hi. unfold ClearPodBackoff. rewrite Heap_GetByKey_contents. fold (entries p).
  destruct (entries p !! nn_String id) as [e|] eqn:E.
  2:{ exists p, false. split_and!; try done. by rewrite delete_id. }
  pose proof (heap_inv_wf _ _ (bi_heap _ Hi)) as Hw.
  destruct (Heap_Delete_ok backoffEntryKeyFunc backoffEntryCompareUpdate (expiryQ p) e (nn_String id))
    as (q & -> & _ & Hc & Ho); [done|by apply (bi_keyed _ Hi)|by eexists|].
  simpl. eexists _, _. split_and!; [done| |done|done|done|done].
  apply backoff_inv_subset; [done| |rewrite Hc; apply delete_subseteq].
  apply (Ho _ _), heap_inv_but_intro; [apply _|by apply bi_heap|by eexists].
Qed.

Lemma Gc_loop_spec fuel now p :
  backoff_inv p → (size (entries p) < fuel)%nat →
  ∃ p', Gc_loop fuel now p = Some p' ∧ backoff_inv p' ∧
    entries p' = filter (fresh now p) (entries p) ∧ maxDuration p' = maxDuration p.
Proof.
  revert p. induction fuel as [|fuel IH]; intros p Hi Hf; [lia|].
  pose proof (heap_inv_wf _ _ (bi_heap _ Hi)) as Hw. cbn [Gc_loop].
  destruct (decide (entries p = ∅)) as [Hz|Hz].
  { rewrite (Heap_Peek_empty (expiryQ p)) by done. simpl. exists p.
    split_and!; [done|done| |done]. by rewrite Hz, map_filter_empty. }
  destruct (Heap_Pop_ok backoffEntryCompareUpdate (expiryQ p) Hw Hz)
    as (q & k & a & Ep & -> & Hwq & Ha & Hc & Ho). simpl.
  destruct (Ho _ _ (bi_heap _ Hi)) as [Hiq Hl].
  destruct (Z.ltb_spec (maxDuration p) (time_sub now (lastUpdate a))) as [Hlt|Hge].
  - rewrite Ep. simpl.
    assert (backoff_inv (with_expiryQ p q)) as Hi'.
    { apply backoff_inv_subset; [done|done|]. rewrite Hc. apply delete_subseteq. }
    destruct (IH (with_expiryQ p q) Hi') as (p' & -> & Hi'' & He' & Hm').
    { unfold entries. simpl. rewrite Hc. fold (entries p).
      assert (size (entries p) ≠ 0%nat) by (by intros ?%map_size_empty_iff).
      rewrite map_size_delete_Some by done. lia. }
    exists p'. split_and!; [done|done| |by rewrite Hm']. rewrite He'. unfold entries at 1. simpl. rewrite Hc.
    fold (entries p). rewrite map_filter_delete, delete_id; [done|].
    apply map_lookup_filter_None. right. intros b Hb Hfr. unfold entries in Hb.
    rewrite Ha in Hb. simplify_eq. unfold fresh in Hfr. simpl in Hfr. lia.
  - exists p. split_and!; [done|done| |done]. symmetry. apply map_filter_id. intros k' e E.
    unfold fresh. simpl. specialize (Hl k' e E).
    unfold backoffEntryCompareUpdate, time_before in Hl. bool_to_prop.
    pose proof (time_sub_mono now (lastUpdate a) (lastUpdate e)). lia.
Qed.

Lemma Gc_spec now p :
  backoff_inv p →
  ∃ p', Gc now p = Some p' ∧ backoff_inv p' ∧ entries p' = filter (fresh now p) (entries p) ∧
    maxDuration p' = maxDuration p.
Proof.
  intros Hi. apply Gc_loop_spec; [done|].
  rewrite (Heap_Len_contents _ (heap_inv_wf _ _ (bi_heap _ Hi))). fold (entries p). lia.
Qed.

(** [Gc] returns and keeps exactly the entries updated within
    [maxDuration] of [now]; the loop that stops at the first fresh entry of the
    heap misses none. *)
Theorem Gc_exact now p :
  backoff_inv p →
  ∃ p', Gc now p = Some p' ∧ backoff_inv p' ∧ entries p' = filter (fresh now p) (entries p).
Proof.
  intros Hi. destruct (Gc_spec now p Hi) as (p' & ? & ? & ? & _). by exists p'.
Qed.

(** ** Repeated failures of one pod *)

Fixpoint backoff_many (nows : list Time) (p : PodBackoff) (id : NamespacedName)
  : comp (PodBackoff * list Duration) :=
  match nows with
  | [] => Some (p, [])
  | now :: nows =>
      r ← BackoffPod now p id;
      rs ← backoff_many nows r.1 id;
      Some (rs.1, r.2 :: rs.2)
  end.

Lemma backoff_many_from nows p id e d j :
  backoff_inv p → entries p !! nn_String id = Some e → initialized e = true →
  0 <= d → backoff e = Z.min (d * 2 ^ Z.of_nat j) (maxDuration p) →
  ∃ p', backoff_many nows p id =
    Some (p', (λ i, Z.min (d * 2 ^ Z.of_nat i) (maxDuration p)) <$> seq (S j) (length nows)).
Proof.
  revert p e j. induction nows as [|now nows IH]; intros p e j Hi He Hini Hd Hb.
  { by exists p. }
  cbn [backoff_many length seq fmap list_fmap].
  destruct (BackoffPod_spec now p id Hi) as (p1 & -> & Hi1 & Hd1 & Hm1 & He1). simpl.
  assert (nextDuration (entry_or_new p id) (maxDuration p) =
          Z.min (d * 2 ^ Z.of_nat (S j)) (maxDuration p)) as Hn.
  { unfold entry_or_new, nextDuration. rewrite He. simpl. rewrite Hini, Hb.
    rewrite Nat2Z.inj_succ, Z.pow_succ_r by lia. destruct Hi. lia. }
  destruct (IH p1 (MkBackoffEntry true (podName (entry_or_new p id))
      (nextDuration (entry_or_new p id) (maxDuration p)) now (reqInFlight (entry_or_new p id))) (S j))
    as (p2 & Hrec); [done|by rewrite He1, lookup_insert_eq|done|done|by rewrite Hm1|].
  rewrite Hrec, Hm1. simpl. rewrite Hn. by eexists.
Qed.

(** The [i]-th consecutive back-off of a pod that has no entry lasts
    [defaultDuration * 2^i], and never more than [maxDuration], at whatever
    times the failures happen. *)
Theorem backoff_doubles nows p id :
  backoff_inv p → entries p !! nn_String id = None →
  ∃ p', backoff_many nows p id =
    Some (p', (λ i, Z.min (defaultDuration p * 2 ^ Z.of_nat i) (maxDuration p)) <$> seq 0 (length nows)).
Proof.
  intros Hi Hn. destruct nows as [|now nows]; [by exists p|].
  cbn [backoff_many length seq fmap list_fmap].
  destruct (BackoffPod_spec now p id Hi) as (p1 & -> & Hi1 & Hd1 & Hm1 & He1). simpl.
  assert (entry_or_new p id = MkBackoffEntry false id (defaultDuration p) zeroTime 0) as En
    by (unfold entry_or_new; by rewrite Hn).
  rewrite En in *. unfold nextDuration in *. simpl in *.
  destruct (backoff_many_from nows p1 id (MkBackoffEntry true id (defaultDuration p) now 0)
    (defaultDuration p) 0) as (p2 & Hrec);
    [done|by rewrite He1, lookup_insert_eq|done|destruct Hi; lia| |].
  { simpl. rewrite Hm1. destruct Hi. lia. }
  rewrite Hrec, Hm1. simpl. eexists. do 3 f_equal. destruct Hi. lia.
Qed.

(** After [BackoffPod] the pod is backing off until [now] plus the
    returned duration, every other pod keeps its back-off time, and
    [ClearPodBackoff] undoes the back-off of that pod alone. *)
Theorem BackoffPod_time now p id :
  backoff_inv p →
  ∃ p' d, BackoffPod now p id = Some (p', d) ∧ backoff_inv p' ∧
    GetBackoffTime p' id = (now + d, true) ∧
    (∀ id', nn_String id' ≠ nn_String id → GetBackoffTime p' id' = GetBackoffTime p id') ∧
    ∃ p'', ClearPodBackoff p' id = Some (p'', true) ∧ backoff_inv p'' ∧
      GetBackoffTime p'' id = (zeroTime, false) ∧
      (∀ id', nn_String id' ≠ nn_String id → GetBackoffTime p'' id' = GetBackoffTime p id').
Proof.
  intros Hi. destruct (BackoffPod_spec now p id Hi) as (p' & E & Hi' & _ & _ & He').
  eexists p', _. split_and!; [done|done| | |].
  - unfold GetBackoffTime. rewrite Heap_GetByKey_contents. fold (entries p').
    by rewrite He', lookup_insert_eq.
  - intros id' Hne. unfold GetBackoffTime. rewrite !Heap_GetByKey_contents.
    fold (entries p'). rewrite He', lookup_insert_ne by done. done.
  - destruct (ClearPodBackoff_spec p' id Hi') as (p'' & b & -> & Hi'' & Hb & He'' & _).
    rewrite He', lookup_insert_eq in Hb. rewrite Hb, bool_decide_true by done.
    exists p''. split_and!; [done|done| |]; [|intros id' Hne]; rewrite !GetBackoffTime_entries, He''.
    + by rewrite lookup_delete_eq.
    + by rewrite He', lookup_delete_ne, lookup_insert_ne.
Qed.

End backoff.

(** ** A concrete back-off table *)

Module BackoffExample.
#[local] Existing Instance docK8s.
Definition id1 := MkNamespacedName "ns" "a".
Definition id2 := MkNamespacedName "ns" "b".
Definition table0 : PodBackoff := CreatePodBackoffWithClock (1 * Second) (10 * Second).

(** Pod [a] failed at second 5 and pod [b] at second 100. *)
Definition table2 : PodBackoff :=
  match (r ← BackoffPod (5 * Second) table0 id1; BackoffPod (100 * Second) r.1 id2) with
  | Some r => r.1
  | None => table0
  end.

Lemma table0_inv : backoff_inv table0.
Proof. apply CreatePodBackoff_inv; vm_compute; split; congruence. Qed.

Lemma table2_inv : backoff_inv table2.
Proof.
  unfold table2.
  destruct (BackoffPod_spec (5 * Second) table0 id1 table0_inv) as (p1 & -> & Hi1 & _). simpl.
  by destruct (BackoffPod_spec (100 * Second) p1 id2 Hi1) as (p2 & -> & Hi2 & _).
Qed.

Lemma Gc_exact_witness :
  (length (map_to_list (entries table2)) = 2)%nat ∧
  ∃ p', Gc (105 * Second) table2 = Some p' ∧ backoff_inv p' ∧
    entries p' = filter (fresh (105 * Second) table2) (entries table2) ∧
    GetBackoffTime p' id1 = (zeroTime, false) ∧ GetBackoffTime p' id2 = (101 * Second, true).
Proof.
  split; [by vm_compute|].
  destruct (Gc_exact (105 * Second) table2 table2_inv) as (p' & E & Hi & Hf).
  exists p'. split_and!; [done|done|done| |].
  all: assert (Gc (105 * Second) table2 = Some p') as E' by done; vm_compute in E'; injection E' as <-; vm_compute; reflexivity.
Defined.

Lemma backoff_doubles_witness :
  ∃ p', backoff_many [1 * Second; 3 * Second; 70 * Second; 90 * Second; 400 * Second; 900 * Second] table0 id1 =
    Some (p', [1 * Second; 2 * Second; 4 * Second; 8 * Second; 10 * Second; 10 * Second]).
Proof.
  destruct (backoff_doubles [1 * Second; 3 * Second; 70 * Second; 90 * Second; 400 * Second; 900 * Second]
    table0 id1 table0_inv eq_refl) as (p' & ->).
  by exists p'.
Defined.

Lemma BackoffPod_time_witness :
  ∃ p' d, BackoffPod (7 * Second) table2 id1 = Some (p', d) ∧ d = 2 * Second ∧
    GetBackoffTime p' id1 = (9 * Second, true).
Proof.
  destruct (BackoffPod_time (7 * Second) table2 id1 table2_inv) as (p' & d & E & _ & Ht & _).
  exists p', d. split; [done|].
  assert (BackoffPod (7 * Second) table2 id1 = Some (p', d)) as E' by done.
  vm_compute in E'. injection E' as <- <-. split; vm_compute; reflexivity.
Defined.
End BackoffExample.
