(* ===== verification/SchedulingQueue.v ===== *)
(** * The scheduling queue (src/pkg/scheduler/internal/queue/scheduling_queue.go)

    [PriorityQueue] keeps the pending pods of one pool in three places: the
    heap [activeQ] that [Pop] serves, the heap [podBackoffQ] of pods that wait
    for their back-off to end, and the map [unschedulableQ].  Every method runs
    under the lock of the queue, so a method is one step on the state; the
    clock, which a method reads under that lock, is its argument [now]; and a
    call of [cond.Broadcast], which wakes the goroutines blocked in [Pop],
    counts up [broadcasts].

    The comparison of [activeQ] is the argument [lessFunc] of the constructor
    (the pool queue passes a closure).  SchedulingQueueProofs.v proves that the
    queue refines a map from pods to places. *)
From S2P Require Import Prelude Heap Api Util Backoff.

Record podInfo := MkPodInfo { pi_pod : Pod; pi_timestamp : Time }.

(** The keys of [nominatedPodToNode] are UIDs. *)
Record nominatedPodMap := MkNominatedPodMap {
  nominatedPods : gmap string (list Pod);
  nominatedPodToNode : gmap string string
}.

Record PriorityQueue := MkPriorityQueue {
  podBackoff : PodBackoff;
  activeQ : heapData podInfo;
  podBackoffQ : heapData podInfo;
  unschedulableQ : gmap string podInfo;
  pq_nominated : nominatedPodMap;
  schedulingCycle : Z;
  moveRequestCycle : Z;
  closed : bool;
  broadcasts : nat
}.

#[global] Instance podInfo_eq_dec : EqDecision podInfo.
Proof. solve_decision. Defined.

(** Field updates. *)
Definition set_podBackoff (p : PriorityQueue) x :=
  MkPriorityQueue x (activeQ p) (podBackoffQ p) (unschedulableQ p) (pq_nominated p)
    (schedulingCycle p) (moveRequestCycle p) (closed p) (broadcasts p).
Definition set_activeQ (p : PriorityQueue) x :=
  MkPriorityQueue (podBackoff p) x (podBackoffQ p) (unschedulableQ p) (pq_nominated p)
    (schedulingCycle p) (moveRequestCycle p) (closed p) (broadcasts p).
Definition set_podBackoffQ (p : PriorityQueue) x :=
  MkPriorityQueue (podBackoff p) (activeQ p) x (unschedulableQ p) (pq_nominated p)
    (schedulingCycle p) (moveRequestCycle p) (closed p) (broadcasts p).
Definition set_unschedulableQ (p : PriorityQueue) x :=
  MkPriorityQueue (podBackoff p) (activeQ p) (podBackoffQ p) x (pq_nominated p)
    (schedulingCycle p) (moveRequestCycle p) (closed p) (broadcasts p).
Definition set_nominated (p : PriorityQueue) x :=
  MkPriorityQueue (podBackoff p) (activeQ p) (podBackoffQ p) (unschedulableQ p) x
    (schedulingCycle p) (moveRequestCycle p) (closed p) (broadcasts p).
Definition set_cycles (p : PriorityQueue) sc mrc :=
  MkPriorityQueue (podBackoff p) (activeQ p) (podBackoffQ p) (unschedulableQ p) (pq_nominated p)
    sc mrc (closed p) (broadcasts p).
(** [p.cond.Broadcast()] *)
Definition Broadcast (p : PriorityQueue) :=
  MkPriorityQueue (podBackoff p) (activeQ p) (podBackoffQ p) (unschedulableQ p) (pq_nominated p)
    (schedulingCycle p) (moveRequestCycle p) (closed p) (S (broadcasts p)).

(** ** UnschedulablePodsMap *)

Definition UnschedulablePodsMap_addOrUpdate (u : gmap string podInfo) (pInfo : podInfo) :=
  <[GetPodFullName (pi_pod pInfo) := pInfo]> u.
Definition UnschedulablePodsMap_delete (u : gmap string podInfo) (pod : Pod) :=
  delete (GetPodFullName pod) u.
Definition UnschedulablePodsMap_get (u : gmap string podInfo) (pod : Pod) : option podInfo :=
  u !! GetPodFullName pod.

(** ** nominatedPodMap *)

Definition pod_NominatedNodeName (p : Pod) : string := NominatedNodeName (pod_Status p).

Definition newNominatedPodMap : nominatedPodMap := MkNominatedPodMap ∅ ∅.

Definition same_uid (p np : Pod) : bool := bool_decide (pod_UID np = pod_UID p).

Definition nominatedPodMap_delete (npm : nominatedPodMap) (p : Pod) : nominatedPodMap :=
  match nominatedPodToNode npm !! pod_UID p with
  | None => npm
  | Some nnn =>
      let l := default [] (nominatedPods npm !! nnn) in
      let m :=
        match find_index (same_uid p) l with
        | None => nominatedPods npm
        | Some i =>
            let l' := slice_delete i l in
            let m := <[nnn := l']> (nominatedPods npm) in
            if bool_decide (length l' = O) then delete nnn m else m
        end in
      MkNominatedPodMap m (delete (pod_UID p) (nominatedPodToNode npm))
  end.

Definition nominatedPodMap_add (npm : nominatedPodMap) (p : Pod) (nodeName : string) : nominatedPodMap :=
  let npm := nominatedPodMap_delete npm p in
  let nnn := if bool_decide (nodeName = EmptyString) then pod_NominatedNodeName p else nodeName in
  if bool_decide (nnn = EmptyString) then npm
  else
    let toNode := <[pod_UID p := nnn]> (nominatedPodToNode npm) in
    let l := default [] (nominatedPods npm !! nnn) in
    if existsb (same_uid p) l then MkNominatedPodMap (nominatedPods npm) toNode
    else MkNominatedPodMap (<[nnn := l ++ [p]]> (nominatedPods npm)) toNode.

(** [npm.delete(oldPod)] reads a field of [oldPod]. *)
Definition nominatedPodMap_update (npm : nominatedPodMap) (oldPod : option Pod) (newPod : Pod)
  : comp nominatedPodMap :=
  old ← oldPod;
  Some (nominatedPodMap_add (nominatedPodMap_delete npm old) newPod EmptyString).

Definition nominatedPodMap_podsForNode (npm : nominatedPodMap) (nodeName : string) : list Pod :=
  default [] (nominatedPods npm !! nodeName).

(** ** podInfo *)

(** The clock of a queue may be nil. *)
Definition newPodInfo (clock : option Time) (pod : Pod) : podInfo :=
  match clock with
  | None => MkPodInfo pod zeroTime
  | Some now => MkPodInfo pod now
  end.
Definition newPodInfoNoTimestamp (pod : Pod) : podInfo := MkPodInfo pod zeroTime.

Definition activeQComp (pInfo1 pInfo2 : podInfo) : bool :=
  let prio1 := GetPodPriority (pi_pod pInfo1) in
  let prio2 := GetPodPriority (pi_pod pInfo2) in
  (prio2 <? prio1) || ((prio1 =? prio2) && time_before (pi_timestamp pInfo1) (pi_timestamp pInfo2)).

Definition nsNameForPod (pod : Pod) : NamespacedName :=
  MkNamespacedName (pod_Namespace pod) (pod_Name pod).

Definition emptyStatus : PodStatus := MkPodStatus EmptyString [] 0%N.
Definition strip_meta (m : ObjectMeta) : ObjectMeta :=
  MkObjectMeta (Name m) (Namespace m) (UID m) EmptyString 0 (Labels m) (Annotations m)
    (CreationTimestamp m) (DeletionTimestamp m) (meta_other m).
Definition strip (pod : Pod) : Pod := MkPod (strip_meta (pod_Meta pod)) (pod_Spec pod) emptyStatus.
Definition isPodUpdated (oldPod newPod : Pod) : bool := negb (bool_decide (strip oldPod = strip newPod)).

(** ** Affinity terms (predicates.go and priorities/util/topologies.go) *)

Definition GetPodAffinityTerms (podAffinity : option PodAffinity) : list PodAffinityTerm :=
  match podAffinity with
  | None => []
  | Some a => RequiredTerms a
  end.

Definition GetNamespacesFromPodAffinityTerm (pod : Pod) (term : PodAffinityTerm) : gset string :=
  if bool_decide (length (pat_Namespaces term) = O) then {[ pod_Namespace pod ]}
  else list_to_set (pat_Namespaces term).

(** A nil selector is dereferenced only if the namespace matches. *)
Definition PodMatchesTermsNamespaceAndSelector
    (pod : Pod) (namespaces : gset string) (selector : option Selector) : comp bool :=
  if negb (bool_decide (pod_Namespace pod ∈ namespaces)) then Some false
  else s ← selector; Some (Selector_Matches s (Labels (pod_Meta pod))).

Section queue.
Context `{K8sLib} `{MapRange}.

Definition podInfoKeyFunc (pInfo : podInfo) : error + string := MetaNamespaceKeyFunc (pi_pod pInfo).

Definition podsCompareBackoffCompleted (bo : PodBackoff) (pInfo1 pInfo2 : podInfo) : bool :=
  time_before (GetBackoffTime bo (nsNameForPod (pi_pod pInfo1))).1
              (GetBackoffTime bo (nsNameForPod (pi_pod pInfo2))).1.

(** ** Construction *)

Definition NewPriorityQueueWithLessFuncAndClock : PriorityQueue :=
  MkPriorityQueue (CreatePodBackoffWithClock (1 * Second) (10 * Second)) NewHeap NewHeap ∅
    newNominatedPodMap 0 (-1) false O.

(** ** Back-off of the queue *)

Definition clearPodBackoff (p : PriorityQueue) (pod : Pod) : comp PriorityQueue :=
  r ← ClearPodBackoff (podBackoff p) (nsNameForPod pod);
  Some (set_podBackoff p r.1).

Definition isPodBackingOff (now : Time) (p : PriorityQueue) (pod : Pod) : bool :=
  let '(boTime, exists_) := GetBackoffTime (podBackoff p) (nsNameForPod pod) in
  if negb exists_ then false else time_after boTime now.

Definition backoffPod (now : Time) (p : PriorityQueue) (pod : Pod) : comp PriorityQueue :=
  bo ← Gc now (podBackoff p);
  let p := set_podBackoff p bo in
  let podID := nsNameForPod pod in
  let '(boTime, found) := GetBackoffTime (podBackoff p) podID in
  if negb found || time_before boTime now then
    r ← BackoffPod now (podBackoff p) podID; Some (set_podBackoff p r.1)
  else Some p.

Definition PriorityQueue_SchedulingCycle (p : PriorityQueue) : Z := schedulingCycle p.

(** ** The heaps of the queue *)

Section ops.
Context (lessFunc : podInfo → podInfo → bool).

Definition activeQ_Add (p : PriorityQueue) (pInfo : podInfo) : comp (PriorityQueue * option error) :=
  r ← Heap_Add lessFunc podInfoKeyFunc (activeQ p) pInfo;
  Some (set_activeQ p r.1, r.2).
Definition podBackoffQ_Add (p : PriorityQueue) (pInfo : podInfo) : comp (PriorityQueue * option error) :=
  r ← Heap_Add (podsCompareBackoffCompleted (podBackoff p)) podInfoKeyFunc (podBackoffQ p) pInfo;
  Some (set_podBackoffQ p r.1, r.2).
Definition podBackoffQ_Delete (p : PriorityQueue) (pInfo : podInfo) : comp (PriorityQueue * option error) :=
  r ← Heap_Delete (podsCompareBackoffCompleted (podBackoff p)) podInfoKeyFunc (podBackoffQ p) pInfo;
  Some (set_podBackoffQ p r.1, r.2).
Definition podBackoffQ_Pop (p : PriorityQueue) : comp (PriorityQueue * (error + podInfo)) :=
  r ← Heap_Pop (podsCompareBackoffCompleted (podBackoff p)) (podBackoffQ p);
  Some (set_podBackoffQ p r.1, r.2).

(** [obj, exists, _ := h.Get(pInfo)] *)
Definition get_exists (h : heapData podInfo) (pInfo : podInfo) : option podInfo :=
  match Heap_Get podInfoKeyFunc h pInfo with inr o => o | inl _ => None end.

(** ** The methods *)

Definition PriorityQueue_Add (now : Time) (p : PriorityQueue) (pod : Pod)
  : comp (PriorityQueue * option error) :=
  let pInfo := newPodInfo (Some now) pod in
  '(p, err) ← activeQ_Add p pInfo;
  match err with
  | Some err => Some (p, Some err)
  | None =>
      let p := match UnschedulablePodsMap_get (unschedulableQ p) pod with
               | Some _ => set_unschedulableQ p (UnschedulablePodsMap_delete (unschedulableQ p) pod)
               | None => p
               end in
      '(p, _) ← podBackoffQ_Delete p pInfo;
      let p := set_nominated p (nominatedPodMap_add (pq_nominated p) pod EmptyString) in
      Some (Broadcast p, None)
  end.

Definition PriorityQueue_AddIfNotPresent (now : Time) (p : PriorityQueue) (pod : Pod)
  : comp (PriorityQueue * option error) :=
  match UnschedulablePodsMap_get (unschedulableQ p) pod with
  | Some _ => Some (p, None)
  | None =>
      let pInfo := newPodInfo (Some now) pod in
      match get_exists (activeQ p) pInfo with
      | Some _ => Some (p, None)
      | None =>
          match get_exists (podBackoffQ p) pInfo with
          | Some _ => Some (p, None)
          | None =>
              '(p, err) ← activeQ_Add p pInfo;
              match err with
              | Some err => Some (p, Some err)
              | None =>
                  let p := set_nominated p (nominatedPodMap_add (pq_nominated p) pod EmptyString) in
                  Some (Broadcast p, None)
              end
          end
      end
  end.

Definition PriorityQueue_AddUnschedulableIfNotPresent
    (now : Time) (p : PriorityQueue) (pod : Pod) (podSchedulingCycle : Z)
  : comp (PriorityQueue * option error) :=
  match UnschedulablePodsMap_get (unschedulableQ p) pod with
  | Some _ => Some (p, Some "pod is already present in unschedulableQ"%string)
  | None =>
      let pInfo := newPodInfo (Some now) pod in
      match get_exists (activeQ p) pInfo with
      | Some _ => Some (p, Some "pod is already present in the activeQ"%string)
      | None =>
          match get_exists (podBackoffQ p) pInfo with
          | Some _ => Some (p, Some "pod is already present in the backoffQ"%string)
          | None =>
              p ← backoffPod now p pod;
              '(p, err) ←
                (if podSchedulingCycle <=? moveRequestCycle p then podBackoffQ_Add p pInfo
                 else Some (set_unschedulableQ p
                              (UnschedulablePodsMap_addOrUpdate (unschedulableQ p) pInfo), None));
              match err with
              | Some err =>
                  Some (p, Some ("error adding pod " +:+ pod_Name pod +:+ " to the backoff queue: "
                                 +:+ err)%string)
              | None =>
                  Some (set_nominated p (nominatedPodMap_add (pq_nominated p) pod EmptyString), None)
              end
          end
      end
  end.

(** The loop takes one pod out of [podBackoffQ] in every iteration.  An error
    of [activeQ.Add] is dropped. *)
Fixpoint flushBackoff_loop (fuel : nat) (now : Time) (p : PriorityQueue) : comp PriorityQueue :=
  match fuel with
  | O => panic
  | S fuel =>
      raw ← Heap_Peek (podBackoffQ p);
      match raw with
      | None => Some p
      | Some rawPodInfo =>
          let '(boTime, found) := GetBackoffTime (podBackoff p) (nsNameForPod (pi_pod rawPodInfo)) in
          if negb found then
            '(p, _) ← podBackoffQ_Pop p;
            '(p, _) ← activeQ_Add p rawPodInfo;
            flushBackoff_loop fuel now (Broadcast p)
          else if time_after boTime now then Some p
          else
            '(p, r) ← podBackoffQ_Pop p;
            match r with
            | inl _ => Some p
            | inr _ =>
                '(p, _) ← activeQ_Add p rawPodInfo;
                flushBackoff_loop fuel now (Broadcast p)
            end
      end
  end.
Definition flushBackoffQCompleted (now : Time) (p : PriorityQueue) : comp PriorityQueue :=
  flushBackoff_loop (S (Heap_Len (podBackoffQ p))) now p.

(** The body shared by the two loops that leave [unschedulableQ]. *)
Definition requeue (now : Time) (p : PriorityQueue) (pInfo : podInfo) : comp PriorityQueue :=
  '(p, _) ← (if isPodBackingOff now p (pi_pod pInfo) then podBackoffQ_Add p pInfo
             else activeQ_Add p pInfo);
  Some p.

Fixpoint movePods_loop (now : Time) (p : PriorityQueue) (l : list podInfo) : comp PriorityQueue :=
  match l with
  | [] => Some p
  | pInfo :: l =>
      p ← requeue now p pInfo;
      movePods_loop now
        (set_unschedulableQ p (UnschedulablePodsMap_delete (unschedulableQ p) (pi_pod pInfo))) l
  end.

Definition movePodsToActiveQueue (now : Time) (p : PriorityQueue) (podInfoList : list podInfo)
  : comp PriorityQueue :=
  p ← movePods_loop now p podInfoList;
  Some (Broadcast (set_cycles p (schedulingCycle p) (schedulingCycle p))).

Fixpoint moveAll_loop (now : Time) (p : PriorityQueue) (l : list podInfo) : comp PriorityQueue :=
  match l with
  | [] => Some p
  | pInfo :: l => p ← requeue now p pInfo; moveAll_loop now p l
  end.

Definition PriorityQueue_MoveAllToActiveQueue (now : Time) (p : PriorityQueue) : comp PriorityQueue :=
  p ← moveAll_loop now p (range (unschedulableQ p)).*2;
  let p := set_unschedulableQ p ∅ in
  Some (Broadcast (set_cycles p (schedulingCycle p) (schedulingCycle p))).

Definition unschedulableQTimeInterval : Duration := 60 * Second.

Definition flushUnschedulableQLeftover (now : Time) (p : PriorityQueue) : comp PriorityQueue :=
  let podsToMove :=
    filter (λ pInfo, unschedulableQTimeInterval < time_sub now (pi_timestamp pInfo))
      (range (unschedulableQ p)).*2 in
  if bool_decide (0 < length podsToMove)%nat then movePodsToActiveQueue now p podsToMove else Some p.

Inductive PopResult := PopPod (pod : Pod) | PopError (err : error) | PopWait.

Definition PriorityQueueClosedError : error := "scheduling queue is closed".

(** [PopWait]: the queue is empty and open, and the caller waits on the
    condition variable; it runs [Pop] again when it is woken. *)
Definition PriorityQueue_Pop (p : PriorityQueue) : comp (PriorityQueue * PopResult) :=
  if bool_decide (Heap_Len (activeQ p) = O) then
    if closed p then Some (p, PopError PriorityQueueClosedError) else Some (p, PopWait)
  else
    r ← Heap_Pop lessFunc (activeQ p);
    let p := set_activeQ p r.1 in
    match r.2 with
    | inl err => Some (p, PopError err)
    | inr pInfo =>
        Some (set_cycles p (add64 (schedulingCycle p) 1) (moveRequestCycle p), PopPod (pi_pod pInfo))
    end.

Definition PriorityQueue_Update (now : Time) (p : PriorityQueue) (oldPod : option Pod) (newPod : Pod)
  : comp (PriorityQueue * option error) :=
  match (old ← oldPod; get_exists (activeQ p) (newPodInfoNoTimestamp old)) with
  | Some oldPodInfo =>
      npm ← nominatedPodMap_update (pq_nominated p) oldPod newPod;
      let p := set_nominated p npm in
      r ← Heap_Update lessFunc podInfoKeyFunc (activeQ p) (MkPodInfo newPod (pi_timestamp oldPodInfo));
      Some (set_activeQ p r.1, r.2)
  | None =>
  match (old ← oldPod; oi ← get_exists (podBackoffQ p) (newPodInfoNoTimestamp old); Some (old, oi)) with
  | Some (old, oldPodInfo) =>
      npm ← nominatedPodMap_update (pq_nominated p) oldPod newPod;
      let p := set_nominated p npm in
      '(p, _) ← podBackoffQ_Delete p (newPodInfoNoTimestamp old);
      '(p, err) ← activeQ_Add p (MkPodInfo newPod (pi_timestamp oldPodInfo));
      Some (match err with None => Broadcast p | Some _ => p end, err)
  | None =>
  match UnschedulablePodsMap_get (unschedulableQ p) newPod with
  | Some usPodInfo =>
      npm ← nominatedPodMap_update (pq_nominated p) oldPod newPod;
      let p := set_nominated p npm in
      let newPodInfo := MkPodInfo newPod (pi_timestamp usPodInfo) in
      old ← oldPod;
      if isPodUpdated old newPod then
        p ← clearPodBackoff p newPod;
        let p := set_unschedulableQ p
                   (UnschedulablePodsMap_delete (unschedulableQ p) (pi_pod usPodInfo)) in
        '(p, err) ← activeQ_Add p newPodInfo;
        Some (match err with None => Broadcast p | Some _ => p end, err)
      else
        Some (set_unschedulableQ p (UnschedulablePodsMap_addOrUpdate (unschedulableQ p) newPodInfo), None)
  | None =>
      '(p, err) ← activeQ_Add p (newPodInfo (Some now) newPod);
      match err with
      | None =>
          let p := set_nominated p (nominatedPodMap_add (pq_nominated p) newPod EmptyString) in
          Some (Broadcast p, None)
      | Some err => Some (p, Some err)
      end
  end end end.

Definition PriorityQueue_Delete (p : PriorityQueue) (pod : Pod) : comp (PriorityQueue * option error) :=
  let p := set_nominated p (nominatedPodMap_delete (pq_nominated p) pod) in
  r ← Heap_Delete lessFunc podInfoKeyFunc (activeQ p) (newPodInfoNoTimestamp pod);
  let p := set_activeQ p r.1 in
  match r.2 with
  | Some _ =>
      p ← clearPodBackoff p pod;
      '(p, _) ← podBackoffQ_Delete p (newPodInfoNoTimestamp pod);
      Some (set_unschedulableQ p (UnschedulablePodsMap_delete (unschedulableQ p) pod), None)
  | None => Some (p, None)
  end.

(** The loop over the terms of one pending pod, left at the first match. *)
Fixpoint any_term_matches (pod up : Pod) (terms : list PodAffinityTerm) : comp bool :=
  match terms with
  | [] => Some false
  | term :: terms =>
      let namespaces := GetNamespacesFromPodAffinityTerm up term in
      let selector := match LabelSelectorAsSelector (pat_LabelSelector term) with
                      | inr s => Some s
                      | inl _ => None
                      end in
      b ← PodMatchesTermsNamespaceAndSelector pod namespaces selector;
      if b : bool then Some true else any_term_matches pod up terms
  end.

Definition affinity_matches (pod up : Pod) : comp bool :=
  match spec_Affinity (pod_Spec up) with
  | Some affinity =>
      match aff_PodAffinity affinity with
      | Some pa => any_term_matches pod up (GetPodAffinityTerms (Some pa))
      | None => Some false
      end
  | None => Some false
  end.

Fixpoint filter_affinity (pod : Pod) (l : list podInfo) : comp (list podInfo) :=
  match l with
  | [] => Some []
  | pInfo :: l =>
      b ← affinity_matches pod (pi_pod pInfo);
      rest ← filter_affinity pod l;
      Some (if b : bool then pInfo :: rest else rest)
  end.

Definition getUnschedulablePodsWithMatchingAffinityTerm (p : PriorityQueue) (pod : Pod)
  : comp (list podInfo) :=
  filter_affinity pod (range (unschedulableQ p)).*2.

Definition PriorityQueue_AssignedPodAdded (now : Time) (p : PriorityQueue) (pod : Pod)
  : comp PriorityQueue :=
  l ← getUnschedulablePodsWithMatchingAffinityTerm p pod;
  movePodsToActiveQueue now p l.

Definition PriorityQueue_AssignedPodUpdated (now : Time) (p : PriorityQueue) (pod : Pod)
  : comp PriorityQueue :=
  l ← getUnschedulablePodsWithMatchingAffinityTerm p pod;
  movePodsToActiveQueue now p l.

Definition PriorityQueue_NominatedPodsForNode (p : PriorityQueue) (nodeName : string) : list Pod :=
  nominatedPodMap_podsForNode (pq_nominated p) nodeName.

Definition PriorityQueue_PendingPods (p : PriorityQueue) : list Pod :=
  (pi_pod <$> Heap_List (activeQ p)) ++ (pi_pod <$> Heap_List (podBackoffQ p)) ++
  (pi_pod <$> (range (unschedulableQ p)).*2).

Definition PriorityQueue_Close (p : PriorityQueue) : PriorityQueue :=
  Broadcast (MkPriorityQueue (podBackoff p) (activeQ p) (podBackoffQ p) (unschedulableQ p)
    (pq_nominated p) (schedulingCycle p) (moveRequestCycle p) true (broadcasts p)).

Definition PriorityQueue_DeleteNominatedPodIfExists (p : PriorityQueue) (pod : Pod) : PriorityQueue :=
  set_nominated p (nominatedPodMap_delete (pq_nominated p) pod).

Definition PriorityQueue_UpdateNominatedPodForNode (p : PriorityQueue) (pod : Pod) (nodeName : string)
  : PriorityQueue :=
  set_nominated p (nominatedPodMap_add (pq_nominated p) pod nodeName).

Definition PriorityQueue_NumUnschedulablePods (p : PriorityQueue) : nat := size (unschedulableQ p).
Definition PriorityQueue_NumActivePods (p : PriorityQueue) : nat := Heap_Len (activeQ p).
Definition PriorityQueue_NumBackoffPods (p : PriorityQueue) : nat := Heap_Len (podBackoffQ p).

End ops.
End queue.
