(* ===== verification/SchedulingQueueProofs.v ===== *)
(** * Correctness of the scheduling queue

    The abstract value of a [PriorityQueue] is a finite map from the pods
    (namespace and name) to the place where the pod waits and its [podInfo].
    [pq_inv now q m] says that [q] is well formed at time [now] and has the
    value [m]; since [m] is a function, a pod is in at most one of the three
    queues.  Every method refines an operation on that map.

    The order of [podBackoffQ] needs care: its comparison reads the back-off
    table, whose entries [Gc] drops while pods are in the heap.  The invariant
    keeps the heap in the order of the back-off times clamped at [now], which
    dropping entries does not disturb. *)
From S2P Require Import Prelude Heap Api Util Backoff SchedulingQueue.
From Stdlib Require Import Ascii.

(** ** The abstract map *)

Inductive place := Active | Backoff | Unsched.
#[global] Instance place_eq_dec : EqDecision place.
Proof. solve_decision. Defined.

Abbreviation podmap := (gmap (string * string) (place * podInfo)).

(** A way to name pods: the keys of the two heaps and of the map. *)
Class PodKey (key : Pod → string) := {
  podkey_id p q : pod_id p = pod_id q → key p = key q;
  podkey_inj p q : valid_pod p → valid_pod q → key p = key q → pod_id p = pod_id q
}.

#[export] Instance GetPodFullName_key : PodKey GetPodFullName.
Proof. split; [apply GetPodFullName_id|apply GetPodFullName_inj]. Qed.

Definition podmap_ok (m : podmap) : Prop :=
  ∀ id pl pi, m !! id = Some (pl, pi) → id = pod_id (pi_pod pi) ∧ valid_pod (pi_pod pi).

(** The component [c] stores exactly the pods of [m] whose place is [pl]. *)
Definition slot (key : Pod → string) (pl : place) (c : gmap string podInfo) (m : podmap) : Prop :=
  ∀ k pi, c !! k = Some pi ↔ k = key (pi_pod pi) ∧ m !! pod_id (pi_pod pi) = Some (pl, pi).

Section slot.
Context (key : Pod → string) `{!PodKey key}.
Implicit Types (m : podmap) (c : gmap string podInfo) (pi : podInfo) (p : Pod).

Lemma slot_lookup pl c m p :
  podmap_ok m → slot key pl c m → valid_pod p →
  c !! key p = match m !! pod_id p with
               | Some (pl', pi) => if decide (pl' = pl) then Some pi else None
               | None => None
               end.
Proof.
  intros Hm Hs Hv. destruct (c !! key p) as [pi|] eqn:E.
  - apply Hs in E as [Ek E]. pose proof (Hm _ _ _ E) as [_ ?].
    assert (pod_id p = pod_id (pi_pod pi)) as -> by (by apply podkey_inj).
    rewrite E. by rewrite decide_True.
  - destruct (m !! pod_id p) as [[pl' pi]|] eqn:E'; [|done]. case_decide; [|done]. subst.
    pose proof (Hm _ _ _ E') as [Ei _]. rewrite Ei in E'.
    assert (c !! key p = Some pi) as E2; [|congruence].
    apply Hs. split; [by apply podkey_id|done].
Qed.

Lemma slot_absent pl c m p :
  podmap_ok m → slot key pl c m → valid_pod p → m !! pod_id p = None → c !! key p = None.
Proof. intros Hm Hs Hv E. rewrite (slot_lookup pl c m) by done. by rewrite E. Qed.

Lemma slot_insert pl c m pi :
  podmap_ok m → valid_pod (pi_pod pi) → slot key pl c m →
  slot key pl (<[key (pi_pod pi) := pi]> c) (<[pod_id (pi_pod pi) := (pl, pi)]> m).
Proof.
  intros Hm Hv Hs k pi'. rewrite !lookup_insert_Some. split.
  - intros [[<- <-]|[Hne E]]; [by auto|]. apply Hs in E as [-> E]. split; [done|]. right. split; [|done].
    intros ?%podkey_id. congruence.
  - intros [-> [[Ei Ep]|[Hne E]]]; [left; split; [by apply podkey_id|congruence]|].
    right. split; [|by apply Hs]. intros Hk. apply Hne.
    apply podkey_inj in Hk; [done|done|]. by eapply Hm.
Qed.

Lemma slot_insert_other pl pl' c m pi :
  podmap_ok m → valid_pod (pi_pod pi) → slot key pl c m → pl' ≠ pl →
  slot key pl (delete (key (pi_pod pi)) c) (<[pod_id (pi_pod pi) := (pl', pi)]> m).
Proof.
  intros Hm Hv Hs Hpl k pi'. rewrite lookup_delete_Some, lookup_insert_Some. split.
  - intros [Hne E]. apply Hs in E as [-> E]. split; [done|]. right. split; [|done].
    intros ?%podkey_id. congruence.
  - intros [-> [[_ ?]|[Hne E]]]; [congruence|]. split; [|by apply Hs].
    intros Hk. apply Hne. apply podkey_inj in Hk; [done|done|]. by eapply Hm.
Qed.

Lemma slot_delete pl c m p :
  podmap_ok m → valid_pod p → slot key pl c m →
  slot key pl (delete (key p) c) (delete (pod_id p) m).
Proof.
  intros Hm Hv Hs k pi'. rewrite !lookup_delete_Some. split.
  - intros [Hne E]. apply Hs in E as [-> E]. split; [done|]. split; [|done].
    intros ?%podkey_id. congruence.
  - intros [-> [Hne E]]. split; [|by apply Hs].
    intros Hk. apply Hne. apply podkey_inj in Hk; [done|done|]. by eapply Hm.
Qed.

(** The list of the pods of a place has no duplicates. *)
Lemma slot_list pl c m (l : list podInfo) :
  slot key pl c m → l ≡ₚ (map_to_list c).*2 →
  NoDup ((λ pi, pod_id (pi_pod pi)) <$> l) ∧
  ∀ pi, pi ∈ l ↔ m !! pod_id (pi_pod pi) = Some (pl, pi).
Proof.
  intros Hs Hl. split.
  - apply (NoDup_fmap_finer (λ pi, key (pi_pod pi))); [intros; by apply podkey_id|]. rewrite Hl.
    eapply eq_ind; [exact (NoDup_fst_map_to_list c)|]. rewrite <-list_fmap_compose.
    apply list_fmap_ext. intros i [k pi] E%list_elem_of_lookup_2%elem_of_map_to_list.
    by apply Hs in E as [-> _].
  - intros pi. rewrite Hl, list_elem_of_fmap. split.
    + by intros ([k pi'] & -> & [_ E]%elem_of_map_to_list%Hs).
    + intros E. exists (key (pi_pod pi), pi). split; [done|]. by apply elem_of_map_to_list, Hs.
Qed.

(** What happens to the component of place [pl'] when a pod goes to [pl]. *)
Definition put (pl pl' : place) (k : string) pi c : gmap string podInfo :=
  if decide (pl = pl') then <[k := pi]> c else delete k c.

Lemma slot_put pl pl' c m pi :
  podmap_ok m → valid_pod (pi_pod pi) → slot key pl' c m →
  slot key pl' (put pl pl' (key (pi_pod pi)) pi c) (<[pod_id (pi_pod pi) := (pl, pi)]> m).
Proof.
  intros ???. unfold put. case_decide; [subst; by apply slot_insert|by apply slot_insert_other].
Qed.

End slot.

Lemma podmap_ok_insert m pl pi :
  podmap_ok m → valid_pod (pi_pod pi) → podmap_ok (<[pod_id (pi_pod pi) := (pl, pi)]> m).
Proof. intros Hm Hv id pl' pi' [[<- ?]|[_ E]]%lookup_insert_Some; [by simplify_eq|by eapply Hm]. Qed.
Lemma podmap_ok_delete m id : podmap_ok m → podmap_ok (delete id m).
Proof. intros Hm id' pl' pi' [_ E]%lookup_delete_Some. by eapply Hm. Qed.

(** The slot of a place after a pod has moved. *)
Ltac slot :=
  first [ apply slot_put | apply slot_delete | apply podmap_ok_insert | apply podmap_ok_delete ];
  first [ done | apply _ ].

#[export] Hint Resolve podmap_ok_insert podmap_ok_delete : sched.

Section proofs.
Context {K8s : K8sLib} {Laws : K8sLaws} {Range : MapRange}.
Implicit Types (q : PriorityQueue) (m : podmap) (pi : podInfo) (p pod : Pod).

(** The key of the two heaps. *)
Definition meta_key (p : Pod) : string :=
  match MetaNamespaceKeyFunc p with inr k => k | inl _ => EmptyString end.

Lemma meta_key_ok pi : podInfoKeyFunc pi = inr (meta_key (pi_pod pi)).
Proof.
  unfold podInfoKeyFunc, meta_key. by destruct (meta_key_total (pi_pod pi)) as [k ->].
Qed.

#[export] Instance meta_key_key : PodKey meta_key.
Proof.
  unfold meta_key. split; intros p q.
  - intros E. by rewrite (meta_key_id p q E).
  - intros Hp Hq E. apply meta_key_inj; [done..|].
    destruct (meta_key_total p) as [k Ek], (meta_key_total q) as [k' Ek'].
    rewrite Ek, Ek' in *. congruence.
Qed.

(** ** The order of the back-off heap *)

Definition boTime (bo : PodBackoff) (p : Pod) : Time := (GetBackoffTime bo (nsNameForPod p)).1.

(** Back-off times, all past times being alike. *)
Definition boOrd (now : Time) (bo : PodBackoff) (pi1 pi2 : podInfo) : bool :=
  Z.max now (boTime bo (pi_pod pi1)) <? Z.max now (boTime bo (pi_pod pi2)).

#[export] Instance boOrd_orders now bo : OrdersBy (podsCompareBackoffCompleted bo) (boOrd now bo).
Proof.
  unfold podsCompareBackoffCompleted, boOrd, time_before, boTime.
  split; [split|..]; intros; bool_to_prop; apply Z.ltb_ge; lia.
Qed.

Record pq_inv (now : Time) q m : Prop := {
  inv_now : 0 <= now;
  inv_ok : podmap_ok m;
  inv_bo : backoff_inv (podBackoff q);
  inv_awf : wf (activeQ q);
  inv_bord : heap_inv (boOrd now (podBackoff q)) (podBackoffQ q);
  inv_active : slot meta_key Active (contents (activeQ q)) m;
  inv_backoff : slot meta_key Backoff (contents (podBackoffQ q)) m;
  inv_unsched : slot GetPodFullName Unsched (unschedulableQ q) m
}.

(** The fields that are not part of the map. *)
Definition misc q := (pq_nominated q, schedulingCycle q, moveRequestCycle q, closed q, broadcasts q).

(** Only four fields matter. *)
Lemma pq_inv_frame now q q' m :
  pq_inv now q m → podBackoff q' = podBackoff q → activeQ q' = activeQ q →
  podBackoffQ q' = podBackoffQ q → unschedulableQ q' = unschedulableQ q → pq_inv now q' m.
Proof. intros [] E1 E2 E3 E4. split; rewrite ?E1, ?E2, ?E3, ?E4; done. Qed.

(** Time passes. *)
Lemma pq_inv_mono now now' q m : now <= now' → pq_inv now q m → pq_inv now' q m.
Proof.
  intros Hle []. split; try done; [lia|].
  eapply heap_inv_ext; [|done]. simpl. unfold boOrd. intros _ _ a b _ _ ?. bool_to_prop.
  apply Z.ltb_ge. lia.
Qed.

Lemma pq_inv_lookup_active now q m p :
  pq_inv now q m → valid_pod p →
  contents (activeQ q) !! meta_key p =
    match m !! pod_id p with Some (Active, pi) => Some pi | _ => None end.
Proof.
  intros Hi Hv. rewrite (slot_lookup meta_key Active _ m p) by (try done; apply Hi).
  destruct (m !! pod_id p) as [[[] pi]|]; by try case_decide.
Qed.
Lemma pq_inv_lookup_backoff now q m p :
  pq_inv now q m → valid_pod p →
  contents (podBackoffQ q) !! meta_key p =
    match m !! pod_id p with Some (Backoff, pi) => Some pi | _ => None end.
Proof.
  intros Hi Hv. rewrite (slot_lookup meta_key Backoff _ m p) by (try done; apply Hi).
  destruct (m !! pod_id p) as [[[] pi]|]; by try case_decide.
Qed.
Lemma pq_inv_lookup_unsched now q m p :
  pq_inv now q m → valid_pod p →
  UnschedulablePodsMap_get (unschedulableQ q) p =
    match m !! pod_id p with Some (Unsched, pi) => Some pi | _ => None end.
Proof.
  intros Hi Hv. unfold UnschedulablePodsMap_get.
  rewrite (slot_lookup GetPodFullName Unsched _ m p) by (try done; apply Hi).
  destruct (m !! pod_id p) as [[[] pi]|]; by try case_decide.
Qed.

Lemma get_exists_contents h pi : get_exists h pi = contents h !! meta_key (pi_pod pi).
Proof. unfold get_exists. by rewrite (Heap_Get_contents _ _ _ _ (meta_key_ok pi)). Qed.

Section ops.
Context (lessFunc : podInfo → podInfo → bool).

(** The active queue stays in every order that [lessFunc] keeps. *)
Definition keeps_order q q' : Prop :=
  ∀ ord, OrdersBy lessFunc ord → heap_inv ord (activeQ q) → heap_inv ord (activeQ q').

Lemma keeps_order_refl q q' : activeQ q' = activeQ q → keeps_order q q'.
Proof. intros E ord. by rewrite E. Qed.
Lemma keeps_order_trans q1 q2 q3 : keeps_order q1 q2 → keeps_order q2 q3 → keeps_order q1 q3.
Proof. intros H1 H2 ord Ho Hi. by apply H2, H1. Qed.

(** ** The four ways a pod moves *)

(** Into the active queue. *)
Lemma activeQ_Add_spec q pi :
  wf (activeQ q) →
  ∃ h, activeQ_Add lessFunc q pi = Some (set_activeQ q h, None) ∧ wf h ∧
    contents h = <[meta_key (pi_pod pi) := pi]> (contents (activeQ q)) ∧
    keeps_order q (set_activeQ q h).
Proof.
  intros Hw. unfold activeQ_Add.
  destruct (Heap_Add_ok podInfoKeyFunc lessFunc (activeQ q) pi _ Hw (meta_key_ok pi))
    as (h & -> & Hw' & Hc & Ho).
  simpl. exists h. split_and!; try done.
Qed.

(** Into the back-off queue. *)
Lemma podBackoffQ_Add_spec now q pi :
  heap_inv (boOrd now (podBackoff q)) (podBackoffQ q) →
  ∃ h, podBackoffQ_Add q pi = Some (set_podBackoffQ q h, None) ∧
    heap_inv (boOrd now (podBackoff q)) h ∧
    contents h = <[meta_key (pi_pod pi) := pi]> (contents (podBackoffQ q)).
Proof.
  intros Hw. unfold podBackoffQ_Add.
  destruct (Heap_Add_ok podInfoKeyFunc (podsCompareBackoffCompleted (podBackoff q))
    (podBackoffQ q) pi _ (heap_inv_wf _ _ Hw) (meta_key_ok pi)) as (h & -> & _ & Hc & Ho).
  simpl. exists h. split_and!; try done. by apply (Ho _ _).
Qed.

(** Out of the back-off queue; the order of the pod that leaves is free. *)
Lemma podBackoffQ_Delete_spec now q pi :
  wf (podBackoffQ q) →
  (if contents (podBackoffQ q) !! meta_key (pi_pod pi) is Some _
   then heap_inv_but (boOrd now (podBackoff q)) (meta_key (pi_pod pi)) (podBackoffQ q)
   else heap_inv (boOrd now (podBackoff q)) (podBackoffQ q)) →
  ∃ h e, podBackoffQ_Delete q pi = Some (set_podBackoffQ q h, e) ∧
    heap_inv (boOrd now (podBackoff q)) h ∧
    contents h = delete (meta_key (pi_pod pi)) (contents (podBackoffQ q)).
Proof.
  intros Hw Ho. unfold podBackoffQ_Delete.
  destruct (contents (podBackoffQ q) !! meta_key (pi_pod pi)) as [pi'|] eqn:E.
  - destruct (Heap_Delete_ok podInfoKeyFunc (podsCompareBackoffCompleted (podBackoff q))
      (podBackoffQ q) pi _ Hw (meta_key_ok pi)) as (h & -> & _ & Hc & Ho'); [by eexists|].
    simpl. eexists _, _. split_and!; [done| |done]. by apply (Ho' _ _).
  - rewrite (Heap_Delete_absent podInfoKeyFunc _ _ _ _ (meta_key_ok pi) E). simpl.
    eexists _, _. split_and!; [done|done|]. by rewrite delete_id.
Qed.

Lemma podBackoffQ_Delete_inv now q pi :
  heap_inv (boOrd now (podBackoff q)) (podBackoffQ q) →
  ∃ h e, podBackoffQ_Delete q pi = Some (set_podBackoffQ q h, e) ∧
    heap_inv (boOrd now (podBackoff q)) h ∧
    contents h = delete (meta_key (pi_pod pi)) (contents (podBackoffQ q)).
Proof.
  intros Hi. apply podBackoffQ_Delete_spec; [by eapply heap_inv_wf|].
  case_match eqn:E; [|done]. apply heap_inv_but_intro; [|done|by eexists].
  apply boOrd_orders.
Qed.

(** A pod is put in one place and taken out of the other two. *)
Lemma pq_inv_place now q q' m pl pi :
  pq_inv now q m → valid_pod (pi_pod pi) →
  podBackoff q' = podBackoff q → wf (activeQ q') →
  heap_inv (boOrd now (podBackoff q)) (podBackoffQ q') →
  contents (activeQ q') = put pl Active (meta_key (pi_pod pi)) pi (contents (activeQ q)) →
  contents (podBackoffQ q') = put pl Backoff (meta_key (pi_pod pi)) pi (contents (podBackoffQ q)) →
  unschedulableQ q' = put pl Unsched (GetPodFullName (pi_pod pi)) pi (unschedulableQ q) →
  pq_inv now q' (<[pod_id (pi_pod pi) := (pl, pi)]> m).
Proof.
  intros [] Hv Eb Hw Hb Ea Ec Eu. split; rewrite ?Eb, ?Ea, ?Ec, ?Eu; first [done|slot].
Qed.

(** ** The back-off table under the queue *)

Lemma isPodBackingOff_boTime now q p :
  0 <= now → isPodBackingOff now q p = (now <? boTime (podBackoff q) p).
Proof.
  intros Hn. unfold isPodBackingOff, boTime. rewrite GetBackoffTime_entries.
  destruct (entries _ !! _); simpl; [done|]. symmetry. by apply Z.ltb_ge.
Qed.

(** Collecting garbage changes no back-off time that is still to come. *)
Lemma Gc_boTime now bo bo' p :
  0 <= now → backoff_inv bo → entries bo' = filter (fresh now bo) (entries bo) →
  Z.max now (boTime bo' p) = Z.max now (boTime bo p).
Proof.
  intros Hn Hi He. unfold boTime. rewrite !GetBackoffTime_entries, He.
  destruct (entries bo !! _) as [e|] eqn:E.
  - destruct (decide (fresh now bo (nn_String (nsNameForPod p), e))) as [Hf|Hf].
    + by rewrite (map_lookup_filter_Some_2 _ _ _ _ E Hf).
    + assert (filter (fresh now bo) (entries bo) !! nn_String (nsNameForPod p) = None) as ->.
      { apply map_lookup_filter_None. right. intros e' E'. by simplify_eq. }
      pose proof (bi_entries _ Hi _ _ E). pose proof (bi_max _ Hi). simpl.
      unfold fresh, time_sub, MinInt64, MaxInt64 in Hf. simpl in Hf.
      unfold zeroTime, backoffTime, time_add. pose proof (bi_durations _ Hi). lia.
  - assert (filter (fresh now bo) (entries bo) !! nn_String (nsNameForPod p) = None) as ->; [|done].
    apply map_lookup_filter_None. by left.
Qed.

(** The table may change as long as no pod of the back-off queue notices. *)
Lemma pq_inv_set_bo now q m bo :
  pq_inv now q m → backoff_inv bo →
  (∀ pi, m !! pod_id (pi_pod pi) = Some (Backoff, pi) →
     Z.max now (boTime bo (pi_pod pi)) = Z.max now (boTime (podBackoff q) (pi_pod pi))) →
  pq_inv now (set_podBackoff q bo) m.
Proof.
  intros [] Hbo He. split; simpl; try done. eapply heap_inv_ext; [|done].
  simpl. intros k1 k2 a b [_ Ha]%inv_backoff0 [_ Hb]%inv_backoff0. unfold boOrd.
  by rewrite (He _ Ha), (He _ Hb).
Qed.

Lemma nn_String_ne p p' :
  valid_pod p → valid_pod p' → pod_id p ≠ pod_id p' →
  nn_String (nsNameForPod p) ≠ nn_String (nsNameForPod p').
Proof. intros Hp Hp' Hne E. by apply Hne, nsname_inj. Qed.

Lemma backoffPod_spec now q m pod :
  pq_inv now q m → valid_pod pod → m !! pod_id pod = None →
  ∃ bo, backoffPod now q pod = Some (set_podBackoff q bo) ∧ pq_inv now (set_podBackoff q bo) m ∧
    (GetBackoffTime bo (nsNameForPod pod)).2 = true ∧ now <= boTime bo pod.
Proof.
  intros Hi Hv Hm. unfold backoffPod.
  destruct (Gc_spec now (podBackoff q)) as (bo & -> & Hbo & He & Hmax); [apply Hi|]. simpl.
  pose proof (inv_now _ _ _ Hi) as Hn.
  assert (pq_inv now (set_podBackoff q bo) m) as Hi1.
  { apply pq_inv_set_bo; [done|done|]. intros pi _. by apply Gc_boTime; [|apply Hi|]. }
  destruct (GetBackoffTime bo (nsNameForPod pod)) as [t found] eqn:Et.
  destruct (negb found || time_before t now) eqn:Eb.
  - destruct (BackoffPod_spec now bo (nsNameForPod pod) Hbo) as (bo' & -> & Hbo' & _ & _ & He').
    simpl. exists bo'. split_and!; [done| | |].
    + apply (pq_inv_set_bo now (set_podBackoff q bo) m bo'); [done|done|].
      intros pi Hpi. simpl. unfold boTime. rewrite !GetBackoffTime_entries, He', lookup_insert_ne; [done|].
      apply nn_String_ne; [done|by eapply inv_ok|]. congruence.
    + by rewrite GetBackoffTime_entries, He', lookup_insert_eq.
    + unfold boTime. rewrite GetBackoffTime_entries, He', lookup_insert_eq. simpl.
      unfold backoffTime, time_add. simpl.
      pose proof (entry_or_new_range bo (nsNameForPod pod) Hbo). pose proof (bi_durations _ Hbo).
      unfold nextDuration. destruct (initialized _); lia.
  - exists bo. apply orb_false_iff in Eb as [Ef Eb]. apply negb_false_iff in Ef. subst.
    split_and!; [done|done|by rewrite Et|]. unfold boTime. rewrite Et. by apply Z.ltb_ge in Eb.
Qed.

Lemma clearPodBackoff_spec q pod :
  backoff_inv (podBackoff q) →
  ∃ bo, clearPodBackoff q pod = Some (set_podBackoff q bo) ∧ backoff_inv bo ∧
    ∀ p, valid_pod p → valid_pod pod → pod_id p ≠ pod_id pod → boTime bo p = boTime (podBackoff q) p.
Proof.
  intros Hi. unfold clearPodBackoff.
  destruct (ClearPodBackoff_spec (podBackoff q) (nsNameForPod pod) Hi) as (bo & b & -> & Hb & _ & He & _).
  simpl. exists bo. split_and!; [done|done|]. intros p Hp Hpod Hne. unfold boTime.
  rewrite !GetBackoffTime_entries, He, lookup_delete_ne; [done|]. by apply nn_String_ne.
Qed.

(** ** The methods, one by one *)

Lemma Add_spec now q m pod :
  pq_inv now q m → valid_pod pod →
  ∃ q', PriorityQueue_Add lessFunc now q pod = Some (q', None) ∧
    pq_inv now q' (<[pod_id pod := (Active, MkPodInfo pod now)]> m) ∧ keeps_order q q' ∧
    misc q' = (nominatedPodMap_add (pq_nominated q) pod EmptyString, schedulingCycle q,
               moveRequestCycle q, closed q, S (broadcasts q)).
Proof.
  intros Hi Hv. unfold PriorityQueue_Add. set (pi := newPodInfo (Some now) pod).
  destruct (activeQ_Add_spec q pi (inv_awf _ _ _ Hi)) as (h & -> & Hw & Hc & Ho). simpl.
  set (q1 := match UnschedulablePodsMap_get _ _ with Some _ => _ | None => _ end).
  assert (q1 = set_unschedulableQ (set_activeQ q h) (delete (GetPodFullName pod) (unschedulableQ q))) as ->.
  { unfold q1, UnschedulablePodsMap_get, UnschedulablePodsMap_delete. simpl.
    destruct (unschedulableQ q !! _) eqn:E; [done|]. by rewrite delete_id. }
  destruct (podBackoffQ_Delete_inv now (set_unschedulableQ (set_activeQ q h)
    (delete (GetPodFullName pod) (unschedulableQ q))) pi) as (h' & e & -> & Ho' & Hc');
    [apply Hi|].
  simpl. eexists. split_and!; [done| |done|done].
  by apply (pq_inv_place now q _ m Active pi).
Qed.

(** A pod that the queue does not know is in none of the components. *)
Lemma pq_inv_absent now q m p :
  pq_inv now q m → valid_pod p → m !! pod_id p = None →
  contents (activeQ q) !! meta_key p = None ∧ contents (podBackoffQ q) !! meta_key p = None ∧
  UnschedulablePodsMap_get (unschedulableQ q) p = None.
Proof.
  intros Hi Hv E.
  rewrite (pq_inv_lookup_active now q m p), (pq_inv_lookup_backoff now q m p),
    (pq_inv_lookup_unsched now q m p) by done. by rewrite E.
Qed.

Lemma AddIfNotPresent_spec now q m pod :
  pq_inv now q m → valid_pod pod →
  ∃ q', PriorityQueue_AddIfNotPresent lessFunc now q pod = Some (q', None) ∧ keeps_order q q' ∧
    match m !! pod_id pod with
    | Some _ => q' = q
    | None =>
        pq_inv now q' (<[pod_id pod := (Active, MkPodInfo pod now)]> m) ∧
        misc q' = (nominatedPodMap_add (pq_nominated q) pod EmptyString, schedulingCycle q,
                   moveRequestCycle q, closed q, S (broadcasts q))
    end.
Proof.
  intros Hi Hv. unfold PriorityQueue_AddIfNotPresent. set (pi := newPodInfo (Some now) pod).
  rewrite !get_exists_contents. change (pi_pod pi) with pod.
  rewrite (pq_inv_lookup_active now q m pod), (pq_inv_lookup_backoff now q m pod),
    (pq_inv_lookup_unsched now q m pod) by done.
  destruct (m !! pod_id pod) as [[[] pi']|] eqn:E; 
    try (exists q; split_and!; [done|by apply keeps_order_refl|done]).
  destruct (pq_inv_absent now q m pod Hi Hv E) as (Ea & Eb & Eu).
  destruct (activeQ_Add_spec q pi (inv_awf _ _ _ Hi)) as (h & -> & Hw & Hc & Ho). simpl.
  eexists. split_and!; [done|done| |done].
  apply (pq_inv_place now q _ m Active pi); unfold put; simpl; try done; [apply Hi| |].
  - by rewrite delete_id.
  - by rewrite delete_id.
Qed.

Lemma AddUnschedulableIfNotPresent_spec now q m pod cycle :
  pq_inv now q m → valid_pod pod →
  ∃ q' err, PriorityQueue_AddUnschedulableIfNotPresent now q pod cycle = Some (q', err) ∧
    keeps_order q q' ∧
    match m !! pod_id pod with
    | Some _ => q' = q ∧ is_Some err
    | None =>
        err = None ∧ now <= boTime (podBackoff q') pod ∧
        pq_inv now q' (<[pod_id pod := (if cycle <=? moveRequestCycle q then Backoff else Unsched,
                                        MkPodInfo pod now)]> m) ∧
        misc q' = (nominatedPodMap_add (pq_nominated q) pod EmptyString, schedulingCycle q,
                   moveRequestCycle q, closed q, broadcasts q)
    end.
Proof.
  intros Hi Hv. unfold PriorityQueue_AddUnschedulableIfNotPresent.
  set (pi := newPodInfo (Some now) pod).
  rewrite !get_exists_contents. change (pi_pod pi) with pod.
  rewrite (pq_inv_lookup_active now q m pod), (pq_inv_lookup_backoff now q m pod),
    (pq_inv_lookup_unsched now q m pod) by done.
  destruct (m !! pod_id pod) as [[[] pi']|] eqn:E; 
    try (eexists q, _; split_and!; [done|by apply keeps_order_refl|done|by eexists]).
  destruct (backoffPod_spec now q m pod Hi Hv E) as (bo & -> & Hi1 & _ & Ht). simpl.
  destruct (pq_inv_absent now _ m pod Hi1 Hv E) as (Ea & Eb & Eu). simpl in Ea, Eb, Eu.
  destruct (cycle <=? moveRequestCycle q).
  - destruct (podBackoffQ_Add_spec now (set_podBackoff q bo) pi) as (h & -> & Ho & Hc); [apply Hi1|].
    simpl. eexists _, _. split_and!; [done|by apply keeps_order_refl|done|done| |done].
    apply (pq_inv_place now _ _ m Backoff pi Hi1); unfold put; simpl; try done; [apply Hi| |];
      by rewrite delete_id.
  - simpl. eexists _, _. split_and!; [done|by apply keeps_order_refl|done|done| |done].
    apply (pq_inv_place now _ _ m Unsched pi Hi1); unfold put; simpl; try done;
      [apply Hi|apply Hi1| |]; by rewrite delete_id.
Qed.

(** Where [Update] leaves the pod, and with which time stamp. *)
Definition update_place now m (old new : Pod) : place * podInfo :=
  match m !! pod_id new with
  | Some (Active, oi) | Some (Backoff, oi) => (Active, MkPodInfo new (pi_timestamp oi))
  | Some (Unsched, oi) =>
      (if isPodUpdated old new then Active else Unsched, MkPodInfo new (pi_timestamp oi))
  | None => (Active, MkPodInfo new now)
  end.

(** The pods whose update calls [Broadcast]. *)
Definition update_wakes m (old new : Pod) : bool :=
  match m !! pod_id new with
  | Some (Active, _) => false
  | Some (Backoff, _) | None => true
  | Some (Unsched, _) => isPodUpdated old new
  end.

Definition update_nominated q m (old new : Pod) : nominatedPodMap :=
  match m !! pod_id new with
  | Some _ => nominatedPodMap_add (nominatedPodMap_delete (pq_nominated q) old) new EmptyString
  | None => nominatedPodMap_add (pq_nominated q) new EmptyString
  end.

Lemma Update_spec now q m old new :
  pq_inv now q m → valid_pod old → valid_pod new → pod_id old = pod_id new →
  ∃ q', PriorityQueue_Update lessFunc now q (Some old) new = Some (q', None) ∧
    pq_inv now q' (<[pod_id new := update_place now m old new]> m) ∧ keeps_order q q' ∧
    misc q' = (update_nominated q m old new, schedulingCycle q, moveRequestCycle q, closed q,
               (if update_wakes m old new then S else id) (broadcasts q)).
Proof.
  intros Hi Hvo Hvn Eid. unfold PriorityQueue_Update, update_place, update_wakes, update_nominated.
  cbn [mbind option_bind nominatedPodMap_update]. rewrite !get_exists_contents. simpl.
  rewrite (pq_inv_lookup_active now q m old), (pq_inv_lookup_backoff now q m old),
    (pq_inv_lookup_unsched now q m new) by done. rewrite Eid.
  destruct (m !! pod_id new) as [[[] oi]|] eqn:E; simpl.
  - set (pi := MkPodInfo new (pi_timestamp oi)).
    destruct (activeQ_Add_spec (set_nominated q (nominatedPodMap_add (nominatedPodMap_delete
      (pq_nominated q) old) new EmptyString)) pi (inv_awf _ _ _ Hi)) as (h & Eh & Hw & Hc & Ho).
    unfold activeQ_Add, Heap_Update in *. simpl in *.
    destruct (Heap_Add lessFunc podInfoKeyFunc (activeQ q) pi) as [[h' e]|]; simplify_eq/=.
    eexists. split_and!; [done| |done|done].
    apply (pq_inv_place now q _ m Active pi Hi); unfold put; simpl; try done; [apply Hi| |].
    + rewrite delete_id; [done|]. rewrite (pq_inv_lookup_backoff now q m new) by done. by rewrite E.
    + rewrite delete_id; [done|]. pose proof (pq_inv_lookup_unsched now q m new Hi Hvn) as Eu.
      by rewrite E in Eu.
  - set (q1 := set_nominated q _).
    destruct (podBackoffQ_Delete_inv now q1 (newPodInfoNoTimestamp old)) as (h & e & -> & Ho & Hc);
      [apply Hi|].
    simpl in *. set (pi := MkPodInfo new (pi_timestamp oi)).
    destruct (activeQ_Add_spec (set_podBackoffQ q1 h) pi (inv_awf _ _ _ Hi)) as (h' & -> & Hw & Hc' & Ho').
    simpl in *. eexists. split_and!; [done| |done|done].
    apply (pq_inv_place now q _ m Active pi Hi); unfold put; simpl; try done.
    + by rewrite Hc, (podkey_id old new Eid).
    + rewrite delete_id; [done|]. pose proof (pq_inv_lookup_unsched now q m new Hi Hvn) as Eu.
      by rewrite E in Eu.
  - pose proof (inv_ok _ _ _ Hi _ _ _ E) as [Eoi Hvoi].
    set (pi := MkPodInfo new (pi_timestamp oi)).
    assert (contents (activeQ q) !! meta_key new = None ∧ contents (podBackoffQ q) !! meta_key new = None)
      as [Ea Eb].
    { rewrite (pq_inv_lookup_active now q m new), (pq_inv_lookup_backoff now q m new) by done.
      by rewrite E. }
    destruct (isPodUpdated old new).
    + set (q1 := set_nominated q _).
      destruct (clearPodBackoff_spec q1 new) as (bo & -> & Hbo & Ht); [apply Hi|]. simpl in *.
      assert (pq_inv now (set_podBackoff q bo) m) as Hi1.
      { apply pq_inv_set_bo; [done|done|]. intros pi' Hpi'. rewrite Ht; [done| |done|congruence].
        by eapply inv_ok. }
      set (q2 := set_unschedulableQ _ _).
      destruct (activeQ_Add_spec q2 pi (inv_awf _ _ _ Hi)) as (h' & -> & Hw & Hc' & Ho').
      simpl in *. eexists. split_and!; [done| |done|done].
      apply (pq_inv_place now _ _ m Active pi Hi1); unfold put; simpl; try done; [apply Hi1| |].
      * by rewrite delete_id.
      * unfold UnschedulablePodsMap_delete. f_equal. apply GetPodFullName_id. congruence.
    + eexists. split_and!; [done| |by apply keeps_order_refl|done].
      apply (pq_inv_place now _ _ m Unsched pi Hi); unfold put; simpl; try done; [apply Hi|apply Hi| |];
        by rewrite delete_id.
  - destruct (pq_inv_absent now q m new Hi Hvn E) as (Ea & Eb & Eu).
    set (pi := MkPodInfo new now).
    destruct (activeQ_Add_spec q pi (inv_awf _ _ _ Hi)) as (h & -> & Hw & Hc & Ho). simpl.
    eexists. split_and!; [done| |done|done].
    apply (pq_inv_place now q _ m Active pi); unfold put; simpl; try done; [apply Hi| |];
      by rewrite delete_id.
Qed.

(** [Delete] clears the back-off time of the pod before it takes the pod out of
    the heap that this time orders: only the place of the pod itself is off. *)
Lemma clear_then_delete now q m pod bo :
  pq_inv now q m → valid_pod pod →
  (∀ p, valid_pod p → valid_pod pod → pod_id p ≠ pod_id pod → boTime bo p = boTime (podBackoff q) p) →
  if contents (podBackoffQ q) !! meta_key pod is Some _
  then heap_inv_but (boOrd now bo) (meta_key pod) (podBackoffQ q)
  else heap_inv (boOrd now bo) (podBackoffQ q).
Proof.
  intros Hi Hv Ht.
  assert (∀ k a, contents (podBackoffQ q) !! k = Some a → k ≠ meta_key pod →
    boTime bo (pi_pod a) = boTime (podBackoff q) (pi_pod a)) as Hsame.
  { intros k a [-> Ha]%(inv_backoff _ _ _ Hi) Hne. apply Ht; [|done|].
    - by eapply inv_ok.
    - intros ?%podkey_id; congruence. }
  destruct (contents (podBackoffQ q) !! meta_key pod) as [oi|] eqn:E.
  - apply (heap_inv_but_ext (boOrd now (podBackoff q))).
    + intros k1 k2 a b Ha Hb Hk1 Hk2. unfold boOrd. by rewrite (Hsame k1 a), (Hsame k2 b).
    + apply heap_inv_but_intro; [apply boOrd_orders|apply Hi|by eexists].
  - apply (heap_inv_ext (boOrd now (podBackoff q))); [|apply Hi].
    intros k1 k2 a b Ha Hb. unfold boOrd. rewrite (Hsame k1 a), (Hsame k2 b); congruence.
Qed.

Lemma Delete_spec now q m pod :
  pq_inv now q m → valid_pod pod →
  ∃ q', PriorityQueue_Delete lessFunc q pod = Some (q', None) ∧
    pq_inv now q' (delete (pod_id pod) m) ∧ keeps_order q q' ∧
    misc q' = (nominatedPodMap_delete (pq_nominated q) pod, schedulingCycle q, moveRequestCycle q,
               closed q, broadcasts q).
Proof.
  intros Hi Hv. unfold PriorityQueue_Delete. set (q1 := set_nominated q _).
  pose proof (pq_inv_lookup_active now q m pod Hi Hv) as Ea.
  destruct (contents (activeQ q) !! meta_key pod) as [oi|] eqn:E.
  - destruct (Heap_Delete_ok podInfoKeyFunc lessFunc (activeQ q1) (newPodInfoNoTimestamp pod) _
      (inv_awf _ _ _ Hi) (meta_key_ok _)) as (h & -> & Hw & Hc & Ho); [by eexists|]. simpl in *.
    eexists. split_and!; [done| | |done].
    + pose proof (pq_inv_lookup_backoff now q m pod Hi Hv) as Eb.
      pose proof (pq_inv_lookup_unsched now q m pod Hi Hv) as Eu.
      destruct (m !! pod_id pod) as [[[] ?]|]; simplify_eq/=.
      destruct Hi. split; simpl; rewrite ?Hc; try done; try slot.
      * rewrite <-(delete_id _ _ Eb). slot.
      * rewrite <-(delete_id _ _ Eu). slot.
    + intros ord Hord Hh. apply Ho; [done|]. apply heap_inv_but_intro; [apply Hord|done|by eexists].
  - rewrite (Heap_Delete_absent podInfoKeyFunc lessFunc (activeQ q1) (newPodInfoNoTimestamp pod) _
      (meta_key_ok _) E). simpl.
    destruct (clearPodBackoff_spec (set_activeQ q1 (activeQ q)) pod) as (bo & -> & Hbo & Ht);
      [apply Hi|]. simpl in *.
    set (q2 := set_podBackoff _ bo).
    destruct (podBackoffQ_Delete_spec now q2 (newPodInfoNoTimestamp pod)) as (h & e & -> & Ho & Hc);
      [eapply heap_inv_wf, Hi|by apply (clear_then_delete now q m pod bo Hi Hv)|].
    simpl in *. eexists. split_and!; [done| |by apply keeps_order_refl|done].
    destruct Hi. split; simpl; rewrite ?Hc; try done; try slot.
    rewrite <-(delete_id _ _ E). slot.
Qed.

(** ** Moving pods out of [unschedulableQ] *)

(** Where a pod goes that leaves [unschedulableQ]. *)
Definition dest now (bo : PodBackoff) pi : place :=
  if now <? boTime bo (pi_pod pi) then Backoff else Active.

Lemma requeue_spec now q m pi :
  pq_inv now q m → m !! pod_id (pi_pod pi) = Some (Unsched, pi) →
  ∃ q', requeue lessFunc now q pi = Some q' ∧
    pq_inv now (set_unschedulableQ q' (UnschedulablePodsMap_delete (unschedulableQ q') (pi_pod pi)))
      (<[pod_id (pi_pod pi) := (dest now (podBackoff q) pi, pi)]> m) ∧
    keeps_order q q' ∧ misc q' = misc q ∧ podBackoff q' = podBackoff q ∧
    unschedulableQ q' = unschedulableQ q.
Proof.
  intros Hi E. pose proof (inv_ok _ _ _ Hi _ _ _ E) as [_ Hv]. unfold requeue, dest.
  rewrite isPodBackingOff_boTime by apply Hi.
  assert (contents (activeQ q) !! meta_key (pi_pod pi) = None ∧
          contents (podBackoffQ q) !! meta_key (pi_pod pi) = None) as [Ea Eb].
  { rewrite (pq_inv_lookup_active now q m), (pq_inv_lookup_backoff now q m) by done. by rewrite E. }
  destruct (now <? boTime (podBackoff q) (pi_pod pi)).
  - destruct (podBackoffQ_Add_spec now q pi) as (h & -> & Ho & Hc); [apply Hi|]. simpl.
    eexists. split_and!; [done| |by apply keeps_order_refl|done|done|done].
    apply (pq_inv_place now q _ m Backoff pi Hi); unfold put; simpl; try done; [apply Hi|].
    by rewrite delete_id.
  - destruct (activeQ_Add_spec q pi (inv_awf _ _ _ Hi)) as (h & -> & Hw & Hc & Ho). simpl.
    eexists. split_and!; [done| |done|done|done|done].
    apply (pq_inv_place now q _ m Active pi Hi); unfold put; simpl; try done; [apply Hi|].
    by rewrite delete_id.
Qed.

(** The pods of [l] one after the other. *)
Definition move_list (d : podInfo → place) (l : list podInfo) m : podmap :=
  foldl (λ m pi, <[pod_id (pi_pod pi) := (d pi, pi)]> m) m l.

Lemma movePods_loop_spec now q m l :
  pq_inv now q m → NoDup ((λ pi, pod_id (pi_pod pi)) <$> l) →
  (∀ pi, pi ∈ l → m !! pod_id (pi_pod pi) = Some (Unsched, pi)) →
  ∃ q', movePods_loop lessFunc now q l = Some q' ∧
    pq_inv now q' (move_list (dest now (podBackoff q)) l m) ∧
    keeps_order q q' ∧ misc q' = misc q ∧ podBackoff q' = podBackoff q.
Proof.
  revert q m. induction l as [|pi l IH]; intros q m Hi Hnd Hl; simpl.
  { exists q. split_and!; try done. by apply keeps_order_refl. }
  apply NoDup_cons in Hnd as [Hni Hnd].
  destruct (requeue_spec now q m pi Hi) as (q1 & -> & Hi1 & Ho1 & Hm1 & Hb1 & _); [by apply Hl; left|].
  simpl. set (q2 := set_unschedulableQ q1 _) in *.
  destruct (IH q2 _ Hi1 Hnd) as (q' & -> & Hi' & Ho' & Hm' & Hb').
  { intros pi' Hpi'. rewrite lookup_insert_ne; [by apply Hl; right|].
    intros Eid. apply Hni. rewrite Eid. by apply (list_elem_of_fmap_2 (λ pi, pod_id (pi_pod pi))). }
  change (podBackoff q2) with (podBackoff q1) in *. rewrite Hb1 in *.
  exists q'. split_and!; [done|done| | |done].
  - by eapply keeps_order_trans, Ho'.
  - rewrite Hm'. done.
Qed.

Lemma move_list_lookup d l m id v :
  NoDup ((λ pi, pod_id (pi_pod pi)) <$> l) →
  move_list d l m !! id = Some v ↔
    (∃ pi, pi ∈ l ∧ pod_id (pi_pod pi) = id ∧ v = (d pi, pi)) ∨
    (id ∉ ((λ pi, pod_id (pi_pod pi)) <$> l)) ∧ m !! id = Some v.
Proof.
  revert m. induction l as [|pi l IH]; intros m Hnd.
  { simpl. set_solver. }
  apply NoDup_cons in Hnd as [Hni Hnd]. simpl. rewrite IH by done. rewrite lookup_insert_Some.
  setoid_rewrite elem_of_cons. split.
  - intros [(pi' & ? & ? & ?)|[Hn [[<- <-]|[Hne E]]]]; [by eauto 10|by eauto 10|].
    right. split; [|done]. intros [->|?]; [done|done].
  - intros [(pi' & [->|?] & ? & ->)|[Hn E]]; [|by eauto 10|].
    + subst. right. split; [done|]. by left.
    + right. split; [naive_solver|]. right. naive_solver.
Qed.

(** The pods of [unschedulableQ] that [sel] selects go to [d]. *)
Definition move_if (sel : podInfo → bool) (d : podInfo → place) m : podmap :=
  (λ e, if bool_decide (e.1 = Unsched) && sel e.2 then (d e.2, e.2) else e) <$> m.

Lemma move_list_move_if sel d l m :
  podmap_ok m → NoDup ((λ pi, pod_id (pi_pod pi)) <$> l) →
  (∀ pi, pi ∈ l ↔ m !! pod_id (pi_pod pi) = Some (Unsched, pi) ∧ sel pi = true) →
  move_list d l m = move_if sel d m.
Proof.
  intros Hok Hnd Hl. apply map_eq. intros id. apply option_eq. intros v.
  rewrite move_list_lookup by done. unfold move_if. rewrite lookup_fmap, fmap_Some. split.
  - intros [(pi & [E Hs]%Hl & <- & ->)|[Hn E]].
    + exists (Unsched, pi). split; [done|]. simpl. by rewrite Hs.
    + exists v. split; [done|]. destruct v as [[] pi]; simpl; [done|done|].
      destruct (sel pi) eqn:Hs; [|done]. exfalso. apply Hn.
      pose proof (Hok _ _ _ E) as [-> _].
      apply (list_elem_of_fmap_2 (λ pi, pod_id (pi_pod pi))). by apply Hl.
  - intros ([pl pi] & E & ->). pose proof (Hok _ _ _ E) as [-> _]. simpl.
    destruct (bool_decide (pl = Unsched) && sel pi) eqn:Hb.
    + apply andb_true_iff in Hb as [->%bool_decide_eq_true_1 Hs].
      left. exists pi. split_and!; [by apply Hl|done|done].
    + right. split; [|done]. intros (pi' & Eid & [E' Hs]%Hl)%list_elem_of_fmap.
      rewrite <-Eid, E in E'. simplify_eq. by rewrite Hs, bool_decide_true in Hb.
Qed.

(** The enumeration of [unschedulableQ]. *)
Lemma unsched_range now q m :
  pq_inv now q m →
  NoDup ((λ pi, pod_id (pi_pod pi)) <$> (range (unschedulableQ q)).*2) ∧
  ∀ pi, pi ∈ (range (unschedulableQ q)).*2 ↔ m !! pod_id (pi_pod pi) = Some (Unsched, pi).
Proof.
  intros Hi. apply (slot_list GetPodFullName Unsched (unschedulableQ q)); [apply Hi|].
  by rewrite range_perm.
Qed.

Lemma filter_nodup_ids (sel : podInfo → Prop) `{!∀ pi, Decision (sel pi)} (l : list podInfo) :
  NoDup ((λ pi, pod_id (pi_pod pi)) <$> l) → NoDup ((λ pi, pod_id (pi_pod pi)) <$> filter sel l).
Proof.
  induction l as [|pi l IH]; [done|]. simpl. intros [Hn Hnd]%NoDup_cons.
  rewrite filter_cons. case_decide; [|by apply IH]. simpl. apply NoDup_cons. split; [|by apply IH].
  intros (pi' & E & [_ Hin]%list_elem_of_filter)%list_elem_of_fmap. apply Hn. rewrite E.
  by apply (list_elem_of_fmap_2 (λ pi, pod_id (pi_pod pi))).
Qed.

(** [movePodsToActiveQueue] on the pods that [sel] selects. *)
Lemma movePods_spec now q m (sel : podInfo → bool) :
  pq_inv now q m →
  ∃ q', movePodsToActiveQueue lessFunc now q (filter sel (range (unschedulableQ q)).*2) = Some q' ∧
    pq_inv now q' (move_if sel (dest now (podBackoff q)) m) ∧ keeps_order q q' ∧
    podBackoff q' = podBackoff q ∧
    misc q' = (pq_nominated q, schedulingCycle q, schedulingCycle q, closed q, S (broadcasts q)).
Proof.
  intros Hi. destruct (unsched_range now q m Hi) as [Hnd Hr]. unfold movePodsToActiveQueue.
  destruct (movePods_loop_spec now q m (filter sel (range (unschedulableQ q)).*2) Hi)
    as (q' & -> & Hi' & Ho' & Hm' & Hb').
  { by apply filter_nodup_ids. }
  { intros pi [_ Hpi]%list_elem_of_filter. by apply Hr. }
  simpl. eexists. split_and!; [done| |done|done|].
  - rewrite (move_list_move_if sel) in Hi'; [by eapply pq_inv_frame|apply Hi|by apply filter_nodup_ids|].
    intros pi. rewrite list_elem_of_filter, Hr, Is_true_true. naive_solver.
  - unfold misc in *. simpl. congruence.
Qed.

Lemma misc_inv q q' : misc q' = misc q →
  pq_nominated q' = pq_nominated q ∧ schedulingCycle q' = schedulingCycle q ∧
  moveRequestCycle q' = moveRequestCycle q ∧ closed q' = closed q ∧ broadcasts q' = broadcasts q.
Proof. unfold misc. intros E. split_and!; congruence. Qed.

Lemma requeue_set_unsched now q u pi :
  requeue lessFunc now (set_unschedulableQ q u) pi =
    (λ q', set_unschedulableQ q' u) <$> requeue lessFunc now q pi.
Proof.
  unfold requeue, podBackoffQ_Add, activeQ_Add. change (isPodBackingOff now (set_unschedulableQ q u) (pi_pod pi))
    with (isPodBackingOff now q (pi_pod pi)). simpl.
  case_match; [by destruct (Heap_Add _ _ (podBackoffQ q) pi)|by destruct (Heap_Add _ _ (activeQ q) pi)].
Qed.

Lemma requeue_unsched now q pi q' :
  requeue lessFunc now q pi = Some q' → unschedulableQ q' = unschedulableQ q.
Proof.
  unfold requeue, podBackoffQ_Add, activeQ_Add. case_match.
  - destruct (Heap_Add _ _ (podBackoffQ q) pi); naive_solver.
  - destruct (Heap_Add _ _ (activeQ q) pi); naive_solver.
Qed.

Lemma moveAll_loop_set_unsched now q u l :
  moveAll_loop lessFunc now (set_unschedulableQ q u) l =
    (λ q', set_unschedulableQ q' u) <$> moveAll_loop lessFunc now q l.
Proof.
  revert q. induction l as [|pi l IH]; intros q; simpl; [done|].
  rewrite requeue_set_unsched. destruct (requeue lessFunc now q pi) as [q1|]; simpl; [apply IH|done].
Qed.

(** Deleting the pods one by one or all at the end is the same. *)
Lemma movePods_moveAll now q l :
  ∃ u, movePods_loop lessFunc now q l =
    (λ q', set_unschedulableQ q' u) <$> moveAll_loop lessFunc now q l.
Proof.
  revert q. induction l as [|pi l IH]; intros q; simpl.
  { exists (unschedulableQ q). by destruct q. }
  destruct (requeue lessFunc now q pi) as [q1|]; simpl; [|by exists ∅].
  set (u1 := UnschedulablePodsMap_delete _ _).
  destruct (IH (set_unschedulableQ q1 u1)) as [u ->]. exists u.
  rewrite moveAll_loop_set_unsched. by destruct (moveAll_loop lessFunc now q1 l).
Qed.

Lemma move_all_unsched_empty now q m d :
  pq_inv now q (move_if (λ _, true) d m) → (∀ pi, d pi ≠ Unsched) → unschedulableQ q = ∅.
Proof.
  intros Hi Hd. apply map_empty. intros k. destruct (unschedulableQ q !! k) as [pi|] eqn:E; [|done].
  apply (inv_unsched _ _ _ Hi) in E as [_ E]. unfold move_if in E.
  rewrite lookup_fmap, fmap_Some in E. destruct E as ([pl pi'] & _ & E). simpl in E.
  rewrite andb_true_r in E. case_bool_decide; simplify_eq. by destruct (Hd pi').
Qed.

Lemma dest_not_unsched now bo pi : dest now bo pi ≠ Unsched.
Proof. unfold dest. by case_match. Qed.

Lemma filter_true {A} (l : list A) : filter (λ _, true) l = l.
Proof. induction l as [|x l IH]; [done|]. rewrite filter_cons, IH. by case_decide. Qed.

Lemma MoveAll_spec now q m :
  pq_inv now q m →
  ∃ q', PriorityQueue_MoveAllToActiveQueue lessFunc now q = Some q' ∧
    pq_inv now q' (move_if (λ _, true) (dest now (podBackoff q)) m) ∧ keeps_order q q' ∧
    podBackoff q' = podBackoff q ∧
    misc q' = (pq_nominated q, schedulingCycle q, schedulingCycle q, closed q, S (broadcasts q)).
Proof.
  intros Hi. unfold PriorityQueue_MoveAllToActiveQueue.
  destruct (movePods_spec now q m (λ _, true) Hi) as (q' & Em & Hi' & Ho & Hb & Hm).
  unfold movePodsToActiveQueue in Em. rewrite filter_true in Em.
  destruct (movePods_moveAll now q (range (unschedulableQ q)).*2) as [u Eu]. rewrite Eu in Em.
  destruct (moveAll_loop lessFunc now q (range (unschedulableQ q)).*2) as [q1|]; simplify_eq/=.
  eexists. split_and!; [done| |done|done|done].
  eapply pq_inv_frame; [exact Hi'|done|done|done|]. simpl.
  by rewrite <-(move_all_unsched_empty _ _ _ _ Hi' (dest_not_unsched now _)).
Qed.

Definition leftover now pi : bool :=
  bool_decide (unschedulableQTimeInterval < time_sub now (pi_timestamp pi)).

Lemma move_if_none sel d m :
  (∀ id pi, m !! id = Some (Unsched, pi) → sel pi = false) → move_if sel d m = m.
Proof.
  intros Hn. apply map_eq. intros id. unfold move_if. rewrite lookup_fmap.
  destruct (m !! id) as [[[] pi]|] eqn:E; simpl; [done|done| |done]. by rewrite (Hn _ _ E).
Qed.

Lemma flushUnschedulableQLeftover_spec now q m :
  pq_inv now q m →
  ∃ q', flushUnschedulableQLeftover lessFunc now q = Some q' ∧
    pq_inv now q' (move_if (leftover now) (dest now (podBackoff q)) m) ∧ keeps_order q q' ∧
    podBackoff q' = podBackoff q ∧
    (q' = q ∨
     misc q' = (pq_nominated q, schedulingCycle q, schedulingCycle q, closed q, S (broadcasts q))).
Proof.
  intros Hi. unfold flushUnschedulableQLeftover.
  assert (∀ l : list podInfo, filter (λ pi, unschedulableQTimeInterval < time_sub now (pi_timestamp pi)) l
    = filter (leftover now) l) as Ef.
  { induction l as [|pi l IH]; [done|]. rewrite !filter_cons, IH.
    repeat case_decide; try done; exfalso; unfold leftover in *; rewrite bool_decide_spec in *; tauto. }
  rewrite Ef. case_bool_decide as Hl.
  - destruct (movePods_spec now q m (leftover now) Hi) as (q' & -> & ?). exists q'. naive_solver.
  - exists q. split_and!; [done| |by apply keeps_order_refl|done|by left].
    rewrite move_if_none; [done|]. intros id pi E. pose proof (inv_ok _ _ _ Hi _ _ _ E) as [-> _].
    destruct (leftover now pi) eqn:El; [|done]. exfalso.
    apply (unsched_range now q m Hi) in E.
    assert (pi ∈ filter (leftover now) (range (unschedulableQ q)).*2) as Hin.
    { apply list_elem_of_filter. by rewrite El. }
    destruct (filter _ _); [by apply elem_of_nil in Hin|simpl in Hl; lia].
Qed.

(** The label selectors of the required affinity terms of a pod parse. *)
Definition terms_parse (up : Pod) : Prop :=
  ∀ a pa term, spec_Affinity (pod_Spec up) = Some a → aff_PodAffinity a = Some pa →
    term ∈ RequiredTerms pa → ∃ s, LabelSelectorAsSelector (pat_LabelSelector term) = inr s.

Lemma affinity_matches_total pod up : terms_parse up → is_Some (affinity_matches pod up).
Proof.
  intros Hp. unfold affinity_matches. destruct (spec_Affinity _) as [a|] eqn:Ea; [|done].
  destruct (aff_PodAffinity a) as [pa|] eqn:Epa; [|done]. simpl.
  pose proof (λ term, Hp a pa term Ea Epa) as Ht. clear Hp Ea Epa.
  induction (RequiredTerms pa) as [|term l IH]; simpl; [done|].
  destruct (Ht term) as [s ->]; [by left|]. unfold PodMatchesTermsNamespaceAndSelector.
  case_match; simpl; [|case_match; [done|]]; apply IH; intros; apply Ht; by right.
Qed.

Definition affine pod pi : bool := default false (affinity_matches pod (pi_pod pi)).

Lemma filter_affinity_spec pod l :
  (∀ pi, pi ∈ l → is_Some (affinity_matches pod (pi_pod pi))) →
  filter_affinity pod l = Some (filter (affine pod) l).
Proof.
  induction l as [|pi l IH]; intros Hl; simpl; [done|].
  rewrite filter_cons. destruct (Hl pi) as [b Eb]; [by left|]. rewrite Eb. simpl.
  rewrite IH by (intros; apply Hl; by right). simpl.
  assert (affine pod pi = b) as Ea by (unfold affine; by rewrite Eb).
  case_decide as Hd; rewrite Ea in Hd; by destruct b.
Qed.

Lemma AssignedPod_spec now q m pod :
  pq_inv now q m → (∀ id pi, m !! id = Some (Unsched, pi) → terms_parse (pi_pod pi)) →
  ∃ q', PriorityQueue_AssignedPodAdded lessFunc now q pod = Some q' ∧
    PriorityQueue_AssignedPodUpdated lessFunc now q pod = Some q' ∧
    pq_inv now q' (move_if (affine pod) (dest now (podBackoff q)) m) ∧ keeps_order q q' ∧
    podBackoff q' = podBackoff q ∧
    misc q' = (pq_nominated q, schedulingCycle q, schedulingCycle q, closed q, S (broadcasts q)).
Proof.
  intros Hi Ht. unfold PriorityQueue_AssignedPodAdded, PriorityQueue_AssignedPodUpdated,
    getUnschedulablePodsWithMatchingAffinityTerm.
  rewrite filter_affinity_spec.
  2:{ intros pi Hpi%(unsched_range now q m Hi). by eapply affinity_matches_total, Ht. }
  simpl. destruct (movePods_spec now q m (affine pod) Hi) as (q' & -> & ?). exists q'. naive_solver.
Qed.

(** ** The back-off queue *)

Definition ready now (bo : PodBackoff) (e : place * podInfo) : place * podInfo :=
  if bool_decide (e.1 = Backoff) && negb (now <? boTime bo (pi_pod e.2)) then (Active, e.2) else e.

Lemma ready_id now bo m :
  podmap_ok m →
  (∀ pi, m !! pod_id (pi_pod pi) = Some (Backoff, pi) → now < boTime bo (pi_pod pi)) →
  ready now bo <$> m = m.
Proof.
  intros Hok Hb. apply map_eq. intros id. rewrite lookup_fmap.
  destruct (m !! id) as [[[] pi]|] eqn:E; simpl; try done.
  unfold ready. simpl. pose proof (Hok _ _ _ E) as [-> _].
  by rewrite (proj2 (Z.ltb_lt _ _) (Hb _ E)).
Qed.

Lemma ready_moved now bo m pi :
  m !! pod_id (pi_pod pi) = Some (Backoff, pi) → boTime bo (pi_pod pi) <= now →
  ready now bo <$> <[pod_id (pi_pod pi) := (Active, pi)]> m = ready now bo <$> m.
Proof.
  intros E Ht. apply map_eq. intros id. rewrite !lookup_fmap, lookup_insert.
  case_decide as Ei; [|done]. rewrite <-Ei, E. unfold ready. simpl.
  by rewrite (proj2 (Z.ltb_ge _ _) Ht).
Qed.

(** One iteration of the loop, on a pod whose back-off has ended. *)
Lemma flush_step now q m k pi h :
  pq_inv now q m →
  contents (podBackoffQ q) !! k = Some pi → heap_inv (boOrd now (podBackoff q)) h →
  contents h = delete k (contents (podBackoffQ q)) →
  ∃ h', activeQ_Add lessFunc (set_podBackoffQ q h) pi = Some (set_activeQ (set_podBackoffQ q h) h', None) ∧
    pq_inv now (Broadcast (set_activeQ (set_podBackoffQ q h) h')) (<[pod_id (pi_pod pi) := (Active, pi)]> m) ∧
    keeps_order q (Broadcast (set_activeQ (set_podBackoffQ q h) h')).
Proof.
  intros Hi [-> E]%(inv_backoff _ _ _ Hi) Hh Hc.
  pose proof (inv_ok _ _ _ Hi _ _ _ E) as [_ Hv].
  destruct (activeQ_Add_spec (set_podBackoffQ q h) pi (inv_awf _ _ _ Hi)) as (h' & -> & Hw & Hc' & Ho).
  exists h'. split_and!; [done| |done].
  apply (pq_inv_place now q _ m Active pi Hi); unfold put; simpl; try done.
  rewrite delete_id; [done|]. pose proof (pq_inv_lookup_unsched now q m _ Hi Hv) as Eu.
  by rewrite E in Eu.
Qed.

(** What [flushBackoffQCompleted] does. *)
Definition flushed now q m q' : Prop :=
  pq_inv now q' (ready now (podBackoff q) <$> m) ∧ keeps_order q q' ∧
  podBackoff q' = podBackoff q ∧ pq_nominated q' = pq_nominated q ∧
  schedulingCycle q' = schedulingCycle q ∧ moveRequestCycle q' = moveRequestCycle q ∧
  closed q' = closed q ∧ (q' = q ∨ (broadcasts q < broadcasts q')%nat).

Lemma flushed_refl now q m :
  pq_inv now q m → (∀ pi, m !! pod_id (pi_pod pi) = Some (Backoff, pi) →
    now < boTime (podBackoff q) (pi_pod pi)) → flushed now q m q.
Proof.
  intros Hi Hb. unfold flushed. rewrite ready_id by (done || apply Hi).
  split_and!; try done; [by apply keeps_order_refl|by left].
Qed.

Lemma flush_loop_spec fuel now q m :
  pq_inv now q m → (size (contents (podBackoffQ q)) < fuel)%nat →
  ∃ q', flushBackoff_loop lessFunc fuel now q = Some q' ∧ flushed now q m q'.
Proof.
  revert q m. induction fuel as [|fuel IH]; intros q m Hi Hf; [lia|]. cbn [flushBackoff_loop].
  pose proof (inv_bord _ _ _ Hi) as Hb. pose proof (heap_inv_wf _ _ Hb) as Hw.
  pose proof (inv_now _ _ _ Hi) as Hn.
  destruct (decide (contents (podBackoffQ q) = ∅)) as [Hz|Hz].
  { rewrite (Heap_Peek_empty (podBackoffQ q)) by done. simpl. exists q.
    split; [done|]. apply flushed_refl; [done|]. intros pi E.
    assert (contents (podBackoffQ q) !! meta_key (pi_pod pi) = Some pi) as E'
      by (by apply (inv_backoff _ _ _ Hi)).
    by rewrite Hz in E'. }
  destruct (Heap_Pop_ok (podsCompareBackoffCompleted (podBackoff q)) (podBackoffQ q) Hw Hz)
    as (h & k & pi & Ep & -> & _ & Ek & Hc & Ho).
  destruct (Ho _ _ Hb) as [Hh Hl]. simpl.
  destruct (flush_step now q m k pi h Hi Ek Hh Hc) as (h' & Ea & Hi1 & Ho1).
  pose proof Ek as [_ Em]%(inv_backoff _ _ _ Hi).
  assert (boTime (podBackoff q) (pi_pod pi) <= now → ∃ q',
    flushBackoff_loop lessFunc fuel now (Broadcast (set_activeQ (set_podBackoffQ q h) h')) = Some q' ∧
    flushed now q m q') as Hmove.
  { intros Ht. assert (size (contents (podBackoffQ q)) ≠ 0%nat) by (by intros ?%map_size_empty_iff).
    assert (size (contents h) = size (contents (podBackoffQ q)) - 1)%nat as Hsz
      by (rewrite Hc, map_size_delete_Some by done; lia).
    destruct (IH _ _ Hi1) as (q' & -> & Hi' & Ho' & ? & ? & ? & ? & ? & Hs'); [simpl; lia|].
    exists q'. split; [done|]. split_and!; try done.
    - simpl in Hi'. by rewrite (ready_moved now (podBackoff q) m pi) in Hi'.
    - by eapply keeps_order_trans, Ho'.
    - right. destruct Hs' as [->|Hs']; simpl in *; lia. }
  unfold podBackoffQ_Pop. rewrite Ep. cbn [mbind option_bind fst snd]. rewrite Ea.
  cbn [mbind option_bind fst snd].
  unfold boTime in Hmove. destruct (GetBackoffTime (podBackoff q) (nsNameForPod (pi_pod pi))) as [t found] eqn:Et.
  destruct found; simpl in *.
  - unfold time_after. destruct (Z.ltb_spec now t) as [Hlt|Hge]; [|by apply Hmove].
    exists q. split; [done|]. apply flushed_refl; [done|]. intros pi' E'.
    assert (contents (podBackoffQ q) !! meta_key (pi_pod pi') = Some pi') as Ek'
      by (by apply (inv_backoff _ _ _ Hi)).
    specialize (Hl _ _ Ek'). unfold boOrd in Hl. apply Z.ltb_ge in Hl.
    assert (boTime (podBackoff q) (pi_pod pi) = t) as Et' by (unfold boTime; by rewrite Et). lia.
  - apply Hmove. rewrite GetBackoffTime_entries in Et. case_match; simplify_eq. unfold zeroTime. done.
Qed.

Lemma flushBackoffQCompleted_spec now q m :
  pq_inv now q m →
  ∃ q', flushBackoffQCompleted lessFunc now q = Some q' ∧ flushed now q m q'.
Proof.
  intros Hi. apply flush_loop_spec; [done|].
  rewrite (Heap_Len_contents _ (heap_inv_wf _ _ (inv_bord _ _ _ Hi))). lia.
Qed.

(** ** Pop *)

Lemma Pop_spec now q m :
  pq_inv now q m →
  (∃ q' pi, PriorityQueue_Pop lessFunc q = Some (q', PopPod (pi_pod pi)) ∧
    m !! pod_id (pi_pod pi) = Some (Active, pi) ∧
    pq_inv now q' (delete (pod_id (pi_pod pi)) m) ∧ keeps_order q q' ∧
    podBackoff q' = podBackoff q ∧
    misc q' = (pq_nominated q, add64 (schedulingCycle q) 1, moveRequestCycle q, closed q, broadcasts q) ∧
    (∀ ord, OrdersBy lessFunc ord → heap_inv ord (activeQ q) →
       ∀ id pi', m !! id = Some (Active, pi') → ord pi' pi = false)) ∨
  contents (activeQ q) = ∅ ∧ (∀ id pi, m !! id ≠ Some (Active, pi)) ∧
    PriorityQueue_Pop lessFunc q =
      Some (q, if closed q then PopError PriorityQueueClosedError else PopWait).
Proof.
  intros Hi. pose proof (inv_awf _ _ _ Hi) as Hw. unfold PriorityQueue_Pop.
  rewrite (Heap_Len_contents _ Hw).
  destruct (decide (contents (activeQ q) = ∅)) as [Hz|Hz].
  - right. split; [done|]. rewrite Hz, map_size_empty, bool_decide_true by done. split; [|by case_match].
    intros id pi E. pose proof (inv_ok _ _ _ Hi _ _ _ E) as [-> _].
    assert (contents (activeQ q) !! meta_key (pi_pod pi) = Some pi) as E'
      by (by apply (inv_active _ _ _ Hi)).
    by rewrite Hz in E'.
  - left. rewrite bool_decide_false by (by intros ?%map_size_empty_iff).
    destruct (Heap_Pop_ok lessFunc (activeQ q) Hw Hz) as (h & k & pi & -> & _ & Hw' & Ek & Hc & Ho).
    simpl. pose proof Ek as [-> Em]%(inv_active _ _ _ Hi).
    pose proof (inv_ok _ _ _ Hi _ _ _ Em) as [_ Hv].
    pose proof (pq_inv_lookup_backoff now q m _ Hi Hv) as Eb.
    pose proof (pq_inv_lookup_unsched now q m _ Hi Hv) as Eu. rewrite Em in Eb, Eu.
    eexists _, pi. split_and!; [done|done| | |done|done|].
    + destruct Hi. split; simpl; rewrite ?Hc; try done; try slot.
      * rewrite <-(delete_id _ _ Eb). slot.
      * rewrite <-(delete_id _ _ Eu). slot.
    + intros ord Hord Hh. by apply Ho.
    + intros ord Hord Hh id pi' E'. pose proof (inv_ok _ _ _ Hi _ _ _ E') as [-> _].
      destruct (Ho ord Hord Hh) as [_ Hl]. apply (Hl (meta_key (pi_pod pi'))).
      by apply (inv_active _ _ _ Hi).
Qed.

(** ** PendingPods *)

Lemma PendingPods_spec now q m :
  pq_inv now q m →
  NoDup (pod_id <$> PriorityQueue_PendingPods q) ∧
  ∀ p, p ∈ PriorityQueue_PendingPods q ↔ ∃ pl t, m !! pod_id p = Some (pl, MkPodInfo p t).
Proof.
  intros Hi. unfold PriorityQueue_PendingPods.
  destruct (slot_list meta_key Active _ m (Heap_List (activeQ q)) (inv_active _ _ _ Hi)
    (Heap_List_perm (activeQ q))) as [Na Ha].
  destruct (slot_list meta_key Backoff _ m (Heap_List (podBackoffQ q)) (inv_backoff _ _ _ Hi)
    (Heap_List_perm (podBackoffQ q))) as [Nb Hb].
  destruct (unsched_range now q m Hi) as [Nu Hu]. split.
  - rewrite !fmap_app, <-!(list_fmap_compose pi_pod pod_id). apply NoDup_app. split_and!; [done| |].
    + intros id (pi & -> & Hpi%Ha)%list_elem_of_fmap.
      rewrite elem_of_app, !list_elem_of_fmap.
      intros [(pi' & E & Hpi'%Hb)|(pi' & E & Hpi'%Hu)]; simpl in E; rewrite <-E in Hpi'; congruence.
    + apply NoDup_app. split_and!; [done| |done].
      intros id (pi & -> & Hpi%Hb)%list_elem_of_fmap.
      intros (pi' & E & Hpi'%Hu)%list_elem_of_fmap. simpl in E. rewrite <-E in Hpi'. congruence.
  - intros p. rewrite !elem_of_app, !list_elem_of_fmap. split.
    + intros [([p' t] & -> & ?%Ha)|[([p' t] & -> & ?%Hb)|([p' t] & -> & ?%Hu)]]; eauto.
    + intros ([] & t & E); [left|right; left|right; right];
        exists (MkPodInfo p t); (split; [done|]);
        first [by apply Ha|by apply Hb|by apply Hu].
Qed.

(** ** All operations *)

Inductive pq_op :=
  | QAdd (pod : Pod) | QAddIfNotPresent (pod : Pod) | QAddUnschedulable (pod : Pod) (cycle : Z)
  | QUpdate (old new : Pod) | QDelete (pod : Pod)
  | QMoveAll | QAssignedAdded (pod : Pod) | QAssignedUpdated (pod : Pod)
  | QFlushBackoff | QFlushUnschedulable
  | QNominate (pod : Pod) (node : string) | QUnnominate (pod : Pod) | QClose.

Definition no_error (r : comp PriorityQueue) : comp (PriorityQueue * option error) :=
  q ← r; Some (q, None).

Definition pq_exec (now : Time) q (op : pq_op) : comp (PriorityQueue * option error) :=
  match op with
  | QAdd pod => PriorityQueue_Add lessFunc now q pod
  | QAddIfNotPresent pod => PriorityQueue_AddIfNotPresent lessFunc now q pod
  | QAddUnschedulable pod c => PriorityQueue_AddUnschedulableIfNotPresent now q pod c
  | QUpdate old new => PriorityQueue_Update lessFunc now q (Some old) new
  | QDelete pod => PriorityQueue_Delete lessFunc q pod
  | QMoveAll => no_error (PriorityQueue_MoveAllToActiveQueue lessFunc now q)
  | QAssignedAdded pod => no_error (PriorityQueue_AssignedPodAdded lessFunc now q pod)
  | QAssignedUpdated pod => no_error (PriorityQueue_AssignedPodUpdated lessFunc now q pod)
  | QFlushBackoff => no_error (flushBackoffQCompleted lessFunc now q)
  | QFlushUnschedulable => no_error (flushUnschedulableQLeftover lessFunc now q)
  | QNominate pod node => Some (PriorityQueue_UpdateNominatedPodForNode q pod node, None)
  | QUnnominate pod => Some (PriorityQueue_DeleteNominatedPodIfExists q pod, None)
  | QClose => Some (PriorityQueue_Close q, None)
  end.

(** What the callers promise: pods have names the API server accepts, their
    affinity selectors parse, and an update keeps the name of the pod. *)
Definition pod_ok p : Prop := valid_pod p ∧ terms_parse p.
Definition op_ok (op : pq_op) : Prop :=
  match op with
  | QAdd p | QAddIfNotPresent p | QAddUnschedulable p _ | QDelete p => pod_ok p
  | QUpdate old new => pod_ok old ∧ pod_ok new ∧ pod_id old = pod_id new
  | _ => True
  end.

(** The effect on the abstract map, given the back-off table and the cycle of
    the last move request. *)
Definition pq_after (now : Time) (bo : PodBackoff) (mrc : Z) m (op : pq_op) : podmap :=
  match op with
  | QAdd p => <[pod_id p := (Active, MkPodInfo p now)]> m
  | QAddIfNotPresent p =>
      if m !! pod_id p is Some _ then m else <[pod_id p := (Active, MkPodInfo p now)]> m
  | QAddUnschedulable p c =>
      if m !! pod_id p is Some _ then m
      else <[pod_id p := (if c <=? mrc then Backoff else Unsched, MkPodInfo p now)]> m
  | QUpdate old new => <[pod_id new := update_place now m old new]> m
  | QDelete p => delete (pod_id p) m
  | QMoveAll => move_if (λ _, true) (dest now bo) m
  | QAssignedAdded p | QAssignedUpdated p => move_if (affine p) (dest now bo) m
  | QFlushUnschedulable => move_if (leftover now) (dest now bo) m
  | QFlushBackoff => ready now bo <$> m
  | QNominate _ _ | QUnnominate _ | QClose => m
  end.

(** The operations that are move requests. *)
Definition is_move (op : pq_op) : bool :=
  match op with QMoveAll | QAssignedAdded _ | QAssignedUpdated _ => true | _ => false end.

(** [QFlushUnschedulable] is one when it finds a pod. *)
Definition may_move (op : pq_op) : bool :=
  match op with QFlushUnschedulable => true | _ => is_move op end.

Definition no_active m : Prop := ∀ id pi, m !! id ≠ Some (Active, pi).
Definition all_parse m : Prop := ∀ id pl pi, m !! id = Some (pl, pi) → terms_parse (pi_pod pi).

(** How an operation moves the counters and the condition variable. *)
Record counters_ok (op : pq_op) q m q' m' : Prop := {
  cnt_cycle : schedulingCycle q' = schedulingCycle q;
  cnt_move : may_move op = true ∧ moveRequestCycle q' = schedulingCycle q ∨
             is_move op = false ∧ moveRequestCycle q' = moveRequestCycle q;
  cnt_wake : (broadcasts q < broadcasts q')%nat ∨
             broadcasts q' = broadcasts q ∧ closed q' = closed q ∧ (no_active m → no_active m');
  cnt_closed : op = QClose ∨ closed q' = closed q
}.

Lemma no_active_insert m id pl pi : pl ≠ Active → no_active m → no_active (<[id := (pl, pi)]> m).
Proof. intros Hp Hn id' pi' [[_ ?]|[_ E]]%lookup_insert_Some; [congruence|by eapply Hn]. Qed.
Lemma no_active_delete m id : no_active m → no_active (delete id m).
Proof. intros Hn id' pi' [_ E]%lookup_delete_Some. by eapply Hn. Qed.

Lemma no_active_inv now q m m' :
  pq_inv now q m → pq_inv now q m' → no_active m → no_active m'.
Proof.
  intros Hi Hi' Hn id pi E. pose proof (inv_ok _ _ _ Hi' _ _ _ E) as [-> _].
  apply (Hn (pod_id (pi_pod pi)) pi). apply (inv_active _ _ _ Hi (meta_key (pi_pod pi))).
  by apply (inv_active _ _ _ Hi').
Qed.

Lemma misc_counters op q m q' m' npm sc mrc cl br :
  misc q' = (npm, sc, mrc, cl, br) → sc = schedulingCycle q →
  (may_move op = true ∧ mrc = schedulingCycle q ∨ is_move op = false ∧ mrc = moveRequestCycle q) →
  ((broadcasts q < br)%nat ∨ br = broadcasts q ∧ cl = closed q ∧ (no_active m → no_active m')) →
  cl = closed q → counters_ok op q m q' m'.
Proof.
  unfold misc. intros E Hsc Hm Hw Hc. injection E as _ E1 E2 E3 E4. rewrite <-E2 in Hm. rewrite <-E3, <-E4 in Hw.
  split; [congruence|done|done|right; congruence].
Qed.

Lemma pq_exec_spec now q m op :
  pq_inv now q m → all_parse m → op_ok op →
  ∃ q' e, pq_exec now q op = Some (q', e) ∧
    pq_inv now q' (pq_after now (podBackoff q) (moveRequestCycle q) m op) ∧ keeps_order q q' ∧
    counters_ok op q m q' (pq_after now (podBackoff q) (moveRequestCycle q) m op).
Proof.
  intros Hi Hp Hop. destruct op as [p|p|p c|old new|p| |p|p| | |p n|p|]; simpl in *.
  - destruct (Add_spec now q m p Hi) as (q' & -> & ? & ? & Hm); [apply Hop|].
    eexists _, _. split_and!; [done..|]. eapply misc_counters; [done|done|auto|auto|done].
  - destruct (AddIfNotPresent_spec now q m p Hi) as (q' & -> & ? & Hm); [apply Hop|].
    eexists _, _. destruct (m !! pod_id p).
    + subst. split_and!; [done..|]. by split; auto.
    + destruct Hm as [? Hm]. split_and!; [done..|]. eapply misc_counters; [done|done|auto|auto|done].
  - destruct (AddUnschedulableIfNotPresent_spec now q m p c Hi) as (q' & e & -> & ? & Hm); [apply Hop|].
    eexists _, _. destruct (m !! pod_id p).
    + destruct Hm as [-> _]. split_and!; [done..|]. by split; auto.
    + destruct Hm as (-> & _ & ? & Hm). split_and!; [done..|].
      eapply misc_counters; [done|done|auto| |done]. right. split_and!; [done..|].
      apply no_active_insert. by case_match.
  - destruct Hop as ([? _] & [? _] & ?).
    destruct (Update_spec now q m old new Hi) as (q' & -> & ? & ? & Hm); [done..|].
    eexists _, _. split_and!; [done..|]. eapply misc_counters; [done|done|auto| |done].
    destruct (update_wakes m old new) eqn:Ew; [auto|]. right. split_and!; [done..|].
    unfold update_wakes, update_place in *. intros Hn.
    destruct (m !! pod_id new) as [[[] oi]|] eqn:E; try done; [by destruct (Hn _ _ E)|].
    rewrite Ew. by apply no_active_insert.
  - destruct (Delete_spec now q m p Hi) as (q' & -> & ? & ? & Hm); [apply Hop|].
    eexists _, _. split_and!; [done..|]. eapply misc_counters; [done|done|auto| |done].
    right. split_and!; [done..|]. by apply no_active_delete.
  - destruct (MoveAll_spec now q m Hi) as (q' & -> & ? & ? & _ & Hm). simpl.
    eexists _, _. split_and!; [done..|]. eapply misc_counters; [done|done|auto|auto|done].
  - destruct (AssignedPod_spec now q m p Hi) as (q' & -> & _ & ? & ? & _ & Hm); [naive_solver|]. simpl.
    eexists _, _. split_and!; [done..|]. eapply misc_counters; [done|done|auto|auto|done].
  - destruct (AssignedPod_spec now q m p Hi) as (q' & _ & -> & ? & ? & _ & Hm); [naive_solver|]. simpl.
    eexists _, _. split_and!; [done..|]. eapply misc_counters; [done|done|auto|auto|done].
  - destruct (flushBackoffQCompleted_spec now q m Hi) as (q' & -> & Hf & ? & _ & _ & ? & ? & ? & Hb). simpl.
    eexists _, _. split_and!; [done..|]. split; [done|by right| |by right].
    destruct Hb as [->|?]; [right|by left]. split_and!; [done..|].
    by eapply no_active_inv.
  - destruct (flushUnschedulableQLeftover_spec now q m Hi) as (q' & -> & ? & ? & _ & Hm). simpl.
    eexists _, _. split_and!; [done..|]. destruct Hm as [->|Hm].
    + split; [done|by right| |by right]. right. split_and!; [done..|]. by eapply no_active_inv.
    + eapply misc_counters; [done|done|auto|auto|done].
  - eexists _, _. split_and!; [done|by eapply pq_inv_frame|by apply keeps_order_refl|].
    by split; auto.
  - eexists _, _. split_and!; [done|by eapply pq_inv_frame|by apply keeps_order_refl|].
    by split; auto.
  - eexists _, _. split_and!; [done|by eapply pq_inv_frame|by apply keeps_order_refl|].
    split; simpl; auto.
Qed.

(** ** Executions

    [pq_trace now q ops now' q']: the queue [q] at time [now] becomes [q'] at
    time [now'] by the operations [ops], by pops, and by the passing of time.
    The scheduling cycle is a 64-bit counter; an execution stays below its
    overflow. *)
Inductive pq_trace (now : Time) q : list pq_op → Time → PriorityQueue → Prop :=
  | trace_refl : pq_trace now q [] now q
  | trace_tick ops now1 q1 now2 :
      pq_trace now q ops now1 q1 → now1 <= now2 → pq_trace now q ops now2 q1
  | trace_op ops now1 q1 op q2 e :
      pq_trace now q ops now1 q1 → op_ok op → pq_exec now1 q1 op = Some (q2, e) →
      pq_trace now q (ops ++ [op]) now1 q2
  | trace_pop ops now1 q1 q2 r :
      pq_trace now q ops now1 q1 → schedulingCycle q1 < MaxInt64 →
      PriorityQueue_Pop lessFunc q1 = Some (q2, r) → pq_trace now q ops now1 q2.

Lemma all_parse_insert m id pl pi :
  all_parse m → terms_parse (pi_pod pi) → all_parse (<[id := (pl, pi)]> m).
Proof. intros Hm Hp id' pl' pi' [[_ ?]|[_ E]]%lookup_insert_Some; [by simplify_eq|by eapply Hm]. Qed.

Lemma all_parse_after now bo mrc m op :
  all_parse m → op_ok op → all_parse (pq_after now bo mrc m op).
Proof.
  assert (∀ sel d, all_parse m → all_parse (move_if sel d m)) as Hmove.
  { intros sel d Hm id pl pi. unfold move_if. rewrite lookup_fmap, fmap_Some.
    intros ([pl' pi'] & E & E'). simpl in E'. case_match; simplify_eq/=; by eapply Hm. }
  intros Hm Hop. destruct op; simpl in *; auto.
  - apply all_parse_insert; [done|apply Hop].
  - case_match; [done|]. apply all_parse_insert; [done|apply Hop].
  - case_match; [done|]. apply all_parse_insert; [done|apply Hop].
  - destruct (update_place now m old new) as [pl pi] eqn:E. apply all_parse_insert; [done|].
    unfold update_place in E. destruct Hop as (_ & [_ ?] & _). by cases.
  - intros id pl pi [_ E]%lookup_delete_Some. by eapply Hm.
  - intros id pl pi. rewrite lookup_fmap, fmap_Some. intros ([pl' pi'] & E & E').
    unfold ready in E'. simpl in E'. case_match; simplify_eq/=; by eapply Hm.
Qed.

(** What holds in every state of an execution. *)
Record pq_good (now : Time) q m : Prop := {
  good_inv : pq_inv now q m;
  good_parse : all_parse m;
  good_cycle : moveRequestCycle q <= schedulingCycle q;
  good_int : -1 <= moveRequestCycle q ∧ 0 <= schedulingCycle q <= MaxInt64
}.

Lemma pq_exec_good now q m op :
  pq_good now q m → op_ok op →
  ∃ q' e m', pq_exec now q op = Some (q', e) ∧ pq_good now q' m' ∧
    m' = pq_after now (podBackoff q) (moveRequestCycle q) m op ∧
    keeps_order q q' ∧ counters_ok op q m q' m'.
Proof.
  intros [Hi Hp Hc Hn] Hop. destruct (pq_exec_spec now q m op Hi Hp Hop) as (q' & e & -> & Hi' & Ho & Hcn).
  eexists q', e, _. split_and!; [done| |done|done|done].
  destruct Hcn as [E1 E2 _]. split; [done|by apply all_parse_after|destruct E2; lia|destruct E2; lia].
Qed.

Lemma Pop_cycle_good now q m :
  pq_good now q m → schedulingCycle q < MaxInt64 →
  add64 (schedulingCycle q) 1 = schedulingCycle q + 1.
Proof.
  intros [_ _ _ [_ Hn]] Hlt. unfold add64. apply wrap64_id. unfold int64.
  unfold MinInt64, MaxInt64 in *. lia.
Qed.

Lemma Pop_good now q m q' r :
  pq_good now q m → schedulingCycle q < MaxInt64 → PriorityQueue_Pop lessFunc q = Some (q', r) →
  ∃ m', pq_good now q' m' ∧ keeps_order q q' ∧ schedulingCycle q <= schedulingCycle q' ∧
    moveRequestCycle q' = moveRequestCycle q ∧ closed q' = closed q ∧
    broadcasts q' = broadcasts q ∧ (no_active m → q' = q).
Proof.
  intros Hg Hlt E. pose proof (Pop_cycle_good _ _ _ Hg Hlt) as Hc. destruct Hg as [Hi Hp Hcy Hn].
  destruct (Pop_spec now q m Hi) as
    [(q1 & pi & Ep & Em & Hi' & Ho & _ & Hm & _)|(_ & _ & Ep)]; simplify_eq.
  - unfold misc in Hm. simplify_eq. rewrite Hc in *.
    exists (delete (pod_id (pi_pod pi)) m). split_and!; try done; try lia.
    + split; [done| |lia|lia]. intros id pl pi' [_ E']%lookup_delete_Some. by eapply Hp.
    + intros Hna. by destruct (Hna _ _ Em).
  - exists m. split_and!; try done. by apply keeps_order_refl.
Qed.

Lemma pq_trace_good now q ops now' q' m :
  pq_trace now q ops now' q' → pq_good now q m →
  ∃ m', pq_good now' q' m' ∧ keeps_order q q' ∧ now <= now' ∧
    schedulingCycle q <= schedulingCycle q' ∧ moveRequestCycle q <= moveRequestCycle q' ∧
    (existsb is_move ops = true → schedulingCycle q <= moveRequestCycle q') ∧
    (existsb may_move ops = false → moveRequestCycle q' = moveRequestCycle q).
Proof.
  intros Ht Hg. induction Ht as
    [|ops now1 q1 now2 Ht IH Hle|ops now1 q1 op q2 e Ht IH Hop E|ops now1 q1 q2 r Ht IH Hlt E].
  - exists m. split_and!; try done. by apply keeps_order_refl.
  - destruct IH as (m' & [] & ? & ? & ?). exists m'. split_and!; try naive_solver lia.
    split; try done. by eapply pq_inv_mono.
  - destruct IH as (m1 & Hg1 & Ho1 & Hle & Hsc & Hmr & Hmv & Hno).
    destruct (pq_exec_good now1 q1 m1 op Hg1 Hop) as (q2' & e' & m2 & E' & Hg2 & _ & Ho2 & [C1 C2 _]).
    simplify_eq. exists m2. rewrite C1 in *. destruct Hg1.
    split_and!; try done; [by eapply keeps_order_trans|destruct C2; lia| |];
      rewrite existsb_app; simpl; rewrite orb_false_r.
    + intros [Hm|Hm]%orb_true_iff; [specialize (Hmv Hm); destruct C2; lia|].
      destruct C2 as [[_ ?]|[? ?]]; [lia|congruence].
    + intros [Hm1 Hm2]%orb_false_iff. destruct C2 as [[? _]|[_ ?]]; [congruence|].
      rewrite <-(Hno Hm1). done.
  - destruct IH as (m1 & Hg1 & Ho1 & Hle & Hsc & Hmr & Hmv & Hno).
    destruct (Pop_good now1 q1 m1 q2 r Hg1 Hlt E) as (m2 & Hg2 & Ho2 & ? & -> & _).
    exists m2. split_and!; try done; [by eapply keeps_order_trans|lia].
Qed.

Lemma New_good now : 0 <= now → pq_good now NewPriorityQueueWithLessFuncAndClock ∅.
Proof.
  intros Hn. split; [split|..]; simpl; try done.
  - apply CreatePodBackoff_inv; vm_compute; split; congruence || done.
  - apply NewHeap_wf.
  - apply NewHeap_inv.
  - intros k pi. rewrite NewHeap_contents. naive_solver.
  - intros k pi. rewrite NewHeap_contents. naive_solver.
  - intros k pi. naive_solver.
Qed.

Definition pq_reach (now : Time) q : Prop :=
  ∃ now0 ops, 0 <= now0 ∧ pq_trace now0 NewPriorityQueueWithLessFuncAndClock ops now q.

Lemma pq_reach_good now q :
  pq_reach now q →
  ∃ m, pq_good now q m ∧ (∀ ord, OrdersBy lessFunc ord → heap_inv ord (activeQ q)).
Proof.
  intros (now0 & ops & Hn & Ht). destruct (pq_trace_good _ _ _ _ _ ∅ Ht) as (m & Hg & Ho & _).
  - by apply New_good.
  - exists m. split; [done|]. intros ord Hord. apply Ho; [done|]. apply NewHeap_inv.
Qed.

(** ** The properties *)

(** C3: the queue refines the abstract map.  Every reachable queue represents
    some map from pods to places, no operation panics on it, and every operation
    changes the represented map as [pq_after] says, leaving every order that the
    comparison of the active queue keeps intact. *)
Theorem pq_refines now q :
  pq_reach now q →
  ∃ m, pq_inv now q m ∧
    ∀ op, op_ok op →
      ∃ q' e, pq_exec now q op = Some (q', e) ∧
        pq_inv now q' (pq_after now (podBackoff q) (moveRequestCycle q) m op) ∧ keeps_order q q'.
Proof.
  intros Hr. destruct (pq_reach_good now q Hr) as (m & Hg & _). exists m. split; [apply Hg|].
  intros op Hop. destruct (pq_exec_good now q m op Hg Hop) as (q' & e & m' & ? & Hg' & -> & ? & _).
  exists q', e. split_and!; [done|apply Hg'|done].
Qed.

(** In every reachable queue a pod is in at most one of [activeQ],
    [podBackoffQ] and [unschedulableQ], and [PendingPods] lists every pending
    pod once. *)
Theorem pq_one_place now q p :
  pq_reach now q → valid_pod p →
  let a := is_Some (contents (activeQ q) !! meta_key p) in
  let b := is_Some (contents (podBackoffQ q) !! meta_key p) in
  let u := is_Some (unschedulableQ q !! GetPodFullName p) in
  ¬ (a ∧ b) ∧ ¬ (a ∧ u) ∧ ¬ (b ∧ u) ∧
  NoDup (pod_id <$> PriorityQueue_PendingPods q) ∧
  (a ∨ b ∨ u ↔ pod_id p ∈ pod_id <$> PriorityQueue_PendingPods q).
Proof.
  intros Hr Hv a b u. destruct (pq_reach_good now q Hr) as (m & [Hi _ _ _] & _).
  destruct (PendingPods_spec now q m Hi) as [Hnd Hin].
  pose proof (pq_inv_lookup_unsched now q m p Hi Hv) as Eu. unfold UnschedulablePodsMap_get in Eu.
  unfold a, b, u. rewrite (pq_inv_lookup_active now q m p), (pq_inv_lookup_backoff now q m p), Eu by done.
  assert (pod_id p ∈ pod_id <$> PriorityQueue_PendingPods q ↔ is_Some (m !! pod_id p)) as Hp.
  { rewrite list_elem_of_fmap. split.
    - intros (p' & -> & (pl & t & E)%Hin). by rewrite E.
    - intros [[pl [p' t]] E]. pose proof (inv_ok _ _ _ Hi _ _ _ E) as [Ei _]. simpl in Ei.
      exists p'. split; [done|]. apply Hin. rewrite <-Ei. eauto. }
  rewrite Hp. destruct (m !! pod_id p) as [[[] pi]|]; split_and!; try done;
    rewrite ?is_Some_alt; naive_solver.
Qed.

(** C37: [Pop] on a reachable queue returns a pod of the active queue that no
    other active pod precedes, takes it out of the queue and counts the
    scheduling cycle up; it waits, or reports that the queue is closed, only when
    no pod is active. *)
Theorem pq_Pop_first `{!StrictWeakOrder lessFunc} now q :
  pq_reach now q →
  match PriorityQueue_Pop lessFunc q with
  | Some (q', PopPod pod) =>
      ∃ pi, pod = pi_pod pi ∧ contents (activeQ q) !! meta_key pod = Some pi ∧
        least lessFunc (contents (activeQ q)) pi ∧
        contents (activeQ q') = delete (meta_key pod) (contents (activeQ q)) ∧
        schedulingCycle q' = add64 (schedulingCycle q) 1 ∧ pod ∉ PriorityQueue_PendingPods q'
  | Some (q', r) =>
      q' = q ∧ contents (activeQ q) = ∅ ∧
      r = if closed q then PopError PriorityQueueClosedError else PopWait
  | None => False
  end.
Proof.
  intros Hr. destruct (pq_reach_good now q Hr) as (m & [Hi _ _ _] & Ho).
  specialize (Ho lessFunc _).
  destruct (Pop_spec now q m Hi) as
    [(q' & pi & -> & Em & Hi' & _ & _ & Hm & Hl)|(Hz & _ & ->)]; [|by destruct (closed q)].
  pose proof (inv_ok _ _ _ Hi _ _ _ Em) as [_ Hv].
  exists pi. split_and!; [done| | | |by unfold misc in Hm; simplify_eq|].
  - by apply (inv_active _ _ _ Hi).
  - intros k pi' [_ E]%(inv_active _ _ _ Hi). by eapply (Hl lessFunc _ Ho).
  - apply map_eq. intros k. apply option_eq. intros pi'. rewrite lookup_delete_Some.
    rewrite (inv_active _ _ _ Hi' k pi'), (inv_active _ _ _ Hi k pi'), lookup_delete_Some.
    split; [intros (-> & Hne & E)|intros (Hne & -> & E)]; split_and!; try done.
    + intros Hk. apply Hne. apply (podkey_inj (key := meta_key)); [done| |done].
      by eapply (inv_ok _ _ _ Hi).
    + intros ?%(podkey_id (key := meta_key)). done.
  - intros (pl & t & E)%(PendingPods_spec now q' _ Hi'). by rewrite lookup_delete_eq in E.
Qed.

(** C20: [flushBackoffQCompleted] moves exactly the pods whose back-off has
    ended from the back-off queue to the active queue, although the heap order
    of the back-off queue reads a table whose entries expire meanwhile. *)
Theorem pq_flush_exact now q :
  pq_reach now q →
  ∃ q', flushBackoffQCompleted lessFunc now q = Some q' ∧
    let over := λ e : string * podInfo, boTime (podBackoff q) (pi_pod e.2) <= now in
    contents (podBackoffQ q') = filter (λ e, ¬ over e) (contents (podBackoffQ q)) ∧
    contents (activeQ q') = contents (activeQ q) ∪ filter over (contents (podBackoffQ q)) ∧
    unschedulableQ q' = unschedulableQ q.
Proof.
  intros Hr. destruct (pq_reach_good now q Hr) as (m & [Hi _ _ _] & _).
  destruct (flushBackoffQCompleted_spec now q m Hi) as (q' & -> & Hi' & _).
  exists q'. split; [done|]. cbn zeta.
  assert (∀ pl pi, (ready now (podBackoff q) <$> m) !! pod_id (pi_pod pi) = Some (pl, pi) ↔
    m !! pod_id (pi_pod pi) = Some (pl, pi) ∧
      (pl = Backoff → now < boTime (podBackoff q) (pi_pod pi)) ∨
    pl = Active ∧ m !! pod_id (pi_pod pi) = Some (Backoff, pi) ∧
      boTime (podBackoff q) (pi_pod pi) <= now) as Hready.
  { intros pl pi. rewrite lookup_fmap, fmap_Some. unfold ready. split.
    - intros ([[] pi'] & E & E'); simpl in E'; try (simplify_eq; naive_solver).
      destruct (Z.ltb_spec now (boTime (podBackoff q) (pi_pod pi'))); simplify_eq/=; naive_solver.
    - intros [[E Hb]|(-> & E & Hb)]; (eexists; split; [exact E|]); simpl.
      + destruct pl; simpl; try done. by rewrite (proj2 (Z.ltb_lt _ _) (Hb eq_refl)).
      + by rewrite (proj2 (Z.ltb_ge _ _) Hb). }
  split_and!; apply map_eq; intros k; apply option_eq; intros pi.
  - rewrite (inv_backoff _ _ _ Hi' k pi), Hready, map_lookup_filter_Some, (inv_backoff _ _ _ Hi k pi).
    simpl. rewrite Z.nle_gt. naive_solver.
  - rewrite lookup_union_Some.
    2:{ apply map_disjoint_spec. intros k' pi1 pi2 [-> E1]%(inv_active _ _ _ Hi) [E2 _]%map_lookup_filter_Some.
        apply (inv_backoff _ _ _ Hi) in E2 as [Ek E2].
        pose proof (inv_ok _ _ _ Hi _ _ _ E1) as [_ V1]. pose proof (inv_ok _ _ _ Hi _ _ _ E2) as [_ V2].
        apply (podkey_inj (key := meta_key) _ _ V1 V2) in Ek. congruence. }
    rewrite (inv_active _ _ _ Hi' k pi), Hready, map_lookup_filter_Some, (inv_active _ _ _ Hi k pi),
      (inv_backoff _ _ _ Hi k pi). naive_solver.
  - rewrite (inv_unsched _ _ _ Hi' k pi), Hready, (inv_unsched _ _ _ Hi k pi). naive_solver.
Qed.

(** C14: the race between a scheduling attempt and a cluster event.  A pod is
    popped, other operations run, and the pod comes back as unschedulable with
    the cycle of its pop.  If one of these operations was a move request the pod
    goes to the back-off queue and will be tried again; if none was, it goes to
    [unschedulableQ]. *)
Theorem unschedulable_routing now q0 q1 pod ops now2 q2 :
  pq_reach now q0 → schedulingCycle q0 < MaxInt64 →
  PriorityQueue_Pop lessFunc q0 = Some (q1, PopPod pod) →
  pq_trace now q1 ops now2 q2 →
  pod_id pod ∉ pod_id <$> PriorityQueue_PendingPods q2 →
  ∃ q3, PriorityQueue_AddUnschedulableIfNotPresent now2 q2 pod (schedulingCycle q1) = Some (q3, None) ∧
    (existsb is_move ops = true →
       contents (podBackoffQ q3) !! meta_key pod = Some (MkPodInfo pod now2)) ∧
    (existsb may_move ops = false →
       unschedulableQ q3 !! GetPodFullName pod = Some (MkPodInfo pod now2)).
Proof.
  intros Hr Hlt Ep Ht Hnp. destruct (pq_reach_good now q0 Hr) as (m0 & Hg0 & _).
  pose proof (Pop_cycle_good _ _ _ Hg0 Hlt) as Hc.
  destruct (Pop_good _ _ _ _ _ Hg0 Hlt Ep) as (m1 & Hg1 & _ & _ & Hmr & _).
  destruct (Pop_spec now q0 m0 (good_inv _ _ _ Hg0)) as
    [(q1' & pi & Ep' & Em & _ & _ & _ & Hm & _)|(_ & _ & Ep')];
    [|rewrite Ep' in Ep; by destruct (closed q0)].
  rewrite Ep' in Ep. simplify_eq. unfold misc in Hm. simplify_eq.
  pose proof (inv_ok _ _ _ (good_inv _ _ _ Hg0) _ _ _ Em) as [_ Hv].
  destruct (pq_trace_good _ _ _ _ _ _ Ht Hg1) as (m2 & Hg2 & _ & _ & _ & _ & Hmv & Hno).
  assert (m2 !! pod_id (pi_pod pi) = None) as Hn.
  { destruct (m2 !! pod_id (pi_pod pi)) as [[pl [p t]]|] eqn:E; [|done]. destruct Hnp.
    pose proof (inv_ok _ _ _ (good_inv _ _ _ Hg2) _ _ _ E) as [Ei _]. rewrite Ei in *.
    apply list_elem_of_fmap. exists p. split; [done|].
    apply (PendingPods_spec now2 q2 m2 (good_inv _ _ _ Hg2)). eauto. }
  destruct (AddUnschedulableIfNotPresent_spec now2 q2 m2 (pi_pod pi) (schedulingCycle q1)
    (good_inv _ _ _ Hg2) Hv) as (q3 & e & -> & _ & Hpl).
  rewrite Hn in Hpl. destruct Hpl as (-> & _ & Hi3 & _). exists q3. split_and!; [done| |].
  - intros Hm. apply (inv_backoff _ _ _ Hi3). split; [done|]. simpl.
    rewrite lookup_insert_eq. rewrite (proj2 (Z.leb_le _ _) (Hmv Hm)). done.
  - intros Hm. apply (inv_unsched _ _ _ Hi3). split; [done|]. simpl.
    rewrite lookup_insert_eq. rewrite (proj2 (Z.leb_gt _ _)); [done|].
    rewrite (Hno Hm), Hmr. pose proof (good_cycle _ _ _ Hg0). lia.
Qed.

(** ** The condition variable

    [sys now q w]: an execution of the queue with goroutines that call [Pop];
    [w] says that one of them sleeps on the condition variable.  A broadcast
    wakes all of them. *)
Inductive sys : Time → PriorityQueue → bool → Prop :=
  | sys_new now : 0 <= now → sys now NewPriorityQueueWithLessFuncAndClock false
  | sys_tick now now' q w : sys now q w → now <= now' → sys now' q w
  | sys_op now q w op q' e :
      sys now q w → op_ok op → pq_exec now q op = Some (q', e) →
      sys now q' (w && (broadcasts q' =? broadcasts q)%nat)
  | sys_pop now q w q' r :
      sys now q w → schedulingCycle q < MaxInt64 → PriorityQueue_Pop lessFunc q = Some (q', r) →
      sys now q' (w || match r with PopWait => true | _ => false end).

Lemma sys_inv now q w :
  sys now q w → ∃ m, pq_good now q m ∧ (w = true → no_active m ∧ closed q = false).
Proof.
  induction 1 as [now Hn|now now' q w _ (m & [] & Hw) Hle
    |now q w op q' e _ (m & Hg & Hw) Hop E|now q w q' r _ (m & Hg & Hw) Hlt E].
  - exists ∅. split; [by apply New_good|done].
  - exists m. split; [|done]. split; try done. by eapply pq_inv_mono.
  - destruct (pq_exec_good now q m op Hg Hop) as (q1 & e1 & m1 & E1 & Hg1 & _ & _ & [_ _ Hc]).
    simplify_eq. exists m1. split; [done|]. intros [Hwt Hb%Nat.eqb_eq]%andb_true_iff.
    destruct (Hw Hwt) as [Hna Hcl]. destruct Hc as [?|(_ & -> & Hc)]; [lia|]. auto.
  - destruct (Pop_good now q m q' r Hg Hlt E) as (m' & Hg' & _ & _ & _ & Hcl & _ & Hq).
    destruct (Pop_spec now q m (good_inv _ _ _ Hg)) as
      [(q1 & pi & Ep & Em & _)|(_ & Hna & Ep)]; simplify_eq.
    + exists m'. split; [done|]. rewrite orb_false_r. intros Hwt. destruct (Hw Hwt) as [Hna _].
      by destruct (Hna _ _ Em).
    + exists m. split; [done|]. destruct (closed q') eqn:Ec; [|done].
      rewrite orb_false_r. intros Hwt. destruct (Hw Hwt). congruence.
Qed.

(** C15: no lost wake-up.  While a goroutine sleeps in [Pop] the active queue is
    empty and the queue is open: whatever makes a pod active, or closes the
    queue, has broadcast. *)
Theorem no_lost_wakeup now q : sys now q true → contents (activeQ q) = ∅ ∧ closed q = false.
Proof.
  intros Hs. destruct (sys_inv now q true Hs) as (m & [Hi _ _ _] & [Hna Hc]%(λ f, f eq_refl)).
  split; [|done]. apply map_empty. intros k. destruct (contents (activeQ q) !! k) as [pi|] eqn:E; [|done].
  apply (inv_active _ _ _ Hi) in E as [_ E]. by destruct (Hna _ _ E).
Qed.

End ops.
End proofs.

(** ** Nominated pods *)

Section nominated.
Implicit Types (npm : nominatedPodMap) (p : Pod) (l : list Pod).

(** The two maps agree: a UID is nominated to a node if and only if the list of
    that node has a pod of that UID; no list is empty or has a UID twice. *)
Record nom_inv npm : Prop := {
  nom_node uid n : nominatedPodToNode npm !! uid = Some n ↔
    ∃ l p, nominatedPods npm !! n = Some l ∧ p ∈ l ∧ pod_UID p = uid;
  nom_list n l : nominatedPods npm !! n = Some l → l ≠ [] ∧ NoDup (pod_UID <$> l)
}.

Abbreviation without p := (filter (λ np, pod_UID np ≠ pod_UID p)).

Lemma without_id p l : (∀ np, np ∈ l → pod_UID np ≠ pod_UID p) → without p l = l.
Proof.
  induction l as [|np l IH]; intros Hl; [done|]. rewrite filter_cons.
  rewrite decide_True by (apply Hl; by left). f_equal. apply IH. intros. apply Hl. by right.
Qed.

Lemma find_index_None_without p l : find_index (same_uid p) l = None → without p l = l.
Proof.
  induction l as [|np l IH]; simpl; [done|]. unfold same_uid at 1. case_bool_decide; [done|].
  intros E%fmap_None. rewrite filter_cons, decide_True by done. f_equal. auto.
Qed.

Lemma slice_delete_without p l i :
  NoDup (pod_UID <$> l) → find_index (same_uid p) l = Some i → slice_delete i l = without p l.
Proof.
  revert i. induction l as [|np l IH]; intros i; simpl; [done|]. intros [Hn Hnd]%NoDup_cons.
  unfold same_uid at 1. case_bool_decide as Eu.
  - intros [= <-]. rewrite filter_cons, decide_False by naive_solver. symmetry. apply without_id.
    intros np' Hin E. apply Hn, list_elem_of_fmap. exists np'. split; [congruence|done].
  - intros (j & Ej & ->)%fmap_Some. rewrite filter_cons, decide_True by done.
    unfold slice_delete in *. simpl. f_equal. by apply IH.
Qed.

Lemma without_nodup p l : NoDup (pod_UID <$> l) → NoDup (pod_UID <$> without p l).
Proof.
  induction l as [|np l IH]; [done|]. simpl. intros [Hn Hnd]%NoDup_cons.
  rewrite filter_cons. case_decide; [|by apply IH]. simpl. apply NoDup_cons. split; [|by apply IH].
  intros (np' & E & [_ Hin]%list_elem_of_filter)%list_elem_of_fmap. apply Hn.
  apply list_elem_of_fmap. eauto.
Qed.

(** A list that is nil when the node has no entry. *)
Lemma nominated_delete_list npm p n :
  nom_inv npm →
  nominatedPods (nominatedPodMap_delete npm p) !! n =
    match nominatedPods npm !! n with
    | Some l => if bool_decide (without p l = []) then None else Some (without p l)
    | None => None
    end.
Proof.
  intros [Hn Hl]. unfold nominatedPodMap_delete.
  assert (∀ l, nominatedPods npm !! n = Some l → nominatedPodToNode npm !! pod_UID p ≠ Some n →
    without p l = l ∧ l ≠ []) as Hother.
  { intros l E Hne. split; [|by eapply Hl]. apply without_id. intros np Hin Eu. apply Hne, Hn. eauto. }
  destruct (nominatedPodToNode npm !! pod_UID p) as [nnn|] eqn:En; simpl.
  2:{ destruct (nominatedPods npm !! n) as [l|] eqn:E; [|done].
      destruct (Hother l) as [-> ?]; [done..|]. by rewrite bool_decide_false. }
  destruct (nominatedPods npm !! nnn) as [l|] eqn:E.
  2:{ apply Hn in En as (l & ? & ? & _). congruence. }
  simpl. destruct (find_index (same_uid p) l) as [i|] eqn:Ei.
  - rewrite (slice_delete_without p l i) by (done || by eapply Hl).
    destruct (decide (n = nnn)) as [->|Hne].
    + rewrite E. destruct (without p l); simpl; [by rewrite lookup_delete_eq|by rewrite lookup_insert_eq].
    + case_bool_decide; rewrite ?lookup_delete_ne, lookup_insert_ne by done;
        (destruct (nominatedPods npm !! n) as [l'|] eqn:E'; [|done]);
        (destruct (Hother l') as [-> ?]; [done|congruence|]); by rewrite bool_decide_false.
  - apply Hn in En as (l' & np & E' & Hin & Eu). simplify_eq.
    apply find_index_None_without in Ei. rewrite <-Ei in Hin.
    apply list_elem_of_filter in Hin as [? _]. done.
Qed.

Lemma nominated_delete_node npm p :
  nominatedPodToNode (nominatedPodMap_delete npm p) = delete (pod_UID p) (nominatedPodToNode npm).
Proof.
  unfold nominatedPodMap_delete. destruct (nominatedPodToNode npm !! pod_UID p) eqn:E; [done|].
  by rewrite delete_id.
Qed.

Lemma nominated_delete_inv npm p : nom_inv npm → nom_inv (nominatedPodMap_delete npm p).
Proof.
  intros Hi. pose proof Hi as [Hn Hl]. split.
  - intros uid n. rewrite nominated_delete_node, lookup_delete_Some, Hn.
    rewrite nominated_delete_list by done. split.
    + intros (Hne & l & np & E & Hin & Eu). rewrite E.
      assert (np ∈ without p l) as Hin' by (apply list_elem_of_filter; by subst).
      rewrite bool_decide_false by (intros Ez; rewrite Ez in Hin'; by apply elem_of_nil in Hin').
      eauto.
    + intros (l & np & E & Hin & Eu). case_match eqn:E1; [|done]. case_bool_decide; simplify_eq.
      apply list_elem_of_filter in Hin as [? ?]. eauto 10.
  - intros n l. rewrite nominated_delete_list by done. case_match eqn:E1; [|done].
    case_bool_decide; [done|]. intros [= <-]. split; [done|]. by eapply without_nodup, Hl.
Qed.

Lemma nom_inv_snoc npm p n :
  nom_inv npm → nominatedPodToNode npm !! pod_UID p = None →
  nom_inv (MkNominatedPodMap (<[n := default [] (nominatedPods npm !! n) ++ [p]]> (nominatedPods npm))
             (<[pod_UID p := n]> (nominatedPodToNode npm))).
Proof.
  intros [Hn Hl] Hu.
  assert (∀ n l np, nominatedPods npm !! n = Some l → np ∈ l → pod_UID np ≠ pod_UID p) as Hfresh.
  { intros n' l np E Hin Eu. assert (nominatedPodToNode npm !! pod_UID p = Some n'); [|congruence].
    apply Hn. eauto. }
  split; simpl.
  - intros uid n'. rewrite lookup_insert_Some. setoid_rewrite lookup_insert_Some. rewrite Hn. split.
    + intros [[<- <-]|(Hne & l & np & E & Hin & Eu)].
      { exists (default [] (nominatedPods npm !! n) ++ [p]), p. set_solver. }
      destruct (decide (n = n')) as [<-|].
      * exists (l ++ [p]), np. rewrite E. set_solver.
      * exists l, np. auto.
    + intros (l & np & [[<- <-]|[Hne E]] & Hin & Eu).
      * apply elem_of_app in Hin as [Hin|Hin%list_elem_of_singleton]; [|left; by subst].
        destruct (nominatedPods npm !! n) as [l|] eqn:E; [|by apply elem_of_nil in Hin]. simpl in Hin.
        right. split; [|by eauto]. pose proof (Hfresh _ _ _ E Hin). congruence.
      * right. split; [|by eauto]. pose proof (Hfresh _ _ _ E Hin). congruence.
  - intros n' l [[<- <-]|[_ E]]%lookup_insert_Some; [|by eapply Hl].
    split; [by destruct (default [] _)|]. rewrite fmap_app. apply NoDup_app.
    destruct (nominatedPods npm !! n) as [l|] eqn:E; simpl.
    + split_and!; [by eapply Hl| |by apply NoDup_singleton].
      intros uid (np & -> & Hin)%list_elem_of_fmap ?%list_elem_of_singleton.
      by destruct (Hfresh _ _ _ E Hin).
    + split_and!; [constructor|by intros ? ?%elem_of_nil|by apply NoDup_singleton].
Qed.

Definition nominee p (nodeName : string) : string :=
  if bool_decide (nodeName = EmptyString) then pod_NominatedNodeName p else nodeName.

Lemma nominated_add_spec npm p nodeName :
  nom_inv npm →
  nom_inv (nominatedPodMap_add npm p nodeName) ∧
  nominatedPodToNode (nominatedPodMap_add npm p nodeName) =
    (if bool_decide (nominee p nodeName = EmptyString) then delete (pod_UID p) (nominatedPodToNode npm)
     else <[pod_UID p := nominee p nodeName]> (nominatedPodToNode npm)) ∧
  ∀ n, nominatedPodMap_podsForNode (nominatedPodMap_add npm p nodeName) n =
    without p (nominatedPodMap_podsForNode npm n) ++
    (if bool_decide (n = nominee p nodeName ∧ n ≠ EmptyString) then [p] else []).
Proof.
  intros Hi. pose proof (nominated_delete_inv npm p Hi) as Hd.
  pose proof (nominated_delete_node npm p) as En.
  assert (∀ n, default [] (nominatedPods (nominatedPodMap_delete npm p) !! n) =
    without p (default [] (nominatedPods npm !! n))) as Hp.
  { intros n. rewrite nominated_delete_list by done.
    destruct (nominatedPods npm !! n) as [l|]; [|done]. by case_bool_decide. }
  unfold nominatedPodMap_add, nominatedPodMap_podsForNode. fold (nominee p nodeName).
  set (nnn := nominee p nodeName). case_bool_decide as Hz.
  { split_and!; [done|done|]. intros n. rewrite Hp, bool_decide_false by naive_solver. by rewrite app_nil_r. }
  set (d := nominatedPodMap_delete npm p) in *.
  assert (existsb (same_uid p) (default [] (nominatedPods d !! nnn)) = false) as ->.
  { rewrite Hp. apply not_true_iff_false. intros (np & Hin%list_elem_of_In & Eu)%existsb_exists.
    apply list_elem_of_filter in Hin as [? _]. unfold same_uid in Eu. bool_to_prop. done. }
  simpl. split_and!; [|by rewrite En, insert_delete_eq|].
  - apply nom_inv_snoc; [done|]. by rewrite En, lookup_delete_eq.
  - intros n. rewrite lookup_insert. case_decide as Ed.
    + subst. rewrite bool_decide_true by done. simpl. by rewrite Hp.
    + rewrite bool_decide_false by naive_solver. by rewrite Hp, app_nil_r.
Qed.

(** C38: the nominated pods stay consistent.  From the empty map, after any
    sequence of additions and deletions, a pod is nominated to at most one node;
    adding a pod moves its nomination to the given node (or the node of its
    status, or to none), deleting it removes it, and the nominations of other
    pods stay as they are, in order. *)
Theorem nominated_consistent npm p nodeName :
  rtc (λ a b, ∃ p n, b = nominatedPodMap_add a p n ∨ b = nominatedPodMap_delete a p)
    newNominatedPodMap npm →
  nom_inv npm ∧
  (∀ n, nominatedPodMap_podsForNode (nominatedPodMap_add npm p nodeName) n =
     without p (nominatedPodMap_podsForNode npm n) ++
     (if bool_decide (n = nominee p nodeName ∧ n ≠ EmptyString) then [p] else [])) ∧
  (∀ n, nominatedPodMap_podsForNode (nominatedPodMap_delete npm p) n =
     without p (nominatedPodMap_podsForNode npm n)).
Proof.
  intros Hr. assert (nom_inv npm) as Hi.
  { revert npm Hr. apply rtc_ind_r; [|intros a b _ (p' & n & Hb) Ha; destruct Hb as [->| ->]].
    - split; simpl; [|done]. intros uid n. rewrite lookup_empty. split; [done|].
      intros (l & p' & E & _). by rewrite lookup_empty in E.
    - by apply nominated_add_spec.
    - by apply nominated_delete_inv. }
  split_and!; [done|by apply nominated_add_spec|]. intros n. unfold nominatedPodMap_podsForNode.
  rewrite nominated_delete_list by done. destruct (nominatedPods npm !! n); [|done]. by case_bool_decide.
Qed.
End nominated.

#[export] Instance activeQComp_swo : StrictWeakOrder activeQComp.
Proof.
  unfold activeQComp, time_before.
  split; intros; rewrite ?orb_false_iff, ?orb_true_iff, ?andb_false_iff, ?andb_true_iff,
    ?Z.ltb_lt, ?Z.ltb_ge, ?Z.eqb_eq, ?Z.eqb_neq in *; lia.
Qed.

(** ** Concrete executions *)

Module QueueExample.
#[local] Existing Instance docK8s.
#[local] Existing Instance docK8s_laws.
#[local] Existing Instance stdRange.

Definition mkPod (name uid : string) (prio : Z) : Pod :=
  MkPod (MkObjectMeta name "default" uid "1" 1 ∅ ∅ 0 None 0%N)
        (MkPodSpec EmptyString "default-scheduler" (Some prio) [] [] None ∅ [] [] 0%N) emptyStatus.

Definition podA := mkPod "a" "uid-a" 1.
Definition podB := mkPod "b" "uid-b" 7.
Definition podC := mkPod "c" "uid-c" 3.

Lemma mkPod_ok name uid prio :
  no_char "/"%char name = true → no_char "_"%char name = true → pod_ok (mkPod name uid prio).
Proof. intros. by repeat split. Qed.

(** A command: an operation, a pop, or the passing of time. *)
Inductive cmd := Do (op : pq_op) | DoPop | At (t : Time).

Definition step (s : Time * PriorityQueue) (c : cmd) : option (Time * PriorityQueue) :=
  match c with
  | Do op => r ← pq_exec activeQComp s.1 s.2 op; Some (s.1, r.1)
  | DoPop => if schedulingCycle s.2 <? MaxInt64 then r ← PriorityQueue_Pop activeQComp s.2; Some (s.1, r.1) else None
  | At t => if s.1 <=? t then Some (t, s.2) else None
  end.
Fixpoint steps (s : Time * PriorityQueue) (l : list cmd) : option (Time * PriorityQueue) :=
  match l with [] => Some s | c :: l => s ← step s c; steps s l end.
Fixpoint ops_of (l : list cmd) : list pq_op :=
  match l with [] => [] | Do op :: l => op :: ops_of l | _ :: l => ops_of l end.

Lemma steps_trace now0 q0 l ops s s' :
  pq_trace activeQComp now0 q0 ops s.1 s.2 → Forall op_ok (ops_of l) → steps s l = Some s' →
  pq_trace activeQComp now0 q0 (ops ++ ops_of l) s'.1 s'.2.
Proof.
  revert s ops. induction l as [|c l IH]; intros s ops Ht Hok E; simplify_eq/=.
  { by rewrite app_nil_r. }
  destruct (step s c) as [s1|] eqn:E1; [|done]. simpl in E.
  destruct c as [op| |t]; simpl in *.
  - apply Forall_cons in Hok as [Hop Hok].
    destruct (pq_exec activeQComp s.1 s.2 op) as [[q e]|] eqn:Eo; simplify_eq/=.
    replace (ops ++ op :: ops_of l) with ((ops ++ [op]) ++ ops_of l) by (by rewrite <-app_assoc).
    refine (IH _ _ _ Hok E). by eapply trace_op.
  - destruct (Z.ltb_spec (schedulingCycle s.2) MaxInt64); [|done].
    destruct (PriorityQueue_Pop activeQComp s.2) as [[q r]|] eqn:Eo; simplify_eq/=.
    refine (IH _ _ _ Hok E). by eapply trace_pop.
  - destruct (Z.leb_spec s.1 t); simplify_eq/=. refine (IH _ _ _ Hok E). by eapply trace_tick.
Qed.

Definition q_new := NewPriorityQueueWithLessFuncAndClock.

(** The state after a list of commands. *)
Definition after (t : Time) (q : PriorityQueue) (l : list cmd) : Time * PriorityQueue :=
  default (t, q) (steps (t, q) l).

Lemma after_trace t q l :
  Forall op_ok (ops_of l) → is_Some (steps (t, q) l) →
  pq_trace activeQComp t q (ops_of l) (after t q l).1 (after t q l).2.
Proof.
  intros Hok [s E]. unfold after. rewrite E.
  eapply (steps_trace t q l [] (t, q)); [constructor|done|done].
Qed.

Definition run (l : list cmd) : Time * PriorityQueue := after 0 q_new l.

Lemma run_reach l :
  Forall op_ok (ops_of l) → is_Some (steps (0, q_new) l) → pq_reach activeQComp (run l).1 (run l).2.
Proof. intros Hok Hs. exists 0, (ops_of l). split; [done|]. by apply after_trace. Qed.

(** Three pods arrive; [b] and [c] are popped and come back unschedulable, [b]
    after a move request. *)
Definition script : list cmd :=
  [At (5 * Second); Do (QAdd podA); Do (QAdd podB); Do (QAdd podC); DoPop; DoPop; Do QMoveAll;
   Do (QAddUnschedulable podB 1); Do (QAddUnschedulable podC 9)].
Definition state := run script.

Lemma script_ok : Forall op_ok (ops_of script).
Proof. repeat constructor; simpl; apply mkPod_ok; reflexivity. Qed.
Lemma state_reach : pq_reach activeQComp state.1 state.2.
Proof. apply run_reach; [apply script_ok|]. vm_compute. by eexists. Qed.

Lemma pq_refines_witness :
  ∃ m, pq_inv state.1 state.2 m ∧
    m !! pod_id podA = Some (Active, MkPodInfo podA (5 * Second)) ∧
    m !! pod_id podB = Some (Backoff, MkPodInfo podB (5 * Second)) ∧
    m !! pod_id podC = Some (Unsched, MkPodInfo podC (5 * Second)) ∧
    ∃ q' e, pq_exec activeQComp state.1 state.2 (QDelete podB) = Some (q', e) ∧
      pq_inv state.1 q' (delete (pod_id podB) m).
Proof.
  destruct (pq_refines activeQComp state.1 state.2 state_reach) as (m & Hi & Hop).
  exists m. split_and!; [done| | | |].
  - apply (inv_active _ _ _ Hi (meta_key podA) (MkPodInfo podA (5 * Second))). vm_compute. reflexivity.
  - apply (inv_backoff _ _ _ Hi (meta_key podB) (MkPodInfo podB (5 * Second))). vm_compute. reflexivity.
  - apply (inv_unsched _ _ _ Hi (GetPodFullName podC) (MkPodInfo podC (5 * Second))). vm_compute. reflexivity.
  - destruct (Hop (QDelete podB)) as (q' & e & E & Hi' & _).
    + apply mkPod_ok; reflexivity.
    + eauto.
Defined.

Lemma pq_one_place_witness :
  is_Some (contents (podBackoffQ state.2) !! meta_key podB) ∧
  ¬ is_Some (contents (activeQ state.2) !! meta_key podB) ∧
  length (PriorityQueue_PendingPods state.2) = 3%nat ∧
  NoDup (pod_id <$> PriorityQueue_PendingPods state.2).
Proof.
  assert (valid_pod podB) as Hv by (by repeat split).
  assert (is_Some (contents (podBackoffQ state.2) !! meta_key podB)) as Hb by (vm_compute; by eexists).
  destruct (pq_one_place activeQComp state.1 state.2 podB state_reach Hv) as (Hab & _ & _ & Hnd & _).
  split_and!; [done|tauto|vm_compute; reflexivity|done].
Defined.

(** The two pods with the highest priorities of a queue of three. *)
Definition state3 := run (take 4 script).
Lemma state3_reach : pq_reach activeQComp state3.1 state3.2.
Proof.
  apply run_reach; [|vm_compute; by eexists]. repeat constructor; simpl; apply mkPod_ok; reflexivity.
Qed.

Definition popped : PriorityQueue :=
  match PriorityQueue_Pop activeQComp state3.2 with Some (q, _) => q | None => q_new end.

Lemma pop3 : PriorityQueue_Pop activeQComp state3.2 = Some (popped, PopPod podB).
Proof. vm_compute. reflexivity. Qed.

Lemma pq_Pop_first_witness :
  PriorityQueue_Pop activeQComp state3.2 = Some (popped, PopPod podB) ∧
  least activeQComp (contents (activeQ state3.2)) (MkPodInfo podB (5 * Second)) ∧
  schedulingCycle popped = 1 ∧ podB ∉ PriorityQueue_PendingPods popped.
Proof.
  pose proof (pq_Pop_first activeQComp state3.1 state3.2 state3_reach) as Hp.
  rewrite pop3 in Hp. destruct Hp as (pi & _ & Ek & Hl & _ & _ & Hn).
  assert (contents (activeQ state3.2) !! meta_key podB = Some (MkPodInfo podB (5 * Second))) as Ek'
    by (vm_compute; reflexivity).
  assert (pi = MkPodInfo podB (5 * Second)) as -> by congruence.
  split_and!; [exact pop3|exact Hl|vm_compute; reflexivity|exact Hn].
Defined.

(** One second later the back-off of [b] is over. *)
Definition state_later := run (script ++ [At (7 * Second)]).
Lemma state_later_reach : pq_reach activeQComp state_later.1 state_later.2.
Proof.
  apply run_reach; [|vm_compute; by eexists]. repeat constructor; simpl; apply mkPod_ok; reflexivity.
Qed.

Lemma pq_flush_exact_witness :
  ∃ q', flushBackoffQCompleted activeQComp state_later.1 state_later.2 = Some q' ∧
    contents (podBackoffQ q') = ∅ ∧
    contents (activeQ q') !! meta_key podB = Some (MkPodInfo podB (5 * Second)).
Proof.
  destruct (pq_flush_exact activeQComp state_later.1 state_later.2 state_later_reach)
    as (q' & E & Eb & Ea & _).
  exists q'. split_and!; [done| |].
  - rewrite Eb. vm_compute. reflexivity.
  - rewrite Ea. vm_compute. reflexivity.
Defined.

Definition after_ops (l : list cmd) : Time * PriorityQueue := after state3.1 popped l.

Lemma after_ops_trace l :
  Forall op_ok (ops_of l) → is_Some (steps (state3.1, popped) l) →
  pq_trace activeQComp state3.1 popped (ops_of l) (after_ops l).1 (after_ops l).2.
Proof. exact (after_trace state3.1 popped l). Qed.

Lemma unschedulable_routing_witness :
  let s := after_ops [Do QMoveAll] in
  let s' := after_ops [Do (QDelete podA)] in
  (∃ q3, PriorityQueue_AddUnschedulableIfNotPresent s.1 s.2 podB (schedulingCycle popped) = Some (q3, None) ∧
     contents (podBackoffQ q3) !! meta_key podB = Some (MkPodInfo podB s.1)) ∧
  (∃ q3, PriorityQueue_AddUnschedulableIfNotPresent s'.1 s'.2 podB (schedulingCycle popped) = Some (q3, None) ∧
     unschedulableQ q3 !! GetPodFullName podB = Some (MkPodInfo podB s'.1)).
Proof.
  assert (schedulingCycle state3.2 < MaxInt64) as Hlt by (vm_compute; reflexivity).
  split.
  - destruct (unschedulable_routing activeQComp state3.1 state3.2 popped podB (ops_of [Do QMoveAll])
      (after_ops [Do QMoveAll]).1 (after_ops [Do QMoveAll]).2 state3_reach Hlt pop3) as (q3 & E & Hm & _).
    + apply after_ops_trace; [repeat constructor|vm_compute; by eexists].
    + vm_compute. set_solver.
    + exists q3. split; [exact E|]. by apply Hm.
  - destruct (unschedulable_routing activeQComp state3.1 state3.2 popped podB (ops_of [Do (QDelete podA)])
      (after_ops [Do (QDelete podA)]).1 (after_ops [Do (QDelete podA)]).2 state3_reach Hlt pop3)
      as (q3 & E & _ & Hm).
    + apply after_ops_trace; [|vm_compute; by eexists].
      repeat constructor; simpl; apply mkPod_ok; reflexivity.
    + vm_compute. set_solver.
    + exists q3. split; [exact E|]. by apply Hm.
Defined.

Lemma no_lost_wakeup_witness :
  sys activeQComp 0 q_new true ∧ contents (activeQ q_new) = ∅ ∧
  ∃ q', pq_exec activeQComp 0 q_new (QAdd podA) = Some (q', None) ∧ sys activeQComp 0 q' false.
Proof.
  assert (sys activeQComp 0 q_new true) as Hs.
  { apply (sys_pop activeQComp 0 q_new false q_new PopWait); [by constructor|vm_compute; reflexivity|].
    vm_compute. reflexivity. }
  destruct (no_lost_wakeup activeQComp 0 q_new Hs) as [Hz _].
  split_and!; [done|done|].
  destruct (pq_exec activeQComp 0 q_new (QAdd podA)) as [[q' e]|] eqn:E; [|vm_compute in E; discriminate].
  assert (e = None ∧ (broadcasts q' =? 0)%nat = false) as [-> Hb].
  { vm_compute in E. injection E as <- <-. split; vm_compute; reflexivity. }
  exists q'. split; [done|]. change false with (true && false)%bool. rewrite <-Hb.
  eapply (sys_op activeQComp 0 q_new true); [done| |done]. apply mkPod_ok; reflexivity.
Defined.

Lemma nominated_consistent_witness :
  let npm := nominatedPodMap_add (nominatedPodMap_add newNominatedPodMap podA "n1") podB "n1" in
  nominatedPodMap_podsForNode (nominatedPodMap_add npm podA "n2") "n1" = [podB] ∧
  nominatedPodMap_podsForNode (nominatedPodMap_add npm podA "n2") "n2" = [podA] ∧
  nominatedPodMap_podsForNode (nominatedPodMap_delete npm podB) "n1" = [podA].
Proof.
  intros npm. destruct (nominated_consistent npm podA "n2") as (_ & Ha & _).
  { eapply rtc_l; [eexists podA, "n1"%string; by left|]. eapply rtc_l; [eexists podB, "n1"%string; by left|].
    reflexivity. }
  destruct (nominated_consistent npm podB "n2") as (_ & _ & Hd).
  { eapply rtc_l; [eexists podA, "n1"%string; by left|]. eapply rtc_l; [eexists podB, "n1"%string; by left|].
    reflexivity. }
  rewrite !Ha, Hd. vm_compute. done.
Defined.
End QueueExample.
