(* ===== verification/PoolQueue.v ===== *)
(** * The queues of all pools (src/pkg/scheduler/internal/queue/pool_queue.go)

    A [PoolQueue] maps pool names to scheduling queues.  It sees a queue through
    the Go interface [SchedulingQueue], here a class of operations with the
    instance [PriorityQueue]; what the pool queue relies on is the class
    [SchedulingQueueLaws], which PoolQueueProofs.v discharges.

    The comparison of the active queue of a pool is a closure over the pool
    queue: it reads the names of the queues that exist at the time of the call.
    Every operation therefore gets the comparison of the current state. *)
From S2P Require Import Prelude Heap Api Util Backoff SchedulingQueue.

Definition LessFunc := podInfo → podInfo → bool.

(** ** The interface SchedulingQueue *)
Class SchedulingQueue (Q : Type) := {
  sq_New : Q;
  sq_Add : LessFunc → Time → Q → Pod → comp (Q * option error);
  sq_AddIfNotPresent : LessFunc → Time → Q → Pod → comp (Q * option error);
  sq_AddUnschedulableIfNotPresent : LessFunc → Time → Q → Pod → Z → comp (Q * option error);
  sq_SchedulingCycle : Q → Z;
  sq_Pop : LessFunc → Q → comp (Q * PopResult);
  sq_Update : LessFunc → Time → Q → option Pod → Pod → comp (Q * option error);
  sq_Delete : LessFunc → Q → Pod → comp (Q * option error);
  sq_MoveAllToActiveQueue : LessFunc → Time → Q → comp Q;
  sq_AssignedPodAdded : LessFunc → Time → Q → Pod → comp Q;
  sq_AssignedPodUpdated : LessFunc → Time → Q → Pod → comp Q;
  sq_NominatedPodsForNode : Q → string → list Pod;
  sq_PendingPods : Q → list Pod;
  sq_Close : Q → Q;
  sq_UpdateNominatedPodForNode : Q → Pod → string → Q;
  sq_DeleteNominatedPodIfExists : Q → Pod → Q;
  sq_NumUnschedulablePods : Q → nat;
  sq_NumActivePods : Q → nat;
  sq_NumBackoffPods : Q → nat;
  (** what the goroutines do that the constructor starts *)
  sq_run : list (LessFunc → Time → Q → comp Q)
}.

#[export] Instance PriorityQueue_SchedulingQueue `{K8sLib} `{MapRange} : SchedulingQueue PriorityQueue := {|
  sq_New := NewPriorityQueueWithLessFuncAndClock;
  sq_Add := PriorityQueue_Add;
  sq_AddIfNotPresent := PriorityQueue_AddIfNotPresent;
  sq_AddUnschedulableIfNotPresent _ := PriorityQueue_AddUnschedulableIfNotPresent;
  sq_SchedulingCycle := PriorityQueue_SchedulingCycle;
  sq_Pop := PriorityQueue_Pop;
  sq_Update := PriorityQueue_Update;
  sq_Delete := PriorityQueue_Delete;
  sq_MoveAllToActiveQueue := PriorityQueue_MoveAllToActiveQueue;
  sq_AssignedPodAdded := PriorityQueue_AssignedPodAdded;
  sq_AssignedPodUpdated := PriorityQueue_AssignedPodUpdated;
  sq_NominatedPodsForNode := PriorityQueue_NominatedPodsForNode;
  sq_PendingPods := PriorityQueue_PendingPods;
  sq_Close := PriorityQueue_Close;
  sq_UpdateNominatedPodForNode := PriorityQueue_UpdateNominatedPodForNode;
  sq_DeleteNominatedPodIfExists := PriorityQueue_DeleteNominatedPodIfExists;
  sq_NumUnschedulablePods := PriorityQueue_NumUnschedulablePods;
  sq_NumActivePods := PriorityQueue_NumActivePods;
  sq_NumBackoffPods := PriorityQueue_NumBackoffPods;
  sq_run := [flushBackoffQCompleted; flushUnschedulableQLeftover]
|}.

(** info.DefaultPoolName *)
Definition DefaultPoolName : string := EmptyString.

Record PoolQueue (Q : Type) := MkPoolQueue { queues : gmap string Q }.
Arguments MkPoolQueue {Q} _.
Arguments queues {Q} _.

Section pool_queue.
Context `{MapRange} {Q : Type} `{!SchedulingQueue Q}.
Implicit Types (pq : PoolQueue Q) (q : Q) (pod : Pod).

Definition set_queue pq (name : string) q : PoolQueue Q := MkPoolQueue (<[name := q]> (queues pq)).

(** ** Names and comparison *)

Definition matchPoolQueueNameForPod pq pod : string :=
  let poolName := GetPodAnnotationsPoolName (Some pod) in
  match queues pq !! poolName with
  | Some _ => poolName
  | None => DefaultPoolName
  end.

Definition poolQueuePodPriorityComp pq (poolName : string) : LessFunc := λ pInfo1 pInfo2,
  let prio1 := GetPodPriority (pi_pod pInfo1) in
  let prio2 := GetPodPriority (pi_pod pInfo2) in
  let pn1 := matchPoolQueueNameForPod pq (pi_pod pInfo1) in
  let pn2 := matchPoolQueueNameForPod pq (pi_pod pInfo2) in
  if bool_decide (pn1 = poolName) && bool_decide (pn2 = poolName) then
    (prio2 <? prio1) || ((prio1 =? prio2) && time_before (pi_timestamp pInfo1) (pi_timestamp pInfo2))
  else if bool_decide (pn1 = poolName) && negb (bool_decide (pn2 = poolName)) then true
  else if negb (bool_decide (pn1 = poolName)) && bool_decide (pn2 = poolName) then false
  else
    (prio2 <? prio1) || ((prio1 =? prio2) && time_before (pi_timestamp pInfo1) (pi_timestamp pInfo2)).

Definition GetPoolQueueNameIfNotPresent pq pod : string := matchPoolQueueNameForPod pq pod.

Definition getPriorityQueue pq (poolName : string) : error + (Q * string) :=
  match queues pq !! poolName with
  | Some q => inr (q, poolName)
  | None =>
      match queues pq !! DefaultPoolName with
      | Some q => inr (q, DefaultPoolName)
      | None => inl "build-in default pool queue not found"%string
      end
  end.

(** ** The set of queues *)

Definition NewPoolQueue : PoolQueue Q := MkPoolQueue {[ DefaultPoolName := sq_New ]}.

Definition PoolQueue_GetQueue pq (poolName : string) : error + Q :=
  match queues pq !! poolName with
  | Some q => inr q
  | None => inl ("queue for pool " +:+ poolName +:+ " not found")%string
  end.

Definition PoolQueue_SetQueue pq (poolName : string) q : PoolQueue Q := set_queue pq poolName q.

Definition PoolQueue_AddQueue pq (poolName : string) : PoolQueue Q * Q :=
  match queues pq !! poolName with
  | Some q => (pq, q)
  | None => (set_queue pq poolName sq_New, sq_New)
  end.

(** The loop over the pending pods of the removed queue; an error is logged. *)
Fixpoint RemoveQueue_loop (now : Time) pq (df : Q) (pods : list Pod) : comp Q :=
  match pods with
  | [] => Some df
  | pod :: pods =>
      r ← sq_AddIfNotPresent (poolQueuePodPriorityComp pq DefaultPoolName) now df pod;
      RemoveQueue_loop now pq r.1 pods
  end.

(** The removed queue is closed; it is returned because goroutines still hold it. *)
Definition PoolQueue_RemoveQueue (now : Time) pq (poolName : string) : comp (PoolQueue Q * option Q) :=
  match queues pq !! poolName with
  | None => Some (pq, None)
  | Some q =>
      let pq := MkPoolQueue (delete poolName (queues pq)) in
      pq ← match queues pq !! DefaultPoolName with
           | None => Some pq
           | Some df =>
               df ← RemoveQueue_loop now pq df (sq_PendingPods q);
               Some (set_queue pq DefaultPoolName df)
           end;
      Some (pq, Some (sq_Close q))
  end.

(** ** Pods *)

(** An operation on the queue that [getPriorityQueue] chooses for a pod. *)
Definition on_queue pq pod (f : LessFunc → Q → comp (Q * option error)) : comp (PoolQueue Q * option error) :=
  match getPriorityQueue pq (GetPodAnnotationsPoolName (Some pod)) with
  | inl err => Some (pq, Some err)
  | inr (q, n) =>
      r ← f (poolQueuePodPriorityComp pq n) q;
      Some (set_queue pq n r.1, r.2)
  end.

Definition PoolQueue_Add (now : Time) pq pod : comp (PoolQueue Q * option error) :=
  on_queue pq pod (λ less q, sq_Add less now q pod).

Definition PoolQueue_AddIfNotPresent (now : Time) pq pod : comp (PoolQueue Q * option error) :=
  on_queue pq pod (λ less q, sq_AddIfNotPresent less now q pod).

(** The first queue, in the order of [range], with a pending pod of that UID. *)
Definition find_queue pq (uid : string) : option (string * Q) :=
  list_find (λ e : string * Q, existsb (λ p, bool_decide (pod_UID p = uid)) (sq_PendingPods e.2))
    (range (queues pq)) ≫= λ r, Some r.2.

Definition PoolQueue_Delete pq pod : comp (PoolQueue Q * option error) :=
  match find_queue pq (pod_UID pod) with
  | Some (n, q) =>
      r ← sq_Delete (poolQueuePodPriorityComp pq n) q pod;
      Some (set_queue pq n r.1, r.2)
  | None => Some (pq, None)
  end.

(** The log line reads [oldPod]. *)
Definition PoolQueue_Update (now : Time) pq (oldPod : option Pod) (newPod : Pod)
  : comp (PoolQueue Q * option error) :=
  match find_queue pq (pod_UID newPod) with
  | Some (n, q) =>
      old ← oldPod;
      r ← sq_Update (poolQueuePodPriorityComp pq n) now q (Some old) newPod;
      Some (set_queue pq n r.1, r.2)
  | None => Some (pq, None)
  end.

(** ** Counting *)

Definition PoolQueue_NumQueues pq : nat := size (queues pq).

Definition PoolQueue_NumUnschedulablePods pq : nat :=
  foldl (λ num e, num + sq_NumUnschedulablePods e.2)%nat O (range (queues pq)).

Definition PoolQueue_NumUnschedulablePodsIn pq (poolName : string) : nat :=
  match queues pq !! poolName with
  | Some q => sq_NumUnschedulablePods q
  | None => O
  end.

(** ** Operations on all queues *)

Fixpoint MoveAll_queues (now : Time) pq (l : list (string * Q)) : comp (PoolQueue Q) :=
  match l with
  | [] => Some pq
  | (n, q) :: l =>
      q ← sq_MoveAllToActiveQueue (poolQueuePodPriorityComp pq n) now q;
      MoveAll_queues now (set_queue pq n q) l
  end.
Definition PoolQueue_MoveAllToActiveQueue (now : Time) pq : comp (PoolQueue Q) :=
  MoveAll_queues now pq (range (queues pq)).

Definition PoolQueue_MoveAllToActiveQueueIn (now : Time) pq (poolName : string) : comp (PoolQueue Q) :=
  match queues pq !! poolName with
  | Some q =>
      q ← sq_MoveAllToActiveQueue (poolQueuePodPriorityComp pq poolName) now q;
      Some (set_queue pq poolName q)
  | None => Some pq
  end.

Definition PoolQueue_AssignedPodAdded (now : Time) pq pod : comp (PoolQueue Q) :=
  match getPriorityQueue pq (GetPodAnnotationsPoolName (Some pod)) with
  | inl _ => Some pq
  | inr (q, n) =>
      q ← sq_AssignedPodAdded (poolQueuePodPriorityComp pq n) now q pod;
      Some (set_queue pq n q)
  end.

Definition PoolQueue_AssignedPodUpdated (now : Time) pq pod : comp (PoolQueue Q) :=
  match getPriorityQueue pq (GetPodAnnotationsPoolName (Some pod)) with
  | inl _ => Some pq
  | inr (q, n) =>
      q ← sq_AssignedPodUpdated (poolQueuePodPriorityComp pq n) now q pod;
      Some (set_queue pq n q)
  end.

Definition PoolQueue_PendingPods pq : list Pod :=
  concat ((λ e, sq_PendingPods e.2) <$> range (queues pq)).

Definition PoolQueue_NominatedPodsForNode pq (nodeName : string) : list Pod :=
  concat ((λ e, sq_NominatedPodsForNode e.2 nodeName) <$> range (queues pq)).

Definition PoolQueue_Close pq : PoolQueue Q := MkPoolQueue (sq_Close <$> queues pq).

(** ** Borrowing *)

(** A nil [selfQ] is dereferenced. *)
Fixpoint MoveBorrowing_loop (now : Time) pq (poolName : string) (pods : list Pod) : comp (PoolQueue Q) :=
  match pods with
  | [] => Some pq
  | pod :: pods =>
      let selfPoolName := matchPoolQueueNameForPod pq pod in
      if negb (bool_decide (selfPoolName = poolName)) then
        queue ← queues pq !! poolName;
        d ← sq_Delete (poolQueuePodPriorityComp pq poolName) queue pod;
        let pq := set_queue pq poolName d.1 in
        let selfName := match queues pq !! selfPoolName with
                        | Some _ => selfPoolName
                        | None => DefaultPoolName
                        end in
        selfQ ← queues pq !! selfName;
        r ← sq_AddIfNotPresent (poolQueuePodPriorityComp pq selfName) now selfQ pod;
        MoveBorrowing_loop now (set_queue pq selfName r.1) poolName pods
      else MoveBorrowing_loop now pq poolName pods
  end.

Definition MoveAllBorrowingPodsToSelfQueue (now : Time) pq (poolName : string) : comp (PoolQueue Q) :=
  match queues pq !! poolName with
  | None => Some pq
  | Some queue => MoveBorrowing_loop now pq poolName (sq_PendingPods queue)
  end.

Definition HasSelfPoolPendingPods pq (poolName : string) : bool :=
  match queues pq !! poolName with
  | None => false
  | Some queue =>
      existsb (λ pod, bool_decide (matchPoolQueueNameForPod pq pod = poolName)) (sq_PendingPods queue)
  end.

(** ** queue.MakeNextPodFunc (scheduling_queue.go) *)

Definition PriorityQueueDeletedError : error := "queue deleted".

Definition MakeNextPodFunc pq (poolName : string) : comp (PoolQueue Q * PopResult) :=
  match PoolQueue_GetQueue pq poolName with
  | inl _ => Some (pq, PopError PriorityQueueDeletedError)
  | inr q =>
      r ← sq_Pop (poolQueuePodPriorityComp pq poolName) q;
      Some (set_queue pq poolName r.1, r.2)
  end.

End pool_queue.
