(* ===== verification/PoolQueueProofs.v ===== *)
(** * Correctness of the pool queue

    The pool queue is verified against the laws of the interface
    [SchedulingQueue]: what a queue holds is a finite map from names to pods.
    [pool_holds now pq S] says that the queues of [pq] hold, pool by pool, the
    maps of [S].  The last part shows that [PriorityQueue] satisfies the laws. *)
From S2P Require Import Prelude Heap Api Util Backoff SchedulingQueue SchedulingQueueProofs PoolQueue.
From Stdlib Require Import Ascii.

Abbreviation pods_of := (gmap (string * string) Pod).

(** A call without error whose result satisfies a property. *)
Lemma no_error_ex {A} (x : comp (A * option error)) (P : A → Prop) :
  match x with Some (a, None) => P a | _ => False end → ∃ a, x = Some (a, None) ∧ P a.
Proof. destruct x as [[a [e|]]|]; [done| |done]. eauto. Qed.

(** ** The contract of a scheduling queue that is not closed *)
Class SchedulingQueueLaws (Q : Type) `{SchedulingQueue Q} := {
  sq_holds : Time → Q → pods_of → Prop;
  sq_ok : Pod → Prop;
  sq_mono now now' q s : now <= now' → sq_holds now q s → sq_holds now' q s;
  sq_id now q s id p : sq_holds now q s → s !! id = Some p → id = pod_id p ∧ sq_ok p;
  sq_New_law now : 0 <= now → sq_holds now sq_New ∅;
  sq_Add_law less now q s p : sq_holds now q s → sq_ok p →
    ∃ q', sq_Add less now q p = Some (q', None) ∧ sq_holds now q' (<[pod_id p := p]> s);
  sq_AddIfNotPresent_law less now q s p : sq_holds now q s → sq_ok p →
    ∃ q', sq_AddIfNotPresent less now q p = Some (q', None) ∧
      sq_holds now q' (s ∪ {[ pod_id p := p ]});
  sq_AddUnschedulable_law less now q s p cycle : sq_holds now q s → sq_ok p → s !! pod_id p = None →
    ∃ q', sq_AddUnschedulableIfNotPresent less now q p cycle = Some (q', None) ∧
      sq_holds now q' (<[pod_id p := p]> s);
  sq_Update_law less now q s old new :
    sq_holds now q s → sq_ok old → sq_ok new → pod_id old = pod_id new →
    ∃ q', sq_Update less now q (Some old) new = Some (q', None) ∧
      sq_holds now q' (<[pod_id new := new]> s);
  sq_Delete_law less now q s p : sq_holds now q s → sq_ok p →
    ∃ q', sq_Delete less q p = Some (q', None) ∧ sq_holds now q' (delete (pod_id p) s);
  sq_MoveAll_law less now q s : sq_holds now q s →
    ∃ q', sq_MoveAllToActiveQueue less now q = Some q' ∧ sq_holds now q' s;
  sq_Assigned_law less now q s p : sq_holds now q s →
    ∃ q', sq_AssignedPodAdded less now q p = Some q' ∧
      sq_AssignedPodUpdated less now q p = Some q' ∧ sq_holds now q' s;
  sq_Pop_law less now q s : sq_holds now q s →
    ∃ q' r, sq_Pop less q = Some (q', r) ∧
      match r with
      | PopPod p => s !! pod_id p = Some p ∧ sq_holds now q' (delete (pod_id p) s)
      | PopError _ => False
      | PopWait => q' = q
      end;
  sq_Pending_law now q s : sq_holds now q s →
    NoDup (pod_id <$> sq_PendingPods q) ∧
    ∀ p, p ∈ sq_PendingPods q ↔ s !! pod_id p = Some p;
  sq_Nominate_law now q s p node : sq_holds now q s → sq_holds now (sq_UpdateNominatedPodForNode q p node) s;
  sq_Unnominate_law now q s p : sq_holds now q s → sq_holds now (sq_DeleteNominatedPodIfExists q p) s;
  sq_run_law less now q s f : f ∈ sq_run → sq_holds now q s → ∃ q', f less now q = Some q' ∧ sq_holds now q' s
}.

Section pool_queue.
Context {Range : MapRange} {Q : Type} {SQ : SchedulingQueue Q} {Laws : SchedulingQueueLaws Q}.
Implicit Types (pq : PoolQueue Q) (q : Q) (p pod : Pod) (s : pods_of) (S : gmap string pods_of).

Definition pool_holds (now : Time) pq S : Prop :=
  ∀ n, option_Forall2 (sq_holds now) (queues pq !! n) (S !! n).

Lemma pool_holds_Some now pq S n q :
  pool_holds now pq S → queues pq !! n = Some q → ∃ s, S !! n = Some s ∧ sq_holds now q s.
Proof. intros H E. specialize (H n). rewrite E in H. inv H. eauto. Qed.

Lemma pool_holds_Some_r now pq S n s :
  pool_holds now pq S → S !! n = Some s → ∃ q, queues pq !! n = Some q ∧ sq_holds now q s.
Proof. intros H E. specialize (H n). rewrite E in H. inv H. eauto. Qed.

Lemma pool_holds_None now pq S n : pool_holds now pq S → queues pq !! n = None ↔ S !! n = None.
Proof. intros H. specialize (H n). by destruct (queues pq !! n), (S !! n); inv H. Qed.

Lemma pool_holds_set now pq S n q s :
  pool_holds now pq S → sq_holds now q s → pool_holds now (set_queue pq n q) (<[n := s]> S).
Proof.
  intros H Hq n'. simpl. rewrite !lookup_insert. case_decide; [by constructor|apply H].
Qed.

(** The name of the queue of a pod depends on the names alone. *)
Definition pool_of S p : string :=
  match S !! GetPodAnnotationsPoolName (Some p) with
  | Some _ => GetPodAnnotationsPoolName (Some p)
  | None => DefaultPoolName
  end.

Lemma match_pool_of now pq S p : pool_holds now pq S → matchPoolQueueNameForPod pq p = pool_of S p.
Proof.
  intros H. unfold matchPoolQueueNameForPod, pool_of.
  specialize (H (GetPodAnnotationsPoolName (Some p))).
  by destruct (queues pq !! _), (S !! _); inv H.
Qed.

Lemma pool_of_dom S S' p : dom S = dom S' → pool_of S p = pool_of S' p.
Proof.
  intros E. unfold pool_of. set (n := GetPodAnnotationsPoolName (Some p)).
  pose proof (elem_of_dom S n) as Hd. rewrite E, elem_of_dom in Hd.
  destruct (S !! n), (S' !! n); rewrite !is_Some_alt in Hd; naive_solver.
Qed.

Lemma getPriorityQueue_spec now pq S p s :
  pool_holds now pq S → S !! pool_of S p = Some s →
  ∃ q, getPriorityQueue pq (GetPodAnnotationsPoolName (Some p)) = inr (q, pool_of S p) ∧
    queues pq !! pool_of S p = Some q ∧ sq_holds now q s.
Proof.
  intros H E. destruct (pool_holds_Some_r _ _ _ _ _ H E) as (q & Eq & Hq). exists q.
  split; [|done]. unfold getPriorityQueue, pool_of in *.
  pose proof (H (GetPodAnnotationsPoolName (Some p))) as Hn.
  destruct (queues pq !! GetPodAnnotationsPoolName (Some p)) eqn:En,
    (S !! GetPodAnnotationsPoolName (Some p)); inv Hn; [congruence|by rewrite Eq].
Qed.

(** The pool of a pod exists as soon as the default pool does. *)
Lemma pool_of_exists S p : is_Some (S !! DefaultPoolName) → is_Some (S !! pool_of S p).
Proof. unfold pool_of. by destruct (S !! GetPodAnnotationsPoolName (Some p)) eqn:E; rewrite ?E. Qed.

Lemma on_queue_spec now pq S p s s' f :
  pool_holds now pq S → S !! pool_of S p = Some s →
  (∀ less q, sq_holds now q s → ∃ q', f less q = Some (q', None) ∧ sq_holds now q' s') →
  ∃ pq', on_queue pq p f = Some (pq', None) ∧ pool_holds now pq' (<[pool_of S p := s']> S).
Proof.
  intros H E Hf. destruct (getPriorityQueue_spec now pq S p s H E) as (q & Eg & _ & Hq).
  unfold on_queue. rewrite Eg.
  destruct (Hf (poolQueuePodPriorityComp pq (pool_of S p)) q Hq) as (q' & -> & Hq').
  simpl. eexists. split; [done|]. by apply pool_holds_set.
Qed.

(** ** The comparison is a strict weak order *)
#[export] Instance poolQueuePodPriorityComp_swo pq n : StrictWeakOrder (poolQueuePodPriorityComp pq n).
Proof.
  unfold poolQueuePodPriorityComp, time_before.
  split; intros; repeat case_bool_decide; simpl in *; try done;
    rewrite ?orb_false_iff, ?orb_true_iff, ?andb_false_iff, ?andb_true_iff,
      ?Z.ltb_lt, ?Z.ltb_ge, ?Z.eqb_eq, ?Z.eqb_neq in *; lia.
Qed.

(** ** Removing a queue *)

Lemma RemoveQueue_loop_spec now pq df d pods :
  sq_holds now df d → Forall sq_ok pods →
  ∃ df', RemoveQueue_loop now pq df pods = Some df' ∧
    sq_holds now df' (foldl (λ d p, d ∪ {[ pod_id p := p ]}) d pods).
Proof.
  revert df d. induction pods as [|p pods IH]; intros df d Hd Hok; simpl; [by eauto|].
  apply Forall_cons in Hok as [Hp Hok].
  destruct (sq_AddIfNotPresent_law (poolQueuePodPriorityComp pq DefaultPoolName) now df d p)
    as (df1 & -> & Hd1); [done..|].
  simpl. by apply IH.
Qed.

(** The pending pods of a queue as a map. *)
Lemma pending_map now q s :
  sq_holds now q s → list_to_map ((λ p, (pod_id p, p)) <$> sq_PendingPods q) = s.
Proof.
  intros Hq. destruct (sq_Pending_law now q s Hq) as [Hnd Hin].
  assert (NoDup ((λ p, (pod_id p, p)) <$> sq_PendingPods q).*1) as Hnd'.
  { by rewrite <-list_fmap_compose. }
  apply map_eq. intros id. apply option_eq. intros p.
  rewrite <-elem_of_list_to_map by done. rewrite list_elem_of_fmap. split.
  - by intros (p' & [= -> ->] & Hp%Hin).
  - intros E. pose proof (sq_id now q s id p Hq E) as [-> _]. exists p. split; [done|]. by apply Hin.
Qed.

Lemma pending_ok now q s : sq_holds now q s → Forall sq_ok (sq_PendingPods q).
Proof.
  intros Hq. apply Forall_forall. intros p Hp%(sq_Pending_law now q s Hq).
  by eapply sq_id.
Qed.

Lemma foldl_union_pods (pods : list Pod) d :
  foldl (λ d p, d ∪ {[ pod_id p := p ]}) d pods =
    d ∪ list_to_map ((λ p, (pod_id p, p)) <$> pods) :> pods_of.
Proof.
  revert d. induction pods as [|p pods IH]; intros d; simpl; [by rewrite map_union_empty|].
  by rewrite IH, <-map_union_assoc, <-insert_union_singleton_l.
Qed.

(** Removing the queue of a pool loses no pod.  Every pending pod of the
    removed queue is pending in the default queue afterwards (a pod of that name
    that was already there stays as it is); the other queues do not change. *)
Theorem RemoveQueue_conserves now pq S n s d :
  pool_holds now pq S → n ≠ DefaultPoolName → S !! n = Some s → S !! DefaultPoolName = Some d →
  ∃ pq' q', PoolQueue_RemoveQueue now pq n = Some (pq', Some q') ∧
    pool_holds now pq' (<[DefaultPoolName := d ∪ s]> (delete n S)).
Proof.
  intros H Hn Es Ed. unfold PoolQueue_RemoveQueue.
  destruct (pool_holds_Some_r _ _ _ _ _ H Es) as (q & -> & Hq).
  destruct (pool_holds_Some_r _ _ _ _ _ H Ed) as (df & Edf & Hdf).
  simpl. rewrite lookup_delete_ne, Edf by done.
  set (pq1 := MkPoolQueue (delete n (queues pq))).
  destruct (RemoveQueue_loop_spec now pq1 df d (sq_PendingPods q)) as (df' & -> & Hdf');
    [done|by eapply pending_ok|].
  rewrite foldl_union_pods, (pending_map now q s) in Hdf' by done.
  simpl. eexists _, _. split; [done|].
  apply pool_holds_set; [|done]. intros n'. simpl. rewrite !lookup_delete. case_decide; [constructor|apply H].
Qed.

(** [Add] puts the pod in the queue of its pool, or of the default pool when
    its pool has no queue, and changes no other queue. *)
Theorem Add_routes now pq S p s :
  pool_holds now pq S → sq_ok p → S !! pool_of S p = Some s →
  ∃ pq', PoolQueue_Add now pq p = Some (pq', None) ∧
    pool_holds now pq' (<[pool_of S p := <[pod_id p := p]> s]> S) ∧
    matchPoolQueueNameForPod pq' p = pool_of S p.
Proof.
  intros H Hp E. unfold PoolQueue_Add.
  destruct (on_queue_spec now pq S p s (<[pod_id p := p]> s) (λ less q, sq_Add less now q p) H E)
    as (pq' & -> & H').
  { intros less q Hq. by apply sq_Add_law. }
  exists pq'. split_and!; [done|done|]. rewrite (match_pool_of now pq' _ p H').
  apply pool_of_dom. rewrite dom_insert_L. assert (pool_of S p ∈ dom S) by (by apply elem_of_dom_2 in E).
  set_solver.
Qed.

(** ** Borrowing pods go home *)

(** The state after the pods [pods] of queue [n] have been handled. *)
Record moved_home n s S (pods : list Pod) S' : Prop := {
  mh_dom : dom S' = dom S;
  mh_self : S' !! n = Some (filter (λ e, e.2 ∉ pods ∨ pool_of S e.2 = n) s);
  mh_home p : p ∈ pods → pool_of S p ≠ n → ∃ t, S' !! pool_of S p = Some t ∧ is_Some (t !! pod_id p);
  mh_other n' t : n' ≠ n → S !! n' = Some t →
    ∃ t', S' !! n' = Some t' ∧ t ⊆ t' ∧
      ∀ id p, t' !! id = Some p → t !! id = Some p ∨ s !! id = Some p ∧ pool_of S p = n'
}.

Lemma moved_home_nil n s S : S !! n = Some s → moved_home n s S [] S.
Proof.
  intros E. split; [done| |set_solver|].
  - rewrite map_filter_id; [done|]. intros. left. apply not_elem_of_nil.
  - intros n' t _ Et. eauto.
Qed.

Lemma moved_home_self n s S l S1 p :
  (∀ id p, s !! id = Some p → id = pod_id p) → s !! pod_id p = Some p →
  pool_of S p = n → moved_home n s S l S1 → moved_home n s S (l ++ [p]) S1.
Proof.
  intros Hid Hp Hpool [Hd Hs Hh Ho]. split; [done| | |done].
  - rewrite Hs. f_equal. apply map_filter_ext. intros id p' E. simpl.
    rewrite not_elem_of_app, list_elem_of_singleton. split; [|tauto].
    intros [?|?]; [|by right]. destruct (decide (p' = p)) as [->|]; [by right|tauto].
  - intros p' [?|Hin%list_elem_of_singleton]%elem_of_app Hne; [by apply Hh|]. by subst.
Qed.

Lemma moved_home_step n s S l S1 p t1 :
  (∀ id p, s !! id = Some p → id = pod_id p) → s !! pod_id p = Some p →
  pool_of S p ≠ n → moved_home n s S l S1 → S1 !! pool_of S p = Some t1 →
  moved_home n s S (l ++ [p])
    (<[pool_of S p := t1 ∪ {[ pod_id p := p ]}]>
      (<[n := delete (pod_id p) (filter (λ e, e.2 ∉ l ∨ pool_of S e.2 = n) s)]> S1)).
Proof.
  intros Hid Hp Hpool [Hd Hs Hh Ho] Et. split.
  - rewrite !dom_insert_L, Hd. apply elem_of_dom_2 in Et, Hs. rewrite Hd in *. set_solver.
  - rewrite lookup_insert_ne, lookup_insert_eq by done. f_equal.
    apply map_eq. intros id. apply option_eq. intros p'.
    rewrite lookup_delete_Some, !map_lookup_filter_Some. simpl.
    rewrite not_elem_of_app, list_elem_of_singleton. split.
    + intros (Hne & E & [?|?]); (split; [done|]); [left|by right]. split; [done|]. intros ->.
      by apply Hne; symmetry; apply Hid.
    + intros (E & [[Hl Hne]|Hself]); split_and!; auto.
      * intros <-. congruence.
      * intros <-. congruence.
  - intros p' Hin Hne. apply elem_of_app in Hin as [Hin|Hin%list_elem_of_singleton]; [|subst p'].
    + destruct (Hh p' Hin Hne) as (t & Et' & Hsome). rewrite lookup_insert.
      case_decide as E; [|rewrite lookup_insert_ne by done; by eauto].
      rewrite <-E in Et'. simplify_eq. eexists. split; [done|].
      rewrite lookup_union_is_Some. by left.
    + rewrite lookup_insert_eq. eexists. split; [done|].
      rewrite lookup_union_is_Some, lookup_singleton_eq. right. by eexists.
  - intros n' t Hne E. destruct (Ho n' t Hne E) as (t' & Et' & Hsub & Hin).
    destruct (decide (pool_of S p = n')) as [<-|Hn'].
    + rewrite lookup_insert_eq. simplify_eq. eexists. split_and!; [done| |].
      * etrans; [exact Hsub|]. apply map_union_subseteq_l.
      * intros id p' [E'|[_ [<- <-]%lookup_singleton_Some]]%lookup_union_Some_raw; [by apply Hin|].
        by right.
    + rewrite !lookup_insert_ne by done. eauto.
Qed.

Lemma MoveBorrowing_loop_spec now pq n s S S1 l pods :
  pool_holds now pq S1 → moved_home n s S l S1 → is_Some (S !! DefaultPoolName) →
  (∀ id p, s !! id = Some p → id = pod_id p ∧ sq_ok p) →
  (∀ p, p ∈ pods → s !! pod_id p = Some p) →
  ∃ pq' S', MoveBorrowing_loop now pq n pods = Some pq' ∧ pool_holds now pq' S' ∧
    moved_home n s S (l ++ pods) S'.
Proof.
  intros H Hm Hdef Hid. revert pq S1 l H Hm.
  assert (∀ id p, s !! id = Some p → id = pod_id p) as Hid' by naive_solver.
  induction pods as [|p pods IH]; intros pq S1 l H Hm Hin; cbn [MoveBorrowing_loop].
  { exists pq, S1. by rewrite app_nil_r. }
  assert (s !! pod_id p = Some p) as Hp by (apply Hin; by left).
  assert (∀ p, p ∈ pods → s !! pod_id p = Some p) as Hin' by (intros; apply Hin; by right).
  pose proof (Hid _ _ Hp) as [_ Hok].
  rewrite (cons_middle p l pods), app_assoc.
  rewrite (match_pool_of now pq S1 p H), (pool_of_dom S1 S p) by apply Hm.
  case_bool_decide as Hpool; simpl.
  { eapply IH; [exact H|by apply moved_home_self|done]. }
  destruct (pool_holds_Some_r _ _ _ _ _ H (mh_self _ _ _ _ _ Hm)) as (q & -> & Hq). simpl.
  destruct (sq_Delete_law (poolQueuePodPriorityComp pq n) now q _ p Hq Hok) as (q' & -> & Hq').
  simpl. pose proof (pool_holds_set _ _ _ n _ _ H Hq') as H2.
  destruct (pool_of_exists S p Hdef) as [t0 Et0].
  assert (∃ t1, S1 !! pool_of S p = Some t1) as [t1 Et1].
  { apply elem_of_dom. rewrite (mh_dom _ _ _ _ _ Hm). by apply elem_of_dom_2 in Et0. }
  destruct (pool_holds_Some_r _ _ _ (pool_of S p) t1 H2) as (sq & Esq & Hsq);
    [by rewrite lookup_insert_ne|].
  simpl in Esq. rewrite Esq. cbn [mbind option_bind]. rewrite Esq. cbn [mbind option_bind].
  destruct (sq_AddIfNotPresent_law (poolQueuePodPriorityComp (set_queue pq n q') (pool_of S p))
    now sq t1 p Hsq Hok) as (sq' & -> & Hsq').
  cbn [mbind option_bind]. eapply IH; [|by apply (moved_home_step n s S l S1 p t1)|done].
  by apply pool_holds_set.
Qed.

(** [MoveAllBorrowingPodsToSelfQueue] sends every pod that borrows the pool
    home: the queue of the pool keeps exactly its own pods, every other pod of it
    is pending in the queue of its own pool, and the other queues keep what they
    had and get nothing else. *)
Theorem MoveAllBorrowing_home now pq S n s :
  pool_holds now pq S → is_Some (S !! DefaultPoolName) → S !! n = Some s →
  ∃ pq' S', MoveAllBorrowingPodsToSelfQueue now pq n = Some pq' ∧ pool_holds now pq' S' ∧ dom S' = dom S ∧
    S' !! n = Some (filter (λ e, pool_of S e.2 = n) s) ∧
    (∀ id p, s !! id = Some p → pool_of S p ≠ n →
       ∃ t, S' !! pool_of S p = Some t ∧ is_Some (t !! id)) ∧
    (∀ n' t, n' ≠ n → S !! n' = Some t →
       ∃ t', S' !! n' = Some t' ∧ t ⊆ t' ∧
         ∀ id p, t' !! id = Some p → t !! id = Some p ∨ s !! id = Some p ∧ pool_of S p = n').
Proof.
  intros H Hdef Es. unfold MoveAllBorrowingPodsToSelfQueue.
  destruct (pool_holds_Some_r _ _ _ _ _ H Es) as (q & -> & Hq).
  destruct (sq_Pending_law now q s Hq) as [_ Hin].
  pose proof (λ id p, sq_id now q s id p Hq) as Hid.
  destruct (MoveBorrowing_loop_spec now pq n s S S [] (sq_PendingPods q) H) as
    (pq' & S' & -> & H' & [Hd Hs Hh Ho]); [by apply moved_home_nil|done|done|by intros; apply Hin|].
  exists pq', S'. split_and!; [done|done|done| | |done].
  - rewrite Hs. f_equal. apply map_filter_ext. intros id p E. simpl.
    pose proof (Hid _ _ E) as [-> _]. apply Hin in E. tauto.
  - intros id p E Hne. pose proof (Hid _ _ E) as [-> _]. apply Hh; [by apply Hin|done].
Qed.

(** [HasSelfPoolPendingPods] says whether the queue of a pool has a pod of
    its own, and is false for a pool without queue. *)
Theorem HasSelfPoolPendingPods_spec now pq S n :
  pool_holds now pq S →
  HasSelfPoolPendingPods pq n = true ↔
    ∃ s id p, S !! n = Some s ∧ s !! id = Some p ∧ pool_of S p = n.
Proof.
  intros H. unfold HasSelfPoolPendingPods. destruct (queues pq !! n) as [q|] eqn:E.
  - destruct (pool_holds_Some _ _ _ _ _ H E) as (s & Es & Hq).
    destruct (sq_Pending_law now q s Hq) as [_ Hin]. rewrite existsb_exists.
    setoid_rewrite <-list_elem_of_In. setoid_rewrite bool_decide_eq_true.
    setoid_rewrite (match_pool_of now pq S _ H). split.
    + intros (p & Hp%Hin & Hn). eauto 10.
    + intros (s' & id & p & Es' & Ep & Hn). rewrite Es in Es'. injection Es' as <-.
      pose proof (sq_id now q s id p Hq Ep) as [-> _]. exists p. split; [by apply Hin|done].
  - apply (pool_holds_None now pq S n H) in E. split; [done|]. intros (s & ? & ? & Es & _). congruence.
Qed.

End pool_queue.

(** ** PriorityQueue satisfies the contract *)

Section priority_queue_laws.
Context {K8s : K8sLib} {KLaws : K8sLaws} {Range : MapRange}.
Implicit Types (q : PriorityQueue) (m : podmap) (s : pods_of).

Definition pods_in m : pods_of := (λ e, pi_pod e.2) <$> m.

Definition pq_holds (now : Time) q s : Prop := closed q = false ∧ ∃ m, pq_inv now q m ∧ all_parse m ∧ s = pods_in m.

Lemma pods_in_insert m id pl p t : pods_in (<[id := (pl, MkPodInfo p t)]> m) = <[id := p]> (pods_in m).
Proof. unfold pods_in. by rewrite fmap_insert. Qed.

Lemma pods_in_fmap (f : place * podInfo → place * podInfo) m :
  (∀ e, (f e).2 = e.2) → pods_in (f <$> m) = pods_in m.
Proof.
  intros Hf. unfold pods_in. rewrite <-map_fmap_compose. apply map_fmap_ext.
  intros id e _. simpl. by rewrite Hf.
Qed.

Lemma pods_in_move_if sel d m : pods_in (move_if sel d m) = pods_in m.
Proof. apply pods_in_fmap. intros [pl pi]. by case_match. Qed.

(** Only [Close] closes a queue. *)
Lemma pq_exec_open less now q m op q' e :
  pq_inv now q m → all_parse m → op_ok op → op ≠ QClose → closed q = false →
  pq_exec less now q op = Some (q', e) → closed q' = false.
Proof.
  intros Hi Hp Hop Hc Ho E. destruct (pq_exec_spec less now q m op Hi Hp Hop) as (q1 & e1 & E1 & _ & _ & Hcnt).
  rewrite E in E1. injection E1 as <- <-. destruct (cnt_closed _ _ _ _ _ Hcnt); congruence.
Qed.

(** Every operation of [pq_exec] gives a law. *)
Lemma pq_exec_holds less now q m op s :
  pq_inv now q m → all_parse m → op_ok op → op ≠ QClose → closed q = false →
  pods_in (pq_after now (podBackoff q) (moveRequestCycle q) m op) = s →
  ∃ q' e, pq_exec less now q op = Some (q', e) ∧ pq_holds now q' s.
Proof.
  intros Hi Hp Hop Hc Ho Hs. destruct (pq_exec_spec less now q m op Hi Hp Hop) as (q' & e & E & Hi' & _).
  exists q', e. split; [done|]. split; [by eapply (pq_exec_open less now q m op)|].
  eexists. split_and!; [exact Hi'|by apply all_parse_after|done].
Qed.

Lemma Pop_open less q q' r : PriorityQueue_Pop less q = Some (q', r) → closed q = false → closed q' = false.
Proof.
  unfold PriorityQueue_Pop. intros E Ho. case_bool_decide; [rewrite Ho in E; by simplify_eq|].
  destruct (Heap_Pop _ _) as [[h [e|pi]]|]; simplify_eq/=; done.
Qed.

Lemma update_place_pod now m old new : pi_pod (update_place now m old new).2 = new.
Proof. unfold update_place. by cases. Qed.

#[export] Instance PriorityQueue_laws : SchedulingQueueLaws PriorityQueue.
Proof.
  apply (Build_SchedulingQueueLaws _ _ pq_holds pod_ok).
  - intros now now' q s Hle (Ho & m & Hi & ? & ?). split; [done|]. exists m. split_and!; try done. by eapply pq_inv_mono.
  - intros now q s id p (_ & m & Hi & Hp & ->) E. unfold pods_in in E.
    rewrite lookup_fmap, fmap_Some in E. destruct E as ([pl pi] & E & ->). simpl.
    pose proof (inv_ok _ _ _ Hi _ _ _ E) as [-> ?]. split; [done|]. split; [done|by eapply Hp].
  - intros now Hn. split; [done|]. exists ∅. split_and!; [apply (New_good activeQComp now Hn)..|]. unfold pods_in. by rewrite fmap_empty.
  - intros less now q s p (Ho & m & Hi & Hp & ->) Hok.
    destruct (pq_exec_holds less now q m (QAdd p) (<[pod_id p := p]> (pods_in m)) Hi Hp Hok ltac:(done) Ho) as (q' & e & E & Hq');
      [apply pods_in_insert|]. destruct (Add_spec less now q m p Hi) as (q1 & E1 & _); [apply Hok|].
    simpl in E. rewrite E1 in E. injection E as <- <-. by exists q1.
  - intros less now q s p (Ho & m & Hi & Hp & ->) Hok.
    destruct (pq_exec_holds less now q m (QAddIfNotPresent p) (pods_in m ∪ {[ pod_id p := p ]}) Hi Hp Hok ltac:(done) Ho) as (q' & e & E & Hq').
    { simpl. destruct (m !! pod_id p) as [[pl pi]|] eqn:Em.
      - apply map_eq. intros id. rewrite lookup_union. destruct (decide (id = pod_id p)) as [->|].
        + unfold pods_in. rewrite lookup_fmap, Em. simpl. by destruct ({[_ := _]} !! _).
        + rewrite lookup_singleton_ne by done. by destruct (pods_in m !! id).
      - rewrite pods_in_insert. apply insert_union_singleton_r. unfold pods_in. by rewrite lookup_fmap, Em. }
    destruct (AddIfNotPresent_spec less now q m p Hi) as (q1 & E1 & _); [apply Hok|].
    simpl in E. rewrite E1 in E. injection E as <- <-. by exists q1.
  - intros less now q s p cycle (Ho & m & Hi & Hp & ->) Hok Hnew.
    unfold pods_in in Hnew. rewrite lookup_fmap, fmap_None in Hnew.
    destruct (pq_exec_holds less now q m (QAddUnschedulable p cycle) (<[pod_id p := p]> (pods_in m)) Hi Hp Hok ltac:(done) Ho) as (q' & e & E & Hq').
    { simpl. rewrite Hnew. apply pods_in_insert. }
    destruct (AddUnschedulableIfNotPresent_spec less now q m p cycle Hi) as (q1 & e1 & E1 & _ & Hm); [apply Hok|].
    rewrite Hnew in Hm. destruct Hm as [-> _]. simpl in E. rewrite E1 in E. injection E as <- <-. by exists q1.
  - intros less now q s old new (Ho & m & Hi & Hp & ->) Hok Hok' Eid.
    destruct (pq_exec_holds less now q m (QUpdate old new) (<[pod_id new := new]> (pods_in m)) Hi Hp) as (q' & e & E & Hq'); [done|done|done| |].
    { simpl. unfold pods_in. rewrite fmap_insert. by rewrite update_place_pod. }
    destruct (Update_spec less now q m old new Hi) as (q1 & E1 & _); [apply Hok|apply Hok'|done|].
    simpl in E. rewrite E1 in E. injection E as <- <-. by exists q1.
  - intros less now q s p (Ho & m & Hi & Hp & ->) Hok.
    destruct (pq_exec_holds less now q m (QDelete p) (delete (pod_id p) (pods_in m)) Hi Hp Hok ltac:(done) Ho) as (q' & e & E & Hq').
    { simpl. unfold pods_in. by rewrite fmap_delete. }
    destruct (Delete_spec less now q m p Hi) as (q1 & E1 & _); [apply Hok|].
    simpl in E. rewrite E1 in E. injection E as <- <-. by exists q1.
  - intros less now q s (Ho & m & Hi & Hp & ->).
    destruct (pq_exec_holds less now q m QMoveAll (pods_in m) Hi Hp I ltac:(done) Ho) as (q' & e & E & Hq');
      [apply pods_in_move_if|].
    simpl in *. destruct (PriorityQueue_MoveAllToActiveQueue less now q); simplify_eq/=. eauto.
  - intros less now q s p (Ho & m & Hi & Hp & ->).
    destruct (pq_exec_holds less now q m (QAssignedAdded p) (pods_in m) Hi Hp I ltac:(done) Ho) as (q' & e & E & Hq');
      [apply pods_in_move_if|].
    destruct (AssignedPod_spec less now q m p Hi) as (q1 & E1 & E2 & _); [naive_solver|].
    simpl in *. rewrite E1 in E. injection E as <- <-. by exists q1.
  - intros less now q s (Ho & m & Hi & Hp & ->). simpl.
    destruct (Pop_spec less now q m Hi) as [(q' & pi & E & Em & Hi' & Hrest)|(_ & _ & ->)].
    + eexists _, _. split; [exact E|]. simpl. unfold pods_in. split; [by rewrite lookup_fmap, Em|].
      split; [by eapply Pop_open|]. eexists. split_and!; [exact Hi'| |by unfold pods_in; rewrite fmap_delete].
      intros id pl pi' [_ E']%lookup_delete_Some. by eapply Hp.
    + eexists _, _. split; [done|]. by rewrite Ho.
  - intros now q s (_ & m & Hi & Hp & ->). simpl.
    destruct (PendingPods_spec now q m Hi) as [Hnd Hin]. split; [done|]. intros p. rewrite Hin.
    unfold pods_in. rewrite lookup_fmap, fmap_Some. split.
    + intros (pl & t & E). by exists (pl, MkPodInfo p t).
    + intros ([pl [p' t]] & E & ->). eauto.
  - intros now q s p node (Ho & m & Hi & Hp & ->). split; [done|]. exists m. split_and!; [|done|done]. by eapply pq_inv_frame.
  - intros now q s p (Ho & m & Hi & Hp & ->). split; [done|]. exists m. split_and!; [|done|done]. by eapply pq_inv_frame.
  - intros less now q s f Hf (Ho & m & Hi & Hp & ->). simpl in Hf.
    assert (∃ op, (f less now q ≫= λ q, Some (q, None)) = pq_exec less now q op ∧ op_ok op ∧ op ≠ QClose ∧
      pods_in (pq_after now (podBackoff q) (moveRequestCycle q) m op) = pods_in m) as (op & E & Hop & Hne & Hm).
    { apply elem_of_cons in Hf as [->|Hf]; [|apply list_elem_of_singleton in Hf as ->].
      - exists QFlushBackoff. split_and!; [done|done|done|]. apply pods_in_fmap. intros e. unfold ready. by case_match.
      - exists QFlushUnschedulable. split_and!; [done|done|done|]. apply pods_in_move_if. }
    destruct (pq_exec_holds less now q m op _ Hi Hp Hop Hne Ho Hm) as (q' & e & E' & Hq').
    rewrite <-E in E'. destruct (f less now q); simplify_eq/=. eauto.
Defined.
End priority_queue_laws.

(** ** Concrete pool queues *)

Module PoolQueueExample.
#[local] Existing Instance docK8s.
#[local] Existing Instance docK8s_laws.
#[local] Existing Instance stdRange.

Definition mkPodIn (name uid pool : string) (prio : Z) : Pod :=
  MkPod (MkObjectMeta name "default" uid "1" 1 ∅ {[ GroupNameAnnotationKey := pool ]} 0 None 0%N)
        (MkPodSpec EmptyString "ai-scheduler" (Some prio) [] [] None ∅ [] [] 0%N) emptyStatus.

Lemma mkPodIn_ok name uid pool prio :
  no_char "/"%char name = true → no_char "_"%char name = true → pod_ok (mkPodIn name uid pool prio).
Proof. intros. by repeat split. Qed.

Definition podX := mkPodIn "x" "uid-x" "p" 10.
Definition podY := mkPodIn "y" "uid-y" "" 5.
Definition podZ := mkPodIn "z" "uid-z" "" 3.

Definition added (less : LessFunc) (now : Time) (q : PriorityQueue) (p : Pod) : PriorityQueue :=
  match sq_Add less now q p with Some (q', _) => q' | None => q end.

Lemma added_holds less now q s p :
  sq_holds now q s → pod_ok p → sq_holds now (added less now q p) (<[pod_id p := p]> s).
Proof. intros Hq Hp. unfold added. by destruct (sq_Add_law less now q s p Hq Hp) as (q' & -> & ?). Qed.

(** The default pool has [y]; pool [p] has its own pod [x] and the pod [z] of
    the default pool, which borrows it. *)
Definition pq0 : PoolQueue PriorityQueue :=
  MkPoolQueue (<["p" := sq_New]> {[ DefaultPoolName := sq_New ]})%string.
Definition q_default := added (poolQueuePodPriorityComp pq0 DefaultPoolName) 7 sq_New podY.
Definition q_p := added (poolQueuePodPriorityComp pq0 "p") 7
                    (added (poolQueuePodPriorityComp pq0 "p") 7 sq_New podX) podZ.
Definition pq1 : PoolQueue PriorityQueue :=
  MkPoolQueue (<["p" := q_p]> {[ DefaultPoolName := q_default ]})%string.
Definition pods_default : pods_of := <[pod_id podY := podY]> ∅.
Definition pods_p : pods_of := <[pod_id podZ := podZ]> (<[pod_id podX := podX]> ∅).
Definition S1 : gmap string pods_of := (<["p" := pods_p]> {[ DefaultPoolName := pods_default ]})%string.

Lemma pq1_holds : pool_holds 7 pq1 S1.
Proof.
  intros n. unfold pq1, S1. simpl. rewrite !lookup_insert. case_decide.
  - constructor. unfold q_p, pods_p. apply added_holds; [apply added_holds|];
      [by apply sq_New_law|by apply mkPodIn_ok..].
  - destruct (decide (DefaultPoolName = n)) as [<-|].
    + rewrite !lookup_singleton_eq. constructor. apply added_holds; [by apply sq_New_law|by apply mkPodIn_ok].
    + rewrite !lookup_singleton_ne by done. constructor.
Qed.

(** Pod [y] is popped from the default queue and nominated to node [n1]. *)
Definition in_flight : PoolQueue PriorityQueue :=
  match MakeNextPodFunc pq1 DefaultPoolName with
  | Some (pq, PopPod p) =>
      match PoolQueue_GetQueue pq DefaultPoolName with
      | inr q => PoolQueue_SetQueue pq DefaultPoolName (sq_UpdateNominatedPodForNode q p "n1")
      | inl _ => pq1
      end
  | _ => pq1
  end.

(** A nomination outlives its pod.  [PoolQueue.Delete] forwards to the
    queue that has the pod pending; for a pod that was popped and nominated to
    a node there is none, and the node keeps the nomination of the deleted pod,
    which [PriorityQueue.Delete] of the same queue would have removed. *)
Theorem Delete_keeps_nomination :
  PoolQueue_NominatedPodsForNode in_flight "n1" = [podY] ∧
  (∃ pq', PoolQueue_Delete in_flight podY = Some (pq', None) ∧
     PoolQueue_NominatedPodsForNode pq' "n1" = [podY]) ∧
  (∃ q q', PoolQueue_GetQueue in_flight DefaultPoolName = inr q ∧
     sq_Delete (poolQueuePodPriorityComp in_flight DefaultPoolName) q podY = Some (q', None) ∧
     sq_NominatedPodsForNode q' "n1" = []).
Proof.
  split; [vm_compute; reflexivity|]. split.
  - apply no_error_ex. vm_compute. reflexivity.
  - destruct (PoolQueue_GetQueue in_flight DefaultPoolName) as [e|q] eqn:E; [by vm_compute in E|]. exists q.
    cut (∃ q', sq_Delete (poolQueuePodPriorityComp in_flight DefaultPoolName) q podY = Some (q', None) ∧
               sq_NominatedPodsForNode q' "n1" = []); [naive_solver|].
    apply no_error_ex. vm_compute in E. injection E as <-. vm_compute. reflexivity.
Qed.

(** The default queue alone, with a pod of the pool [p] that has no queue yet. *)
Definition pq2 : PoolQueue PriorityQueue :=
  match (r ← PoolQueue_Add 7 NewPoolQueue podX; PoolQueue_Add 8 r.1 podY) with
  | Some (pq, _) => pq
  | None => NewPoolQueue
  end.
Definition pq3 : PoolQueue PriorityQueue := (PoolQueue_AddQueue pq2 "p").1.

(** Creating a queue reorders the other queues under their heaps.  The
    comparison of a queue reads which queues exist; after [AddQueue] of pool
    [p] the pod [y] of the default pool precedes the pod [x] of [p] in the
    default queue, and yet [Pop] returns [x] first. *)
Theorem AddQueue_breaks_order :
  poolQueuePodPriorityComp pq3 DefaultPoolName (MkPodInfo podY 8) (MkPodInfo podX 7) = true ∧
  snd <$> MakeNextPodFunc pq3 DefaultPoolName = Some (PopPod podX).
Proof. split; vm_compute; reflexivity. Qed.
End PoolQueueExample.
