(* ===== verification/Fifo.v ===== *)
(** * The FIFO queue (src/pkg/scheduler/internal/queue/scheduling_queue.go)

    The queue that is used when pod priorities are switched off, a wrapper of the FIFO of client-go.  That FIFO is a parameter with what its documentation
    promises; the wrapper then satisfies the contract of a scheduling queue, so that the theorems on the whole program hold for it as they do for the priority queue. *)
From S2P Require Import Prelude Heap Api Util Backoff SchedulingQueue SchedulingQueueProofs PoolQueue PoolQueueProofs.

(** ** cache.FIFO *)

Inductive FIFOPop := Item (pod : Pod) | FIFOClosedError | NotYet.
Class CacheFIFO := {
  fifo : Type;
  fifo_New : fifo;
  fifo_Add : fifo → Pod → fifo * option error;
  fifo_AddIfNotPresent : fifo → Pod → fifo * option error;
  fifo_Update : fifo → Pod → fifo * option error;
  fifo_Delete : fifo → Pod → fifo * option error;
  fifo_Pop : fifo → fifo * FIFOPop;
  fifo_List : fifo → list Pod;
  fifo_Close : fifo → fifo
}.
(** "An item is only enqueued if it does not already exist in the set", and "the most recent version will be processed": the pods by their names. *)
Class CacheFIFOLaws {F : CacheFIFO} := {
  fifo_ok : fifo → Prop;
  items : fifo → pods_of;
  is_closed : fifo → bool;
  items_keyed f : fifo_ok f → map_Forall (λ id p, id = pod_id p) (items f);
  New_items : fifo_ok fifo_New ∧ items fifo_New = ∅ ∧ is_closed fifo_New = false;
  Add_items f p : fifo_ok f → ∃ f', fifo_Add f p = (f', None) ∧ fifo_ok f' ∧ items f' = <[pod_id p := p]> (items f) ∧ is_closed f' = is_closed f;
  AddIfNotPresent_items f p : fifo_ok f → ∃ f', fifo_AddIfNotPresent f p = (f', None) ∧ fifo_ok f' ∧ items f' = items f ∪ {[ pod_id p := p ]} ∧ is_closed f' = is_closed f;
  Update_items f p : fifo_Update f p = fifo_Add f p;
  Delete_items f p : fifo_ok f → ∃ f', fifo_Delete f p = (f', None) ∧ fifo_ok f' ∧ items f' = delete (pod_id p) (items f) ∧ is_closed f' = is_closed f;
  Pop_items f : fifo_ok f → is_closed f = false → match fifo_Pop f with
    | (f', Item p) => items f !! pod_id p = Some p ∧ fifo_ok f' ∧ items f' = delete (pod_id p) (items f) ∧ is_closed f' = false
    | (f', FIFOClosedError) => False
    | (f', NotYet) => f' = f ∧ items f = ∅
    end;
  List_items f : fifo_ok f → fifo_List f ≡ₚ (map_to_list (items f)).*2
}.

(** ** The wrapper *)

Section fifo.
Context `{CacheFIFO}.
Record FIFO := MkFIFO { f_FIFO : fifo }.
Implicit Types (f : FIFO) (pod : Pod).

Definition lift (x : fifo * option error) : comp (FIFO * option error) := Some (MkFIFO x.1, x.2).
Definition NewFIFO : FIFO := MkFIFO fifo_New.
Definition FIFO_Add f pod : comp (FIFO * option error) := lift (fifo_Add (f_FIFO f) pod).
Definition FIFO_AddIfNotPresent f pod : comp (FIFO * option error) := lift (fifo_AddIfNotPresent (f_FIFO f) pod).
Definition FIFO_AddUnschedulableIfNotPresent f pod (podSchedulingCycle : Z) : comp (FIFO * option error) := lift (fifo_AddIfNotPresent (f_FIFO f) pod).
Definition FIFO_SchedulingCycle f : Z := 0.
Definition FIFO_Update f (oldPod : option Pod) (newPod : Pod) : comp (FIFO * option error) := lift (fifo_Update (f_FIFO f) newPod).
Definition FIFO_Delete f pod : comp (FIFO * option error) := lift (fifo_Delete (f_FIFO f) pod).
Definition FIFO_Pop f : comp (FIFO * PopResult) :=
  let '(q, r) := fifo_Pop (f_FIFO f) in
  Some (MkFIFO q, match r with Item pod => PopPod pod | FIFOClosedError => PopError "scheduling queue is closed" | NotYet => PopWait end).
Definition FIFO_PendingPods f : list Pod := fifo_List (f_FIFO f).
Definition FIFO_AssignedPodAdded f pod : FIFO := f.
Definition FIFO_AssignedPodUpdated f pod : FIFO := f.
Definition FIFO_MoveAllToActiveQueue f : FIFO := f.
Definition FIFO_NominatedPodsForNode f (nodeName : string) : list Pod := [].
Definition FIFO_Close f : FIFO := MkFIFO (fifo_Close (f_FIFO f)).
Definition FIFO_DeleteNominatedPodIfExists f pod : FIFO := f.
Definition FIFO_UpdateNominatedPodForNode f pod (nodeName : string) : FIFO := f.
Definition FIFO_NumUnschedulablePods f : nat := O.
Definition FIFO_NumActivePods f : nat := O.
Definition FIFO_NumBackoffPods f : nat := O.

#[export] Instance FIFO_SchedulingQueue : SchedulingQueue FIFO := {|
  sq_New := NewFIFO;
  sq_Add _ _ := FIFO_Add;
  sq_AddIfNotPresent _ _ := FIFO_AddIfNotPresent;
  sq_AddUnschedulableIfNotPresent _ _ := FIFO_AddUnschedulableIfNotPresent;
  sq_SchedulingCycle := FIFO_SchedulingCycle;
  sq_Pop _ := FIFO_Pop;
  sq_Update _ _ := FIFO_Update;
  sq_Delete _ := FIFO_Delete;
  sq_MoveAllToActiveQueue _ _ f := Some (FIFO_MoveAllToActiveQueue f);
  sq_AssignedPodAdded _ _ f p := Some (FIFO_AssignedPodAdded f p);
  sq_AssignedPodUpdated _ _ f p := Some (FIFO_AssignedPodUpdated f p);
  sq_NominatedPodsForNode := FIFO_NominatedPodsForNode;
  sq_PendingPods := FIFO_PendingPods;
  sq_Close := FIFO_Close;
  sq_UpdateNominatedPodForNode := FIFO_UpdateNominatedPodForNode;
  sq_DeleteNominatedPodIfExists := FIFO_DeleteNominatedPodIfExists;
  sq_NumUnschedulablePods := FIFO_NumUnschedulablePods;
  sq_NumActivePods := FIFO_NumActivePods;
  sq_NumBackoffPods := FIFO_NumBackoffPods;
  sq_run := []
|}.

(** ** The contract *)

Context {Laws : CacheFIFOLaws}.
Definition fifo_holds (now : Time) f (s : pods_of) : Prop := items (f_FIFO f) = s ∧ is_closed (f_FIFO f) = false ∧ fifo_ok (f_FIFO f).
Lemma keyed_names (s : pods_of) : map_Forall (λ id p, id = pod_id p) s → pod_id <$> (map_to_list s).*2 = (map_to_list s).*1.
Proof.
  intros Hs. rewrite <- list_fmap_compose. apply list_fmap_ext. intros i [id p] Hi. apply list_elem_of_lookup_2, elem_of_map_to_list in Hi. symmetry. by apply (Hs id p).
Qed.

(** The FIFO is a scheduling queue: what it holds is a map from names to pods, and no pod is lost. *)
#[export] Instance FIFO_laws : SchedulingQueueLaws FIFO.
Proof.
  apply (Build_SchedulingQueueLaws _ _ fifo_holds (λ _, True)).
  - done.
  - intros now f s id p (<- & _ & Hk) E. split; [by apply (items_keyed _ Hk)|done].
  - intros now _. destruct New_items as (E1 & E2 & E3). by split_and!.
  - intros less now f s p (<- & Hc & Hk) _. destruct (Add_items (f_FIFO f) p Hk) as (f' & E & Hk' & Ei & Ec). exists (MkFIFO f'). split; [cbn; unfold FIFO_Add; by rewrite E|].
    split_and!; cbn; [done|by rewrite Ec|done].
  - intros less now f s p (<- & Hc & Hk) _. destruct (AddIfNotPresent_items (f_FIFO f) p Hk) as (f' & E & Hk' & Ei & Ec). exists (MkFIFO f'). split; [cbn; unfold FIFO_AddIfNotPresent; by rewrite E|].
    split_and!; cbn; [done|by rewrite Ec|done].
  - intros less now f s p cycle (<- & Hc & Hk) _ Hnew. destruct (AddIfNotPresent_items (f_FIFO f) p Hk) as (f' & E & Hk' & Ei & Ec). exists (MkFIFO f'). split; [cbn; unfold FIFO_AddUnschedulableIfNotPresent; by rewrite E|].
    rewrite <- insert_union_singleton_r in Ei by done. split_and!; cbn; [done|by rewrite Ec|done].
  - intros less now f s old new (<- & Hc & Hk) _ _ _. destruct (Add_items (f_FIFO f) new Hk) as (f' & E & Hk' & Ei & Ec). exists (MkFIFO f'). split; [cbn; unfold FIFO_Update; by rewrite Update_items, E|].
    split_and!; cbn; [done|by rewrite Ec|done].
  - intros less now f s p (<- & Hc & Hk) _. destruct (Delete_items (f_FIFO f) p Hk) as (f' & E & Hk' & Ei & Ec). exists (MkFIFO f'). split; [cbn; unfold FIFO_Delete; by rewrite E|].
    split_and!; cbn; [done|by rewrite Ec|done].
  - intros less now f s Hf. by exists f.
  - intros less now f s p Hf. by exists f.
  - intros less now f s (<- & Hc & Hk). cbn. unfold FIFO_Pop. pose proof (Pop_items (f_FIFO f) Hk Hc) as Hp. destruct (fifo_Pop (f_FIFO f)) as [q [p| |]]; [|done|].
    + destruct Hp as (E & Hk' & Ei & Ec). eexists _, _. split; [done|]. split; [done|]. by split_and!.
    + destruct Hp as [-> _]. eexists _, _. split; [done|]. by destruct f.
  - intros now f s (<- & Hc & Hk). pose proof (items_keyed _ Hk) as Hkey. cbn. unfold FIFO_PendingPods. split.
    + rewrite List_items, keyed_names by done. apply NoDup_fst_map_to_list.
    + intros p. rewrite List_items, list_elem_of_fmap by done. split.
      * intros ([id q] & -> & Hq%elem_of_map_to_list). cbn. by rewrite <- (Hkey id q Hq).
      * intros E. exists (pod_id p, p). split; [done|]. by apply elem_of_map_to_list.
  - done.
  - done.
  - intros less now f s g Hg. by apply not_elem_of_nil in Hg.
Qed.
End fifo.

(** ** A FIFO: the pods in the order of their arrival *)
Module FifoExample.
Record queue := MkQueue { q_pods : list Pod; q_closed : bool }.
Definition has (q : queue) (p : Pod) : bool := existsb (λ x, bool_decide (pod_id x = pod_id p)) (q_pods q).
Definition put (q : queue) (p : Pod) : queue * option error :=
  (MkQueue (if has q p then map (λ x, if bool_decide (pod_id x = pod_id p) then p else x) (q_pods q) else q_pods q ++ [p]) (q_closed q), None).
Definition put_new (q : queue) (p : Pod) : queue * option error := if has q p then (q, None) else put q p.
#[local] Instance listFIFO : CacheFIFO := {|
  fifo := queue;
  fifo_New := MkQueue [] false;
  fifo_Add := put;
  fifo_AddIfNotPresent := put_new;
  fifo_Update := put;
  fifo_Delete q p := (MkQueue (filter (λ x, pod_id x ≠ pod_id p) (q_pods q)) (q_closed q), None);
  fifo_Pop q := match q_pods q with p :: l => (MkQueue l (q_closed q), Item p) | [] => (q, if q_closed q then FIFOClosedError else NotYet) end;
  fifo_List := q_pods;
  fifo_Close q := MkQueue (q_pods q) true
|}.
(** It keeps the promises. *)
Definition list_items (q : queue) : pods_of := list_to_map ((λ p, (pod_id p, p)) <$> q_pods q).
Definition list_ok (q : queue) : Prop := NoDup (pod_id <$> q_pods q).
Lemma list_ids (l : list Pod) : ((λ p, (pod_id p, p)) <$> l).*1 = pod_id <$> l.
Proof. rewrite <- list_fmap_compose. done. Qed.
Lemma list_items_Some (q : queue) id p : list_ok q → list_items q !! id = Some p ↔ p ∈ q_pods q ∧ id = pod_id p.
Proof.
  intros Hq. unfold list_items. rewrite <- elem_of_list_to_map by (by rewrite list_ids). rewrite list_elem_of_fmap. naive_solver.
Qed.
(** Two queues whose maps are to be compared by their pods. *)
Lemma list_items_is (q : queue) (m : pods_of) : list_ok q → (∀ id p, m !! id = Some p ↔ p ∈ q_pods q ∧ id = pod_id p) → list_items q = m.
Proof. intros Hq Hm. apply map_eq. intros id. apply option_eq. intros p. by rewrite list_items_Some, Hm. Qed.
Lemma has_spec (q : queue) p : has q p = true ↔ pod_id p ∈ pod_id <$> q_pods q.
Proof.
  unfold has. rewrite existsb_exists, list_elem_of_fmap. split.
  - intros (x & Hx & E%bool_decide_eq_true). exists x. by rewrite list_elem_of_In.
  - intros (x & E & Hx). exists x. rewrite <- list_elem_of_In. split; [done|]. by apply bool_decide_eq_true.
Qed.
Lemma replace_ids p l : pod_id <$> map (λ x, if bool_decide (pod_id x = pod_id p) then p else x) l = pod_id <$> l.
Proof. induction l as [|x l IH]; [done|]. cbn. f_equal; [|exact IH]. by case_bool_decide. Qed.
Lemma put_ok (q : queue) p : list_ok q → list_ok (put q p).1 ∧ list_items (put q p).1 = <[pod_id p := p]> (list_items q).
Proof.
  intros Hq. assert (list_ok (put q p).1) as Hq'.
  { unfold list_ok, put. cbn. destruct (has q p) eqn:E; [by rewrite replace_ids|]. rewrite fmap_app. apply NoDup_app. split_and!; [done| |apply NoDup_singleton].
    intros id Hid ->%list_elem_of_singleton. apply has_spec in Hid. by rewrite E in Hid. }
  split; [done|]. apply list_items_is; [done|]. intros id x. rewrite lookup_insert_Some, list_items_Some by done. unfold put. cbn. destruct (has q p) eqn:E.
  - rewrite list_elem_of_fmap. apply has_spec, list_elem_of_fmap in E as (y & Ey & Hy). split.
    + intros [[<- <-]|[Hne [Hx ->]]]; [split; [|done]; exists y; by rewrite bool_decide_true by done|]. split; [|done]. exists x. by rewrite bool_decide_false by done.
    + intros [(z & -> & Hz) ->]. case_bool_decide; [by left|right]. naive_solver.
  - rewrite elem_of_app, list_elem_of_singleton. split; [naive_solver|]. intros [[Hx| ->] ->]; [|by left]. right. split; [|done]. intros Ep.
    assert (has q p = true) as Eh by (apply has_spec, list_elem_of_fmap; by exists x). by rewrite E in Eh.
Qed.
Lemma filter_ids id (l : list Pod) : NoDup (pod_id <$> l) → NoDup (pod_id <$> filter (λ x, pod_id x ≠ id) l).
Proof.
  induction l as [|x l IH]; [done|]. intros [Hx Hl]%NoDup_cons. rewrite filter_cons. case_decide; [|by apply IH]. apply NoDup_cons. split; [|by apply IH].
  intros (y & E & [_ Hy]%list_elem_of_filter)%list_elem_of_fmap. apply Hx, list_elem_of_fmap. by exists y.
Qed.
#[local] Instance listFIFO_laws : @CacheFIFOLaws listFIFO.
Proof.
  apply (@Build_CacheFIFOLaws listFIFO list_ok list_items q_closed).
  - intros q Hq id p Hp. by apply list_items_Some in Hp as [_ ->].
  - split_and!; [apply NoDup_nil_2|done|done].
  - intros q p Hq. exists (put q p).1. destruct (put_ok q p Hq). by split_and!.
  - intros q p Hq. change (fifo_AddIfNotPresent q p) with (put_new q p). unfold put_new. destruct (has q p) eqn:E.
    + exists q. split_and!; [done|done| |done]. apply list_items_is; [done|]. intros id x. rewrite lookup_union_Some_raw, list_items_Some, lookup_singleton_Some by done. split; [|tauto].
      intros [?|[Hn [<- <-]]]; [done|]. exfalso. apply has_spec, list_elem_of_fmap in E as (y & Ey & Hy). by rewrite (proj2 (list_items_Some q (pod_id p) y Hq)) in Hn.
    + exists (put q p).1. destruct (put_ok q p Hq) as [H1 H2]. split_and!; [done|done| |done]. rewrite H2. apply insert_union_singleton_r.
      destruct (list_items q !! pod_id p) as [y|] eqn:Ey; [|done]. apply list_items_Some in Ey as [Hy Ey]; [|done].
      assert (has q p = true) as Eh by (apply has_spec, list_elem_of_fmap; by exists y). by rewrite E in Eh.
  - done.
  - intros q p Hq. eexists. assert (list_ok (MkQueue (filter (λ x, pod_id x ≠ pod_id p) (q_pods q)) (q_closed q))) as Hq' by by apply filter_ids.
    split_and!; [done|done| |done]. apply list_items_is; [done|]. intros id x. cbn [q_pods]. rewrite lookup_delete_Some, list_items_Some, list_elem_of_filter by done. naive_solver.
  - intros [l c] Hq E. cbn [q_closed] in E. subst c. destruct l as [|p l]; [done|].
    cbn [fifo_Pop listFIFO q_pods q_closed]. assert (list_ok (MkQueue l false)) as Hq' by (by apply NoDup_cons in Hq as [_ ?]).
    split; [apply list_items_Some; [done|]; split; [left|done]|]. split; [done|]. split; [|done]. apply list_items_is; [done|]. intros id x. rewrite lookup_delete_Some, list_items_Some by done. cbn [q_pods]. rewrite elem_of_cons. split.
    + naive_solver.
    + intros [Hx ->]. split; [|auto]. intros E. apply NoDup_cons in Hq as [Hp _]. apply Hp. change (pod_id p ∈ pod_id <$> l). rewrite E. by apply list_elem_of_fmap_2.
  - intros q Hq. cbn. unfold list_items. rewrite map_to_list_to_map by (by rewrite list_ids). rewrite <- list_fmap_compose. cbn. by rewrite list_fmap_id.
Qed.
Definition mk (name : string) (priority : Z) : Pod :=
  MkPod (MkObjectMeta name "default" name EmptyString 0 ∅ ∅ 0 None 0) (MkPodSpec EmptyString EmptyString (Some priority) [] [] None ∅ [] [] 0) (MkPodStatus EmptyString [] 0).
(** The first pod that came is served, although the second one is more important. *)
Example first_come : ∃ q, (r ← FIFO_Add NewFIFO (mk "a" 1); r ← FIFO_Add r.1 (mk "b" 9); FIFO_Pop r.1) = Some (q, PopPod (mk "a" 1)).
Proof. eexists. vm_compute. reflexivity. Qed.
End FifoExample.
