(* ===== verification/Resource.v ===== *)
(** * Resources (src/pkg/scheduler/info/node_info.go, info/util.go,
    algorithm/priorities/util/non_zero.go)

    A [Resource] is a vector of 64-bit quantities; all arithmetic wraps around.
    A nil map of scalar resources reads like an empty one, so both are [∅].  An
    operation on an empty entry leaves an explicit zero behind; two resources
    that differ in such zeros are equivalent ([≡]). *)
From S2P Require Import Prelude Heap Api.

Record Resource := MkResource {
  MilliCPU : Z;
  Memory : Z;
  EphemeralStorage : Z;
  AllowedPodNumber : Z;
  ScalarResources : gmap string Z
}.
Definition emptyResource : Resource := MkResource 0 0 0 0 ∅.

#[global] Instance Resource_eq_dec : EqDecision Resource.
Proof. solve_decision. Defined.

(** [m[k]] of a map to integers. *)
Definition at0 (m : gmap string Z) (k : string) : Z := default 0 (m !! k).

Definition SetScalar (r : Resource) (name : string) (quantity : Z) : Resource :=
  MkResource (MilliCPU r) (Memory r) (EphemeralStorage r) (AllowedPodNumber r)
    (<[name := quantity]> (ScalarResources r)).

Definition AddScalar (r : Resource) (name : string) (quantity : Z) : Resource :=
  SetScalar r name (add64 (at0 (ScalarResources r) name) quantity).

Section resource.
Context `{K8sLib} `{MapRange}.
Implicit Types (r rr : Resource) (rl : ResourceList).

(** One iteration of [Resource.Add]. *)
Definition Resource_Add1 r (e : string * Quantity) : Resource :=
  let '(rName, rQuant) := e in
  if bool_decide (rName = ResourceCPU) then
    MkResource (add64 (MilliCPU r) (Quantity_MilliValue rQuant)) (Memory r) (EphemeralStorage r)
      (AllowedPodNumber r) (ScalarResources r)
  else if bool_decide (rName = ResourceMemory) then
    MkResource (MilliCPU r) (add64 (Memory r) (Quantity_Value rQuant)) (EphemeralStorage r)
      (AllowedPodNumber r) (ScalarResources r)
  else if bool_decide (rName = ResourcePods) then
    MkResource (MilliCPU r) (Memory r) (EphemeralStorage r)
      (add64 (AllowedPodNumber r) (Quantity_Value rQuant)) (ScalarResources r)
  else if bool_decide (rName = ResourceEphemeralStorage) then
    MkResource (MilliCPU r) (Memory r) (add64 (EphemeralStorage r) (Quantity_Value rQuant))
      (AllowedPodNumber r) (ScalarResources r)
  else if IsScalarResourceName rName then AddScalar r rName (Quantity_Value rQuant)
  else r.

Definition Resource_Add r rl : Resource := foldl Resource_Add1 r (range rl).

Definition NewResource rl : Resource := Resource_Add emptyResource rl.

(** The loop [for rName, rQuant := range rr.ScalarResources] that updates the
    entries of another map. *)
Definition scalars_update (f : Z → Z → Z) (m m' : gmap string Z) : gmap string Z :=
  foldl (λ m e, <[e.1 := f (at0 m e.1) e.2]> m) m (range m').

(** A nil argument or receiver is [None]. *)
Definition Resource_Plus (r rr : option Resource) : option Resource :=
  match r, rr with
  | Some r, Some rr =>
      Some (MkResource (add64 (MilliCPU r) (MilliCPU rr)) (add64 (Memory r) (Memory rr))
              (add64 (EphemeralStorage r) (EphemeralStorage rr))
              (add64 (AllowedPodNumber r) (AllowedPodNumber rr))
              (scalars_update add64 (ScalarResources r) (ScalarResources rr)))
  | _, _ => r
  end.

Definition Resource_Sub (r rr : option Resource) : option Resource :=
  match r, rr with
  | Some r, Some rr =>
      Some (MkResource (sub64 (MilliCPU r) (MilliCPU rr)) (sub64 (Memory r) (Memory rr))
              (sub64 (EphemeralStorage r) (EphemeralStorage rr))
              (sub64 (AllowedPodNumber r) (AllowedPodNumber rr))
              (scalars_update sub64 (ScalarResources r) (ScalarResources rr)))
  | _, _ => r
  end.

Definition Resource_Clone r : Resource := r.

Definition Resource_ResourceList r : ResourceList :=
  foldl (λ m e, <[e.1 := NewQuantity e.2]> m)
    (<[ResourceEphemeralStorage := NewQuantity (EphemeralStorage r)]>
      (<[ResourcePods := NewQuantity (AllowedPodNumber r)]>
        (<[ResourceMemory := NewQuantity (Memory r)]>
          {[ ResourceCPU := NewMilliQuantity (MilliCPU r) ]})))
    (range (ScalarResources r)).

(** One iteration of [SetMaxResource]. *)
Definition SetMaxResource1 r (e : string * Quantity) : Resource :=
  let '(rName, rQuantity) := e in
  if bool_decide (rName = ResourceMemory) then
    if Memory r <? Quantity_Value rQuantity then
      MkResource (MilliCPU r) (Quantity_Value rQuantity) (EphemeralStorage r) (AllowedPodNumber r)
        (ScalarResources r)
    else r
  else if bool_decide (rName = ResourceCPU) then
    if MilliCPU r <? Quantity_MilliValue rQuantity then
      MkResource (Quantity_MilliValue rQuantity) (Memory r) (EphemeralStorage r) (AllowedPodNumber r)
        (ScalarResources r)
    else r
  else if bool_decide (rName = ResourceEphemeralStorage) then
    if EphemeralStorage r <? Quantity_Value rQuantity then
      MkResource (MilliCPU r) (Memory r) (Quantity_Value rQuantity) (AllowedPodNumber r)
        (ScalarResources r)
    else r
  else if IsScalarResourceName rName then
    let value := Quantity_Value rQuantity in
    if at0 (ScalarResources r) rName <? value then SetScalar r rName value else r
  else r.

Definition SetMaxResource r rl : Resource := foldl SetMaxResource1 r (range rl).

Definition Resource_GetValue (r : option Resource) (name : string) : Z :=
  match r with
  | None => 0
  | Some r =>
      if bool_decide (name = EmptyString) then 0
      else match Resource_ResourceList r !! name with
           | None => 0
           | Some res => if bool_decide (name = ResourceCPU) then Quantity_MilliValue res
                         else Quantity_Value res
           end
  end.

Definition Resource_SetValue r (name : string) (value : Z) : Resource :=
  if bool_decide (name = EmptyString) || (value <? 0) then r
  else if bool_decide (name = ResourceCPU) then
    MkResource value (Memory r) (EphemeralStorage r) (AllowedPodNumber r) (ScalarResources r)
  else if bool_decide (name = ResourceMemory) then
    MkResource (MilliCPU r) value (EphemeralStorage r) (AllowedPodNumber r) (ScalarResources r)
  else if bool_decide (name = ResourceEphemeralStorage) then
    MkResource (MilliCPU r) (Memory r) value (AllowedPodNumber r) (ScalarResources r)
  else if bool_decide (name = ResourcePods) then
    MkResource (MilliCPU r) (Memory r) (EphemeralStorage r) value (ScalarResources r)
  else SetScalar r name value.

Definition ResourceNames (r : option Resource) : list string :=
  match r with None => [] | Some r => (range (Resource_ResourceList r)).*1 end.

Definition LessOrEqual r rr : bool :=
  if negb ((MilliCPU r <=? MilliCPU rr) && (Memory r <=? Memory rr) &&
           (EphemeralStorage r <=? EphemeralStorage rr) &&
           (AllowedPodNumber r <=? AllowedPodNumber rr)) then false
  else forallb (λ e, negb (at0 (ScalarResources rr) e.1 <? e.2)) (range (ScalarResources r)).

(** ** priorities/util/non_zero.go *)

Definition DefaultMilliCPURequest : Z := 100.
Definition DefaultMemoryRequest : Z := 200 * 1024 * 1024.

Definition GetNonzeroRequests (requests : ResourceList) : Z * Z :=
  (match requests !! ResourceCPU with
   | None => DefaultMilliCPURequest
   | Some q => Quantity_MilliValue q
   end,
   match requests !! ResourceMemory with
   | None => DefaultMemoryRequest
   | Some q => Quantity_Value q
   end).

(** ** info/util.go *)

(** [result.AllowedPodNumber += 1] *)
Definition one_pod r : Resource :=
  MkResource (MilliCPU r) (Memory r) (EphemeralStorage r) (add64 (AllowedPodNumber r) 1)
    (ScalarResources r).

Definition GetResourceRequestForPool (pod : Pod) : Resource :=
  one_pod (foldl (λ r c, Resource_Add r (Requests c)) emptyResource (pod_Containers pod)).

Definition CalculatePodRequestResource (pod : Pod) : Resource :=
  let result := foldl (λ r c, Resource_Add r (Requests c)) emptyResource (pod_Containers pod) in
  one_pod (foldl (λ r c, SetMaxResource r (Requests c)) result (InitContainers (pod_Spec pod))).

Definition CalculateSumPodsRequestResource (pods : list Pod) : option Resource :=
  foldl (λ sum pod, Resource_Plus sum (Some (CalculatePodRequestResource pod))) (Some emptyResource) pods.

Definition SliceContainsString (slice : list string) (s : string) : bool :=
  existsb (λ item, bool_decide (item = s)) slice.

(** ** node_info.go: calculateResource *)

Definition calculateResource (pod : Pod) : Resource * Z * Z :=
  foldl (λ a c,
    let '(res, non0CPU, non0Mem) := a in
    let '(cpu, mem) := GetNonzeroRequests (Requests c) in
    (Resource_Add res (Requests c), add64 non0CPU cpu, add64 non0Mem mem))
  (emptyResource, 0, 0) (pod_Containers pod).

End resource.

(** ** Equivalence up to explicit zeros *)

#[export] Instance Resource_equiv : Equiv Resource := λ r rr,
  MilliCPU r = MilliCPU rr ∧ Memory r = Memory rr ∧ EphemeralStorage r = EphemeralStorage rr ∧
  AllowedPodNumber r = AllowedPodNumber rr ∧
  ∀ k, at0 (ScalarResources r) k = at0 (ScalarResources rr) k.

#[export] Instance Resource_equivalence : Equivalence (≡@{Resource}).
Proof.
  split.
  - by intros r.
  - intros r rr (? & ? & ? & ? & ?). split_and!; try done; intros; by symmetry.
  - intros r1 r2 r3 (? & ? & ? & ? & E1) (? & ? & ? & ? & E2). split_and!; try congruence.
Qed.

(** Every quantity is a 64-bit integer. *)
Definition resource_int64 (r : Resource) : Prop :=
  int64 (MilliCPU r) ∧ int64 (Memory r) ∧ int64 (EphemeralStorage r) ∧ int64 (AllowedPodNumber r) ∧
  ∀ k, int64 (at0 (ScalarResources r) k).

(** ** Loops over a map

    A loop that updates entry [k] from entry [k] alone gives the same result in
    every order. *)
Lemma foldl_update (f : Z → Z → Z) (l : list (string * Z)) m k :
  NoDup l.*1 →
  foldl (λ m e, <[e.1 := f (at0 m e.1) e.2]> m) m l !! k =
    match (list_to_map l : gmap string Z) !! k with
    | Some v => Some (f (at0 m k) v)
    | None => m !! k
    end.
Proof.
  revert m. induction l as [|[k' v] l IH]; intros m; simpl; [done|]. intros [Hn Hnd]%NoDup_cons.
  rewrite IH by done. unfold at0. rewrite !lookup_insert. case_decide as E.
  - subst. simpl in Hn. by rewrite (not_elem_of_list_to_map_1 l) by done.
  - done.
Qed.

Section resource_laws.
Context {K8s : K8sLib} {Laws : K8sLaws} {Range : MapRange}.
Implicit Types (r rr : Resource).

Lemma scalars_update_lookup f m m' k :
  scalars_update f m m' !! k = match m' !! k with Some v => Some (f (at0 m k) v) | None => m !! k end.
Proof.
  unfold scalars_update. rewrite foldl_update.
  - rewrite (list_to_map_proper (range m') (map_to_list m')), list_to_map_to_list; [done| |apply range_perm].
    rewrite range_perm. apply NoDup_fst_map_to_list.
  - rewrite range_perm. apply NoDup_fst_map_to_list.
Qed.

Lemma scalars_add m m' k :
  int64 (at0 m k) → at0 (scalars_update add64 m m') k = add64 (at0 m k) (at0 m' k).
Proof.
  intros Hi. unfold at0 at 1. rewrite scalars_update_lookup. unfold at0 at 3.
  destruct (m' !! k); [done|]. simpl. unfold add64. rewrite Z.add_0_r, wrap64_id by done. done.
Qed.
Lemma scalars_sub m m' k :
  int64 (at0 m k) → at0 (scalars_update sub64 m m') k = sub64 (at0 m k) (at0 m' k).
Proof.
  intros Hi. unfold at0 at 1. rewrite scalars_update_lookup. unfold at0 at 3.
  destruct (m' !! k); [done|]. simpl. unfold sub64. rewrite Z.sub_0_r, wrap64_id by done. done.
Qed.

Lemma scalars_update_int64 f m m' k :
  (∀ x y, int64 (f x y)) → int64 (at0 m k) → int64 (at0 (scalars_update f m m') k).
Proof.
  intros Hf Hi. unfold at0. rewrite scalars_update_lookup. destruct (m' !! k); simpl; [apply Hf|apply Hi].
Qed.

(** Sum and difference as functions. *)
Definition rplus r rr : Resource := default r (Resource_Plus (Some r) (Some rr)).
Definition rminus r rr : Resource := default r (Resource_Sub (Some r) (Some rr)).

Lemma rplus_int64 r rr : resource_int64 r → resource_int64 (rplus r rr).
Proof.
  intros (? & ? & ? & ? & ?). split_and!; simpl; auto with sched.
  intros k. apply scalars_update_int64; auto with sched.
Qed.
Lemma rminus_int64 r rr : resource_int64 r → resource_int64 (rminus r rr).
Proof.
  intros (? & ? & ? & ? & ?). split_and!; simpl; auto with sched.
  intros k. apply scalars_update_int64; auto with sched.
Qed.

Lemma rplus_rminus r rr : resource_int64 r → rminus (rplus r rr) rr ≡ r.
Proof.
  intros Hr. pose proof Hr as (? & ? & ? & ? & Hs). split_and!; simpl; try by apply sub64_add64.
  intros k. rewrite scalars_sub by (apply (rplus_int64 r rr Hr)).
  simpl. by rewrite scalars_add, sub64_add64.
Qed.
Lemma rminus_rplus r rr : resource_int64 r → rplus (rminus r rr) rr ≡ r.
Proof.
  intros Hr. pose proof Hr as (? & ? & ? & ? & Hs). split_and!; simpl; try by apply add64_sub64.
  intros k. rewrite scalars_add by (apply (rminus_int64 r rr Hr)).
  simpl. by rewrite scalars_sub, add64_sub64.
Qed.

Lemma rplus_comm r rr : resource_int64 r → resource_int64 rr → rplus r rr ≡ rplus rr r.
Proof.
  intros (? & ? & ? & ? & Hr) (? & ? & ? & ? & Hrr). split_and!; simpl; try apply add64_comm.
  intros k. rewrite !scalars_add by done. apply add64_comm.
Qed.

Lemma rplus_assoc r1 r2 r3 :
  resource_int64 r1 → resource_int64 r2 → rplus r1 (rplus r2 r3) ≡ rplus (rplus r1 r2) r3.
Proof.
  intros H1 H2. split_and!; simpl; try apply add64_assoc.
  intros k. rewrite scalars_add by apply H1. rewrite scalars_add by apply H2.
  rewrite scalars_add by (apply (rplus_int64 r1 r2 H1)). simpl. rewrite scalars_add by apply H1.
  apply add64_assoc.
Qed.

(** Exchanging an addition and a subtraction. *)
Lemma rminus_rplus_swap r a b :
  resource_int64 r → rminus (rplus r a) b ≡ rplus (rminus r b) a.
Proof.
  intros Hr. split_and!; simpl; try wrap_eq.
  intros k. rewrite scalars_sub by (apply (rplus_int64 r a Hr)). simpl. rewrite scalars_add by apply Hr.
  rewrite scalars_add by (apply (rminus_int64 r b Hr)). simpl. rewrite scalars_sub by apply Hr. wrap_eq.
Qed.

(** Equivalence with 64-bit entries is a congruence for sums. *)
Lemma rplus_proper r r' rr rr' :
  resource_int64 r → resource_int64 r' → r ≡ r' → rr ≡ rr' → rplus r rr ≡ rplus r' rr'.
Proof.
  intros (_ & _ & _ & _ & H1) (_ & _ & _ & _ & H2) (E1 & E2 & E3 & E4 & Es) (F1 & F2 & F3 & F4 & Fs).
  split_and!; simpl; try congruence. intros k. rewrite !scalars_add by done. by rewrite Es, Fs.
Qed.
Lemma rminus_proper r r' rr rr' :
  resource_int64 r → resource_int64 r' → r ≡ r' → rr ≡ rr' → rminus r rr ≡ rminus r' rr'.
Proof.
  intros (_ & _ & _ & _ & H1) (_ & _ & _ & _ & H2) (E1 & E2 & E3 & E4 & Es) (F1 & F2 & F3 & F4 & Fs).
  split_and!; simpl; try congruence. intros k. rewrite !scalars_sub by done. by rewrite Es, Fs.
Qed.

Lemma emptyResource_int64 : resource_int64 emptyResource.
Proof. repeat split; done. Qed.

(** ** Resource lists *)

Lemma Resource_Add1_int64 r e : resource_int64 r → resource_int64 (Resource_Add1 r e).
Proof.
  intros Hr. destruct e as [k q]. unfold Resource_Add1.
  repeat case_bool_decide; try (by destruct Hr as (? & ? & ? & ? & ?); split_and!; simpl; auto with sched).
  destruct (IsScalarResourceName k); [|done]. destruct Hr as (? & ? & ? & ? & Hs).
  split_and!; simpl; try done. intros k'. unfold at0. rewrite lookup_insert.
  case_decide; simpl; [apply add64_int64|apply Hs].
Qed.

Lemma Resource_Add_int64 r rl : resource_int64 r → resource_int64 (Resource_Add r rl).
Proof.
  unfold Resource_Add. revert r. induction (range rl) as [|e l IH]; intros r Hr; simpl; [done|].
  by apply IH, Resource_Add1_int64.
Qed.

(** What [Add] contributes to the scalar resource [k]. *)
Definition scalar_key (k : string) : bool :=
  negb (bool_decide (k = ResourceCPU)) && negb (bool_decide (k = ResourceMemory)) &&
  negb (bool_decide (k = ResourcePods)) && negb (bool_decide (k = ResourceEphemeralStorage)) &&
  IsScalarResourceName k.

Definition adds (x : Z) (q : option Z) : Z := match q with Some v => add64 x v | None => x end.

#[local] Arguments Resource_Add1 : simpl never.
Lemma Resource_Add_list r l :
  NoDup l.*1 →
  let m := list_to_map l : ResourceList in
  let r' := foldl Resource_Add1 r l in
  MilliCPU r' = adds (MilliCPU r) (Quantity_MilliValue <$> m !! ResourceCPU) ∧
  Memory r' = adds (Memory r) (Quantity_Value <$> m !! ResourceMemory) ∧
  EphemeralStorage r' = adds (EphemeralStorage r) (Quantity_Value <$> m !! ResourceEphemeralStorage) ∧
  AllowedPodNumber r' = adds (AllowedPodNumber r) (Quantity_Value <$> m !! ResourcePods) ∧
  ∀ k, ScalarResources r' !! k =
    match m !! k with
    | Some q => if scalar_key k then Some (add64 (at0 (ScalarResources r) k) (Quantity_Value q))
                else ScalarResources r !! k
    | None => ScalarResources r !! k
    end.
Proof.
  revert r. induction l as [|[k q] l IH]; intros r; simpl; [done|]. intros [Hn Hnd]%NoDup_cons.
  apply not_elem_of_list_to_map_1 in Hn. simpl in Hn.
  destruct (IH (Resource_Add1 r (k, q)) Hnd) as (-> & -> & -> & -> & Hs). clear IH.
  assert (∀ k', scalar_key k' = false → k = k' →
    ScalarResources (Resource_Add1 r (k, q)) = ScalarResources r) as Hkeep.
  { intros k' Hk <-. unfold scalar_key in Hk. unfold Resource_Add1.
    repeat case_bool_decide; simpl in *; try done. by rewrite Hk. }
  split_and!.
  1-4: unfold Resource_Add1; rewrite lookup_insert;
    repeat (case_bool_decide || case_decide); simplify_eq/=; rewrite ?Hn; try done; by case_match.
  intros k'. rewrite Hs. destruct (decide (k = k')) as [<-|Hne].
  - rewrite lookup_insert_eq, Hn.
    destruct (scalar_key k) eqn:Hk; [|by rewrite (Hkeep k)].
    unfold scalar_key, Resource_Add1 in *. repeat case_bool_decide; simplify_eq/=.
    rewrite Hk. simpl. by rewrite lookup_insert_eq.
  - rewrite lookup_insert_ne by done.
    assert (ScalarResources (Resource_Add1 r (k, q)) !! k' = ScalarResources r !! k') as Ek.
    { unfold Resource_Add1. repeat case_bool_decide; simpl; try done. case_match; simpl; [|done].
      by rewrite lookup_insert_ne. }
    unfold at0. by rewrite Ek.
Qed.

Lemma range_to_map {A} (m : gmap string A) : NoDup (range m).*1 ∧ list_to_map (range m) = m.
Proof.
  assert (NoDup (range m).*1) as Hnd by (rewrite range_perm; apply NoDup_fst_map_to_list).
  split; [done|]. rewrite (list_to_map_proper (range m) (map_to_list m)) by (done || apply range_perm).
  apply list_to_map_to_list.
Qed.

(** [Resource.Add] adds a resource list entry by entry, modulo 2^64, and
    the result does not depend on the order in which the map is iterated:
    cpu in milli-units, the other quantities in units, and among the remaining
    names only those of scalar resources. *)
Theorem Resource_Add_spec r (rl : ResourceList) :
  let r' := Resource_Add r rl in
  MilliCPU r' = adds (MilliCPU r) (Quantity_MilliValue <$> rl !! ResourceCPU) ∧
  Memory r' = adds (Memory r) (Quantity_Value <$> rl !! ResourceMemory) ∧
  EphemeralStorage r' = adds (EphemeralStorage r) (Quantity_Value <$> rl !! ResourceEphemeralStorage) ∧
  AllowedPodNumber r' = adds (AllowedPodNumber r) (Quantity_Value <$> rl !! ResourcePods) ∧
  ∀ k, ScalarResources r' !! k =
    match rl !! k with
    | Some q => if scalar_key k then Some (add64 (at0 (ScalarResources r) k) (Quantity_Value q))
                else ScalarResources r !! k
    | None => ScalarResources r !! k
    end.
Proof.
  destruct (range_to_map rl) as [Hnd E]. pose proof (Resource_Add_list r (range rl) Hnd) as H.
  by rewrite E in H.
Qed.

(** Sums and differences of resources cancel even when they overflow:
    subtracting what was added, or adding what was subtracted, gives an
    equivalent resource back, and the order of additions does not matter. *)
Theorem Resource_Plus_Sub r r1 r2 :
  resource_int64 r → resource_int64 r1 → resource_int64 r2 →
  ∃ s, Resource_Plus (Some r) (Some r1) = Some s ∧
    (∃ t, Resource_Sub (Some s) (Some r1) = Some t ∧ t ≡ r) ∧
    (∃ t u v, Resource_Plus (Some s) (Some r2) = Some t ∧
       Resource_Plus (Some r) (Some r2) = Some u ∧ Resource_Plus (Some u) (Some r1) = Some v ∧ t ≡ v).
Proof.
  intros Hr H1 H2. exists (rplus r r1). split_and!; [done| |].
  - exists (rminus (rplus r r1) r1). split; [done|]. by apply rplus_rminus.
  - exists (rplus (rplus r r1) r2), (rplus r r2), (rplus (rplus r r2) r1). split_and!; [done..|].
    rewrite <-rplus_assoc, <-rplus_assoc by done.
    apply rplus_proper; [done|done|done|]. by apply rplus_comm.
Qed.

(** [LessOrEqual] compares every quantity of the left side, a scalar
    resource that the right side does not have counting as zero there. *)
Theorem LessOrEqual_spec r rr :
  LessOrEqual r rr = true ↔
    MilliCPU r <= MilliCPU rr ∧ Memory r <= Memory rr ∧ EphemeralStorage r <= EphemeralStorage rr ∧
    AllowedPodNumber r <= AllowedPodNumber rr ∧
    ∀ k v, ScalarResources r !! k = Some v → v <= at0 (ScalarResources rr) k.
Proof.
  unfold LessOrEqual. rewrite <-!Z.leb_le.
  destruct (MilliCPU r <=? MilliCPU rr), (Memory r <=? Memory rr),
    (EphemeralStorage r <=? EphemeralStorage rr), (AllowedPodNumber r <=? AllowedPodNumber rr);
    simpl; try naive_solver.
  rewrite forallb_forall. setoid_rewrite negb_true_iff. setoid_rewrite Z.ltb_ge. split.
  - intros Hall. split_and!; try done. intros k v E. apply (Hall (k, v)), list_elem_of_In.
    rewrite range_perm. by apply elem_of_map_to_list.
  - intros (_ & _ & _ & _ & Hall) [k v] Hin%list_elem_of_In. rewrite range_perm in Hin.
    apply elem_of_map_to_list in Hin. by apply Hall.
Qed.

Lemma foldl_insert_lookup {A B} (f : A → B) (l : list (string * A)) (m : gmap string B) k :
  NoDup l.*1 →
  foldl (λ m e, <[e.1 := f e.2]> m) m l !! k =
    match (list_to_map l : gmap string A) !! k with Some v => Some (f v) | None => m !! k end.
Proof.
  revert m. induction l as [|[k' v] l IH]; intros m; simpl; [done|]. intros [Hn Hnd]%NoDup_cons.
  rewrite IH by done. rewrite !lookup_insert. case_decide as E; [|done].
  subst. simpl in Hn. by rewrite (not_elem_of_list_to_map_1 l) by done.
Qed.

(** [GetValue] reads back what [SetValue] wrote, for every resource name
    and every non-negative 64-bit value; the standard names must not occur among
    the scalar resources, which would shadow them. *)
Theorem SetValue_GetValue r name value :
  0 <= value → int64 value → name ≠ EmptyString →
  (∀ k, k ∈ [ResourceCPU; ResourceMemory; ResourceEphemeralStorage; ResourcePods] →
     ScalarResources r !! k = None) →
  Resource_GetValue (Some (Resource_SetValue r name value)) name = value.
Proof.
  intros Hv Hi Hn Hs. unfold Resource_GetValue, Resource_SetValue, Resource_ResourceList.
  rewrite !(bool_decide_false (name = EmptyString)) by done.
  assert ((value <? 0) = false) as -> by (by apply Z.ltb_ge). cbn [orb].
  repeat case_bool_decide; subst; cbn [ScalarResources MilliCPU Memory EphemeralStorage AllowedPodNumber SetScalar];
    (rewrite foldl_insert_lookup by apply range_to_map); rewrite (proj2 (range_to_map _)).
  all: try (rewrite Hs by set_solver).
  all: try (rewrite lookup_insert_eq; by apply NewQuantity_Value).
  - rewrite !lookup_insert_ne by done. rewrite lookup_singleton_eq. by apply NewMilliQuantity_MilliValue.
  - rewrite !lookup_insert_ne by done. rewrite lookup_insert_eq. by apply NewQuantity_Value.
  - rewrite !lookup_insert_ne by done. rewrite lookup_insert_eq. by apply NewQuantity_Value.
Qed.
End resource_laws.

(** ** Concrete resources *)

Module ResourceExample.
#[local] Existing Instance docK8s.
#[local] Existing Instance docK8s_laws.
#[local] Existing Instance stdRange.

Definition gpu : string := "nvidia.com/gpu".
Definition r1 : Resource := MkResource 4000 8 0 3 {[ gpu := 1 ]}.
Definition r2 : Resource := MkResource MaxInt64 16 0 1 {[ gpu := 2 ]}.

Lemma r1_int64 : resource_int64 r1.
Proof.
  split_and!; try done. intros k. unfold at0. simpl. destruct (decide (k = gpu)) as [->|].
  - by rewrite lookup_singleton_eq.
  - by rewrite lookup_singleton_ne.
Qed.
Lemma r2_int64 : resource_int64 r2.
Proof.
  split_and!; try done. intros k. unfold at0. simpl. destruct (decide (k = gpu)) as [->|].
  - by rewrite lookup_singleton_eq.
  - by rewrite lookup_singleton_ne.
Qed.

(** The sum overflows and the difference is right all the same. *)
Lemma Resource_Plus_Sub_witness :
  ∃ s, Resource_Plus (Some r1) (Some r2) = Some s ∧ MilliCPU s = MinInt64 + 3999 ∧
    ∃ t, Resource_Sub (Some s) (Some r2) = Some t ∧ t ≡ r1.
Proof.
  destruct (Resource_Plus_Sub r1 r2 r1 r1_int64 r2_int64 r1_int64) as (s & E & Ht & _).
  exists s. split_and!; [exact E| |exact Ht]. vm_compute in E. injection E as <-. vm_compute. reflexivity.
Defined.

Lemma SetValue_GetValue_witness :
  Resource_GetValue (Some (Resource_SetValue r1 gpu 7)) gpu = 7 ∧
  Resource_GetValue (Some (Resource_SetValue r1 ResourceCPU 2500)) ResourceCPU = 2500.
Proof.
  assert (∀ k, k ∈ [ResourceCPU; ResourceMemory; ResourceEphemeralStorage; ResourcePods] →
    ScalarResources r1 !! k = None) as Hs.
  { intros k Hk. simpl. apply lookup_singleton_ne. intros <-. revert Hk. vm_compute. set_solver. }
  split; apply SetValue_GetValue; done.
Defined.
End ResourceExample.
