(* ===== verification/HostPorts.v ===== *)
(** * Host ports (src/pkg/scheduler/info/host_ports.go)

    A [HostPortInfo] maps an address to the set of its protocol and port pairs.
    It is a Go map of maps: a set that becomes empty is deleted. *)
From S2P Require Import Prelude Api.

Record ProtocolPort := MkProtocolPort { pp_Protocol : string; pp_Port : Z }.
#[global] Instance ProtocolPort_eq_dec : EqDecision ProtocolPort.
Proof. solve_decision. Defined.
#[global] Instance ProtocolPort_countable : Countable ProtocolPort.
Proof.
  apply (inj_countable' (λ pp, (pp_Protocol pp, pp_Port pp)) (λ p, MkProtocolPort p.1 p.2)).
  by intros [].
Defined.

Abbreviation HostPortInfo := (gmap string (gset ProtocolPort)).

Definition DefaultBindAllHostIP : string := "0.0.0.0".
Definition ProtocolTCP : string := "TCP".

Definition NewProtocolPort (protocol : string) (port : Z) : ProtocolPort :=
  if bool_decide (protocol = EmptyString) then MkProtocolPort ProtocolTCP port
  else MkProtocolPort protocol port.

(** [h.sanitize(&ip, &protocol)] *)
Definition sanitize (ip protocol : string) : string * string :=
  (if bool_decide (ip = EmptyString) then DefaultBindAllHostIP else ip,
   if bool_decide (protocol = EmptyString) then ProtocolTCP else protocol).

Definition HostPortInfo_Add (h : HostPortInfo) (ip protocol : string) (port : Z) : HostPortInfo :=
  if port <=? 0 then h
  else
    let '(ip, protocol) := sanitize ip protocol in
    let pp := NewProtocolPort protocol port in
    match h !! ip with
    | None => <[ip := {[ pp ]}]> h
    | Some m => <[ip := {[ pp ]} ∪ m]> h
    end.

Definition HostPortInfo_Remove (h : HostPortInfo) (ip protocol : string) (port : Z) : HostPortInfo :=
  if port <=? 0 then h
  else
    let '(ip, protocol) := sanitize ip protocol in
    let pp := NewProtocolPort protocol port in
    match h !! ip with
    | Some m =>
        let m := m ∖ {[ pp ]} in
        if bool_decide (size m = O) then delete ip h else <[ip := m]> h
    | None => h
    end.

Section len.
Context `{MapRange}.

Definition HostPortInfo_Len (h : HostPortInfo) : nat :=
  foldl (λ length e, length + size e.2)%nat O (range h).

Definition CheckConflict (h : HostPortInfo) (ip protocol : string) (port : Z) : bool :=
  if port <=? 0 then false
  else
    let '(ip, protocol) := sanitize ip protocol in
    let pp := NewProtocolPort protocol port in
    if bool_decide (ip = DefaultBindAllHostIP) then
      existsb (λ e, bool_decide (pp ∈ e.2)) (range h)
    else
      existsb (λ key, match h !! key with
                      | Some m => bool_decide (pp ∈ m)
                      | None => false
                      end) [DefaultBindAllHostIP; ip].
End len.

(** ** The set of used ports *)

(** The address, protocol and port that a request stands for, if any. *)
Definition binding (ip protocol : string) (port : Z) : option (string * ProtocolPort) :=
  if port <=? 0 then None
  else let '(ip, protocol) := sanitize ip protocol in Some (ip, NewProtocolPort protocol port).

Definition used (h : HostPortInfo) (b : string * ProtocolPort) : Prop :=
  ∃ m, h !! b.1 = Some m ∧ b.2 ∈ m.

(** No address has an empty set. *)
Definition ports_wf (h : HostPortInfo) : Prop := map_Forall (λ _ m, m ≠ ∅) h.

(** Two bindings exclude each other: same protocol and port, and the same
    address or an address that stands for all. *)
Definition clash (b c : string * ProtocolPort) : Prop :=
  b.2 = c.2 ∧ (b.1 = c.1 ∨ b.1 = DefaultBindAllHostIP ∨ c.1 = DefaultBindAllHostIP).

Section proofs.
Context {Range : MapRange}.
Implicit Types (h : HostPortInfo) (ip protocol : string) (port : Z).

Lemma Add_wf h ip protocol port : ports_wf h → ports_wf (HostPortInfo_Add h ip protocol port).
Proof.
  intros Hw. unfold HostPortInfo_Add. case_match; [done|]. simpl.
  case_match; apply map_Forall_insert_2; set_solver.
Qed.

Lemma Remove_wf h ip protocol port : ports_wf h → ports_wf (HostPortInfo_Remove h ip protocol port).
Proof.
  intros Hw. unfold HostPortInfo_Remove. case_match; [done|]. simpl.
  set (i := if bool_decide (ip = EmptyString) then _ else _). case_match; [|done].
  set (m := _ ∖ _). case_bool_decide as Hz; [by apply map_Forall_delete|]. apply map_Forall_insert_2; [|done].
  intros Em. by rewrite Em, size_empty in Hz.
Qed.

Lemma Add_used h ip protocol port c :
  used (HostPortInfo_Add h ip protocol port) c ↔ used h c ∨ binding ip protocol port = Some c.
Proof.
  destruct c as [ip' pp]. unfold HostPortInfo_Add, binding, used. case_match; [naive_solver|]. simpl.
  set (i := if bool_decide (ip = EmptyString) then _ else _).
  set (q := NewProtocolPort _ _).
  destruct (h !! i) as [m|] eqn:E; setoid_rewrite lookup_insert_Some; split.
  - intros (m' & [[<- <-]|[Hne E']] & Hin); [|by eauto].
    apply elem_of_union in Hin as [->%elem_of_singleton|?]; [by right|]. eauto.
  - intros [(m' & E' & Hin)|[= <- <-]]; [|eexists; split; [by left|set_solver]].
    destruct (decide (i = ip')) as [<-|]; [|by eauto]. simplify_eq. eexists. split; [by left|set_solver].
  - intros (m' & [[<- <-]|[Hne E']] & Hin); [|by eauto]. apply elem_of_singleton in Hin as ->. by right.
  - intros [(m' & E' & Hin)|[= <- <-]]; [|eexists; split; [by left|set_solver]].
    destruct (decide (i = ip')) as [<-|]; [congruence|]. eauto.
Qed.

Lemma Remove_used h ip protocol port c :
  used (HostPortInfo_Remove h ip protocol port) c ↔ used h c ∧ binding ip protocol port ≠ Some c.
Proof.
  destruct c as [ip' pp]. unfold HostPortInfo_Remove, binding, used. case_match; [naive_solver|]. simpl.
  set (i := if bool_decide (ip = EmptyString) then _ else _).
  set (q := NewProtocolPort _ _).
  destruct (h !! i) as [m|] eqn:E.
  2:{ split; [|naive_solver]. intros (m' & E' & Hin). split; [by eauto|]. naive_solver. }
  case_bool_decide as Hz.
  - apply size_empty_inv in Hz. setoid_rewrite lookup_delete_Some. split.
    + intros (m' & [Hne E'] & Hin). split; [by eauto|]. naive_solver.
    + intros [(m' & E' & Hin) Hne]. exists m'. split_and!; [|done|done]. intros <-. simplify_eq.
      destruct (decide (pp = q)) as [->|]; [done|]. set_solver.
  - setoid_rewrite lookup_insert_Some. split.
    + intros (m' & [[<- <-]|[Hne E']] & Hin); (split; [|naive_solver set_solver]); [|by eauto].
      exists m. set_solver.
    + intros [(m' & E' & Hin) Hne]. destruct (decide (i = ip')) as [<-|]; [|by eauto].
      simplify_eq. eexists. split; [by left|]. apply elem_of_difference. split; [done|].
      rewrite elem_of_singleton. intros ->. done.
Qed.

(** [CheckConflict] is exact: it reports a conflict if and only if some
    used binding excludes the requested one, the address 0.0.0.0 standing for
    every address on either side. *)
Theorem CheckConflict_exact h ip protocol port :
  CheckConflict h ip protocol port = true ↔
    ∃ b c, binding ip protocol port = Some b ∧ used h c ∧ clash b c.
Proof.
  unfold CheckConflict, binding, clash, used. case_match; [naive_solver|]. simpl.
  set (i := if bool_decide (ip = EmptyString) then _ else _).
  set (q := NewProtocolPort _ _). case_bool_decide as Hi.
  - rewrite existsb_exists. setoid_rewrite <-list_elem_of_In. setoid_rewrite bool_decide_eq_true. split.
    + intros ([k m] & Hin & Hq). rewrite range_perm in Hin. apply elem_of_map_to_list in Hin.
      exists (i, q), (k, q). simpl. naive_solver.
    + intros (b & c & [= <-] & (m & E & Hin) & Hp & _). simpl in *. exists (c.1, m).
      rewrite range_perm. split; [by apply elem_of_map_to_list|]. simpl. by rewrite Hp.
  - simpl. rewrite orb_false_r, orb_true_iff. split.
    + intros [Hm|Hm]; (destruct (h !! _) as [m|] eqn:E; [|done]); apply bool_decide_eq_true in Hm.
      * exists (i, q), (DefaultBindAllHostIP, q). simpl. naive_solver.
      * exists (i, q), (i, q). simpl. naive_solver.
    + intros (b & c & [= <-] & (m & E & Hin) & Hp & [Ec|[?|Ec]]); simpl in *; [|done|].
      * right. rewrite Ec, E. apply bool_decide_eq_true. by rewrite Hp.
      * left. rewrite <-Ec, E. apply bool_decide_eq_true. by rewrite Hp.
Qed.

(** Adding a binding that is not in use and removing it again gives the same
    table back. *)
Theorem HostPort_roundtrip h ip protocol port :
  ports_wf h → (∀ b, binding ip protocol port = Some b → ¬ used h b) →
  HostPortInfo_Remove (HostPortInfo_Add h ip protocol port) ip protocol port = h.
Proof.
  intros Hw Hb. unfold HostPortInfo_Add, HostPortInfo_Remove, binding, used in *.
  destruct (port <=? 0); [done|]. simpl in *.
  set (i := if bool_decide (ip = EmptyString) then _ else _) in *.
  set (q := NewProtocolPort _ _) in *.
  destruct (h !! i) as [m|] eqn:E; rewrite lookup_insert_eq.
  - assert (q ∉ m) as Hq by (intros ?; apply (Hb _ eq_refl); eauto).
    assert (({[q]} ∪ m) ∖ {[q]} = m) as -> by set_solver.
    rewrite bool_decide_false.
    + by rewrite insert_insert_eq, insert_id.
    + intros Hz%size_empty_inv. apply (Hw _ _ E). by apply leibniz_equiv.
  - assert (({[q]} : gset ProtocolPort) ∖ {[q]} = ∅) as -> by set_solver.
    rewrite bool_decide_true by (by rewrite size_empty). rewrite delete_insert_id; done.
Qed.
End proofs.

Module HostPortsExample.
#[local] Existing Instance stdRange.
Definition h0 : HostPortInfo := HostPortInfo_Add (HostPortInfo_Add ∅ "10.0.0.1" "TCP" 80) "" "" 443.

Lemma h0_wf : ports_wf h0.
Proof. apply Add_wf, Add_wf, map_Forall_empty. Qed.

Lemma HostPort_roundtrip_witness :
  HostPortInfo_Remove (HostPortInfo_Add h0 "10.0.0.1" "UDP" 80) "10.0.0.1" "UDP" 80 = h0 ∧
  CheckConflict h0 "10.0.0.2" "TCP" 443 = true ∧ CheckConflict h0 "10.0.0.2" "TCP" 80 = false.
Proof.
  split; [|split; vm_compute; reflexivity].
  apply HostPort_roundtrip; [apply h0_wf|]. intros b [= <-]. unfold h0. rewrite !Add_used.
  intros [[(m & E & _)|E]|E]; [by rewrite lookup_empty in E|discriminate..].
Defined.
End HostPortsExample.
