(* ===== verification/NodeTree.v ===== *)
(** * The node tree (src/pkg/scheduler/info/node_tree.go)

    Node names by zone, enumerated round robin over the zones.  The loop of
    [Next] runs on fuel; [NodeTree_round_robin] shows that it always returns. *)
From S2P Require Import Prelude Api.

Record nodeArray := MkNodeArray { na_nodes : list string; na_lastIndex : nat }.

Record NodeTree := MkNodeTree {
  nt_tree : gmap string nodeArray;
  nt_zones : list string;
  nt_zoneIndex : nat;
  nt_numNodes : Z
}.

(** The array after the call, the name and whether the array is exhausted. *)
Definition nodeArray_next (na : nodeArray) : nodeArray * (string * bool) :=
  match na_nodes na with
  | [] => (na, (EmptyString, false))
  | _ =>
      match na_nodes na !! na_lastIndex na with
      | None => (na, (EmptyString, true))
      | Some nodeName => (MkNodeArray (na_nodes na) (S (na_lastIndex na)), (nodeName, false))
      end
  end.

Section tree.
Context `{K8sLib}.
Implicit Types (nt : NodeTree) (n : Node).

Definition NodeTree_addNode nt n : NodeTree :=
  let zone := GetZoneKey n in
  match nt_tree nt !! zone with
  | Some na =>
      if existsb (λ nodeName, bool_decide (nodeName = node_Name n)) (na_nodes na) then nt
      else MkNodeTree
             (<[zone := MkNodeArray (na_nodes na ++ [node_Name n]) (na_lastIndex na)]> (nt_tree nt))
             (nt_zones nt) (nt_zoneIndex nt) (nt_numNodes nt + 1)
  | None =>
      MkNodeTree (<[zone := MkNodeArray [node_Name n] O]> (nt_tree nt)) (nt_zones nt ++ [zone])
        (nt_zoneIndex nt) (nt_numNodes nt + 1)
  end.

(** The loop ranges over the slice as it was, of length [length arr], while the
    assignment shifts the elements of the shared array; [len] is the current
    length of [nt.zones]. *)
Fixpoint removeZone_loop (zone : string) (fuel i : nat) (arr : list string) (len : nat) : comp (list string) :=
  match fuel with
  | O => Some (take len arr)
  | S fuel =>
      z ← arr !! i;
      if bool_decide (z = zone) then
        if bool_decide (S i ≤ len)%nat then
          removeZone_loop zone fuel (S i)
            (take i arr ++ drop (S i) (take len arr) ++ drop (len - 1) arr) (len - 1)
        else panic
      else removeZone_loop zone fuel (S i) arr len
  end.

Definition removeZone nt (zone : string) : comp NodeTree :=
  zones ← removeZone_loop zone (length (nt_zones nt)) O (nt_zones nt) (length (nt_zones nt));
  Some (MkNodeTree (delete zone (nt_tree nt)) zones (nt_zoneIndex nt) (nt_numNodes nt)).

Definition NodeTree_removeNode nt n : comp (NodeTree * option error) :=
  let zone := GetZoneKey n in
  let notFound := Some (nt, Some ("node " +:+ node_Name n +:+ " in group " +:+ zone +:+ " was not found")%string) in
  match nt_tree nt !! zone with
  | None => notFound
  | Some na =>
      match find_index (λ nodeName, bool_decide (nodeName = node_Name n)) (na_nodes na) with
      | None => notFound
      | Some i =>
          let nodes := slice_delete i (na_nodes na) in
          let nt := MkNodeTree (<[zone := MkNodeArray nodes (na_lastIndex na)]> (nt_tree nt))
                      (nt_zones nt) (nt_zoneIndex nt) (nt_numNodes nt) in
          nt ← (if bool_decide (length nodes = O) then removeZone nt zone else Some nt);
          Some (MkNodeTree (nt_tree nt) (nt_zones nt) (nt_zoneIndex nt) (nt_numNodes nt - 1), None)
      end
  end.

Definition NodeTree_AddNode nt n : NodeTree := NodeTree_addNode nt n.
Definition NodeTree_RemoveNode nt n : comp (NodeTree * option error) := NodeTree_removeNode nt n.

Definition newNodeTree (nodes : list Node) : NodeTree :=
  foldl NodeTree_AddNode (MkNodeTree ∅ [] O 0) nodes.

(** [nt.removeNode(old)] dereferences [old]. *)
Definition NodeTree_UpdateNode nt (old : option Node) (new : Node) : comp NodeTree :=
  let oldZone := match old with Some old => GetZoneKey old | None => EmptyString end in
  let newZone := GetZoneKey new in
  if bool_decide (oldZone = newZone) then Some nt
  else
    old ← old;
    r ← NodeTree_removeNode nt old;
    Some (NodeTree_addNode r.1 new).

Definition resetExhausted nt : NodeTree :=
  MkNodeTree ((λ na, MkNodeArray (na_nodes na) O) <$> nt_tree nt) (nt_zones nt) O (nt_numNodes nt).

Fixpoint Next_loop (fuel : nat) nt (numExhaustedZones : nat) : comp (NodeTree * string) :=
  match fuel with
  | O => panic
  | S fuel =>
      let zoneIndex := if bool_decide (length (nt_zones nt) ≤ nt_zoneIndex nt)%nat then O
                       else nt_zoneIndex nt in
      zone ← nt_zones nt !! zoneIndex;
      na ← nt_tree nt !! zone;
      let '(na, (nodeName, exhausted)) := nodeArray_next na in
      let nt := MkNodeTree (<[zone := na]> (nt_tree nt)) (nt_zones nt) (S zoneIndex) (nt_numNodes nt) in
      if exhausted : bool then
        if bool_decide (length (nt_zones nt) ≤ S numExhaustedZones)%nat
        then Next_loop fuel (resetExhausted nt) (S numExhaustedZones)
        else Next_loop fuel nt (S numExhaustedZones)
      else Some (nt, nodeName)
  end.

(** One round over the zones, and one more step after a reset. *)
Definition NodeTree_Next nt : comp (NodeTree * string) :=
  match nt_zones nt with
  | [] => Some (nt, EmptyString)
  | _ => Next_loop (S (length (nt_zones nt))) nt O
  end.

Definition NodeTree_NumNodes nt : Z := nt_numNodes nt.

End tree.

(** ** The invariant *)

Definition zone_nodes (nt : NodeTree) (z : string) : list string :=
  match nt_tree nt !! z with Some na => na_nodes na | None => [] end.
Definition zone_rest (nt : NodeTree) (z : string) : list string :=
  match nt_tree nt !! z with Some na => drop (na_lastIndex na) (na_nodes na) | None => [] end.

(** All node names, and those that the current round has still to visit. *)
Definition all_nodes (nt : NodeTree) : list string := concat (zone_nodes nt <$> nt_zones nt).
Definition rest_nodes (nt : NodeTree) : list string := concat (zone_rest nt <$> nt_zones nt).

Record tree_wf (nt : NodeTree) : Prop := {
  tw_nodup : NoDup (nt_zones nt);
  tw_zones z : z ∈ nt_zones nt ↔ is_Some (nt_tree nt !! z);
  tw_nodes z na : nt_tree nt !! z = Some na → na_nodes na ≠ [] ∧ NoDup (na_nodes na);
  tw_num : nt_numNodes nt = Z.of_nat (length (all_nodes nt))
}.

Lemma concat_same {A B} (f g : A → list B) (l : list A) :
  (∀ y, y ∈ l → g y = f y) → concat (g <$> l) = concat (f <$> l).
Proof. intros H. f_equal. apply list_fmap_ext. intros i y E%list_elem_of_lookup_2. by apply H. Qed.

(** Changing the list of one zone changes the concatenation at that zone. *)
Lemma concat_update {A B} `{!EqDecision A} (f g : A → list B) (l : list A) (z : A) (x : B) :
  NoDup l → z ∈ l → (∀ y, y ∈ l → y ≠ z → g y = f y) → f z ≡ₚ x :: g z →
  concat (f <$> l) ≡ₚ x :: concat (g <$> l).
Proof.
  intros Hnd Hz Hne Hx. induction l as [|y l IH]; [by apply elem_of_nil in Hz|].
  apply NoDup_cons in Hnd as [Hy Hnd]. simpl. destruct (decide (y = z)) as [->|Hyz].
  - rewrite Hx. simpl. do 2 f_equiv. apply reflexive_eq. symmetry. apply concat_same.
    intros y Hin. apply Hne; [by right|]. by intros ->.
  - apply elem_of_cons in Hz as [->|Hz]; [done|].
    assert (∀ y, y ∈ l → y ≠ z → g y = f y) as Hne' by (intros; apply Hne; [by right|done]).
    rewrite (IH Hnd Hz Hne'), (Hne y) by (done || by left). by rewrite Permutation_middle.
Qed.

Lemma concat_nil {A B} (f : A → list B) (l : list A) :
  concat (f <$> l) = [] ↔ ∀ y, y ∈ l → f y = [].
Proof.
  induction l as [|y l IH]; simpl; [set_solver|]. rewrite app_nil, IH. set_solver.
Qed.

Section proofs.
Context {K8s : K8sLib}.
Implicit Types (nt : NodeTree) (n : Node).

(** ** Adding and removing *)

Lemma existsb_name (l : list string) s : existsb (λ x, bool_decide (x = s)) l = bool_decide (s ∈ l).
Proof.
  apply eq_true_iff_eq. rewrite existsb_exists, bool_decide_eq_true. setoid_rewrite bool_decide_eq_true.
  setoid_rewrite <-list_elem_of_In. naive_solver.
Qed.

(** The invariant after a change of the names of one zone, up to the count. *)
Lemma addNode_spec nt n :
  tree_wf nt →
  let nt' := NodeTree_addNode nt n in
  tree_wf nt' ∧
  (node_Name n ∈ zone_nodes nt (GetZoneKey n) → nt' = nt) ∧
  (node_Name n ∉ zone_nodes nt (GetZoneKey n) → all_nodes nt' ≡ₚ node_Name n :: all_nodes nt).
Proof.
  intros Hw. unfold NodeTree_addNode. pose proof Hw as [Hnd Hz Hn Hc]. set (z := GetZoneKey n).
  unfold zone_nodes at 1 2. destruct (nt_tree nt !! z) as [na|] eqn:E.
  - rewrite existsb_name. case_bool_decide as Hin; [done|].
    set (nt' := MkNodeTree _ _ _ _).
    assert (all_nodes nt' ≡ₚ node_Name n :: all_nodes nt) as Hall.
    { unfold all_nodes. simpl. apply (concat_update _ _ _ z); [done|apply Hz; by rewrite E| |].
      - intros y _ Hy. unfold zone_nodes. simpl. by rewrite lookup_insert_ne.
      - unfold zone_nodes. simpl. rewrite lookup_insert_eq, E. simpl. by rewrite Permutation_app_comm. }
    split; [|split; [set_solver|done]]. split; simpl; [done| | |].
    + intros y. rewrite Hz, lookup_insert_is_Some. split; [|intros [<-|[_ ?]]; [by rewrite E|done]].
      intros Hy. destruct (decide (z = y)); [by left|by right].
    + intros y na' [[<- <-]|[_ Ey]]%lookup_insert_Some; [|by apply Hn in Ey]. simpl.
      destruct (Hn _ _ E) as [_ Hnd']. split; [by destruct (na_nodes na)|].
      apply NoDup_app. split_and!; [done|set_solver|apply NoDup_singleton].
    + rewrite Hc, Hall. simpl. lia.
  - assert (z ∉ nt_zones nt) as Hzn by (rewrite Hz, E; by intros [? ?]).
    set (nt' := MkNodeTree _ _ _ _).
    assert (all_nodes nt' ≡ₚ node_Name n :: all_nodes nt) as Hall.
    { unfold all_nodes. simpl. rewrite fmap_app, concat_app. simpl.
      unfold zone_nodes at 2. simpl. rewrite lookup_insert_eq. simpl.
      rewrite Permutation_app_comm. simpl. f_equiv. apply reflexive_eq, concat_same.
      intros y Hy. unfold zone_nodes. simpl. rewrite lookup_insert_ne; [done|]. by intros ->. }
    split; [|split; [set_solver|done]]. split; simpl.
    + apply NoDup_app. split_and!; [done|set_solver|apply NoDup_singleton].
    + intros y. rewrite elem_of_app, list_elem_of_singleton, Hz, lookup_insert_is_Some.
      destruct (decide (z = y)) as [->|]; [|naive_solver]. split; [by left|]. intros _. by right.
    + intros y na' [[<- <-]|[_ Ey]]%lookup_insert_Some; [|by apply Hn in Ey]. simpl.
      split; [done|apply NoDup_singleton].
    + rewrite Hc, Hall. simpl. lia.
Qed.

(** The loop of [removeZone]: nothing to remove. *)
Lemma removeZone_loop_none zone fuel i arr len :
  (∀ j, (i ≤ j < i + fuel)%nat → ∃ z, arr !! j = Some z ∧ z ≠ zone) →
  removeZone_loop zone fuel i arr len = Some (take len arr).
Proof.
  revert i. induction fuel as [|fuel IH]; intros i Hj; simpl; [done|].
  destruct (Hj i) as (z & -> & Hz); [lia|]. simpl. rewrite bool_decide_false by done.
  apply IH. intros j ?. apply Hj. lia.
Qed.

Lemma removeZone_loop_skip zone k fuel i arr len :
  (∀ j, (i ≤ j < i + k)%nat → ∃ z, arr !! j = Some z ∧ z ≠ zone) →
  removeZone_loop zone (k + fuel) i arr len = removeZone_loop zone fuel (i + k) arr len.
Proof.
  revert i. induction k as [|k IH]; intros i Hj; simpl; [by rewrite Nat.add_0_r|].
  destruct (Hj i) as (z & -> & Hz); [lia|]. simpl. rewrite bool_decide_false by done.
  rewrite IH by (intros; apply Hj; lia). f_equal. lia.
Qed.

(** Ranging over the shifted array still removes the zone and nothing else. *)
Lemma removeZone_loop_spec zone l1 l2 :
  zone ∉ l1 → zone ∉ l2 →
  removeZone_loop zone (length (l1 ++ zone :: l2)) 0 (l1 ++ zone :: l2) (length (l1 ++ zone :: l2)) =
    Some (l1 ++ l2).
Proof.
  intros H1 H2. set (arr := l1 ++ zone :: l2).
  assert (length arr = (length l1 + S (length l2))%nat) as Hlen by (unfold arr; by rewrite length_app).
  rewrite Hlen at 1. rewrite removeZone_loop_skip.
  2:{ intros j Hj. destruct (lookup_lt_is_Some_2 l1 j) as [z Ez]; [lia|]. exists z. unfold arr.
      rewrite lookup_app_l by lia. split; [done|]. intros ->. by apply list_elem_of_lookup_2 in Ez. }
  assert (arr !! length l1 = Some zone) as Ea by (unfold arr; by rewrite lookup_app_r, Nat.sub_diag by lia).
  simpl. rewrite Ea. simpl. rewrite bool_decide_true by done. rewrite bool_decide_true by lia.
  assert (take (length l1) arr ++ drop (S (length l1)) (take (length arr) arr) ++ drop (length arr - 1) arr
    = l1 ++ l2 ++ drop (length arr - 1) arr) as ->.
  { rewrite firstn_all. unfold arr. rewrite take_app_length. do 2 f_equal.
    by rewrite (cons_middle zone l1 l2), app_assoc, (drop_app_length' (l1 ++ [zone]))
      by (rewrite length_app; simpl; lia). }
  rewrite removeZone_loop_none.
  - f_equal. rewrite app_assoc. apply take_app_length'. rewrite length_app. lia.
  - intros j Hj. destruct (decide (j < length (l1 ++ l2))%nat) as [Hlt|Hge].
    + rewrite length_app in Hlt. destruct (lookup_lt_is_Some_2 l2 (j - length l1)) as [z Ez]; [lia|].
      exists z. rewrite lookup_app_r, lookup_app_l by lia. split; [done|].
      intros ->. by apply list_elem_of_lookup_2 in Ez.
    + rewrite length_app in Hge. assert (j = (length l1 + length l2)%nat) as -> by lia.
      destruct (last l2) as [z|] eqn:El.
      2:{ apply last_None in El. subst. simpl in *. lia. }
      exists z. rewrite app_assoc, lookup_app_r by (rewrite length_app; lia).
      rewrite length_app, Nat.sub_diag, lookup_drop. split.
      * rewrite Nat.add_0_r, Hlen. unfold arr. rewrite lookup_app_r by lia.
        replace (length l1 + S (length l2) - 1 - length l1)%nat with (S (length l2 - 1))
          by (destruct l2; [done|simpl in *; lia]).
        simpl. rewrite <-El. symmetry. rewrite last_lookup. f_equal. lia.
      * intros ->. apply H2. apply last_Some in El as [l' ->]. set_solver.
Qed.

Lemma removeZone_spec nt z :
  NoDup (nt_zones nt) → z ∈ nt_zones nt →
  ∃ l1 l2, nt_zones nt = l1 ++ z :: l2 ∧
    removeZone nt z = Some (MkNodeTree (delete z (nt_tree nt)) (l1 ++ l2) (nt_zoneIndex nt) (nt_numNodes nt)).
Proof.
  intros Hnd (l1 & l2 & E)%list_elem_of_split. exists l1, l2. split; [done|].
  unfold removeZone. rewrite E in *. apply NoDup_app in Hnd as (_ & Hd & [? _]%NoDup_cons).
  rewrite removeZone_loop_spec; [done| |done]. intros Hz. apply (Hd _ Hz). by left.
Qed.

Lemma removeNode_spec nt n :
  tree_wf nt →
  ∃ nt' e, NodeTree_removeNode nt n = Some (nt', e) ∧ tree_wf nt' ∧
    (node_Name n ∈ zone_nodes nt (GetZoneKey n) → e = None ∧ all_nodes nt ≡ₚ node_Name n :: all_nodes nt') ∧
    (node_Name n ∉ zone_nodes nt (GetZoneKey n) → nt' = nt ∧ is_Some e).
Proof.
  intros Hw. pose proof Hw as [Hnd Hz Hn Hc]. unfold NodeTree_removeNode. set (z := GetZoneKey n).
  unfold zone_nodes at 1 2. destruct (nt_tree nt !! z) as [na|] eqn:E.
  2:{ eexists _, _. split_and!; [done|done|set_solver|done]. }
  destruct (find_index _ (na_nodes na)) as [i|] eqn:Ei.
  2:{ eexists _, _. split_and!; [done|done| |done]. intros Hin.
      apply (find_index_None _ _ Ei) in Hin. by apply bool_decide_eq_false in Hin. }
  destruct (find_index_Some _ _ _ Ei) as (x & Ex & ->%bool_decide_eq_true_1).
  pose proof (slice_delete_perm _ _ _ Ex) as Hp. set (nodes := slice_delete i (na_nodes na)) in *.
  destruct (Hn _ _ E) as [_ Hndz].
  assert (NoDup nodes) as Hnd' by (rewrite Hp in Hndz; by apply NoDup_cons in Hndz as [_ ?]).
  assert (z ∈ nt_zones nt) as Hzin by (apply Hz; by rewrite E).
  assert (node_Name n ∈ na_nodes na) as Hin by (rewrite Hp; by left).
  case_bool_decide as Hlen.
  - apply nil_length_inv in Hlen.
    destruct (removeZone_spec (MkNodeTree (<[z := MkNodeArray nodes (na_lastIndex na)]> (nt_tree nt))
      (nt_zones nt) (nt_zoneIndex nt) (nt_numNodes nt)) z) as (l1 & l2 & El & ->); [done|done|].
    simpl in *. set (nt' := MkNodeTree _ _ _ _).
    assert (all_nodes nt ≡ₚ node_Name n :: all_nodes nt') as Hall.
    { unfold all_nodes. rewrite El. simpl. rewrite !fmap_app, !concat_app. simpl.
      assert (zone_nodes nt z = [node_Name n]) as ->.
      { unfold zone_nodes. rewrite E. rewrite Hlen in Hp. by apply Permutation_singleton_r in Hp. }
      simpl. rewrite <-Permutation_middle. f_equiv. rewrite El in Hnd. apply NoDup_app in Hnd as (_ & Hd & [Hz2 _]%NoDup_cons).
      assert (z ∉ l1) as Hz1 by (intros Hz1; apply (Hd _ Hz1); by left).
      apply reflexive_eq. f_equal; symmetry; apply concat_same; intros y Hy; unfold zone_nodes; simpl;
        (rewrite lookup_delete_ne, lookup_insert_ne; [done|..]); by intros ->. }
    eexists _, _. split_and!; [done| |done|done]. rewrite El in *. split; simpl.
    + apply NoDup_app in Hnd as (? & Hd & [? ?]%NoDup_cons). apply NoDup_app. set_solver.
    + intros y. rewrite delete_insert_eq.
      apply NoDup_app in Hnd as (? & Hd & [? ?]%NoDup_cons).
      rewrite lookup_delete_is_Some, <-Hz. set_solver.
    + intros y na' [Hne Ey]%lookup_delete_Some. rewrite lookup_insert_ne in Ey by done. by apply Hn in Ey.
    + rewrite Hc, Hall. simpl. lia.
  - simpl. set (nt' := MkNodeTree _ _ _ (_ - 1)).
    assert (all_nodes nt ≡ₚ node_Name n :: all_nodes nt') as Hall.
    { unfold all_nodes. simpl. apply (concat_update _ _ _ z); [done|done| |].
      - intros y _ Hy. unfold zone_nodes. simpl. by rewrite lookup_insert_ne.
      - unfold zone_nodes. simpl. by rewrite lookup_insert_eq, E. }
    eexists _, _. split_and!; [done| |done|done]. split; simpl; [done| | |].
    + intros y. rewrite Hz, lookup_insert_is_Some. split; [|intros [<-|[_ ?]]; [by rewrite E|done]].
      intros Hy. destruct (decide (z = y)); [by left|by right].
    + intros y na' [[<- <-]|[_ Ey]]%lookup_insert_Some; [|by apply Hn in Ey]. simpl.
      split; [|done]. by destruct nodes.
    + rewrite Hc, Hall. simpl. lia.
Qed.

(** ** Enumeration *)

Lemma next_rest na :
  na_nodes na ≠ [] →
  nodeArray_next na =
    match drop (na_lastIndex na) (na_nodes na) with
    | [] => (na, (EmptyString, true))
    | x :: _ => (MkNodeArray (na_nodes na) (S (na_lastIndex na)), (x, false))
    end.
Proof.
  intros Hne. unfold nodeArray_next. destruct (na_nodes na) as [|y l] eqn:E; [done|].
  rewrite <-E. destruct (na_nodes na !! na_lastIndex na) as [x|] eqn:Ex.
  - by rewrite (drop_S _ _ _ Ex).
  - by rewrite drop_ge by (by apply lookup_ge_None).
Qed.

(** The zones in the order in which [Next] looks at them. *)
Definition index nt : nat :=
  if bool_decide (length (nt_zones nt) ≤ nt_zoneIndex nt)%nat then O else nt_zoneIndex nt.
Definition order nt : list string := drop (index nt) (nt_zones nt) ++ take (index nt) (nt_zones nt).

Lemma order_perm nt : order nt ≡ₚ nt_zones nt.
Proof. unfold order. by rewrite Permutation_app_comm, take_drop. Qed.

Lemma order_head nt z l :
  order nt = z :: l →
  nt_zones nt !! index nt = Some z ∧
  ∀ tree num, order (MkNodeTree tree (nt_zones nt) (S (index nt)) num) = l ++ [z].
Proof.
  intros E.
  assert (index nt < length (nt_zones nt))%nat as Hi.
  { unfold index. case_bool_decide; [|lia]. destruct (nt_zones nt) eqn:Ez; [|simpl; lia].
    unfold order in E. by rewrite Ez, drop_nil, take_nil in E. }
  destruct (lookup_lt_is_Some_2 _ _ Hi) as [z' Ez]. unfold order in E.
  rewrite (drop_S _ _ _ Ez) in E. simplify_eq/=. split; [done|]. intros tree num.
  assert (index (MkNodeTree tree (nt_zones nt) (S (index nt)) num) =
    if bool_decide (length (nt_zones nt) ≤ S (index nt))%nat then O else S (index nt)) as Ei by done.
  unfold order. rewrite Ei. simpl. clear Ei. case_bool_decide as Hn.
  - rewrite drop_0, take_0, app_nil_r. rewrite drop_ge by done. simpl.
    rewrite <-(take_drop_middle (nt_zones nt) (index nt) z) at 1 by done.
    by rewrite drop_ge by done.
  - rewrite (take_S_r _ _ z) by done. by rewrite app_assoc.
Qed.

Lemma first_elem {A} (P : A → Prop) `{!∀ x, Decision (P x)} (l : list A) :
  (∃ x, x ∈ l ∧ P x) → ∃ pre x post, l = pre ++ x :: post ∧ P x ∧ ∀ y, y ∈ pre → ¬ P y.
Proof.
  induction l as [|y l IH]; intros (x & Hx & Hp); [by apply elem_of_nil in Hx|].
  destruct (decide (P y)) as [Hy|Hy]; [exists [], y, l; set_solver|].
  apply elem_of_cons in Hx as [->|Hx]; [done|].
  destruct IH as (pre & x' & post & -> & Hp' & Hpre); [by eauto|]. exists (y :: pre), x', post.
  split_and!; [done|done|]. set_solver.
Qed.

(** The state after the node of zone [z] has been returned. *)
Definition visited nt z na (i : nat) : NodeTree :=
  MkNodeTree (<[z := MkNodeArray (na_nodes na) (S (na_lastIndex na))]> (nt_tree nt)) (nt_zones nt) i
    (nt_numNodes nt).

Lemma zone_rest_Some nt z :
  tree_wf nt → z ∈ nt_zones nt →
  ∃ na, nt_tree nt !! z = Some na ∧ zone_rest nt z = drop (na_lastIndex na) (na_nodes na) ∧
    na_nodes na ≠ [].
Proof.
  intros Hw [na E]%(tw_zones _ Hw). exists na. unfold zone_rest. rewrite E. split_and!; try done.
  by apply (tw_nodes _ Hw z).
Qed.

(** Skipping an exhausted zone. *)
Lemma Next_loop_skip fuel nt c z l :
  tree_wf nt → order nt = z :: l → zone_rest nt z = [] →
  let nt1 := MkNodeTree (nt_tree nt) (nt_zones nt) (S (index nt)) (nt_numNodes nt) in
  Next_loop (S fuel) nt c =
    if bool_decide (length (nt_zones nt) ≤ S c)%nat then Next_loop fuel (resetExhausted nt1) (S c)
    else Next_loop fuel nt1 (S c).
Proof.
  intros Hw Ho Hr nt1. destruct (order_head _ _ _ Ho) as [Ez _]. cbn [Next_loop]. fold (index nt).
  rewrite Ez. cbn [mbind option_bind].
  destruct (zone_rest_Some nt z Hw) as (na & E & Er & Hne); [by eapply list_elem_of_lookup_2|].
  rewrite E. cbn [mbind option_bind]. rewrite next_rest by done. rewrite Er in Hr. rewrite Hr.
  by rewrite insert_id.
Qed.

Lemma Next_loop_hit pre fuel nt c z post x rest :
  tree_wf nt → order nt = pre ++ z :: post → (∀ y, y ∈ pre → zone_rest nt y = []) →
  zone_rest nt z = x :: rest → (length pre < fuel)%nat →
  (pre ≠ [] → c + length pre < length (nt_zones nt))%nat →
  ∃ na i, nt_tree nt !! z = Some na ∧ Next_loop fuel nt c = Some (visited nt z na i, x).
Proof.
  revert fuel nt c post. induction pre as [|y pre IH]; intros fuel nt c post Hw Ho Hpre Hz Hf Hc;
    (destruct fuel as [|fuel]; [simpl in Hf; lia|]).
  - destruct (order_head _ _ _ Ho) as [Ez _]. cbn [Next_loop]. fold (index nt).
    rewrite Ez. cbn [mbind option_bind].
    destruct (zone_rest_Some nt z Hw) as (na & E & Er & Hne); [by eapply list_elem_of_lookup_2|].
    rewrite E. cbn [mbind option_bind]. rewrite next_rest by done. rewrite Er in Hz. rewrite Hz.
    exists na. by eexists.
  - simpl in Ho. rewrite (Next_loop_skip fuel nt c y (pre ++ z :: post)) by (done || apply Hpre; by left).
    simpl in *. specialize (Hc ltac:(done)). rewrite bool_decide_false by lia.
    destruct (order_head _ _ _ Ho) as [_ Ho'].
    set (nt1 := MkNodeTree (nt_tree nt) (nt_zones nt) (S (index nt)) (nt_numNodes nt)).
    destruct (IH fuel nt1 (S c) (post ++ [y])) as (na & i & E & En).
    + by destruct Hw; split.
    + unfold nt1. rewrite Ho'. by rewrite <-app_assoc.
    + intros y' Hy'. apply Hpre. by right.
    + done.
    + lia.
    + intros _. simpl. lia.
    + exists na, i. split; [done|]. by rewrite En.
Qed.

(** The first zone has a node left: one iteration, whatever the count. *)
Lemma Next_loop_one fuel nt c z l x rest :
  tree_wf nt → order nt = z :: l → zone_rest nt z = x :: rest →
  Next_loop (S fuel) nt c =
    Some (visited nt z (default (MkNodeArray [] O) (nt_tree nt !! z)) (S (index nt)), x).
Proof.
  intros Hw Ho Hz. destruct (order_head _ _ _ Ho) as [Ez _]. cbn [Next_loop]. fold (index nt).
  rewrite Ez. cbn [mbind option_bind].
  destruct (zone_rest_Some nt z Hw) as (na & E & Er & Hne); [by eapply list_elem_of_lookup_2|].
  rewrite E. cbn [mbind option_bind default]. rewrite next_rest by done. rewrite Er in Hz. by rewrite Hz.
Qed.

Lemma Next_unfold nt : nt_zones nt ≠ [] → NodeTree_Next nt = Next_loop (S (length (nt_zones nt))) nt O.
Proof. unfold NodeTree_Next. by destruct (nt_zones nt). Qed.

Lemma Next_loop_exhausted k fuel nt c :
  tree_wf nt → (∀ z, z ∈ nt_zones nt → zone_rest nt z = []) →
  (c + S k = length (nt_zones nt))%nat →
  Next_loop (S k + fuel) nt c = Next_loop fuel (resetExhausted nt) (length (nt_zones nt)).
Proof.
  revert nt c. induction k as [|k IH]; intros nt c Hw Hr Hc;
    (destruct (order nt) as [|z l] eqn:Ho;
      [pose proof (Permutation_length (order_perm nt)) as Hl; rewrite Ho in Hl; simpl in Hl; lia|]);
    (assert (z ∈ nt_zones nt) as Hz by (rewrite <-order_perm, Ho; by left)).
  - change (1 + fuel)%nat with (S fuel). rewrite (Next_loop_skip fuel nt c z l) by auto.
    rewrite bool_decide_true by lia. f_equal. lia.
  - change (S (S k) + fuel)%nat with (S (S k + fuel)).
    rewrite (Next_loop_skip (S k + fuel) nt c z l) by auto. rewrite bool_decide_false by lia.
    set (nt1 := MkNodeTree (nt_tree nt) (nt_zones nt) (S (index nt)) (nt_numNodes nt)).
    rewrite (IH nt1); [done|by destruct Hw; split|done|simpl; lia].
Qed.

Lemma reset_wf nt : tree_wf nt → tree_wf (resetExhausted nt).
Proof.
  intros [Hnd Hz Hn Hc]. split; simpl; [done| | |].
  - intros z. by rewrite Hz, lookup_fmap, fmap_is_Some.
  - intros z na (na' & <- & E)%lookup_fmap_Some. by apply Hn in E.
  - rewrite Hc. do 2 f_equal. apply concat_same. intros z _. unfold zone_nodes. simpl.
    rewrite lookup_fmap. by destruct (nt_tree nt !! z).
Qed.

Lemma reset_rest nt : tree_wf nt → rest_nodes (resetExhausted nt) = all_nodes nt.
Proof.
  intros Hw. apply concat_same. intros z _. unfold zone_rest, zone_nodes. simpl.
  rewrite lookup_fmap. by destruct (nt_tree nt !! z).
Qed.

Lemma visited_spec nt z na i x rest :
  tree_wf nt → nt_tree nt !! z = Some na → zone_rest nt z = x :: rest →
  tree_wf (visited nt z na i) ∧ rest_nodes nt ≡ₚ x :: rest_nodes (visited nt z na i) ∧
  resetExhausted (visited nt z na i) = resetExhausted nt.
Proof.
  intros Hw E Hr. pose proof Hw as [Hnd Hz Hn Hc]. split_and!.
  - split; simpl; [done| | |].
    + intros y. rewrite Hz, lookup_insert_is_Some. split; [|intros [<-|[_ ?]]; [by rewrite E|done]].
      intros Hy. destruct (decide (z = y)); [by left|by right].
    + intros y na' [[<- <-]|[_ Ey]]%lookup_insert_Some; [by apply Hn in E|by apply Hn in Ey].
    + rewrite Hc. do 2 f_equal. symmetry. apply concat_same. intros y _. unfold zone_nodes. simpl.
      destruct (decide (z = y)) as [<-|]; [by rewrite lookup_insert_eq, E|by rewrite lookup_insert_ne].
  - unfold rest_nodes. simpl. apply (concat_update _ _ _ z); [done|apply Hz; by rewrite E| |].
    + intros y _ Hy. unfold zone_rest. simpl. by rewrite lookup_insert_ne.
    + rewrite Hr. unfold zone_rest in *. simpl. rewrite lookup_insert_eq. rewrite E in Hr. simpl.
      replace (S (na_lastIndex na)) with (na_lastIndex na + 1)%nat by lia.
      rewrite <-drop_drop, Hr. by rewrite skipn_cons, drop_0.
  - unfold resetExhausted. simpl. f_equal. rewrite fmap_insert. simpl. apply insert_id.
    by rewrite lookup_fmap, E.
Qed.

Lemma Next_spec nt :
  tree_wf nt → nt_zones nt ≠ [] →
  (rest_nodes nt ≠ [] →
    ∃ nt' x, NodeTree_Next nt = Some (nt', x) ∧ tree_wf nt' ∧ rest_nodes nt ≡ₚ x :: rest_nodes nt' ∧
      resetExhausted nt' = resetExhausted nt) ∧
  (rest_nodes nt = [] → NodeTree_Next nt = NodeTree_Next (resetExhausted nt)).
Proof.
  intros Hw Hne.
  assert (∀ fuel nt c, tree_wf nt → rest_nodes nt ≠ [] → (fuel = S (length (nt_zones nt)) ∧ c = O) →
    ∃ nt' x, Next_loop fuel nt c = Some (nt', x) ∧ tree_wf nt' ∧ rest_nodes nt ≡ₚ x :: rest_nodes nt' ∧
      resetExhausted nt' = resetExhausted nt) as Hhit.
  { clear. intros fuel nt c Hw Hr [-> ->].
    destruct (first_elem (λ z, zone_rest nt z ≠ []) (order nt)) as (pre & z & post & Ho & Hz & Hpre).
    { setoid_rewrite order_perm.
      destruct (decide (Forall (λ z, zone_rest nt z = []) (nt_zones nt))) as [Hf|Hf].
      - destruct Hr. apply concat_nil. by apply Forall_forall.
      - apply not_Forall_Exists, Exists_exists in Hf; [|apply _]. exact Hf. }
    destruct (zone_rest nt z) as [|x rest] eqn:Ez; [done|].
    assert (length pre < length (nt_zones nt))%nat as Hlen.
    { rewrite <-order_perm, Ho, length_app. simpl. lia. }
    destruct (Next_loop_hit pre (S (length (nt_zones nt))) nt 0 z post x rest Hw Ho) as (na & i & E & ->);
      [|done|lia|intros _; simpl; lia|].
    { intros y Hy. apply Hpre in Hy. destruct (zone_rest nt y); [done|by destruct Hy]. }
    destruct (visited_spec nt z na i x rest Hw E Ez) as (? & ? & ?). eauto 10. }
  split; rewrite (Next_unfold nt Hne); intros Hr; [by apply Hhit|].
  pose proof (reset_wf nt Hw) as Hw'. rewrite (Next_unfold (resetExhausted nt)) by done.
  assert (∀ z, z ∈ nt_zones nt → zone_rest nt z = []) as Hall by (by apply concat_nil).
  assert (∃ z l, nt_zones nt = z :: l) as (z & l & Ez) by (destruct (nt_zones nt); eauto; done).
  assert (length (nt_zones nt) = S (length l)) as Hlen by (by rewrite Ez).
  replace (S (length (nt_zones nt))) with (S (length l) + 1)%nat by lia.
  rewrite Next_loop_exhausted by (auto; lia).
  destruct (zone_rest_Some (resetExhausted nt) z Hw') as (na & E & Er & Hna);
    [simpl; rewrite Ez; by left|].
  assert (zone_rest (resetExhausted nt) z = na_nodes na) as Hz.
  { rewrite Er. simpl in E. apply lookup_fmap_Some in E as (na' & <- & _). done. }
  destruct (na_nodes na) as [|x rest] eqn:Ena; [done|].
  assert (order (resetExhausted nt) = [] ++ z :: l) as Ho.
  { unfold order, index. simpl. case_bool_decide; by rewrite drop_0, take_0, app_nil_r. }
  clear Hhit. rewrite !(Next_loop_one _ _ _ z l x rest) by done. done.
Qed.

Lemma all_nodes_ne nt : tree_wf nt → nt_zones nt ≠ [] → all_nodes nt ≠ [].
Proof.
  intros Hw Hz. destruct (nt_zones nt) as [|z l] eqn:El; [done|].
  destruct (tw_zones _ Hw z) as [[na En] _]; [rewrite El; by left|].
  unfold all_nodes, zone_nodes. rewrite El. simpl. rewrite En.
  destruct (tw_nodes _ Hw _ _ En) as [? _]. by destruct (na_nodes na).
Qed.

Lemma reset_idemp nt : resetExhausted (resetExhausted nt) = resetExhausted nt.
Proof. unfold resetExhausted. simpl. f_equal. rewrite <-map_fmap_compose. by apply map_fmap_ext. Qed.

(** A call changes the positions only. *)
Lemma Next_total nt :
  tree_wf nt → nt_zones nt ≠ [] →
  ∃ nt' x, NodeTree_Next nt = Some (nt', x) ∧ tree_wf nt' ∧ resetExhausted nt' = resetExhausted nt.
Proof.
  intros Hw Ez. destruct (Next_spec nt Hw Ez) as [H1 H2]. destruct (decide (rest_nodes nt = [])) as [Hr|Hr].
  - rewrite H2 by done. destruct (Next_spec (resetExhausted nt) (reset_wf nt Hw) Ez) as [H3 _].
    destruct H3 as (nt' & x & E & ? & ? & He); [rewrite reset_rest by done; by apply all_nodes_ne|].
    exists nt', x. split_and!; [done|done|]. by rewrite He, reset_idemp.
  - destruct (H1 Hr) as (nt' & x & ? & ? & ? & ?). by exists nt', x.
Qed.

(** ** Rounds *)

(** [k] calls of [Next], with the names they return. *)
Fixpoint nexts (k : nat) nt : comp (NodeTree * list string) :=
  match k with
  | O => Some (nt, [])
  | S k =>
      '(nt, x) ← NodeTree_Next nt;
      '(nt, l) ← nexts k nt;
      Some (nt, x :: l)
  end.

Lemma nexts_app j k nt nt1 l1 nt2 l2 :
  nexts j nt = Some (nt1, l1) → nexts k nt1 = Some (nt2, l2) → nexts (j + k) nt = Some (nt2, l1 ++ l2).
Proof.
  revert nt l1. induction j as [|j IH]; intros nt l1; simpl; [by intros [= -> <-]|].
  destruct (NodeTree_Next nt) as [[nt' x]|]; simpl; [|done].
  destruct (nexts j nt') as [[nt'' l]|] eqn:E; simpl; [|done]. intros [= -> <-] Hk.
  by rewrite (IH _ _ E Hk).
Qed.

Lemma rest_zones nt : rest_nodes nt ≠ [] → nt_zones nt ≠ [].
Proof. unfold rest_nodes. intros Hr E. by rewrite E in Hr. Qed.

(** The calls up to the end of the current round return what is left of it. *)
Lemma nexts_rest r nt :
  length (rest_nodes nt) = r → tree_wf nt →
  ∃ nt' l, nexts r nt = Some (nt', l) ∧ l ≡ₚ rest_nodes nt ∧ tree_wf nt' ∧ rest_nodes nt' = [] ∧
    resetExhausted nt' = resetExhausted nt.
Proof.
  revert nt. induction r as [|r IH]; intros nt Hr Hw.
  - apply nil_length_inv in Hr. exists nt, []. by rewrite Hr.
  - assert (rest_nodes nt ≠ []) as Hne by (by intros E; rewrite E in Hr).
    destruct (Next_spec nt Hw (rest_zones _ Hne)) as [Hn _].
    destruct (Hn Hne) as (nt1 & x & E & Hw1 & Hp & He).
    destruct (IH nt1) as (nt2 & l & E2 & Hl & Hw2 & Hr2 & He2); [|done|].
    { apply Permutation_length in Hp. simpl in Hp. lia. }
    exists nt2, (x :: l). simpl. rewrite E. simpl. rewrite E2. split_and!; [done|by rewrite Hp, Hl|done|done|by rewrite He2].
Qed.

(** After a round, every block of as many calls as there are nodes is a full round. *)
Lemma nexts_round nt :
  tree_wf nt → rest_nodes nt = [] →
  ∃ nt' l, nexts (length (all_nodes nt)) nt = Some (nt', l) ∧ l ≡ₚ all_nodes nt ∧ tree_wf nt' ∧
    rest_nodes nt' = [] ∧ resetExhausted nt' = resetExhausted nt.
Proof.
  intros Hw Hr. destruct (all_nodes nt) as [|x0 l0] eqn:Ea; [by exists nt, []|]. rewrite <-Ea.
  assert (nt_zones nt ≠ []) as Hz by (intros E; unfold all_nodes in Ea; by rewrite E in Ea).
  pose proof (reset_wf nt Hw) as Hw'. pose proof (reset_rest nt Hw) as Hrr.
  destruct (nexts_rest (length (all_nodes nt)) (resetExhausted nt)) as (nt' & l & E & Hl & Hwl & Hrl & Hel);
    [by rewrite Hrr|done|].
  exists nt', l. rewrite <-Hrr at 2. split_and!; try done.
  - rewrite <-E, Ea. simpl. destruct (Next_spec nt Hw Hz) as [_ Hn]. by rewrite Hn.
  - by rewrite Hel, reset_idemp.
Qed.

Lemma reset_all nt : all_nodes (resetExhausted nt) = all_nodes nt.
Proof.
  apply concat_same. intros z _. unfold zone_nodes. simpl.
  rewrite lookup_fmap. by destruct (nt_tree nt !! z).
Qed.

Lemma reset_same nt nt' : resetExhausted nt' = resetExhausted nt → all_nodes nt' = all_nodes nt.
Proof. intros E. by rewrite <-(reset_all nt'), E, reset_all. Qed.

Lemma nexts_split j k nt nt2 l :
  nexts (j + k) nt = Some (nt2, l) →
  ∃ nt1 l1 l2, nexts j nt = Some (nt1, l1) ∧ nexts k nt1 = Some (nt2, l2) ∧ l = l1 ++ l2.
Proof.
  revert nt l. induction j as [|j IH]; intros nt l; simpl; [by intros E; exists nt, [], l|].
  destruct (NodeTree_Next nt) as [[nt' x]|]; simpl; [|done].
  destruct (nexts (j + k) nt') as [[nt'' l']|] eqn:E; simpl; [|done]. intros [= <- <-].
  destruct (IH _ _ E) as (nt1 & l1 & l2 & -> & E2 & ->). simpl. by eexists _, _, l2.
Qed.

(** The tree has been enumerated since its last reset without nodes coming or going in
    between. A new tree is in a round. *)
Definition in_round nt : Prop :=
  rest_nodes nt = [] ∨
  ∃ k l, (k ≤ length (all_nodes nt))%nat ∧ nexts k (resetExhausted nt) = Some (nt, l).

(** After a round the calls go on as from the reset tree. *)
Lemma nexts_reset k nt :
  tree_wf nt → rest_nodes nt = [] → nt_zones nt ≠ [] → (0 < k)%nat → nexts k nt = nexts k (resetExhausted nt).
Proof.
  intros Hw Hr Hz Hk. destruct k as [|k]; [lia|]. simpl. destruct (Next_spec nt Hw Hz) as [_ Hn]. by rewrite Hn.
Qed.

(** From any place in a round, as many calls as there are nodes return every node once. *)
Lemma full_round nt : tree_wf nt → in_round nt →
  ∃ nt' l, nexts (length (all_nodes nt)) nt = Some (nt', l) ∧ l ≡ₚ all_nodes nt.
Proof.
  intros Hw [Hr|(k & l1 & Hk & E1)]; [destruct (nexts_round nt Hw Hr) as (nt' & l & E & Hl & _); eauto|].
  destruct (nexts_rest _ (resetExhausted nt) eq_refl (reset_wf nt Hw)) as (nt' & l & E & Hl & Hw' & Hr' & He').
  rewrite reset_rest in E, Hl by done. rewrite reset_idemp in He'.
  destruct (decide (k = O)) as [->|Hk0]; [injection E1 as E1 _; rewrite E1 in E; eauto|].
  replace (length (all_nodes nt)) with (k + (length (all_nodes nt) - k))%nat in E by lia.
  apply nexts_split in E as (nt1 & l1' & l2 & E1' & E2 & ->). rewrite E1 in E1'. injection E1' as <- <-.
  exists nt, (l2 ++ l1). split; [|by rewrite <-Hl, Permutation_app_comm].
  replace (length (all_nodes nt)) with (length (all_nodes nt) - k + k)%nat by lia.
  eapply nexts_app; [exact E2|]. rewrite nexts_reset, He'; [done|done|done| |lia]. intros Ez.
  apply reset_same in He'. unfold all_nodes in He' at 1. rewrite Ez in He'. simpl in He'. rewrite <-He' in Hk. simpl in Hk. lia.
Qed.

(** The enumeration stays in its round. *)
Lemma Next_in_round nt nt' x :
  tree_wf nt → in_round nt → NodeTree_Next nt = Some (nt', x) → tree_wf nt' ∧ in_round nt'.
Proof.
  intros Hw Hin E. destruct (decide (nt_zones nt = [])) as [Ez|Ez].
  { unfold NodeTree_Next in E. rewrite Ez in E. by injection E as <- _. }
  destruct (Next_total nt Hw Ez) as (nt1 & x1 & E' & Hw' & He'). rewrite E in E'. injection E' as <- <-. split; [done|]. pose proof (reset_same _ _ He') as Ha.
  destruct (decide (rest_nodes nt = [])) as [Hr|Hr].
  - right. exists 1%nat, [x]. rewrite Ha, He'. destruct (Next_spec nt Hw Ez) as [_ Hn].
    split; [|simpl; by rewrite <-(Hn Hr), E]. destruct (all_nodes nt) eqn:En; [|simpl; lia].
    by destruct (all_nodes_ne nt Hw Ez).
  - destruct Hin as [?|(k & l & Hk & Ek)]; [done|]. right. exists (k + 1)%nat, (l ++ [x]). rewrite Ha, He'. split.
    + destruct (nexts_rest _ (resetExhausted nt) eq_refl (reset_wf nt Hw)) as (nt1 & l1 & E1 & _ & _ & Hr1 & _).
      rewrite reset_rest in E1 by done. destruct (decide (k = length (all_nodes nt))) as [->|]; [|lia].
      rewrite Ek in E1. injection E1 as <- <-. done.
    + eapply nexts_app; [exact Ek|]. simpl. by rewrite E.
Qed.

Lemma nexts_in_round k nt nt' l :
  tree_wf nt → in_round nt → nexts k nt = Some (nt', l) → tree_wf nt' ∧ in_round nt'.
Proof.
  revert nt l. induction k as [|k IH]; intros nt l Hw Hin; simpl; [by intros [= <- _]|].
  destruct (NodeTree_Next nt) as [[nt1 x]|] eqn:E; simpl; [|done].
  destruct (nexts k nt1) as [[nt2 l2]|] eqn:E2; simpl; [|done]. intros [= <- _].
  destruct (Next_in_round nt nt1 x Hw Hin E) as [Hw1 Hin1]. by apply (IH nt1 l2).
Qed.

(** [Next] always returns, and enumerates round robin: from any state of a
    well-formed tree, the first calls return the nodes left in the current round, each
    once, and then every further block of [NumNodes] calls returns every node of
    the tree exactly once, whatever the sizes of the zones. *)
Theorem NodeTree_round_robin nt (rounds : nat) :
  tree_wf nt →
  ∃ nt1 left, nexts (length (rest_nodes nt)) nt = Some (nt1, left) ∧ left ≡ₚ rest_nodes nt ∧
  ∃ nt2 blocks, nexts (rounds * Z.to_nat (NodeTree_NumNodes nt)) nt1 = Some (nt2, concat blocks) ∧
    length blocks = rounds ∧ Forall (λ block, block ≡ₚ all_nodes nt) blocks.
Proof.
  intros Hw. unfold NodeTree_NumNodes. rewrite (tw_num _ Hw), Nat2Z.id.
  destruct (nexts_rest _ nt eq_refl Hw) as (nt1 & left & E & Hl & Hw1 & Hr1 & He1).
  exists nt1, left. split_and!; [done|done|]. apply reset_same in He1. rewrite <-He1.
  clear -Hw1 Hr1. revert nt1 Hw1 Hr1. induction rounds as [|r IH]; intros nt1 Hw1 Hr1.
  - by exists nt1, [].
  - destruct (nexts_round nt1 Hw1 Hr1) as (nt2 & l & E & Hl & Hw2 & Hr2 & He2).
    apply reset_same in He2. destruct (IH nt2 Hw2 Hr2) as (nt3 & bs & E3 & Hlen & Hbs).
    rewrite He2 in *. exists nt3, (l :: bs). simpl. rewrite (nexts_app _ _ _ _ _ _ _ E E3).
    split_and!; [done|by rewrite Hlen|by constructor].
Qed.

(** ** The tree as a set of nodes by zone *)

Lemma addNode_elem nt n z x :
  x ∈ zone_nodes (NodeTree_addNode nt n) z ↔
  (z = GetZoneKey n ∧ x = node_Name n) ∨ x ∈ zone_nodes nt z.
Proof.
  unfold NodeTree_addNode. set (z' := GetZoneKey n). unfold zone_nodes.
  destruct (decide (z = z')) as [->|Hne].
  - destruct (nt_tree nt !! z') as [na|] eqn:E.
    + rewrite existsb_name. case_bool_decide; simpl; [rewrite E; naive_solver|].
      rewrite lookup_insert_eq. simpl. set_solver.
    + simpl. rewrite lookup_insert_eq. simpl. set_solver.
  - destruct (nt_tree nt !! z') as [na|] eqn:E.
    + destruct (existsb _ _); [naive_solver|]. simpl. rewrite lookup_insert_ne by done. naive_solver.
    + simpl. rewrite lookup_insert_ne by done. naive_solver.
Qed.

Lemma removeNode_elem nt n nt' e z x :
  tree_wf nt → NodeTree_removeNode nt n = Some (nt', e) →
  x ∈ zone_nodes nt' z ↔ x ∈ zone_nodes nt z ∧ ¬ (z = GetZoneKey n ∧ x = node_Name n).
Proof.
  intros Hw. unfold NodeTree_removeNode. set (z' := GetZoneKey n). unfold zone_nodes.
  destruct (nt_tree nt !! z') as [na|] eqn:E.
  2:{ intros [= <- <-]. split; [|by intros []]. intros Hx. split; [done|]. intros [-> _].
      rewrite E in Hx. by apply not_elem_of_nil in Hx. }
  destruct (find_index _ _) as [i|] eqn:Ei.
  2:{ intros [= <- <-]. split; [|by intros []]. intros Hx. split; [done|]. intros [-> ->].
      rewrite E in Hx. apply (find_index_None _ _ Ei) in Hx. by apply bool_decide_eq_false in Hx. }
  destruct (find_index_Some _ _ _ Ei) as (y & Ey & ->%bool_decide_eq_true_1).
  destruct (tw_nodes _ Hw _ _ E) as [_ Hnd]. pose proof (slice_delete_perm _ _ _ Ey) as Hp.
  set (nodes := slice_delete i (na_nodes na)) in *. rewrite Hp in Hnd.
  apply NoDup_cons in Hnd as [Hnot _].
  assert (∀ t, (z = z' → (t : gmap string nodeArray) !! z = if bool_decide (length nodes = O) then None
      else Some (MkNodeArray nodes (na_lastIndex na))) → (z ≠ z' → t !! z = nt_tree nt !! z) →
    x ∈ (match t !! z with Some na => na_nodes na | None => [] end) ↔
    x ∈ (match nt_tree nt !! z with Some na => na_nodes na | None => [] end) ∧ ¬ (z = z' ∧ x = node_Name n)) as Hgen.
  { intros t H1 H2. destruct (decide (z = z')) as [->|Hne].
    - rewrite H1, E by done. rewrite Hp, elem_of_cons. case_bool_decide as Hl; simpl; [|naive_solver].
      apply nil_length_inv in Hl. rewrite Hl.
      split; [by intros ?%not_elem_of_nil|]. intros [[->|Hx] Hn]; [by destruct Hn|done].
    - rewrite H2 by done. naive_solver. }
  case_bool_decide as Hl.
  - unfold removeZone. simpl. destruct (removeZone_loop _ _ _ _ _); [|done]. intros [= <- <-]. apply Hgen; simpl.
    + intros ->. by rewrite lookup_delete_eq.
    + intros ?. by rewrite lookup_delete_ne, lookup_insert_ne.
  - intros [= <- <-]. apply Hgen; simpl.
    + intros ->. by rewrite lookup_insert_eq.
    + intros ?. by rewrite lookup_insert_ne.
Qed.

Inductive tree_op := OpAdd (n : Node) | OpRemove (n : Node) | OpUpdate (old new : Node) | OpNext.

Definition tree_exec nt (op : tree_op) : comp NodeTree :=
  match op with
  | OpAdd n => Some (NodeTree_AddNode nt n)
  | OpRemove n => fst <$> NodeTree_RemoveNode nt n
  | OpUpdate old new => NodeTree_UpdateNode nt (Some old) new
  | OpNext => fst <$> NodeTree_Next nt
  end.

Definition key n : string * string := (GetZoneKey n, node_Name n).

(** What the operation does to the set of nodes; an update within a zone does nothing. *)
Definition tree_model (s : gset (string * string)) (op : tree_op) : gset (string * string) :=
  match op with
  | OpAdd n => {[key n]} ∪ s
  | OpRemove n => s ∖ {[key n]}
  | OpUpdate old new =>
      if bool_decide (GetZoneKey old = GetZoneKey new) then s else {[key new]} ∪ (s ∖ {[key old]})
  | OpNext => s
  end.

Definition tree_set nt (s : gset (string * string)) : Prop :=
  tree_wf nt ∧ ∀ z x, x ∈ zone_nodes nt z ↔ (z, x) ∈ s.

Lemma reset_zone nt nt' z : resetExhausted nt' = resetExhausted nt → zone_nodes nt' z = zone_nodes nt z.
Proof.
  intros [= E _ _]. apply (f_equal (lookup z)) in E. rewrite !lookup_fmap in E. unfold zone_nodes.
  destruct (nt_tree nt' !! z), (nt_tree nt !! z); naive_solver.
Qed.

Lemma addNode_set nt n s : tree_set nt s → tree_set (NodeTree_addNode nt n) ({[key n]} ∪ s).
Proof.
  intros [Hw Hs]. split; [by apply addNode_spec|]. intros z x. rewrite addNode_elem, Hs. unfold key. set_solver.
Qed.

Lemma removeNode_set nt n s :
  tree_set nt s → ∃ nt' e, NodeTree_removeNode nt n = Some (nt', e) ∧ tree_set nt' (s ∖ {[key n]}).
Proof.
  intros [Hw Hs]. destruct (removeNode_spec nt n Hw) as (nt' & e & E & Hw' & _). exists nt', e.
  split; [done|]. split; [done|]. intros z x. rewrite (removeNode_elem _ _ _ _ _ _ Hw E), Hs. unfold key. set_solver.
Qed.

Lemma Next_set nt s : tree_set nt s → ∃ nt' x, NodeTree_Next nt = Some (nt', x) ∧ tree_set nt' s.
Proof.
  intros [Hw Hs]. destruct (decide (nt_zones nt = [])) as [Ez|Ez].
  { exists nt, EmptyString. unfold NodeTree_Next. by rewrite Ez. }
  destruct (Next_total nt Hw Ez) as (nt' & x & E & Hw' & He).
  exists nt', x. split; [done|]. split; [done|]. intros z y. rewrite (reset_zone nt nt' z He). apply Hs.
Qed.

Lemma tree_set_ext nt s s' : s ≡ s' → tree_set nt s → tree_set nt s'.
Proof. intros Hs [Hw Hz]. split; [done|]. intros z x. by rewrite <-Hs. Qed.

Lemma newNodeTree_set nodes : tree_set (newNodeTree nodes) (list_to_set (key <$> nodes)).
Proof.
  unfold newNodeTree, NodeTree_AddNode.
  assert (tree_set (MkNodeTree ∅ [] 0 0) ∅) as H0.
  { split; [|intros z x; unfold zone_nodes; simpl; rewrite lookup_empty; set_solver]. split; simpl.
    - constructor.
    - intros z. rewrite lookup_empty. split; [by intros ?%not_elem_of_nil|by intros []].
    - intros z na. by rewrite lookup_empty.
    - done. }
  apply (tree_set_ext _ (list_to_set (key <$> nodes) ∪ ∅)); [set_solver|].
  revert H0. generalize (MkNodeTree ∅ [] 0 0) (∅ : gset (string * string)).
  induction nodes as [|n nodes IH]; intros nt s Hs; simpl.
  - eapply tree_set_ext; [|done]. set_solver.
  - eapply tree_set_ext; [|by apply IH, addNode_set, Hs]. set_solver.
Qed.

Lemma tree_exec_set nt s op :
  tree_set nt s → ∃ nt', tree_exec nt op = Some nt' ∧ tree_set nt' (tree_model s op).
Proof.
  intros Hs. destruct op as [n|n|old new|]; simpl.
  - eexists. split; [done|]. by apply addNode_set.
  - destruct (removeNode_set nt n s Hs) as (nt' & e & E & Hs'). exists nt'. unfold NodeTree_RemoveNode.
    by rewrite E.
  - unfold NodeTree_UpdateNode. case_bool_decide; [by eexists|]. simpl.
    destruct (removeNode_set nt old s Hs) as (nt' & e & E & Hs'). rewrite E. simpl. eexists.
    split; [done|]. by apply addNode_set.
  - destruct (Next_set nt s Hs) as (nt' & x & E & Hs'). exists nt'. by rewrite E.
Qed.

Lemma concat_NoDup_size nt (s : gset (string * string)) :
  tree_set nt s → length (all_nodes nt) = size s.
Proof.
  intros [Hw Hs].
  assert (s = list_to_set (concat ((λ z, (z,.) <$> zone_nodes nt z) <$> nt_zones nt))) as ->.
  { apply set_eq. intros [z x]. rewrite <-Hs, elem_of_list_to_set. rewrite (list_elem_of_In (concat _)), in_concat. split.
    - intros Hx. exists ((z,.) <$> zone_nodes nt z). split; apply list_elem_of_In; [|by apply list_elem_of_fmap_2].
      apply (list_elem_of_fmap_2 (λ z, (z,.) <$> zone_nodes nt z)). apply (tw_zones _ Hw).
      unfold zone_nodes in Hx. destruct (nt_tree nt !! z); [done|]. by apply not_elem_of_nil in Hx.
    - intros (l & Hl%list_elem_of_In & Hx%list_elem_of_In).
      apply list_elem_of_fmap in Hl as (z' & -> & _). apply list_elem_of_fmap in Hx as (x' & [= -> ->] & ?). done. }
  rewrite size_list_to_set.
  - unfold all_nodes. clear. induction (nt_zones nt) as [|z l IH]; [done|].
    rewrite !fmap_cons. cbn [concat]. by rewrite !length_app, IH, length_fmap.
  - pose proof (tw_nodup _ Hw) as Hnd. clear Hs. induction (nt_zones nt) as [|z l IH]; simpl; [apply NoDup_nil_2|].
    apply NoDup_cons in Hnd as [Hz Hnd]. apply NoDup_app. split_and!; [| |by apply IH].
    + apply NoDup_fmap_2; [by intros ?? [= ->]|]. unfold zone_nodes.
      destruct (nt_tree nt !! z) as [na|] eqn:E; [by apply (tw_nodes _ Hw _ _ E)|constructor].
    + intros p (x & -> & _)%list_elem_of_fmap Hp%list_elem_of_In%in_concat. destruct Hp as (l' & Hl & Hx).
      apply list_elem_of_In, list_elem_of_fmap in Hl as (z' & -> & Hz').
      apply list_elem_of_In, list_elem_of_fmap in Hx as (x' & [= <- _] & _). done.
Qed.

(** C32: the tree refines a set of (zone, name) pairs: after any sequence of
    [AddNode], [RemoveNode], [UpdateNode] and [Next] on a new tree no operation
    panics, the zones hold exactly the nodes of the abstract set, every name once
    per zone and no zone empty, and [NumNodes] is the size of the set. *)
Theorem NodeTree_refines_set (nodes : list Node) (ops : list tree_op) :
  let s := foldl tree_model (list_to_set (key <$> nodes)) ops in
  ∃ nt, foldl (λ r op, nt ← r; tree_exec nt op) (Some (newNodeTree nodes)) ops = Some nt ∧
    tree_wf nt ∧ (∀ z x, x ∈ zone_nodes nt z ↔ (z, x) ∈ s) ∧ NodeTree_NumNodes nt = Z.of_nat (size s).
Proof.
  pose proof (newNodeTree_set nodes) as Hs. revert Hs.
  generalize (newNodeTree nodes) (list_to_set (key <$> nodes) : gset (string * string)).
  induction ops as [|op ops IH]; intros nt s Hs; simpl.
  - exists nt. pose proof Hs as [Hw ?]. split_and!; try done. unfold NodeTree_NumNodes.
    by rewrite (tw_num _ Hw), (concat_NoDup_size _ _ Hs).
  - destruct (tree_exec_set nt s op Hs) as (nt' & -> & Hs'). by apply IH.
Qed.
End proofs.

(** ** Example: two zones of different sizes *)
Module NodeTreeExample.
#[local] Existing Instance docK8s.

Definition mkNode (name zone : string) : Node :=
  MkNode (MkObjectMeta name EmptyString EmptyString EmptyString 0
    {["failure-domain.beta.kubernetes.io/zone"%string := zone]} ∅ 0 None 0) [] false ∅ ∅ [] [] 0.

Definition tree : NodeTree :=
  newNodeTree [mkNode "a1" "a"; mkNode "a2" "a"; mkNode "b1" "b"; mkNode "a3" "a"].

Lemma tree_ok : tree_wf tree.
Proof. apply newNodeTree_set. Qed.

(** After one call the rest of the round is left, and then come full rounds. *)
Lemma NodeTree_round_robin_witness :
  ∃ nt, nexts 1 tree = Some (nt, ["a1"%string]) ∧
  ∃ nt1 left, nexts (length (rest_nodes nt)) nt = Some (nt1, left) ∧ left ≡ₚ rest_nodes nt ∧
  ∃ nt2 blocks, nexts (2 * Z.to_nat (NodeTree_NumNodes nt)) nt1 = Some (nt2, concat blocks) ∧
    length blocks = 2%nat ∧ Forall (λ block, block ≡ₚ all_nodes nt) blocks.
Proof.
  destruct (Next_set tree (list_to_set (key <$> [mkNode "a1" "a"; mkNode "a2" "a"; mkNode "b1" "b"; mkNode "a3" "a"])))
    as (nt & x & E & [Hw _]); [apply newNodeTree_set|].
  exists nt. split.
  - cbn [nexts]. rewrite E. cbn. assert (x = "a1"%string) as ->; [|done].
    apply (f_equal (fmap snd)) in E. vm_compute in E. by injection E.
  - exact (NodeTree_round_robin nt 2 Hw).
Defined.

Example nine_calls :
  snd <$> nexts 9 tree = Some ["a1"; "b1"; "a2"; "a3"; "a1"; "b1"; "a2"; "a3"; "a1"]%string.
Proof. vm_compute. reflexivity. Qed.
End NodeTreeExample.
