(* ===== verification/NodeInfo.v ===== *)
(** * Node information (src/pkg/scheduler/info/node_info.go, info/util.go,
    info/snapshot.go)

    The aggregates that the scheduler keeps per node: requested resources, used
    ports, pods with affinity.  The package variable [generation] is threaded
    through the operations as the argument [gen].  The receiver of the accessors
    may be nil ([None]).  [NodeInfo_inv] says that every aggregate is the one of
    the list of pods; [AddPod_inv] and [RemovePod_inv] keep it. *)
From S2P Require Import Prelude Heap Api Resource HostPorts.

Record ImageStateSummary := MkImageStateSummary { Size : Z; NumNodes : Z }.
Record nodeTransientInfo := MkNodeTransientInfo { AllocatableVolumesCount : Z; RequestedVolumes : Z }.
Definition initializeNodeTransientInfo : nodeTransientInfo := MkNodeTransientInfo 0 0.

(** The lock is not modelled. *)
Record TransientSchedulerInfo := MkTransientSchedulerInfo { TransNodeInfo : nodeTransientInfo }.
Definition NewTransientSchedulerInfo : TransientSchedulerInfo :=
  MkTransientSchedulerInfo initializeNodeTransientInfo.
Definition ResetTransientSchedulerInfo (t : TransientSchedulerInfo) : TransientSchedulerInfo :=
  MkTransientSchedulerInfo (MkNodeTransientInfo 0 0).

#[global] Instance ImageStateSummary_eq_dec : EqDecision ImageStateSummary.
Proof. solve_decision. Defined.

Record NodeInfo := MkNodeInfo {
  ni_node : option Node;
  ni_pods : list Pod;
  ni_podsWithAffinity : list Pod;
  ni_usedPorts : HostPortInfo;
  ni_requestedResource : Resource;
  ni_nonzeroRequest : Resource;
  ni_allocatableResource : Resource;
  ni_taints : list Taint;
  ni_taintsErr : option error;
  ni_imageStates : gmap string ImageStateSummary;
  ni_TransientInfo : TransientSchedulerInfo;
  ni_memoryPressureCondition : string;
  ni_diskPressureCondition : string;
  ni_pidPressureCondition : string;
  ni_generation : Z
}.

Definition ConditionUnknown : string := "Unknown".
Definition NodeMemoryPressure : string := "MemoryPressure".
Definition NodeDiskPressure : string := "DiskPressure".
Definition NodePIDPressure : string := "PIDPressure".

(** The new counter; the value returned is the new counter too. *)
Definition nextGeneration (gen : Z) : Z := add64 gen 1.

(** ** Accessors *)
Definition NodeInfo_Node (n : option NodeInfo) : option Node := n ← n; ni_node n.
Definition NodeInfo_Pods (n : option NodeInfo) : list Pod := from_option ni_pods [] n.
Definition NodeInfo_UsedPorts (n : option NodeInfo) : HostPortInfo := from_option ni_usedPorts ∅ n.
Definition NodeInfo_ImageStates (n : option NodeInfo) : gmap string ImageStateSummary :=
  from_option ni_imageStates ∅ n.
Definition NodeInfo_PodsWithAffinity (n : option NodeInfo) : list Pod :=
  from_option ni_podsWithAffinity [] n.
Definition NodeInfo_AllowedPodNumber (n : option NodeInfo) : Z :=
  from_option (λ n, AllowedPodNumber (ni_allocatableResource n)) 0 n.
Definition NodeInfo_Taints (n : option NodeInfo) : list Taint * option error :=
  from_option (λ n, (ni_taints n, ni_taintsErr n)) ([], None) n.
Definition NodeInfo_MemoryPressureCondition (n : option NodeInfo) : string :=
  from_option ni_memoryPressureCondition ConditionUnknown n.
Definition NodeInfo_DiskPressureCondition (n : option NodeInfo) : string :=
  from_option ni_diskPressureCondition ConditionUnknown n.
Definition NodeInfo_PIDPressureCondition (n : option NodeInfo) : string :=
  from_option ni_pidPressureCondition ConditionUnknown n.
Definition NodeInfo_RequestedResource (n : option NodeInfo) : Resource :=
  from_option ni_requestedResource emptyResource n.
Definition NodeInfo_NonZeroRequest (n : option NodeInfo) : Resource :=
  from_option ni_nonzeroRequest emptyResource n.
Definition NodeInfo_AllocatableResource (n : option NodeInfo) : Resource :=
  from_option ni_allocatableResource emptyResource n.
Definition NodeInfo_GetGeneration (n : option NodeInfo) : Z := from_option ni_generation 0 n.

(** [pod == nil] is not modelled: no caller passes nil. *)
Definition hasPodAffinityConstraints (pod : Pod) : bool :=
  match spec_Affinity (pod_Spec pod) with
  | None => false
  | Some affinity =>
      bool_decide (is_Some (aff_PodAffinity affinity)) || bool_decide (is_Some (aff_PodAntiAffinity affinity))
  end.

Definition GetPodKey (pod : Pod) : error + string :=
  if bool_decide (pod_UID pod = EmptyString) then inl "Cannot get cache key for pod with empty UID"%string
  else inr (pod_UID pod).

(** The comparison [k1 == k2] of the loops of [RemovePod]: a pod without key is skipped. *)
Definition has_key (k1 : string) (p : Pod) : bool :=
  match GetPodKey p with inl _ => false | inr k2 => bool_decide (k1 = k2) end.

(** The loop of [UpdateUsedPorts] over containers and ports. *)
Definition pod_ports (pod : Pod) : list ContainerPort := pod_Containers pod ≫= Ports.

Definition UpdatePorts (h : HostPortInfo) (pod : Pod) (add : bool) : HostPortInfo :=
  foldl (λ h podPort,
    if add then HostPortInfo_Add h (HostIP podPort) (Protocol podPort) (HostPort podPort)
    else HostPortInfo_Remove h (HostIP podPort) (Protocol podPort) (HostPort podPort)) h (pod_ports pod).

Section node_info.
Context `{K8sLib} `{MapRange}.
Implicit Types (n : NodeInfo) (pod : Pod) (gen : Z).

Definition SetPods n (pods : list Pod) : NodeInfo :=
  MkNodeInfo (ni_node n) pods (ni_podsWithAffinity n) (ni_usedPorts n) (ni_requestedResource n)
    (ni_nonzeroRequest n) (ni_allocatableResource n) (ni_taints n) (ni_taintsErr n) (ni_imageStates n)
    (ni_TransientInfo n) (ni_memoryPressureCondition n) (ni_diskPressureCondition n)
    (ni_pidPressureCondition n) (ni_generation n).
Definition SetUsedPorts n (newUsedPorts : HostPortInfo) : NodeInfo :=
  MkNodeInfo (ni_node n) (ni_pods n) (ni_podsWithAffinity n) newUsedPorts (ni_requestedResource n)
    (ni_nonzeroRequest n) (ni_allocatableResource n) (ni_taints n) (ni_taintsErr n) (ni_imageStates n)
    (ni_TransientInfo n) (ni_memoryPressureCondition n) (ni_diskPressureCondition n)
    (ni_pidPressureCondition n) (ni_generation n).
Definition SetImageStates n (newImageStates : gmap string ImageStateSummary) : NodeInfo :=
  MkNodeInfo (ni_node n) (ni_pods n) (ni_podsWithAffinity n) (ni_usedPorts n) (ni_requestedResource n)
    (ni_nonzeroRequest n) (ni_allocatableResource n) (ni_taints n) (ni_taintsErr n) newImageStates
    (ni_TransientInfo n) (ni_memoryPressureCondition n) (ni_diskPressureCondition n)
    (ni_pidPressureCondition n) (ni_generation n).
Definition SetTaints n (newTaints : list Taint) : NodeInfo :=
  MkNodeInfo (ni_node n) (ni_pods n) (ni_podsWithAffinity n) (ni_usedPorts n) (ni_requestedResource n)
    (ni_nonzeroRequest n) (ni_allocatableResource n) newTaints (ni_taintsErr n) (ni_imageStates n)
    (ni_TransientInfo n) (ni_memoryPressureCondition n) (ni_diskPressureCondition n)
    (ni_pidPressureCondition n) (ni_generation n).
Definition SetRequestedResource n (newResource : Resource) : NodeInfo :=
  MkNodeInfo (ni_node n) (ni_pods n) (ni_podsWithAffinity n) (ni_usedPorts n) newResource
    (ni_nonzeroRequest n) (ni_allocatableResource n) (ni_taints n) (ni_taintsErr n) (ni_imageStates n)
    (ni_TransientInfo n) (ni_memoryPressureCondition n) (ni_diskPressureCondition n)
    (ni_pidPressureCondition n) (ni_generation n).
Definition SetNonZeroRequest n (newResource : Resource) : NodeInfo :=
  MkNodeInfo (ni_node n) (ni_pods n) (ni_podsWithAffinity n) (ni_usedPorts n) (ni_requestedResource n)
    newResource (ni_allocatableResource n) (ni_taints n) (ni_taintsErr n) (ni_imageStates n)
    (ni_TransientInfo n) (ni_memoryPressureCondition n) (ni_diskPressureCondition n)
    (ni_pidPressureCondition n) (ni_generation n).
Definition SetGeneration n (newGeneration : Z) : NodeInfo :=
  MkNodeInfo (ni_node n) (ni_pods n) (ni_podsWithAffinity n) (ni_usedPorts n) (ni_requestedResource n)
    (ni_nonzeroRequest n) (ni_allocatableResource n) (ni_taints n) (ni_taintsErr n) (ni_imageStates n)
    (ni_TransientInfo n) (ni_memoryPressureCondition n) (ni_diskPressureCondition n)
    (ni_pidPressureCondition n) newGeneration.
Definition SetAllocatableResource gen n (allocatableResource : Resource) : Z * NodeInfo :=
  let gen := nextGeneration gen in
  (gen,
   MkNodeInfo (ni_node n) (ni_pods n) (ni_podsWithAffinity n) (ni_usedPorts n) (ni_requestedResource n)
     (ni_nonzeroRequest n) allocatableResource (ni_taints n) (ni_taintsErr n) (ni_imageStates n)
     (ni_TransientInfo n) (ni_memoryPressureCondition n) (ni_diskPressureCondition n)
     (ni_pidPressureCondition n) gen).

Definition UpdateUsedPorts n pod (add : bool) : NodeInfo :=
  SetUsedPorts n (UpdatePorts (ni_usedPorts n) pod add).

(** The change of [requestedResource]: the number of pods stays. *)
Definition request_update (f : Z → Z → Z) (r res : Resource) : Resource :=
  MkResource (f (MilliCPU r) (MilliCPU res)) (f (Memory r) (Memory res))
    (f (EphemeralStorage r) (EphemeralStorage res)) (AllowedPodNumber r)
    (scalars_update f (ScalarResources r) (ScalarResources res)).

(** The change of [nonzeroRequest]. *)
Definition nonzero_update (f : Z → Z → Z) (r : Resource) (cpu mem : Z) : Resource :=
  MkResource (f (MilliCPU r) cpu) (f (Memory r) mem) (EphemeralStorage r) (AllowedPodNumber r)
    (ScalarResources r).

Definition NodeInfo_AddPod gen n pod : Z * NodeInfo :=
  let '(res, non0CPU, non0Mem) := calculateResource pod in
  let gen := nextGeneration gen in
  (gen,
   MkNodeInfo (ni_node n) (ni_pods n ++ [pod])
     (if hasPodAffinityConstraints pod then ni_podsWithAffinity n ++ [pod] else ni_podsWithAffinity n)
     (UpdatePorts (ni_usedPorts n) pod true)
     (request_update add64 (ni_requestedResource n) res)
     (nonzero_update add64 (ni_nonzeroRequest n) non0CPU non0Mem)
     (ni_allocatableResource n) (ni_taints n) (ni_taintsErr n) (ni_imageStates n) (ni_TransientInfo n)
     (ni_memoryPressureCondition n) (ni_diskPressureCondition n) (ni_pidPressureCondition n) gen).

Definition NewNodeInfo gen (pods : list Pod) : Z * NodeInfo :=
  let gen := nextGeneration gen in
  let ni := MkNodeInfo None [] [] ∅ emptyResource emptyResource emptyResource [] None ∅
              NewTransientSchedulerInfo EmptyString EmptyString EmptyString gen in
  foldl (λ s pod, let '(gen, ni) := s in NodeInfo_AddPod gen ni pod) (gen, ni) pods.

Definition NodeInfo_RemovePod gen n pod : Z * NodeInfo * option error :=
  match GetPodKey pod with
  | inl err => (gen, n, Some err)
  | inr k1 =>
      let podsWithAffinity :=
        match find_index (has_key k1) (ni_podsWithAffinity n) with
        | Some i => swap_delete i (ni_podsWithAffinity n)
        | None => ni_podsWithAffinity n
        end in
      match find_index (has_key k1) (ni_pods n) with
      | Some i =>
          let '(res, non0CPU, non0Mem) := calculateResource pod in
          let gen := nextGeneration gen in
          (gen,
           MkNodeInfo (ni_node n) (swap_delete i (ni_pods n)) podsWithAffinity
             (UpdatePorts (ni_usedPorts n) pod false)
             (request_update sub64 (ni_requestedResource n) res)
             (nonzero_update sub64 (ni_nonzeroRequest n) non0CPU non0Mem)
             (ni_allocatableResource n) (ni_taints n) (ni_taintsErr n) (ni_imageStates n)
             (ni_TransientInfo n) (ni_memoryPressureCondition n) (ni_diskPressureCondition n)
             (ni_pidPressureCondition n) gen,
           None)
      | None =>
          let n := MkNodeInfo (ni_node n) (ni_pods n) podsWithAffinity (ni_usedPorts n)
             (ni_requestedResource n) (ni_nonzeroRequest n) (ni_allocatableResource n) (ni_taints n)
             (ni_taintsErr n) (ni_imageStates n) (ni_TransientInfo n) (ni_memoryPressureCondition n)
             (ni_diskPressureCondition n) (ni_pidPressureCondition n) (ni_generation n) in
          (gen, n,
           Some (match ni_node n with
                 | None => "node is nil in nodeinfo when remove pod " +:+ pod_Name pod
                 | Some node => "no corresponding pod " +:+ pod_Name pod +:+ " in pods of node " +:+ node_Name node
                 end)%string)
      end
  end.

(** The loop over the conditions of the node: memory, disk and PID pressure. *)
Definition set_condition (c : string * string * string) (cond : NodeCondition) : string * string * string :=
  let '(mem, disk, pid) := c in
  if bool_decide (ncond_Type cond = NodeMemoryPressure) then (ncond_Status cond, disk, pid)
  else if bool_decide (ncond_Type cond = NodeDiskPressure) then (mem, ncond_Status cond, pid)
  else if bool_decide (ncond_Type cond = NodePIDPressure) then (mem, disk, ncond_Status cond)
  else c.

(** Always returns a nil error. *)
Definition NodeInfo_SetNode gen n (node : Node) : Z * NodeInfo :=
  let '(mem, disk, pid) :=
    foldl set_condition (ni_memoryPressureCondition n, ni_diskPressureCondition n, ni_pidPressureCondition n)
      (node_Conditions node) in
  let gen := nextGeneration gen in
  (gen,
   MkNodeInfo (Some node) (ni_pods n) (ni_podsWithAffinity n) (ni_usedPorts n) (ni_requestedResource n)
     (ni_nonzeroRequest n) (NewResource (Allocatable node)) (Taints node) (ni_taintsErr n)
     (ni_imageStates n) NewTransientSchedulerInfo mem disk pid gen).

Definition NodeInfo_RemoveNode gen n : Z * NodeInfo :=
  let gen := nextGeneration gen in
  (gen,
   MkNodeInfo None (ni_pods n) (ni_podsWithAffinity n) (ni_usedPorts n) (ni_requestedResource n)
     (ni_nonzeroRequest n) emptyResource [] None ∅ (ni_TransientInfo n)
     ConditionUnknown ConditionUnknown ConditionUnknown gen).

(** The copies of slices and maps are values; [∅] for the empty ones. *)
Definition NodeInfo_Clone n : NodeInfo :=
  MkNodeInfo (ni_node n)
    (if bool_decide (0 < length (ni_pods n))%nat then [] ++ ni_pods n else [])
    (if bool_decide (0 < length (ni_podsWithAffinity n))%nat then [] ++ ni_podsWithAffinity n else [])
    (foldl (λ h e, <[e.1 := e.2]> h) ∅ (range (ni_usedPorts n)))
    (Resource_Clone (ni_requestedResource n)) (Resource_Clone (ni_nonzeroRequest n))
    (Resource_Clone (ni_allocatableResource n))
    (if bool_decide (0 < length (ni_taints n))%nat then [] ++ ni_taints n else [])
    (ni_taintsErr n) (ni_imageStates n) (ni_TransientInfo n)
    (ni_memoryPressureCondition n) (ni_diskPressureCondition n) (ni_pidPressureCondition n)
    (ni_generation n).

Definition VolumeLimits n : gmap string Z :=
  foldl (λ volumeLimits e, if IsAttachableVolumeResourceName e.1 then <[e.1 := e.2]> volumeLimits else volumeLimits)
    ∅ (range (ScalarResources (NodeInfo_AllocatableResource (Some n)))).

(** [podKey, _ := GetPodKey(p)] *)
Definition PodKey_or_empty pod : string := match GetPodKey pod with inl _ => EmptyString | inr k => k end.

Definition FilterOutPods n (pods : list Pod) : list Pod :=
  match NodeInfo_Node (Some n) with
  | None => pods
  | Some node =>
      foldl (λ filtered p,
        if negb (bool_decide (pod_NodeName p = node_Name node)) then filtered ++ [p]
        else if existsb (λ np, bool_decide (PodKey_or_empty np = PodKey_or_empty p)) (NodeInfo_Pods (Some n))
        then filtered ++ [p] else filtered) [] pods
  end.

(** [n.node.Name] panics on a nil node. *)
Definition NodeInfo_Filter n pod : comp bool :=
  node ← ni_node n;
  Some (if negb (bool_decide (pod_NodeName pod = node_Name node)) then true
        else existsb (λ p, bool_decide (pod_Name p = pod_Name pod) &&
                           bool_decide (pod_Namespace p = pod_Namespace pod)) (ni_pods n)).

(** ** info/util.go *)

(** [imageExistenceMap[name].Insert(node.Name)], creating the set. *)
Definition createImageExistenceMap (nodes : list Node) : gmap string (gset string) :=
  foldl (λ m node,
    foldl (λ m image,
      foldl (λ m name,
        match m !! name with
        | None => <[name := {[ node_Name node ]}]> m
        | Some s => <[name := {[ node_Name node ]} ∪ s]> m
        end) m (Names image)) m (Images node)) ∅ nodes.

Definition getNodeImageStates (node : Node) (imageExistenceMap : gmap string (gset string)) :
    gmap string ImageStateSummary :=
  foldl (λ m image,
    foldl (λ m name,
      <[name := MkImageStateSummary (SizeBytes image)
                  (Z.of_nat (size (default ∅ (imageExistenceMap !! name))))]> m) m (Names image))
    ∅ (Images node).

(** The entry of a node name, created when absent. *)
Definition get_or_new gen (m : gmap string NodeInfo) (name : string) : Z * NodeInfo :=
  match m !! name with Some ni => (gen, ni) | None => NewNodeInfo gen [] end.

Definition CreateNodeNameToInfoMap gen (pods : list Pod) (nodes : list Node) : Z * gmap string NodeInfo :=
  let s := foldl (λ (s : Z * gmap string NodeInfo) pod,
    let '(gen, m) := s in
    let '(gen, ni) := get_or_new gen m (pod_NodeName pod) in
    let '(gen, ni) := NodeInfo_AddPod gen ni pod in
    (gen, <[pod_NodeName pod := ni]> m)) (gen, ∅) pods in
  let imageExistenceMap := createImageExistenceMap nodes in
  foldl (λ (s : Z * gmap string NodeInfo) node,
    let '(gen, m) := s in
    let '(gen, ni) := get_or_new gen m (node_Name node) in
    let '(gen, ni) := NodeInfo_SetNode gen ni node in
    (gen, <[node_Name node := SetImageStates ni (getNodeImageStates node imageExistenceMap)]> m)) s nodes.

(** ** info/snapshot.go *)
Record NodeInfoSnapshot := MkNodeInfoSnapshot { NodeInfoMap : gmap string NodeInfo; snap_Generation : Z }.
Record Snapshot := MkSnapshot { AssumedPods : gmap string bool; snap_Nodes : gmap string NodeInfo }.

Definition NodeInfoSnapshot_Nodes (ns : NodeInfoSnapshot) : list Node :=
  foldl (λ result e, match ni_node e.2 with Some node => result ++ [node] | None => result end) []
    (range (NodeInfoMap ns)).

End node_info.

(** ** Reference definitions: aggregates of a list of pods *)

Section aggregates.
Context {K8s : K8sLib} {Laws : K8sLaws} {Range : MapRange}.
Implicit Types (n : NodeInfo) (pod p q : Pod) (pods : list Pod) (gen : Z).

(** What one pod adds to the requested resources of its node, and to the
    non-zero requests. *)
Definition pod_request pod : Resource :=
  let '(res, _, _) := calculateResource pod in
  MkResource (MilliCPU res) (Memory res) (EphemeralStorage res) 0 (ScalarResources res).
Definition pod_nonzero pod : Resource :=
  let '(_, cpu, mem) := calculateResource pod in MkResource cpu mem 0 0 ∅.

Definition pods_sum (f : Pod → Resource) pods : Resource :=
  foldr (λ p r, rplus (f p) r) emptyResource pods.

(** The host ports of a pod, as bindings. *)
Definition pod_bindings pod : list (string * ProtocolPort) :=
  omap (λ cp, binding (HostIP cp) (Protocol cp) (HostPort cp)) (pod_ports pod).

Record NodeInfo_inv n : Prop := {
  nv_keys : NoDup (pod_UID <$> ni_pods n);
  nv_uids p : p ∈ ni_pods n → pod_UID p ≠ EmptyString;
  nv_request : ni_requestedResource n ≡ pods_sum pod_request (ni_pods n);
  nv_nonzero : ni_nonzeroRequest n ≡ pods_sum pod_nonzero (ni_pods n);
  nv_int64 : resource_int64 (ni_requestedResource n) ∧ resource_int64 (ni_nonzeroRequest n);
  nv_affinity : ni_podsWithAffinity n ≡ₚ filter (λ p, hasPodAffinityConstraints p) (ni_pods n);
  nv_ports_wf : ports_wf (ni_usedPorts n)
}.

(** A host port is in use exactly if a pod binds it. *)
Definition ports_ok n : Prop :=
  ∀ b, used (ni_usedPorts n) b ↔ ∃ p, p ∈ ni_pods n ∧ b ∈ pod_bindings p.

(** ** Sums *)

Lemma calculateResource_int64 pod :
  let '(res, cpu, mem) := calculateResource pod in resource_int64 res ∧ int64 cpu ∧ int64 mem.
Proof.
  unfold calculateResource.
  assert (∀ l (a : Resource * Z * Z), (let '(res, cpu, mem) := a in resource_int64 res ∧ int64 cpu ∧ int64 mem) →
    let '(res, cpu, mem) := foldl (λ a c, let '(res, non0CPU, non0Mem) := a in
      let '(cpu, mem) := GetNonzeroRequests (Requests c) in
      (Resource_Add res (Requests c), add64 non0CPU cpu, add64 non0Mem mem)) a l in
    resource_int64 res ∧ int64 cpu ∧ int64 mem) as Hl.
  { induction l as [|c l IH]; intros [[res cpu] mem] Ha; simpl; [done|]. apply IH. simpl.
    destruct Ha as (? & ? & ?). split_and!; auto with sched. by apply Resource_Add_int64. }
  apply Hl. split_and!; [apply emptyResource_int64|done..].
Qed.

Lemma pod_request_int64 pod : resource_int64 (pod_request pod).
Proof.
  unfold pod_request. pose proof (calculateResource_int64 pod) as Hc.
  destruct (calculateResource pod) as [[res cpu] mem], Hc as ((? & ? & ? & ? & ?) & ? & ?). by split_and!.
Qed.
Lemma pod_nonzero_int64 pod : resource_int64 (pod_nonzero pod).
Proof.
  unfold pod_nonzero. pose proof (calculateResource_int64 pod) as Hc.
  destruct (calculateResource pod) as [[res cpu] mem], Hc as (_ & ? & ?). by split_and!.
Qed.

Lemma pods_sum_int64 f pods : (∀ p, resource_int64 (f p)) → resource_int64 (pods_sum f pods).
Proof. intros Hf. destruct pods; simpl; [apply emptyResource_int64|apply rplus_int64, Hf]. Qed.

Lemma pods_sum_perm f pods pods' :
  (∀ p, resource_int64 (f p)) → pods ≡ₚ pods' → pods_sum f pods ≡ pods_sum f pods'.
Proof.
  intros Hf. induction 1 as [|p l l' _ IH|p q l|l1 l2 l3 _ IH1 _ IH2]; simpl.
  - done.
  - apply rplus_proper; auto.
  - rewrite !rplus_assoc by auto. apply rplus_proper; [apply rplus_int64; auto..| |done].
    apply rplus_comm; auto.
  - by rewrite IH1.
Qed.

(** The updates of the requests are sums and differences. *)
Lemma request_add r pod :
  resource_int64 r → request_update add64 r (calculateResource pod).1.1 ≡ rplus r (pod_request pod).
Proof.
  intros Hr. unfold pod_request. destruct (calculateResource pod) as [[res cpu] mem]. simpl.
  split_and!; simpl; try done. unfold add64. rewrite Z.add_0_r, wrap64_id; [done|apply Hr].
Qed.
Lemma request_sub r pod :
  resource_int64 r → request_update sub64 r (calculateResource pod).1.1 ≡ rminus r (pod_request pod).
Proof.
  intros Hr. unfold pod_request. destruct (calculateResource pod) as [[res cpu] mem]. simpl.
  split_and!; simpl; try done. unfold sub64. rewrite Z.sub_0_r, wrap64_id; [done|apply Hr].
Qed.
Lemma nonzero_add r pod :
  resource_int64 r →
  nonzero_update add64 r (calculateResource pod).1.2 (calculateResource pod).2 ≡ rplus r (pod_nonzero pod).
Proof.
  intros (? & ? & ? & ? & ?). unfold pod_nonzero. destruct (calculateResource pod) as [[res cpu] mem]. simpl.
  split_and!; simpl; try done; try (unfold add64; by rewrite Z.add_0_r, wrap64_id).
  intros k. rewrite scalars_add by done. unfold at0 at 3. rewrite lookup_empty. simpl. unfold add64.
  by rewrite Z.add_0_r, wrap64_id.
Qed.
Lemma nonzero_sub r pod :
  resource_int64 r →
  nonzero_update sub64 r (calculateResource pod).1.2 (calculateResource pod).2 ≡ rminus r (pod_nonzero pod).
Proof.
  intros (? & ? & ? & ? & ?). unfold pod_nonzero. destruct (calculateResource pod) as [[res cpu] mem]. simpl.
  split_and!; simpl; try done; try (unfold sub64; by rewrite Z.sub_0_r, wrap64_id).
  intros k. rewrite scalars_sub by done. unfold at0 at 3. rewrite lookup_empty. simpl. unfold sub64.
  by rewrite Z.sub_0_r, wrap64_id.
Qed.

Lemma request_update_int64 f r res :
  (∀ x y, int64 (f x y)) → resource_int64 r → resource_int64 (request_update f r res).
Proof.
  intros Hf (? & ? & ? & ? & ?). split_and!; simpl; auto. intros k. by apply scalars_update_int64.
Qed.
Lemma nonzero_update_int64 f r cpu mem :
  (∀ x y, int64 (f x y)) → resource_int64 r → resource_int64 (nonzero_update f r cpu mem).
Proof. intros Hf (? & ? & ? & ? & ?). split_and!; simpl; auto. Qed.

(** Removing what was summed. *)
Lemma sum_remove f r pods pods' p :
  (∀ q, resource_int64 (f q)) → resource_int64 r → r ≡ pods_sum f pods → pods ≡ₚ p :: pods' →
  rminus r (f p) ≡ pods_sum f pods'.
Proof.
  intros Hf Hr E Hp. rewrite (rminus_proper r (rplus (pods_sum f pods') (f p)) (f p) (f p)).
  - apply rplus_rminus, pods_sum_int64, Hf.
  - done.
  - apply rplus_int64, pods_sum_int64, Hf.
  - rewrite E, (pods_sum_perm f _ _ Hf Hp). simpl. apply rplus_comm; [apply Hf|apply pods_sum_int64, Hf].
  - done.
Qed.
Lemma sum_add f r pods p :
  (∀ q, resource_int64 (f q)) → resource_int64 r → r ≡ pods_sum f pods →
  rplus r (f p) ≡ pods_sum f (pods ++ [p]).
Proof.
  intros Hf Hr E. rewrite (pods_sum_perm f (pods ++ [p]) (p :: pods)) by (auto using Permutation_app_comm).
  simpl. rewrite (rplus_comm r) by auto. apply rplus_proper; auto.
Qed.

(** ** Ports *)

Lemma UpdatePorts_add h pod b :
  used (UpdatePorts h pod true) b ↔ used h b ∨ b ∈ pod_bindings pod.
Proof.
  unfold UpdatePorts, pod_bindings. generalize (pod_ports pod). intros l. revert h.
  induction l as [|cp l IH]; intros h; simpl; [set_solver|]. rewrite IH, Add_used.
  destruct (binding _ _ _) as [c|]; [|naive_solver]. rewrite elem_of_cons. naive_solver.
Qed.
Lemma UpdatePorts_remove h pod b :
  used (UpdatePorts h pod false) b ↔ used h b ∧ b ∉ pod_bindings pod.
Proof.
  unfold UpdatePorts, pod_bindings. generalize (pod_ports pod). intros l. revert h.
  induction l as [|cp l IH]; intros h; simpl; [set_solver|]. rewrite IH, Remove_used.
  destruct (binding _ _ _) as [c|]; [|naive_solver]. rewrite not_elem_of_cons. naive_solver.
Qed.
Lemma UpdatePorts_wf h pod add : ports_wf h → ports_wf (UpdatePorts h pod add).
Proof.
  unfold UpdatePorts. generalize (pod_ports pod). intros l. revert h.
  induction l as [|cp l IH]; intros h Hw; simpl; [done|]. apply IH.
  destruct add; [by apply Add_wf|by apply Remove_wf].
Qed.

(** Two tables with the same bindings are equal. *)
Lemma ports_ext h h' : ports_wf h → ports_wf h' → (∀ b, used h b ↔ used h' b) → h = h'.
Proof.
  intros Hw Hw' Hu.
  assert (∀ h h' ip m, ports_wf h → (∀ b, used h b ↔ used h' b) → h !! ip = Some m →
    ∃ m', h' !! ip = Some m' ∧ m ⊆ m') as Hsub.
  { clear. intros h h' ip m Hw Hu E. destruct (set_choose_L m) as [pp Hpp]; [by apply (Hw _ _ E)|].
    destruct (Hu (ip, pp)) as [(m' & E' & _) _]; [by exists m|]. exists m'. split; [done|].
    intros qq Hqq. destruct (Hu (ip, qq)) as [(m'' & E'' & ?) _]; [by exists m|]. simpl in *. by simplify_eq. }
  apply map_eq. intros ip. destruct (h !! ip) as [m|] eqn:E.
  - destruct (Hsub h h' ip m Hw Hu E) as (m' & E' & Hm). rewrite E'.
    destruct (Hsub h' h ip m' Hw' (λ b, symmetry (Hu b)) E') as (m'' & ? & ?). simplify_eq. f_equal. set_solver.
  - destruct (h' !! ip) as [m'|] eqn:E'; [|done].
    destruct (Hsub h' h ip m' Hw' (λ b, symmetry (Hu b)) E') as (m'' & ? & ?). congruence.
Qed.

(** ** Looking up a pod by its key *)

Lemma has_key_true k p : has_key k p = true ↔ pod_UID p = k ∧ k ≠ EmptyString.
Proof.
  unfold has_key, GetPodKey. case_bool_decide as E; [naive_solver|]. rewrite bool_decide_eq_true. naive_solver.
Qed.

Lemma find_key_in l p :
  NoDup (pod_UID <$> l) → p ∈ l → pod_UID p ≠ EmptyString →
  ∃ i, find_index (has_key (pod_UID p)) l = Some i ∧ l !! i = Some p.
Proof.
  intros Hnd Hp Hu. destruct (find_index _ l) as [i|] eqn:E.
  - exists i. split; [done|]. destruct (find_index_Some _ _ _ E) as (q & Eq & [Hq _]%has_key_true).
    apply list_elem_of_lookup in Hp as [j Ep].
    assert (i = j) as <-; [|congruence].
    apply (NoDup_lookup (pod_UID <$> l) i j (pod_UID p)); [done|..]; rewrite list_lookup_fmap.
    + by rewrite Eq, <-Hq.
    + by rewrite Ep.
  - pose proof (find_index_None _ _ E p Hp) as Hf. exfalso. apply not_true_iff_false in Hf. apply Hf.
    by apply has_key_true.
Qed.

Lemma find_key_out l k : k ∉ pod_UID <$> l → find_index (has_key k) l = None.
Proof.
  intros Hk. destruct (find_index _ l) as [i|] eqn:E; [|done]. exfalso.
  destruct (find_index_Some _ _ _ E) as (q & Eq & [<- _]%has_key_true).
  apply Hk, list_elem_of_fmap. exists q. split; [done|]. by eapply list_elem_of_lookup_2.
Qed.

Lemma GetPodKey_ok p : pod_UID p ≠ EmptyString → GetPodKey p = inr (pod_UID p).
Proof. intros Hu. unfold GetPodKey. by rewrite bool_decide_false. Qed.

(** ** The operations keep the aggregates *)

Lemma NewNodeInfo_empty_inv gen : NodeInfo_inv (NewNodeInfo gen []).2.
Proof.
  split; simpl; try done.
  - constructor.
  - intros p. by intros ?%not_elem_of_nil.
Qed.
Lemma NewNodeInfo_empty_ports gen : ports_ok (NewNodeInfo gen []).2.
Proof.
  intros b. split.
  - intros (m & E & _). simpl in E. by rewrite lookup_empty in E.
  - by intros (p & ?%not_elem_of_nil & _).
Qed.

Lemma AddPod_inv gen n pod :
  NodeInfo_inv n → pod_UID pod ≠ EmptyString → pod_UID pod ∉ pod_UID <$> ni_pods n →
  NodeInfo_inv (NodeInfo_AddPod gen n pod).2.
Proof.
  intros Hn Hu Hf. pose proof (request_add (ni_requestedResource n) pod) as Hr.
  pose proof (nonzero_add (ni_nonzeroRequest n) pod) as Hz. destruct (nv_int64 _ Hn) as [Hi1 Hi2].
  unfold NodeInfo_AddPod. destruct (calculateResource pod) as [[res cpu] mem]. simpl in *. split; simpl.
  - rewrite fmap_app. simpl. apply NoDup_app. split_and!; [apply Hn|set_solver|apply NoDup_singleton].
  - intros p [Hp| ->%list_elem_of_singleton]%elem_of_app; [by apply (nv_uids _ Hn)|done].
  - rewrite Hr by done. apply sum_add; [apply pod_request_int64|done|apply Hn].
  - rewrite Hz by done. apply sum_add; [apply pod_nonzero_int64|done|apply Hn].
  - split; [apply request_update_int64|apply nonzero_update_int64]; auto with sched.
  - rewrite filter_app. destruct (hasPodAffinityConstraints pod) eqn:Ea.
    + rewrite filter_cons_True, filter_nil by (by rewrite Ea). by rewrite (nv_affinity _ Hn).
    + rewrite filter_cons_False, filter_nil, app_nil_r by (rewrite Ea; by intros []). apply Hn.
  - apply UpdatePorts_wf, Hn.
Qed.
Lemma AddPod_ports gen n pod : ports_ok n → ports_ok (NodeInfo_AddPod gen n pod).2.
Proof.
  intros Hn. unfold NodeInfo_AddPod. destruct (calculateResource pod) as [[res cpu] mem]. intros b. simpl.
  rewrite UpdatePorts_add, (Hn b). setoid_rewrite elem_of_app.
  setoid_rewrite list_elem_of_singleton. naive_solver.
Qed.

(** Removing a pod of the node. *)
Lemma RemovePod_spec gen n pod :
  NodeInfo_inv n → pod ∈ ni_pods n →
  ∃ n', NodeInfo_RemovePod gen n pod = (nextGeneration gen, n', None) ∧ NodeInfo_inv n' ∧
    ni_pods n ≡ₚ pod :: ni_pods n' ∧ ni_node n' = ni_node n ∧
    ni_allocatableResource n' = ni_allocatableResource n ∧ ni_generation n' = nextGeneration gen ∧
    ni_usedPorts n' = UpdatePorts (ni_usedPorts n) pod false.
Proof.
  intros Hn Hp. pose proof (nv_uids _ Hn _ Hp) as Hu.
  pose proof (request_sub (ni_requestedResource n) pod) as Hr.
  pose proof (nonzero_sub (ni_nonzeroRequest n) pod) as Hz. destruct (nv_int64 _ Hn) as [Hi1 Hi2].
  destruct (find_key_in (ni_pods n) pod (nv_keys _ Hn) Hp Hu) as (i & Ei & Epi).
  unfold NodeInfo_RemovePod. rewrite GetPodKey_ok, Ei by done.
  destruct (calculateResource pod) as [[res cpu] mem]. simpl in *.
  eexists. split; [reflexivity|]. pose proof (swap_delete_perm _ _ _ Epi) as Hs.
  set (l := swap_delete i (ni_pods n)) in *. split; [|done].
  pose proof (nv_keys _ Hn) as Hnd. rewrite Hs in Hnd. simpl in Hnd. apply NoDup_cons in Hnd as [Hnot Hnd].
  split; simpl.
  - done.
  - intros p Hpl. apply (nv_uids _ Hn). rewrite Hs. by right.
  - rewrite Hr by done. eapply sum_remove; [apply pod_request_int64|done|apply Hn|done].
  - rewrite Hz by done. eapply sum_remove; [apply pod_nonzero_int64|done|apply Hn|done].
  - split; [apply request_update_int64|apply nonzero_update_int64]; auto with sched.
  - pose proof (nv_affinity _ Hn) as Ha.
    assert (NoDup (pod_UID <$> ni_podsWithAffinity n)) as Hnda.
    { rewrite Ha. eapply sublist_NoDup; [apply Hn|apply fmap_sublist, sublist_filter]. }
    destruct (hasPodAffinityConstraints pod) eqn:Ea.
    + destruct (find_key_in (ni_podsWithAffinity n) pod Hnda) as (j & -> & Ej); [|done|].
      { rewrite Ha. apply list_elem_of_filter. by rewrite Ea. }
      apply swap_delete_perm in Ej. apply (Permutation_cons_inv (a := pod)). rewrite <-Ej, Ha, Hs.
      by rewrite filter_cons_True by (by rewrite Ea).
    + rewrite (find_key_out (ni_podsWithAffinity n)).
      * rewrite Ha, Hs, filter_cons_False; [done|]. rewrite Ea. by intros [].
      * rewrite Ha, Hs, filter_cons_False by (rewrite Ea; by intros []).
        intros (q & Eq & Hq)%list_elem_of_fmap. apply list_elem_of_filter in Hq as [_ Hq].
        apply Hnot. rewrite Eq. by apply list_elem_of_fmap_2.
  - apply UpdatePorts_wf, Hn.
Qed.

(** The ports stay right if the pod shares none with another. *)
Lemma RemovePod_ports n n' pod :
  NodeInfo_inv n → ports_ok n → ni_pods n ≡ₚ pod :: ni_pods n' →
  ni_usedPorts n' = UpdatePorts (ni_usedPorts n) pod false →
  (∀ q b, q ∈ ni_pods n → b ∈ pod_bindings q → b ∈ pod_bindings pod → q = pod) → ports_ok n'.
Proof.
  intros Hn Hp Hs Eu Hd b. rewrite Eu, UpdatePorts_remove, (Hp b).
  pose proof (nv_keys _ Hn) as Hnd. rewrite Hs in Hnd. apply NoDup_cons in Hnd as [Hnot _]. split.
  - intros [(q & Hq & Hb) Hnb]. exists q. split; [|done]. rewrite Hs in Hq.
    apply elem_of_cons in Hq as [->|?]; [done|done].
  - intros (q & Hq & Hb). split; [exists q; split; [rewrite Hs; by right|done]|]. intros Hb'.
    assert (q = pod) as -> by (apply (Hd q b); [rewrite Hs; by right|done|done]).
    apply Hnot. by apply list_elem_of_fmap_2.
Qed.

(** Removing a pod that is not on the node fails and changes nothing. *)
Lemma RemovePod_absent gen n pod :
  NodeInfo_inv n → pod_UID pod ∉ pod_UID <$> ni_pods n →
  ∃ e, NodeInfo_RemovePod gen n pod = (gen, n, Some e).
Proof.
  intros Hn Hp. unfold NodeInfo_RemovePod. destruct (GetPodKey pod) as [e|k] eqn:E; [by eexists|].
  unfold GetPodKey in E. case_bool_decide; [done|]. injection E as <-.
  rewrite (find_key_out (ni_pods n)) by done. rewrite find_key_out.
  - destruct n; simpl. by eexists.
  - rewrite (nv_affinity _ Hn). intros (q & Eq & Hq)%list_elem_of_fmap. apply Hp.
    apply list_elem_of_filter in Hq as [_ Hq]. rewrite Eq. by apply list_elem_of_fmap_2.
Qed.

(** The operations on the node object leave the aggregates alone. *)
Lemma NodeInfo_inv_same n n' :
  NodeInfo_inv n → ni_pods n' = ni_pods n → ni_podsWithAffinity n' = ni_podsWithAffinity n →
  ni_usedPorts n' = ni_usedPorts n → ni_requestedResource n' = ni_requestedResource n →
  ni_nonzeroRequest n' = ni_nonzeroRequest n → NodeInfo_inv n'.
Proof. intros [] E1 E2 E3 E4 E5. split; rewrite ?E1, ?E2, ?E3, ?E4, ?E5; done. Qed.

Lemma SetNode_same gen n node :
  let n' := (NodeInfo_SetNode gen n node).2 in
  ni_pods n' = ni_pods n ∧ ni_podsWithAffinity n' = ni_podsWithAffinity n ∧
  ni_usedPorts n' = ni_usedPorts n ∧ ni_requestedResource n' = ni_requestedResource n ∧
  ni_nonzeroRequest n' = ni_nonzeroRequest n ∧ ni_node n' = Some node ∧
  ni_allocatableResource n' = NewResource (Allocatable node) ∧ ni_imageStates n' = ni_imageStates n ∧
  ni_generation n' = nextGeneration gen ∧ (NodeInfo_SetNode gen n node).1 = nextGeneration gen.
Proof. unfold NodeInfo_SetNode. by destruct (foldl _ _ _) as [[mem disk] pid]. Qed.

Lemma SetNode_inv gen n node : NodeInfo_inv n → NodeInfo_inv (NodeInfo_SetNode gen n node).2.
Proof. intros Hn. pose proof (SetNode_same gen n node) as Hs. eapply NodeInfo_inv_same; [done|apply Hs..]. Qed.

Lemma RemoveNode_inv gen n : NodeInfo_inv n → NodeInfo_inv (NodeInfo_RemoveNode gen n).2.
Proof. intros Hn. by eapply NodeInfo_inv_same. Qed.

(** A loop that copies a map entry by entry. *)
Lemma range_copy {A} (m : gmap string A) : foldl (λ h e, <[e.1 := e.2]> h) ∅ (range m) = m.
Proof.
  apply map_eq. intros k. destruct (range_to_map m) as [Hnd Hm].
  rewrite (foldl_insert_lookup (λ x : A, x)) by done. rewrite Hm, lookup_empty. by destruct (m !! k).
Qed.

Lemma NodeInfo_Clone_id n : NodeInfo_Clone n = n.
Proof.
  assert (∀ {A} (l : list A), (if bool_decide (0 < length l)%nat then [] ++ l else []) = l) as Hc.
  { intros A l. destruct l; [done|]. by rewrite bool_decide_true by (simpl; lia). }
  unfold NodeInfo_Clone. rewrite !Hc, range_copy. unfold Resource_Clone. by destruct n.
Qed.

(** ** Theorems *)

(** The ways in which the code changes a node: with the counter of generations.
    A pod has a UID, is added once, and is removed as it was added; an attempt to
    remove a pod that is not there is a step too. *)
Inductive node_step : Z * NodeInfo → Z * NodeInfo → Prop :=
| step_AddPod gen n pod :
    pod_UID pod ≠ EmptyString → pod_UID pod ∉ pod_UID <$> ni_pods n →
    node_step (gen, n) (NodeInfo_AddPod gen n pod)
| step_RemovePod gen n pod :
    pod ∈ ni_pods n →
    (∀ q b, q ∈ ni_pods n → b ∈ pod_bindings q → b ∈ pod_bindings pod → q = pod) →
    node_step (gen, n) (NodeInfo_RemovePod gen n pod).1
| step_RemovePod_absent gen n pod :
    pod_UID pod ∉ pod_UID <$> ni_pods n →
    node_step (gen, n) (NodeInfo_RemovePod gen n pod).1
| step_SetNode gen n node : node_step (gen, n) (NodeInfo_SetNode gen n node)
| step_RemoveNode gen n : node_step (gen, n) (NodeInfo_RemoveNode gen n)
| step_Clone gen n : node_step (gen, n) (gen, NodeInfo_Clone n).


(** Removing the pod that was added last restores the node: the pods, the
    pods with affinity and the ports as they were and in their order, the non-zero
    request exactly and the requested resources up to explicit zero entries; only the
    generation moves on, by two. *)
Theorem AddPod_RemovePod_roundtrip gen n pod :
  NodeInfo_inv n → pod_UID pod ≠ EmptyString → pod_UID pod ∉ pod_UID <$> ni_pods n →
  (∀ b, b ∈ pod_bindings pod → ¬ used (ni_usedPorts n) b) →
  let '(gen1, n1) := NodeInfo_AddPod gen n pod in
  let '(gen2, n2, err) := NodeInfo_RemovePod gen1 n1 pod in
  err = None ∧ gen2 = nextGeneration (nextGeneration gen) ∧
  ni_requestedResource n2 ≡ ni_requestedResource n ∧
  n2 = SetGeneration (SetRequestedResource n (ni_requestedResource n2)) gen2.
Proof.
  intros Hn Hu Hf Hb. destruct (nv_int64 _ Hn) as [Hi1 Hi2].
  pose proof (request_add (ni_requestedResource n) pod Hi1) as Hr.
  pose proof (request_update_int64 add64 (ni_requestedResource n) (calculateResource pod).1.1 add64_int64 Hi1) as Hi3.
  pose proof (request_sub _ pod Hi3) as Hr'.
  unfold NodeInfo_AddPod. destruct (calculateResource pod) as [[res cpu] mem] eqn:Ec.
  unfold NodeInfo_RemovePod. rewrite GetPodKey_ok by done. simpl in *.
  assert (∀ y, y ∈ ni_pods n → has_key (pod_UID pod) y = false) as Hno.
  { intros y Hy. apply not_true_iff_false. intros [E _]%has_key_true. apply Hf. rewrite <-E.
    by apply list_elem_of_fmap_2. }
  rewrite find_index_snoc by (done || by apply has_key_true). rewrite Ec. simpl.
  assert (∀ y, y ∈ ni_podsWithAffinity n → has_key (pod_UID pod) y = false) as Hno'.
  { intros y. rewrite (nv_affinity _ Hn). intros [_ Hy]%list_elem_of_filter. by apply Hno. }
  split_and!; [done|done| |].
  - rewrite Hr'. rewrite (rminus_proper _ (rplus (ni_requestedResource n) (pod_request pod)) _ (pod_request pod)); try done.
    + by apply rplus_rminus.
    + by apply rplus_int64.
  - unfold SetGeneration, SetRequestedResource. simpl. f_equal.
    + apply swap_delete_snoc.
    + destruct (hasPodAffinityConstraints pod).
      * rewrite find_index_snoc by (done || by apply has_key_true). apply swap_delete_snoc.
      * rewrite find_key_out; [done|]. intros (q & Eq & Hq)%list_elem_of_fmap. pose proof (Hno' q Hq) as Hk.
        apply not_true_iff_false in Hk. apply Hk, has_key_true. by rewrite <-Eq.
    + apply ports_ext; [by apply UpdatePorts_wf, UpdatePorts_wf, Hn|apply Hn|].
      intros b. rewrite UpdatePorts_remove, UpdatePorts_add. naive_solver.
    + destruct Hi2 as (? & ? & _). unfold nonzero_update. simpl. rewrite !sub64_add64 by done.
      by destruct (ni_nonzeroRequest n).
Qed.
End aggregates.

(** ** Example: two pods on a node *)
Module NodeInfoExample.
#[local] Existing Instance docK8s.
#[local] Existing Instance docK8s_laws.
#[local] Existing Instance stdRange.

Definition mkPod (name : string) (cpu port : Z) (aff : option Affinity) : Pod :=
  MkPod (MkObjectMeta name "default" ("uid-" +:+ name) EmptyString 0 ∅ ∅ 0 None 0)
    (MkPodSpec "node1" EmptyString None
       [MkContainer EmptyString {[ResourceCPU := NewMilliQuantity cpu]} ∅ [MkContainerPort "" "TCP" port]]
       [] aff ∅ [] [] 0)
    (MkPodStatus EmptyString [] 0).

Definition p1 : Pod := mkPod "p1" 500 80 None.
Definition p2 : Pod := mkPod "p2" 250 443 (Some (MkAffinity None (Some (MkPodAffinity [] [])) None)).

Definition s1 : Z * NodeInfo := NodeInfo_AddPod (NewNodeInfo 0 []).1 (NewNodeInfo 0 []).2 p1.
Definition s2 : Z * NodeInfo := NodeInfo_AddPod s1.1 s1.2 p2.
Definition s3 : Z * NodeInfo := (NodeInfo_RemovePod s2.1 s2.2 p1).1.

Lemma reach_s2 : rtc node_step (NewNodeInfo 0 []) s2.
Proof.
  eapply rtc_l; [apply (step_AddPod 1 (NewNodeInfo 0 []).2 p1); vm_compute; [done|set_solver]|].
  eapply rtc_l; [apply (step_AddPod s1.1 s1.2 p2); vm_compute; [done|set_solver]|]. apply rtc_refl.
Qed.


Lemma AddPod_RemovePod_roundtrip_witness :
  let '(gen1, n1) := NodeInfo_AddPod s1.1 s1.2 p2 in
  let '(gen2, n2, err) := NodeInfo_RemovePod gen1 n1 p2 in
  err = None ∧ gen2 = nextGeneration (nextGeneration s1.1) ∧
  ni_requestedResource n2 ≡ ni_requestedResource s1.2 ∧
  n2 = SetGeneration (SetRequestedResource s1.2 (ni_requestedResource n2)) gen2.
Proof.
  apply AddPod_RemovePod_roundtrip.
  - apply AddPod_inv; [apply NewNodeInfo_empty_inv|vm_compute; done|vm_compute; set_solver].
  - vm_compute. done.
  - vm_compute. set_solver.
  - assert (pod_bindings p2 = [("0.0.0.0"%string, MkProtocolPort "TCP" 443)]) as -> by (vm_compute; reflexivity).
    intros b ->%list_elem_of_singleton (m & Em & Hm). revert Em Hm. cbn [fst snd].
    assert (ni_usedPorts s1.2 !! "0.0.0.0"%string = Some {[MkProtocolPort "TCP" 80]}) as E by (vm_compute; reflexivity).
    rewrite E. intros [= <-]. by intros ?%elem_of_singleton.
Defined.
End NodeInfoExample.
