(* ===== verification/PoolInfo.v ===== *)
(** * Pool information (src/pkg/scheduler/info/pool_info.go)

    A pool keeps its nodes in a map of pointers to list items, and the items in a
    doubly linked list, most recently changed first; the snapshot that a scheduling
    cycle uses is refreshed from that list.  The items live in a [Store] that the
    pools of a cache share, since items move between pools; the store also has
    the counter of generations.  A nil dereference is [None]. *)
From S2P Require Import Prelude Heap Api Resource HostPorts NodeTree NodeInfo Util.

Definition ResourceGPU : string := "nvidia.com/gpu".
Definition DefaultPoolName : string := EmptyString.

Abbreviation loc := positive.

Record NodeInfoListItem := MkItem {
  it_info : NodeInfo;
  it_next : option loc;
  it_prev : option loc
}.

Record Store := MkStore { st_gen : Z; st_items : gmap loc NodeInfoListItem }.

Record PoolInfo := MkPoolInfo {
  pi_pool : option Pool;
  pi_nodes : gmap string loc;
  pi_headNode : option loc;
  pi_nodeTree : NodeTree;
  pi_capacity : Resource;
  pi_allocatable : Resource;
  pi_used : Resource;
  pi_shared : Resource;
  pi_nodeInfoSnapshot : NodeInfoSnapshot
}.

(** ** Fields of items *)
Definition set_next (st : Store) (l : loc) (v : option loc) : comp Store :=
  it ← st_items st !! l;
  Some (MkStore (st_gen st) (<[l := MkItem (it_info it) v (it_prev it)]> (st_items st))).
Definition set_prev (st : Store) (l : loc) (v : option loc) : comp Store :=
  it ← st_items st !! l;
  Some (MkStore (st_gen st) (<[l := MkItem (it_info it) (it_next it) v]> (st_items st))).
(** The new counter and the new content of [n.info]. *)
Definition set_info (st : Store) (l : loc) (s : Z * NodeInfo) : comp Store :=
  it ← st_items st !! l;
  Some (MkStore s.1 (<[l := MkItem s.2 (it_next it) (it_prev it)]> (st_items st))).
Definition get_info (st : Store) (l : loc) : comp NodeInfo := it_info <$> st_items st !! l.

Definition newNodeInfoListItem (st : Store) (s : Z * NodeInfo) : Store * loc :=
  let l := fresh (dom (st_items st)) in
  (MkStore s.1 (<[l := MkItem s.2 None None]> (st_items st)), l).

Section pool_info.
Context `{K8sLib} `{MapRange}.
Implicit Types (st : Store) (p : PoolInfo) (pod : Pod) (node : Node).

(** ** Fields of the pool *)
Definition set_nodes p (nodes : gmap string loc) (head : option loc) : PoolInfo :=
  MkPoolInfo (pi_pool p) nodes head (pi_nodeTree p) (pi_capacity p) (pi_allocatable p) (pi_used p)
    (pi_shared p) (pi_nodeInfoSnapshot p).
Definition set_tree p (nt : NodeTree) (capacity allocatable : Resource) : PoolInfo :=
  MkPoolInfo (pi_pool p) (pi_nodes p) (pi_headNode p) nt capacity allocatable (pi_used p) (pi_shared p)
    (pi_nodeInfoSnapshot p).
Definition set_use p (used shared : Resource) : PoolInfo :=
  MkPoolInfo (pi_pool p) (pi_nodes p) (pi_headNode p) (pi_nodeTree p) (pi_capacity p) (pi_allocatable p)
    used shared (pi_nodeInfoSnapshot p).
Definition set_snapshot p (s : NodeInfoSnapshot) : PoolInfo :=
  MkPoolInfo (pi_pool p) (pi_nodes p) (pi_headNode p) (pi_nodeTree p) (pi_capacity p) (pi_allocatable p)
    (pi_used p) (pi_shared p) s.

Definition NewNodeInfoSnapshot : NodeInfoSnapshot := MkNodeInfoSnapshot ∅ 0.

Definition NewPoolInfo : PoolInfo :=
  MkPoolInfo None ∅ None (newNodeTree []) emptyResource emptyResource emptyResource emptyResource
    NewNodeInfoSnapshot.

Definition PoolInfo_SetPool p (pool : Pool) : PoolInfo :=
  MkPoolInfo (Some pool) (pi_nodes p) (pi_headNode p) (pi_nodeTree p) (pi_capacity p) (pi_allocatable p)
    (pi_used p) (pi_shared p) (pi_nodeInfoSnapshot p).

(** ** Accessors *)
Definition PoolInfo_NumNodes p : Z := Z.of_nat (size (pi_nodes p)).
Definition PoolInfo_Name p : string :=
  match pi_pool p with None => EmptyString | Some pool => pool_Name pool end.
Definition PoolInfo_Capacity p : Resource := pi_capacity p.
Definition PoolInfo_Allocatable p : Resource := pi_allocatable p.
Definition PoolInfo_Idle p : Resource := rminus (Resource_Clone (pi_allocatable p)) (pi_used p).
Definition PoolInfo_Used p : Resource := pi_used p.
Definition PoolInfo_Shared p : Resource := pi_shared p.
Definition PoolInfo_Nodes p : gmap string loc := pi_nodes p.
Definition PoolInfo_NodeTree p : NodeTree := pi_nodeTree p.
Definition DisableSharing p : bool :=
  match pi_pool p with None => false | Some pool => spec_DisableSharing (pool_Spec pool) end.
Definition DisableBorrowing p : bool :=
  match pi_pool p with None => true | Some pool => spec_DisableBorrowing (pool_Spec pool) end.
Definition DisablePreemption p : bool :=
  match pi_pool p with None => true | Some pool => spec_DisablePreemption (pool_Spec pool) end.
Definition PoolInfo_SetAllocatable p (resource : Resource) : PoolInfo :=
  set_tree p (pi_nodeTree p) (pi_capacity p) resource.
Definition PoolInfo_SetUsed p (resource : Resource) : PoolInfo := set_use p resource (pi_shared p).
Definition PoolInfo_SetShared p (resource : Resource) : PoolInfo := set_use p (pi_used p) resource.
Definition PoolInfo_SetAllocatableResource p (name : string) (value : Z) : PoolInfo :=
  set_tree p (pi_nodeTree p) (pi_capacity p) (Resource_SetValue (pi_allocatable p) name value).

Definition ContainsNode p (nodeName : string) : option loc :=
  if bool_decide (nodeName = EmptyString) then None else pi_nodes p !! nodeName.

Definition MatchPod p pod : bool := bool_decide (PoolInfo_Name p = GetPodAnnotationsPoolName (Some pod)).

Definition IsDefaultPool p : bool := bool_decide (PoolInfo_Name p = DefaultPoolName).

(** A nil node is [None]; [p.pool] is not nil where it is read, since the pool
    is not the default one. *)
Definition MatchNode p (node : option Node) : bool :=
  match node, pi_pool p with
  | Some node, Some pool =>
      if IsDefaultPool p then false
      else match PoolNodeSelector (pool_Spec pool) with
           | None => false
           | Some ns =>
               match LabelSelectorAsSelector (Some ns) with
               | inr selector => if negb (Selector_Matches selector (node_Labels node)) then false else true
               | inl _ => true
               end
           end
  | _, _ => false
  end.

Definition NeedMatchNodeLabel p : bool :=
  match pi_pool p with None => false | Some pool => bool_decide (is_Some (PoolNodeSelector (pool_Spec pool))) end.

Definition CanBorrowPool p pool : comp bool :=
  if bool_decide (PoolInfo_Name p = PoolInfo_Name pool) then Some true
  else if DisableBorrowing p || DisableSharing pool then Some false
  else
    self ← pi_pool p;
    Some (bool_decide (BorrowingPools (pool_Spec self) = []) ||
          SliceContainsString (BorrowingPools (pool_Spec self)) (PoolInfo_Name pool)).

(** ** The linked list *)

Definition moveNodeInfoToHead st p (name : string) : comp (Store * PoolInfo) :=
  match pi_nodes p !! name with
  | None => Some (st, p)
  | Some ni =>
      if bool_decide (Some ni = pi_headNode p) then Some (st, p)
      else
        it ← st_items st !! ni;
        st ← match it_prev it with Some q => set_next st q (it_next it) | None => Some st end;
        it ← st_items st !! ni;
        st ← match it_next it with Some q => set_prev st q (it_prev it) | None => Some st end;
        st ← match pi_headNode p with Some h => set_prev st h (Some ni) | None => Some st end;
        st ← set_next st ni (pi_headNode p);
        st ← set_prev st ni None;
        Some (st, set_nodes p (pi_nodes p) (Some ni))
  end.

Definition removeNodeInfoFromList st p (name : string) : comp (Store * PoolInfo) :=
  match pi_nodes p !! name with
  | None => Some (st, p)
  | Some ni =>
      it ← st_items st !! ni;
      st ← match it_prev it with Some q => set_next st q (it_next it) | None => Some st end;
      it ← st_items st !! ni;
      st ← match it_next it with Some q => set_prev st q (it_prev it) | None => Some st end;
      it ← st_items st !! ni;
      let head := if bool_decide (Some ni = pi_headNode p) then it_next it else pi_headNode p in
      Some (st, set_nodes p (delete name (pi_nodes p)) head)
  end.

(** ** Pods *)

Definition plusPodResource p pod : PoolInfo :=
  let res := GetResourceRequestForPool pod in
  set_use p (rplus (pi_used p) res)
    (if negb (MatchPod p pod) then rplus (pi_shared p) res else pi_shared p).

Definition reducePodResource p pod : PoolInfo :=
  let res := GetResourceRequestForPool pod in
  set_use p (rminus (pi_used p) res)
    (if negb (MatchPod p pod) then rminus (pi_shared p) res else pi_shared p).

(** [n, ok := p.nodes[name]], with a new item where there is none. *)
Definition get_or_new_item st p (name : string) : Store * PoolInfo * loc :=
  match pi_nodes p !! name with
  | Some n => (st, p, n)
  | None =>
      let '(st, n) := newNodeInfoListItem st (NewNodeInfo (st_gen st) []) in
      (st, set_nodes p (<[name := n]> (pi_nodes p)) (pi_headNode p), n)
  end.

(** Always returns a nil error. *)
Definition PoolInfo_AddPod st p pod : comp (Store * PoolInfo) :=
  let '(st, p, n) := get_or_new_item st p (pod_NodeName pod) in
  info ← get_info st n;
  st ← set_info st n (NodeInfo_AddPod (st_gen st) info pod);
  '(st, p) ← moveNodeInfoToHead st p (pod_NodeName pod);
  Some (st, plusPodResource p pod).

Definition PoolInfo_RemovePod st p pod : comp (Store * PoolInfo * option error) :=
  match pi_nodes p !! pod_NodeName pod with
  | None => Some (st, p, Some ("node " +:+ pod_NodeName pod +:+ " is not found")%string)
  | Some n =>
      info ← get_info st n;
      let '(gen, info, err) := NodeInfo_RemovePod (st_gen st) info pod in
      st ← set_info st n (gen, info);
      match err with
      | Some err => Some (st, p, Some err)
      | None =>
          '(st, p) ← (if bool_decide (length (ni_pods info) = O) && bool_decide (ni_node info = None)
                      then removeNodeInfoFromList st p (pod_NodeName pod)
                      else moveNodeInfoToHead st p (pod_NodeName pod));
          Some (st, reducePodResource p pod, None)
      end
  end.

(** Neither pod is nil, and they are not the same object; errors are dropped. *)
Definition PoolInfo_UpdatePod st p (oldPod newPod : Pod) : comp (Store * PoolInfo) :=
  '(st, p, _) ← PoolInfo_RemovePod st p oldPod;
  PoolInfo_AddPod st p newPod.

(** ** Nodes *)

Definition PoolInfo_AddNode st p node : comp (Store * PoolInfo) :=
  let '(st, p, n) := get_or_new_item st p (node_Name node) in
  '(st, p) ← moveNodeInfoToHead st p (node_Name node);
  let p := set_tree p (NodeTree_AddNode (pi_nodeTree p) node)
             (Resource_Add (pi_capacity p) (Capacity node))
             (Resource_Add (pi_allocatable p) (Allocatable node)) in
  info ← get_info st n;
  st ← set_info st n (NodeInfo_SetNode (st_gen st) info node);
  Some (st, p).

(** The error of [p.nodeTree.RemoveNode] is dropped. *)
Definition PoolInfo_RemoveNode st p node : comp (Store * PoolInfo * option error) :=
  match pi_nodes p !! node_Name node with
  | None => Some (st, p, Some ("node " +:+ node_Name node +:+ " is not found")%string)
  | Some n =>
      info ← get_info st n;
      let '(gen, info) := NodeInfo_RemoveNode (st_gen st) info in
      st ← set_info st n (gen, info);
      '(st, p) ← (if bool_decide (length (ni_pods info) = O) && bool_decide (ni_node info = None)
                  then removeNodeInfoFromList st p (node_Name node)
                  else moveNodeInfoToHead st p (node_Name node));
      '(nt, _) ← NodeTree_RemoveNode (pi_nodeTree p) node;
      Some (st, set_tree p nt (rminus (pi_capacity p) (NewResource (Capacity node)))
                  (rminus (pi_allocatable p) (NewResource (Allocatable node))), None)
  end.

Definition PoolInfo_UpdateNode st p (oldNode : option Node) (newNode : Node) : comp (Store * PoolInfo) :=
  let '(st, p, n) := get_or_new_item st p (node_Name newNode) in
  '(st, p) ← moveNodeInfoToHead st p (node_Name newNode);
  nt ← NodeTree_UpdateNode (pi_nodeTree p) oldNode newNode;
  let cdelta := NewResource (Capacity newNode) in
  let adelta := NewResource (Allocatable newNode) in
  let '(cdelta, adelta) :=
    match oldNode with
    | Some oldNode => (rminus cdelta (NewResource (Capacity oldNode)),
                       rminus adelta (NewResource (Allocatable oldNode)))
    | None => (cdelta, adelta)
    end in
  let p := set_tree p nt (rplus (pi_capacity p) cdelta) (rplus (pi_allocatable p) adelta) in
  info ← get_info st n;
  st ← set_info st n (NodeInfo_SetNode (st_gen st) info newNode);
  Some (st, p).

(** A nil item is [None]; an item without node object is ignored. *)
Definition PoolInfo_AddNodeInfo st p (item : option loc) : comp (Store * PoolInfo) :=
  match item with
  | None => Some (st, p)
  | Some l =>
      info ← get_info st l;
      match ni_node info with
      | None => Some (st, p)
      | Some node =>
          let p := set_nodes p (<[node_Name node := l]> (pi_nodes p)) (pi_headNode p) in
          '(st, p) ← moveNodeInfoToHead st p (node_Name node);
          let p := set_tree p (NodeTree_AddNode (pi_nodeTree p) node)
                     (Resource_Add (pi_capacity p) (Capacity node))
                     (Resource_Add (pi_allocatable p) (Allocatable node)) in
          Some (st, foldl plusPodResource p (ni_pods info))
      end
  end.

Definition PoolInfo_RemoveNodeInfo st p (item : option loc) : comp (Store * PoolInfo * option error) :=
  match item with
  | None => Some (st, p, None)
  | Some l =>
      info ← get_info st l;
      match ni_node info with
      | None => Some (st, p, None)
      | Some node =>
          match pi_nodes p !! node_Name node with
          | None => Some (st, p, Some ("nodeinfo " +:+ node_Name node +:+ " not exists in pool " +:+ PoolInfo_Name p)%string)
          | Some _ =>
              '(st, p) ← removeNodeInfoFromList st p (node_Name node);
              '(nt, err) ← NodeTree_RemoveNode (pi_nodeTree p) node;
              match err with
              | Some err => Some (st, set_tree p nt (pi_capacity p) (pi_allocatable p), Some err)
              | None =>
                  let p := set_tree p nt (rminus (pi_capacity p) (NewResource (Capacity node)))
                             (rminus (pi_allocatable p) (NewResource (Allocatable node))) in
                  Some (st, foldl reducePodResource p (ni_pods info), None)
              end
          end
      end
  end.

(** ** The snapshot *)

(** The state of the first loop: the slow and fast pointers and the item before
    the slow one. *)
Record walk := MkWalk { w_fast : option loc; w_node : option loc; w_prev : option loc }.

Definition reset_transient (info : NodeInfo) : NodeInfo :=
  MkNodeInfo (ni_node info) (ni_pods info) (ni_podsWithAffinity info) (ni_usedPorts info)
    (ni_requestedResource info) (ni_nonzeroRequest info) (ni_allocatableResource info) (ni_taints info)
    (ni_taintsErr info) (ni_imageStates info) (ResetTransientSchedulerInfo (ni_TransientInfo info))
    (ni_memoryPressureCondition info) (ni_diskPressureCondition info) (ni_pidPressureCondition info)
    (ni_generation info).

(** [fast.next], for a pointer that may be nil. *)
Definition advance st (l : option loc) : comp (option loc) :=
  match l with None => Some None | Some l => it_next <$> st_items st !! l end.

(** [true]: a circle was found. *)
Fixpoint snapshot_loop (fuel : nat) (balancedVolumesEnabled : bool) (snapshotGeneration : Z)
    st (m : gmap string NodeInfo) (w : walk) : comp (Store * gmap string NodeInfo * walk * bool) :=
  match fuel with
  | O => panic
  | S fuel =>
      match w_node w with
      | None => Some (st, m, w, false)
      | Some node =>
          info ← get_info st node;
          if ni_generation info <=? snapshotGeneration then Some (st, m, w, false)
          else
            let info := if balancedVolumesEnabled then reset_transient info else info in
            st ← set_info st node (st_gen st, info);
            let m := match ni_node info with
                     | Some np => <[node_Name np := NodeInfo_Clone info]> m
                     | None => m
                     end in
            next ← advance st (Some node);
            fast ← advance st (w_fast w);
            fast ← advance st fast;
            let w := MkWalk fast next (Some node) in
            if bool_decide (is_Some next) && bool_decide (is_Some fast) && bool_decide (next = fast)
            then Some (st, m, w, true)
            else snapshot_loop fuel balancedVolumesEnabled snapshotGeneration st m w
      end
  end.

(** The second loop: the entry point of the circle; the result is [prev]. *)
Fixpoint circle_loop (fuel : nat) st (w : walk) : comp (option loc) :=
  match fuel with
  | O => panic
  | S fuel =>
      if bool_decide (w_node w = w_fast w) then Some (w_prev w)
      else
        node ← w_node w;
        next ← advance st (Some node);
        fast ← w_fast w;
        fast ← advance st (Some fast);
        circle_loop fuel st (MkWalk fast next (Some node))
  end.

(** The deletion of the entries of nodes that the pool no longer has. *)
Definition drop_removed (nodes : gmap string loc) (m : gmap string NodeInfo) : gmap string NodeInfo :=
  if bool_decide (size nodes < size m)%nat then
    foldl (λ m e, match nodes !! e.1 with Some _ => m | None => delete e.1 m end) m (range m)
  else m.

Definition UpdateNodeInfoSnapshot (balancedVolumesEnabled : bool) st p : comp (Store * PoolInfo) :=
  let nodeSnapshot := pi_nodeInfoSnapshot p in
  let fuel := S (size (st_items st)) in
  '(st, m, w, hasCircle) ← snapshot_loop fuel balancedVolumesEnabled (snap_Generation nodeSnapshot) st
      (NodeInfoMap nodeSnapshot) (MkWalk (pi_headNode p) (pi_headNode p) (pi_headNode p));
  st ← (if hasCircle : bool then
          prev ← circle_loop fuel st (MkWalk (pi_headNode p) (w_node w) (w_prev w));
          prev ← prev;
          set_next st prev None
        else Some st);
  gen ← match pi_headNode p with
        | Some h => ni_generation <$> get_info st h
        | None => Some (snap_Generation nodeSnapshot)
        end;
  Some (st, set_snapshot p (MkNodeInfoSnapshot (drop_removed (pi_nodes p) m) gen)).

End pool_info.
