(* ===== verification/PoolInfoProofs.v ===== *)
(** * The linked list and the snapshot of a pool: proofs

    [dll] describes the pointers of a list of items; [move_spec] and
    [unlink_spec] are what the two list operations do to it, with the frame that other
    lists in the store need. [pool_ok] is the invariant of one pool, and
    [snapshot_exact] what a refreshed snapshot holds. *)
From S2P Require Import Prelude Heap Api Resource HostPorts NodeTree NodeInfo Util PoolInfo.

(** ** Two views of the store: pointers and contents *)

Definition ptr (it : NodeInfoListItem) : option loc * option loc := (it_next it, it_prev it).
Definition ptrs (st : Store) : gmap loc (option loc * option loc) := ptr <$> st_items st.
Definition infos (st : Store) : gmap loc NodeInfo := it_info <$> st_items st.

Lemma get_info_infos st l : get_info st l = infos st !! l.
Proof. unfold get_info, infos. by rewrite lookup_fmap. Qed.

Lemma ptrs_infos st l nx pv :
  ptrs st !! l = Some (nx, pv) ↔ ∃ info, st_items st !! l = Some (MkItem info nx pv).
Proof.
  unfold ptrs. rewrite lookup_fmap, fmap_Some. split.
  - intros ([info n q] & E & [= -> ->]). eauto.
  - intros (info & E). exists (MkItem info nx pv). by split.
Qed.

Lemma ptrs_Some_infos st l : is_Some (ptrs st !! l) ↔ is_Some (infos st !! l).
Proof. unfold ptrs, infos. by rewrite !lookup_fmap, !fmap_is_Some. Qed.

(** What the assignments to a field do to the two views. *)
Lemma set_next_spec st l v nx pv :
  ptrs st !! l = Some (nx, pv) →
  ∃ st', set_next st l v = Some st' ∧ st_gen st' = st_gen st ∧ infos st' = infos st ∧
    ptrs st' = <[l := (v, pv)]> (ptrs st).
Proof.
  intros (info & E)%ptrs_infos. unfold set_next. rewrite E. simpl. eexists. split_and!; [done|done|..].
  - unfold infos. simpl. rewrite fmap_insert. simpl. apply insert_id. by rewrite lookup_fmap, E.
  - unfold ptrs. simpl. by rewrite fmap_insert.
Qed.
Lemma set_prev_spec st l v nx pv :
  ptrs st !! l = Some (nx, pv) →
  ∃ st', set_prev st l v = Some st' ∧ st_gen st' = st_gen st ∧ infos st' = infos st ∧
    ptrs st' = <[l := (nx, v)]> (ptrs st).
Proof.
  intros (info & E)%ptrs_infos. unfold set_prev. rewrite E. simpl. eexists. split_and!; [done|done|..].
  - unfold infos. simpl. rewrite fmap_insert. simpl. apply insert_id. by rewrite lookup_fmap, E.
  - unfold ptrs. simpl. by rewrite fmap_insert.
Qed.
Lemma set_info_spec st l s :
  is_Some (infos st !! l) →
  ∃ st', set_info st l s = Some st' ∧ st_gen st' = s.1 ∧ infos st' = <[l := s.2]> (infos st) ∧
    ptrs st' = ptrs st.
Proof.
  unfold infos. intros [info E]. rewrite lookup_fmap, fmap_Some in E. destruct E as ([i n q] & E & ->).
  unfold set_info. rewrite E. simpl. eexists. split_and!; [done|done|..].
  - simpl. by rewrite fmap_insert.
  - unfold ptrs. simpl. rewrite fmap_insert. simpl. apply insert_id. by rewrite lookup_fmap, E.
Qed.

(** ** Doubly linked lists *)

Definition dll (pt : gmap loc (option loc * option loc)) (l : list loc) : Prop :=
  NoDup l ∧ ∀ l1 x l2, l = l1 ++ x :: l2 → pt !! x = Some (head l2, last l1).

Lemma dll_ext pt pt' l : dll pt l → (∀ x, x ∈ l → pt' !! x = pt !! x) → dll pt' l.
Proof.
  intros [Hnd Hl] He. split; [done|]. intros l1 x l2 E. rewrite He; [by apply Hl|]. rewrite E. set_solver.
Qed.

Lemma dll_lookup pt l1 x l2 : dll pt (l1 ++ x :: l2) → pt !! x = Some (head l2, last l1).
Proof. intros [_ Hl]. by apply Hl. Qed.

Lemma dll_nil pt : dll pt [].
Proof. split; [constructor|]. intros l1 x l2 E. by destruct l1. Qed.

(** The pointers that cutting [x] out of [l1 ++ x :: l2] leaves, and those of
    putting it in front of a list with head [h]. *)
Definition cut (pt : gmap loc (option loc * option loc)) (nx pv : option loc) :=
  let pt := match pv with Some q => alter (λ e, (nx, e.2)) q pt | None => pt end in
  match nx with Some q => alter (λ e, (e.1, pv)) q pt | None => pt end.
Definition push (pt : gmap loc (option loc * option loc)) (x : loc) (h : option loc) :=
  <[x := (h, None)]> (match h with Some q => alter (λ e, (e.1, Some x)) q pt | None => pt end).

Lemma cut_other pt nx pv y : Some y ≠ nx → Some y ≠ pv → cut pt nx pv !! y = pt !! y.
Proof. intros H1 H2. unfold cut. destruct nx, pv; simplify_map_eq; rewrite ?lookup_alter_ne by congruence; done. Qed.

Lemma head_in {A} (l : list A) x : head l = Some x → x ∈ l.
Proof. destruct l; [done|]. intros [= ->]. by left. Qed.
Lemma last_in {A} (l : list A) x : last l = Some x → x ∈ l.
Proof. intros [l' ->]%last_Some. set_solver. Qed.

(** Splitting [a ++ b] at [y]. *)
Lemma app_split {A} (a b c : list A) y d :
  a ++ b = c ++ y :: d →
  (∃ e, a = c ++ y :: e ∧ d = e ++ b) ∨ (∃ e, c = a ++ e ∧ b = e ++ y :: d).
Proof.
  intros E. apply app_eq_app in E as [e [[-> E]|[-> E]]].
  - destruct e as [|z e]; simplify_eq/=; [right; exists []; by rewrite !app_nil_r|]. left. by exists e.
  - right. by exists e.
Qed.

Lemma head_app_ne {A} (a b : list A) : a ≠ [] → head (a ++ b) = head a.
Proof. by destruct a. Qed.
Lemma last_app_ne {A} (a b : list A) : b ≠ [] → last (a ++ b) = last b.
Proof. intros Hb. rewrite last_app. destruct (last b) eqn:E; [done|]. by apply last_None in E. Qed.

Lemma dll_cut pt l1 x l2 : dll pt (l1 ++ x :: l2) → dll (cut pt (head l2) (last l1)) (l1 ++ l2).
Proof.
  intros Hd. pose proof Hd as [Hnd _]. apply NoDup_app in Hnd as (H1 & H12 & [Hx H2]%NoDup_cons).
  assert (∀ y, y ∈ l1 → y ∉ l2) as Hdis by (intros y Hy Hy'; apply (H12 y Hy); by right).
  split; [apply NoDup_app; split_and!; auto|]. intros a y b E.
  apply app_split in E as [(e & -> & ->)|(e & -> & ->)].
  - rewrite <-app_assoc in Hd. simpl in Hd. pose proof (dll_lookup _ _ _ _ Hd) as Ey.
    unfold cut. destruct e as [|z e].
    + rewrite last_snoc. simpl. destruct (head l2) as [q|] eqn:Eh; simpl in *.
      * rewrite lookup_alter_ne, lookup_alter_eq, Ey; [done|]. intros ->. apply (Hdis y); [set_solver|by apply head_in].
      * by rewrite lookup_alter_eq, Ey.
    + rewrite (last_app_ne _ (y :: z :: e)) by done. simpl in Ey |- *.
      assert (match last (z :: e) with Some q => y ≠ q | None => True end) as Hlast.
      { destruct (last (z :: e)) as [q|] eqn:El; [|done]. intros <-. apply last_in in El.
        apply NoDup_app in H1 as (_ & _ & [? _]%NoDup_cons). done. }
      change (last (y :: z :: e)) with (last (z :: e)).
      destruct (head l2) as [q|] eqn:Eh; [rewrite lookup_alter_ne by (intros ->; apply (Hdis y); [set_solver|by apply head_in])|];
        (destruct (last (z :: e)); [by rewrite lookup_alter_ne|done]).
  - rewrite app_comm_cons, app_assoc in Hd. pose proof (dll_lookup _ _ _ _ Hd) as Ey.
    unfold cut. assert (match last l1 with Some q => y ≠ q | None => True end) as Hlast.
    { destruct (last l1) as [q|] eqn:El; [|done]. intros <-. apply last_in in El. apply (Hdis y El). set_solver. }
    destruct e as [|z e]; simpl in *.
    + rewrite app_nil_r. rewrite lookup_alter_eq. rewrite last_snoc in Ey.
      destruct (last l1); [rewrite lookup_alter_ne by done|]; by rewrite Ey.
    + rewrite lookup_alter_ne.
      2:{ intros ->. apply NoDup_cons in H2 as [? _]. set_solver. }
      rewrite !(last_app_ne _ (z :: e)) by done. rewrite (last_app_ne l1 (x :: z :: e)) in Ey by done.
      destruct (last l1); [by rewrite lookup_alter_ne|done].
Qed.

Lemma dll_push pt x l : dll pt l → x ∉ l → dll (push pt x (head l)) (x :: l).
Proof.
  intros Hd Hx. pose proof Hd as [Hnd _]. split; [by apply NoDup_cons|]. intros [|z a] y b E; simplify_eq/=.
  - unfold push. by rewrite lookup_insert_eq.
  - pose proof (dll_lookup _ _ _ _ Hd) as Ey. unfold push. rewrite lookup_insert_ne by set_solver.
    destruct a as [|w a]; simpl in *.
    + by rewrite lookup_alter_eq, Ey.
    + rewrite lookup_alter_ne; [done|]. intros ->. apply NoDup_cons in Hnd as [? _]. set_solver.
Qed.

(** The list after a move to the front, and after a removal. *)
Definition without (x : loc) (l : list loc) : list loc := filter (λ y, y ≠ x) l.

Lemma without_notin x l : x ∉ l → without x l = l.
Proof.
  intros Hx. unfold without. induction l as [|y l IH]; [done|].
  rewrite filter_cons_True by set_solver. f_equal. apply IH. set_solver.
Qed.
Lemma without_middle x l1 l2 : NoDup (l1 ++ x :: l2) → without x (l1 ++ x :: l2) = l1 ++ l2.
Proof.
  intros (H1 & H12 & [Hx H2]%NoDup_cons)%NoDup_app. unfold without.
  rewrite filter_app, filter_cons_False by (intros Hn; by apply Hn).
  fold (without x l1) (without x l2). rewrite !without_notin; [done|done|]. intros Hx'. apply (H12 _ Hx'). by left.
Qed.
Lemma elem_of_without x y l : y ∈ without x l ↔ y ∈ l ∧ y ≠ x.
Proof. unfold without. rewrite list_elem_of_filter. naive_solver. Qed.
Lemma without_perm x l : NoDup l → x ∈ l → l ≡ₚ x :: without x l.
Proof.
  intros Hnd (l1 & l2 & ->)%list_elem_of_split. rewrite without_middle by done.
  by rewrite Permutation_middle.
Qed.

Lemma sorted_without R x l : StronglySorted R l → StronglySorted R (without x l).
Proof.
  unfold without. induction 1 as [|y l Hl IH Hy]; [constructor|].
  destruct (decide (y ≠ x)); [rewrite filter_cons_True by done|by rewrite filter_cons_False].
  constructor; [done|]. rewrite Forall_forall in *. intros z [_ ?]%list_elem_of_filter. by apply Hy.
Qed.

(** Cutting out an item whose neighbours already skip it changes nothing. *)
Definition skipped (pt : gmap loc (option loc * option loc)) (nx pv : option loc) : Prop :=
  (∀ q, pv = Some q → ∃ v, pt !! q = Some (nx, v)) ∧ (∀ q, nx = Some q → ∃ v, pt !! q = Some (v, pv)).

Lemma alter_noop {A} (f : A → A) (m : gmap loc A) k x : m !! k = Some x → f x = x → alter f k m = m.
Proof.
  intros E Ef. apply map_eq. intros j. destruct (decide (k = j)) as [<-|].
  - by rewrite lookup_alter_eq, E; simpl; rewrite Ef.
  - by rewrite lookup_alter_ne.
Qed.

Lemma cut_skipped pt nx pv : skipped pt nx pv → cut pt nx pv = pt.
Proof.
  intros [H1 H2]. unfold cut.
  assert ((match pv with Some q => alter (λ e, (nx, e.2)) q pt | None => pt end) = pt) as ->.
  { destruct pv as [q|]; [|done]. destruct (H1 q eq_refl) as [v E]. by eapply alter_noop. }
  destruct nx as [q|]; [|done]. destruct (H2 q eq_refl) as [v E]. by eapply alter_noop.
Qed.

(** The neighbours of an item of a list exist and are other items. *)
Lemma dll_neighbours pt l1 x l2 :
  dll pt (l1 ++ x :: l2) →
  Some x ≠ head l2 ∧ Some x ≠ last l1 ∧
  (∀ q, last l1 = Some q → is_Some (pt !! q)) ∧ (∀ q, head l2 = Some q → is_Some (pt !! q)).
Proof.
  intros [Hnd Hl]. assert (∀ y, y ∈ l1 ++ x :: l2 → is_Some (pt !! y)) as Hall.
  { intros y (a & b & E)%list_elem_of_split. by rewrite (Hl _ _ _ E). }
  apply NoDup_app in Hnd as (_ & H12 & [Hx _]%NoDup_cons). split_and!.
  - intros E. symmetry in E. by apply head_in in E.
  - intros E. symmetry in E. apply last_in in E. apply (H12 _ E). by left.
  - intros q E%last_in. apply Hall. set_solver.
  - intros q E%head_in. apply Hall. set_solver.
Qed.

Section list_ops.
Context {K8s : K8sLib} {Range : MapRange}.
Implicit Types (st : Store) (p : PoolInfo).

(** The two first assignments of both list operations. *)
Lemma cut_spec st x nx pv :
  ptrs st !! x = Some (nx, pv) → Some x ≠ nx → Some x ≠ pv →
  (∀ q, pv = Some q → is_Some (ptrs st !! q)) → (∀ q, nx = Some q → is_Some (ptrs st !! q)) →
  ∃ it st1 it1 st2,
    st_items st !! x = Some it ∧
    match it_prev it with Some q => set_next st q (it_next it) | None => Some st end = Some st1 ∧
    st_items st1 !! x = Some it1 ∧
    match it_next it1 with Some q => set_prev st1 q (it_prev it1) | None => Some st1 end = Some st2 ∧
    st_gen st2 = st_gen st ∧ infos st2 = infos st ∧ ptrs st2 = cut (ptrs st) nx pv ∧
    ptrs st2 !! x = Some (nx, pv).
Proof.
  intros E Hn Hp Hpv Hnx. pose proof E as (info & Ei)%ptrs_infos. exists (MkItem info nx pv). simpl.
  assert (∃ st1, match pv with Some q => set_next st q nx | None => Some st end = Some st1 ∧
    st_gen st1 = st_gen st ∧ infos st1 = infos st ∧
    ptrs st1 = match pv with Some q => alter (λ e, (nx, e.2)) q (ptrs st) | None => ptrs st end)
    as (st1 & E1 & G1 & I1 & P1).
  { destruct pv as [q|]; [|by eauto]. destruct (Hpv q eq_refl) as [[a b] Eq].
    destruct (set_next_spec st q nx a b Eq) as (st1 & ? & ? & ? & P1). exists st1. split_and!; try done.
    rewrite P1. apply map_eq. intros j. destruct (decide (q = j)) as [<-|].
    - by rewrite lookup_insert_eq, lookup_alter_eq, Eq.
    - by rewrite lookup_insert_ne, lookup_alter_ne. }
  assert (ptrs st1 !! x = Some (nx, pv)) as Ex1.
  { rewrite P1. destruct pv as [q|]; [rewrite lookup_alter_ne by congruence|]; done. }
  pose proof Ex1 as (info1 & Ei1)%ptrs_infos.
  assert (∃ st2, match nx with Some q => set_prev st1 q pv | None => Some st1 end = Some st2 ∧
    st_gen st2 = st_gen st1 ∧ infos st2 = infos st1 ∧
    ptrs st2 = match nx with Some q => alter (λ e, (e.1, pv)) q (ptrs st1) | None => ptrs st1 end)
    as (st2 & E2 & G2 & I2 & P2).
  { destruct nx as [q|]; [|by eauto].
    assert (is_Some (ptrs st1 !! q)) as [[a b] Eq].
    { rewrite P1. destruct pv; [apply lookup_alter_is_Some|]; by apply Hnx. }
    destruct (set_prev_spec st1 q pv a b Eq) as (st2 & ? & ? & ? & P2). exists st2. split_and!; try done.
    rewrite P2. apply map_eq. intros j. destruct (decide (q = j)) as [<-|].
    - by rewrite lookup_insert_eq, lookup_alter_eq, Eq.
    - by rewrite lookup_insert_ne, lookup_alter_ne. }
  exists st1, (MkItem info1 nx pv), st2. split_and!; try done; try congruence.
  - rewrite P2, P1. done.
  - rewrite P2. destruct nx as [q|]; [rewrite lookup_alter_ne by congruence|]; done.
Qed.

(** [moveNodeInfoToHead], for an item that is not the head. *)
Lemma move_raw st p name x nx pv :
  pi_nodes p !! name = Some x → Some x ≠ pi_headNode p →
  ptrs st !! x = Some (nx, pv) → Some x ≠ nx → Some x ≠ pv →
  (∀ q, pv = Some q → is_Some (ptrs st !! q)) → (∀ q, nx = Some q → is_Some (ptrs st !! q)) →
  (∀ q, pi_headNode p = Some q → is_Some (ptrs st !! q)) →
  ∃ st', moveNodeInfoToHead st p name = Some (st', set_nodes p (pi_nodes p) (Some x)) ∧
    st_gen st' = st_gen st ∧ infos st' = infos st ∧
    ptrs st' = push (cut (ptrs st) nx pv) x (pi_headNode p).
Proof.
  intros Ename Hh E Hn Hp Hpv Hnx Hhd. unfold moveNodeInfoToHead. rewrite Ename, bool_decide_false by done.
  destruct (cut_spec st x nx pv) as (it & st1 & it1 & st2 & -> & H1 & Ei1 & H2 & G2 & I2 & P2 & Ex2); try done.
  cbn [mbind option_bind]. rewrite H1. cbn [mbind option_bind]. rewrite Ei1. cbn [mbind option_bind].
  rewrite H2. cbn [mbind option_bind]. set (h := pi_headNode p) in *.
  assert (∃ st3, match h with Some h => set_prev st2 h (Some x) | None => Some st2 end = Some st3 ∧
    st_gen st3 = st_gen st2 ∧ infos st3 = infos st2 ∧
    ptrs st3 = match h with Some q => alter (λ e, (e.1, Some x)) q (ptrs st2) | None => ptrs st2 end)
    as (st3 & E3 & G3 & I3 & P3).
  { destruct h as [q|]; [|by eauto].
    assert (is_Some (ptrs st2 !! q)) as [[a b] Eq].
    { rewrite P2. unfold cut. destruct nx, pv; rewrite ?lookup_alter_is_Some; by apply Hhd. }
    destruct (set_prev_spec st2 q (Some x) a b Eq) as (st3 & ? & ? & ? & P3). exists st3. split_and!; try done.
    rewrite P3. apply map_eq. intros j. destruct (decide (q = j)) as [<-|].
    - by rewrite lookup_insert_eq, lookup_alter_eq, Eq.
    - by rewrite lookup_insert_ne, lookup_alter_ne. }
  rewrite E3. cbn [mbind option_bind].
  assert (ptrs st3 !! x = Some (nx, pv)) as Ex3.
  { rewrite P3. destruct h as [q|]; [rewrite lookup_alter_ne by congruence|]; done. }
  destruct (set_next_spec st3 x h nx pv Ex3) as (st4 & -> & G4 & I4 & P4). cbn [mbind option_bind].
  destruct (set_prev_spec st4 x None h pv) as (st5 & -> & G5 & I5 & P5).
  { by rewrite P4, lookup_insert_eq. }
  cbn [mbind option_bind]. exists st5. split_and!; try congruence.
  rewrite P5, P4, insert_insert_eq, P3, P2. done.
Qed.

(** Moving an item of the list, or a new one, to the front. *)
Lemma move_spec st p name x l :
  pi_nodes p !! name = Some x → pi_headNode p = head l → dll (ptrs st) l →
  (x ∈ l ∨ ∃ nx pv, ptrs st !! x = Some (nx, pv) ∧ Some x ≠ nx ∧ Some x ≠ pv ∧ skipped (ptrs st) nx pv) →
  ∃ st', moveNodeInfoToHead st p name = Some (st', set_nodes p (pi_nodes p) (Some x)) ∧
    st_gen st' = st_gen st ∧ infos st' = infos st ∧ dll (ptrs st') (x :: without x l) ∧
    (∀ y, y ∉ l → y ≠ x → ptrs st' !! y = ptrs st !! y).
Proof.
  intros Ename Eh Hd Hx.
  assert (∀ q, pi_headNode p = Some q → is_Some (ptrs st !! q)) as Hhd.
  { rewrite Eh. intros q Eq. destruct l as [|y l]; simplify_eq/=. by rewrite (dll_lookup _ [] q l Hd). }
  assert (∀ nx pv x, pi_headNode p = head l → ∀ y, y ∉ l → y ≠ x → 
    push (cut (ptrs st) nx pv) x (pi_headNode p) !! y = cut (ptrs st) nx pv !! y) as Hframe.
  { clear -Hd. intros nx pv x E y Hy Hyx. unfold push. rewrite lookup_insert_ne by done. rewrite E.
    destruct (head l) as [h|] eqn:Eh; [|done]. rewrite lookup_alter_ne; [done|]. intros ->. by apply head_in in Eh. }
  destruct (decide (x ∈ l)) as [Hin|Hout].
  - clear Hx. apply list_elem_of_split in Hin as (l1 & l2 & ->). pose proof Hd as [Hnd _].
    rewrite without_middle by done. destruct l1 as [|z l1].
    { simpl in *. unfold moveNodeInfoToHead. rewrite Ename, Eh, bool_decide_true by done. exists st.
      split_and!; try done. destruct p; simpl in *. by subst. }
    pose proof (dll_lookup _ _ _ _ Hd) as Ex. destruct (dll_neighbours _ _ _ _ Hd) as (Hn1 & Hn2 & Hpv & Hnx).
    destruct (move_raw st p name x (head l2) (last (z :: l1)) Ename) as (st' & E & G & I & P); try done.
    { rewrite Eh. simpl. intros [= ->]. apply NoDup_cons in Hnd as [? _]. set_solver. }
    exists st'. split_and!; try done.
    + rewrite P, Eh. change (head ((z :: l1) ++ x :: l2)) with (head ((z :: l1) ++ l2)). apply dll_push.
      * by apply (dll_cut _ _ x).
      * apply NoDup_app in Hnd as (_ & H12 & [Hx _]%NoDup_cons).
        intros [Hx'|Hx']%elem_of_app; [|done]. apply (H12 _ Hx'). by left.
    + intros y Hy Hyx. rewrite P, Hframe by done. apply cut_other; intros E'; apply Hy.
      * symmetry in E'. apply head_in in E'. set_solver.
      * symmetry in E'. apply last_in in E'. set_solver.
  - destruct Hx as [|(nx & pv & Ex & Hn1 & Hn2 & Hs)]; [done|]. rewrite without_notin by done.
    destruct (move_raw st p name x nx pv Ename) as (st' & E & G & I & P); try done.
    { rewrite Eh. intros E. symmetry in E. by apply head_in in E. }
    { intros q ->. destruct (proj1 Hs q eq_refl) as [v ->]. done. }
    { intros q ->. destruct (proj2 Hs q eq_refl) as [v ->]. done. }
    exists st'. rewrite cut_skipped in P by done. split_and!; try done.
    + rewrite P, Eh. by apply dll_push.
    + intros y Hy Hyx. rewrite P. specialize (Hframe None None x Eh y Hy Hyx). done.
Qed.

(** Removing an item from the list; its own pointers stay and its neighbours skip it. *)
Lemma unlink_spec st p name x l :
  pi_nodes p !! name = Some x → pi_headNode p = head l → dll (ptrs st) l → x ∈ l →
  ∃ st', removeNodeInfoFromList st p name =
      Some (st', set_nodes p (delete name (pi_nodes p)) (head (without x l))) ∧
    st_gen st' = st_gen st ∧ infos st' = infos st ∧ dll (ptrs st') (without x l) ∧
    (∀ y, y ∉ l → ptrs st' !! y = ptrs st !! y) ∧
    ∃ nx pv, ptrs st' !! x = Some (nx, pv) ∧ Some x ≠ nx ∧ Some x ≠ pv ∧ skipped (ptrs st') nx pv.
Proof.
  intros Ename Eh Hd (l1 & l2 & ->)%list_elem_of_split. pose proof Hd as [Hnd _].
  rewrite without_middle by done. pose proof (dll_lookup _ _ _ _ Hd) as Ex.
  destruct (dll_neighbours _ _ _ _ Hd) as (Hn1 & Hn2 & Hpv & Hnx).
  unfold removeNodeInfoFromList. rewrite Ename.
  destruct (cut_spec st x (head l2) (last l1)) as (it & st1 & it1 & st2 & -> & H1 & Ei1 & H2 & G2 & I2 & P2 & Ex2);
    try done.
  cbn [mbind option_bind]. rewrite H1. cbn [mbind option_bind]. rewrite Ei1. cbn [mbind option_bind].
  rewrite H2. cbn [mbind option_bind]. pose proof Ex2 as (info2 & Ei2)%ptrs_infos. rewrite Ei2.
  cbn [mbind option_bind it_next]. exists st2. split_and!; try done.
  - repeat f_equal. rewrite Eh. case_bool_decide as Hb.
    + destruct l1 as [|z l1]; [done|]. simplify_eq/=. exfalso. apply NoDup_cons in Hnd as [? _]. set_solver.
    + by destruct l1.
  - rewrite P2. by apply (dll_cut _ _ x).
  - intros y Hy. rewrite P2. apply cut_other; intros E'; apply Hy; symmetry in E'.
    + apply head_in in E'. set_solver.
    + apply last_in in E'. set_solver.
  - exists (head l2), (last l1). split_and!; try done.
    pose proof (dll_cut _ _ _ _ Hd) as Hd'. rewrite <-P2 in Hd'. split.
    + intros q [l' ->]%last_Some. rewrite <-app_assoc in Hd'. apply dll_lookup in Hd'. eauto.
    + intros q Eq. destruct l2 as [|q' l2]; simplify_eq/=. apply dll_lookup in Hd'. eauto.
Qed.

(** A new item. *)
Lemma newItem_spec st s :
  let '(st', x) := newNodeInfoListItem st s in
  infos st !! x = None ∧ st_gen st' = s.1 ∧ infos st' = <[x := s.2]> (infos st) ∧
  ptrs st' = <[x := (None, None)]> (ptrs st) ∧ ptrs st !! x = None.
Proof.
  unfold newNodeInfoListItem. set (x := fresh _).
  assert (st_items st !! x = None) as Hx by (apply not_elem_of_dom, is_fresh).
  unfold infos, ptrs. simpl. rewrite !fmap_insert, !lookup_fmap, Hx. done.
Qed.
End list_ops.

(** ** The invariant of a pool *)

Definition gen_of (st : Store) (x : loc) : Z := NodeInfo_GetGeneration (infos st !! x).
(** The name of the node object of an item. *)
Definition node_name (st : Store) (x : loc) : option string :=
  info ← infos st !! x; node_Name <$> ni_node info.

Section pool_inv.
Context {K8s : K8sLib} {Laws : K8sLaws} {Range : MapRange}.
Implicit Types (st : Store) (p : PoolInfo) (l : list loc).

(** [l] is the list of the pool, most recently changed first. *)
Record pool_ok st p l : Prop := {
  po_dll : dll (ptrs st) l;
  po_head : pi_headNode p = head l;
  po_nodes : (map_to_list (pi_nodes p)).*2 ≡ₚ l;
  po_infos name x : pi_nodes p !! name = Some x →
    ∃ info, infos st !! x = Some info ∧ NodeInfo_inv info ∧
      (∀ n, ni_node info = Some n → node_Name n = name) ∧
      (∀ pod, pod ∈ ni_pods info → pod_NodeName pod = name)
}.

(** The snapshot is right for every item that has not changed since. *)
Record fresh_ok st p l : Prop := {
  fr_sorted : StronglySorted (λ x y, gen_of st y < gen_of st x) l;
  fr_bound x : x ∈ l → gen_of st x <= st_gen st;
  fr_snap : snap_Generation (pi_nodeInfoSnapshot p) <= st_gen st;
  fr_entries x s : x ∈ l → gen_of st x <= snap_Generation (pi_nodeInfoSnapshot p) →
    node_name st x = Some s → NodeInfoMap (pi_nodeInfoSnapshot p) !! s = infos st !! x
}.

Lemma po_in st p l x : pool_ok st p l → x ∈ l ↔ ∃ name, pi_nodes p !! name = Some x.
Proof.
  intros Hp. rewrite <-(po_nodes _ _ _ Hp), list_elem_of_fmap. split.
  - intros ([name y] & -> & E%elem_of_map_to_list). eauto.
  - intros [name E]. exists (name, x). split; [done|]. by apply elem_of_map_to_list.
Qed.

Lemma po_inj st p l name name' x :
  pool_ok st p l → pi_nodes p !! name = Some x → pi_nodes p !! name' = Some x → name = name'.
Proof.
  intros Hp E E'. pose proof (proj1 (po_dll _ _ _ Hp)) as Hnd. rewrite <-(po_nodes _ _ _ Hp) in Hnd.
  apply elem_of_map_to_list, list_elem_of_lookup in E as [i Ei].
  apply elem_of_map_to_list, list_elem_of_lookup in E' as [j Ej].
  assert (i = j) as <-; [|congruence].
  eapply NoDup_lookup; [done|..]; rewrite list_lookup_fmap; [by rewrite Ei|by rewrite Ej].
Qed.

(** ** Refreshing the snapshot *)

Lemma dll_next st l i : dll (ptrs st) l → advance st (l !! i) = Some (l !! S i).
Proof.
  intros Hd. destruct (l !! i) as [x|] eqn:E; simpl.
  - pose proof E as Es. apply take_drop_middle in Es. rewrite <-Es in Hd. apply dll_lookup in Hd.
    apply ptrs_infos in Hd as (info & ->). simpl. f_equal.
    rewrite head_lookup, lookup_drop. f_equal. lia.
  - symmetry. f_equal. apply lookup_ge_None. apply lookup_ge_None in E. lia.
Qed.

Definition refreshed (b : bool) (info : NodeInfo) : NodeInfo := if b then reset_transient info else info.

Lemma refreshed_same b info :
  ni_generation (refreshed b info) = ni_generation info ∧ ni_node (refreshed b info) = ni_node info ∧
  ni_pods (refreshed b info) = ni_pods info ∧ (NodeInfo_inv info → NodeInfo_inv (refreshed b info)).
Proof. destruct b; split_and!; try done. intros Hi. by eapply NodeInfo_inv_same. Qed.

Lemma StronglySorted_weaken {A} (R R' : A → A → Prop) (l : list A) :
  (∀ x y, x ∈ l → y ∈ l → R x y → R' x y) → StronglySorted R l → StronglySorted R' l.
Proof.
  intros HR. induction 1 as [|x l Hl IH Hx]; constructor.
  - apply IH. intros y z Hy Hz. apply HR; by right.
  - rewrite Forall_forall in *. intros y Hy. apply HR; [by left|by right|auto].
Qed.

Lemma no_meet {A} `{!EqDecision A} (l : list A) i j :
  NoDup l → i ≠ j →
  bool_decide (is_Some (l !! i)) && bool_decide (is_Some (l !! j)) && bool_decide (l !! i = l !! j) = false.
Proof.
  intros Hnd Hij. destruct (l !! i) as [x|] eqn:Ei; [|done]. destruct (l !! j) as [y|] eqn:Ej; [|done].
  rewrite !bool_decide_true by done. simpl. apply bool_decide_eq_false. intros [= ->].
  apply Hij. by eapply NoDup_lookup.
Qed.

(** The first loop copies the items in front of the first one that is not newer
    than the snapshot, and finds no circle. *)
Lemma snapshot_loop_spec b G l2 l1 fuel st m fast pv :
  dll (ptrs st) (l1 ++ l2) → (length l2 < fuel)%nat → fast = (l1 ++ l2) !! (2 * length l1)%nat →
  StronglySorted (λ x y, gen_of st y < gen_of st x) l2 →
  (∀ x y s, x ∈ l2 → y ∈ l2 → node_name st x = Some s → node_name st y = Some s → x = y) →
  ∃ a c st' m' w, l2 = a ++ c ∧
    snapshot_loop fuel b G st m (MkWalk fast (head l2) pv) = Some (st', m', w, false) ∧
    st_gen st' = st_gen st ∧ ptrs st' = ptrs st ∧
    (∀ x, x ∈ c → gen_of st x <= G) ∧
    (∀ x, infos st' !! x = if bool_decide (x ∈ a) then refreshed b <$> infos st !! x else infos st !! x) ∧
    (∀ x s, x ∈ a → node_name st x = Some s → m' !! s = refreshed b <$> infos st !! x) ∧
    (∀ s, (∀ x, x ∈ a → node_name st x ≠ Some s) → m' !! s = m !! s).
Proof.
  revert l1 fuel st m fast pv. induction l2 as [|x l2 IH]; intros l1 fuel st m fast pv Hd Hf Efast Hs Hinj;
    (destruct fuel as [|fuel]; [simpl in Hf; lia|]).
  { eexists [], [], st, m, _. split_and!; try done; set_solver. }
  pose proof (dll_lookup _ _ _ _ Hd) as Ex.
  assert (is_Some (infos st !! x)) as [info Ei] by (by rewrite <-ptrs_Some_infos, Ex).
  simpl. rewrite get_info_infos, Ei. simpl.
  assert (gen_of st x = ni_generation info) as Egen by (unfold gen_of; by rewrite Ei).
  destruct (ni_generation info <=? G) eqn:Eg.
  { eexists [], (x :: l2), st, m, _. split_and!; try done; [|set_solver].
    intros y [->|Hy]%elem_of_cons; [lia|]. apply StronglySorted_inv in Hs as [_ Hs].
    rewrite Forall_forall in Hs. specialize (Hs y Hy). lia. }
  fold (refreshed b info). destruct (refreshed_same b info) as (Rg & Rn & _ & _).
  destruct (set_info_spec st x (st_gen st, refreshed b info)) as (st1 & -> & G1 & I1 & P1); [by rewrite Ei|].
  cbn [mbind option_bind]. rewrite NodeInfo_Clone_id, Rn.
  set (m1 := match ni_node info with Some np => <[node_Name np := refreshed b info]> m | None => m end).
  pose proof Hd as [Hnd _]. assert (x ∉ l2) as Hx2 by (by apply NoDup_app in Hnd as (_ & _ & [? _]%NoDup_cons)).
  assert (dll (ptrs st1) (l1 ++ x :: l2)) as Hd1 by (by rewrite P1).
  pose proof (dll_next st1 (l1 ++ x :: l2) (length l1) Hd1) as Enext.
  rewrite list_lookup_middle in Enext by done. simpl in Enext. rewrite Enext. cbn [mbind option_bind].
  rewrite Efast, (dll_next st1) by done. cbn [mbind option_bind]. rewrite (dll_next st1) by done.
  cbn [mbind option_bind]. rewrite no_meet by (done || lia). cbn [mbind option_bind].
  assert (∀ y, gen_of st1 y = gen_of st y ∧ node_name st1 y = node_name st y) as Hsame.
  { intros y. unfold gen_of, node_name. rewrite I1. destruct (decide (x = y)) as [<-|].
    - rewrite lookup_insert_eq, Ei. simpl. by rewrite Rg, Rn.
    - by rewrite lookup_insert_ne. }
  assert (∀ y, y ≠ x → infos st1 !! y = infos st !! y) as Hother
    by (intros y Hy; by rewrite I1, lookup_insert_ne).
  replace ((l1 ++ x :: l2) !! S (length l1)) with (head l2).
  2:{ rewrite (cons_middle x l1 l2), app_assoc, head_lookup, lookup_app_r by (rewrite length_app; simpl; lia).
      f_equal. rewrite length_app. simpl. lia. }
  destruct (IH (l1 ++ [x]) fuel st1 m1 ((l1 ++ x :: l2) !! S (S (2 * length l1))) (Some x))
    as (a & c & st' & m' & w & -> & -> & G2 & P2 & Hc & I2 & R1 & R2).
  { by rewrite <-app_assoc. }
  { simpl in Hf. lia. }
  { rewrite <-app_assoc, length_app. f_equal. simpl. lia. }
  { apply StronglySorted_inv in Hs as [Hs _]. eapply StronglySorted_weaken; [|exact Hs].
    intros y z _ _. by rewrite !(proj1 (Hsame _)). }
  { intros y z s Hy Hz. rewrite !(proj2 (Hsame _)). apply Hinj; by right. }
  assert (x ∉ a) as Hxa by set_solver.
  exists (x :: a), c, st', m', w. split_and!; try done; try congruence.
  - by rewrite G2, G1.
  - intros y Hy. rewrite <-(proj1 (Hsame y)). by apply Hc.
  - intros y. rewrite I2. destruct (decide (y = x)) as [->|Hyx].
    + rewrite bool_decide_false, bool_decide_true by (done || by left). by rewrite I1, lookup_insert_eq, Ei.
    + rewrite Hother by done. by rewrite (bool_decide_ext (y ∈ x :: a) (y ∈ a)) by set_solver.
  - intros y s [->|Hy]%elem_of_cons Es.
    + rewrite R2.
      { unfold node_name in Es. rewrite Ei in Es |- *. unfold m1. simpl in Es.
        destruct (ni_node info) as [n|]; [|done]. simplify_eq/=. by rewrite lookup_insert_eq. }
      intros z Hz Ez. rewrite (proj2 (Hsame z)) in Ez. apply Hxa.
      by rewrite (Hinj x z s) by (done || (try by left) || right; set_solver).
    + rewrite (R1 y s) by (done || by rewrite (proj2 (Hsame y))). rewrite Hother; [done|]. by intros ->.
  - intros s Hns. rewrite R2.
    + assert (node_name st x ≠ Some s) as Hx by (apply Hns; by left). unfold node_name in Hx. rewrite Ei in Hx.
      unfold m1. simpl in Hx. destruct (ni_node info); [|done].
      rewrite lookup_insert_ne; [done|]. intros <-. by apply Hx.
    + intros y Hy. rewrite (proj2 (Hsame y)). apply Hns. by right.
Qed.

(** The deletion of vanished nodes. *)
Lemma drop_removed_lookup (nodes : gmap string loc) (m : gmap string NodeInfo) s :
  drop_removed nodes m !! s =
    if bool_decide (size nodes < size m)%nat then
      match nodes !! s with Some _ => m !! s | None => None end
    else m !! s.
Proof.
  unfold drop_removed. case_bool_decide; [|done]. clear.
  assert (∀ (l : list (string * NodeInfo)) (m : gmap string NodeInfo),
    foldl (λ m e, match nodes !! e.1 with Some _ => m | None => delete e.1 m end) m l !! s =
    match nodes !! s with Some _ => m !! s
    | None => if bool_decide (s ∈ l.*1) then None else (m : gmap string NodeInfo) !! s end) as Hl.
  { clear. induction l as [|[k v] l IH]; intros m; [simpl; by destruct (nodes !! s)|]. rewrite fmap_cons.
    cbn [foldl fst]. rewrite IH.
    destruct (nodes !! s) as [x|] eqn:E.
    - destruct (nodes !! k) eqn:Ek; [done|]. rewrite lookup_delete_ne; [done|]. congruence.
    - destruct (decide (s = k)) as [->|Hne].
      + rewrite E, lookup_delete_eq. rewrite (bool_decide_true (k ∈ k :: _)) by (by left). by case_bool_decide.
      + rewrite (bool_decide_ext (s ∈ k :: l.*1) (s ∈ l.*1)) by set_solver.
        destruct (nodes !! k); [done|]. by rewrite lookup_delete_ne. }
  rewrite Hl. destruct (nodes !! s); [done|]. case_bool_decide as Hs; [done|].
  destruct (m !! s) as [v|] eqn:E; [|done]. destruct Hs. apply list_elem_of_fmap. exists (s, v). split; [done|].
  rewrite range_perm. by apply elem_of_map_to_list.
Qed.

Lemma po_name st p l x s : pool_ok st p l → x ∈ l → node_name st x = Some s → pi_nodes p !! s = Some x.
Proof.
  intros Hp Hx Es. apply (po_in _ _ _ _ Hp) in Hx as [name E].
  destruct (po_infos _ _ _ Hp _ _ E) as (info & Ei & _ & Hn & _).
  unfold node_name in Es. rewrite Ei in Es. simpl in Es. apply fmap_Some in Es as (n & En & ->).
  by rewrite (Hn n En).
Qed.

Lemma dll_length st l : dll (ptrs st) l → (length l <= size (st_items st))%nat.
Proof.
  intros [Hnd Hl]. assert (list_to_set l ⊆ dom (st_items st)) as Hsub.
  { intros x (l1 & l2 & E)%elem_of_list_to_set%list_elem_of_split. apply elem_of_dom.
    specialize (Hl _ _ _ E). apply ptrs_infos in Hl as (info & ->). done. }
  apply subseteq_size in Hsub. rewrite size_list_to_set, size_dom in Hsub by done. lia.
Qed.

Lemma snapshot_spec b st p l :
  pool_ok st p l → fresh_ok st p l →
  ∃ st' m' g, let p' := set_snapshot p (MkNodeInfoSnapshot m' g) in
    UpdateNodeInfoSnapshot b st p = Some (st', p') ∧
    st_gen st' = st_gen st ∧ ptrs st' = ptrs st ∧
    (∀ x, infos st' !! x = infos st !! x ∨ x ∈ l ∧ infos st' !! x = refreshed b <$> infos st !! x) ∧
    pool_ok st' p' l ∧ fresh_ok st' p' l ∧
    (∀ x s, x ∈ l → node_name st' x = Some s → m' !! s = infos st' !! x) ∧
    ((∀ x, x ∈ l → is_Some (node_name st' x)) →
      ∀ s, m' !! s = x ← pi_nodes p !! s; infos st' !! x).
Proof.
  intros Hp Hf. set (sn := pi_nodeInfoSnapshot p).
  destruct (snapshot_loop_spec b (snap_Generation sn) l [] (S (size (st_items st))) st (NodeInfoMap sn)
    (head l) (head l)) as (a & c & st' & m & w & El & Eloop & G & P & Hc & I & R1 & R2).
  { apply Hp. }
  { pose proof (dll_length _ _ (po_dll _ _ _ Hp)). lia. }
  { simpl. by rewrite head_lookup. }
  { apply Hf. }
  { intros x y s Hx Hy Ex Ey. pose proof (po_name _ _ _ _ _ Hp Hx Ex).
    pose proof (po_name _ _ _ _ _ Hp Hy Ey). congruence. }
  assert (∀ x, ∃ f, (f = id ∨ f = refreshed b) ∧ infos st' !! x = f <$> infos st !! x) as Hinfo.
  { intros x. rewrite I. case_bool_decide; [by eauto|]. exists id. by rewrite option_fmap_id; eauto. }
  assert (∀ x, gen_of st' x = gen_of st x ∧ node_name st' x = node_name st x) as Hsame.
  { intros x. unfold gen_of, node_name. destruct (Hinfo x) as (f & [->| ->] & ->); destruct (infos st !! x); simpl;
      try done. destruct (refreshed_same b n) as (-> & -> & _). done. }
  assert (∃ g, match pi_headNode p with Some h => ni_generation <$> get_info st' h
    | None => Some (snap_Generation sn) end = Some g ∧ g <= st_gen st) as (g & Eg & Hg).
  { rewrite (po_head _ _ _ Hp). destruct l as [|h l']; simpl; [exists (snap_Generation sn); split; [done|apply Hf]|].
    assert (is_Some (infos st' !! h)) as [info Ei].
    { rewrite <-ptrs_Some_infos, P. by rewrite (dll_lookup _ [] h l' (po_dll _ _ _ Hp)). }
    rewrite get_info_infos, Ei. eexists. split; [done|].
    pose proof (fr_bound _ _ _ Hf h) as Hb. rewrite <-(proj1 (Hsame h)) in Hb. unfold gen_of in Hb.
    rewrite Ei in Hb. apply Hb. by left. }
  set (m' := drop_removed (pi_nodes p) m). exists st', m', g. simpl.
  assert (∀ x s, x ∈ l → node_name st' x = Some s → m !! s = infos st' !! x) as Hm.
  { intros x s Hx Es. rewrite (proj2 (Hsame x)) in Es. rewrite I. case_bool_decide as Hxa; [by apply R1|].
    assert (x ∈ c) as Hxc by set_solver. rewrite R2.
    - apply (fr_entries _ _ _ Hf); auto.
    - intros y Hy Ey. apply Hxa. assert (y ∈ l) as Hyl by set_solver.
      pose proof (po_name _ _ _ _ _ Hp Hx Es). pose proof (po_name _ _ _ _ _ Hp Hyl Ey). by simplify_eq. }
  assert (∀ x s, x ∈ l → node_name st' x = Some s → m' !! s = infos st' !! x) as Hm'.
  { intros x s Hx Es. unfold m'. rewrite drop_removed_lookup, <-(Hm x s) by done. rewrite (proj2 (Hsame x)) in Es.
    rewrite (po_name _ _ _ _ _ Hp Hx Es). by case_bool_decide. }
  split_and!; try done.
  - unfold UpdateNodeInfoSnapshot. fold sn. rewrite (po_head _ _ _ Hp) in *. rewrite Eloop.
    cbn [mbind option_bind]. by rewrite Eg.
  - intros x. rewrite I. case_bool_decide; [right; split; [set_solver|done]|by left].
  - split; simpl; [rewrite P; apply Hp|apply Hp|apply Hp|]. intros name x E.
    destruct (po_infos _ _ _ Hp name x E) as (info & Ei & Hinv & Hn & Hpods).
    destruct (Hinfo x) as (f & Hfe & ->). rewrite Ei. eexists. split; [done|].
    destruct (refreshed_same b info) as (_ & R3 & R4 & R5). destruct Hfe as [->| ->]; [done|].
    rewrite R3, R4. auto.
  - split; simpl.
    + eapply StronglySorted_weaken; [|apply Hf]. intros x y _ _. by rewrite !(proj1 (Hsame _)).
    + intros x Hx. rewrite (proj1 (Hsame x)), G. by apply (fr_bound _ _ _ Hf).
    + by rewrite G.
    + intros x s Hx _. by apply Hm'.
  - intros Hall s. destruct (pi_nodes p !! s) as [x|] eqn:E; simpl.
    + assert (x ∈ l) as Hx by (apply (po_in _ _ _ _ Hp); eauto). apply Hm'; [done|].
      destruct (Hall x Hx) as [s' Es']. pose proof (Hsame x) as [_ Hs]. rewrite Hs in Es'.
      pose proof (po_name _ _ _ _ _ Hp Hx Es') as E'. rewrite (po_inj _ _ _ _ _ _ Hp E E'). congruence.
    + unfold m'. rewrite drop_removed_lookup, E. case_bool_decide as Hsz; [done|].
      assert (dom (pi_nodes p) ⊆ dom m) as Hsub.
      { intros s' [x E']%elem_of_dom. apply elem_of_dom. assert (x ∈ l) as Hx by (apply (po_in _ _ _ _ Hp); eauto).
        destruct (Hall x Hx) as [s'' Es]. pose proof Es as Es2. rewrite (proj2 (Hsame x)) in Es2.
        pose proof (po_name _ _ _ _ _ Hp Hx Es2) as E2. rewrite (po_inj _ _ _ _ _ _ Hp E' E2), (Hm x s'' Hx Es).
        destruct (po_infos _ _ _ Hp _ _ E') as (info & Ei & _). destruct (Hinfo x) as (f & _ & ->). by rewrite Ei. }
      assert (dom (pi_nodes p) ≡ dom m) as Heq.
      { apply set_subseteq_size_equiv; [done|]. rewrite !size_dom. lia. }
      apply not_elem_of_dom. rewrite <-Heq. by apply not_elem_of_dom.
Qed.

(** ** The operations keep the invariant *)

Definition gen_room st : Prop := 0 <= st_gen st ∧ st_gen st + 2 <= MaxInt64.

Lemma nextGeneration_succ g : 0 <= g → g + 1 <= MaxInt64 → nextGeneration g = g + 1.
Proof. intros H1 H2. unfold nextGeneration, add64. apply wrap64_id. unfold int64, MinInt64, MaxInt64 in *. lia. Qed.

(** An item is changed, gets the newest generation and moves to the front. *)
Lemma touch_ok st p l name x info st' p' :
  pool_ok st p l →
  (pi_nodes p !! name = Some x ∨ pi_nodes p !! name = None ∧ x ∉ l) →
  pi_nodes p' = <[name := x]> (pi_nodes p) → pi_headNode p' = Some x →
  dll (ptrs st') (x :: without x l) → infos st' = <[x := info]> (infos st) → NodeInfo_inv info →
  (∀ n, ni_node info = Some n → node_Name n = name) → (∀ pod, pod ∈ ni_pods info → pod_NodeName pod = name) →
  pool_ok st' p' (x :: without x l).
Proof.
  intros Hp Hx En Eh Hd Ei Hinv Hn Hpods. split; [done|done| |].
  - rewrite En. destruct Hx as [E|[E Hx]].
    + rewrite insert_id by done. rewrite <-without_perm; [apply Hp|apply Hp|]. apply (po_in _ _ _ _ Hp). eauto.
    + rewrite map_to_list_insert by done. simpl. rewrite without_notin by done. f_equiv. apply Hp.
  - rewrite En. intros name' y [[<- <-]|[Hne Ey]]%lookup_insert_Some.
    + exists info. by rewrite Ei, lookup_insert_eq.
    + destruct (po_infos _ _ _ Hp name' y Ey) as (info' & Ei' & ?). exists info'. rewrite Ei, lookup_insert_ne; [done|].
      intros ->. destruct Hx as [E|[_ Hx]]; [by apply Hne, (po_inj _ _ _ _ _ _ Hp E Ey)|].
      apply Hx, (po_in _ _ _ _ Hp). eauto.
Qed.

Lemma touch_fresh st p l x info st' p' :
  NoDup l → fresh_ok st p l → pi_nodeInfoSnapshot p' = pi_nodeInfoSnapshot p →
  infos st' = <[x := info]> (infos st) → ni_generation info = st_gen st' → st_gen st < st_gen st' →
  fresh_ok st' p' (x :: without x l).
Proof.
  intros Hnd [Hs Hb Hsn He] Esn Ei Eg Hg.
  assert (gen_of st' x = st_gen st') as Ex by (unfold gen_of; by rewrite Ei, lookup_insert_eq).
  assert (∀ y, y ∈ without x l → y ∈ l ∧ gen_of st' y = gen_of st y ∧ infos st' !! y = infos st !! y) as Hy.
  { intros y [Hy Hne]%elem_of_without. unfold gen_of. rewrite Ei, lookup_insert_ne by done. done. }
  split.
  - constructor.
    + eapply (StronglySorted_weaken (λ x y, gen_of st y < gen_of st x)).
      * intros y z Hy' Hz. rewrite (proj1 (proj2 (Hy y Hy'))), (proj1 (proj2 (Hy z Hz))). done.
      * by apply sorted_without.
    + apply Forall_forall. intros y Hy'. destruct (Hy y Hy') as (Hyl & -> & _). rewrite Ex.
      specialize (Hb y Hyl). lia.
  - intros y [->|Hy']%elem_of_cons; [lia|]. destruct (Hy y Hy') as (Hyl & -> & _). specialize (Hb y Hyl). lia.
  - rewrite Esn. lia.
  - rewrite Esn. intros y s [->|Hy']%elem_of_cons; [lia|]. destruct (Hy y Hy') as (Hyl & -> & Ey).
    unfold node_name. rewrite Ey. by apply He.
Qed.

(** An item leaves the list. *)
Lemma gone_ok st p l name x st' p' :
  pool_ok st p l → pi_nodes p !! name = Some x → pi_nodes p' = delete name (pi_nodes p) →
  pi_headNode p' = head (without x l) → dll (ptrs st') (without x l) →
  (∀ y, y ≠ x → infos st' !! y = infos st !! y) → pool_ok st' p' (without x l).
Proof.
  intros Hp Ename En Eh Hd Ei. assert (x ∈ l) as Hx by (apply (po_in _ _ _ _ Hp); eauto). split; [done|done| |].
  - rewrite En. apply (Permutation_cons_inv (a := x)). rewrite <-without_perm by (done || apply Hp).
    rewrite <-(po_nodes _ _ _ Hp). rewrite <-(insert_delete_id _ _ _ Ename) at 2.
    rewrite map_to_list_insert by apply lookup_delete_eq. done.
  - rewrite En. intros name' y [Hne Ey]%lookup_delete_Some.
    destruct (po_infos _ _ _ Hp name' y Ey) as (info' & Ei' & ?). exists info'. rewrite Ei; [done|].
    intros ->. by apply Hne, (po_inj _ _ _ _ _ _ Hp Ename Ey).
Qed.

Lemma gone_fresh st p l x st' p' :
  fresh_ok st p l → pi_nodeInfoSnapshot p' = pi_nodeInfoSnapshot p →
  (∀ y, y ≠ x → infos st' !! y = infos st !! y) → st_gen st <= st_gen st' → fresh_ok st' p' (without x l).
Proof.
  intros [Hs Hb Hsn He] Esn Ei Hg.
  assert (∀ y, y ∈ without x l → y ∈ l ∧ gen_of st' y = gen_of st y ∧ infos st' !! y = infos st !! y) as Hy.
  { intros y [Hy Hne]%elem_of_without. unfold gen_of. rewrite Ei by done. done. }
  split.
  - eapply (StronglySorted_weaken (λ x y, gen_of st y < gen_of st x)).
    + intros y z Hy' Hz. rewrite (proj1 (proj2 (Hy y Hy'))), (proj1 (proj2 (Hy z Hz))). done.
    + by apply sorted_without.
  - intros y Hy'. destruct (Hy y Hy') as (Hyl & -> & _). specialize (Hb y Hyl). lia.
  - rewrite Esn. lia.
  - rewrite Esn. intros y s Hy'. destruct (Hy y Hy') as (Hyl & -> & Ey). unfold node_name. rewrite Ey. by apply He.
Qed.

(** The item of a name, existing or new. *)
Lemma get_or_new_spec st p l name :
  pool_ok st p l → gen_room st →
  ∃ st1 x info, get_or_new_item st p name = (st1, set_nodes p (<[name := x]> (pi_nodes p)) (pi_headNode p), x) ∧
    infos st1 !! x = Some info ∧ (∀ y, y ≠ x → infos st1 !! y = infos st !! y) ∧
    dll (ptrs st1) l ∧ (∀ y, is_Some (ptrs st !! y) → ptrs st1 !! y = ptrs st !! y) ∧
    st_gen st <= st_gen st1 <= st_gen st + 1 ∧ NodeInfo_inv info ∧
    (∀ n, ni_node info = Some n → node_Name n = name) ∧
    (∀ pod, pod ∈ ni_pods info → pod_NodeName pod = name) ∧
    (pi_nodes p !! name = Some x ∧ x ∈ l ∧ st1 = st ∨
     pi_nodes p !! name = None ∧ (x ∉ l) ∧ infos st !! x = None ∧ ptrs st1 !! x = Some (None, None) ∧
     ni_pods info = [] ∧ ni_node info = None).
Proof.
  intros Hp [Hg0 Hg]. unfold get_or_new_item. destruct (pi_nodes p !! name) as [x|] eqn:E.
  - destruct (po_infos _ _ _ Hp name x E) as (info & Ei & Hinv & Hn & Hpods). exists st, x, info.
    split_and!; try done; try lia; try apply Hp.
    + rewrite insert_id by done. by destruct p.
    + left. split_and!; [done| |done]. apply (po_in _ _ _ _ Hp). eauto.
  - pose proof (newItem_spec st (NewNodeInfo (st_gen st) [])) as Hnew.
    destruct (newNodeInfoListItem st _) as [st1 x]. destruct Hnew as (Hx & G & I & P & Px).
    assert (x ∉ l) as Hxl.
    { intros (l1 & l2 & El)%list_elem_of_split. pose proof (po_dll _ _ _ Hp) as Hd. rewrite El in Hd.
      apply dll_lookup in Hd. congruence. }
    exists st1, x, (NewNodeInfo (st_gen st) []).2. split_and!; try done.
    + by rewrite I, lookup_insert_eq.
    + intros y Hy. by rewrite I, lookup_insert_ne.
    + eapply dll_ext; [apply Hp|]. intros y Hy. rewrite P, lookup_insert_ne; [done|]. by intros ->.
    + intros y [v Ev]. rewrite P, lookup_insert_ne; [done|]. intros ->. congruence.
    + rewrite G. simpl. rewrite nextGeneration_succ by lia. lia.
    + rewrite G. simpl. rewrite nextGeneration_succ by lia. lia.
    + apply NewNodeInfo_empty_inv.
    + intros pod. by intros ?%not_elem_of_nil.
    + right. split_and!; try done. by rewrite P, lookup_insert_eq.
Qed.

Lemma AddPod_fields gen n pod :
  let '(g, n') := NodeInfo_AddPod gen n pod in
  g = nextGeneration gen ∧ ni_generation n' = g ∧ ni_pods n' = ni_pods n ++ [pod] ∧ ni_node n' = ni_node n.
Proof. unfold NodeInfo_AddPod. by destruct (calculateResource pod) as [[res cpu] mem]. Qed.

(** The pods of an item. *)
Definition pods_of st (x : loc) : list Pod := NodeInfo_Pods (infos st !! x).

(** What [AddPod] and the operations on nodes share: get the item, change it, move
    it to the front. *)
Lemma AddPod_ok st p l pod :
  pool_ok st p l → fresh_ok st p l → gen_room st → pod_UID pod ≠ EmptyString →
  (∀ x, pi_nodes p !! pod_NodeName pod = Some x → pod_UID pod ∉ pod_UID <$> pods_of st x) →
  ∃ st' p' x, PoolInfo_AddPod st p pod = Some (st', plusPodResource p' pod) ∧
    p' = set_nodes p (<[pod_NodeName pod := x]> (pi_nodes p)) (Some x) ∧
    pool_ok st' p' (x :: without x l) ∧ fresh_ok st' p' (x :: without x l) ∧
    (∀ y, y ≠ x → infos st' !! y = infos st !! y) ∧
    pods_of st' x = (if bool_decide (x ∈ l) then pods_of st x else []) ++ [pod] ∧
    st_gen st < st_gen st' <= st_gen st + 2 ∧
    (pi_nodes p !! pod_NodeName pod = Some x ∧ x ∈ l ∨
     pi_nodes p !! pod_NodeName pod = None ∧ (x ∉ l) ∧ infos st !! x = None) ∧
    (∀ y, is_Some (ptrs st !! y) → y ∉ l → y ≠ x → ptrs st' !! y = ptrs st !! y).
Proof.
  intros Hp Hf Hg Hu Hnot. set (name := pod_NodeName pod) in *.
  destruct (get_or_new_spec st p l name Hp Hg)
    as (st1 & x & info & E & Ei & Iother & Hd1 & Pother & Hg1 & Hinv & Hn & Hpods & Hcase).
  unfold PoolInfo_AddPod. fold name. rewrite E, get_info_infos, Ei. cbn [mbind option_bind].
  pose proof (AddPod_fields (st_gen st1) info pod) as Hfields.
  pose proof (AddPod_inv (st_gen st1) info pod Hinv Hu) as Hinv'.
  destruct (NodeInfo_AddPod (st_gen st1) info pod) as [g info'] eqn:Eadd.
  destruct Hfields as (-> & Egen & Epods & Enode). simpl in Hinv'.
  destruct (set_info_spec st1 x (nextGeneration (st_gen st1), info')) as (st2 & -> & G2 & I2 & P2); [by rewrite Ei|].
  cbn [mbind option_bind]. simpl in G2, I2. set (p1 := set_nodes p _ _).
  destruct (move_spec st2 p1 name x l) as (st3 & -> & G3 & I3 & Hd3 & P3).
  { simpl. by rewrite lookup_insert_eq. }
  { apply Hp. }
  { by rewrite P2. }
  { destruct Hcase as [(_ & ? & _)|(_ & _ & _ & Px & _)]; [by left|]. right. exists None, None.
    rewrite P2. done. }
  cbn [mbind option_bind]. destruct Hg as [Hg0 Hg'].
  assert (st_gen st3 = st_gen st1 + 1) as G4 by (rewrite G3, G2; apply nextGeneration_succ; lia).
  assert (infos st3 = <[x := info']> (infos st)) as I4.
  { rewrite I3, I2. apply map_eq. intros y. destruct (decide (x = y)) as [<-|].
    - by rewrite !lookup_insert_eq.
    - rewrite !lookup_insert_ne by done. by apply Iother. }
  assert (pods_of st3 x = (if bool_decide (x ∈ l) then pods_of st x else []) ++ [pod]) as Hpo.
  { unfold pods_of. rewrite I4, lookup_insert_eq. simpl. rewrite Epods. f_equal.
    destruct Hcase as [(_ & Hx & ->)|(_ & Hx & _ & _ & -> & _)].
    - by rewrite bool_decide_true, Ei by done.
    - by rewrite bool_decide_false. }
  assert (NodeInfo_inv info') as Hi'.
  { apply Hinv'. destruct Hcase as [(Ex & _ & ->)|(_ & _ & _ & _ & -> & _)]; [|apply not_elem_of_nil].
    specialize (Hnot x Ex). unfold pods_of in Hnot. by rewrite Ei in Hnot. }
  exists st3, (set_nodes p1 (pi_nodes p1) (Some x)), x. split_and!; try done.
  - eapply touch_ok; [exact Hp| |done|done|done|exact I4|done| |].
    + destruct Hcase as [(? & _)|(? & ? & _)]; [by left|by right].
    + by rewrite Enode.
    + rewrite Epods. intros q [Hq| ->%list_elem_of_singleton]%elem_of_app; [by apply Hpods|done].
  - eapply touch_fresh; [apply Hp|exact Hf|done|exact I4| |lia]. rewrite Egen, G4. apply nextGeneration_succ; lia.
  - intros y Hy. by rewrite I4, lookup_insert_ne.
  - lia.
  - lia.
  - naive_solver.
  - intros y Hy Hyl Hyx. rewrite P3, P2 by done. by apply Pother.
Qed.

(** The invariant looks at the list and the snapshot of the pool only. *)
Lemma pool_ok_same st p p' l :
  pool_ok st p l → pi_nodes p' = pi_nodes p → pi_headNode p' = pi_headNode p → pool_ok st p' l.
Proof. intros [] E1 E2. split; rewrite ?E1, ?E2; done. Qed.
Lemma fresh_ok_same st p p' l :
  fresh_ok st p l → pi_nodeInfoSnapshot p' = pi_nodeInfoSnapshot p → fresh_ok st p' l.
Proof. intros [] E. split; rewrite ?E; done. Qed.

(** Removing a pod that is on its node. *)
Lemma RemovePod_ok st p l pod x :
  pool_ok st p l → fresh_ok st p l → gen_room st →
  pi_nodes p !! pod_NodeName pod = Some x → pod ∈ pods_of st x →
  ∃ st' p' l', PoolInfo_RemovePod st p pod = Some (st', reducePodResource p' pod, None) ∧
    p' = set_nodes p (pi_nodes p') (head l') ∧ pool_ok st' p' l' ∧ fresh_ok st' p' l' ∧
    (∀ y, y ≠ x → infos st' !! y = infos st !! y) ∧ pods_of st x ≡ₚ pod :: pods_of st' x ∧
    node_name st' x = node_name st x ∧ st_gen st' = st_gen st + 1 ∧
    (l' = x :: without x l ∧ pi_nodes p' = pi_nodes p ∨
     l' = without x l ∧ pi_nodes p' = delete (pod_NodeName pod) (pi_nodes p) ∧ pods_of st' x = [] ∧
       node_name st' x = None) ∧
    (∀ y, y ∉ l → ptrs st' !! y = ptrs st !! y).
Proof.
  intros Hp Hf [Hg0 Hg] Ex Hpod. set (name := pod_NodeName pod) in *.
  assert (x ∈ l) as Hxl by (apply (po_in _ _ _ _ Hp); eauto).
  destruct (po_infos _ _ _ Hp name x Ex) as (info & Ei & Hinv & Hn & Hpods).
  unfold pods_of in Hpod. rewrite Ei in Hpod. simpl in *.
  destruct (RemovePod_spec (st_gen st) info pod Hinv Hpod)
    as (info' & Erem & Hinv' & Hperm & Enode & _ & Egen & _).
  unfold PoolInfo_RemovePod. fold name. rewrite Ex, get_info_infos, Ei. cbn [mbind option_bind].
  rewrite Erem. rewrite nextGeneration_succ in * by lia.
  destruct (set_info_spec st x (st_gen st + 1, info')) as (st1 & -> & G1 & I1 & P1); [by rewrite Ei|].
  cbn [mbind option_bind]. simpl in G1, I1.
  assert (∀ st', infos st' = infos st1 → (∀ y, y ≠ x → infos st' !! y = infos st !! y) ∧
    pods_of st' x = ni_pods info' ∧ node_name st' x = node_name st x ∧ pods_of st x = ni_pods info) as Hview.
  { intros st' I. unfold pods_of, node_name. rewrite I, I1, Ei, lookup_insert_eq. simpl. rewrite Enode.
    split_and!; try done. intros y Hy. by rewrite lookup_insert_ne. }
  assert (dll (ptrs st1) l) as Hd1 by (rewrite P1; apply Hp).
  destruct (bool_decide (length (ni_pods info') = O) && bool_decide (ni_node info' = None)) eqn:Eb.
  - apply andb_true_iff in Eb as [El%bool_decide_eq_true En%bool_decide_eq_true]. apply nil_length_inv in El.
    destruct (unlink_spec st1 p name x l Ex (po_head _ _ _ Hp) Hd1 Hxl) as (st2 & -> & G2 & I2 & Hd2 & P2 & _).
    cbn [mbind option_bind]. destruct (Hview st2 I2) as (Ho & Hpo & Hnn & Hpo').
    eexists st2, _, (without x l). split_and!; try done.
    + by eapply gone_ok.
    + eapply gone_fresh; [exact Hf|done|done|]. lia.
    + by rewrite Hpo, Hpo'.
    + lia.
    + right. split_and!; try done; [congruence|]. rewrite Hnn. unfold node_name. rewrite Ei. simpl.
      rewrite <-Enode, En. done.
    + intros y Hy. by rewrite P2, P1.
  - destruct (move_spec st1 p name x l Ex (po_head _ _ _ Hp) Hd1 (or_introl Hxl)) as (st2 & -> & G2 & I2 & Hd2 & P2).
    cbn [mbind option_bind]. destruct (Hview st2 I2) as (Ho & Hpo & Hnn & Hpo').
    eexists st2, _, (x :: without x l). split_and!; try done.
    + eapply touch_ok; [exact Hp|by left| |done|done|by rewrite I2|done| |].
      * simpl. by rewrite insert_id.
      * by rewrite Enode.
      * intros q Hq. apply Hpods. rewrite Hperm. by right.
    + eapply touch_fresh; [apply Hp|exact Hf|done|by rewrite I2| |lia]. lia.
    + by rewrite Hpo, Hpo'.
    + lia.
    + by left.
    + intros y Hy. rewrite P2, P1; [done|done|]. by intros ->.
Qed.

(** The list part of [AddNode] and [UpdateNode]. *)
Lemma SetNode_touch st p l node :
  pool_ok st p l → fresh_ok st p l → gen_room st →
  ∃ st1 x st2 info st3, let name := node_Name node in
    let p1 := set_nodes p (<[name := x]> (pi_nodes p)) (pi_headNode p) in
    let p2 := set_nodes p (<[name := x]> (pi_nodes p)) (Some x) in
    get_or_new_item st p name = (st1, p1, x) ∧ moveNodeInfoToHead st1 p1 name = Some (st2, p2) ∧
    get_info st2 x = Some info ∧ set_info st2 x (NodeInfo_SetNode (st_gen st2) info node) = Some st3 ∧
    pool_ok st3 p2 (x :: without x l) ∧ fresh_ok st3 p2 (x :: without x l) ∧
    (∀ y, y ≠ x → infos st3 !! y = infos st !! y) ∧
    pods_of st3 x = (if bool_decide (x ∈ l) then pods_of st x else []) ∧
    node_name st3 x = Some name ∧
    (pi_nodes p !! name = Some x ∧ x ∈ l ∨
     pi_nodes p !! name = None ∧ (x ∉ l) ∧ infos st !! x = None) ∧
    st_gen st < st_gen st3 <= st_gen st + 2 ∧ gen_of st3 x = st_gen st3 ∧
    (∀ y, is_Some (ptrs st !! y) → y ∉ l → y ≠ x → ptrs st3 !! y = ptrs st !! y).
Proof.
  intros Hp Hf Hg. set (name := node_Name node).
  destruct (get_or_new_spec st p l name Hp Hg)
    as (st1 & x & info & E & Ei & Iother & Hd1 & Pother & Hg1 & Hinv & Hn & Hpods & Hcase).
  set (p1 := set_nodes p (<[name := x]> (pi_nodes p)) (pi_headNode p)) in *.
  destruct (move_spec st1 p1 name x l) as (st2 & Em & G2 & I2 & Hd2 & P2).
  { simpl. by rewrite lookup_insert_eq. }
  { apply Hp. }
  { done. }
  { destruct Hcase as [(_ & ? & _)|(_ & _ & _ & Px & _)]; [by left|]. right. by exists None, None. }
  pose proof (SetNode_same (st_gen st2) info node) as Hs.
  pose proof (SetNode_inv (st_gen st2) info node Hinv) as Hinv'. simpl in Hs.
  destruct (NodeInfo_SetNode (st_gen st2) info node) as [g info'] eqn:Eset. simpl in *.
  destruct Hs as (Epods & _ & _ & _ & _ & Enode & _ & _ & Egen & ->).
  destruct (set_info_spec st2 x (nextGeneration (st_gen st2), info')) as (st3 & Es & G3 & I3 & P3).
  { by rewrite I2, Ei. }
  simpl in G3, I3. destruct Hg as [Hg0 Hg'].
  assert (st_gen st3 = st_gen st1 + 1) as G4 by (rewrite G3, G2; apply nextGeneration_succ; lia).
  assert (infos st3 = <[x := info']> (infos st)) as I4.
  { rewrite I3, I2. apply map_eq. intros y. destruct (decide (x = y)) as [<-|].
    - by rewrite !lookup_insert_eq.
    - rewrite !lookup_insert_ne by done. by apply Iother. }
  exists st1, x, st2, info, st3. split_and!; try done.
  - by rewrite get_info_infos, I2.
  - by rewrite Eset.
  - eapply touch_ok; [exact Hp| |done|done|by rewrite P3|exact I4|done| |].
    + destruct Hcase as [(? & _)|(? & ? & _)]; [by left|by right].
    + intros n. rewrite Enode. by intros [= <-].
    + rewrite Epods. done.
  - eapply touch_fresh; [apply Hp|exact Hf|done|exact I4| |lia]. rewrite Egen, G4, G2. apply nextGeneration_succ; lia.
  - intros y Hy. by rewrite I4, lookup_insert_ne.
  - unfold pods_of. rewrite I4, lookup_insert_eq. simpl. rewrite Epods.
    destruct Hcase as [(_ & Hx & ->)|(_ & Hx & _ & _ & -> & _)].
    + by rewrite bool_decide_true, Ei by done.
    + by rewrite bool_decide_false.
  - unfold node_name. rewrite I4, lookup_insert_eq. simpl. by rewrite Enode.
  - naive_solver.
  - lia.
  - lia.
  - unfold gen_of. rewrite I4, lookup_insert_eq. simpl. rewrite Egen, G4, G2. apply nextGeneration_succ; lia.
  - intros y Hy Hyl Hyx. rewrite P3, P2 by done. by apply Pother.
Qed.

Lemma RemoveNode_touch st p l node x :
  pool_ok st p l → fresh_ok st p l → gen_room st → pi_nodes p !! node_Name node = Some x →
  ∃ info st1 st2 p2 l', let '(gen, info') := NodeInfo_RemoveNode (st_gen st) info in
    get_info st x = Some info ∧ set_info st x (gen, info') = Some st1 ∧
    (if bool_decide (length (ni_pods info') = O) && bool_decide (ni_node info' = None)
     then removeNodeInfoFromList st1 p (node_Name node)
     else moveNodeInfoToHead st1 p (node_Name node)) = Some (st2, p2) ∧
    p2 = set_nodes p (pi_nodes p2) (head l') ∧ pool_ok st2 p2 l' ∧ fresh_ok st2 p2 l' ∧
    (∀ y, y ≠ x → infos st2 !! y = infos st !! y) ∧ pods_of st2 x = pods_of st x ∧
    st_gen st2 = st_gen st + 1 ∧
    (l' = x :: without x l ∧ pi_nodes p2 = pi_nodes p ∨
     l' = without x l ∧ pi_nodes p2 = delete (node_Name node) (pi_nodes p) ∧ pods_of st x = []) ∧
    (∀ y, y ∉ l → ptrs st2 !! y = ptrs st !! y).
Proof.
  intros Hp Hf [Hg0 Hg] Ex. set (name := node_Name node) in *.
  assert (x ∈ l) as Hxl by (apply (po_in _ _ _ _ Hp); eauto).
  destruct (po_infos _ _ _ Hp name x Ex) as (info & Ei & Hinv & Hn & Hpods). exists info.
  pose proof (RemoveNode_inv (st_gen st) info Hinv) as Hinv'.
  destruct (NodeInfo_RemoveNode (st_gen st) info) as [g info'] eqn:Er.
  assert (g = st_gen st + 1 ∧ ni_generation info' = st_gen st + 1 ∧ ni_pods info' = ni_pods info ∧
    ni_node info' = None) as (-> & Egen & Epods & Enode).
  { unfold NodeInfo_RemoveNode in Er. injection Er as <- <-. simpl. rewrite nextGeneration_succ by lia. done. }
  destruct (set_info_spec st x (st_gen st + 1, info')) as (st1 & Es & G1 & I1 & P1); [by rewrite Ei|].
  simpl in G1, I1, Hinv'. exists st1.
  assert (∀ st', infos st' = infos st1 → (∀ y, y ≠ x → infos st' !! y = infos st !! y) ∧
    pods_of st' x = pods_of st x) as Hview.
  { intros st' I. unfold pods_of. rewrite I, I1, Ei, lookup_insert_eq. simpl. rewrite Epods.
    split_and!; try done. intros y Hy. by rewrite lookup_insert_ne. }
  assert (dll (ptrs st1) l) as Hd1 by (rewrite P1; apply Hp).
  destruct (bool_decide (length (ni_pods info') = O) && bool_decide (ni_node info' = None)) eqn:Eb.
  - apply andb_true_iff in Eb as [El%bool_decide_eq_true _]. apply nil_length_inv in El.
    destruct (unlink_spec st1 p name x l Ex (po_head _ _ _ Hp) Hd1 Hxl) as (st2 & Eu & G2 & I2 & Hd2 & P2 & _).
    destruct (Hview st2 I2) as (Ho & Hpo). eexists st2, _, (without x l).
    split_and!; [by rewrite get_info_infos|done|exact Eu|done|by eapply gone_ok| |done|done|lia| |].
    + eapply gone_fresh; [exact Hf|done|done|]. lia.
    + right. split_and!; [done|done|]. unfold pods_of. rewrite Ei. simpl. congruence.
    + intros y Hy. by rewrite P2, P1.
  - destruct (move_spec st1 p name x l Ex (po_head _ _ _ Hp) Hd1 (or_introl Hxl)) as (st2 & Em & G2 & I2 & Hd2 & P2).
    destruct (Hview st2 I2) as (Ho & Hpo). eexists st2, _, (x :: without x l).
    split_and!; [by rewrite get_info_infos|done|exact Em|done| | |done|done|lia|by left|].
    + eapply touch_ok; [exact Hp|by left| |done|done|by rewrite I2|done| |].
      * simpl. by rewrite insert_id.
      * by rewrite Enode.
      * intros q Hq. apply Hpods. by rewrite <-Epods.
    + eapply touch_fresh; [apply Hp|exact Hf|done|by rewrite I2| |lia]. lia.
    + intros y Hy. rewrite P2, P1; [done|done|]. by intros ->.
Qed.

(** ** The pods of the pool *)

Definition all_pods st l : list Pod := l ≫= pods_of st.

Lemma all_pods_ext st st' l :
  (∀ y, y ∈ l → pods_of st' y = pods_of st y) → all_pods st' l = all_pods st l.
Proof.
  intros Hy. unfold all_pods. induction l as [|x l IH]; [done|]. rewrite !bind_cons.
  rewrite Hy by (by left). f_equal. apply IH. intros y ?. apply Hy. by right.
Qed.

(** The pods after a change of one item that goes to the front. *)
Lemma all_pods_touch st st' l x :
  NoDup l → (∀ y, y ≠ x → infos st' !! y = infos st !! y) →
  all_pods st l ≡ₚ (if bool_decide (x ∈ l) then pods_of st x else []) ++ all_pods st' (without x l).
Proof.
  intros Hnd Ho.
  assert (all_pods st' (without x l) = all_pods st (without x l)) as ->.
  { apply all_pods_ext. intros y [_ Hy]%elem_of_without. unfold pods_of. by rewrite Ho. }
  case_bool_decide as Hx.
  - unfold all_pods. rewrite (without_perm x l) at 1 by done. by rewrite bind_cons.
  - by rewrite without_notin.
Qed.

Lemma request_for_pool_int64 pod : resource_int64 (GetResourceRequestForPool pod).
Proof.
  unfold GetResourceRequestForPool.
  assert (∀ (l : list Container) r, resource_int64 r → resource_int64 (foldl (λ r c, Resource_Add r (Requests c)) r l)) as Hl.
  { induction l as [|c l IH]; intros r Hr; simpl; [done|]. by apply IH, Resource_Add_int64. }
  destruct (Hl (pod_Containers pod) emptyResource emptyResource_int64) as (? & ? & ? & ? & ?).
  split_and!; simpl; auto with sched.
Qed.

(** [used] is the sum over the pods of the pool, [shared] over those of other pools. *)
Definition acct_ok p (pods : list Pod) : Prop :=
  pi_used p ≡ pods_sum GetResourceRequestForPool pods ∧
  pi_shared p ≡ pods_sum GetResourceRequestForPool (filter (λ q, negb (MatchPod p q)) pods) ∧
  resource_int64 (pi_used p) ∧ resource_int64 (pi_shared p).

Lemma acct_perm p pods pods' : acct_ok p pods → pods ≡ₚ pods' → acct_ok p pods'.
Proof.
  intros (Hu & Hs & ? & ?) Hp. split_and!; [| |done|done].
  - rewrite Hu. apply pods_sum_perm; [apply request_for_pool_int64|done].
  - rewrite Hs. apply pods_sum_perm; [apply request_for_pool_int64|by rewrite Hp].
Qed.

Lemma acct_plus p pods pod : acct_ok p pods → acct_ok (plusPodResource p pod) (pod :: pods).
Proof.
  intros (Hu & Hs & Iu & Is). unfold plusPodResource. split_and!; simpl.
  - rewrite rplus_comm by (done || apply request_for_pool_int64).
    apply rplus_proper; try done; apply request_for_pool_int64.
  - change (MatchPod (set_use _ _ _)) with (MatchPod p). destruct (MatchPod p pod) eqn:Em; simpl.
    + rewrite filter_cons_False by (by rewrite Em; intros []). done.
    + rewrite filter_cons_True by (by rewrite Em). simpl.
      rewrite rplus_comm by (done || apply request_for_pool_int64).
      apply rplus_proper; try done; apply request_for_pool_int64.
  - by apply rplus_int64.
  - destruct (negb _); [by apply rplus_int64|done].
Qed.

Lemma acct_reduce p pods pod : acct_ok p (pod :: pods) → acct_ok (reducePodResource p pod) pods.
Proof.
  intros (Hu & Hs & Iu & Is). unfold reducePodResource. split_and!; simpl.
  - eapply sum_remove; [apply request_for_pool_int64|done|done|done].
  - change (MatchPod (set_use _ _ _)) with (MatchPod p). destruct (MatchPod p pod) eqn:Em; simpl.
    + rewrite filter_cons_False in Hs by (by rewrite Em; intros []). done.
    + rewrite filter_cons_True in Hs by (by rewrite Em).
      eapply sum_remove; [apply request_for_pool_int64|done|done|done].
  - by apply rminus_int64.
  - destruct (negb _); [by apply rminus_int64|done].
Qed.

(** ** Sequences of operations on a pool *)

Inductive pool_op :=
| PAddPod (pod : Pod)
| PRemovePod (pod : Pod)
| PAddNode (node : Node)
| PUpdateNode (old : option Node) (new : Node)
| PRemoveNode (node : Node)
| PSnapshot (balancedVolumesEnabled : bool).

Definition pool_exec st p (op : pool_op) : comp (Store * PoolInfo) :=
  match op with
  | PAddPod pod => PoolInfo_AddPod st p pod
  | PRemovePod pod => fst <$> PoolInfo_RemovePod st p pod
  | PAddNode node => PoolInfo_AddNode st p node
  | PUpdateNode old new => PoolInfo_UpdateNode st p old new
  | PRemoveNode node => fst <$> PoolInfo_RemoveNode st p node
  | PSnapshot b => UpdateNodeInfoSnapshot b st p
  end.

(** The calls the cache makes: a pod has a UID and is added to a node once; a
    pod that is removed is the one on the node or is not on the node at all; an update without old node is one of a node
    without zone.  The counter of generations does not overflow. *)
Definition pool_legal st p (op : pool_op) : Prop :=
  gen_room st ∧
  match op with
  | PAddPod pod =>
      pod_UID pod ≠ EmptyString ∧
      ∀ x, pi_nodes p !! pod_NodeName pod = Some x → pod_UID pod ∉ pod_UID <$> pods_of st x
  | PRemovePod pod =>
      ∀ x, pi_nodes p !! pod_NodeName pod = Some x →
        (pod_UID pod ∉ pod_UID <$> pods_of st x) ∨ pod ∈ pods_of st x
  | PUpdateNode None new => GetZoneKey new = EmptyString
  | _ => True
  end.

Inductive pool_run : Store → PoolInfo → list pool_op → Store → PoolInfo → Prop :=
| run_nil st p : pool_run st p [] st p
| run_cons st p op st1 p1 ops st2 p2 :
    pool_legal st p op → pool_exec st p op = Some (st1, p1) → pool_run st1 p1 ops st2 p2 →
    pool_run st p (op :: ops) st2 p2.

Definition pool_inv st p : Prop :=
  ∃ l, pool_ok st p l ∧ fresh_ok st p l ∧ tree_wf (pi_nodeTree p) ∧ acct_ok p (all_pods st l).

Lemma NewPool_inv st pool : 0 <= st_gen st → pool_inv st (PoolInfo_SetPool NewPoolInfo pool) ∧ pool_inv st NewPoolInfo.
Proof.
  intros Hg. assert (∀ o, pool_inv st (MkPoolInfo o ∅ None (newNodeTree []) emptyResource emptyResource
    emptyResource emptyResource NewNodeInfoSnapshot)) as H0; [|split; apply H0]. intros o.
  exists []. split_and!.
  - split; [apply dll_nil|done|done|]. intros name x. simpl. by rewrite lookup_empty.
  - split; [constructor| |done|]; intros x; [|intros s]; by intros ?%not_elem_of_nil.
  - apply newNodeTree_set.
  - split_and!; try done; apply emptyResource_int64.
Qed.

(** The views determine the invariant. *)
Lemma views_ok st st' p l :
  ptrs st' = ptrs st → infos st' = infos st → st_gen st' = st_gen st →
  pool_ok st p l → fresh_ok st p l → pool_ok st' p l ∧ fresh_ok st' p l ∧ all_pods st' l = all_pods st l.
Proof.
  intros P I G [] []. split_and!.
  - split; rewrite ?P; try done. by rewrite I.
  - split; unfold gen_of, node_name in *; rewrite ?I, ?G; done.
  - apply all_pods_ext. intros y _. unfold pods_of. by rewrite I.
Qed.

Lemma exec_AddPod st p pod :
  pool_inv st p → pool_legal st p (PAddPod pod) →
  ∃ st' p', pool_exec st p (PAddPod pod) = Some (st', p') ∧ pool_inv st' p'.
Proof.
  intros (l & Hp & Hf & Ht & Ha) (Hg & Hu & Hnot).
  destruct (AddPod_ok st p l pod Hp Hf Hg Hu Hnot) as (st' & p' & x & E & -> & Hp' & Hf' & Ho & Hpods & _).
  eexists st', _. split; [exact E|]. exists (x :: without x l). split_and!.
  - by eapply pool_ok_same.
  - by eapply fresh_ok_same.
  - done.
  - eapply acct_perm; [apply acct_plus, Ha|]. unfold all_pods at 2. rewrite bind_cons, Hpods.
    rewrite (all_pods_touch st st' l x) by (done || apply Hp). fold (all_pods st' (without x l)).
    rewrite (Permutation_app_comm _ [pod]). by rewrite <-app_assoc.
Qed.

Lemma exec_RemovePod st p pod :
  pool_inv st p → pool_legal st p (PRemovePod pod) →
  ∃ st' p', pool_exec st p (PRemovePod pod) = Some (st', p') ∧ pool_inv st' p'.
Proof.
  intros (l & Hp & Hf & Ht & Ha) (Hg & Hl). simpl. destruct (pi_nodes p !! pod_NodeName pod) as [x|] eqn:Ex.
  2:{ unfold PoolInfo_RemovePod. rewrite Ex. exists st, p. split; [done|]. exists l. done. }
  destruct (Hl x eq_refl) as [Hnot|Hin].
  - destruct (po_infos _ _ _ Hp _ _ Ex) as (info & Ei & Hinv & _). unfold pods_of in Hnot. rewrite Ei in Hnot.
    destruct (RemovePod_absent (st_gen st) info pod Hinv Hnot) as (e & Er).
    unfold PoolInfo_RemovePod. rewrite Ex, get_info_infos, Ei. cbn [mbind option_bind]. rewrite Er.
    destruct (set_info_spec st x (st_gen st, info)) as (st1 & -> & G1 & I1 & P1); [by rewrite Ei|].
    exists st1, p. split; [done|]. exists l. simpl in I1. rewrite insert_id in I1 by done.
    destruct (views_ok st st1 p l P1 I1 G1 Hp Hf) as (? & ? & ->). done.
  - destruct (RemovePod_ok st p l pod x Hp Hf Hg Ex Hin)
      as (st' & p' & l' & E & Ep & Hp' & Hf' & Ho & Hpods & _ & _ & Hcase & _).
    rewrite E. eexists st', _. split; [done|]. exists l'.
    assert (acct_ok p' (all_pods st l)) as Ha' by (rewrite Ep; done).
    split_and!; [by eapply pool_ok_same|by eapply fresh_ok_same|by rewrite Ep|].
    apply acct_reduce. eapply acct_perm; [done|].
    assert (x ∈ l) as Hxl by (apply (po_in _ _ _ _ Hp); eauto).
    rewrite (all_pods_touch st st' l x), bool_decide_true, Hpods by (done || apply Hp). simpl. f_equiv.
    destruct Hcase as [[-> _]|(-> & _ & Ee & _)]; [unfold all_pods; by rewrite bind_cons|].
    by rewrite Ee.
Qed.

(** The new store of [AddNode] and [UpdateNode] has the same pods. *)
Lemma SetNode_pods st p st3 l x :
  NoDup l → (∀ y, y ≠ x → infos st3 !! y = infos st !! y) →
  pods_of st3 x = (if bool_decide (x ∈ l) then pods_of st x else []) →
  acct_ok p (all_pods st l) → acct_ok p (all_pods st3 (x :: without x l)).
Proof.
  intros Hnd Ho Hpods Ha. eapply acct_perm; [done|]. unfold all_pods at 2. rewrite bind_cons, Hpods.
  by apply all_pods_touch.
Qed.

Lemma exec_AddNode st p node :
  pool_inv st p → pool_legal st p (PAddNode node) →
  ∃ st' p', pool_exec st p (PAddNode node) = Some (st', p') ∧ pool_inv st' p'.
Proof.
  intros (l & Hp & Hf & Ht & Ha) (Hg & _).
  destruct (SetNode_touch st p l node Hp Hf Hg)
    as (st1 & x & st2 & info & st3 & E1 & E2 & E3 & E4 & Hp' & Hf' & Ho & Hpods & _).
  simpl. unfold PoolInfo_AddNode. rewrite E1, E2. cbn [mbind option_bind]. rewrite E3. cbn [mbind option_bind].
  rewrite E4. eexists st3, _. split; [done|]. exists (x :: without x l).
  split_and!; [by eapply pool_ok_same|by eapply fresh_ok_same|by apply addNode_spec|].
  assert (acct_ok p (all_pods st3 (x :: without x l))) as Ha' by (apply (SetNode_pods st); [apply Hp|done..]).
  done.
Qed.

Lemma UpdateNode_tree nt old new :
  tree_wf nt → (old = None → GetZoneKey new = EmptyString) →
  ∃ nt', NodeTree_UpdateNode nt old new = Some nt' ∧ tree_wf nt'.
Proof.
  intros Ht Hz. unfold NodeTree_UpdateNode. destruct old as [old|].
  - destruct (bool_decide (GetZoneKey old = GetZoneKey new)); [by exists nt|]. simpl.
    destruct (removeNode_spec nt old Ht) as (nt' & e & -> & Hw & _). simpl. eexists. split; [done|].
    by apply addNode_spec.
  - rewrite bool_decide_true by (symmetry; by apply Hz). by exists nt.
Qed.

Lemma exec_UpdateNode st p old new :
  pool_inv st p → pool_legal st p (PUpdateNode old new) →
  ∃ st' p', pool_exec st p (PUpdateNode old new) = Some (st', p') ∧ pool_inv st' p'.
Proof.
  intros (l & Hp & Hf & Ht & Ha) (Hg & Hz).
  destruct (SetNode_touch st p l new Hp Hf Hg)
    as (st1 & x & st2 & info & st3 & E1 & E2 & E3 & E4 & Hp' & Hf' & Ho & Hpods & _).
  destruct (UpdateNode_tree (pi_nodeTree p) old new Ht ltac:(by intros ->)) as (nt & Ent & Hnt).
  simpl. unfold PoolInfo_UpdateNode. rewrite E1, E2. cbn [mbind option_bind pi_nodeTree set_nodes].
  rewrite Ent. cbn [mbind option_bind].
  assert (acct_ok p (all_pods st3 (x :: without x l))) as Ha' by (apply (SetNode_pods st); [apply Hp|done..]).
  destruct old as [old|]; (rewrite E3; cbn [mbind option_bind]; rewrite E4; eexists st3, _; split; [done|];
    exists (x :: without x l); split_and!; [by eapply pool_ok_same|by eapply fresh_ok_same|done|done]).
Qed.

Lemma exec_RemoveNode st p node :
  pool_inv st p → pool_legal st p (PRemoveNode node) →
  ∃ st' p', pool_exec st p (PRemoveNode node) = Some (st', p') ∧ pool_inv st' p'.
Proof.
  intros (l & Hp & Hf & Ht & Ha) (Hg & _). simpl. unfold PoolInfo_RemoveNode.
  destruct (pi_nodes p !! node_Name node) as [x|] eqn:Ex.
  2:{ exists st, p. split; [done|]. exists l. done. }
  destruct (RemoveNode_touch st p l node x Hp Hf Hg Ex) as (info & st1 & st2 & p2 & l' & Hall).
  destruct (NodeInfo_RemoveNode (st_gen st) info) as [g info'] eqn:Er.
  destruct Hall as (E1 & E2 & E3 & Ep & Hp' & Hf' & Ho & Hpods & _ & Hcase & _).
  rewrite E1. cbn [mbind option_bind]. rewrite Er, E2. cbn [mbind option_bind]. rewrite E3.
  cbn [mbind option_bind].
  assert (pi_nodeTree p2 = pi_nodeTree p) as -> by (by rewrite Ep).
  destruct (removeNode_spec (pi_nodeTree p) node Ht) as (nt & e & Ent & Hnt & _). unfold NodeTree_RemoveNode.
  rewrite Ent. eexists st2, _. split; [done|]. exists l'.
  split_and!; [by eapply pool_ok_same|by eapply fresh_ok_same|done|].
  assert (acct_ok p2 (all_pods st l)) as Ha' by (rewrite Ep; done).
  assert (acct_ok p2 (all_pods st2 l')) as Ha''; [|done].
  assert (x ∈ l) as Hxl by (apply (po_in _ _ _ _ Hp); eauto).
  eapply acct_perm; [done|]. rewrite (all_pods_touch st st2 l x), bool_decide_true by (done || apply Hp).
  destruct Hcase as [[-> _]|(-> & _ & Ee)]; [unfold all_pods; by rewrite bind_cons, Hpods|]. by rewrite Ee.
Qed.

Lemma exec_Snapshot st p b :
  pool_inv st p → ∃ st' p', pool_exec st p (PSnapshot b) = Some (st', p') ∧ pool_inv st' p'.
Proof.
  intros (l & Hp & Hf & Ht & Ha).
  destruct (snapshot_spec b st p l Hp Hf) as (st' & m & g & E & _ & _ & Hi & Hp' & Hf' & _).
  simpl. eexists st', _. split; [exact E|]. exists l. split_and!; [done|done|done|].
  rewrite (all_pods_ext st st'); [done|]. intros y _. unfold pods_of. destruct (Hi y) as [->|[_ ->]]; [done|].
  destruct (infos st !! y) as [info|]; [|done]. simpl. apply (refreshed_same b info).
Qed.

Lemma pool_exec_inv st p op :
  pool_inv st p → pool_legal st p op → ∃ st' p', pool_exec st p op = Some (st', p') ∧ pool_inv st' p'.
Proof.
  intros Hi Hl. destruct op; [by apply exec_AddPod|by apply exec_RemovePod|by apply exec_AddNode|
    by apply exec_UpdateNode|by apply exec_RemoveNode|by apply exec_Snapshot].
Qed.

Lemma pool_run_inv st p ops st' p' : pool_run st p ops st' p' → pool_inv st p → pool_inv st' p'.
Proof.
  induction 1 as [|st p op st1 p1 ops st2 p2 Hl E _ IH]; [done|]. intros Hi. apply IH.
  destruct (pool_exec_inv st p op Hi Hl) as (? & ? & E' & ?). congruence.
Qed.

(** The pods on the nodes of a pool. *)
Definition pool_pods st p : list Pod := (map_to_list (pi_nodes p)).*2 ≫= pods_of st.


(** C25: the books of a pool balance: after any sequence of legal operations [used]
    is the 64-bit sum of the requests of the pods on the pool's nodes, and [shared] the sum
    over those that belong to another pool; and every further legal operation
    returns without a nil dereference. *)
Theorem pool_accounting st0 pool ops st p :
  0 <= st_gen st0 → pool_run st0 (PoolInfo_SetPool NewPoolInfo pool) ops st p →
  pi_used p ≡ pods_sum GetResourceRequestForPool (pool_pods st p) ∧
  pi_shared p ≡ pods_sum GetResourceRequestForPool (filter (λ q, negb (MatchPod p q)) (pool_pods st p)) ∧
  ∀ op, pool_legal st p op → is_Some (pool_exec st p op).
Proof.
  intros Hg Hrun. apply pool_run_inv in Hrun as Hinv; [|by apply NewPool_inv].
  pose proof Hinv as (l & Hp & Hf & Ht & Ha).
  eapply (acct_perm _ _ (pool_pods st p)) in Ha as (Hu & Hs & _).
  - split_and!; [done|done|]. intros op Hl. destruct (pool_exec_inv st p op Hinv Hl) as (st' & p' & -> & _). done.
  - unfold all_pods, pool_pods. by rewrite (po_nodes _ _ _ Hp).
Qed.
End pool_inv.

(** ** Examples *)
Module PoolInfoExample.
#[local] Existing Instance docK8s.
#[local] Existing Instance docK8s_laws.
#[local] Existing Instance stdRange.

Definition mkNode (name : string) : Node :=
  MkNode (MkObjectMeta name EmptyString EmptyString EmptyString 0 ∅ ∅ 0 None 0) [] false
    {[ResourceCPU := NewMilliQuantity 4000]} {[ResourceCPU := NewMilliQuantity 4000]} [] [] 0.
Definition mkPod (name node : string) (cpu : Z) : Pod :=
  MkPod (MkObjectMeta name "default" ("uid-" +:+ name) EmptyString 0 ∅ ∅ 0 None 0)
    (MkPodSpec node EmptyString None
       [MkContainer EmptyString {[ResourceCPU := NewMilliQuantity cpu]} ∅ []] [] None ∅ [] [] 0)
    (MkPodStatus EmptyString [] 0).
Definition mkPool (name : string) : Pool :=
  MkPool (MkObjectMeta name EmptyString EmptyString EmptyString 0 ∅ ∅ 0 None 0) (MkPoolSpec None false false [] false).

Definition st0 : Store := MkStore 0 ∅.
Definition ops : list pool_op :=
  [PAddNode (mkNode "n1"); PAddNode (mkNode "n2"); PAddPod (mkPod "a" "n1" 500); PSnapshot false;
   PAddPod (mkPod "b" "n2" 250); PRemovePod (mkPod "a" "n1" 500)].

(** Running a list of operations. *)
Fixpoint run (st : Store) (p : PoolInfo) (ops : list pool_op) : comp (Store * PoolInfo) :=
  match ops with [] => Some (st, p) | op :: ops => '(st, p) ← pool_exec st p op; run st p ops end.

Definition s0 : Store * PoolInfo := (st0, PoolInfo_SetPool NewPoolInfo (mkPool "A")).
Definition final : Store * PoolInfo := default s0 (run s0.1 s0.2 ops).

Lemma final_run : pool_run s0.1 s0.2 ops final.1 final.2.
Proof.
  unfold ops.
  eapply (run_cons _ _ _ (default s0 (run s0.1 s0.2 (take 1 ops))).1 (default s0 (run s0.1 s0.2 (take 1 ops))).2);
    [by split_and!|vm_compute; reflexivity|].
  eapply (run_cons _ _ _ (default s0 (run s0.1 s0.2 (take 2 ops))).1 (default s0 (run s0.1 s0.2 (take 2 ops))).2);
    [split; [by split; vm_compute|done]|vm_compute; reflexivity|].
  eapply (run_cons _ _ _ (default s0 (run s0.1 s0.2 (take 3 ops))).1 (default s0 (run s0.1 s0.2 (take 3 ops))).2);
    [|vm_compute; reflexivity|].
  { split; [by split; vm_compute|]. split; [vm_compute; discriminate|]. intros x.
    assert (pi_nodes (default s0 (run s0.1 s0.2 (take 2 ops))).2 !! "n1"%string = Some 1%positive) as E
      by (vm_compute; reflexivity).
    change (pod_NodeName (mkPod "a" "n1" 500)) with "n1"%string. rewrite E. intros [= <-]. vm_compute. set_solver. }
  eapply (run_cons _ _ _ (default s0 (run s0.1 s0.2 (take 4 ops))).1 (default s0 (run s0.1 s0.2 (take 4 ops))).2);
    [split; [by split; vm_compute|done]|vm_compute; reflexivity|].
  eapply (run_cons _ _ _ (default s0 (run s0.1 s0.2 (take 5 ops))).1 (default s0 (run s0.1 s0.2 (take 5 ops))).2);
    [|vm_compute; reflexivity|].
  { split; [by split; vm_compute|]. split; [vm_compute; discriminate|]. intros x.
    assert (∀ y, pi_nodes (default s0 (run s0.1 s0.2 (take 4 ops))).2 !! "n2"%string = Some y →
      pod_UID <$> pods_of (default s0 (run s0.1 s0.2 (take 4 ops))).1 y = []) as E
      by (intros y Hy; vm_compute in Hy; injection Hy as <-; vm_compute; reflexivity).
    intros Hx. rewrite (E x Hx). apply not_elem_of_nil. }
  eapply (run_cons _ _ _ final.1 final.2); [|vm_compute; reflexivity|apply run_nil].
  split; [by split; vm_compute|]. intros x Hx. right.
  assert (pods_of (default s0 (run s0.1 s0.2 (take 5 ops))).1 x = [mkPod "a" "n1" 500]) as ->
    by (vm_compute in Hx; injection Hx as <-; vm_compute; reflexivity).
  by left.
Qed.


Lemma pool_accounting_witness :
  pi_used final.2 ≡ pods_sum GetResourceRequestForPool (pool_pods final.1 final.2) ∧
  pi_shared final.2 ≡ pods_sum GetResourceRequestForPool
    (filter (λ q, negb (MatchPod final.2 q)) (pool_pods final.1 final.2)) ∧
  ∀ op, pool_legal final.1 final.2 op → is_Some (pool_exec final.1 final.2 op).
Proof.
  apply (pool_accounting st0 (mkPool "A") ops); [vm_compute; discriminate|]. apply final_run.
Defined.

Lemma run_result {A} (r : comp (Store * PoolInfo)) (f : Store → PoolInfo → A) (v : A) :
  match r with Some (st, p) => f st p = v | None => False end → ∃ st p, r = Some (st, p) ∧ f st p = v.
Proof. destruct r as [[st p]|]; [eauto|done]. Qed.

(** Node n1 of pool A is moved to pool B, as the cache does when the pools change,
    after B took a snapshot and a pod was added to B's node n2. *)
Definition moved : comp (Store * PoolInfo) :=
  '(st, a) ← PoolInfo_AddNode st0 (PoolInfo_SetPool NewPoolInfo (mkPool "A")) (mkNode "n1");
  '(st, b) ← PoolInfo_AddNode st (PoolInfo_SetPool NewPoolInfo (mkPool "B")) (mkNode "n2");
  '(st, b) ← UpdateNodeInfoSnapshot false st b;
  '(st, b) ← PoolInfo_AddPod st b (mkPod "p" "n2" 500);
  let item := pi_nodes a !! "n1"%string in
  '(st, a, _) ← PoolInfo_RemoveNodeInfo st a item;
  '(st, b) ← PoolInfo_AddNodeInfo st b item;
  UpdateNodeInfoSnapshot false st b.

(** [AddNodeInfo] puts the item at the head without a new generation, so the refresh
    stops there: pool B has node n1 and the pod on n2, its snapshot has neither. *)
Theorem moved_node_missing :
  ∃ st b, moved = Some (st, b) ∧
    is_Some (pi_nodes b !! "n1"%string) ∧
    NodeInfoMap (pi_nodeInfoSnapshot b) !! "n1"%string = None ∧
    length (pool_pods st b) = 1%nat ∧
    length ∘ ni_pods <$> NodeInfoMap (pi_nodeInfoSnapshot b) !! "n2"%string = Some O.
Proof.
  destruct (run_result moved (λ st b, (bool_decide (is_Some (pi_nodes b !! "n1"%string)),
    bool_decide (is_Some (NodeInfoMap (pi_nodeInfoSnapshot b) !! "n1"%string)), length (pool_pods st b),
    length ∘ ni_pods <$> NodeInfoMap (pi_nodeInfoSnapshot b) !! "n2"%string)) (true, false, 1%nat, Some O))
    as (st & b & E & [= H1 H2 H3 H4]); [vm_compute; reflexivity|].
  apply bool_decide_eq_true in H1. apply bool_decide_eq_false in H2.
  exists st, b. split_and!; [done|done| |done|done]. by apply eq_None_not_Some.
Qed.

(** A node that is removed while pods are still on it keeps its entry, node
    object included, in the refreshed snapshot. *)
Definition removed : comp (Store * PoolInfo) :=
  run s0.1 s0.2 [PAddNode (mkNode "n1"); PAddPod (mkPod "a" "n1" 500); PSnapshot false;
                 PRemoveNode (mkNode "n1"); PSnapshot false].

Theorem removed_node_stays :
  ∃ st p info, removed = Some (st, p) ∧
    NodeInfoMap (pi_nodeInfoSnapshot p) !! "n1"%string = Some info ∧ is_Some (ni_node info) ∧
    NodeTree_NumNodes (pi_nodeTree p) = 0.
Proof.
  destruct (run_result removed (λ _ p, (bool_decide (is_Some (NodeInfoMap (pi_nodeInfoSnapshot p) !! "n1"%string ≫= ni_node)),
    NodeTree_NumNodes (pi_nodeTree p))) (true, 0)) as (st & p & E & [= H1 H2]); [vm_compute; reflexivity|].
  apply bool_decide_eq_true in H1. exists st, p.
  destruct (NodeInfoMap _ !! _) as [info|] eqn:Ei; [|destruct H1 as [? [=]]].
  exists info. split_and!; [exact E|done|exact H1|exact H2].
Qed.
End PoolInfoExample.
