(* ===== verification/Predicates.v ===== *)
(** * Predicates: failure reasons and interfaces
    (src/pkg/scheduler/algorithm/predicates/error.go, predicates.go, metadata.go)

    What the cache and the scheduling algorithm see of a predicate: its type, the reasons
    it gives for a failure, and the interface of the metadata that is computed once per
    pod.  A [*PredicateFailureError] is only made by the variables of error.go, which have
    different names, so comparing pointers is comparing values. *)
From S2P Require Import Prelude Heap Api Resource HostPorts NodeInfo.

Inductive PredicateFailureReason :=
| PredicateFailureError (PredicateName PredicateDesc : string)
| InsufficientResourceError (ResourceName : string) (requested used capacity : Z)
| FailureReason (reason : string).

#[global] Instance PredicateFailureReason_eq_dec : EqDecision PredicateFailureReason.
Proof. solve_decision. Defined.

Definition GetReason (r : PredicateFailureReason) : string :=
  match r with
  | PredicateFailureError _ desc => desc
  | InsufficientResourceError name _ _ _ => "Insufficient " +:+ name
  | FailureReason reason => reason
  end.

Definition GetInsufficientAmount (requested used capacity : Z) : Z := sub64 requested (sub64 capacity used).

Definition ErrDiskConflict := PredicateFailureError "NoDiskConflict" "node(s) had no available disk".
Definition ErrVolumeZoneConflict := PredicateFailureError "NoVolumeZoneConflict" "node(s) had no available volume zone".
Definition ErrNodeSelectorNotMatch := PredicateFailureError "MatchNodeSelector" "node(s) didn't match node selector".
Definition ErrPodAffinityNotMatch :=
  PredicateFailureError "MatchInterPodAffinity" "node(s) didn't match pod affinity/anti-affinity".
Definition ErrPodAffinityRulesNotMatch :=
  PredicateFailureError "PodAffinityRulesNotMatch" "node(s) didn't match pod affinity rules".
Definition ErrPodAntiAffinityRulesNotMatch :=
  PredicateFailureError "PodAntiAffinityRulesNotMatch" "node(s) didn't match pod anti-affinity rules".
Definition ErrExistingPodsAntiAffinityRulesNotMatch :=
  PredicateFailureError "ExistingPodsAntiAffinityRulesNotMatch" "node(s) didn't satisfy existing pods anti-affinity rules".
Definition ErrTaintsTolerationsNotMatch :=
  PredicateFailureError "PodToleratesNodeTaints" "node(s) had taints that the pod didn't tolerate".
Definition ErrPodNotMatchHostName := PredicateFailureError "HostName" "node(s) didn't match the requested hostname".
Definition ErrPodNotFitsHostPorts :=
  PredicateFailureError "PodFitsHostPorts" "node(s) didn't have free ports for the requested pod ports".
Definition ErrNodeLabelPresenceViolated :=
  PredicateFailureError "CheckNodeLabelPresence" "node(s) didn't have the requested labels".
Definition ErrServiceAffinityViolated :=
  PredicateFailureError "CheckServiceAffinity" "node(s) didn't match service affinity".
Definition ErrMaxVolumeCountExceeded := PredicateFailureError "MaxVolumeCount" "node(s) exceed max volume count".
Definition ErrNodeUnderMemoryPressure := PredicateFailureError "NodeUnderMemoryPressure" "node(s) had memory pressure".
Definition ErrNodeUnderDiskPressure := PredicateFailureError "NodeUnderDiskPressure" "node(s) had disk pressure".
Definition ErrNodeUnderPIDPressure := PredicateFailureError "NodeUnderPIDPressure" "node(s) had pid pressure".
Definition ErrNodeNotReady := PredicateFailureError "NodeNotReady" "node(s) were not ready".
Definition ErrNodeNetworkUnavailable := PredicateFailureError "NodeNetworkUnavailable" "node(s) had unavailable network".
Definition ErrNodeUnschedulable := PredicateFailureError "NodeUnschedulable" "node(s) were unschedulable".
Definition ErrNodeUnknownCondition := PredicateFailureError "NodeUnknownCondition" "node(s) had unknown conditions".
Definition ErrVolumeNodeConflict :=
  PredicateFailureError "VolumeNodeAffinityConflict" "node(s) had volume node affinity conflict".
Definition ErrVolumeBindConflict :=
  PredicateFailureError "VolumeBindingNoMatch" "node(s) didn't find available persistent volumes to bind".

(** The interface [PredicateMetadata]; the methods change the receiver, and every caller
    drops the error of [AddPod] and [RemovePod]. *)
Class PredicateMetadata (M : Type) := {
  meta_ShallowCopy : M → M;
  meta_AddPod : M → Pod → NodeInfo → M;
  meta_RemovePod : M → Pod → M
}.

(** A predicate may get nil metadata and a nil node. *)
Definition FitPredicate (M : Type) : Type :=
  Pod → option M → option NodeInfo → bool * list PredicateFailureReason * option error.

(** The default order; [SetPredicatesOrdering] can replace it, so the functions that
    call [Ordering()] take the order as an argument. *)
Definition predicatesOrdering : list string :=
  ["CheckNodeCondition"; "CheckNodeUnschedulable"; "GeneralPredicates"; "HostName"; "PodFitsHostPorts";
   "MatchNodeSelector"; "PodFitsResources"; "NoDiskConflict"; "PodToleratesNodeTaints";
   "PodToleratesNodeNoExecuteTaints"; "CheckNodeLabelPresence"; "CheckServiceAffinity"; "MaxEBSVolumeCount";
   "MaxGCEPDVolumeCount"; "MaxCSIVolumeCountPred"; "MaxAzureDiskVolumeCount"; "MaxCinderVolumeCount";
   "CheckVolumeBinding"; "NoVolumeZoneConflict"; "CheckNodeMemoryPressure"; "CheckNodePIDPressure";
   "CheckNodeDiskPressure"; "MatchInterPodAffinity"]%string.
