(* ===== verification/Cache.v ===== *)
(** * The scheduler cache (src/pkg/scheduler/internal/cache/cache.go)

    The cache aggregates pods per node and nodes per pool, and keeps the life of
    every pod: assumed by the scheduler, then added by the informer, or expired.
    A [*PoolInfo] is named by its key in [cache.pools]; the list items of all
    pools are in one [Store].  The mutex is not modelled: every operation runs
    under it.  The methods that end the process (klog.Fatalf) or panic are [None]. *)
From S2P Require Import Prelude Heap Api Util Resource HostPorts NodeTree NodeInfo PoolInfo Predicates.

Record podState := MkPodState {
  ps_pod : Pod;
  ps_deadline : option Time;
  ps_bindingFinished : bool
}.

Record imageState := MkImageState { is_size : Z; is_nodes : gset string }.

Record schedulerCache := MkCache {
  ca_ttl : Duration;
  ca_period : Duration;
  ca_assumedPods : gmap string bool;
  ca_podStates : gmap string podState;
  ca_imageStates : gmap string imageState;
  ca_pools : gmap string PoolInfo;
  ca_store : Store
}.

Section cache.
Context `{K8sLib} `{MapRange} `{GoSort} {M : Type}.
Implicit Types (c : schedulerCache) (pod : Pod) (node : Node).

Definition set_pods c (assumed : gmap string bool) (states : gmap string podState) : schedulerCache :=
  MkCache (ca_ttl c) (ca_period c) assumed states (ca_imageStates c) (ca_pools c) (ca_store c).
Definition set_images c (images : gmap string imageState) (st : Store) : schedulerCache :=
  MkCache (ca_ttl c) (ca_period c) (ca_assumedPods c) (ca_podStates c) images (ca_pools c) st.
Definition set_pools c (pools : gmap string PoolInfo) (st : Store) : schedulerCache :=
  MkCache (ca_ttl c) (ca_period c) (ca_assumedPods c) (ca_podStates c) (ca_imageStates c) pools st.

(** A method call on the pool with key [k]; a missing pool is a nil pointer. *)
Definition on_pool {A} c (k : string) (f : Store → PoolInfo → comp (Store * PoolInfo * A)) :
    comp (schedulerCache * A) :=
  p ← ca_pools c !! k;
  '(st, p, r) ← f (ca_store c) p;
  Some (set_pools c (<[k := p]> (ca_pools c)) st, r).
(** The same for a method without result. *)
Definition on_pool_ c (k : string) (f : Store → PoolInfo → comp (Store * PoolInfo)) : comp schedulerCache :=
  fst <$> on_pool c k (λ st p, '(st, p) ← f st p; Some (st, p, tt)).

Definition newSchedulerCache (ttl period : Duration) (st : Store) : schedulerCache :=
  MkCache ttl period ∅ ∅ ∅ {[ DefaultPoolName := NewPoolInfo ]} st.

Definition createImageStateSummary (state : imageState) : ImageStateSummary :=
  MkImageStateSummary (is_size state) (Z.of_nat (size (is_nodes state))).

(** ** Pools of pods and nodes *)

Definition defaultPool : string := DefaultPoolName.

Definition matchPoolForNode c (node : option Node) : string :=
  match node with
  | None => defaultPool
  | Some _ =>
      match filter (λ e, Is_true (MatchNode e.2 node)) (range (ca_pools c)) with
      | [e] => e.1
      | _ => defaultPool
      end
  end.

Definition matchPoolForPod c pod : string :=
  let nodeName := pod_NodeName pod in
  if negb (bool_decide (nodeName = EmptyString)) then
    match list_find (λ e, is_Some (ContainsNode e.2 nodeName)) (range (ca_pools c)) with
    | Some (_, e) => e.1
    | None => defaultPool
    end
  else
    let poolName := GetPodAnnotationsPoolName (Some pod) in
    match ca_pools c !! poolName with Some _ => poolName | None => defaultPool end.

Definition GetPoolContainsNode c (nodeName : string) : option string :=
  match list_find (λ e, is_Some (ContainsNode e.2 nodeName)) (range (ca_pools c)) with
  | Some (_, e) => Some e.1
  | None => None
  end.

(** All nodes of all pools; where two pools have a node of the same name, one of them. *)
Definition nodes c : gmap string loc :=
  foldl (λ m e, foldl (λ m e, <[e.1 := e.2]> m) m (range (PoolInfo_Nodes e.2))) ∅ (range (ca_pools c)).

(** ** Pods *)

Definition addPod c pod : comp schedulerCache :=
  on_pool_ c (matchPoolForPod c pod) (λ st p, PoolInfo_AddPod st p pod).

Definition removePod c pod : comp (schedulerCache * option error) :=
  on_pool c (matchPoolForPod c pod) (λ st p, PoolInfo_RemovePod st p pod).

Definition updatePod c (oldPod newPod : Pod) : comp (schedulerCache * option error) :=
  '(c, err) ← removePod c oldPod;
  match err with
  | Some err => Some (c, Some err)
  | None => c ← addPod c newPod; Some (c, None)
  end.

(** [cache.assumedPods[key]] *)
Definition assumed c (key : string) : bool := default false (ca_assumedPods c !! key).

Definition AssumePod c pod : comp (schedulerCache * option error) :=
  match GetPodKey pod with
  | inl err => Some (c, Some err)
  | inr key =>
      match ca_podStates c !! key with
      | Some _ => Some (c, Some ("pod " +:+ key +:+ " is in the cache, so can't be assumed")%string)
      | None =>
          c ← addPod c pod;
          Some (set_pods c (<[key := true]> (ca_assumedPods c))
                  (<[key := MkPodState pod None false]> (ca_podStates c)), None)
      end
  end.

Definition finishBinding c pod (now : Time) : schedulerCache * option error :=
  match GetPodKey pod with
  | inl err => (c, Some err)
  | inr key =>
      match ca_podStates c !! key with
      | Some currState =>
          if assumed c key then
            (set_pods c (ca_assumedPods c)
               (<[key := MkPodState (ps_pod currState) (Some (time_add now (ca_ttl c))) true]> (ca_podStates c)), None)
          else (c, None)
      | None => (c, None)
      end
  end.

Definition ForgetPod c pod : comp (schedulerCache * option error) :=
  match GetPodKey pod with
  | inl err => Some (c, Some err)
  | inr key =>
      let wasnt := Some (c, Some ("pod " +:+ key +:+ " wasn't assumed so cannot be forgotten")%string) in
      match ca_podStates c !! key with
      | Some currState =>
          if negb (bool_decide (pod_NodeName (ps_pod currState) = pod_NodeName pod)) then
            Some (c, Some ("pod " +:+ key +:+ " was assumed on " +:+ pod_NodeName pod +:+ " but assigned to "
                           +:+ pod_NodeName (ps_pod currState))%string)
          else if assumed c key then
            '(c, err) ← removePod c pod;
            match err with
            | Some err => Some (c, Some err)
            | None => Some (set_pods c (delete key (ca_assumedPods c)) (delete key (ca_podStates c)), None)
            end
          else wasnt
      | None => wasnt
      end
  end.

(** The error of [cache.removePod] is dropped where the pod moved to another node. *)
Definition Cache_AddPod c pod : comp (schedulerCache * option error) :=
  match GetPodKey pod with
  | inl err => Some (c, Some err)
  | inr key =>
      match ca_podStates c !! key with
      | Some currState =>
          if assumed c key then
            c ← (if negb (bool_decide (pod_NodeName (ps_pod currState) = pod_NodeName pod)) then
                   '(c, _) ← removePod c (ps_pod currState);
                   addPod c pod
                 else Some c);
            Some (set_pods c (delete key (ca_assumedPods c))
                    (<[key := MkPodState pod None (ps_bindingFinished currState)]> (ca_podStates c)), None)
          else Some (c, Some ("pod " +:+ key +:+ " was already in added state")%string)
      | None =>
          c ← addPod c pod;
          Some (set_pods c (ca_assumedPods c) (<[key := MkPodState pod None false]> (ca_podStates c)), None)
      end
  end.

Definition Cache_UpdatePod c (oldPod newPod : Pod) : comp (schedulerCache * option error) :=
  match GetPodKey oldPod with
  | inl err => Some (c, Some err)
  | inr key =>
      let notAdded := Some (c, Some ("pod " +:+ key +:+ " is not added to scheduler cache, so cannot be updated")%string) in
      match ca_podStates c !! key with
      | Some currState =>
          if negb (assumed c key) then
            if negb (bool_decide (pod_NodeName (ps_pod currState) = pod_NodeName newPod)) then panic
            else
              '(c, err) ← updatePod c oldPod newPod;
              match err with
              | Some err => Some (c, Some err)
              | None =>
                  Some (set_pods c (ca_assumedPods c)
                          (<[key := MkPodState newPod (ps_deadline currState) (ps_bindingFinished currState)]>
                             (ca_podStates c)), None)
              end
          else notAdded
      | None => notAdded
      end
  end.

Definition Cache_RemovePod c pod : comp (schedulerCache * option error) :=
  match GetPodKey pod with
  | inl err => Some (c, Some err)
  | inr key =>
      let notFound := Some (c, Some ("pod " +:+ key +:+ " is not found in scheduler cache, so cannot be removed from it")%string) in
      match ca_podStates c !! key with
      | Some currState =>
          if negb (assumed c key) then
            if negb (bool_decide (pod_NodeName (ps_pod currState) = pod_NodeName pod)) then panic
            else
              '(c, err) ← removePod c (ps_pod currState);
              match err with
              | Some err => Some (c, Some err)
              | None => Some (set_pods c (ca_assumedPods c) (delete key (ca_podStates c)), None)
              end
          else notFound
      | None => notFound
      end
  end.

Definition IsAssumedPod c pod : error + bool :=
  match GetPodKey pod with inl err => inl err | inr key => inr (assumed c key) end.

Definition GetPod c pod : error + Pod :=
  match GetPodKey pod with
  | inl err => inl err
  | inr key =>
      match ca_podStates c !! key with
      | None => inl ("pod " +:+ key +:+ " does not exist in scheduler cache")%string
      | Some podState => inr (ps_pod podState)
      end
  end.

Definition expirePod c (key : string) (ps : podState) : comp (schedulerCache * option error) :=
  '(c, err) ← removePod c (ps_pod ps);
  match err with
  | Some err => Some (c, Some err)
  | None => Some (set_pods c (delete key (ca_assumedPods c)) (delete key (ca_podStates c)), None)
  end.

(** One iteration of [cleanupAssumedPods]; the error of [expirePod] is logged. *)
Definition cleanup1 (now : Time) c (key : string) : comp schedulerCache :=
  ps ← ca_podStates c !! key;
  if negb (ps_bindingFinished ps) then Some c
  else
    deadline ← ps_deadline ps;
    if time_after now deadline then fst <$> expirePod c key ps else Some c.

Definition cleanupAssumedPods c (now : Time) : comp schedulerCache :=
  foldl (λ r e, c ← r; cleanup1 now c e.1) (Some c) (range (ca_assumedPods c)).

Definition FilteredList c (podFilter : Pod → bool) (selector : Selector) : comp (list Pod) :=
  foldl (λ pods e,
    pods ← pods;
    info ← get_info (ca_store c) e.2;
    Some (foldl (λ pods pod, if podFilter pod && Selector_Matches selector (Labels (pod_Meta pod))
                             then pods ++ [pod] else pods) pods (ni_pods info)))
    (Some []) (range (nodes c)).

Definition Cache_List c (selector : Selector) : comp (list Pod) := FilteredList c (λ _, true) selector.

Definition Cache_Snapshot c : comp Snapshot :=
  nds ← foldl (λ m e, m ← m; info ← get_info (ca_store c) e.2; Some (<[e.1 := NodeInfo_Clone info]> m))
          (Some ∅) (range (nodes c));
  Some (MkSnapshot (foldl (λ m e, <[e.1 := e.2]> m) ∅ (range (ca_assumedPods c))) nds).

Definition Cache_NodeInfoSnapshot c (poolName : string) : option NodeInfoSnapshot :=
  pi_nodeInfoSnapshot <$> ca_pools c !! poolName.

Definition Cache_UpdateNodeInfoSnapshot (balancedVolumesEnabled : bool) c (poolName : string) :
    comp (schedulerCache * option error) :=
  match ca_pools c !! poolName with
  | Some _ => c ← on_pool_ c poolName (UpdateNodeInfoSnapshot balancedVolumesEnabled); Some (c, None)
  | None => Some (c, Some ("pool " +:+ poolName +:+ " not exists in cache")%string)
  end.

(** ** Images *)

Definition addNodeImageStates c node (l : loc) : comp schedulerCache :=
  let '(images, newSum) :=
    foldl (λ s image,
      foldl (λ (s : gmap string imageState * gmap string ImageStateSummary) name,
        let '(images, newSum) := s in
        let state := match images !! name with
                     | None => MkImageState (SizeBytes image) {[ node_Name node ]}
                     | Some state => MkImageState (is_size state) ({[ node_Name node ]} ∪ is_nodes state)
                     end in
        (<[name := state]> images,
         match newSum !! name with
         | None => <[name := createImageStateSummary state]> newSum
         | Some _ => newSum
         end)) s (Names image)) (ca_imageStates c, ∅) (Images node) in
  info ← get_info (ca_store c) l;
  st ← set_info (ca_store c) l (st_gen (ca_store c), SetImageStates info newSum);
  Some (set_images c images st).

Definition removeNodeImageStates c (node : option Node) : schedulerCache :=
  match node with
  | None => c
  | Some node =>
      set_images c
        (foldl (λ images image,
           foldl (λ (images : gmap string imageState) name,
             match images !! name with
             | Some state =>
                 let nodes := is_nodes state ∖ {[ node_Name node ]} in
                 if bool_decide (size nodes = O) then delete name images
                 else <[name := MkImageState (is_size state) nodes]> images
             | None => images
             end) images (Names image)) (ca_imageStates c) (Images node)) (ca_store c)
  end.

(** ** Nodes *)

Definition Cache_AddNode c node : comp (schedulerCache * option error) :=
  let k := matchPoolForNode c (Some node) in
  p ← ca_pools c !! k;
  let c := match ContainsNode p (node_Name node) with
           | Some _ => removeNodeImageStates c (Some node)
           | None => c
           end in
  c ← on_pool_ c k (λ st p, PoolInfo_AddNode st p node);
  p ← ca_pools c !! k;
  l ← PoolInfo_Nodes p !! node_Name node;
  c ← addNodeImageStates c node l;
  Some (c, None).

(** [item.Info().SetNode(newNode)] *)
Definition item_SetNode c (l : loc) node : comp schedulerCache :=
  info ← get_info (ca_store c) l;
  st ← set_info (ca_store c) l (NodeInfo_SetNode (st_gen (ca_store c)) info node);
  Some (set_pools c (ca_pools c) st).

(** [cache.removeNodeImageStates(item.Info().Node())] *)
Definition item_removeImages c (l : loc) : comp schedulerCache :=
  info ← get_info (ca_store c) l;
  Some (removeNodeImageStates c (ni_node info)).

Definition Cache_UpdateNode c (oldNode : option Node) (newNode : Node) : comp (schedulerCache * option error) :=
  let oldPool := matchPoolForNode c oldNode in
  let newPool := matchPoolForNode c (Some newNode) in
  let name := node_Name newNode in
  let finish c :=
    p ← ca_pools c !! newPool;
    l ← PoolInfo_Nodes p !! name;
    c ← addNodeImageStates c newNode l;
    Some (c, None) in
  if bool_decide (oldPool = newPool) then
    p ← ca_pools c !! newPool;
    c ← match ContainsNode p name with Some l => item_removeImages c l | None => Some c end;
    c ← on_pool_ c newPool (λ st p, PoolInfo_UpdateNode st p oldNode newNode);
    finish c
  else
    p ← ca_pools c !! oldPool;
    let oldItem := ContainsNode p name in
    '(c, err) ← match oldItem with
                | Some l =>
                    c ← item_removeImages c l;
                    on_pool c oldPool (λ st p, PoolInfo_RemoveNodeInfo st p (Some l))
                | None => Some (c, None)
                end;
    match err with
    | Some err => Some (c, Some err)
    | None =>
        p ← ca_pools c !! newPool;
        match ContainsNode p name with
        | Some newItem =>
            c ← item_removeImages c newItem;
            c ← on_pool_ c newPool (λ st p, PoolInfo_AddNodeInfo st p (Some newItem));
            c ← item_SetNode c newItem newNode;
            finish c
        | None =>
            c ← on_pool_ c newPool (λ st p, PoolInfo_AddNodeInfo st p oldItem);
            oldItem ← oldItem;
            c ← item_SetNode c oldItem newNode;
            finish c
        end
    end.

Definition Cache_RemoveNode c node : comp (schedulerCache * option error) :=
  '(c, err) ← on_pool c (matchPoolForNode c (Some node)) (λ st p, PoolInfo_RemoveNode st p node);
  match err with
  | Some err => Some (c, Some err)
  | None => Some (removeNodeImageStates c (Some node), None)
  end.

(** ** Pools *)

(** [from.RemoveNodeInfo(item); to.AddNodeInfo(item)], the error dropped. *)
Definition move_item c (from to : string) (item : loc) : comp schedulerCache :=
  '(c, _) ← on_pool c from (λ st p, PoolInfo_RemoveNodeInfo st p (Some item));
  on_pool_ c to (λ st p, PoolInfo_AddNodeInfo st p (Some item)).

(** The pools, the one of key [skip] left out, that match the node of an item. *)
Definition matches_except c (skip : string) (item : loc) : comp (list string) :=
  info ← get_info (ca_store c) item;
  Some (filter (λ e, e.1 ≠ skip ∧ Is_true (MatchNode e.2 (ni_node info))) (range (ca_pools c))).*1.

(** [p] is not the default pool: [RemovePool] refuses it and no pool of the API
    server has an empty name. *)
Definition moveNodeInfosToMatchedPoolFrom c (p : string) : comp schedulerCache :=
  df ← ca_pools c !! defaultPool;
  c ← foldl (λ r e,
        c ← r;
        matches ← matches_except c p e.2;
        match matches with
        | [m] => move_item c defaultPool m e.2
        | _ => Some c
        end) (Some c) (range (PoolInfo_Nodes df));
  pi ← ca_pools c !! p;
  foldl (λ r e,
    c ← r;
    matches ← matches_except c p e.2;
    match matches with
    | [m] => move_item c p m e.2
    | _ => move_item c p defaultPool e.2
    end) (Some c) (range (PoolInfo_Nodes pi)).

Definition moveAllNodeInfosFromMatchedPoolsTo c (p : string) : comp schedulerCache :=
  df ← ca_pools c !! defaultPool;
  c ← foldl (λ r e,
        c ← r;
        info ← get_info (ca_store c) e.2;
        match (filter (λ e, negb (IsDefaultPool e.2) ∧ Is_true (MatchNode e.2 (ni_node info))) (range (ca_pools c))).*1 with
        | [m] => if negb (bool_decide (m = p)) then Some c else move_item c defaultPool p e.2
        | _ => Some c
        end) (Some c) (range (PoolInfo_Nodes df));
  foldl (λ r k,
    c ← r;
    pi ← ca_pools c !! k.1;
    if IsDefaultPool pi || bool_decide (k.1 = p) then Some c
    else
      foldl (λ r e,
        c ← r;
        info ← get_info (ca_store c) e.2;
        self ← ca_pools c !! p;
        if MatchNode self (ni_node info) then move_item c k.1 defaultPool e.2 else Some c)
        (Some c) (range (PoolInfo_Nodes pi)))
    (Some c) (range (ca_pools c)).

Definition SetPool_at c (k : string) (pool : Pool) : comp schedulerCache :=
  p ← ca_pools c !! k;
  Some (set_pools c (<[k := PoolInfo_SetPool p pool]> (ca_pools c)) (ca_store c)).

Definition with_pool c (k : string) : schedulerCache :=
  match ca_pools c !! k with
  | Some _ => c
  | None => set_pools c (<[k := NewPoolInfo]> (ca_pools c)) (ca_store c)
  end.

Definition Cache_AddPool c (pool : Pool) : comp (schedulerCache * option error) :=
  if bool_decide (pool_Name pool = DefaultPoolName) then
    Some (c, Some "forbidden add pool which name is ''"%string)
  else
    c ← SetPool_at (with_pool c (pool_Name pool)) (pool_Name pool) pool;
    c ← moveAllNodeInfosFromMatchedPoolsTo c (pool_Name pool);
    Some (c, None).

Definition poolNodeSelectorChanged (oldPool newPool : Pool) : bool :=
  negb (bool_decide (PoolNodeSelector (pool_Spec oldPool) = PoolNodeSelector (pool_Spec newPool))).
Definition PoolResourcePropertiesChanged (oldPool newPool : Pool) : bool :=
  if poolNodeSelectorChanged oldPool newPool then true else false.

Definition Cache_UpdatePool c (oldPool newPool : Pool) : comp (schedulerCache * option error) :=
  let k := pool_Name newPool in
  match ca_pools c !! k with
  | None =>
      c ← SetPool_at (with_pool c k) k newPool;
      c ← moveAllNodeInfosFromMatchedPoolsTo c k;
      Some (c, None)
  | Some _ =>
      c ← SetPool_at c k newPool;
      if PoolResourcePropertiesChanged oldPool newPool then
        c ← moveNodeInfosToMatchedPoolFrom c k;
        c ← moveAllNodeInfosFromMatchedPoolsTo c k;
        Some (c, None)
      else Some (c, None)
  end.

(** [pi.ClearPool()] clears an object that nothing refers to any more. *)
Definition Cache_RemovePool c (pool : Pool) : comp (schedulerCache * option error) :=
  if bool_decide (pool_Name pool = EmptyString) then
    Some (c, Some "forbiden remove build-in default pool in scheduler cache"%string)
  else
    match ca_pools c !! pool_Name pool with
    | None => Some (c, None)
    | Some _ =>
        c ← moveNodeInfosToMatchedPoolFrom c (pool_Name pool);
        Some (set_pools c (delete (pool_Name pool) (ca_pools c)) (ca_store c), None)
    end.

Definition GetPool c (poolName : string) : error + PoolInfo :=
  match ca_pools c !! poolName with
  | None => inl ("pool " +:+ poolName +:+ " does not exist in scheduler cache")%string
  | Some pool => inr pool
  end.

Definition Cache_NodeTree c (poolName : string) : comp NodeTree :=
  pi_nodeTree <$> ca_pools c !! poolName.
Definition NumPools c : Z := Z.of_nat (size (ca_pools c)).
Definition Cache_NumNodes c : Z := Z.of_nat (size (nodes c)).

Definition calculateTotalResource c : comp Resource :=
  foldl (λ total e, total ← total; info ← get_info (ca_store c) e.2;
                    Some (rplus total (ni_allocatableResource info)))
    (Some emptyResource) (range (nodes c)).
Definition TotalAllocatableResource c : comp Resource := calculateTotalResource c.

(** ** Borrowing *)

(** The loop over [predicates.Ordering()]; [failed] are the reasons so far. *)
Fixpoint predicateCheck_loop (pod : Pod) (info : NodeInfo) (predicateFuncs : gmap string (FitPredicate M))
    (ordering : list string) : bool * list PredicateFailureReason * option error :=
  match ordering with
  | [] => (true, [], None)
  | predicateKey :: ordering =>
      match predicateFuncs !! predicateKey with
      | None => predicateCheck_loop pod info predicateFuncs ordering
      | Some predicate =>
          let '(fit, reasons, err) := predicate pod None (Some info) in
          match err with
          | Some err => (false, [], Some err)
          | None => if negb fit then (bool_decide (length reasons = O), reasons, None)
                    else predicateCheck_loop pod info predicateFuncs ordering
          end
      end
  end.
Definition predicateCheck pod (info : NodeInfo) (predicateFuncs : gmap string (FitPredicate M))
    (ordering : list string) : bool * list PredicateFailureReason * option error :=
  predicateCheck_loop pod info predicateFuncs ordering.

Definition higherIdleFunc (selfPoolName : string) (p1 p2 : PoolInfo) : bool :=
  if bool_decide (selfPoolName = PoolInfo_Name p1) && negb (bool_decide (selfPoolName = PoolInfo_Name p2)) then true
  else if negb (bool_decide (selfPoolName = PoolInfo_Name p1)) && bool_decide (selfPoolName = PoolInfo_Name p2) then false
  else negb (LessOrEqual (PoolInfo_Idle p1) (PoolInfo_Idle p2)).

(** Whether a node of the pool fits; the log message reads the name of its node object. *)
Fixpoint pool_fits c pod (fits : NodeInfo → bool) (items : list loc) : comp bool :=
  match items with
  | [] => Some false
  | ni :: items =>
      info ← get_info (ca_store c) ni;
      if negb (fits (NodeInfo_Clone info)) then pool_fits c pod fits items
      else _ ← ni_node info; Some true
  end.

Fixpoint first_fitting c pod (fits : NodeInfo → bool) (pools : list PoolInfo) : comp (option string) :=
  match pools with
  | [] => Some None
  | pi :: pools =>
      fit ← pool_fits c pod fits (range (PoolInfo_Nodes pi)).*2;
      if fit : bool then Some (Some (PoolInfo_Name pi)) else first_fitting c pod fits pools
  end.

(** The pools that may be borrowed, in the order of the iteration over the map. *)
Fixpoint sharing_pools (fromPoolName : string) (self : PoolInfo) (pools : list (string * PoolInfo)) :
    comp (list PoolInfo) :=
  match pools with
  | [] => Some []
  | (_, p) :: pools =>
      skip ← (if bool_decide (fromPoolName = PoolInfo_Name p) then Some true
              else can ← CanBorrowPool self p; Some (negb can));
      rest ← sharing_pools fromPoolName self pools;
      Some (if skip : bool then rest else p :: rest)
  end.

Definition BorrowPool c (fromPoolName : string) pod (predicateFuncs : gmap string (FitPredicate M))
    (ordering : list string) : comp string :=
  self ← ca_pools c !! matchPoolForPod c pod;
  let selfPoolName := PoolInfo_Name self in
  if negb (DisableBorrowing self) then
    sharing ← sharing_pools fromPoolName self (range (ca_pools c));
    let fits info := (predicateCheck pod info predicateFuncs ordering).1.1 in
    found ← first_fitting c pod fits (go_sort (higherIdleFunc selfPoolName) sharing);
    Some (match found with Some name => name | None => selfPoolName end)
  else Some selfPoolName.

End cache.
