(* ===== verification/CacheProofs.v ===== *)
(** * The scheduler cache: proofs

    [pools_inv] says that the pools of a cache do not share items or node names and
    are each in order; [pods_inv] that the nodes hold exactly the pods the cache
    has a state for.  Both are kept by every operation on pods and by adding and
    removing nodes. *)
From stdpp Require Import functions.
From S2P Require Import Prelude Heap Api Util Resource HostPorts NodeTree NodeInfo PoolInfo PoolInfoProofs Predicates Cache.

Section cache_proofs.
Context {K8s : K8sLib} {Laws : K8sLaws} {Range : MapRange}.
Implicit Types (c : schedulerCache) (pod q : Pod) (p : PoolInfo) (st : Store) (L : string → list loc).

(** ** The pools *)

Definition pool_all st p (l : list loc) : Prop :=
  pool_ok st p l ∧ fresh_ok st p l ∧ tree_wf (pi_nodeTree p) ∧ acct_ok p (all_pods st l).

Record pools_inv c L : Prop := {
  pv_default : is_Some (ca_pools c !! DefaultPoolName);
  pv_pool k p : ca_pools c !! k = Some p → pool_all (ca_store c) p (L k);
  pv_items k k' p p' x :
    ca_pools c !! k = Some p → ca_pools c !! k' = Some p' → x ∈ L k → x ∈ L k' → k = k';
  pv_names k k' p p' name x x' :
    ca_pools c !! k = Some p → ca_pools c !! k' = Some p' →
    pi_nodes p !! name = Some x → pi_nodes p' !! name = Some x' → k = k'
}.

(** A pod is on a node of the cache. *)
Definition on_node c (name : string) q : Prop :=
  ∃ k p x, ca_pools c !! k = Some p ∧ pi_nodes p !! name = Some x ∧ q ∈ pods_of (ca_store c) x.

Lemma pool_item st p l x : pool_ok st p l → x ∈ l → is_Some (ptrs st !! x) ∧ is_Some (infos st !! x).
Proof.
  intros Hp (l1 & l2 & ->)%list_elem_of_split. rewrite <-ptrs_Some_infos.
  by rewrite (dll_lookup _ _ _ _ (po_dll _ _ _ Hp)).
Qed.

(** A pool that an operation on another one leaves alone. *)
Lemma pool_all_frame st st' p l :
  pool_all st p l → (∀ y, y ∈ l → ptrs st' !! y = ptrs st !! y ∧ infos st' !! y = infos st !! y) →
  st_gen st <= st_gen st' → pool_all st' p l.
Proof.
  intros (Hp & Hf & Ht & Ha) Hy Hg.
  assert (∀ y, y ∈ l → gen_of st' y = gen_of st y ∧ node_name st' y = node_name st y) as Hsame.
  { intros y Hin. unfold gen_of, node_name. by rewrite (proj2 (Hy y Hin)). }
  split_and!; [| |done|].
  - split; [|apply Hp|apply Hp|].
    + eapply dll_ext; [apply Hp|]. intros y Hin. by apply Hy.
    + intros name x Ex. destruct (po_infos _ _ _ Hp name x Ex) as (info & Ei & ?). exists info. split; [|done].
      rewrite <-Ei. apply Hy. apply (po_in _ _ _ _ Hp). eauto.
  - destruct Hf as [Hs Hb Hsn He]. split.
    + eapply StronglySorted_weaken; [|exact Hs]. intros x y Hx Hin.
      by rewrite (proj1 (Hsame x Hx)), (proj1 (Hsame y Hin)).
    + intros x Hx. rewrite (proj1 (Hsame x Hx)). specialize (Hb x Hx). lia.
    + lia.
    + intros x s Hx. destruct (Hsame x Hx) as [-> ->]. rewrite (proj2 (Hy x Hx)). by apply He.
  - rewrite (all_pods_ext st st'); [done|]. intros y Hin. unfold pods_of. by rewrite (proj2 (Hy y Hin)).
Qed.

(** One pool is replaced, its items being old ones of it or new ones. *)
Lemma pools_step c L k p st' p' l' :
  pools_inv c L → ca_pools c !! k = Some p → pool_all st' p' l' →
  (∀ y, y ∉ L k → is_Some (infos (ca_store c) !! y) →
    ptrs st' !! y = ptrs (ca_store c) !! y ∧ infos st' !! y = infos (ca_store c) !! y) →
  st_gen (ca_store c) <= st_gen st' →
  (∀ y, y ∈ l' → y ∈ L k ∨ infos (ca_store c) !! y = None) →
  (∀ name, is_Some (pi_nodes p' !! name) → is_Some (pi_nodes p !! name) ∨
    ∀ k' p'', ca_pools c !! k' = Some p'' → pi_nodes p'' !! name = None) →
  pools_inv (set_pools c (<[k := p']> (ca_pools c)) st') (<[k := l']> L).
Proof.
  intros [Hdef Hpool Hitems Hnames] Ek Hall Hframe Hg Hl' Hn'.
  assert (∀ k' p'' y, k' ≠ k → ca_pools c !! k' = Some p'' → y ∈ L k' →
    (y ∉ L k) ∧ is_Some (infos (ca_store c) !! y)) as Hother.
  { intros k' p'' y Hne E Hy. split; [intros Hy'; by apply Hne, (Hitems k' k p'' p y)|].
    by apply (pool_item _ _ _ _ (proj1 (Hpool k' p'' E))). }
  split; simpl.
  - destruct (decide (k = DefaultPoolName)) as [->|]; [by rewrite lookup_insert_eq|by rewrite lookup_insert_ne].
  - intros k' p''. rewrite lookup_insert. case_decide as E.
    + intros [= <-]. subst. by rewrite fn_lookup_insert.
    + intros E'. rewrite fn_lookup_insert_ne by done. eapply pool_all_frame; [by apply Hpool| |done].
      intros y Hy. apply Hframe; by apply (Hother k' p'').
  - intros k1 k2 p1 p2 x. rewrite !lookup_insert.
    destruct (decide (k = k1)) as [<-|N1], (decide (k = k2)) as [<-|N2]; simpl; intros E1 E2;
      rewrite ?fn_lookup_insert, ?fn_lookup_insert_ne by done; try done.
    + intros Hx Hx2. destruct (Hother k2 p2 x) as [Hno [i Hi]]; [done..|].
      destruct (Hl' x Hx) as [?|?]; [done|congruence].
    + intros Hx1 Hx. destruct (Hother k1 p1 x) as [Hno [i Hi]]; [done..|].
      destruct (Hl' x Hx) as [?|?]; [done|congruence].
    + by apply (Hitems k1 k2 p1 p2 x).
  - intros k1 k2 p1 p2 name x x'. rewrite !lookup_insert.
    destruct (decide (k = k1)) as [<-|N1], (decide (k = k2)) as [<-|N2]; simpl; intros E1 E2 H1 H2; simplify_eq; try done.
    + destruct (Hn' name) as [[y Hy]|Hno]; [by rewrite H1| |by rewrite (Hno k2 p2 E2) in H2].
      by apply (Hnames k k2 p p2 name y x').
    + destruct (Hn' name) as [[y Hy]|Hno]; [by rewrite H2| |by rewrite (Hno k1 p1 E1) in H1].
      by apply (Hnames k1 k p1 p name x y).
    + by apply (Hnames k1 k2 p1 p2 name x x').
Qed.

(** The pods of the nodes that the step does not touch, and of the one it does. *)
Lemma on_node_other c L k p p' st' x n0 name q :
  pools_inv c L → ca_pools c !! k = Some p →
  (pi_nodes p !! n0 = Some x ∨ pi_nodes p !! n0 = None ∧ infos (ca_store c) !! x = None) →
  (∀ y, y ≠ x → infos st' !! y = infos (ca_store c) !! y) →
  (∀ name, name ≠ n0 → pi_nodes p' !! name = pi_nodes p !! name) → name ≠ n0 →
  on_node (set_pools c (<[k := p']> (ca_pools c)) st') name q ↔ on_node c name q.
Proof.
  intros Hi Ek Hx Ho Hnodes Hne.
  assert (∀ k0 p0 y, ca_pools c !! k0 = Some p0 → pi_nodes p0 !! name = Some y →
    pods_of st' y = pods_of (ca_store c) y) as Hpods.
  { intros k0 p0 y E0 Ey. unfold pods_of. rewrite Ho; [done|]. intros ->.
    destruct (pv_pool _ _ Hi k0 p0 E0) as (Hp0 & _).
    assert (x ∈ L k0) as Hx0 by (apply (po_in _ _ _ _ Hp0); eauto).
    destruct Hx as [Ex|[_ Hnone]]; [|destruct (pool_item _ _ _ _ Hp0 Hx0) as [_ [? ?]]; congruence].
    destruct (pv_pool _ _ Hi k p Ek) as (Hp & _).
    assert (x ∈ L k) as Hxk by (apply (po_in _ _ _ _ Hp); eauto).
    pose proof (pv_items _ _ Hi k k0 p p0 x Ek E0 Hxk Hx0). simplify_eq.
    apply Hne, (po_inj _ _ _ _ _ _ Hp0 Ey Ex). }
  unfold on_node. simpl. split.
  - intros (k0 & p0 & y & E0 & Ey & Hq). rewrite lookup_insert in E0. case_decide.
    + simplify_eq. rewrite Hnodes in Ey by done. exists k0, p, y. by rewrite <-(Hpods k0 p y).
    + exists k0, p0, y. by rewrite <-(Hpods k0 p0 y).
  - intros (k0 & p0 & y & E0 & Ey & Hq). exists k0.
    destruct (decide (k = k0)) as [<-|]; [|exists p0, y; rewrite lookup_insert_ne, (Hpods k0 p0 y) by done; done].
    simplify_eq. exists p', y. rewrite lookup_insert_eq, Hnodes, (Hpods k p y) by done. done.
Qed.

Lemma on_node_here c L k p n0 q :
  pools_inv c L → ca_pools c !! k = Some p →
  (is_Some (pi_nodes p !! n0) ∨ ∀ k' p', ca_pools c !! k' = Some p' → pi_nodes p' !! n0 = None) →
  on_node c n0 q ↔ ∃ x, pi_nodes p !! n0 = Some x ∧ q ∈ pods_of (ca_store c) x.
Proof.
  intros Hi Ek Hn. split.
  - intros (k0 & p0 & y & E0 & Ey & Hq). destruct Hn as [[x Ex]|Hn]; [|by rewrite (Hn k0 p0 E0) in Ey].
    pose proof (pv_names _ _ Hi k0 k p0 p n0 y x E0 Ek Ey Ex). simplify_eq. eauto.
  - intros (x & Ex & Hq). by exists k, p, x.
Qed.

(** ** The pool of a pod *)

Lemma ContainsNode_Some p name : name ≠ EmptyString → ContainsNode p name = pi_nodes p !! name.
Proof. intros Hn. unfold ContainsNode. by rewrite bool_decide_false. Qed.

(** The pool that has the node, or the default pool if none has. *)
Lemma matchPoolForPod_spec c L pod :
  pools_inv c L → pod_NodeName pod ≠ EmptyString →
  ∃ p, ca_pools c !! matchPoolForPod c pod = Some p ∧
    (is_Some (pi_nodes p !! pod_NodeName pod) ∨
     matchPoolForPod c pod = DefaultPoolName ∧
     ∀ k' p', ca_pools c !! k' = Some p' → pi_nodes p' !! pod_NodeName pod = None).
Proof.
  intros Hi Hn. unfold matchPoolForPod. rewrite bool_decide_false by done. simpl.
  destruct (list_find _ _) as [[i [k p]]|] eqn:E.
  - apply list_find_Some in E as (E & Hc & _). simpl in *. rewrite ContainsNode_Some in Hc by done.
    apply list_elem_of_lookup_2 in E. rewrite range_perm in E. apply elem_of_map_to_list in E.
    exists p. split; [done|]. by left.
  - apply list_find_None in E. destruct (pv_default _ _ Hi) as [p Ep]. exists p. split; [done|]. right.
    split; [done|]. intros k' p' E'. rewrite Forall_forall in E. specialize (E (k', p')).
    rewrite range_perm in E. simpl in E. rewrite ContainsNode_Some in E by done.
    apply eq_None_not_Some. apply E. by apply elem_of_map_to_list.
Qed.

(** ** Adding and removing a pod on its node *)

Lemma addPod_spec c L pod :
  pools_inv c L → gen_room (ca_store c) → pod_UID pod ≠ EmptyString → pod_NodeName pod ≠ EmptyString →
  (∀ q, on_node c (pod_NodeName pod) q → pod_UID q ≠ pod_UID pod) →
  ∃ pools st L', addPod c pod = Some (set_pools c pools st) ∧
    let c' := set_pools c pools st in
    pools_inv c' L' ∧ st_gen (ca_store c) < st_gen st <= st_gen (ca_store c) + 2 ∧
    ∀ name q, on_node c' name q ↔ on_node c name q ∨ name = pod_NodeName pod ∧ q = pod.
Proof.
  intros Hi Hg Hu Hn Hnew. destruct (matchPoolForPod_spec c L pod Hi Hn) as (p & Ek & Hcase).
  set (k := matchPoolForPod c pod) in *. pose proof (pv_pool _ _ Hi k p Ek) as (Hp & Hf & Ht & Ha).
  destruct (AddPod_ok (ca_store c) p (L k) pod Hp Hf Hg Hu)
    as (st' & p1 & x & E & Ep1 & Hp' & Hf' & Ho & Hpods & Hgen & Hx & Hptr).
  { intros x Ex. intros (q & Eq & Hq)%list_elem_of_fmap. apply (Hnew q); [by exists k, p, x|done]. }
  set (p' := plusPodResource p1 pod) in *. exists (<[k := p']> (ca_pools c)), st', (<[k := x :: without x (L k)]> L).
  assert (pi_nodes p' = <[pod_NodeName pod := x]> (pi_nodes p)) as En by (unfold p'; by rewrite Ep1).
  assert (pools_inv (set_pools c (<[k := p']> (ca_pools c)) st') (<[k := x :: without x (L k)]> L)) as Hi'.
  { eapply pools_step; [done|done| | |lia| |].
    + split_and!; [by eapply pool_ok_same|by eapply fresh_ok_same|by unfold p'; rewrite Ep1|].
      unfold p'. eapply acct_perm; [apply acct_plus; rewrite Ep1; exact Ha|].
      unfold all_pods at 2. rewrite bind_cons, Hpods.
      rewrite (all_pods_touch (ca_store c) st' (L k) x) by (done || apply Hp).
      fold (all_pods st' (without x (L k))). rewrite (Permutation_app_comm _ [pod]). by rewrite <-app_assoc.
    + intros y Hy Hys. assert (y ≠ x) as Hyx.
      { intros ->. destruct Hx as [[_ ?]|(_ & _ & Hnone)]; [done|]. destruct Hys. congruence. }
      split; [|by apply Ho]. apply Hptr; [by apply ptrs_Some_infos|done|done].
    + intros y [->|[Hy _]%elem_of_without]%elem_of_cons; [|by left]. naive_solver.
    + intros name. rewrite En, lookup_insert_is_Some'. intros [<-|?]; [|by left].
      destruct Hcase as [?|[_ ?]]; [by left|by right]. }
  split; [|split_and!; [done|lia|lia|]].
  - unfold addPod, on_pool_, on_pool. fold k. rewrite Ek. cbn [mbind option_bind]. by rewrite E.
  - intros name q. destruct (decide (name = pod_NodeName pod)) as [->|Hne].
    + rewrite (on_node_here _ _ k p' _ _ Hi' (lookup_insert_eq _ _ _)) by (left; by rewrite En, lookup_insert_eq).
      rewrite (on_node_here c L k p) by (done || naive_solver). rewrite En, lookup_insert_eq. simpl.
      destruct Hx as [[Ex Hxl]|(Ex & Hxl & _)]; rewrite Ex.
      * rewrite bool_decide_true in Hpods by done. split.
        -- intros (y & [= <-] & Hq). rewrite Hpods in Hq. set_solver.
        -- intros [(y & [= <-] & Hq)|[_ ->]]; exists x; (split; [done|]); rewrite Hpods; set_solver.
      * rewrite bool_decide_false in Hpods by done. split.
        -- intros (y & [= <-] & Hq). rewrite Hpods in Hq. set_solver.
        -- intros [(y & [=] & Hq)|[_ ->]]. exists x. split; [done|]. rewrite Hpods. set_solver.
    + rewrite (on_node_other c L k p p' st' x (pod_NodeName pod) name q Hi Ek); [|tauto|done| |done].
      * split; [by left|]. by intros [?|[? _]].
      * intros name' Hn'. by rewrite En, lookup_insert_ne.
Qed.

(** Two versions of a pod that the books do not tell apart. *)
Definition sim pod q : Prop :=
  pod_Spec pod = pod_Spec q ∧ pod_UID pod = pod_UID q ∧
  GetPodAnnotationsPoolName (Some pod) = GetPodAnnotationsPoolName (Some q).

#[local] Instance sim_equiv : Equivalence sim.
Proof.
  split; unfold sim; [done|intros p q (? & ? & ?)|intros p q r (? & ? & ?) (? & ? & ?)]; split_and!; congruence.
Qed.
Lemma sim_NodeName pod q : sim pod q → pod_NodeName pod = pod_NodeName q.
Proof. intros (E & _). unfold pod_NodeName. by rewrite E. Qed.

(** Removing another version of a pod that is on the node is removing the pod. *)
Lemma RemovePod_sim st p pod q x :
  sim pod q → pi_nodes p !! pod_NodeName q = Some x → pod_UID q ≠ EmptyString →
  (∃ i, find_index (has_key (pod_UID q)) (pods_of st x) = Some i) →
  PoolInfo_RemovePod st p pod = PoolInfo_RemovePod st p q.
Proof.
  intros Hs Ex Hu [i Ei]. unfold PoolInfo_RemovePod. rewrite (sim_NodeName _ _ Hs), Ex, get_info_infos.
  unfold pods_of in Ei. destruct (infos st !! x) as [info|]; [|done]. cbn [mbind option_bind].
  destruct Hs as (Espec & Euid & Epool).
  assert (NodeInfo_RemovePod (st_gen st) info pod = NodeInfo_RemovePod (st_gen st) info q ∧
    (NodeInfo_RemovePod (st_gen st) info q).2 = None) as [-> Enone].
  { unfold NodeInfo_RemovePod. rewrite !GetPodKey_ok by congruence. rewrite Euid. simpl in Ei. rewrite Ei.
    assert (calculateResource pod = calculateResource q) as ->
      by (unfold calculateResource, pod_Containers; by rewrite Espec).
    assert (∀ h, UpdatePorts h pod false = UpdatePorts h q false) as Hports
      by (intros h; unfold UpdatePorts, pod_ports, pod_Containers; by rewrite Espec).
    destruct (calculateResource q) as [[res cpu] mem]. by rewrite Hports. }
  destruct (NodeInfo_RemovePod (st_gen st) info q) as [[g info'] err]. simpl in Enone. subst err.
  assert (∀ p, reducePodResource p pod = reducePodResource p q) as Hred.
  { intros p'. unfold reducePodResource, MatchPod. rewrite Epool.
    assert (GetResourceRequestForPool pod = GetResourceRequestForPool q) as ->; [|done].
    unfold GetResourceRequestForPool, pod_Containers. by rewrite Espec. }
  destruct (set_info st x (g, info')) as [st1|]; [|done]. cbn [mbind option_bind].
  destruct (bool_decide (length (ni_pods info') = O) && bool_decide (ni_node info' = None)).
  - destruct (removeNodeInfoFromList st1 p (pod_NodeName q)) as [[st2 p2]|]; [|done]. simpl. by rewrite Hred.
  - destruct (moveNodeInfoToHead st1 p (pod_NodeName q)) as [[st2 p2]|]; [|done]. simpl. by rewrite Hred.
Qed.

(** Removing from a list with distinct keys. *)
Lemma perm_key_elem (l l' : list Pod) q r :
  NoDup (pod_UID <$> l) → l ≡ₚ q :: l' → r ∈ l' ↔ r ∈ l ∧ pod_UID r ≠ pod_UID q.
Proof.
  intros Hnd Hp. rewrite Hp in Hnd. apply NoDup_cons in Hnd as [Hq _]. rewrite Hp, elem_of_cons. split.
  - intros Hr. split; [by right|]. intros E. apply Hq. rewrite <-E. by apply list_elem_of_fmap_2.
  - intros [[->|?] ?]; done.
Qed.

Lemma removePod_spec c L pod q :
  pools_inv c L → gen_room (ca_store c) → pod_NodeName pod ≠ EmptyString →
  on_node c (pod_NodeName pod) q → sim pod q →
  ∃ pools st L', removePod c pod = Some (set_pools c pools st, None) ∧
    let c' := set_pools c pools st in
    pools_inv c' L' ∧ st_gen st = st_gen (ca_store c) + 1 ∧
    ∀ name r, on_node c' name r ↔ on_node c name r ∧ ¬ (name = pod_NodeName pod ∧ pod_UID r = pod_UID pod).
Proof.
  intros Hi Hg Hn Hon Hsim. destruct (matchPoolForPod_spec c L pod Hi Hn) as (p & Ek & Hcase).
  set (k := matchPoolForPod c pod) in *. pose proof (pv_pool _ _ Hi k p Ek) as (Hp & Hf & Ht & Ha).
  assert (∃ x, pi_nodes p !! pod_NodeName pod = Some x ∧ q ∈ pods_of (ca_store c) x) as (x & Ex & Hq)
    by (apply (on_node_here c L k p); [done|done|tauto|done]).
  pose proof (sim_NodeName _ _ Hsim) as EnN. pose proof Hsim as (_ & Euid & _).
  destruct (po_infos _ _ _ Hp _ _ Ex) as (info & Ei & Hinv & _).
  assert (pods_of (ca_store c) x = ni_pods info) as Epods by (unfold pods_of; by rewrite Ei).
  assert (pod_UID q ≠ EmptyString) as Hu by (apply (nv_uids _ Hinv); by rewrite <-Epods).
  assert (x ∈ L k) as Hxl by (apply (po_in _ _ _ _ Hp); eauto).
  destruct (RemovePod_ok (ca_store c) p (L k) q x Hp Hf Hg)
    as (st' & p1 & l' & E & Ep1 & Hp' & Hf' & Ho & Hpods & _ & Hgen & Hl' & Hptr); [by rewrite <-EnN|done|].
  rewrite <-(RemovePod_sim _ _ pod q x) in E; [|done|by rewrite <-EnN|done|].
  2:{ rewrite Epods. rewrite Epods in Hq. destruct (find_key_in _ _ (nv_keys _ Hinv) Hq Hu) as (i & ? & _). eauto. }
  set (p' := reducePodResource p1 q) in *.
  assert (pi_nodes p' = pi_nodes p1) as En by done.
  assert (∀ name, name ≠ pod_NodeName pod → pi_nodes p1 !! name = pi_nodes p !! name) as Hnodes.
  { intros name Hne. destruct Hl' as [[_ ->]|(_ & -> & _)]; [done|]. rewrite lookup_delete_ne; [done|]. congruence. }
  exists (<[k := p']> (ca_pools c)), st', (<[k := l']> L).
  assert (pools_inv (set_pools c (<[k := p']> (ca_pools c)) st') (<[k := l']> L)) as Hi'.
  { eapply pools_step; [done|done| | |lia| |].
    - split_and!; [by eapply pool_ok_same|by eapply fresh_ok_same|by unfold p'; rewrite Ep1|].
      apply acct_reduce. assert (acct_ok p1 (all_pods (ca_store c) (L k))) as Ha1 by (by rewrite Ep1).
      eapply acct_perm; [exact Ha1|].
      rewrite (all_pods_touch (ca_store c) st' (L k) x), bool_decide_true, Hpods by (done || apply Hp).
      simpl. f_equiv. destruct Hl' as [[-> _]|(-> & _ & Ee & _)]; [unfold all_pods; by rewrite bind_cons|]. by rewrite Ee.
    - intros y Hy Hys. split; [by apply Hptr|]. apply Ho. by intros ->.
    - intros y Hy. left. destruct Hl' as [[-> _]|(-> & _)].
      + apply elem_of_cons in Hy as [->|Hy]; [done|]. by apply elem_of_without in Hy as [? _].
      + by apply elem_of_without in Hy as [? _].
    - intros name. rewrite En. intros Hs. left. destruct (decide (name = pod_NodeName pod)) as [->|Hne]; [by rewrite Ex|].
      by rewrite <-Hnodes. }
  split; [|split_and!; [done|done|]].
  - unfold removePod, on_pool. fold k. rewrite Ek. cbn [mbind option_bind]. by rewrite E.
  - intros name r. destruct (decide (name = pod_NodeName pod)) as [->|Hne].
    + rewrite (on_node_here c L k p) by (done || tauto).
      assert (∀ r, r ∈ pods_of st' x ↔ r ∈ pods_of (ca_store c) x ∧ pod_UID r ≠ pod_UID q) as Hr.
      { intros r'. apply perm_key_elem; [rewrite Epods; apply Hinv|done]. }
      destruct Hl' as [[_ En1]|(_ & En1 & Ee & _)].
      * rewrite (on_node_here _ _ k p' _ _ Hi' (lookup_insert_eq _ _ _)) by (left; by rewrite En, En1, Ex).
        rewrite En, En1, Ex. simpl. split.
        -- intros (y & [= <-] & Hy). apply Hr in Hy as [? ?]. split; [eauto|]. rewrite Euid. by intros [_ ?].
        -- intros ((y & [= <-] & Hy) & Hnot). exists x. split; [done|]. apply Hr. split; [done|]. rewrite <-Euid.
           intros ?. by apply Hnot.
      * split.
        -- intros (k0 & p0 & y & E0 & Ey & Hy). simpl in *. rewrite lookup_insert in E0. case_decide as Hk.
           ++ injection E0 as <-. change (pi_nodes p1 !! pod_NodeName pod = Some y) in Ey.
              by rewrite En1, <-EnN, lookup_delete_eq in Ey.
           ++ destruct Hk. by apply (pv_names _ _ Hi k k0 p p0 (pod_NodeName pod) x y).
        -- intros ((y & Ey & Hy) & Hnot). exfalso. rewrite Ex in Ey. injection Ey as <-.
           assert (r ∈ pods_of st' x) as Hr' by (apply Hr; split; [done|rewrite <-Euid; intros ?; by apply Hnot]).
           rewrite Ee in Hr'. by apply not_elem_of_nil in Hr'.
    + rewrite (on_node_other c L k p p' st' x (pod_NodeName pod) name r Hi Ek); [|by left|done|by rewrite En|done].
      split; [|by intros [? _]]. intros ?. split; [done|]. by intros [? _].
Qed.

(** ** The pods of the cache *)

Record pods_inv c : Prop := {
  pd_node name q : on_node c name q → ∃ ps, ca_podStates c !! pod_UID q = Some ps ∧ sim (ps_pod ps) q;
  pd_state uid ps : ca_podStates c !! uid = Some ps →
    pod_UID (ps_pod ps) = uid ∧ uid ≠ EmptyString ∧ pod_NodeName (ps_pod ps) ≠ EmptyString ∧
    ∃ q, on_node c (pod_NodeName (ps_pod ps)) q ∧ sim (ps_pod ps) q;
  pd_assumed uid b : ca_assumedPods c !! uid = Some b →
    b = true ∧ ∃ ps, ca_podStates c !! uid = Some ps ∧ (ps_bindingFinished ps = true → is_Some (ps_deadline ps))
}.

Definition cache_inv c : Prop := ∃ L, pools_inv c L ∧ pods_inv c.

Lemma on_node_name c L name q : pools_inv c L → on_node c name q → pod_NodeName q = name.
Proof.
  intros Hi (k & p & x & Ek & Ex & Hq). destruct (pv_pool _ _ Hi k p Ek) as (Hp & _).
  destruct (po_infos _ _ _ Hp name x Ex) as (info & Ei & _ & _ & Hpods). apply Hpods.
  unfold pods_of in Hq. by rewrite Ei in Hq.
Qed.

Lemma pools_inv_same c c' L :
  pools_inv c L → ca_pools c' = ca_pools c → ca_store c' = ca_store c → pools_inv c' L.
Proof. intros [] E1 E2. split; rewrite ?E1, ?E2; done. Qed.
Lemma on_node_same c c' name q :
  ca_pools c' = ca_pools c → ca_store c' = ca_store c → on_node c' name q ↔ on_node c name q.
Proof. intros E1 E2. unfold on_node. by rewrite E1, E2. Qed.

(** A pod and its state are added. *)
Lemma pods_add c c' pod ps :
  pods_inv c → ca_podStates c !! pod_UID pod = None → pod_UID pod ≠ EmptyString →
  pod_NodeName pod ≠ EmptyString → ps_pod ps = pod →
  (∀ name q, on_node c' name q ↔ on_node c name q ∨ name = pod_NodeName pod ∧ q = pod) →
  ca_podStates c' = <[pod_UID pod := ps]> (ca_podStates c) →
  (ca_assumedPods c' = ca_assumedPods c ∨
   ca_assumedPods c' = <[pod_UID pod := true]> (ca_assumedPods c) ∧ ps_bindingFinished ps = false) →
  pods_inv c'.
Proof.
  intros [Hn Hs Ha] Hnew Hu Hnn Eps Hon Est Eas. split.
  - intros name q [Hq|[-> ->]]%Hon; rewrite Est.
    + destruct (Hn name q Hq) as (ps' & E & ?). exists ps'. rewrite lookup_insert_ne; [done|]. congruence.
    + exists ps. by rewrite lookup_insert_eq, Eps.
  - intros uid ps'. rewrite Est. intros [[<- <-]|[Hne E]]%lookup_insert_Some.
    + rewrite Eps. split_and!; try done. exists pod. split; [|done]. apply Hon. by right.
    + destruct (Hs uid ps' E) as (? & ? & ? & q & Hq & ?). split_and!; try done. exists q. split; [|done].
      apply Hon. by left.
  - intros uid b E. rewrite Est. destruct (decide (uid = pod_UID pod)) as [->|Hne].
    + rewrite lookup_insert_eq. destruct Eas as [Eas|[Eas Eb]]; rewrite Eas in E.
      * apply Ha in E as (_ & ps' & ? & _). congruence.
      * rewrite lookup_insert_eq in E. injection E as <-. split; [done|]. exists ps. split; [done|]. by rewrite Eb.
    + rewrite lookup_insert_ne by done.
      destruct Eas as [Eas|[Eas _]]; rewrite Eas in E; [by apply Ha|].
      rewrite lookup_insert_ne in E by done. by apply Ha.
Qed.

(** A pod and its state are removed. *)
Lemma pods_del c c' L uid ps :
  pods_inv c → pools_inv c L → ca_podStates c !! uid = Some ps →
  (∀ name r, on_node c' name r ↔
    on_node c name r ∧ ¬ (name = pod_NodeName (ps_pod ps) ∧ pod_UID r = uid)) →
  ca_podStates c' = delete uid (ca_podStates c) →
  (ca_assumedPods c' = delete uid (ca_assumedPods c) ∨
   ca_assumedPods c' = ca_assumedPods c ∧ ca_assumedPods c !! uid = None) →
  pods_inv c'.
Proof.
  intros [Hn Hs Ha] Hi Eps Hon Est Eas. split.
  - intros name q [Hq Hno]%Hon. destruct (Hn name q Hq) as (ps' & E & Hsim). exists ps'. rewrite Est.
    rewrite lookup_delete_ne; [done|]. intros ->. apply Hno. split; [|done]. simplify_eq.
    rewrite (sim_NodeName _ _ Hsim). symmetry. by eapply on_node_name.
  - intros uid' ps'. rewrite Est. intros [Hne E]%lookup_delete_Some.
    destruct (Hs uid' ps' E) as (Eu & ? & ? & q & Hq & Hsim). split_and!; try done. exists q. split; [|done].
    apply Hon. split; [done|]. intros [_ Eq]. apply Hne. rewrite <-Eq, <-Eu. symmetry. apply Hsim.
  - intros uid' b E. assert (uid' ≠ uid ∧ ca_assumedPods c !! uid' = Some b) as [Hne E'].
    { destruct Eas as [Eas|[Eas Hno]]; rewrite Eas in E.
      - apply lookup_delete_Some in E as [? ?]. split; [by apply not_eq_sym|done].
      - split; [|done]. congruence. }
    rewrite Est, lookup_delete_ne by (by apply not_eq_sym). by apply Ha.
Qed.

(** The state of a pod is replaced by one of the same pod, in the books. *)
Lemma pods_replace c c' uid ps ps' :
  pods_inv c → ca_podStates c !! uid = Some ps → sim (ps_pod ps') (ps_pod ps) →
  (∀ name r, on_node c' name r ↔ on_node c name r) →
  ca_podStates c' = <[uid := ps']> (ca_podStates c) →
  (ca_assumedPods c' = delete uid (ca_assumedPods c) ∨
   ca_assumedPods c' = ca_assumedPods c ∧
     (is_Some (ca_assumedPods c !! uid) → ps_bindingFinished ps' = true → is_Some (ps_deadline ps'))) →
  pods_inv c'.
Proof.
  intros [Hn Hs Ha] Eps Hsim Hon Est Eas. split.
  - intros name q Hq%Hon. destruct (Hn name q Hq) as (ps0 & E & Hq'). rewrite Est.
    destruct (decide (uid = pod_UID q)) as [->|]; [|exists ps0; by rewrite lookup_insert_ne].
    exists ps'. rewrite lookup_insert_eq. simplify_eq. split; [done|]. by rewrite Hsim.
  - intros uid' ps0. rewrite Est. intros [[<- <-]|[Hne E]]%lookup_insert_Some.
    + destruct (Hs uid ps Eps) as (Eu & ? & Hnn & q & Hq & Hq'). rewrite (sim_NodeName _ _ Hsim).
      split_and!; try done; [destruct Hsim as (_ & -> & _); done|]. exists q. rewrite Hon, Hsim. done.
    + destruct (Hs uid' ps0 E) as (? & ? & ? & q & Hq & ?). split_and!; try done. exists q. by rewrite Hon.
  - intros uid' b E. rewrite Est. destruct Eas as [Eas|[Eas Hb]]; rewrite Eas in E.
    + apply lookup_delete_Some in E as [Hne E]. rewrite lookup_insert_ne by done. by apply Ha.
    + destruct (Ha uid' b E) as (-> & ps0 & E0 & ?). split; [done|].
      destruct (decide (uid = uid')) as [->|]; [|exists ps0; by rewrite lookup_insert_ne].
      exists ps'. rewrite lookup_insert_eq. split; [done|]. apply Hb. by rewrite E.
Qed.

(** ** The operations on pods *)

Definition room (n : Z) c : Prop := 0 <= st_gen (ca_store c) ∧ st_gen (ca_store c) + n + 4 <= MaxInt64.

Lemma room_gen n c : 0 <= n → room n c → gen_room (ca_store c).
Proof. intros Hn [? ?]. split; lia. Qed.

Lemma GetPodKey_cases pod :
  (pod_UID pod = EmptyString ∧ ∃ e, GetPodKey pod = inl e) ∨
  (pod_UID pod ≠ EmptyString ∧ GetPodKey pod = inr (pod_UID pod)).
Proof.
  destruct (decide (pod_UID pod = EmptyString)) as [E|E]; [left|right; split; [done|by apply GetPodKey_ok]].
  split; [done|]. unfold GetPodKey. rewrite bool_decide_true by done. by eexists.
Qed.

(** A pod with a new key goes on its node. *)
Lemma new_pod c pod :
  cache_inv c → room 0 c → pod_UID pod ≠ EmptyString → pod_NodeName pod ≠ EmptyString →
  ca_podStates c !! pod_UID pod = None →
  ∃ pools st L, addPod c pod = Some (set_pools c pools st) ∧ pools_inv (set_pools c pools st) L ∧
    (∀ name q, on_node (set_pools c pools st) name q ↔ on_node c name q ∨ name = pod_NodeName pod ∧ q = pod).
Proof.
  intros (L & Hi & Hp) Hr Hu Hn Hnew.
  destruct (addPod_spec c L pod Hi (room_gen 0 c ltac:(lia) Hr) Hu Hn) as (pools & st & L' & E & Hi' & _ & Hon).
  - intros q Hq Eq. destruct (pd_node _ Hp _ _ Hq) as (ps & E & _). rewrite Eq in E. congruence.
  - by exists pools, st, L'.
Qed.

(** The pod of a state leaves its node. *)
Lemma old_pod c L pod ps :
  pools_inv c L → pods_inv c → gen_room (ca_store c) → ca_podStates c !! pod_UID pod = Some ps → sim pod (ps_pod ps) →
  ∃ pools st L', removePod c pod = Some (set_pools c pools st, None) ∧ pools_inv (set_pools c pools st) L' ∧
    st_gen st = st_gen (ca_store c) + 1 ∧
    (∀ name r, on_node (set_pools c pools st) name r ↔
      on_node c name r ∧ ¬ (name = pod_NodeName (ps_pod ps) ∧ pod_UID r = pod_UID pod)).
Proof.
  intros Hi Hp Hg E Hs. destruct (pd_state _ Hp _ _ E) as (Eu & Hu & Hn & q & Hq & Hsq).
  pose proof (sim_NodeName _ _ Hs) as En.
  destruct (removePod_spec c L pod q Hi Hg) as (pools & st & L' & Er & Hi' & G & Hon);
    [by rewrite En|by rewrite En|by rewrite Hs|].
  exists pools, st, L'. split_and!; try done. intros name r. by rewrite Hon, En.
Qed.

Lemma AssumePod_inv c pod :
  cache_inv c → room 0 c → pod_NodeName pod ≠ EmptyString →
  ∃ c' e, AssumePod c pod = Some (c', e) ∧ cache_inv c' ∧
    (pod_UID pod ≠ EmptyString → ca_podStates c !! pod_UID pod = None →
      e = None ∧ assumed c' (pod_UID pod) = true ∧ ∃ q, on_node c' (pod_NodeName pod) q ∧ q = pod).
Proof.
  intros Hc Hr Hn. unfold AssumePod.
  destruct (GetPodKey_cases pod) as [(Eu & e & ->)|(Hu & ->)]; [by exists c, (Some e)|].
  destruct (ca_podStates c !! pod_UID pod) as [ps|] eqn:E; [by eexists c, _|].
  destruct (new_pod c pod Hc Hr Hu Hn E) as (pools & st & L & -> & Hi & Hon). cbn [mbind option_bind].
  eexists _, None. split; [done|]. destruct Hc as (_ & _ & Hp). split.
  - exists L. split; [by eapply pools_inv_same|].
    eapply (pods_add c _ pod (MkPodState pod None false) Hp E Hu Hn eq_refl); [|done|by right].
    intros name q. rewrite <-Hon. by apply on_node_same.
  - intros _ _. split; [done|]. split; [unfold assumed; simpl; by rewrite lookup_insert_eq|].
    exists pod. split; [|done]. rewrite (on_node_same (set_pools c pools st)), Hon by done. by right.
Qed.

Lemma finishBinding_inv c pod now : cache_inv c → cache_inv (finishBinding c pod now).1.
Proof.
  intros Hc. unfold finishBinding. destruct (GetPodKey_cases pod) as [(Eu & e & ->)|(Hu & ->)]; [done|].
  destruct (ca_podStates c !! pod_UID pod) as [ps|] eqn:E; [|done].
  destruct (assumed c (pod_UID pod)); [|done]. destruct Hc as (L & Hi & Hp). exists L.
  split; [by eapply pools_inv_same|].
  eapply (pods_replace c _ (pod_UID pod) ps (MkPodState (ps_pod ps) _ true) Hp E); [done|done|done|].
  right. split; [done|]. by intros _ _.
Qed.

Lemma assumed_true c uid : assumed c uid = true → ca_assumedPods c !! uid = Some true.
Proof. unfold assumed. by destruct (ca_assumedPods c !! uid) as [[]|]. Qed.
Lemma assumed_false c uid : pods_inv c → assumed c uid = false → ca_assumedPods c !! uid = None.
Proof.
  intros Hp. unfold assumed. destruct (ca_assumedPods c !! uid) as [b|] eqn:E; [|done].
  destruct (pd_assumed _ Hp _ _ E) as [-> _]. done.
Qed.

Lemma ForgetPod_inv c pod :
  cache_inv c → room 0 c →
  (∀ ps, ca_podStates c !! pod_UID pod = Some ps → assumed c (pod_UID pod) = true →
    pod_NodeName (ps_pod ps) = pod_NodeName pod → sim pod (ps_pod ps)) →
  ∃ c' e, ForgetPod c pod = Some (c', e) ∧ cache_inv c' ∧
    (∀ ps, pod_UID pod ≠ EmptyString → ca_podStates c !! pod_UID pod = Some ps → assumed c (pod_UID pod) = true →
      pod_NodeName (ps_pod ps) = pod_NodeName pod → e = None ∧ ca_podStates c' !! pod_UID pod = None).
Proof.
  intros Hc Hr Hl. unfold ForgetPod.
  destruct (GetPodKey_cases pod) as [(Eu & e & ->)|(Hu & ->)]; [by exists c, (Some e)|].
  destruct (ca_podStates c !! pod_UID pod) as [ps|] eqn:E; [|by eexists c, _].
  destruct (decide (pod_NodeName (ps_pod ps) = pod_NodeName pod)) as [En|En].
  2:{ rewrite bool_decide_false by done. eexists c, _. split_and!; [done|done|]. intros ps' _ [= <-]. done. }
  rewrite bool_decide_true by done. cbn [negb].
  destruct (assumed c (pod_UID pod)) eqn:Ea; [|by eexists c, _].
  destruct Hc as (L & Hi & Hp).
  destruct (old_pod c L pod ps Hi Hp (room_gen 0 c ltac:(lia) Hr) E (Hl ps eq_refl eq_refl En))
    as (pools & st & L' & -> & Hi' & _ & Hon). cbn [mbind option_bind].
  eexists _, None. split_and!; [done| |].
  - exists L'. split; [by eapply pools_inv_same|].
    eapply (pods_del c _ L (pod_UID pod) ps Hp Hi E); [|done|by left].
    intros name r. rewrite <-Hon. by apply on_node_same.
  - intros ps' _ _ _ _. split; [done|]. simpl. by rewrite lookup_delete_eq.
Qed.

(** A pod is replaced by a new version, on the same node or another one. *)
Lemma swap_pod c L old new ps :
  pools_inv c L → pods_inv c → room 0 c → ca_podStates c !! pod_UID old = Some ps → sim old (ps_pod ps) →
  pod_UID new = pod_UID old → pod_NodeName new ≠ EmptyString →
  ∃ pools st pools' st' L', removePod c old = Some (set_pools c pools st, None) ∧
    addPod (set_pools c pools st) new = Some (set_pools c pools' st') ∧
    pools_inv (set_pools c pools' st') L' ∧
    ∀ ps' as', ps_pod ps' = new →
      (as' = delete (pod_UID old) (ca_assumedPods c) ∨
       as' = ca_assumedPods c ∧ ca_assumedPods c !! pod_UID old = None) →
      pods_inv (set_pods (set_pools c pools' st') as' (<[pod_UID old := ps']> (ca_podStates c))).
Proof.
  intros Hi Hp Hr E Hs Eu Hn.
  destruct (old_pod c L old ps Hi Hp (room_gen 0 c ltac:(lia) Hr) E Hs) as (pools & st & L1 & E1 & Hi1 & G1 & Hon1).
  destruct (pd_state _ Hp _ _ E) as (_ & Hu & _).
  destruct (addPod_spec (set_pools c pools st) L1 new Hi1) as (pools' & st' & L2 & E2 & Hi2 & _ & Hon2).
  { destruct Hr. split; cbn [ca_store set_pools]; lia. }
  { by rewrite Eu. }
  { done. }
  { intros q [Hq Hno]%Hon1 Eq. apply Hno. rewrite Eu in Eq. split; [|done].
    destruct (pd_node _ Hp _ _ Hq) as (ps0 & E0 & Hsq). rewrite Eq, E in E0. injection E0 as <-.
    rewrite (sim_NodeName _ _ Hsq). symmetry. exact (on_node_name c L _ q Hi Hq). }
  exists pools, st, pools', st', L2. split_and!; try done. intros ps' as' Eps Has.
  set (c1 := set_pods (set_pools c pools st) as' (delete (pod_UID old) (ca_podStates c))).
  assert (pods_inv c1) as Hp1.
  { eapply (pods_del c c1 L (pod_UID old) ps Hp Hi E); [|done|done].
    intros name r. rewrite <-Hon1. by apply on_node_same. }
  eapply (pods_add c1 _ new ps' Hp1); [|by rewrite Eu|done|done| | |by left].
  - simpl. by rewrite Eu, lookup_delete_eq.
  - intros name q. rewrite (on_node_same (set_pools c pools' st')) by done. setoid_rewrite Hon2.
    by rewrite (on_node_same (set_pools c pools st) c1) by done.
  - simpl. by rewrite Eu, insert_delete_eq.
Qed.

Lemma Cache_AddPod_inv c pod :
  cache_inv c → room 0 c → pod_NodeName pod ≠ EmptyString →
  (∀ ps, ca_podStates c !! pod_UID pod = Some ps → assumed c (pod_UID pod) = true →
    pod_NodeName (ps_pod ps) = pod_NodeName pod → sim pod (ps_pod ps)) →
  ∃ c' e, Cache_AddPod c pod = Some (c', e) ∧ cache_inv c'.
Proof.
  intros Hc Hr Hn Hl. unfold Cache_AddPod.
  destruct (GetPodKey_cases pod) as [(Eu & e & ->)|(Hu & ->)]; [by exists c, (Some e)|].
  pose proof Hc as (L & Hi & Hp). destruct (ca_podStates c !! pod_UID pod) as [ps|] eqn:E.
  - destruct (assumed c (pod_UID pod)) eqn:Ea; [|by eexists c, _].
    destruct (pd_state _ Hp _ _ E) as (Eups & _).
    destruct (decide (pod_NodeName (ps_pod ps) = pod_NodeName pod)) as [En|En].
    + rewrite bool_decide_true by done. cbn [negb mbind option_bind]. eexists _, None. split; [done|]. exists L.
      split; [by eapply pools_inv_same|].
      eapply (pods_replace c _ (pod_UID pod) ps (MkPodState pod None _) Hp E); [by apply Hl|done|done|by left].
    + rewrite bool_decide_false by done. cbn [negb].
      destruct (swap_pod c L (ps_pod ps) pod ps Hi Hp Hr) as (pools & st & pools' & st' & L' & E1 & E2 & Hi' & Hp');
        [by rewrite Eups|done|done|done|].
      rewrite E1. cbn [mbind option_bind]. rewrite E2. cbn [mbind option_bind]. eexists _, None.
      split; [done|]. exists L'. split; [by eapply pools_inv_same|].
      rewrite Eups in Hp'. apply (Hp' (MkPodState pod None _)); [done|by left].
  - destruct (new_pod c pod Hc Hr Hu Hn E) as (pools & st & L' & -> & Hi' & Hon). cbn [mbind option_bind].
    eexists _, None. split; [done|]. exists L'. split; [by eapply pools_inv_same|].
    eapply (pods_add c _ pod (MkPodState pod None false) Hp E Hu Hn eq_refl); [|done|by left].
    intros name q. rewrite <-Hon. by apply on_node_same.
Qed.

Lemma Cache_UpdatePod_inv c old new :
  cache_inv c → room 0 c →
  (∀ ps, ca_podStates c !! pod_UID old = Some ps → assumed c (pod_UID old) = false →
    sim old (ps_pod ps) ∧ pod_UID new = pod_UID old ∧ pod_NodeName new = pod_NodeName (ps_pod ps)) →
  ∃ c' e, Cache_UpdatePod c old new = Some (c', e) ∧ cache_inv c'.
Proof.
  intros Hc Hr Hl. unfold Cache_UpdatePod.
  destruct (GetPodKey_cases old) as [(Eu & e & ->)|(Hu & ->)]; [by exists c, (Some e)|].
  pose proof Hc as (L & Hi & Hp).
  destruct (ca_podStates c !! pod_UID old) as [ps|] eqn:E; [|by eexists c, _].
  destruct (assumed c (pod_UID old)) eqn:Ea; [by eexists c, _|]. cbn [negb].
  destruct (Hl ps eq_refl eq_refl) as (Hs & Eun & En). rewrite bool_decide_true by done. cbn [negb].
  destruct (pd_state _ Hp _ _ E) as (_ & _ & Hnn & _).
  destruct (swap_pod c L old new ps Hi Hp Hr E Hs Eun) as (pools & st & pools' & st' & L' & E1 & E2 & Hi' & Hp');
    [by rewrite En|].
  unfold updatePod. rewrite E1. cbn [mbind option_bind]. rewrite E2. cbn [mbind option_bind].
  eexists _, None. split; [done|]. exists L'. split; [by eapply pools_inv_same|].
  apply (Hp' (MkPodState new _ _)); [done|]. right. split; [done|]. by apply assumed_false.
Qed.

Lemma Cache_RemovePod_inv c pod :
  cache_inv c → room 0 c →
  (∀ ps, ca_podStates c !! pod_UID pod = Some ps → assumed c (pod_UID pod) = false →
    pod_NodeName pod = pod_NodeName (ps_pod ps)) →
  ∃ c' e, Cache_RemovePod c pod = Some (c', e) ∧ cache_inv c' ∧
    (e = None → ca_podStates c' !! pod_UID pod = None).
Proof.
  intros Hc Hr Hl. unfold Cache_RemovePod.
  destruct (GetPodKey_cases pod) as [(Eu & e & ->)|(Hu & ->)]; [by exists c, (Some e)|].
  pose proof Hc as (L & Hi & Hp).
  destruct (ca_podStates c !! pod_UID pod) as [ps|] eqn:E; [|by eexists c, _].
  destruct (assumed c (pod_UID pod)) eqn:Ea; [by eexists c, _|]. cbn [negb].
  rewrite bool_decide_true by (symmetry; by apply Hl). cbn [negb].
  destruct (pd_state _ Hp _ _ E) as (Eups & _).
  destruct (old_pod c L (ps_pod ps) ps Hi Hp (room_gen 0 c ltac:(lia) Hr)) as (pools & st & L' & -> & Hi' & _ & Hon);
    [by rewrite Eups|done|].
  cbn [mbind option_bind]. eexists _, None. split_and!; [done| |].
  - exists L'. split; [by eapply pools_inv_same|]. rewrite Eups in Hon.
    eapply (pods_del c _ L (pod_UID pod) ps Hp Hi E); [|done|right; split; [done|by apply assumed_false]].
    intros name r. rewrite <-Hon. by apply on_node_same.
  - intros _. simpl. by rewrite lookup_delete_eq.
Qed.

(** ** Expiry *)

Definition expired (now : Time) (ps : podState) : bool :=
  ps_bindingFinished ps && match ps_deadline ps with Some d => time_after now d | None => false end.

(** One assumed pod: kept, or expired exactly if its binding has finished and its
    deadline has passed. *)
Lemma cleanup1_spec n c now uid ps :
  cache_inv c → room (n + 1) c → 0 <= n → ca_assumedPods c !! uid = Some true → ca_podStates c !! uid = Some ps →
  ∃ c', cleanup1 now c uid = Some c' ∧ cache_inv c' ∧ room n c' ∧
    ca_podStates c' = (if expired now ps then delete uid (ca_podStates c) else ca_podStates c) ∧
    ca_assumedPods c' = (if expired now ps then delete uid (ca_assumedPods c) else ca_assumedPods c).
Proof.
  intros (L & Hi & Hp) Hr Hn Ea E. unfold cleanup1, expired. rewrite E. cbn [mbind option_bind].
  assert (room n c) as Hr' by (destruct Hr; split; lia).
  destruct (pd_assumed _ Hp _ _ Ea) as (_ & ps0 & E0 & Hd). rewrite E in E0. injection E0 as <-.
  destruct (ps_bindingFinished ps); cbn [negb andb]; [|exists c; split_and!; try done; by exists L].
  destruct (Hd eq_refl) as [d Ed]. rewrite Ed. cbn [mbind option_bind].
  destruct (time_after now d); [|exists c; split_and!; try done; by exists L].
  destruct (pd_state _ Hp _ _ E) as (Eups & _).
  destruct (old_pod c L (ps_pod ps) ps Hi Hp (room_gen (n + 1) c ltac:(lia) Hr))
    as (pools & st & L' & E1 & Hi' & G & Hon); [by rewrite Eups|done|].
  unfold expirePod. rewrite E1. cbn [mbind option_bind]. eexists. split; [done|]. split_and!; try done.
  - exists L'. split; [by eapply pools_inv_same|]. rewrite Eups in Hon.
    eapply (pods_del c _ L uid ps Hp Hi E); [|done|by left].
    intros name r. rewrite <-Hon. by apply on_node_same.
  - destruct Hr. split; cbn [ca_store set_pods set_pools fst]; lia.
Qed.

Lemma cleanup_loop now l n c :
  cache_inv c → room (Z.of_nat (length l) + n) c → 0 <= n → NoDup l.*1 →
  (∀ e, e ∈ l → ca_assumedPods c !! e.1 = Some true) →
  ∃ c', foldl (λ r (e : string * bool), c ← r; cleanup1 now c e.1) (Some c) l = Some c' ∧ cache_inv c' ∧
    ∀ uid, ca_podStates c' !! uid =
      match ca_podStates c !! uid with
      | Some ps => if bool_decide (uid ∈ l.*1) && expired now ps then None else Some ps
      | None => None
      end.
Proof.
  revert c. induction l as [|[uid b] l IH]; intros c Hc Hr Hn Hnd Ha.
  { exists c. split_and!; [done|done|]. intros uid. by destruct (ca_podStates c !! uid). }
  rewrite fmap_cons in Hnd. apply NoDup_cons in Hnd as [Hnot Hnd]. cbn [fst] in Hnot.
  assert (ca_assumedPods c !! uid = Some true) as Eu by (apply (Ha (uid, b)); by left).
  pose proof Hc as (L & _ & Hp). destruct (pd_assumed _ Hp _ _ Eu) as (_ & ps & E & _).
  destruct (cleanup1_spec (Z.of_nat (length l) + n) c now uid ps Hc) as (c1 & E1 & Hc1 & Hr1 & Es & Eas);
    [destruct Hr; simpl in *; split; lia|lia|done|done|].
  cbn [foldl mbind option_bind fst]. rewrite E1.
  destruct (IH c1 Hc1 Hr1 Hn Hnd) as (c' & E2 & Hc' & Hs).
  { intros e He. rewrite Eas. specialize (Ha e (list_elem_of_further _ _ _ He)).
    destruct (expired now ps); [|done]. rewrite lookup_delete_ne; [done|]. intros ->. apply Hnot.
    by apply list_elem_of_fmap_2. }
  exists c'. split_and!; [done|done|]. intros uid'. rewrite Hs, Es, fmap_cons. cbn [fst].
  destruct (decide (uid' = uid)) as [->|Hne].
  - rewrite E, (bool_decide_true (uid ∈ uid :: _)), (bool_decide_false (uid ∈ l.*1)) by (done || by left).
    simpl. destruct (expired now ps); [by rewrite lookup_delete_eq|by rewrite E].
  - rewrite (bool_decide_ext (uid' ∈ uid :: l.*1) (uid' ∈ l.*1)) by set_solver.
    destruct (expired now ps); [by rewrite lookup_delete_ne|done].
Qed.

(** The number of assumed pods is bounded by the number of states. *)
Lemma assumed_size c : pods_inv c → (size (ca_assumedPods c) <= size (ca_podStates c))%nat.
Proof.
  intros Hp. rewrite <-!size_dom. apply subseteq_size. intros uid [b E]%elem_of_dom.
  destruct (pd_assumed _ Hp _ _ E) as (_ & ps & E' & _). apply elem_of_dom. eauto.
Qed.

Lemma cleanup_spec c now :
  cache_inv c → room (Z.of_nat (size (ca_podStates c))) c →
  ∃ c', cleanupAssumedPods c now = Some c' ∧ cache_inv c' ∧
    ∀ uid, ca_podStates c' !! uid =
      match ca_podStates c !! uid with
      | Some ps => if assumed c uid && expired now ps then None else Some ps
      | None => None
      end.
Proof.
  intros Hc Hr. pose proof Hc as (L & _ & Hp). pose proof (assumed_size c Hp) as Hsz.
  assert (length (range (ca_assumedPods c)) = size (ca_assumedPods c)) as Hlen
    by (by rewrite range_perm, length_map_to_list).
  destruct (range_to_map (ca_assumedPods c)) as [Hnd _].
  assert (∀ e, e ∈ range (ca_assumedPods c) ↔ ca_assumedPods c !! e.1 = Some e.2) as Hin.
  { intros [uid b]. rewrite range_perm. apply elem_of_map_to_list. }
  destruct (cleanup_loop now (range (ca_assumedPods c)) 0 c Hc) as (c' & E & Hc' & Hs); [|lia|done| |].
  { destruct Hr. split; lia. }
  { intros [uid b] He%Hin. destruct (pd_assumed _ Hp _ _ He) as [Eb _]. simpl in *. by rewrite He, Eb. }
  exists c'. split_and!; [done|done|]. intros uid. rewrite Hs.
  destruct (ca_podStates c !! uid) as [ps|]; [|done]. f_equal.
  assert (bool_decide (uid ∈ (range (ca_assumedPods c)).*1) = assumed c uid) as ->; [|done].
  unfold assumed. destruct (ca_assumedPods c !! uid) as [b|] eqn:E'; simpl.
  - destruct (pd_assumed _ Hp _ _ E') as [-> _]. apply bool_decide_true, list_elem_of_fmap.
    exists (uid, true). split; [done|]. by apply Hin.
  - apply bool_decide_false. intros ([uid' b] & -> & He%Hin)%list_elem_of_fmap. simpl in *. congruence.
Qed.

(** ** Nodes *)

(** The content of one item changes, but not its node, pods and generation, and the
    snapshot of its pool is older than it. *)
Lemma pool_all_info st st' p l x info info' :
  pool_all st p l → infos st !! x = Some info → infos st' = <[x := info']> (infos st) → ptrs st' = ptrs st →
  st_gen st' = st_gen st → ni_node info' = ni_node info → ni_pods info' = ni_pods info →
  ni_generation info' = ni_generation info → NodeInfo_inv info' →
  (x ∈ l → snap_Generation (pi_nodeInfoSnapshot p) < gen_of st x) → pool_all st' p l.
Proof.
  intros (Hp & Hf & Ht & Ha) Ei I P G En Ep Eg Hinv Hx.
  assert (∀ y, gen_of st' y = gen_of st y ∧ node_name st' y = node_name st y ∧ pods_of st' y = pods_of st y ∧
    (y ≠ x → infos st' !! y = infos st !! y)) as Hsame.
  { intros y. unfold gen_of, node_name, pods_of. rewrite I. destruct (decide (x = y)) as [<-|Hne].
    - rewrite lookup_insert_eq, Ei. simpl. by rewrite En, Ep, Eg.
    - by rewrite lookup_insert_ne. }
  split_and!; [| |done|].
  - split; [rewrite P; apply Hp|apply Hp|apply Hp|]. intros name y Ey.
    destruct (po_infos _ _ _ Hp name y Ey) as (info0 & E0 & Hinv0 & Hn0 & Hp0).
    destruct (decide (y = x)) as [->|Hne]; [|exists info0; by rewrite (proj2 (proj2 (proj2 (Hsame y))) Hne)].
    exists info'. rewrite E0 in Ei. injection Ei as ->. rewrite I, lookup_insert_eq, En, Ep. done.
  - destruct Hf as [Hs Hb Hsn He]. split.
    + eapply StronglySorted_weaken; [|exact Hs]. intros y z _ _. by rewrite !(proj1 (Hsame _)).
    + intros y Hy. rewrite (proj1 (Hsame y)), G. by apply Hb.
    + by rewrite G.
    + intros y s Hy. destruct (Hsame y) as (-> & -> & _ & Hi). intros Hg. rewrite Hi; [by apply He|].
      intros ->. specialize (Hx Hy). lia.
  - rewrite (all_pods_ext st st'); [done|]. intros y _. apply Hsame.
Qed.

Lemma images_inv c L k p x info images st' sum :
  pools_inv c L → ca_pools c !! k = Some p → x ∈ L k → infos (ca_store c) !! x = Some info → NodeInfo_inv info →
  snap_Generation (pi_nodeInfoSnapshot p) < gen_of (ca_store c) x →
  set_info (ca_store c) x (st_gen (ca_store c), SetImageStates info sum) = Some st' →
  pools_inv (set_images c images st') L ∧
  ∀ name q, on_node (set_images c images st') name q ↔ on_node c name q.
Proof.
  intros Hi Ek Hx Ei Hinv Hg Es. pose proof Hi as [Hdef Hpool Hitems Hnames].
  destruct (set_info_spec (ca_store c) x (st_gen (ca_store c), SetImageStates info sum)) as (st1 & E1 & G1 & I1 & P1);
    [by rewrite Ei|].
  rewrite Es in E1. injection E1 as <-. simpl in G1, I1. split.
  - split; simpl; [done| |done|done]. intros k' p' Ek'.
    eapply (pool_all_info (ca_store c) st' p' (L k') x info (SetImageStates info sum));
      [by apply Hpool|done|done|done|done|done|done|done|by eapply NodeInfo_inv_same|].
    intros Hx'. assert (k' = k) as -> by (by apply (Hitems k' k p' p x)). by simplify_eq.
  - intros name q. unfold on_node. simpl. assert (∀ y, pods_of st' y = pods_of (ca_store c) y) as Hpods.
    { intros y. unfold pods_of. rewrite I1. destruct (decide (x = y)) as [<-|];
        [by rewrite lookup_insert_eq, Ei|by rewrite lookup_insert_ne]. }
    by setoid_rewrite Hpods.
Qed.

Lemma matchPoolForNode_spec c L node :
  pools_inv c L → ∃ p, ca_pools c !! matchPoolForNode c (Some node) = Some p.
Proof.
  intros Hi. destruct (pv_default _ _ Hi) as [p0 E0]. unfold matchPoolForNode.
  destruct (filter _ _) as [|[k p] [|]] eqn:Ef; [by exists p0| |by exists p0].
  assert ((k, p) ∈ [(k, p)]) as Hin by (by left). rewrite <-Ef in Hin. apply list_elem_of_filter in Hin as [_ Hin].
  rewrite range_perm in Hin. apply elem_of_map_to_list in Hin. by exists p.
Qed.

(** The common part of [AddNode] and [UpdateNode]: the item of the node goes to the
    head with a new generation, whatever becomes of the pool's tree and resources. *)
Lemma SetNode_pools c L node k p :
  pools_inv c L → gen_room (ca_store c) → ca_pools c !! k = Some p →
  (∀ k' p', ca_pools c !! k' = Some p' → is_Some (pi_nodes p' !! node_Name node) → k' = k) →
  ∃ st1 x st2 info st3 L', let name := node_Name node in
    let p1 := set_nodes p (<[name := x]> (pi_nodes p)) (pi_headNode p) in
    let p2 := set_nodes p (<[name := x]> (pi_nodes p)) (Some x) in
    get_or_new_item (ca_store c) p name = (st1, p1, x) ∧ moveNodeInfoToHead st1 p1 name = Some (st2, p2) ∧
    get_info st2 x = Some info ∧ set_info st2 x (NodeInfo_SetNode (st_gen st2) info node) = Some st3 ∧
    ∀ nt cap al, tree_wf nt →
      let p' := set_tree p2 nt cap al in
      let c' := set_pools c (<[k := p']> (ca_pools c)) st3 in
      pools_inv c' L' ∧ (∀ name q, on_node c' name q ↔ on_node c name q) ∧ pi_nodes p' !! name = Some x ∧
      snap_Generation (pi_nodeInfoSnapshot p') < gen_of st3 x.
Proof.
  intros Hi Hg Ek Hone. pose proof (pv_pool _ _ Hi k p Ek) as (Hp & Hf & Ht & Ha).
  destruct (SetNode_touch (ca_store c) p (L k) node Hp Hf Hg)
    as (st1 & x & st2 & info & st3 & E1 & E2 & E3 & E4 & Hp' & Hf' & Ho & Hpods & _ & Hx & Hgen & Egen & Hptr).
  set (name := node_Name node) in *. set (p2 := set_nodes p (<[name := x]> (pi_nodes p)) (Some x)) in *.
  exists st1, x, st2, info, st3, (<[k := x :: without x (L k)]> L). cbv zeta. fold name p2.
  split_and!; [done..|]. intros nt cap al Hnt. set (p' := set_tree p2 nt cap al).
  assert (pools_inv (set_pools c (<[k := p']> (ca_pools c)) st3) (<[k := x :: without x (L k)]> L)) as Hi'.
  { eapply pools_step; [done|done| | |lia| |].
    - split_and!; [by eapply pool_ok_same|by eapply fresh_ok_same|done|].
      assert (acct_ok p (all_pods st3 (x :: without x (L k)))) as Ha'; [|done].
      apply (SetNode_pods (ca_store c)); [apply Hp|done..].
    - intros y Hy Hys. assert (y ≠ x) as Hyx.
      { intros ->. destruct Hx as [[_ ?]|(_ & _ & Hnone)]; [done|]. destruct Hys. congruence. }
      split; [|by apply Ho]. apply Hptr; [by apply ptrs_Some_infos|done|done].
    - intros y [->|[Hy _]%elem_of_without]%elem_of_cons; [|by left]. tauto.
    - intros name'. simpl. rewrite lookup_insert_is_Some'. intros [<-|?]; [|by left].
      destruct Hx as [[? _]|(Hnone & _)]; [by left; eexists|]. right. intros k' p0 E0.
      apply eq_None_not_Some. intros Hs. assert (k' = k) as -> by (by apply (Hone k' p0)).
      simplify_eq. rewrite Hnone in Hs. by destruct Hs. }
  split_and!; [done| |simpl; by rewrite lookup_insert_eq|simpl; rewrite Egen; pose proof (fr_snap _ _ _ Hf); lia].
  intros name' q. destruct (decide (name' = name)) as [->|Hne].
  + rewrite (on_node_here _ _ k p' _ _ Hi' (lookup_insert_eq _ _ _)) by (left; simpl; by rewrite lookup_insert_eq).
    simpl. rewrite lookup_insert_eq. destruct Hx as [[Ex Hxl]|(Ex & Hxl & _)].
    * rewrite (on_node_here c L k p), Ex by (done || left; by rewrite Ex).
      rewrite bool_decide_true in Hpods by done.
      split; intros (y & [= <-] & Hq); exists x; (split; [done|]); [by rewrite <-Hpods|by rewrite Hpods].
    * rewrite bool_decide_false in Hpods by done. split.
      -- intros (y & [= <-] & Hq). rewrite Hpods in Hq. by apply not_elem_of_nil in Hq.
      -- intros (k0 & p0 & y & E0 & Ey & _). assert (k0 = k) as -> by (apply (Hone k0 p0); [done|by rewrite Ey]).
         simplify_eq.
  + apply (on_node_other c L k p p' st3 x name); [done|done|tauto|done| |done].
    intros n' Hn'. simpl. by rewrite lookup_insert_ne.
Qed.

(** An operation of a pool that keeps the pods of every node. *)
Definition keeps_pods c k p node (r : comp (Store * PoolInfo)) : Prop :=
  ∃ st' p' L' x, r = Some (st', p') ∧
    let c' := set_pools c (<[k := p']> (ca_pools c)) st' in
    pools_inv c' L' ∧ (∀ name q, on_node c' name q ↔ on_node c name q) ∧ pi_nodes p' !! node_Name node = Some x ∧
    snap_Generation (pi_nodeInfoSnapshot p') < gen_of st' x.

Lemma AddNode_pools c L node k p :
  pools_inv c L → gen_room (ca_store c) → ca_pools c !! k = Some p →
  (∀ k' p', ca_pools c !! k' = Some p' → is_Some (pi_nodes p' !! node_Name node) → k' = k) →
  keeps_pods c k p node (PoolInfo_AddNode (ca_store c) p node).
Proof.
  intros Hi Hg Ek Hone. pose proof (pv_pool _ _ Hi k p Ek) as (_ & _ & Ht & _).
  destruct (SetNode_pools c L node k p Hi Hg Ek Hone) as (st1 & x & st2 & info & st3 & L' & E1 & E2 & E3 & E4 & Hall).
  eexists st3, _, L', x. unfold PoolInfo_AddNode. rewrite E1. cbn [mbind option_bind]. rewrite E2. cbn [mbind option_bind].
  rewrite E3. cbn [mbind option_bind]. rewrite E4. cbn [mbind option_bind]. split; [done|].
  apply Hall. by apply addNode_spec.
Qed.

Lemma UpdateNode_pools c L old node k p :
  pools_inv c L → (old = None → GetZoneKey node = EmptyString) → gen_room (ca_store c) → ca_pools c !! k = Some p →
  (∀ k' p', ca_pools c !! k' = Some p' → is_Some (pi_nodes p' !! node_Name node) → k' = k) →
  keeps_pods c k p node (PoolInfo_UpdateNode (ca_store c) p old node).
Proof.
  intros Hi Hz Hg Ek Hone. pose proof (pv_pool _ _ Hi k p Ek) as (_ & _ & Ht & _).
  destruct (SetNode_pools c L node k p Hi Hg Ek Hone) as (st1 & x & st2 & info & st3 & L' & E1 & E2 & E3 & E4 & Hall).
  destruct (UpdateNode_tree (pi_nodeTree p) old node Ht Hz) as (nt & Ent & Hnt).
  unfold PoolInfo_UpdateNode. rewrite E1, E2. cbn [mbind option_bind pi_nodeTree set_nodes].
  rewrite Ent. cbn [mbind option_bind].
  destruct old as [old|]; (rewrite E3; cbn [mbind option_bind]; rewrite E4; eexists st3, _, L', x; split; [done|];
    by apply Hall).
Qed.

Lemma pods_inv_same c c' :
  pods_inv c → ca_podStates c' = ca_podStates c → ca_assumedPods c' = ca_assumedPods c →
  (∀ name q, on_node c' name q ↔ on_node c name q) → pods_inv c'.
Proof.
  intros [Hn Hs Ha] E1 E2 Hon. split; rewrite ?E1, ?E2.
  - intros name q Hq%Hon. by apply Hn in Hq.
  - intros uid ps E. setoid_rewrite Hon. by apply Hs.
  - by apply Ha.
Qed.

(** The books of images are not looked at. *)
Lemma removeImages_same c node :
  let c' := removeNodeImageStates c node in
  ca_pools c' = ca_pools c ∧ ca_store c' = ca_store c ∧ ca_podStates c' = ca_podStates c ∧
  ca_assumedPods c' = ca_assumedPods c.
Proof. by destruct node. Qed.

(** The images of a node are recorded at the end of [AddNode] and [UpdateNode]. *)
Lemma addImages_inv c c0 L k p st x node :
  pools_inv (set_pools c0 (<[k := p]> (ca_pools c)) st) L → pi_nodes p !! node_Name node = Some x →
  snap_Generation (pi_nodeInfoSnapshot p) < gen_of st x → pods_inv c →
  ca_podStates c0 = ca_podStates c → ca_assumedPods c0 = ca_assumedPods c →
  (∀ name q, on_node (set_pools c0 (<[k := p]> (ca_pools c)) st) name q ↔ on_node c name q) →
  ∃ c', (c' ← addNodeImageStates (set_pools c0 (<[k := p]> (ca_pools c)) st) node x; Some (c', None)) =
    Some (c', None : option error) ∧ cache_inv c'.
Proof.
  intros Hi Ex Hsnap Hp E3 E4 Hon. set (c1 := set_pools c0 (<[k := p]> (ca_pools c)) st) in *.
  destruct (pv_pool _ _ Hi k p) as (Hp' & _); [simpl; by rewrite lookup_insert_eq|].
  destruct (po_infos _ _ _ Hp' _ _ Ex) as (info & Ei & Hinv & _). unfold addNodeImageStates.
  destruct (foldl _ _ (Images node)) as [images sum]. rewrite get_info_infos, Ei. cbn [mbind option_bind].
  destruct (set_info_spec (ca_store c1) x (st_gen (ca_store c1), SetImageStates info sum)) as (st2 & Es & _);
    [by rewrite Ei|].
  rewrite Es. cbn [mbind option_bind]. eexists. split; [done|]. exists L.
  destruct (images_inv c1 L k p x info images st2 sum Hi) as [Hi2 Hon2]; try done.
  { simpl. by rewrite lookup_insert_eq. }
  { apply (po_in _ _ _ _ Hp'). eauto. }
  split; [done|]. eapply (pods_inv_same c); [done|done|done|].
  intros name q. by rewrite Hon2, Hon.
Qed.

Lemma Cache_AddNode_inv c node :
  cache_inv c → room 0 c →
  (∀ k p, ca_pools c !! k = Some p → is_Some (pi_nodes p !! node_Name node) → k = matchPoolForNode c (Some node)) →
  ∃ c', Cache_AddNode c node = Some (c', None) ∧ cache_inv c'.
Proof.
  intros (L & Hi & Hp) Hr Hone. unfold Cache_AddNode. set (k := matchPoolForNode c (Some node)) in *.
  destruct (matchPoolForNode_spec c L node Hi) as (p & Ek). fold k in Ek. rewrite Ek. cbn [mbind option_bind].
  set (c0 := match ContainsNode p (node_Name node) with Some _ => _ | None => c end).
  assert (ca_pools c0 = ca_pools c ∧ ca_store c0 = ca_store c ∧ ca_podStates c0 = ca_podStates c ∧
    ca_assumedPods c0 = ca_assumedPods c) as (E1 & E2 & E3 & E4).
  { unfold c0. destruct (ContainsNode p (node_Name node)); [apply removeImages_same|done]. }
  assert (pools_inv c0 L) as Hi0 by (by eapply pools_inv_same).
  destruct (AddNode_pools c0 L node k p Hi0) as (st' & p' & L' & x & Ea & Hi' & Hon & Ex & Hsnap).
  { rewrite E2. by apply (room_gen 0). }
  { by rewrite E1. }
  { rewrite E1. done. }
  unfold on_pool_, on_pool. rewrite E1, Ek. cbn [mbind option_bind]. rewrite Ea. simpl.
  rewrite lookup_insert_eq. simpl. unfold PoolInfo_Nodes. rewrite Ex. simpl. rewrite E1 in *.
  eapply addImages_inv; [done|done|done|done|done|done|]. intros name q. rewrite Hon. by apply on_node_same.
Qed.

(** An update that leaves the node in its pool. *)
Lemma Cache_UpdateNode_inv c old node :
  cache_inv c → room 0 c → (old = None → GetZoneKey node = EmptyString) →
  matchPoolForNode c old = matchPoolForNode c (Some node) →
  (∀ k p, ca_pools c !! k = Some p → is_Some (pi_nodes p !! node_Name node) → k = matchPoolForNode c (Some node)) →
  ∃ c', Cache_UpdateNode c old node = Some (c', None) ∧ cache_inv c'.
Proof.
  intros (L & Hi & Hp) Hr Hz Hsame Hone. unfold Cache_UpdateNode. rewrite Hsame, bool_decide_true by done.
  set (k := matchPoolForNode c (Some node)) in *.
  destruct (matchPoolForNode_spec c L node Hi) as (p & Ek). fold k in Ek. rewrite Ek. cbn [mbind option_bind].
  assert (∃ c0, match ContainsNode p (node_Name node) with Some l => item_removeImages c l | None => Some c end = Some c0 ∧
    ca_pools c0 = ca_pools c ∧ ca_store c0 = ca_store c ∧ ca_podStates c0 = ca_podStates c ∧
    ca_assumedPods c0 = ca_assumedPods c) as (c0 & -> & E1 & E2 & E3 & E4).
  { destruct (ContainsNode p (node_Name node)) as [l|] eqn:El; [|by exists c].
    unfold ContainsNode in El. case_bool_decide; [done|].
    destruct (pv_pool _ _ Hi k p Ek) as (Hpo & _). destruct (po_infos _ _ _ Hpo _ _ El) as (info & Ei & _).
    unfold item_removeImages. rewrite get_info_infos, Ei. cbn [mbind option_bind]. eexists. split; [done|].
    apply removeImages_same. }
  assert (pools_inv c0 L) as Hi0 by (by eapply pools_inv_same). cbn [mbind option_bind].
  destruct (UpdateNode_pools c0 L old node k p Hi0 Hz) as (st' & p' & L' & x & Ea & Hi' & Hon & Ex & Hsnap).
  { rewrite E2. by apply (room_gen 0). }
  { by rewrite E1. }
  { rewrite E1. done. }
  unfold on_pool_, on_pool. rewrite E1, Ek. cbn [mbind option_bind]. rewrite Ea. simpl.
  rewrite lookup_insert_eq. simpl. unfold PoolInfo_Nodes. rewrite Ex. simpl. rewrite E1 in *.
  eapply addImages_inv; [done|done|done|done|done|done|]. intros name q. rewrite Hon. by apply on_node_same.
Qed.

Lemma Cache_RemoveNode_inv c node :
  cache_inv c → room 0 c → ∃ c' e, Cache_RemoveNode c node = Some (c', e) ∧ cache_inv c'.
Proof.
  intros (L & Hi & Hp) Hr. unfold Cache_RemoveNode. set (k := matchPoolForNode c (Some node)) in *.
  destruct (matchPoolForNode_spec c L node Hi) as (p & Ek). fold k in Ek. unfold on_pool. rewrite Ek.
  cbn [mbind option_bind]. pose proof (pv_pool _ _ Hi k p Ek) as (Hpo & Hf & Ht & Ha).
  unfold PoolInfo_RemoveNode. destruct (pi_nodes p !! node_Name node) as [x|] eqn:Ex.
  2:{ cbn [mbind option_bind]. rewrite insert_id by done. eexists _, _. split; [done|]. exists L.
      split; [by eapply pools_inv_same|]. by eapply pods_inv_same. }
  destruct (RemoveNode_touch (ca_store c) p (L k) node x Hpo Hf (room_gen 0 c ltac:(lia) Hr) Ex)
    as (info & st1 & st2 & p2 & l' & Hall).
  destruct (NodeInfo_RemoveNode (st_gen (ca_store c)) info) as [g info'] eqn:Er.
  destruct Hall as (E1 & E2 & E3 & Ep & Hp' & Hf' & Ho & Hpods & G & Hcase & Hptr).
  rewrite E1. cbn [mbind option_bind]. rewrite Er, E2. cbn [mbind option_bind]. rewrite E3. cbn [mbind option_bind].
  assert (pi_nodeTree p2 = pi_nodeTree p) as Etree by (by rewrite Ep). rewrite Etree.
  destruct (removeNode_spec (pi_nodeTree p) node Ht) as (nt & e & Ent & Hnt & _). unfold NodeTree_RemoveNode.
  rewrite Ent. cbn [mbind option_bind]. set (p' := set_tree p2 nt _ _).
  set (c1 := set_pools c (<[k := p']> (ca_pools c)) st2).
  assert (x ∈ L k) as Hxl by (apply (po_in _ _ _ _ Hpo); eauto).
  assert (∀ n', n' ≠ node_Name node → pi_nodes p' !! n' = pi_nodes p !! n') as Hnodes.
  { intros n' Hn'. simpl. destruct Hcase as [[_ ->]|(_ & -> & _)]; [done|]. by rewrite lookup_delete_ne. }
  assert (pools_inv c1 (<[k := l']> L)) as Hi'.
  { eapply pools_step; [done|done| | |lia| |].
    - split_and!; [by eapply pool_ok_same|by eapply fresh_ok_same|done|].
      assert (acct_ok p2 (all_pods (ca_store c) (L k))) as Ha1 by (rewrite Ep; done).
      assert (acct_ok p2 (all_pods st2 l')) as Ha2; [|done]. eapply acct_perm; [done|].
      rewrite (all_pods_touch (ca_store c) st2 (L k) x), bool_decide_true by (done || apply Hpo).
      destruct Hcase as [[-> _]|(-> & _ & Ee)]; [unfold all_pods; by rewrite bind_cons, Hpods|]. by rewrite Ee.
    - intros y Hy Hys. split; [by apply Hptr|]. apply Ho. by intros ->.
    - intros y Hy. left. destruct Hcase as [[-> _]|(-> & _)].
      + apply elem_of_cons in Hy as [->|Hy]; [done|]. by apply elem_of_without in Hy as [? _].
      + by apply elem_of_without in Hy as [? _].
    - intros n' Hs. left. destruct (decide (n' = node_Name node)) as [->|Hne]; [by rewrite Ex|].
      by rewrite <-Hnodes. }
  eexists _, _. split; [done|]. exists (<[k := l']> L).
  destruct (removeImages_same c1 (Some node)) as (F1 & F2 & F3 & F4).
  split; [by eapply pools_inv_same|]. eapply (pods_inv_same c); [done|done|done|]. intros name q.
  rewrite (on_node_same c1) by done. destruct (decide (name = node_Name node)) as [->|Hne].
  2:{ apply (on_node_other c L k p p' st2 x (node_Name node)); auto. }
  rewrite (on_node_here c L k p), Ex by (done || left; by rewrite Ex). destruct Hcase as [[_ En]|(_ & En & Ee)].
  - assert (pi_nodes p' !! node_Name node = Some x) as Ex' by (simpl; by rewrite En).
    rewrite (on_node_here c1 _ k p' _ q Hi' (lookup_insert_eq _ _ _)) by (left; by rewrite Ex').
    rewrite Ex'. split; intros (y & [= <-] & Hq); exists x; (split; [done|]); [by rewrite <-Hpods|].
    simpl. by rewrite Hpods.
  - split.
    + intros (k0 & p0 & y & E0 & Ey & Hq). simpl in E0. rewrite lookup_insert in E0. case_decide as Hk.
      * injection E0 as <-. change (pi_nodes p2 !! node_Name node = Some y) in Ey.
        by rewrite En, lookup_delete_eq in Ey.
      * destruct Hk. by apply (pv_names _ _ Hi k k0 p p0 (node_Name node) x y).
    + intros (y & [= <-] & Hq). rewrite Ee in Hq. by apply not_elem_of_nil in Hq.
Qed.

(** ** New pools *)

Lemma NewPool_all st o :
  0 <= st_gen st →
  pool_all st (MkPoolInfo o ∅ None (newNodeTree []) emptyResource emptyResource emptyResource emptyResource
    NewNodeInfoSnapshot) [].
Proof.
  intros Hg. split_and!.
  - split; [apply dll_nil|done|done|]. intros name x. simpl. by rewrite lookup_empty.
  - split; [constructor| |done|]; intros x; [|intros s]; by intros ?%not_elem_of_nil.
  - apply newNodeTree_set.
  - split_and!; try done; apply emptyResource_int64.
Qed.

Lemma newSchedulerCache_pools ttl period st k p :
  ca_pools (newSchedulerCache ttl period st) !! k = Some p → k = DefaultPoolName ∧ p = NewPoolInfo.
Proof. unfold newSchedulerCache. cbn [ca_pools]. by intros [<- <-]%lookup_singleton_Some. Qed.

Lemma newSchedulerCache_inv ttl period st : 0 <= st_gen st → cache_inv (newSchedulerCache ttl period st).
Proof.
  intros Hg. exists (λ _, []). split.
  - split.
    + eexists. unfold newSchedulerCache. cbn [ca_pools]. by apply lookup_singleton_eq.
    + intros k p [-> ->]%newSchedulerCache_pools. by apply NewPool_all.
    + intros k k' p p' x _ _. by intros ?%not_elem_of_nil.
    + intros k k' p p' name x x' [-> ->]%newSchedulerCache_pools [-> ->]%newSchedulerCache_pools. done.
  - split.
    + intros name q (k & p & x & [-> ->]%newSchedulerCache_pools & Ex & _). change ((∅ : gmap string loc) !! name = Some x) in Ex.
      by rewrite lookup_empty in Ex.
    + intros uid ps E. change ((∅ : gmap string podState) !! uid = Some ps) in E. by rewrite lookup_empty in E.
    + intros uid b E. change ((∅ : gmap string bool) !! uid = Some b) in E. by rewrite lookup_empty in E.
Qed.

Lemma range_empty {A} : range (∅ : gmap string A) = [].
Proof. apply Permutation_nil_r. by rewrite range_perm, map_to_list_empty. Qed.

(** With no node in the cache, a new pool is just added. *)
Lemma AddPool_inv c pool :
  cache_inv c → room 0 c → pool_Name pool ≠ DefaultPoolName → ca_pools c !! pool_Name pool = None →
  (∀ k p, ca_pools c !! k = Some p → pi_nodes p = ∅) →
  ∃ c', Cache_AddPool c pool = Some (c', None) ∧ cache_inv c' ∧
    ca_pools c' = <[pool_Name pool := PoolInfo_SetPool NewPoolInfo pool]> (ca_pools c).
Proof.
  intros (L & Hi & Hp) Hr Hn Hnew Hempty. unfold Cache_AddPool. rewrite bool_decide_false by done.
  unfold SetPool_at, with_pool. rewrite Hnew. simpl. rewrite lookup_insert_eq. simpl. rewrite insert_insert_eq.
  set (k0 := pool_Name pool) in *. set (p0 := PoolInfo_SetPool NewPoolInfo pool).
  set (c1 := set_pools _ (<[k0 := p0]> (ca_pools c)) _).
  assert (ca_pools c1 = <[k0 := p0]> (ca_pools c)) as E1 by done.
  assert (∀ k p, ca_pools c1 !! k = Some p → pi_nodes p = ∅) as Hempty1.
  { intros k p. rewrite E1. intros [[<- <-]|[_ E]]%lookup_insert_Some; [done|by apply (Hempty k)]. }
  assert (moveAllNodeInfosFromMatchedPoolsTo c1 k0 = Some c1) as ->.
  { unfold moveAllNodeInfosFromMatchedPoolsTo. destruct (pv_default _ _ Hi) as [df Edf].
    assert (ca_pools c1 !! defaultPool = Some df) as Edf1 by (rewrite E1, lookup_insert_ne; done).
    rewrite Edf1. cbn [mbind option_bind]. 
    assert (range (PoolInfo_Nodes df) = []) as -> by (unfold PoolInfo_Nodes; by rewrite (Hempty1 _ _ Edf1), range_empty).
    cbn [foldl mbind option_bind].
    assert (∀ l, (∀ e, e ∈ l → ca_pools c1 !! e.1 = Some e.2) →
      foldl (λ r (k : string * PoolInfo), c ← r; pi ← ca_pools c !! k.1;
        if IsDefaultPool pi || bool_decide (k.1 = k0) then Some c
        else foldl (λ r e, c ← r; info ← get_info (ca_store c) e.2; self ← ca_pools c !! k0;
          if MatchNode self (ni_node info) then move_item c k.1 defaultPool e.2 else Some c)
          (Some c) (range (PoolInfo_Nodes pi))) (Some c1) l = Some c1) as Hl.
    { induction l as [|[k p] l IH]; intros Hl; [done|]. pose proof (Hl (k, p) (list_elem_of_here _ _)) as Ek.
      cbn [foldl mbind option_bind fst]. change (ca_pools c1 !! k = Some p) in Ek. rewrite Ek. cbn [mbind option_bind].
      assert (range (PoolInfo_Nodes p) = []) as -> by (unfold PoolInfo_Nodes; by rewrite (Hempty1 _ _ Ek), range_empty).
      assert (∀ e, e ∈ l → ca_pools c1 !! e.1 = Some e.2) as Hl' by (intros e ?; apply Hl; by right).
      destruct (IsDefaultPool p || bool_decide (k = k0)); by apply IH. }
    apply Hl. intros [k p]. rewrite range_perm. apply elem_of_map_to_list. }
  cbn [mbind option_bind]. exists c1. split; [done|]. split; [|done]. exists (<[k0 := []]> L). split.
  - pose proof Hi as [Hdef Hpool Hitems Hnames]. split; rewrite ?E1.
    + by rewrite lookup_insert_ne.
    + intros k p. rewrite lookup_insert. case_decide as Hk.
      * intros [= <-]. subst k. rewrite fn_lookup_insert. apply NewPool_all. apply Hr.
      * intros E. rewrite fn_lookup_insert_ne by done. by apply Hpool.
    + intros k k' p p' x. rewrite !lookup_insert.
      destruct (decide (k0 = k)) as [<-|], (decide (k0 = k')) as [<-|]; simpl; intros E E';
        rewrite ?fn_lookup_insert, ?fn_lookup_insert_ne by done; try done; try by intros ?%not_elem_of_nil.
      * intros _. by intros ?%not_elem_of_nil.
      * by apply (Hitems k k' p p').
    + intros k k' p p' name x x' Ek Ek' Ex. rewrite <-E1 in Ek. by rewrite (Hempty1 _ _ Ek), lookup_empty in Ex.
  - eapply (pods_inv_same c); [done|done|done|]. intros name q. split; intros (k & p & x & Ek & Ex & _).
    + by rewrite (Hempty1 _ _ Ek), lookup_empty in Ex.
    + by rewrite (Hempty _ _ Ek), lookup_empty in Ex.
Qed.

(** ** Runs *)

Inductive cache_op :=
| CAssume (pod : Pod)
| CFinish (pod : Pod) (now : Time)
| CForget (pod : Pod)
| CAdd (pod : Pod)
| CUpdate (old new : Pod)
| CRemove (pod : Pod)
| CExpire (now : Time)
| CAddNode (node : Node)
| CUpdateNode (old : option Node) (new : Node)
| CRemoveNode (node : Node)
| CAddPool (pool : Pool).

Definition cache_exec c (op : cache_op) : comp (schedulerCache * option error) :=
  match op with
  | CAssume pod => AssumePod c pod
  | CFinish pod now => Some (finishBinding c pod now)
  | CForget pod => ForgetPod c pod
  | CAdd pod => Cache_AddPod c pod
  | CUpdate old new => Cache_UpdatePod c old new
  | CRemove pod => Cache_RemovePod c pod
  | CExpire now => c ← cleanupAssumedPods c now; Some (c, None)
  | CAddNode node => Cache_AddNode c node
  | CUpdateNode old new => Cache_UpdateNode c old new
  | CRemoveNode node => Cache_RemoveNode c node
  | CAddPool pool => Cache_AddPool c pool
  end.

(** The caller knows the pod of the cache up to what the books look at. *)
Definition same_version c pod : Prop :=
  ∀ ps, ca_podStates c !! pod_UID pod = Some ps → assumed c (pod_UID pod) = true →
    pod_NodeName (ps_pod ps) = pod_NodeName pod → sim pod (ps_pod ps).

(** No other pool has a node of that name. *)
Definition in_place c node : Prop :=
  map_Forall (λ k p, is_Some (pi_nodes p !! node_Name node) → k = matchPoolForNode c (Some node)) (ca_pools c).

(** What the informers and the scheduler guarantee of a call: a pod that is assumed or
    added has a node; an update or a removal is of the version of the pod that
    the cache has; a node is added or updated in the pool it is in, and a pool
    arrives before the nodes; and the generation counter is not at its end. *)
Definition cache_legal c (op : cache_op) : Prop :=
  room (Z.of_nat (size (ca_podStates c))) c ∧
  match op with
  | CAssume pod => pod_NodeName pod ≠ EmptyString
  | CForget pod => same_version c pod
  | CAdd pod => pod_NodeName pod ≠ EmptyString ∧ same_version c pod
  | CUpdate old new => ∀ ps, ca_podStates c !! pod_UID old = Some ps → assumed c (pod_UID old) = false →
      sim old (ps_pod ps) ∧ pod_UID new = pod_UID old ∧ pod_NodeName new = pod_NodeName (ps_pod ps)
  | CRemove pod => ∀ ps, ca_podStates c !! pod_UID pod = Some ps → assumed c (pod_UID pod) = false →
      pod_NodeName pod = pod_NodeName (ps_pod ps)
  | CAddNode node => in_place c node
  | CUpdateNode old new => in_place c new ∧ (old = None → GetZoneKey new = EmptyString) ∧
      matchPoolForNode c old = matchPoolForNode c (Some new)
  | CAddPool pool => pool_Name pool ≠ DefaultPoolName ∧ ca_pools c !! pool_Name pool = None ∧
      map_Forall (λ _ p, pi_nodes p = ∅) (ca_pools c)
  | _ => True
  end.

Inductive cache_run : schedulerCache → list cache_op → schedulerCache → Prop :=
| cache_run_nil c : cache_run c [] c
| cache_run_cons c op c1 e ops c2 :
    cache_legal c op → cache_exec c op = Some (c1, e) → cache_run c1 ops c2 → cache_run c (op :: ops) c2.

Lemma cache_exec_inv c op :
  cache_inv c → cache_legal c op → ∃ c' e, cache_exec c op = Some (c', e) ∧ cache_inv c'.
Proof.
  intros Hc (Hr & Hl). assert (room 0 c) as Hr0 by (destruct Hr; split; lia).
  destruct op as [pod|pod now|pod|pod|old new|pod|now|node|old node|node|pool]; simpl.
  - destruct (AssumePod_inv c pod Hc Hr0 Hl) as (c' & e & -> & ? & _). eauto.
  - pose proof (finishBinding_inv c pod now Hc). destruct (finishBinding c pod now) as [c' e]. eauto.
  - destruct (ForgetPod_inv c pod Hc Hr0 Hl) as (c' & e & -> & ? & _). eauto.
  - destruct Hl as [Hn Hv]. destruct (Cache_AddPod_inv c pod Hc Hr0 Hn Hv) as (c' & e & -> & ?). eauto.
  - destruct (Cache_UpdatePod_inv c old new Hc Hr0 Hl) as (c' & e & -> & ?). eauto.
  - destruct (Cache_RemovePod_inv c pod Hc Hr0 Hl) as (c' & e & -> & ? & _). eauto.
  - destruct (cleanup_spec c now Hc Hr) as (c' & -> & ? & _). simpl. eauto.
  - destruct (Cache_AddNode_inv c node Hc Hr0 Hl) as (c' & -> & ?). eauto.
  - destruct Hl as (H1 & H2 & H3). destruct (Cache_UpdateNode_inv c old node Hc Hr0 H2 H3 H1) as (c' & -> & ?). eauto.
  - destruct (Cache_RemoveNode_inv c node Hc Hr0) as (c' & e & -> & ?). eauto.
  - destruct Hl as (H1 & H2 & H3). destruct (AddPool_inv c pool Hc Hr0 H1 H2 H3) as (c' & -> & ? & _). eauto.
Qed.

Lemma cache_run_inv c ops c' : cache_run c ops c' → cache_inv c → cache_inv c'.
Proof.
  induction 1 as [|c op c1 e ops c2 Hl E _ IH]; [done|]. intros Hi. apply IH.
  destruct (cache_exec_inv c op Hi Hl) as (? & ? & E' & ?). congruence.
Qed.

(** The cache the scheduler starts with, after some operations. *)
Definition reached (c : schedulerCache) : Prop :=
  ∃ ttl period st ops, 0 <= st_gen st ∧ cache_run (newSchedulerCache ttl period st) ops c.

Lemma reached_inv c : reached c → cache_inv c.
Proof. intros (ttl & period & st & ops & Hg & Hrun). eapply cache_run_inv; [done|]. by apply newSchedulerCache_inv. Qed.

Lemma NoDup_fmap_elem {A B} (f : A → B) (l : list A) x y :
  NoDup (f <$> l) → x ∈ l → y ∈ l → f x = f y → x = y.
Proof.
  intros Hnd [i Ei]%list_elem_of_lookup [j Ej]%list_elem_of_lookup E.
  assert (i = j) as ->; [|congruence]. eapply (NoDup_lookup _ _ _ (f x)); [done|..]; rewrite list_lookup_fmap.
  - by rewrite Ei.
  - by rewrite Ej, E.
Qed.

Lemma on_node_unique c L name name' q q' :
  pools_inv c L → pods_inv c → on_node c name q → on_node c name' q' → pod_UID q = pod_UID q' → name = name' ∧ q = q'.
Proof.
  intros Hi Hp Hq Hq' Eu. destruct (pd_node _ Hp _ _ Hq) as (ps & E & Hs). destruct (pd_node _ Hp _ _ Hq') as (ps' & E' & Hs').
  rewrite Eu, E' in E. injection E as <-.
  assert (name = name') as <-.
  { rewrite <-(on_node_name _ _ _ _ Hi Hq), <-(on_node_name _ _ _ _ Hi Hq'). apply sim_NodeName in Hs, Hs'. congruence. }
  split; [done|]. destruct Hq as (k & p & x & Ek & Ex & Hq). apply (on_node_here c L k p) in Hq'; [|done|done|left; by rewrite Ex].
  destruct Hq' as (y & Ey & Hq'). rewrite Ex in Ey. injection Ey as <-.
  destruct (pv_pool _ _ Hi k p Ek) as (Hpo & _). destruct (po_infos _ _ _ Hpo name x Ex) as (info & Ei & Hinv & _).
  unfold pods_of in Hq, Hq'. rewrite Ei in Hq, Hq'. simpl in Hq, Hq'.
  eapply NoDup_fmap_elem; [apply Hinv|done|done|done].
Qed.

(** C4: the cache loses no pod and invents none: after any sequence of legal operations
    from the start (assume, finish binding, forget, the informer's add, update
    and remove, expiry, nodes and pools) the pods on the nodes of all pools are exactly
    those with a pod state, each on the one node its specification names and on
    no other; every assumed pod has a state; and every further legal operation
    returns without a panic. *)
Theorem cache_pods_exact c :
  reached c →
  (∀ name q, on_node c name q → pod_NodeName q = name ∧ ∃ ps, ca_podStates c !! pod_UID q = Some ps ∧ sim (ps_pod ps) q) ∧
  (∀ uid ps, ca_podStates c !! uid = Some ps →
    ∃ q, pod_UID q = uid ∧ on_node c (pod_NodeName (ps_pod ps)) q ∧ sim (ps_pod ps) q) ∧
  (∀ name name' q q', on_node c name q → on_node c name' q' → pod_UID q = pod_UID q' → name = name' ∧ q = q') ∧
  (∀ uid, assumed c uid = true → is_Some (ca_podStates c !! uid)) ∧
  ∀ op, cache_legal c op → is_Some (cache_exec c op).
Proof.
  intros Hc%reached_inv. pose proof Hc as (L & Hi & Hp). split_and!.
  - intros name q Hq. split; [by eapply on_node_name|by eapply pd_node].
  - intros uid ps E. destruct (pd_state _ Hp _ _ E) as (Eu & _ & _ & q & Hq & Hs). exists q. split_and!; [|done|done].
    destruct Hs as (_ & Es & _). congruence.
  - intros name name' q q'. by apply (on_node_unique c L).
  - intros uid Ea%assumed_true. destruct (pd_assumed _ Hp _ _ Ea) as (_ & ps & -> & _). done.
  - intros op Hl. destruct (cache_exec_inv c op Hc Hl) as (? & ? & -> & _). done.
Qed.

(** C33: the expiry of assumed pods is exact: a pass at time [now] returns, and
    removes a pod exactly if it is assumed, its binding has finished and its
    deadline has passed; the removed pods are on no node any more and every
    other pod is still on its node. *)
Theorem cache_expiry_exact c now :
  reached c → room (Z.of_nat (size (ca_podStates c))) c →
  ∃ c', cleanupAssumedPods c now = Some c' ∧
    let gone uid := match ca_podStates c !! uid with Some ps => assumed c uid && expired now ps | None => false end in
    (∀ uid, ca_podStates c' !! uid = if gone uid then None else ca_podStates c !! uid) ∧
    (∀ name q, on_node c' name q → gone (pod_UID q) = false) ∧
    (∀ uid ps, ca_podStates c !! uid = Some ps → gone uid = false →
      ∃ q, on_node c' (pod_NodeName (ps_pod ps)) q ∧ sim (ps_pod ps) q).
Proof.
  intros Hc%reached_inv Hr. destruct (cleanup_spec c now Hc Hr) as (c' & E & (L & Hi & Hp) & Hs).
  exists c'. split; [done|]. cbv zeta. split_and!.
  - intros uid. rewrite Hs. destruct (ca_podStates c !! uid) as [ps|]; [|done]. by destruct (assumed c uid && _).
  - intros name q Hq. destruct (pd_node _ Hp _ _ Hq) as (ps & Eq & _). rewrite Hs in Eq.
    destruct (ca_podStates c !! pod_UID q) as [ps'|]; [|done]. by destruct (assumed c _ && _).
  - intros uid ps Eu Hg. rewrite Eu in Hg. destruct (pd_state _ Hp uid ps) as (_ & _ & _ & q & Hq & Hsq);
      [by rewrite Hs, Eu, Hg|]. by exists q.
Qed.

(** C34: forgetting an assumed pod undoes assuming it: both succeed, the pod states
    and the assumed pods are those from before, and so is the placement of all pods. *)
Theorem assume_forget_roundtrip c pod :
  reached c → room 2 c → pod_UID pod ≠ EmptyString → pod_NodeName pod ≠ EmptyString →
  ca_podStates c !! pod_UID pod = None →
  ∃ c1 c2, AssumePod c pod = Some (c1, None) ∧ on_node c1 (pod_NodeName pod) pod ∧
    ForgetPod c1 pod = Some (c2, None) ∧
    ca_podStates c2 = ca_podStates c ∧ ca_assumedPods c2 = ca_assumedPods c ∧
    ∀ name q, on_node c2 name q ↔ on_node c name q.
Proof.
  intros Hc%reached_inv Hr Hu Hn Hnew. pose proof Hc as (L0 & _ & Hp0).
  assert (room 0 c) as Hr0 by (destruct Hr; split; lia).
  assert (ca_assumedPods c !! pod_UID pod = None) as Ea.
  { destruct (ca_assumedPods c !! pod_UID pod) as [b|] eqn:E; [|done].
    destruct (pd_assumed _ Hp0 _ _ E) as (_ & ps & E' & _). congruence. }
  destruct (AssumePod_inv c pod Hc Hr0 Hn) as (c1 & e & E1 & (L & Hi & Hp) & Hres).
  destruct (Hres Hu Hnew) as (-> & Has & q & Hq & ->). exists c1. clear Hres.
  pose proof E1 as E1'. unfold AssumePod in E1. rewrite GetPodKey_ok, Hnew in E1 by done.
  destruct Hc as (L0' & Hi0 & _).
  destruct (addPod_spec c L0' pod Hi0 (room_gen 0 c ltac:(lia) Hr0) Hu Hn) as (pools & st & L' & E & _ & G & Hon).
  { intros r Hr' Er. destruct (pd_node _ Hp0 _ _ Hr') as (ps & E & _). rewrite Er in E. congruence. }
  rewrite E in E1. cbn [mbind option_bind] in E1. injection E1 as Ec1.
  assert (ca_podStates c1 !! pod_UID pod = Some (MkPodState pod None false)) as Est
    by (rewrite <-Ec1; simpl; by rewrite lookup_insert_eq).
  assert (gen_room (ca_store c1)) as Hg1 by (rewrite <-Ec1; destruct Hr; split; simpl; lia).
  destruct (old_pod c1 L pod _ Hi Hp Hg1 Est) as (pools2 & st2 & L2 & E2 & Hi2 & G2 & Hon2); [done|].
  eexists. split_and!; [done|done| |..].
  - unfold ForgetPod. rewrite GetPodKey_ok, Est by done. cbn [ps_pod]. rewrite bool_decide_true by done. cbn [negb].
    rewrite Has, E2. cbn [mbind option_bind]. done.
  - simpl. rewrite <-Ec1. simpl. by rewrite delete_insert_id.
  - simpl. rewrite <-Ec1. simpl. by rewrite delete_insert_id.
  - intros name r. rewrite (on_node_same (set_pools c1 pools2 st2)) by done. rewrite Hon2.
    rewrite (on_node_same (set_pools c pools st) c1), Hon by (by rewrite <-Ec1). simpl. split.
    + intros [[?|[-> ->]] Hne]; [done|]. by destruct Hne.
    + intros Hr'. split; [by left|]. intros [-> Er]. destruct (pd_node _ Hp0 _ _ Hr') as (ps & Es & _).
      rewrite Er in Es. congruence.
Qed.
End cache_proofs.

(** ** Borrowing *)
Section borrow.
Context {K8s : K8sLib} {Range : MapRange} {Sort : GoSort}.
Implicit Types (c : schedulerCache) (p self : PoolInfo).

(** A node of the pool on which the predicates pass. *)
Definition has_fitting_node c (fits : NodeInfo → bool) p : Prop :=
  ∃ name x info, pi_nodes p !! name = Some x ∧ get_info (ca_store c) x = Some info ∧
    fits (NodeInfo_Clone info) = true.

(** A pool that a pod of [self] may borrow, when the pod comes from [from]. *)
Definition may_borrow c (from : string) self p : Prop :=
  (∃ k, ca_pools c !! k = Some p) ∧ PoolInfo_Name p ≠ from ∧ CanBorrowPool self p = Some true.

Lemma pool_fits_spec c pod fits items b :
  pool_fits c pod fits items = Some b →
  b = true ↔ ∃ x info, x ∈ items ∧ get_info (ca_store c) x = Some info ∧ fits (NodeInfo_Clone info) = true.
Proof.
  induction items as [|x items IH]; cbn [pool_fits].
  - intros [= <-]. split; [done|]. intros (x & info & ?%not_elem_of_nil & _). done.
  - destruct (get_info (ca_store c) x) as [info|] eqn:Ex; [|done]. cbn [mbind option_bind].
    destruct (fits (NodeInfo_Clone info)) eqn:Ef; cbn [negb].
    + destruct (ni_node info); [|done]. intros [= <-]. split; [|done]. intros _. exists x, info.
      split_and!; [by left|done|done].
    + intros ->%IH. split.
      * intros (y & info' & ? & ?). exists y, info'. split; [by right|done].
      * intros (y & info' & [->|?]%elem_of_cons & E & Ef'); [congruence|]. by exists y, info'.
Qed.

Lemma fits_has c pod fits p b :
  pool_fits c pod fits (range (PoolInfo_Nodes p)).*2 = Some b → b = true ↔ has_fitting_node c fits p.
Proof.
  intros ->%pool_fits_spec. unfold has_fitting_node. setoid_rewrite list_elem_of_fmap. split.
  - intros (x & info & ([name y] & -> & Hin) & E & Ef). rewrite range_perm in Hin.
    apply elem_of_map_to_list in Hin. by exists name, y, info.
  - intros (name & x & info & Hin & E & Ef). exists x, info. split; [|done]. exists (name, x). split; [done|].
    rewrite range_perm. by apply elem_of_map_to_list.
Qed.

Lemma first_fitting_spec c pod fits pools r :
  first_fitting c pod fits pools = Some r →
  match r with
  | Some name => ∃ p, p ∈ pools ∧ PoolInfo_Name p = name ∧ has_fitting_node c fits p
  | None => ∀ p, p ∈ pools → ¬ has_fitting_node c fits p
  end.
Proof.
  induction pools as [|p pools IH]; cbn [first_fitting].
  - intros [= <-] p ?%not_elem_of_nil. done.
  - destruct (pool_fits c pod fits _) as [b|] eqn:Eb; [|done]. cbn [mbind option_bind].
    apply fits_has in Eb. destruct b.
    + intros [= <-]. exists p. split_and!; [by left|done|by apply Eb].
    + intros Hr%IH. destruct r as [name|].
      * destruct Hr as (p' & ? & ?). exists p'. split; [by right|done].
      * intros p' [->|?]%elem_of_cons; [|by apply Hr]. intros ?%Eb. done.
Qed.

Lemma sharing_pools_spec from self pools l :
  sharing_pools from self pools = Some l →
  ∀ p, p ∈ l ↔ p ∈ pools.*2 ∧ PoolInfo_Name p ≠ from ∧ CanBorrowPool self p = Some true.
Proof.
  revert l. induction pools as [|[k p] pools IH]; intros l; cbn [sharing_pools].
  - intros [= <-] p. simpl. split; [by intros ?%not_elem_of_nil|by intros [?%not_elem_of_nil _]].
  - intros E p'. rewrite fmap_cons, elem_of_cons. cbn [snd].
    case_bool_decide as Hfrom; cbn [mbind option_bind] in E.
    + destruct (sharing_pools from self pools) as [rest|]; [|done]. cbn [mbind option_bind] in E. injection E as <-.
      rewrite (IH rest eq_refl). split; [by intros (?&?&?); auto|]. intros ([->|?] & Hne & ?); [|done]. congruence.
    + destruct (CanBorrowPool self p) as [can|] eqn:Ec; [|done]. cbn [mbind option_bind] in E.
      destruct (sharing_pools from self pools) as [rest|]; [|done]. cbn [mbind option_bind] in E. injection E as <-.
      destruct can; cbn [negb].
      * rewrite elem_of_cons, (IH rest eq_refl). split; [|by intros ([->|?]&?&?); auto].
        intros [->|(?&?&?)]; [|by auto]. split_and!; [by left|congruence|done].
      * rewrite (IH rest eq_refl). split; [by intros (?&?&?); auto|]. intros ([->|?] & ? & ?); [congruence|done].
Qed.

(** C36: where a pod that does not fit its own pool goes. With borrowing disabled the
    answer is its own pool. Otherwise it is a pool other than the one the pod
    comes from, that the own pool's specification lets it borrow (or is the own
    pool) and that has a node on which the predicates pass, whenever there is one;
    and when no such pool has a fitting node the answer is the own pool. *)
Theorem borrow_pool_correct {M} c from pod (preds : gmap string (FitPredicate M)) ordering self r :
  ca_pools c !! matchPoolForPod c pod = Some self →
  BorrowPool c from pod preds ordering = Some r →
  let fits info := (predicateCheck pod info preds ordering).1.1 in
  (DisableBorrowing self = true → r = PoolInfo_Name self) ∧
  (DisableBorrowing self = false →
    (∃ p, may_borrow c from self p ∧ has_fitting_node c fits p ∧ r = PoolInfo_Name p) ∨
    (∀ p, may_borrow c from self p → ¬ has_fitting_node c fits p) ∧ r = PoolInfo_Name self).
Proof.
  intros Es E. unfold BorrowPool in E. rewrite Es in E. cbn [mbind option_bind] in E. intros fits.
  destruct (DisableBorrowing self) eqn:Ed; cbn [negb] in E; [split; [congruence|done]|]. split; [done|]. intros _.
  destruct (sharing_pools from self (range (ca_pools c))) as [sharing|] eqn:Esh; [|done]. cbn [mbind option_bind] in E.
  fold fits in E. destruct (first_fitting c pod fits (go_sort (higherIdleFunc (PoolInfo_Name self)) sharing))
    as [found|] eqn:Ef; [|done]. cbn [mbind option_bind] in E. injection E as <-.
  assert (∀ p, p ∈ go_sort (higherIdleFunc (PoolInfo_Name self)) sharing ↔ may_borrow c from self p) as Hin.
  { intros p. rewrite go_sort_perm, (sharing_pools_spec _ _ _ _ Esh). unfold may_borrow. f_equiv.
    rewrite list_elem_of_fmap. split.
    - intros ([k p'] & -> & Hin). rewrite range_perm in Hin. apply elem_of_map_to_list in Hin. by exists k.
    - intros [k Hk]. exists (k, p). split; [done|]. rewrite range_perm. by apply elem_of_map_to_list. }
  apply first_fitting_spec in Ef. destruct found as [name|].
  - destruct Ef as (p & Hp & <- & Hfit). left. exists p. split_and!; [by apply Hin|done|done].
  - right. split; [|done]. intros p ?%Hin. by apply Ef.
Qed.
End borrow.

(** ** Examples *)
Module CacheExample.
#[local] Existing Instance docK8s.
#[local] Existing Instance docK8s_laws.
#[local] Existing Instance stdRange.
#[local] Existing Instance stdSort.
Import PoolInfoExample.

Fixpoint cache_runs (c : schedulerCache) (ops : list cache_op) : comp schedulerCache :=
  match ops with [] => Some c | op :: ops => '(c, _) ← cache_exec c op; cache_runs c ops end.

Definition c0 : schedulerCache := newSchedulerCache (30 * Second) Second st0.
Definition cops : list cache_op :=
  [CAddNode (mkNode "n1"); CAssume (mkPod "a" "n1" 500); CFinish (mkPod "a" "n1" 500) 5;
   CAssume (mkPod "b" "n1" 250); CAdd (mkPod "b" "n1" 250)].
Definition at_ (n : nat) : schedulerCache := default c0 (cache_runs c0 (take n cops)).

Lemma room_at n m : (0 <=? st_gen (ca_store (at_ n))) = true →
  (st_gen (ca_store (at_ n)) + m + 4 <=? MaxInt64) = true → room m (at_ n).
Proof. intros ?%Z.leb_le ?%Z.leb_le. by split. Qed.

Lemma same_version_new c pod : ca_podStates c !! pod_UID pod = None → same_version c pod.
Proof. intros E ps E'. congruence. Qed.

Lemma same_version_eq c pod ps : ca_podStates c !! pod_UID pod = Some ps → ps_pod ps = pod → same_version c pod.
Proof. intros E <- ps' E'. rewrite E in E'. injection E' as <-. done. Qed.

Lemma reached_step n m e :
  reached (at_ n) → cache_legal (at_ n) (nth n cops (CExpire 0)) →
  cache_exec (at_ n) (nth n cops (CExpire 0)) = Some (at_ m, e) → reached (at_ m).
Proof.
  intros (ttl & period & st & ops & Hg & Hrun) Hl E. exists ttl, period, st, (ops ++ [nth n cops (CExpire 0)]).
  split; [done|]. revert Hl E. induction Hrun as [c|c op c1 e1 ops c2 Hl1 E1 Hrun IH]; intros Hl E; simpl.
  - eapply cache_run_cons; [done|done|constructor].
  - eapply cache_run_cons; [done|done|]. by apply IH.
Qed.

Lemma reached_5 : reached (at_ 5).
Proof.
  assert (reached (at_ 0)) as H0 by (exists (30 * Second), Second, st0, []; split; [done|constructor]).
  assert (reached (at_ 1)) as H1.
  { apply (reached_step 0 1 None H0); [|vm_compute; reflexivity].
    split; [apply room_at; reflexivity|]. apply (bool_decide_unpack _). vm_compute. exact I. }
  assert (reached (at_ 2)) as H2.
  { apply (reached_step 1 2 None H1); [|vm_compute; reflexivity].
    split; [apply room_at; reflexivity|]. vm_compute. discriminate. }
  assert (reached (at_ 3)) as H3.
  { apply (reached_step 2 3 None H2); [|vm_compute; reflexivity].
    split; [apply room_at; reflexivity|]. exact I. }
  assert (reached (at_ 4)) as H4.
  { apply (reached_step 3 4 None H3); [|vm_compute; reflexivity].
    split; [apply room_at; reflexivity|]. vm_compute. discriminate. }
  apply (reached_step 4 5 None H4); [|vm_compute; reflexivity].
  split; [apply room_at; reflexivity|]. split; [vm_compute; discriminate|].
  eapply same_version_eq; [vm_compute; reflexivity|reflexivity].
Qed.

Lemma cache_pods_exact_witness :
  is_Some (ca_podStates (at_ 5) !! "uid-a"%string) ∧
  (∀ op, cache_legal (at_ 5) op → is_Some (cache_exec (at_ 5) op)).
Proof.
  destruct (cache_pods_exact (at_ 5) reached_5) as (_ & _ & _ & H1 & H2). split; [|exact H2].
  apply H1. vm_compute. reflexivity.
Defined.

Lemma cache_expiry_exact_witness :
  ∃ c', cleanupAssumedPods (at_ 5) (31 * Second) = Some c' ∧ ca_podStates c' !! "uid-a"%string = None.
Proof.
  destruct (cache_expiry_exact (at_ 5) (31 * Second) reached_5) as (c' & E & H & _);
    [apply room_at; reflexivity|].
  exists c'. split; [exact E|]. rewrite H. vm_compute. reflexivity.
Defined.

Lemma assume_forget_roundtrip_witness :
  ∃ c1 c2, AssumePod (at_ 5) (mkPod "c" "n1" 100) = Some (c1, None) ∧
    ForgetPod c1 (mkPod "c" "n1" 100) = Some (c2, None) ∧ ca_podStates c2 = ca_podStates (at_ 5).
Proof.
  destruct (assume_forget_roundtrip (at_ 5) (mkPod "c" "n1" 100) reached_5) as (c1 & c2 & E1 & _ & E2 & E3 & _);
    [apply room_at; reflexivity|vm_compute; discriminate|vm_compute; discriminate|vm_compute; reflexivity|].
  exists c1, c2. split_and!; [exact E1|exact E2|exact E3].
Defined.

(** Pools that select nodes by the label "pool", and a pod that waits in pool A. *)
Definition labelled (name pool : string) : Node :=
  MkNode (MkObjectMeta name EmptyString EmptyString EmptyString 0 {["pool"%string := pool]} ∅ 0 None 0) [] false
    {[ResourceCPU := NewMilliQuantity 4000]} {[ResourceCPU := NewMilliQuantity 4000]} [] [] 0.
Definition selecting (name : string) : Pool :=
  MkPool (MkObjectMeta name EmptyString EmptyString EmptyString 0 ∅ ∅ 0 None 0)
    (MkPoolSpec (Some (MkLabelSelector {["pool"%string := name]} [])) false false [] false).
Definition waiting : Pod :=
  MkPod (MkObjectMeta "w" "default" "uid-w" EmptyString 0 ∅ {[GroupNameAnnotationKey := "A"%string]} 0 None 0)
    (MkPodSpec EmptyString EmptyString None [] [] None ∅ [] [] 0) (MkPodStatus EmptyString [] 0).

Definition two_pools : schedulerCache :=
  default c0 (cache_runs c0 [CAddPool (selecting "A"); CAddPool (selecting "B"); CAddNode (labelled "nb" "B")]).

Lemma borrow_pool_correct_witness :
  ∃ self, ca_pools two_pools !! "A"%string = Some self ∧
    ((∃ p, may_borrow two_pools "A" self p ∧ has_fitting_node two_pools (λ _, true) p ∧ "B"%string = PoolInfo_Name p) ∨
     (∀ p, may_borrow two_pools "A" self p → ¬ has_fitting_node two_pools (λ _, true) p) ∧ "B"%string = PoolInfo_Name self).
Proof.
  destruct (ca_pools two_pools !! "A"%string) as [self|] eqn:E; [|vm_compute in E; discriminate].
  exists self. split; [reflexivity|].
  assert (DisableBorrowing self = false) as Hb by (vm_compute in E; injection E as <-; vm_compute; reflexivity).
  destruct (borrow_pool_correct (M:=unit) two_pools "A" waiting ∅ [] self "B") as [_ H].
  - etrans; [|exact E]. vm_compute. reflexivity.
  - vm_compute. reflexivity.
  - exact (H Hb).
Defined.

(** A pod is added before its node: it goes on a node without object in the default
    pool, and stays there when the node is added to the pool that selects it. *)
Definition pod_first : comp schedulerCache :=
  cache_runs c0 [CAddPool (selecting "B"); CAdd (mkPod "a" "nb" 500); CAddNode (labelled "nb" "B")].

Definition pods_in (c : schedulerCache) (k name : string) : option (list Pod) :=
  p ← ca_pools c !! k; x ← pi_nodes p !! name; ni_pods <$> get_info (ca_store c) x.

Theorem pod_before_node_split :
  ∃ c, pod_first = Some c ∧ pods_in c "B" "nb" = Some [] ∧
    pods_in c DefaultPoolName "nb" = Some [mkPod "a" "nb" 500].
Proof.
  assert (∃ c, pod_first = Some c ∧ (pods_in c "B" "nb", pods_in c DefaultPoolName "nb") =
    (Some [], Some [mkPod "a" "nb" 500])) as (c & E & [= E1 E2]).
  { eexists. split; [vm_compute; reflexivity|]. vm_compute. reflexivity. }
  exists c. split_and!; [exact E|exact E1|exact E2].
Qed.

(** A pool is removed while one of its nodes, already deleted, still has a pod: the
    pod is lost and its removal fails, so its state stays in the cache. *)
Definition pool_gone : comp (schedulerCache * option error) :=
  c ← cache_runs c0 [CAddPool (selecting "B"); CAddNode (labelled "nb" "B"); CAdd (mkPod "a" "nb" 500);
                     CRemoveNode (labelled "nb" "B")];
  '(c, _) ← Cache_RemovePool c (selecting "B");
  Cache_RemovePod c (mkPod "a" "nb" 500).

Theorem removed_pool_leaks_pod :
  ∃ c e, pool_gone = Some (c, Some e) ∧ size (ca_podStates c) = 1%nat ∧ pods_in c DefaultPoolName "nb" = None.
Proof.
  assert (∃ c e, pool_gone = Some (c, Some e) ∧ (size (ca_podStates c), pods_in c DefaultPoolName "nb") = (1%nat, None))
    as (c & e & E & [= E1 E2]).
  { eexists _, _. split; [vm_compute; reflexivity|]. vm_compute. reflexivity. }
  exists c, e. split_and!; [exact E|exact E1|exact E2].
Qed.

(** The order in which pools are borrowed is not asymmetric: of two pools, one with
    more idle CPU and the other with more idle memory, each goes before the other. *)
Definition idle_pool (name : string) (cpu mem : Z) : PoolInfo :=
  PoolInfo_SetAllocatable (PoolInfo_SetPool NewPoolInfo (mkPool name)) (MkResource cpu mem 0 0 ∅).

Theorem higherIdle_both_ways :
  higherIdleFunc "A" (idle_pool "B" 2000 1) (idle_pool "C" 1000 2) = true ∧
  higherIdleFunc "A" (idle_pool "C" 1000 2) (idle_pool "B" 2000 1) = true.
Proof. split; vm_compute; reflexivity. Qed.
End CacheExample.
