(* ===== verification/Debugger.v ===== *)
(** * The comparison of the cache with the API server (src/pkg/scheduler/internal/cache/debugger/comparer.go)

    On a signal the names of the nodes and the UIDs of the pods that the listers know are compared with those of the cache and the queues.  The
    result is that of a difference of multisets. *)
From S2P Require Import Prelude Heap Api Util Resource HostPorts NodeTree NodeInfo.

Section comparer.
Context `{MapRange}.
Implicit Types (actual cached : list string).

(** [sort.Strings] *)
Definition sort_Strings (l : list string) : list string := merge_sort String.le l.

Definition compare actual cached (i j : nat) : comparison :=
  if (i =? length actual)%nat then Gt else if (j =? length cached)%nat then Lt
  else String.compare (default EmptyString (actual !! i)) (default EmptyString (cached !! j)).
(** The loop, in at most [fuel] rounds. *)
Fixpoint compare_loop (fuel : nat) actual cached (i j : nat) (missed redundant : list string) : option (list string * list string) :=
  match fuel with
  | O => None
  | S fuel =>
      if (i <? length actual)%nat || (j <? length cached)%nat then
        match compare actual cached i j with
        | Eq => compare_loop fuel actual cached (S i) (S j) missed redundant
        | Lt => compare_loop fuel actual cached (S i) j (missed ++ [default EmptyString (actual !! i)]) redundant
        | Gt => compare_loop fuel actual cached i (S j) missed (redundant ++ [default EmptyString (cached !! j)])
        end
      else Some (missed, redundant)
  end.
Definition compareStrings actual cached : option (list string * list string) :=
  let actual := sort_Strings actual in
  let cached := sort_Strings cached in
  compare_loop (S (length actual + length cached)) actual cached 0 0 [] [].

Definition CompareNodes (nodes : list Node) (nodeinfos : gmap string NodeInfo) : option (list string * list string) :=
  compareStrings (node_Name <$> nodes) ((range nodeinfos).*1).
Definition ComparePods (pods waitingPods : list Pod) (nodeinfos : gmap string NodeInfo) : option (list string * list string) :=
  compareStrings (pod_UID <$> pods) ((range nodeinfos ≫= λ e, pod_UID <$> ni_pods e.2) ++ (pod_UID <$> waitingPods)).

(** ** The loop computes two differences *)

Abbreviation occ := (count_occ String.string_dec).
Definition differences actual cached (missed redundant : list string) : Prop :=
  ∀ x, occ missed x = (occ actual x - occ cached x)%nat ∧ occ redundant x = (occ cached x - occ actual x)%nat.

Lemma sorted_absent x l : (∀ y, y ∈ l → String.compare x y = Lt) → occ l x = O.
Proof.
  intros Hl. apply count_occ_not_In. rewrite <- list_elem_of_In. intros Hin. specialize (Hl x Hin). pose proof (String.compare_antisym x x) as E. by rewrite Hl in E.
Qed.
Lemma le_not_gt x y : String.le x y → String.compare x y ≠ Gt.
Proof. unfold String.le, String.leb. destruct (String.compare x y); done. Qed.
Lemma lt_le_trans x y z : String.compare x y = Lt → String.le y z → String.compare x z = Lt.
Proof.
  intros Hxy Hyz. assert (String.le x y) as Hle by (unfold String.le, String.leb; by rewrite Hxy). assert (String.le x z) as Hxz by by transitivity y.
  destruct (String.compare x z) eqn:E; [|done|by apply le_not_gt in Hxz].
  apply String.compare_eq_iff in E as <-. assert (x = y) as <- by by apply (anti_symm String.le). pose proof (String.compare_antisym x x) as E. by rewrite Hxy in E.
Qed.
(** What comes after the head of a sorted list is above all that the head is above. *)
Lemma below_sorted x y l : StronglySorted String.le (y :: l) → String.compare x y = Lt → occ (y :: l) x = O.
Proof.
  intros Hs Hlt. apply sorted_absent. intros z [->|Hz]%elem_of_cons; [done|]. apply (lt_le_trans x y); [done|].
  apply StronglySorted_inv in Hs as [_ Hall]. rewrite Forall_forall in Hall. by apply Hall.
Qed.
Lemma differences_both x a c m r : differences a c m r → differences (x :: a) (x :: c) m r.
Proof. intros Hd y. destruct (Hd y) as [-> ->]. cbn. destruct (String.string_dec x y); lia. Qed.
Lemma differences_missed x a c m r : occ c x = O → differences a c m r → differences (x :: a) c (x :: m) r.
Proof. intros Hx Hd y. destruct (Hd y) as [E1 E2]. cbn. destruct (String.string_dec x y) as [->|]; [rewrite E1, E2; lia|done]. Qed.
Lemma differences_redundant x a c m r : occ a x = O → differences a c m r → differences a (x :: c) m (x :: r).
Proof. intros Hx Hd y. destruct (Hd y) as [E1 E2]. cbn. destruct (String.string_dec x y) as [->|]; [rewrite E1, E2; lia|done]. Qed.

Lemma sorted_suffix (l : list string) i : StronglySorted String.le l → StronglySorted String.le (drop i l).
Proof. revert i. induction l as [|x l IH]; intros [|i] Hs; [done|done|done|]. cbn. apply IH. by apply StronglySorted_inv in Hs as [? _]. Qed.

Lemma compare_loop_ok actual cached : StronglySorted String.le actual → StronglySorted String.le cached → ∀ fuel i j missed redundant,
  (i <= length actual)%nat → (j <= length cached)%nat → (length actual - i + (length cached - j) < fuel)%nat →
  ∃ m r, compare_loop fuel actual cached i j missed redundant = Some (missed ++ m, redundant ++ r) ∧ differences (drop i actual) (drop j cached) m r.
Proof.
  intros Ha Hc fuel. induction fuel as [|fuel IH]; intros i j missed redundant Hi Hj Hf; [lia|]. cbn [compare_loop]. unfold compare.
  destruct (decide (i = length actual)) as [Ei|Hni], (decide (j = length cached)) as [Ej|Hnj].
  - rewrite Ei, Ej, !Nat.ltb_irrefl. exists [], []. rewrite !app_nil_r, !drop_all. split; [done|]. intros x. done.
  - destruct (lookup_lt_is_Some_2 cached j) as [y Ey]; [lia|]. rewrite (proj2 (Nat.ltb_lt j (length cached))), orb_true_r by lia.
    rewrite (proj2 (Nat.eqb_eq i (length actual))) by done. rewrite Ey. change (default EmptyString (Some y)) with y. destruct (IH i (S j) missed (redundant ++ [y])) as (m & r & E & Hd); [lia|lia|lia|].
    exists m, (y :: r). rewrite E, <- app_assoc. split; [done|]. rewrite (drop_S cached y j Ey). apply differences_redundant; [|done]. by rewrite Ei, drop_all.
  - destruct (lookup_lt_is_Some_2 actual i) as [x Ex]; [lia|]. rewrite (proj2 (Nat.ltb_lt i (length actual))) by lia. cbn [orb].
    rewrite (proj2 (Nat.eqb_neq i (length actual))) by done. rewrite (proj2 (Nat.eqb_eq j (length cached))) by done. rewrite Ex. change (default EmptyString (Some x)) with x.
    destruct (IH (S i) j (missed ++ [x]) redundant) as (m & r & E & Hd); [lia|lia|lia|]. exists (x :: m), r. rewrite E, <- app_assoc. split; [done|].
    rewrite (drop_S actual x i Ex). apply differences_missed; [|done]. by rewrite Ej, drop_all.
  - destruct (lookup_lt_is_Some_2 actual i) as [x Ex]; [lia|]. destruct (lookup_lt_is_Some_2 cached j) as [y Ey]; [lia|].
    pose proof (sorted_suffix _ i Ha) as Ha'. pose proof (sorted_suffix _ j Hc) as Hc'. rewrite (drop_S actual x i Ex) in Ha' |- *. rewrite (drop_S cached y j Ey) in Hc' |- *.
    rewrite (proj2 (Nat.ltb_lt i (length actual))) by lia. cbn [orb]. rewrite (proj2 (Nat.eqb_neq i (length actual))), (proj2 (Nat.eqb_neq j (length cached))) by done.
    rewrite Ex, Ey. change (default EmptyString (Some x)) with x. change (default EmptyString (Some y)) with y. destruct (String.compare x y) eqn:Exy.
    + apply String.compare_eq_iff in Exy as <-. destruct (IH (S i) (S j) missed redundant) as (m & r & E & Hd); [lia|lia|lia|]. exists m, r. split; [done|]. by apply differences_both.
    + destruct (IH (S i) j (missed ++ [x]) redundant) as (m & r & E & Hd); [lia|lia|lia|]. exists (x :: m), r. rewrite E, <- app_assoc. split; [done|].
      rewrite (drop_S cached y j Ey) in Hd. apply differences_missed; [|done]. by apply below_sorted.
    + destruct (IH i (S j) missed (redundant ++ [y])) as (m & r & E & Hd); [lia|lia|lia|]. exists m, (y :: r). rewrite E, <- app_assoc. split; [done|].
      rewrite (drop_S actual x i Ex) in Hd. apply differences_redundant; [|done]. apply below_sorted; [done|]. rewrite String.compare_antisym, Exy. done.
Qed.
Lemma occ_perm l l' x : l ≡ₚ l' → occ l x = occ l' x.
Proof. intros Hp. by apply (Permutation_count_occ String.string_dec). Qed.
Lemma compareStrings_ok actual cached : ∃ missed redundant, compareStrings actual cached = Some (missed, redundant) ∧ differences actual cached missed redundant.
Proof.
  unfold compareStrings, sort_Strings. destruct (compare_loop_ok (merge_sort String.le actual) (merge_sort String.le cached)) with
    (S (length (merge_sort String.le actual) + length (merge_sort String.le cached))) O O (@nil string) (@nil string) as (m & r & E & Hd);
    [apply StronglySorted_merge_sort; apply _|apply StronglySorted_merge_sort; apply _|lia|lia|lia|].
  exists m, r. split; [exact E|]. intros x. specialize (Hd x). rewrite !drop_0 in Hd. by rewrite !(occ_perm _ _ x (merge_sort_Permutation String.le _)) in Hd.
Qed.
Lemma differences_none a c m r : differences a c m r → (m = [] ∧ r = []) ↔ a ≡ₚ c.
Proof.
  intros Hd. rewrite (Permutation_count_occ String.string_dec). split.
  - intros [-> ->] x. destruct (Hd x) as [E1 E2]. cbn in *. lia.
  - intros Hx. split; apply (count_occ_inv_nil String.string_dec); intros x; destruct (Hd x) as [E1 E2]; rewrite Hx in *; lia.
Qed.

Lemma fmap_of_bind {A B C} (f : B → C) (g : A → list B) l : f <$> (l ≫= g) = l ≫= λ x, f <$> g x.
Proof. induction l as [|x l IH]; [done|]. rewrite !bind_cons, fmap_app. by rewrite IH. Qed.

(** C35: the comparison of the cache is exact.  [compareStrings] ends, with a name as often among the missed as it is more often actual than cached, and as often
    among the redundant as the other way round; so [ComparePods] reports nothing exactly if the pods of the nodes and of the queues are, with their multiplicities, the
    pods of the API server, and [CompareNodes] exactly if the nodes are. *)
Theorem compare_exact actual cached pods waiting nodes nodeinfos :
  (∃ missed redundant, compareStrings actual cached = Some (missed, redundant) ∧ differences actual cached missed redundant) ∧
  (ComparePods pods waiting nodeinfos = Some ([], []) ↔ pod_UID <$> pods ≡ₚ pod_UID <$> ((map_to_list nodeinfos ≫= λ e, ni_pods e.2) ++ waiting)) ∧
  (CompareNodes nodes nodeinfos = Some ([], []) ↔ node_Name <$> nodes ≡ₚ (map_to_list nodeinfos).*1).
Proof.
  split; [apply compareStrings_ok|]. split.
  - unfold ComparePods. set (c := (range nodeinfos ≫= _) ++ _). assert (c ≡ₚ pod_UID <$> ((map_to_list nodeinfos ≫= λ e, ni_pods e.2) ++ waiting)) as <-.
    { unfold c. rewrite fmap_app. apply Permutation_app; [|done]. rewrite fmap_of_bind. by rewrite range_perm. }
    destruct (compareStrings_ok (pod_UID <$> pods) c) as (m & r & -> & Hd). rewrite <- (differences_none _ _ _ _ Hd). split; [by intros [= -> ->]|by intros [-> ->]].
  - unfold CompareNodes. destruct (compareStrings_ok (node_Name <$> nodes) (range nodeinfos).*1) as (m & r & -> & Hd).
    rewrite <- (range_perm _ nodeinfos), <- (differences_none _ _ _ _ Hd). split; [by intros [= -> ->]|by intros [-> ->]].
Qed.
End comparer.
