(* ===== verification/GenericScheduler.v ===== *)
(** * The scheduling algorithm (src/pkg/scheduler/core/generic_scheduler.go)

    Finding the nodes on which a pod fits, scoring them and choosing one; and, for a
    pod that fits nowhere, choosing a node and the pods to evict from it.

    The scheduler sees the queue, the metadata of predicates and the extenders
    through Go interfaces, which are classes and records here.  Nodes are evaluated by
    16 workers; the model runs the steps of the workers in the order given by a
    schedule, a list of [work] items, and the theorems are about every schedule.  The
    generation that [AddPod] gives to a private copy of a [NodeInfo] comes from the
    counter [gen] and is compared with nothing, so the counter is not handed on. *)
From S2P Require Import Prelude Heap Api Util Resource HostPorts NodeTree NodeInfo PoolInfo Predicates Cache.

(** ** Types *)

Abbreviation FailedPredicateMap := (gmap string (list PredicateFailureReason)).

(** The errors of [Schedule]; [FitError] is the one that [Preempt] looks for. *)
Inductive ScheduleError :=
| FitError (pod : Pod) (NumAllNodes : Z) (FailedPredicates : FailedPredicateMap)
| ErrNoNodesAvailable
| ErrOther (err : error).

Record ScheduleResult := MkScheduleResult { SuggestedHost : string; EvaluatedNodes : Z; FeasibleNodes : Z }.

Record HostPriority := MkHostPriority { Host : string; Score : Z }.
Abbreviation HostPriorityList := (list HostPriority).

Record Victims := MkVictims { victim_Pods : list Pod; NumPDBViolations : Z }.

(** policy.PodDisruptionBudget *)
Record PodDisruptionBudget := MkPDB {
  pdb_Namespace : string;
  pdb_Selector : option LabelSelector;
  PodDisruptionsAllowed : Z
}.

(** The methods of the interface [SchedulingPoolQueue] that the algorithm calls. *)
Class SchedulingPoolQueue (Q : Type) := {
  spq_NominatedPodsForNode : Q → string → list Pod;
  spq_GetPoolQueueNameIfNotPresent : Q → Pod → string
}.

(** v1.Binding; the target is a node. *)
Record Binding := MkBinding { b_Namespace : string; b_Name : string; b_UID : string; b_Target : string }.

(** The interface [SchedulerExtender], implemented in Extender.v.  The nodes that an extender returns are pointers
    and may be nil; the map from nodes to victims is a list without repetitions. *)
Record SchedulerExtender := MkExtender {
  ext_IsInterested : Pod → bool;
  ext_IsIgnorable : bool;
  ext_SupportsPreemption : bool;
  ext_Filter : Pod → list (option Node) → gmap string NodeInfo → comp (error + (list (option Node) * gmap string string));
  ext_Prioritize : Pod → list Node → error + (HostPriorityList * Z);
  ext_ProcessPreemption : Pod → list (option Node * Victims) → gmap string NodeInfo → comp (error + list (option Node * Victims));
  ext_IsBinder : bool;
  ext_Bind : Binding → option error
}.

(** [PriorityConfig]; a nil function is [None], and [PM] the type of the metadata of
    priorities. [Reduce] changes the scores of its argument in place. *)
Record PriorityConfig (PM : Type) := MkPriorityConfig {
  pc_Map : Pod → PM → option NodeInfo → comp (HostPriority * option error);
  pc_Reduce : option (Pod → PM → gmap string NodeInfo → HostPriorityList → comp (HostPriorityList * option error));
  pc_Function : option (Pod → gmap string NodeInfo → list Node → comp (HostPriorityList * option error));
  pc_Weight : Z
}.
Arguments pc_Map {PM} _.
Arguments pc_Reduce {PM} _.
Arguments pc_Function {PM} _.
Arguments pc_Weight {PM} _.

(** apimachinery util/errors: the texts of aggregated errors. *)
Class ErrorsLib := {
  NewAggregate : list error → error;
  CreateAggregateFromMessageCountMap : gmap string Z → error
}.

(** ** Choosing a host *)

Fixpoint findMaxScores_loop (i : nat) (maxScore : Z) (maxScoreIndexes : list nat) (l : HostPriorityList) : list nat :=
  match l with
  | [] => maxScoreIndexes
  | hp :: l =>
      if maxScore <? Score hp then findMaxScores_loop (S i) (Score hp) [i] l
      else if Score hp =? maxScore then findMaxScores_loop (S i) maxScore (maxScoreIndexes ++ [i]) l
      else findMaxScores_loop (S i) maxScore maxScoreIndexes l
  end.
Definition findMaxScores (priorityList : HostPriorityList) : comp (list nat) :=
  hp ← priorityList !! O;
  Some (findMaxScores_loop O (Score hp) [] priorityList).

(** The first result is the new [lastNodeIndex], a [uint64]. *)
Definition selectHost (lastNodeIndex : Z) (priorityList : HostPriorityList) : comp (Z * (error + string)) :=
  if bool_decide (length priorityList = O) then Some (lastNodeIndex, inl "empty priorityList"%string)
  else
    maxScores ← findMaxScores priorityList;
    let ix := Z.to_nat (lastNodeIndex mod Z.of_nat (length maxScores)) in
    j ← maxScores !! ix;
    hp ← priorityList !! j;
    Some ((lastNodeIndex + 1) mod 2 ^ 64, inr (Host hp)).

Definition minFeasibleNodesToFind : Z := 100.
Definition minFeasibleNodesPercentageToFind : Z := 5.
Definition DefaultPercentageOfNodesToScore : Z := 50.

(** All values are [int32]; [/] truncates. *)
Definition numFeasibleNodesToFind (percentageOfNodesToScore numAllNodes : Z) : Z :=
  if (numAllNodes <? minFeasibleNodesToFind) || (100 <=? percentageOfNodesToScore) then numAllNodes
  else
    let adaptivePercentage :=
      if percentageOfNodesToScore <=? 0 then
        let a := wrap32 (DefaultPercentageOfNodesToScore - Z.quot numAllNodes 125) in
        if a <? minFeasibleNodesPercentageToFind then minFeasibleNodesPercentageToFind else a
      else percentageOfNodesToScore in
    let numNodes := Z.quot (wrap32 (numAllNodes * adaptivePercentage)) 100 in
    if numNodes <? minFeasibleNodesToFind then minFeasibleNodesToFind else numNodes.

(** ** Preemption: choosing a node *)

(** One round of [pickOneNodeForPreemption]: the nodes of least [key], in order, when
    [start] is the initial minimum. *)
Definition keep_min_step {A} (key : A → Z) (s : Z * list A) (x : A) : Z * list A :=
  let s := if key x <? s.1 then (key x, []) else s in
  if key x =? s.1 then (s.1, s.2 ++ [x]) else s.
Definition keep_min {A} (key : A → Z) (start : Z) (l : list A) : list A :=
  (foldl (keep_min_step key) (start, []) l).2.

Section generic_scheduler.
Context `{K8sLib} `{MapRange} `{GoSort} `{ErrorsLib} {M PM Q : Type} `{!PredicateMetadata M} `{!SchedulingPoolQueue Q}.
Implicit Types (pod : Pod) (node : Node) (queue : Q) (info : NodeInfo) (meta : option M).

(** The priority of a victim; a pod of another pool has the lowest one. *)
Definition victim_priority (poolName : string) queue pod : Z :=
  if bool_decide (spq_GetPoolQueueNameIfNotPresent queue pod = poolName) then GetPodPriority pod else MinInt32.

(** [victims.Pods[0]] is not out of range: a node without victims was returned before. *)
Definition highestPodPriority (poolName : string) queue (v : Victims) : Z :=
  match victim_Pods v with [] => MinInt32 | p :: _ => victim_priority poolName queue p end.
Definition sumPriorities (poolName : string) queue (v : Victims) : Z :=
  foldl (λ sum p, add64 sum (victim_priority poolName queue p + (MaxInt32 + 1))) 0 (victim_Pods v).
Definition numPods (v : Victims) : Z := Z.of_nat (length (victim_Pods v)).

(** The list is the map [nodesToVictims] in the order the iteration visits it; its keys [K] are pointers to nodes. *)
Definition pickOneNodeForPreemption {K : Type} (nodesToVictims : list (K * Victims)) (poolName : string) queue : option K :=
  match list_find (λ e, victim_Pods e.2 = []) nodesToVictims with
  | Some (_, e) => Some e.1
  | None =>
      let nodes1 := keep_min (λ e, NumPDBViolations e.2) MaxInt32 nodesToVictims in
      match nodes1 with [e] => Some e.1 | _ =>
      let nodes2 := keep_min (λ e, highestPodPriority poolName queue e.2) MaxInt32 nodes1 in
      match nodes2 with [e] => Some e.1 | _ =>
      let nodes3 := keep_min (λ e, sumPriorities poolName queue e.2) MaxInt64 nodes2 in
      match nodes3 with [e] => Some e.1 | _ =>
      let nodes4 := keep_min (λ e, numPods e.2) MaxInt32 nodes3 in
      match nodes4 with e :: _ => Some e.1 | [] => None end
      end end end
  end.

(** ** Whether a pod fits on a node *)

(** [queue] is nil in tests only. *)
Definition addNominatedPods (gen : Z) pod meta (nodeInfo : option NodeInfo) queue :
    bool * option M * option NodeInfo :=
  match nodeInfo with
  | None => (false, meta, nodeInfo)
  | Some info =>
      match ni_node info with
      | None => (false, meta, nodeInfo)
      | Some node =>
          let nominatedPods := spq_NominatedPodsForNode queue (node_Name node) in
          if bool_decide (length nominatedPods = O) then (false, meta, nodeInfo)
          else
            let '(_, info, meta) :=
              foldl (λ (s : Z * NodeInfo * option M) p,
                let '(gen, info, meta) := s in
                if (GetPodPriority pod <=? GetPodPriority p) && negb (bool_decide (pod_UID p = pod_UID pod)) then
                  let '(gen, info) := NodeInfo_AddPod gen info p in
                  (gen, info, (λ m, meta_AddPod m p info) <$> meta)
                else s)
                (gen, NodeInfo_Clone info, meta_ShallowCopy <$> meta) nominatedPods in
            (true, meta, Some info)
      end
  end.

(** One pass over the predicates; [failed] are the reasons of this pass. *)
Fixpoint run_predicates pod meta (nodeInfo : option NodeInfo) (predicateFuncs : gmap string (FitPredicate M))
    (alwaysCheckAllPredicates : bool) (ordering : list string) (failed : list PredicateFailureReason) :
    error + list PredicateFailureReason :=
  match ordering with
  | [] => inr failed
  | predicateKey :: ordering =>
      match predicateFuncs !! predicateKey with
      | None => run_predicates pod meta nodeInfo predicateFuncs alwaysCheckAllPredicates ordering failed
      | Some predicate =>
          let '(fit, reasons, err) := predicate pod meta nodeInfo in
          match err with
          | Some err => inl err
          | None =>
              if negb fit then
                if negb alwaysCheckAllPredicates then inr (failed ++ reasons)
                else run_predicates pod meta nodeInfo predicateFuncs alwaysCheckAllPredicates ordering (failed ++ reasons)
              else run_predicates pod meta nodeInfo predicateFuncs alwaysCheckAllPredicates ordering failed
          end
      end
  end.

Definition podFitsOnNode (gen : Z) pod meta (nodeInfo : option NodeInfo) (predicateFuncs : gmap string (FitPredicate M))
    (ordering : list string) queue (alwaysCheckAllPredicates : bool) : bool * list PredicateFailureReason * option error :=
  let '(podsAdded, metaToUse, nodeInfoToUse) := addNominatedPods gen pod meta nodeInfo queue in
  match run_predicates pod metaToUse nodeInfoToUse predicateFuncs alwaysCheckAllPredicates ordering [] with
  | inl err => (false, [], Some err)
  | inr failed =>
      if negb podsAdded || negb (bool_decide (length failed = O)) then (bool_decide (length failed = O), failed, None)
      else
        match run_predicates pod meta nodeInfo predicateFuncs alwaysCheckAllPredicates ordering failed with
        | inl err => (false, [], Some err)
        | inr failed => (bool_decide (length failed = O), failed, None)
        end
  end.

(** ** Preemption: choosing the victims on a node *)

Definition violates (pod : Pod) (pdb : PodDisruptionBudget) : bool :=
  if negb (bool_decide (pdb_Namespace pdb = pod_Namespace pod)) then false
  else
    match LabelSelectorAsSelector (pdb_Selector pdb) with
    | inl _ => false
    | inr selector =>
        if Selector_Empty selector || negb (Selector_Matches selector (Labels (pod_Meta pod))) then false
        else PodDisruptionsAllowed pdb <=? 0
    end.
Definition pdbForPodIsViolated (pdbs : list PodDisruptionBudget) pod : bool :=
  if negb (bool_decide (size (Labels (pod_Meta pod)) = O)) then existsb (violates pod) pdbs else false.
Definition filterPodsWithPDBViolation (pods : list Pod) (pdbs : list PodDisruptionBudget) : list Pod * list Pod :=
  foldl (λ s pod, if pdbForPodIsViolated pdbs pod then (s.1 ++ [pod], s.2) else (s.1, s.2 ++ [pod])) ([], []) pods.

(** The copy of the node and of the metadata on which evictions are tried out. *)
Record trial := MkTrial { tr_gen : Z; tr_info : NodeInfo; tr_meta : option M }.
Implicit Type t : trial.

Definition trial_removePod t pod : trial :=
  let '(gen, info, _) := NodeInfo_RemovePod (tr_gen t) (tr_info t) pod in
  MkTrial gen info ((λ m, meta_RemovePod m pod) <$> tr_meta t).
Definition trial_addPod t pod : trial :=
  let '(gen, info) := NodeInfo_AddPod (tr_gen t) (tr_info t) pod in
  MkTrial gen info ((λ m, meta_AddPod m pod info) <$> tr_meta t).

Definition schedulerName : string := "ai-scheduler".

Definition potentialVictim (poolName : string) pod queue (p : Pod) : bool :=
  let podPoolName := spq_GetPoolQueueNameIfNotPresent queue p in
  ResponsibleForPod p schedulerName &&
  (negb (bool_decide (poolName = podPoolName)) ||
   bool_decide (poolName = podPoolName) && (GetPodPriority p <? GetPodPriority pod)).

(** The loop over [nodeInfoCopy.Pods()] removes pods while it goes over their slice:
    [arr] is the array that the slice of the loop and the pods of the copy share,
    and a removal writes into it. *)
Fixpoint victims_loop (n i : nat) (arr : list Pod) (victim : Pod → bool) t (victims : list Pod) : comp (trial * list Pod) :=
  match n with
  | O => Some (t, victims)
  | S n =>
      p ← arr !! i;
      if victim p then
        let t := trial_removePod t p in
        let pods := ni_pods (tr_info t) in
        victims_loop n (S i) (pods ++ drop (length pods) arr) victim t (victims ++ [p])
      else victims_loop n (S i) arr victim t victims
  end.

Definition reprievePod (fits : trial → bool) (s : trial * list Pod) (p : Pod) : trial * list Pod * bool :=
  let t := trial_addPod s.1 p in
  if fits t then (t, s.2, true) else (trial_removePod t p, s.2 ++ [p], false).

Definition selectVictimsOnNode (gen : Z) (poolName : string) pod meta (nodeInfo : option NodeInfo)
    (fitPredicates : gmap string (FitPredicate M)) (ordering : list string) queue (pdbs : list PodDisruptionBudget) :
    comp (list Pod * Z * bool) :=
  match nodeInfo with
  | None => Some ([], 0, false)
  | Some info =>
      let copy := NodeInfo_Clone info in
      '(t, potentialVictims) ← victims_loop (length (ni_pods copy)) O (ni_pods copy)
          (potentialVictim poolName pod queue) (MkTrial gen copy meta) [];
      let potentialVictims := go_sort (SelfPoolHasHigherPriorityFunc poolName) potentialVictims in
      let fits t := (podFitsOnNode (tr_gen t) pod (tr_meta t) (Some (tr_info t)) fitPredicates ordering queue false).1.1 in
      if negb (fits t) then Some ([], 0, false)
      else
        let '(violatingVictims, nonViolatingVictims) := filterPodsWithPDBViolation potentialVictims pdbs in
        let '(s, numViolatingVictim) :=
          foldl (λ (a : trial * list Pod * Z) p,
            let '(s, n) := a in
            let '(s, ok) := reprievePod fits s p in (s, if ok : bool then n else n + 1))
            (t, [], 0) violatingVictims in
        let s := foldl (λ s p, (reprievePod fits s p).1) s nonViolatingVictims in
        Some (s.2, numViolatingVictim, true)
  end.

(** The workers of [ParallelizeUntil] treat the nodes independently; the result is a map. *)
Fixpoint selectNodesForPreemption (gen : Z) (poolName : string) pod (nodeNameToInfo : gmap string NodeInfo)
    (potentialNodes : list Node) (fitPredicates : gmap string (FitPredicate M)) (ordering : list string)
    (meta : option M) queue (pdbs : list PodDisruptionBudget) : comp (list (Node * Victims)) :=
  match potentialNodes with
  | [] => Some []
  | node :: potentialNodes =>
      '(pods, numPDBViolations, fits) ← selectVictimsOnNode gen poolName pod (meta_ShallowCopy <$> meta)
          (nodeNameToInfo !! node_Name node) fitPredicates ordering queue pdbs;
      rest ← selectNodesForPreemption gen poolName pod nodeNameToInfo potentialNodes fitPredicates ordering meta queue pdbs;
      Some (if fits : bool then (node, MkVictims pods numPDBViolations) :: rest else rest)
  end.

Definition unresolvable (r : PredicateFailureReason) : bool :=
  bool_decide (r ∈ [ErrNodeSelectorNotMatch; ErrPodAffinityRulesNotMatch; ErrPodNotMatchHostName;
    ErrTaintsTolerationsNotMatch; ErrNodeLabelPresenceViolated; ErrNodeNotReady; ErrNodeNetworkUnavailable;
    ErrNodeUnderDiskPressure; ErrNodeUnderPIDPressure; ErrNodeUnderMemoryPressure; ErrNodeUnschedulable;
    ErrNodeUnknownCondition; ErrVolumeZoneConflict; ErrVolumeNodeConflict; ErrVolumeBindConflict]).
Definition nodesWherePreemptionMightHelp (nodes : list Node) (failedPredicatesMap : FailedPredicateMap) : list Node :=
  filter (λ node, negb (existsb unresolvable (default [] (failedPredicatesMap !! node_Name node)))) nodes.

Definition podEligibleToPreemptOthers pod (nodeNameToInfo : gmap string NodeInfo) : bool :=
  let nomNodeName := NominatedNodeName (pod_Status pod) in
  if negb (bool_decide (nomNodeName = EmptyString)) then
    match nodeNameToInfo !! nomNodeName with
    | Some nodeInfo =>
        negb (existsb (λ p, bool_decide (is_Some (DeletionTimestamp (pod_Meta p))) &&
                            (GetPodPriority p <? GetPodPriority pod)) (ni_pods nodeInfo))
    | None => true
    end
  else true.

Definition getLowerPriorityNominatedPods queue pod (nodeName : string) : list Pod :=
  filter (λ p, GetPodPriority p <? GetPodPriority pod) (spq_NominatedPodsForNode queue nodeName).

(** [pvcs] is the lister of claims: an error, or the claim's name and deletion time. *)
Fixpoint podPassesBasicChecks (pvcs : string → string → error + (string * option Time)) (namespace : string)
    (volumes : list Volume) : option error :=
  match volumes with
  | [] => None
  | volume :: volumes =>
      match PersistentVolumeClaim volume with
      | None => podPassesBasicChecks pvcs namespace volumes
      | Some pvcName =>
          match pvcs namespace pvcName with
          | inl err => Some err
          | inr (name, deletionTimestamp) =>
              match deletionTimestamp with
              | Some _ => Some ("persistentvolumeclaim " +:+ quoted name +:+ " is being deleted")%string
              | None => podPassesBasicChecks pvcs namespace volumes
              end
          end
      end
  end.

(** ** Finding the nodes that fit *)

(** The state the workers share: the tree that hands out names, the number of pieces begun, the
    names that are being checked, the nodes found (at most [numNodesToFind]), whether the
    search was cancelled, and what failed. *)
Record search := MkSearch {
  se_tree : NodeTree;
  se_begun : nat;
  se_running : list string;
  se_filtered : list Node;
  se_cancelled : bool;
  se_failed : FailedPredicateMap;
  se_errs : gmap string Z
}.

(** A step of some worker: it takes a name from the tree, or finishes the check of the
    i-th name that is being checked, whose node must have an object if it fits: a nil
    node would be dereferenced by the caller. A worker looks for a cancellation before it
    takes a piece, so pieces may still begin after it. The count is raised and, when it
    exceeds the number asked for, lowered again: in between only workers that find the list
    full see the higher value, so the two steps are one here. The tree and the snapshot are
    not changed by events in the meantime. *)
Inductive work := Begin | Finish (i : nat).

Definition search_step (snapshot : gmap string NodeInfo)
    (check : string → bool * list PredicateFailureReason * option error) (allNodes : nat) (numNodesToFind : Z)
    (s : search) (w : work) : comp search :=
  match w with
  | Begin =>
      if bool_decide (se_begun s < allNodes)%nat then
        '(tree, nodeName) ← NodeTree_Next (se_tree s);
        Some (MkSearch tree (S (se_begun s)) (se_running s ++ [nodeName]) (se_filtered s) (se_cancelled s)
                (se_failed s) (se_errs s))
      else None
  | Finish i =>
      nodeName ← se_running s !! i;
      let running := slice_delete i (se_running s) in
      let '(fits, failedPredicates, err) := check nodeName in
      match err with
      | Some err =>
          Some (MkSearch (se_tree s) (se_begun s) running (se_filtered s) (se_cancelled s) (se_failed s)
                  (<[err := default 0 (se_errs s !! err) + 1]> (se_errs s)))
      | None =>
          if fits : bool then
            if numNodesToFind <? Z.of_nat (length (se_filtered s)) + 1 then
              Some (MkSearch (se_tree s) (se_begun s) running (se_filtered s) true (se_failed s) (se_errs s))
            else
              info ← snapshot !! nodeName;
              node ← ni_node info;
              Some (MkSearch (se_tree s) (se_begun s) running (se_filtered s ++ [node]) (se_cancelled s)
                      (se_failed s) (se_errs s))
          else
            Some (MkSearch (se_tree s) (se_begun s) running (se_filtered s) (se_cancelled s)
                    (<[nodeName := failedPredicates]> (se_failed s)) (se_errs s))
      end
  end.

(** [ParallelizeUntil] returns when no worker is busy and the pieces are done or the
    search was cancelled. *)
Definition search_done (allNodes : nat) (s : search) : bool :=
  bool_decide (se_running s = []) && (bool_decide (se_begun s = allNodes) || se_cancelled s).
Definition run_search snapshot check (allNodes : nat) (numNodesToFind : Z) (s : search) (schedule : list work) :
    comp search :=
  s ← foldl (λ r w, s ← r; search_step snapshot check allNodes numNodesToFind s w) (Some s) schedule;
  if search_done allNodes s then Some s else None.

(** The filters of the extenders, in their order. *)
Fixpoint filter_extenders pod (snapshot : gmap string NodeInfo) (extenders : list SchedulerExtender)
    (filtered : list (option Node)) (failed : FailedPredicateMap) : comp (error + (list (option Node) * FailedPredicateMap)) :=
  match extenders with
  | [] => Some (inr (filtered, failed))
  | extender :: extenders =>
      if negb (ext_IsInterested extender pod) then filter_extenders pod snapshot extenders filtered failed
      else
        r ← ext_Filter extender pod filtered snapshot;
        match r with
        | inl err =>
            if ext_IsIgnorable extender then filter_extenders pod snapshot extenders filtered failed else Some (inl err)
        | inr (filteredList, failedMap) =>
            let failed := foldl (λ (m : FailedPredicateMap) e,
              <[e.1 := default [] (m !! e.1) ++ [FailureReason e.2]]> m) failed (range failedMap) in
            if bool_decide (length filteredList = O) then Some (inr (filteredList, failed))
            else filter_extenders pod snapshot extenders filteredList failed
        end
  end.

(** ** Scores *)

Definition EqualPriorityMap (nodeInfo : option NodeInfo) : error + HostPriority :=
  match NodeInfo_Node nodeInfo with
  | None => inl "node not found"%string
  | Some node => inr (MkHostPriority (node_Name node) 1)
  end.

Fixpoint equal_priorities (nodeNameToInfo : gmap string NodeInfo) (nodes : list Node) : error + HostPriorityList :=
  match nodes with
  | [] => inr []
  | node :: nodes =>
      match EqualPriorityMap (nodeNameToInfo !! node_Name node) with
      | inl err => inl err
      | inr hp => match equal_priorities nodeNameToInfo nodes with inl err => inl err | inr l => inr (hp :: l) end
      end
  end.

(** The scores of one priority function for all nodes, with the errors it reported;
    [Reduce] runs also after errors. *)
Definition config_scores pod (nodeNameToInfo : gmap string NodeInfo) (meta : PM) (nodes : list Node)
    (config : PriorityConfig PM) : comp (HostPriorityList * list error) :=
  '(scores, errs) ←
    match pc_Function config with
    | Some f => '(l, err) ← f pod nodeNameToInfo nodes; Some (l, option_list err)
    | None =>
        l ← mapM (λ node,
          '(hp, err) ← pc_Map config pod meta (nodeNameToInfo !! node_Name node);
          Some (match err with Some _ => MkHostPriority (node_Name node) (Score hp) | None => hp end, err)) nodes;
        Some (l.*1, l.*2 ≫= option_list)
    end;
  match pc_Reduce config with
  | None => Some (scores, errs)
  | Some reduce => '(scores, err) ← reduce pod meta nodeNameToInfo scores; Some (scores, errs ++ option_list err)
  end.

(** The weighted sum of the scores of node [i]; a list of scores that is too short is
    read out of range. *)
Fixpoint weighted_sum (i : nat) (score : Z) (results : list (HostPriorityList * Z)) : comp Z :=
  match results with
  | [] => Some score
  | (l, weight) :: results =>
      hp ← l !! i;
      weighted_sum i (add64 score (mul64 (Score hp) weight)) results
  end.
Fixpoint sum_scores (i : nat) (nodes : list Node) (results : list (HostPriorityList * Z)) : comp HostPriorityList :=
  match nodes with
  | [] => Some []
  | node :: nodes =>
      score ← weighted_sum i 0 results;
      rest ← sum_scores (S i) nodes results;
      Some (MkHostPriority (node_Name node) score :: rest)
  end.

(** The scores of the extenders; an error of one is ignored. *)
Definition combinedScores pod (nodes : list Node) (extenders : list SchedulerExtender) : gmap string Z :=
  foldl (λ scores extender,
    if negb (ext_IsInterested extender pod) then scores
    else
      match ext_Prioritize extender pod nodes with
      | inl _ => scores
      | inr (prioritizedList, weight) =>
          foldl (λ (scores : gmap string Z) hp,
            <[Host hp := add64 (default 0 (scores !! Host hp)) (mul64 (Score hp) weight)]> scores) scores prioritizedList
      end) ∅ extenders.

(** The goroutines of the priority functions are independent; the order of the errors
    in the aggregate is that of the configuration. *)
Definition PrioritizeNodes pod (nodeNameToInfo : gmap string NodeInfo) (meta : PM)
    (priorityConfigs : list (PriorityConfig PM)) (nodes : list Node) (extenders : list SchedulerExtender) :
    comp (error + HostPriorityList) :=
  if bool_decide (length priorityConfigs = O) && bool_decide (length extenders = O) then
    Some (equal_priorities nodeNameToInfo nodes)
  else
    results ← mapM (config_scores pod nodeNameToInfo meta nodes) priorityConfigs;
    let errs := concat (map snd results) in
    if negb (bool_decide (length errs = O)) then Some (inl (NewAggregate errs))
    else
      result ← sum_scores O nodes (zip (map fst results) (map pc_Weight priorityConfigs));
      let combined := combinedScores pod nodes extenders in
      Some (inr (if negb (bool_decide (length extenders = O)) then
                   map (λ hp, MkHostPriority (Host hp) (add64 (Score hp) (default 0 (combined !! Host hp)))) result
                 else result)).

(** ** The scheduler *)

Record genericScheduler := MkGenericScheduler {
  gs_cache : schedulerCache;
  gs_queue : Q;
  gs_predicates : gmap string (FitPredicate M);
  gs_ordering : list string;
  gs_predicateMetaProducer : Pod → gmap string NodeInfo → option M;
  gs_prioritizers : list (PriorityConfig PM);
  gs_priorityMetaProducer : Pod → gmap string NodeInfo → PM;
  gs_extenders : list SchedulerExtender;
  gs_lastNodeIndex : Z;
  gs_alwaysCheckAllPredicates : bool;
  gs_percentageOfNodesToScore : Z
}.
Implicit Type g : genericScheduler.

Definition set_cache g (c : schedulerCache) : genericScheduler :=
  MkGenericScheduler c (gs_queue g) (gs_predicates g) (gs_ordering g) (gs_predicateMetaProducer g) (gs_prioritizers g)
    (gs_priorityMetaProducer g) (gs_extenders g) (gs_lastNodeIndex g) (gs_alwaysCheckAllPredicates g)
    (gs_percentageOfNodesToScore g).
Definition set_lastNodeIndex g (i : Z) : genericScheduler :=
  MkGenericScheduler (gs_cache g) (gs_queue g) (gs_predicates g) (gs_ordering g) (gs_predicateMetaProducer g)
    (gs_prioritizers g) (gs_priorityMetaProducer g) (gs_extenders g) i (gs_alwaysCheckAllPredicates g)
    (gs_percentageOfNodesToScore g).
(** The tree of a pool after its names were handed out. *)
Definition set_nodeTree g (poolName : string) (nt : NodeTree) : genericScheduler :=
  match ca_pools (gs_cache g) !! poolName with
  | Some p => set_cache g (set_pools (gs_cache g)
      (<[poolName := set_tree p nt (pi_capacity p) (pi_allocatable p)]> (ca_pools (gs_cache g))) (ca_store (gs_cache g)))
  | None => g
  end.

(** [g.cache.NodeInfoSnapshot(poolName).NodeInfoMap] *)
Definition snapshot_of g (poolName : string) : comp (gmap string NodeInfo) :=
  NodeInfoMap <$> Cache_NodeInfoSnapshot (gs_cache g) poolName.

(** What a worker finds out about the node of a name. *)
Definition checkNode (gen : Z) g pod (snapshot : gmap string NodeInfo) (nodeName : string) :
    bool * list PredicateFailureReason * option error :=
  podFitsOnNode gen pod (gs_predicateMetaProducer g pod snapshot) (snapshot !! nodeName) (gs_predicates g)
    (gs_ordering g) (gs_queue g) (gs_alwaysCheckAllPredicates g).

(** The name of every node that is returned is read next, so a nil node among them is a panic. *)
Definition findNodesThatFit (schedule : list work) g (poolName : string) pod (nodes : list Node) :
    comp (genericScheduler * (error + (list Node * FailedPredicateMap))) :=
  snapshot ← snapshot_of g poolName;
  '(g, r) ← (if bool_decide (size (gs_predicates g) = O) then Some (g, inr (nodes, ∅))
             else
               tree ← Cache_NodeTree (gs_cache g) poolName;
               let allNodes := wrap32 (NodeTree_NumNodes tree) in
               let numNodesToFind := numFeasibleNodesToFind (gs_percentageOfNodesToScore g) allNodes in
               let check := checkNode (st_gen (ca_store (gs_cache g))) g pod snapshot in
               _ ← (if numNodesToFind <? 0 then panic else Some tt);
               s ← run_search snapshot check (Z.to_nat allNodes) numNodesToFind
                     (MkSearch tree O [] [] false ∅ ∅) schedule;
               let g := set_nodeTree g poolName (se_tree s) in
               Some (g, if negb (bool_decide (size (se_errs s) = O))
                        then inl (CreateAggregateFromMessageCountMap (se_errs s))
                        else inr (se_filtered s, se_failed s)));
  match r with
  | inl err => Some (g, inl err)
  | inr (filtered, failed) =>
      if negb (bool_decide (length filtered = O)) && negb (bool_decide (length (gs_extenders g) = O)) then
        r ← filter_extenders pod snapshot (gs_extenders g) (Some <$> filtered) failed;
        match r with
        | inl err => Some (g, inl err)
        | inr (nodes, failed) => nodes ← mapM id nodes; Some (g, inr (nodes, failed))
        end
      else Some (g, inr (filtered, failed))
  end.

(** [pvcs] and [nodeList] are the answers of the listers. *)
Definition Schedule (balancedVolumesEnabled : bool) (schedule : list work) g (poolName : string) pod
    (pvcs : string → string → error + (string * option Time)) (nodeList : error + list Node) :
    comp (genericScheduler * (ScheduleError + ScheduleResult)) :=
  match podPassesBasicChecks pvcs (pod_Namespace pod) (Volumes (pod_Spec pod)) with
  | Some err => Some (g, inl (ErrOther err))
  | None =>
  match nodeList with
  | inl err => Some (g, inl (ErrOther err))
  | inr nodes =>
  if bool_decide (length nodes = O) then Some (g, inl ErrNoNodesAvailable)
  else
  '(c, err) ← Cache_UpdateNodeInfoSnapshot balancedVolumesEnabled (gs_cache g) poolName;
  let g := set_cache g c in
  match err with
  | Some err => Some (g, inl (ErrOther err))
  | None =>
  '(g, r) ← findNodesThatFit schedule g poolName pod nodes;
  match r with
  | inl err => Some (g, inl (ErrOther err))
  | inr (filteredNodes, failedPredicateMap) =>
      match filteredNodes with
      | [] => Some (g, inl (FitError pod (Z.of_nat (length nodes)) failedPredicateMap))
      | [node] => Some (g, inr (MkScheduleResult (node_Name node) (1 + Z.of_nat (size failedPredicateMap)) 1))
      | _ =>
          snapshot ← snapshot_of g poolName;
          scores ← PrioritizeNodes pod snapshot (gs_priorityMetaProducer g pod snapshot) (gs_prioritizers g)
                     filteredNodes (gs_extenders g);
          match scores with
          | inl err => Some (g, inl (ErrOther err))
          | inr priorityList =>
              '(last, host) ← selectHost (gs_lastNodeIndex g) priorityList;
              let g := set_lastNodeIndex g last in
              match host with
              | inl err => Some (g, inl (ErrOther err))
              | inr host =>
                  Some (g, inr (MkScheduleResult host
                                  (Z.of_nat (length filteredNodes) + Z.of_nat (size failedPredicateMap))
                                  (Z.of_nat (length filteredNodes))))
              end
          end
      end
  end
  end
  end
  end.

(** ** Preemption *)

Fixpoint process_extenders pod (snapshot : gmap string NodeInfo) (extenders : list SchedulerExtender)
    (nodeToVictims : list (option Node * Victims)) : comp (error + list (option Node * Victims)) :=
  match extenders with
  | [] => Some (inr nodeToVictims)
  | extender :: extenders =>
      if ext_SupportsPreemption extender && ext_IsInterested extender pod then
        r ← ext_ProcessPreemption extender pod nodeToVictims snapshot;
        match r with
        | inl err =>
            if ext_IsIgnorable extender then process_extenders pod snapshot extenders nodeToVictims else Some (inl err)
        | inr newNodeToVictims =>
            if bool_decide (length newNodeToVictims = O) then Some (inr newNodeToVictims)
            else process_extenders pod snapshot extenders newNodeToVictims
        end
      else process_extenders pod snapshot extenders nodeToVictims
  end.
Definition processPreemptionWithExtenders pod snapshot (extenders : list SchedulerExtender)
    (nodeToVictims : list (option Node * Victims)) : comp (error + list (option Node * Victims)) :=
  if negb (bool_decide (length nodeToVictims = O)) then process_extenders pod snapshot extenders nodeToVictims
  else Some (inr nodeToVictims).

(** The chosen node, its victims, the pods whose nomination is to be cleared, the error and
    whether to borrow. *)
Record PreemptResult := MkPreemptResult {
  pr_Node : option Node;
  pr_Victims : list Pod;
  pr_Nominated : list Pod;
  pr_Err : option ScheduleError;
  pr_NeedBorrow : bool
}.

(** [pdbs] is the answer of the lister of budgets, and [iterate] the order in which the
    map from nodes to victims is visited; a [Node] stands for its pointer. *)
Definition Preempt g (poolName : string) pod (scheduleErr : ScheduleError)
    (pdbs : error + list PodDisruptionBudget) (iterate : list (option Node * Victims) → list (option Node * Victims)) :
    comp PreemptResult :=
  match scheduleErr with
  | FitError _ _ failedPredicates =>
  match Cache_NodeInfoSnapshot (gs_cache g) poolName with
  | None => Some (MkPreemptResult None [] [] (Some (ErrOther ("NodeInfoSnapshot of pool queue " +:+ poolName +:+ " not exists")%string)) false)
  | Some nodeInfoSnapshot =>
  let snapshot := NodeInfoMap nodeInfoSnapshot in
  if negb (podEligibleToPreemptOthers pod snapshot) then Some (MkPreemptResult None [] [] None false)
  else
  let allNodes := NodeInfoSnapshot_Nodes nodeInfoSnapshot in
  if bool_decide (length allNodes = O) then Some (MkPreemptResult None [] [] (Some ErrNoNodesAvailable) true)
  else
  let potentialNodes := nodesWherePreemptionMightHelp allNodes failedPredicates in
  if bool_decide (length potentialNodes = O) then Some (MkPreemptResult None [] [pod] None true)
  else
  match pdbs with
  | inl err => Some (MkPreemptResult None [] [] (Some (ErrOther err)) false)
  | inr pdbs =>
  nodeToVictims ← selectNodesForPreemption (st_gen (ca_store (gs_cache g))) poolName pod snapshot potentialNodes
      (gs_predicates g) (gs_ordering g) (gs_predicateMetaProducer g pod snapshot) (gs_queue g) pdbs;
  r ← processPreemptionWithExtenders pod snapshot (gs_extenders g) (prod_map Some id <$> nodeToVictims);
  match r with
  | inl err => Some (MkPreemptResult None [] [] (Some (ErrOther err)) false)
  | inr nodeToVictims =>
  match mjoin (pickOneNodeForPreemption (iterate nodeToVictims) poolName (gs_queue g)) with
  | None => Some (MkPreemptResult None [] [] None true)
  | Some candidateNode =>
      let nominatedPods := getLowerPriorityNominatedPods (gs_queue g) pod (node_Name candidateNode) in
      match snapshot !! node_Name candidateNode with
      | Some nodeInfo =>
          victims ← snd <$> list_find (λ e, e.1 = Some candidateNode) nodeToVictims;
          Some (MkPreemptResult (ni_node nodeInfo) (victim_Pods victims.2) nominatedPods None false)
      | None =>
          Some (MkPreemptResult None [] [] (Some (ErrOther
            ("preemption failed: the target node " +:+ node_Name candidateNode +:+
             " has been deleted from scheduler cache")%string)) false)
      end
  end
  end
  end
  end
  | _ => Some (MkPreemptResult None [] [] None false)
  end.

End generic_scheduler.
