(* ===== verification/GenericSchedulerProofs.v ===== *)
(** * The scheduling algorithm: proofs

    Choosing a host and a node for preemption are shown to be what their comments say;
    a pod fits on a node if all predicates pass with and without the pods nominated
    to it; the search for nodes is correct under every interleaving of the workers; and
    the victims of a preemption are enough and each of them necessary. *)
From S2P Require Import Prelude Heap Api Util Resource HostPorts NodeTree NodeInfo PoolInfo PoolInfoProofs Predicates Cache CacheProofs GenericScheduler.

(** ** Choosing a host *)

(** The entries of highest score, in order. *)
Definition best (l : HostPriorityList) : HostPriorityList :=
  filter (λ hp, forallb (λ hp', Score hp' <=? Score hp) l) l.

Lemma filter_none {A} (P1 : A → Prop) `{!∀ x, Decision (P1 x)} (l : list A) : (∀ x, x ∈ l → ¬ P1 x) → filter P1 l = [].
Proof.
  induction l as [|x l IH]; intros Hl; [done|]. rewrite filter_cons_False by (apply Hl; by left).
  apply IH. intros y Hy. apply Hl. by right.
Qed.
Lemma filter_all {A} (P1 : A → Prop) `{!∀ x, Decision (P1 x)} (l : list A) : (∀ x, x ∈ l → P1 x) → filter P1 l = l.
Proof.
  induction l as [|x l IH]; intros Hl; [done|]. rewrite filter_cons_True by (apply Hl; by left).
  f_equal. apply IH. intros y Hy. apply Hl. by right.
Qed.

Lemma findMaxScores_loop_spec l : ∀ pre m acc,
  Forall2 (λ j hp, pre !! j = Some hp) acc (filter (λ hp, Score hp = m) pre) →
  (∀ hp, hp ∈ pre → Score hp <= m) → (∃ hp, hp ∈ pre ++ l ∧ Score hp = m) →
  ∃ m', Forall2 (λ j hp, (pre ++ l) !! j = Some hp) (findMaxScores_loop (length pre) m acc l)
          (filter (λ hp, Score hp = m') (pre ++ l)) ∧
    (∀ hp, hp ∈ pre ++ l → Score hp <= m') ∧ (∃ hp, hp ∈ pre ++ l ∧ Score hp = m').
Proof.
  induction l as [|hp l IH]; intros pre m acc Hacc Hle Hex; cbn [findMaxScores_loop].
  { exists m. rewrite app_nil_r in *. done. }
  assert (pre ++ hp :: l = (pre ++ [hp]) ++ l) as -> by (by rewrite <-app_assoc).
  assert (S (length pre) = length (pre ++ [hp])) as -> by (rewrite length_app; simpl; lia).
  assert (∀ a b, Forall2 (λ j hp, pre !! j = Some hp) a b → Forall2 (λ j hp0, (pre ++ [hp]) !! j = Some hp0) a b) as Hmono.
  { intros a b HF. eapply Forall2_impl; [exact HF|]. intros j x E. by apply lookup_app_l_Some. }
  assert ((pre ++ [hp]) !! length pre = Some hp) as Hhp by (by rewrite list_lookup_middle).
  destruct (m <? Score hp) eqn:E1; [|destruct (Score hp =? m) eqn:E2]; bool_to_prop; apply IH.
  - rewrite filter_app, filter_cons_True by done. rewrite filter_nil.
    assert (filter (λ x, Score x = Score hp) pre = []) as ->; [|by repeat constructor].
    apply filter_none. intros x Hx E. specialize (Hle x Hx). lia.
  - intros x [Hx|[->|[]%not_elem_of_nil]%elem_of_cons]%elem_of_app; [specialize (Hle x Hx)|]; lia.
  - exists hp. split; [|done]. set_solver.
  - rewrite filter_app, filter_cons_True by done. rewrite filter_nil. apply Forall2_app; [by apply Hmono|by repeat constructor].
  - intros x [Hx|[->|[]%not_elem_of_nil]%elem_of_cons]%elem_of_app; [by apply Hle|lia].
  - exists hp. split; [|done]. set_solver.
  - rewrite filter_app, filter_cons_False, filter_nil, app_nil_r by done. by apply Hmono.
  - intros x [Hx|[->|[]%not_elem_of_nil]%elem_of_cons]%elem_of_app; [by apply Hle|lia].
  - destruct Hex as (x & Hx & E). exists x. split; [|done]. set_solver.
Qed.

Lemma findMaxScores_spec l : l ≠ [] →
  ∃ ixs, findMaxScores l = Some ixs ∧ Forall2 (λ j hp, l !! j = Some hp) ixs (best l) ∧ best l ≠ [].
Proof.
  intros Hne. destruct l as [|hp0 l0]; [done|]. set (l := hp0 :: l0). unfold findMaxScores.
  change (l !! 0%nat) with (Some hp0). cbn [mbind option_bind]. eexists. split; [done|].
  destruct (findMaxScores_loop_spec l [] (Score hp0) []) as (m & HF & Hle & hp & Hhp & Em).
  - constructor.
  - intros hp []%not_elem_of_nil.
  - exists hp0. split; [by left|done].
  - simpl in HF, Hle, Hhp.
    assert (filter (λ hp, Score hp = m) l = best l) as Eb.
    { unfold best. apply filter_ext_in. intros x Hxl. rewrite Is_true_true, forallb_forall. split.
      - intros E y Hy. apply list_elem_of_In, Hle in Hy. apply Z.leb_le. lia.
      - intros Hx. apply list_elem_of_In, Hx, Z.leb_le in Hhp. apply Hle in Hxl. lia. }
    rewrite Eb in HF. split; [exact HF|]. rewrite <-Eb. intros E. assert (hp ∈ filter (λ hp, Score hp = m) l) as Hin
      by (by apply list_elem_of_filter). rewrite E in Hin. by apply not_elem_of_nil in Hin.
Qed.

(** A pod goes to a node of highest score, and ties are broken in turn: the host is
    the entry at [lastNodeIndex] modulo the number of best nodes, and the index is
    counted up, so successive calls go round all best nodes. *)
Theorem selectHost_round_robin lastNodeIndex l :
  0 <= lastNodeIndex → l ≠ [] →
  ∃ hp, selectHost lastNodeIndex l = Some ((lastNodeIndex + 1) mod 2 ^ 64, inr (Host hp)) ∧
    best l !! Z.to_nat (lastNodeIndex mod Z.of_nat (length (best l))) = Some hp ∧
    ∀ hp', hp' ∈ l → Score hp' <= Score hp.
Proof.
  intros Hi Hne. destruct (findMaxScores_spec l Hne) as (ixs & E & HF & Hb). unfold selectHost.
  rewrite bool_decide_false by (by destruct l). rewrite E. cbn [mbind option_bind].
  pose proof (Forall2_length _ _ _ HF) as Hlen. rewrite Hlen.
  set (ix := Z.to_nat (lastNodeIndex mod Z.of_nat (length (best l)))).
  assert (ix < length (best l))%nat as Hix.
  { assert (0 < length (best l))%nat by (destruct (best l); [done|simpl; lia]).
    pose proof (Z.mod_pos_bound lastNodeIndex (Z.of_nat (length (best l)))). unfold ix. lia. }
  destruct (lookup_lt_is_Some_2 _ _ Hix) as [hp Ehp].
  destruct (Forall2_lookup_r _ _ _ _ _ HF Ehp) as (j & Ej & El). rewrite Ej. cbn [mbind option_bind]. rewrite El.
  exists hp. split_and!; [done|done|]. apply list_elem_of_lookup_2 in Ehp. unfold best in Ehp.
  apply list_elem_of_filter in Ehp as [Hf _]. apply Is_true_true in Hf. rewrite forallb_forall in Hf.
  intros hp' Hhp'. apply Z.leb_le, Hf. by apply list_elem_of_In.
Qed.

Lemma numFeasible_eq p n :
  0 <= n → n * 100 <= MaxInt32 →
  numFeasibleNodesToFind p n =
    if (n <? 100) || (100 <=? p) then n
    else Z.max 100 (n * (if p <=? 0 then Z.max 5 (50 - n / 125) else p) / 100).
Proof.
  intros Hn Hov. unfold MaxInt32 in Hov.
  assert (∀ a, 0 <= a <= 100 → Z.quot (wrap32 (n * a)) 100 = n * a / 100) as Hq.
  { intros a Ha. rewrite wrap32_id by (unfold int32, MinInt32, MaxInt32; nia). apply Z.quot_div_nonneg; nia. }
  assert (Z.quot n 125 = n / 125) as Hd by (apply Z.quot_div_nonneg; lia).
  assert (0 <= n / 125 <= n) as Hd' by divlia.
  assert (wrap32 (50 - n / 125) = 50 - n / 125) as Hw by (apply wrap32_id; unfold int32, MinInt32, MaxInt32; lia).
  unfold numFeasibleNodesToFind, minFeasibleNodesToFind, minFeasibleNodesPercentageToFind,
    DefaultPercentageOfNodesToScore. rewrite Hd, Hw.
  destruct ((n <? 100) || (100 <=? p)) eqn:E; [done|]. bool_to_prop.
  assert ((if p <=? 0 then if 50 - n / 125 <? 5 then 5 else 50 - n / 125 else p) =
    (if p <=? 0 then Z.max 5 (50 - n / 125) else p)) as ->
    by (destruct (p <=? 0), (50 - n / 125 <? 5) eqn:E5; bool_to_prop; lia).
  set (a := if p <=? 0 then _ else p). assert (0 <= a <= 100) as Ha
    by (unfold a; destruct (p <=? 0) eqn:Ep; bool_to_prop; lia).
  rewrite (Hq a Ha). destruct (n * a / 100 <? 100) eqn:En; bool_to_prop; lia.
Qed.

Lemma numFeasible_range p n :
  0 <= n → n * 100 <= MaxInt32 → Z.min n 100 <= numFeasibleNodesToFind p n <= n.
Proof.
  intros Hn Hov. rewrite numFeasible_eq by done. destruct ((n <? 100) || (100 <=? p)) eqn:E; bool_to_prop; [lia|].
  set (a := if p <=? 0 then _ else p). assert (0 <= a <= 100) as Ha
    by (unfold a; destruct (p <=? 0) eqn:Ep; bool_to_prop; divlia).
  assert (n * a / 100 <= n) by (apply Z.div_le_upper_bound; nia). lia.
Qed.

(** How many feasible nodes are looked for: all of them in a small cluster, otherwise the
    configured percentage, or one that falls from 50 to 5 with the size of the cluster, but at
    least 100 and never more than there are. *)
Theorem numFeasibleNodes_bounds p n :
  0 <= n → n * 100 <= MaxInt32 →
  let r := numFeasibleNodesToFind p n in
  Z.min n 100 <= r <= n ∧ (100 <= p → r = n) ∧
  (100 <= n → 0 < p < 100 → r = Z.max 100 (n * p / 100)) ∧
  (100 <= n → p <= 0 → r = Z.max 100 (n * Z.max 5 (50 - n / 125) / 100)).
Proof.
  intros Hn Hov r. split; [by apply numFeasible_range|]. unfold r. rewrite numFeasible_eq by done.
  destruct (n <? 100) eqn:E1, (100 <=? p) eqn:E2, (p <=? 0) eqn:E3; bool_to_prop; cbn [orb]; split_and!; intros; lia.
Qed.

(** ** Choosing a node for preemption *)

Lemma keep_min_fold {A} (key : A → Z) l : ∀ m acc,
  ∃ m' acc', foldl (keep_min_step key) (m, acc) l = (m', acc') ∧ m' <= m ∧
    (∀ x, x ∈ l → m' <= key x) ∧
    (∀ x, x ∈ acc' ↔ (x ∈ acc ∧ m' = m) ∨ (x ∈ l ∧ key x = m')) ∧
    (m' < m → acc' ≠ []).
Proof.
  induction l as [|x l IH]; intros m acc.
  { exists m, acc. split_and!; [done|lia|by intros ? ?%not_elem_of_nil| |lia]. intros x. rewrite elem_of_nil. tauto. }
  cbn [foldl]. unfold keep_min_step at 2. cbn [fst snd].
  destruct (key x <? m) eqn:E1; bool_to_prop; cbn [fst snd].
  - rewrite Z.eqb_refl. destruct (IH (key x) ([] ++ [x])) as (m' & acc' & E & Hm & Hl & Hacc & Hne).
    exists m', acc'. split_and!; [done|lia| | |].
    + intros y [->|Hy]%elem_of_cons; [done|by apply Hl].
    + intros y. rewrite Hacc, elem_of_cons. simpl. rewrite list_elem_of_singleton. split.
      * intros [[-> ->]|[? ?]]; [by right; auto|by right; auto].
      * intros [[_ ?]|[[->|?] ?]]; [lia|by left|by right].
    + intros _ ->. specialize (Hacc x). simpl in Hacc. destruct (decide (m' = key x)) as [Ex|Ex].
      * assert (x ∈ ([] : list A)) as []%not_elem_of_nil. apply Hacc. left. split; [by left|done].
      * apply Hne; [lia|done].
  - destruct (key x =? m) eqn:E2; bool_to_prop; cbn [fst snd].
    + destruct (IH m (acc ++ [x])) as (m' & acc' & E & Hm & Hl & Hacc & Hne). exists m', acc'.
      split_and!; [done|lia| | |done].
      * intros y [->|Hy]%elem_of_cons; [lia|by apply Hl].
      * intros y. rewrite Hacc, elem_of_app, list_elem_of_singleton, elem_of_cons. split.
        -- intros [[[?| ->] ->]|[? ?]]; auto.
        -- intros [[? ->]|[[->|?] ?]]; auto. left. split; [by right|lia].
    + destruct (IH m acc) as (m' & acc' & E & Hm & Hl & Hacc & Hne). exists m', acc'.
      split_and!; [done|lia| | |done].
      * intros y [->|Hy]%elem_of_cons; [lia|by apply Hl].
      * intros y. rewrite Hacc, elem_of_cons. split; [intros [?|[? ?]]; auto|].
        intros [?|[[->|?] ?]]; auto. lia.
Qed.

Lemma keep_min_spec {A} (key : A → Z) start l :
  (∀ x, x ∈ l → key x <= start) →
  (∀ x, x ∈ keep_min key start l ↔ x ∈ l ∧ ∀ y, y ∈ l → key x <= key y) ∧ (l ≠ [] → keep_min key start l ≠ []).
Proof.
  intros Hs. unfold keep_min. destruct (keep_min_fold key l start []) as (m & acc & -> & Hm & Hl & Hacc & Hne). simpl.
  assert (l ≠ [] → ∃ x, x ∈ l ∧ key x = m) as Hex.
  { intros Hnil. destruct (decide (m < start)) as [Hlt|Hge].
    - destruct acc as [|x acc]; [by destruct (Hne Hlt)|]. destruct (proj1 (Hacc x)) as [[[]%not_elem_of_nil _]|?]; [by left|eauto].
    - destruct l as [|x l]; [done|]. exists x. split; [by left|]. pose proof (Hl x (list_elem_of_here _ _)).
      pose proof (Hs x (list_elem_of_here _ _)). lia. }
  split.
  - intros x. rewrite Hacc, elem_of_nil. split.
    + intros [[[] _]|[Hx <-]]. split; [done|]. intros y Hy. by apply Hl.
    + intros [Hx Hmin]. right. split; [done|]. destruct Hex as (y & Hy & Ey); [by intros ->; apply not_elem_of_nil in Hx|].
      pose proof (Hl x Hx). pose proof (Hmin y Hy). lia.
  - intros Hnil ->. destruct (Hex Hnil) as (x & Hx & Ex). assert (x ∈ ([] : list A)) as []%not_elem_of_nil. apply Hacc. by right.
Qed.

(** The lexicographic order on the four criteria. *)
Definition lex4 (a b : Z * Z * Z * Z) : Prop :=
  let '(a1, a2, a3, a4) := a in
  let '(b1, b2, b3, b4) := b in
  a1 < b1 ∨ (a1 = b1 ∧ (a2 < b2 ∨ (a2 = b2 ∧ (a3 < b3 ∨ (a3 = b3 ∧ a4 <= b4))))).

(** The node that is returned is in every list of candidates that was computed. *)
Lemma four_rounds (l1 l2 l3 l4 : list (Node * Victims)) :
  l1 ≠ [] → l2 ≠ [] → l3 ≠ [] → l4 ≠ [] → l2 ⊆ l1 → l3 ⊆ l2 → l4 ⊆ l3 →
  ∃ e, match l1 with [e] => Some e.1 | _ => match l2 with [e] => Some e.1 | _ => match l3 with [e] => Some e.1 | _ =>
      match l4 with e :: _ => Some e.1 | [] => None end end end end = Some e.1 ∧ e ∈ l1 ∧
      (e ∈ l2 ∨ l1 = [e]) ∧ (e ∈ l3 ∨ l2 = [e] ∨ l1 = [e]) ∧ (e ∈ l4 ∨ l3 = [e] ∨ l2 = [e] ∨ l1 = [e]).
Proof.
  intros N1 N2 N3 N4 S2 S3 S4.
  destruct l1 as [|e1 [|e1' l1']] eqn:E1; [done|exists e1; split; [done|]; split_and!; auto; by left|].
  rewrite <-E1 in *. destruct l2 as [|e2 [|e2' l2']] eqn:E2; [done|exists e2; split; [done|]|].
  { assert (e2 ∈ [e2]) as Hin by (by left). rewrite <-E2 in *. split_and!; auto. }
  rewrite <-E2 in *. destruct l3 as [|e3 [|e3' l3']] eqn:E3; [done|exists e3; split; [done|]|].
  { assert (e3 ∈ [e3]) as Hin by (by left). rewrite <-E3 in *. split_and!; auto. }
  rewrite <-E3 in *. destruct l4 as [|e4 l4'] eqn:E4; [done|]. exists e4. split; [done|].
  assert (e4 ∈ e4 :: l4') as Hin by (by left). rewrite <-E4 in *. split_and!; auto.
Qed.

Section generic_proofs.
Context {K8s : K8sLib} {Range : MapRange} {Sort : GoSort} {Errs : ErrorsLib}.
Context {M PM Q : Type} {Meta : PredicateMetadata M} {Queue : SchedulingPoolQueue Q}.
Implicit Types (pod : Pod) (node : Node) (queue : Q) (info : NodeInfo) (meta : option M) (e : Node * Victims).

(** What evicting the victims of a node costs: violated budgets, the highest priority,
    the sum of the priorities, the number of pods. *)
Definition cost (poolName : string) queue (v : Victims) : Z * Z * Z * Z :=
  (NumPDBViolations v, highestPodPriority poolName queue v, sumPriorities poolName queue v, numPods v).

Lemma foldl_add64_int64 {A} (f : A → Z) l : ∀ s, int64 s → int64 (foldl (λ s p, add64 s (f p)) s l).
Proof. induction l as [|x l IH]; intros s Hs; [done|]. cbn [foldl]. apply IH, add64_int64. Qed.

(** C30: preemption takes the cheapest node: it returns a node without victims if there
    is one, and otherwise a node whose victims are least in the order of the
    criteria: violated disruption budgets, highest priority of a victim (pods of other pools
    counting lowest), sum of the priorities, number of victims; whatever the order in
    which the map is visited. It always returns a node of a non-empty map. *)
Theorem pickOneNode_cheapest l poolName queue :
  l ≠ [] →
  (∀ e, e ∈ l → NumPDBViolations e.2 <= MaxInt32 ∧ numPods e.2 <= MaxInt32 ∧
    ∀ p, p ∈ victim_Pods e.2 → int32 (GetPodPriority p)) →
  ∃ node v, pickOneNodeForPreemption l poolName queue = Some node ∧ (node, v) ∈ l ∧
    ((∃ e, e ∈ l ∧ victim_Pods e.2 = []) → victim_Pods v = []) ∧
    ((∀ e, e ∈ l → victim_Pods e.2 ≠ []) → ∀ e, e ∈ l → lex4 (cost poolName queue v) (cost poolName queue e.2)).
Proof.
  intros Hne Hb. unfold pickOneNodeForPreemption.
  destruct (list_find _ l) as [[i [node v]]|] eqn:Ef.
  { apply list_find_Some in Ef as (Ei & Ev & _). apply list_elem_of_lookup_2 in Ei. exists node, v.
    split_and!; [done|done|done|]. intros Hall. by destruct (Hall _ Ei). }
  apply list_find_None in Ef. rewrite Forall_forall in Ef.
  destruct (keep_min_spec (λ e, NumPDBViolations e.2) MaxInt32 l) as [H1 N1]; [intros e He; by apply Hb|].
  set (l1 := keep_min (λ e, NumPDBViolations e.2) MaxInt32 l) in *. specialize (N1 Hne).
  destruct (keep_min_spec (λ e, highestPodPriority poolName queue e.2) MaxInt32 l1) as [H2 N2].
  { intros e [He _]%H1. destruct (Hb e He) as (_ & _ & Hp). unfold highestPodPriority.
    destruct (victim_Pods e.2) as [|p ps] eqn:Ep; [by vm_compute|]. unfold victim_priority.
    destruct (Hp p) as [_ ?]; [by left|]. case_bool_decide; [done|by vm_compute]. }
  set (l2 := keep_min (λ e, highestPodPriority poolName queue e.2) MaxInt32 l1) in *. specialize (N2 N1).
  destruct (keep_min_spec (λ e, sumPriorities poolName queue e.2) MaxInt64 l2) as [H3 N3].
  { intros e _. apply (foldl_add64_int64 (λ p, victim_priority poolName queue p + (MaxInt32 + 1))). by vm_compute. }
  set (l3 := keep_min (λ e, sumPriorities poolName queue e.2) MaxInt64 l2) in *. specialize (N3 N2).
  destruct (keep_min_spec (λ e, numPods e.2) MaxInt32 l3) as [H4 N4].
  { intros e [[[He _]%H1 _]%H2 _]%H3. by apply Hb. }
  set (l4 := keep_min (λ e, numPods e.2) MaxInt32 l3) in *. specialize (N4 N3).
  destruct (four_rounds l1 l2 l3 l4) as (e & Ee & M1 & M2 & M3 & M4); [done|done|done|done|by intros e [? _]%H2|
    by intros e [? _]%H3|by intros e [? _]%H4|].
  destruct e as [node v]. exists node, v. split_and!.
  - exact Ee.
  - by apply H1.
  - intros (e & He & Ev). by destruct (Ef e He).
  - intros _ e He. unfold lex4, cost. apply H1 in M1 as [Hl Hmin1]. pose proof (Hmin1 e He) as L1. cbn [snd] in L1.
    destruct (decide (NumPDBViolations v = NumPDBViolations e.2)) as [Q1|Q1]; [right; split; [done|]|lia].
    assert (e ∈ l1) as He1 by (apply H1; split; [done|]; intros y Hy; pose proof (Hmin1 y Hy); simpl in *; lia).
    assert (∀ e0, l1 = [e0] → e = e0) as S1 by (intros e0 E; rewrite E in He1; by apply list_elem_of_singleton in He1).
    destruct M2 as [M2|M2]; [|rewrite (S1 _ M2); simpl; lia].
    apply H2 in M2 as [_ Hmin2]. pose proof (Hmin2 e He1) as L2. cbn [snd] in L2.
    destruct (decide (highestPodPriority poolName queue v = highestPodPriority poolName queue e.2)) as [Q2|Q2];
      [right; split; [done|]|lia].
    assert (e ∈ l2) as He2 by (apply H2; split; [done|]; intros y Hy; pose proof (Hmin2 y Hy); simpl in *; lia).
    assert (∀ e0, l2 = [e0] → e = e0) as S2 by (intros e0 E; rewrite E in He2; by apply list_elem_of_singleton in He2).
    destruct M3 as [M3|[M3|M3]]; [|rewrite (S2 _ M3); simpl; lia|rewrite (S1 _ M3); simpl; lia].
    apply H3 in M3 as [_ Hmin3]. pose proof (Hmin3 e He2) as L3. cbn [snd] in L3.
    destruct (decide (sumPriorities poolName queue v = sumPriorities poolName queue e.2)) as [Q3|Q3];
      [right; split; [done|]|lia].
    assert (e ∈ l3) as He3 by (apply H3; split; [done|]; intros y Hy; pose proof (Hmin3 y Hy); simpl in *; lia).
    destruct M4 as [M4|[M4|[M4|M4]]]; [|rewrite M4 in He3; apply list_elem_of_singleton in He3; subst e; simpl; lia|
      rewrite (S2 _ M4); simpl; lia|rewrite (S1 _ M4); simpl; lia].
    apply H4 in M4 as [_ Hmin4]. apply (Hmin4 e He3).
Qed.

(** ** Whether a pod fits on a node *)

(** All registered predicates of the ordering pass. *)
Definition passes pod meta (nodeInfo : option NodeInfo) (funcs : gmap string (FitPredicate M)) (ordering : list string) : Prop :=
  ∀ key predicate, key ∈ ordering → funcs !! key = Some predicate →
    (predicate pod meta nodeInfo).1.1 = true ∧ (predicate pod meta nodeInfo).2 = None.

(** A predicate that fails says why. *)
Definition gives_reasons (funcs : gmap string (FitPredicate M)) : Prop :=
  ∀ key predicate pod meta nodeInfo reasons, funcs !! key = Some predicate →
    predicate pod meta nodeInfo = (false, reasons, None) → reasons ≠ [].

Lemma run_predicates_mono pod meta ni funcs always ordering : ∀ failed r,
  run_predicates pod meta ni funcs always ordering failed = inr r → failed ≠ [] → r ≠ [].
Proof.
  induction ordering as [|key ordering IH]; intros failed r; cbn [run_predicates]; [by intros [= <-]|].
  destruct (funcs !! key) as [predicate|]; [|apply IH].
  destruct (predicate pod meta ni) as [[fit reasons] [err|]]; [done|].
  assert (failed ≠ [] → failed ++ reasons ≠ []) as Happ by (by destruct failed).
  destruct fit; cbn [negb]; [apply IH|]. destruct always; cbn [negb]; [intros E Hf; apply (IH _ _ E); auto|].
  intros [= <-]. auto.
Qed.

Lemma run_predicates_spec pod meta ni funcs always ordering :
  gives_reasons funcs →
  run_predicates pod meta ni funcs always ordering [] = inr [] ↔ passes pod meta ni funcs ordering.
Proof.
  intros Hr. induction ordering as [|key ordering IH]; cbn [run_predicates].
  { split; [|done]. intros _ key p ?%not_elem_of_nil. done. }
  assert (passes pod meta ni funcs (key :: ordering) ↔
    (∀ p, funcs !! key = Some p → (p pod meta ni).1.1 = true ∧ (p pod meta ni).2 = None) ∧ passes pod meta ni funcs ordering)
    as ->.
  { unfold passes. split.
    - intros Hp. split; [intros p E; apply (Hp key); [by left|done]|]. intros k p Hk. apply Hp. by right.
    - intros [Hk Hp] k p [->|?]%elem_of_cons; [apply Hk|by apply Hp]. }
  destruct (funcs !! key) as [predicate|] eqn:Ek; [|rewrite IH; naive_solver].
  destruct (predicate pod meta ni) as [[fit reasons] [err|]] eqn:Ep.
  { split; [done|]. intros [Hk _]. destruct (Hk predicate eq_refl) as [_ Hk']. by rewrite Ep in Hk'. }
  destruct fit; cbn [negb].
  - rewrite IH. split; [|by intros [_ ?]]. intros Hp. split; [|done]. intros p [= <-]. by rewrite Ep.
  - split.
    + pose proof (Hr _ _ _ _ _ _ Ek Ep) as Hne. destruct always; cbn [negb]; simpl.
      * intros E. by destruct (run_predicates_mono _ _ _ _ _ _ _ _ E Hne).
      * intros [= ->]. done.
    + intros [Hk _]. destruct (Hk predicate eq_refl) as [Hk' _]. by rewrite Ep in Hk'.
Qed.

(** The pods nominated to a node that the pod must yield to. *)
Definition yields_to pod queue node : list Pod :=
  filter (λ p, (GetPodPriority pod <=? GetPodPriority p) && negb (bool_decide (pod_UID p = pod_UID pod)))
    (spq_NominatedPodsForNode queue (node_Name node)).

Lemma nominated_fold pod l : ∀ (s : Z * NodeInfo * option M),
  let r := foldl (λ (s : Z * NodeInfo * option M) p,
    let '(gen, info, meta) := s in
    if (GetPodPriority pod <=? GetPodPriority p) && negb (bool_decide (pod_UID p = pod_UID pod)) then
      let '(gen, info) := NodeInfo_AddPod gen info p in (gen, info, (λ m, meta_AddPod m p info) <$> meta)
    else s) s l in
  ni_pods r.1.2 = ni_pods s.1.2 ++
    filter (λ p, (GetPodPriority pod <=? GetPodPriority p) && negb (bool_decide (pod_UID p = pod_UID pod))) l ∧
  ni_node r.1.2 = ni_node s.1.2.
Proof.
  induction l as [|p l IH]; intros [[gen info] meta]; cbn [foldl]; [by rewrite app_nil_r|]. rewrite filter_cons.
  destruct ((GetPodPriority pod <=? GetPodPriority p) && negb (bool_decide (pod_UID p = pod_UID pod))) eqn:E;
    [rewrite decide_True by done|rewrite decide_False by auto; apply IH].
  destruct (NodeInfo_AddPod gen info p) as [gen' info'] eqn:Ea.
  destruct (IH (gen', info', (λ m, meta_AddPod m p info') <$> meta)) as [-> ->]. cbn [fst snd].
  unfold NodeInfo_AddPod in Ea. destruct (calculateResource p) as [[res cpu] mem]. injection Ea as <- <-. simpl.
  by rewrite <-app_assoc.
Qed.

End generic_proofs.

(** ** The search for nodes *)
Section search.
Context (snapshot : gmap string NodeInfo) (check : string → bool * list PredicateFailureReason * option error).
Context (tree0 : NodeTree) (allNodes : nat) (num : Z).
Implicit Types (s : search) (name : string).

(** The node of a name, when the pod fits on it. *)
Definition found name (node : Node) : Prop :=
  (∃ r, check name = (true, r, None)) ∧ ∃ info, snapshot !! name = Some info ∧ ni_node info = Some node.

(** What is known of a name whose check is over. *)
Definition settled s name : Prop :=
  (∃ r err, check name = (r, Some err) ∧ se_errs s ≠ ∅) ∨
  (∃ r, check name = (false, r, None) ∧ is_Some (se_failed s !! name)) ∨
  (∃ r, check name = (true, r, None)) ∧ (se_cancelled s = true ∨ ∃ node, found name node ∧ node ∈ se_filtered s).

Record search_inv s (names : list string) : Prop := {
  si_names : nexts (se_begun s) tree0 = Some (se_tree s, names);
  si_running name : name ∈ se_running s → name ∈ names;
  si_settled name : name ∈ names → name ∈ se_running s ∨ settled s name;
  si_found node : node ∈ se_filtered s → ∃ name, name ∈ names ∧ found name node;
  si_failed name r : se_failed s !! name = Some r → name ∈ names ∧ check name = (false, r, None);
  si_len : Z.of_nat (length (se_filtered s)) <= num;
  si_cancelled : se_cancelled s = true → Z.of_nat (length (se_filtered s)) = num ∧ names ≠ []
}.

Lemma search_init : 0 <= num → search_inv (MkSearch tree0 O [] [] false ∅ ∅) [].
Proof. intros Hn. split; simpl; try done; intros ? *; try by intros ?%not_elem_of_nil. Qed.

Lemma settled_mono s s' name :
  settled s name → (se_errs s ≠ ∅ → se_errs s' ≠ ∅) → (is_Some (se_failed s !! name) → is_Some (se_failed s' !! name)) →
  (se_cancelled s = true → se_cancelled s' = true) → (∀ node, node ∈ se_filtered s → node ∈ se_filtered s') →
  settled s' name.
Proof.
  intros Hs He Hf Hc Hn. destruct Hs as [(r & err & E & ?)|[(r & E & ?)|(Hr & [?|(node & ? & ?)])]].
  - left. exists r, err. auto.
  - right. left. exists r. auto.
  - right. right. auto.
  - right. right. split; [done|]. right. exists node. auto.
Qed.

Lemma running_delete (l : list string) i name : l !! i = Some name → ∀ x, x ∈ l → x = name ∨ x ∈ slice_delete i l.
Proof. intros E x Hx. rewrite (slice_delete_perm l i name E) in Hx. by apply elem_of_cons in Hx. Qed.

Lemma running_sub (l : list string) i name : l !! i = Some name → ∀ x, x ∈ slice_delete i l → x ∈ l.
Proof.
  intros E x Hx. assert (x ∈ name :: slice_delete i l) as Hx' by (by right).
  by rewrite <-(slice_delete_perm l i name E) in Hx'.
Qed.

Lemma search_finish s names i name s' :
  search_inv s names → se_running s !! i = Some name → se_begun s' = se_begun s → se_tree s' = se_tree s →
  se_running s' = slice_delete i (se_running s) → settled s' name →
  (se_errs s ≠ ∅ → se_errs s' ≠ ∅) → (∀ x, is_Some (se_failed s !! x) → is_Some (se_failed s' !! x)) →
  (se_cancelled s = true → se_cancelled s' = true) → (∀ node, node ∈ se_filtered s → node ∈ se_filtered s') →
  (∀ node, node ∈ se_filtered s' → node ∈ se_filtered s ∨ found name node) →
  (∀ x r, se_failed s' !! x = Some r → se_failed s !! x = Some r ∨ x = name ∧ check name = (false, r, None)) →
  Z.of_nat (length (se_filtered s')) <= num →
  (se_cancelled s' = true → Z.of_nat (length (se_filtered s')) = num) → search_inv s' names.
Proof.
  intros [Hnames Hrun Hset Hfound Hfailed Hlen Hcan] Ei Eb Et Er Hs He Hf Hc Hn Hn' Hf' Hl Hc'.
  pose proof (list_elem_of_lookup_2 _ _ _ Ei) as Hin. apply Hrun in Hin. split.
  - by rewrite Eb, Et.
  - rewrite Er. intros x Hx. eapply Hrun, running_sub; done.
  - intros x Hx. destruct (Hset x Hx) as [Hx'|Hx'].
    + destruct (running_delete _ _ _ Ei x Hx') as [->|?]; [by right|]. left. by rewrite Er.
    + right. eapply settled_mono; [done|done|apply Hf|done|done].
  - intros node [Hnode| Hnode]%Hn'; [by apply Hfound|]. by exists name.
  - intros x r [?|[-> ?]]%Hf'; [by apply Hfailed|done].
  - done.
  - intros Hcc. split; [by apply Hc'|]. by intros ->; apply not_elem_of_nil in Hin.
Qed.

Lemma search_step_inv s names w s' :
  search_inv s names → search_step snapshot check allNodes num s w = Some s' →
  ∃ names', search_inv s' names' ∧ (se_begun s ≤ allNodes → se_begun s' ≤ allNodes)%nat.
Proof.
  intros Hi. destruct w as [|i]; cbn [search_step].
  - case_bool_decide as Hlt; [|done]. destruct (NodeTree_Next (se_tree s)) as [[tree name]|] eqn:E; [|done].
    cbn [mbind option_bind]. intros [= <-]. exists (names ++ [name]). split; [|simpl; lia].
    destruct Hi as [Hnames Hrun Hset Hfound Hfailed Hlen Hcan].
    assert (nexts (se_begun s + 1) tree0 = Some (tree, names ++ [name])) as Hnames'
      by (eapply nexts_app; [done|]; cbn [nexts]; by rewrite E).
    rewrite Nat.add_1_r in Hnames'. split; cbn [se_begun se_tree se_running se_filtered se_failed se_cancelled].
    + exact Hnames'.
    + intros x [?|?]%elem_of_app; apply elem_of_app; [left; by apply Hrun|by right].
    + intros x [Hx|Hx]%elem_of_app; [|left; apply elem_of_app; by right].
      destruct (Hset x Hx) as [?|Hs]; [left; apply elem_of_app; by left|]. right. by eapply settled_mono.
    + intros node (x & Hx & ?)%Hfound. exists x. split; [apply elem_of_app; by left|done].
    + intros x r [? ?]%Hfailed. split; [apply elem_of_app; by left|done].
    + done.
    + intros [? ?]%Hcan. split; [done|]. by destruct names.
  - destruct (se_running s !! i) as [name|] eqn:Ei; [|done]. cbn [mbind option_bind].
    pose proof (si_len _ _ Hi) as Hlen. pose proof (si_cancelled _ _ Hi) as Hcan.
    destruct (check name) as [[fits r] [err|]] eqn:Ec.
    { intros [= <-]. exists names. split; [|done]. eapply search_finish; try done; simpl; auto.
      - left. exists (fits, r), err. split; [done|]. simpl. apply insert_non_empty.
      - intros _. apply insert_non_empty.
      - by intros [? _]%Hcan. }
    destruct fits.
    + destruct (num <? Z.of_nat (length (se_filtered s)) + 1) eqn:En; bool_to_prop.
      * intros [= <-]. exists names. split; [|done]. eapply search_finish; try done; simpl; auto.
        -- right. right. split; [by exists r|by left].
        -- intros _. lia.
      * destruct (snapshot !! name) as [info|] eqn:Es; [|done]. cbn [mbind option_bind].
        destruct (ni_node info) as [node|] eqn:Enode; [|done]. cbn [mbind option_bind]. intros [= <-]. exists names.
        assert (found name node) as Hf by (split; [by exists r|by exists info]).
        split; [|done]. eapply search_finish; try done; simpl; auto.
        -- right. right. split; [by exists r|]. right. exists node. split; [done|]. simpl. apply elem_of_app. right. by left.
        -- intros n ?. apply elem_of_app. by left.
        -- intros n [?| ->%list_elem_of_singleton]%elem_of_app; auto.
        -- rewrite length_app. simpl. lia.
        -- intros [? _]%Hcan. rewrite length_app. simpl. lia.
    + intros [= <-]. exists names. split; [|done]. eapply search_finish; try done; simpl; auto.
      * right. left. exists r. split; [done|]. simpl. by rewrite lookup_insert_eq.
      * intros x ?. rewrite lookup_insert_is_Some'. by right.
      * intros x r'. rewrite lookup_insert_Some. intros [[-> <-]|[_ ?]]; auto.
      * by intros [? _]%Hcan.
Qed.

Lemma run_search_inv schedule s names s' :
  search_inv s names → (se_begun s ≤ allNodes)%nat → run_search snapshot check allNodes num s schedule = Some s' →
  ∃ names', search_inv s' names' ∧ (se_begun s' ≤ allNodes)%nat ∧ search_done allNodes s' = true.
Proof.
  unfold run_search. revert s names. induction schedule as [|w schedule IH]; intros s names Hi Hb; cbn [foldl].
  - cbn [mbind option_bind]. destruct (search_done allNodes s) eqn:E; [|done]. intros [= <-]. eauto.
  - cbn [mbind option_bind]. destruct (search_step snapshot check allNodes num s w) as [s1|] eqn:E.
    + destruct (search_step_inv _ _ _ _ Hi E) as (names1 & Hi1 & Hb1). apply (IH s1 names1); auto.
    + assert (foldl (λ r w, s ← r; search_step snapshot check allNodes num s w) None schedule = None) as ->; [|done].
      clear. induction schedule as [|w schedule IH]; [done|]. exact IH.
Qed.

(** One worker that checks one node after the other. *)
Fixpoint sequential (n : nat) : list work :=
  match n with O => [] | S n => sequential n ++ [Begin; Finish O] end.

Lemma sequential_runs n nt' l :
  nexts n tree0 = Some (nt', l) → (n ≤ allNodes)%nat →
  (∀ name r, name ∈ l → check name = (true, r, None) → ∃ node, found name node) →
  ∃ s, foldl (λ r w, s ← r; search_step snapshot check allNodes num s w) (Some (MkSearch tree0 O [] [] false ∅ ∅))
      (sequential n) = Some s ∧ se_running s = [] ∧ se_begun s = n ∧ se_tree s = nt'.
Proof.
  revert nt' l. induction n as [|n IH]; intros nt' l E Hn Hobj.
  { simpl in E. injection E as <- <-. by eexists. }
  rewrite <-Nat.add_1_r in E. apply nexts_split in E as (nt1 & l1 & l2 & E1 & E2 & ->).
  destruct (IH nt1 l1 E1) as (s & Es & Hrun & Hb & Ht); [lia|intros name r ?; apply Hobj; apply elem_of_app; by left|].
  cbn [sequential]. rewrite foldl_app, Es. cbn [foldl mbind option_bind].
  cbn [nexts] in E2. destruct (NodeTree_Next nt1) as [[nt2 x]|] eqn:Ex; [|done]. cbn [mbind option_bind] in E2.
  injection E2 as <- <-. unfold search_step at 2. rewrite bool_decide_true by lia. rewrite Ht, Ex. cbn [mbind option_bind].
  rewrite Hrun. cbn [search_step se_running app lookup list_lookup mbind option_bind].
  assert (slice_delete 0 [x] = []) as -> by done.
  destruct (check x) as [[fits r] [err|]] eqn:Ec; [eexists; split; [done|]; simpl; by rewrite Hb|].
  destruct fits; [|eexists; split; [done|]; simpl; by rewrite Hb].
  destruct (num <? _); [eexists; split; [done|]; simpl; by rewrite Hb|].
  destruct (Hobj x r) as (node & _ & info & Ei & En); [apply elem_of_app; right; by left|done|].
  rewrite Ei. cbn [mbind option_bind]. rewrite En. cbn [mbind option_bind]. eexists. split; [done|]. simpl. by rewrite Hb.
Qed.

Lemma search_spec :
  tree_wf tree0 → in_round tree0 → allNodes = length (all_nodes tree0) → 0 <= num →
  ∀ schedule s, run_search snapshot check allNodes num (MkSearch tree0 O [] [] false ∅ ∅) schedule = Some s →
    se_errs s = ∅ →
    (tree_wf (se_tree s) ∧ in_round (se_tree s)) ∧ Z.of_nat (length (se_filtered s)) <= num ∧
    (∀ node, node ∈ se_filtered s → ∃ name, name ∈ all_nodes tree0 ∧ found name node) ∧
    (∀ name r, se_failed s !! name = Some r → name ∈ all_nodes tree0 ∧ check name = (false, r, None)) ∧
    (Z.of_nat (length (se_filtered s)) < num → ∀ name, name ∈ all_nodes tree0 →
      (∃ r, se_failed s !! name = Some r) ∨ ∃ node, node ∈ se_filtered s ∧ found name node).
Proof.
  intros Hw Hround Hall Hnum. destruct (full_round tree0 Hw Hround) as (nt' & l & En & Hl). rewrite <-Hall in En.
  intros schedule s Hrun Herr.
  destruct (run_search_inv schedule _ [] s (search_init Hnum) (Nat.le_0_l _) Hrun) as (names & Hi & Hb & Hd).
  replace allNodes with (se_begun s + (allNodes - se_begun s))%nat in En by lia.
  apply nexts_split in En as (nt1 & l1 & l2 & E1 & E2 & El). rewrite (si_names _ _ Hi) in E1. injection E1 as <- <-.
  assert (∀ name, name ∈ names → name ∈ all_nodes tree0) as Hsub.
  { intros name Hname. rewrite <-Hl, El. apply elem_of_app. by left. }
  split_and!; [eapply nexts_in_round, Hi; done|eapply nexts_in_round, Hi; done|apply Hi| | |].
  - intros node (name & Hname & Hf)%(si_found _ _ Hi). eauto.
  - intros name r [Hname Hf]%(si_failed _ _ Hi). eauto.
  - intros Hlt name Hname. unfold search_done in Hd. apply andb_true_iff in Hd as [Hrunning Hd].
    apply bool_decide_eq_true in Hrunning.
    assert (se_cancelled s = false) as Hnc.
    { apply not_true_iff_false. intros [? _]%(si_cancelled _ _ Hi). lia. }
    rewrite Hnc, orb_false_r, bool_decide_eq_true in Hd. rewrite Hd, Nat.sub_diag in E2. simpl in E2. injection E2 as <- <-.
    rewrite app_nil_r in El. subst l. rewrite <-Hl in Hname.
    destruct (si_settled _ _ Hi name Hname) as [Hin|[(r & err & _ & Hne)|[(r & Ec & [r' Ef])|(Hr & [Hc|(node & Hf & Hn)])]]].
    + rewrite Hrunning in Hin. by apply not_elem_of_nil in Hin.
    + done.
    + left. eauto.
    + congruence.
    + right. eauto.
Qed.

End search.

(** ** Scheduling a pod *)
Section schedule.
Context {K8s : K8sLib} {Range : MapRange} {Sort : GoSort} {Errs : ErrorsLib}.
Context {M PM Q : Type} {Meta : PredicateMetadata M} {Queue : SchedulingPoolQueue Q}.
Implicit Types (pod : Pod) (node : Node) (g : @genericScheduler M PM Q).

(** The entries of a snapshot are under the names of their nodes. *)
Definition named (snapshot : gmap string NodeInfo) : Prop :=
  ∀ name info node, snapshot !! name = Some info → ni_node info = Some node → node_Name node = name.

Lemma equal_priorities_hosts snapshot nodes : ∀ l,
  named snapshot → equal_priorities snapshot nodes = inr l → Host <$> l = node_Name <$> nodes.
Proof.
  intros l Hn. revert l. induction nodes as [|node nodes IH]; intros l; cbn [equal_priorities]; [by intros [= <-]|].
  unfold EqualPriorityMap, NodeInfo_Node. destruct (snapshot !! node_Name node) as [info|] eqn:Ei; [|done]. simpl.
  destruct (ni_node info) as [n|] eqn:En; [|done].
  destruct (equal_priorities snapshot nodes) as [err|l'] eqn:E; [done|]. intros [= <-]. simpl. f_equal.
  - by apply (Hn _ _ _ Ei).
  - by apply IH.
Qed.

Lemma sum_scores_hosts nodes results : ∀ i l,
  sum_scores i nodes results = Some l → Host <$> l = node_Name <$> nodes.
Proof.
  induction nodes as [|node nodes IH]; intros i l; cbn [sum_scores]; [by intros [= <-]|].
  destruct (weighted_sum i 0 results) as [score|]; [|done]. cbn [mbind option_bind].
  destruct (sum_scores (S i) nodes results) as [l'|] eqn:E; [|done]. cbn [mbind option_bind]. intros [= <-].
  simpl. f_equal. by apply (IH (S i)).
Qed.

Lemma PrioritizeNodes_hosts pod snapshot (meta : PM) configs nodes extenders l :
  named snapshot → PrioritizeNodes pod snapshot meta configs nodes extenders = Some (inr l) → Host <$> l = node_Name <$> nodes.
Proof.
  intros Hn. unfold PrioritizeNodes. destruct (_ && _).
  - intros [= E]. by apply equal_priorities_hosts in E.
  - destruct (mapM _ _) as [results|]; [|done]. cbn [mbind option_bind]. destruct (negb _); [done|].
    destruct (sum_scores 0 nodes _) as [l'|] eqn:E; [|done]. cbn [mbind option_bind]. apply sum_scores_hosts in E.
    destruct (negb _); intros [= <-]; [|done]. rewrite <-E. symmetry. etransitivity; [|apply list_fmap_compose]. done.
Qed.

Lemma selectHost_in last l last' host :
  selectHost last l = Some (last', inr host) → host ∈ Host <$> l.
Proof.
  unfold selectHost. case_bool_decide; [done|]. destruct (findMaxScores l) as [ixs|]; [|done]. cbn [mbind option_bind].
  destruct (ixs !! _) as [j|]; [|done]. cbn [mbind option_bind]. destruct (l !! j) as [hp|] eqn:E; [|done].
  intros [= _ <-]. by apply list_elem_of_fmap_2, (list_elem_of_lookup_2 _ j).
Qed.

(** The snapshot and the tree that a scheduling cycle works on, after the refresh. *)
Record cycle g (poolName : string) (c : schedulerCache) (p : PoolInfo) : Prop := {
  cy_pool : ca_pools c !! poolName = Some p;
  cy_tree : tree_wf (pi_nodeTree p);
  cy_round : in_round (pi_nodeTree p);
  cy_named : named (NodeInfoMap (pi_nodeInfoSnapshot p));
  cy_size : NodeTree_NumNodes (pi_nodeTree p) * 100 <= MaxInt32;
  cy_predicates : gs_predicates g ≠ ∅;
  cy_extenders : gs_extenders g = []
}.

(** The verdict of the predicates on the node of a name. *)
Definition verdict g (c : schedulerCache) (p : PoolInfo) pod (name : string) : bool * list PredicateFailureReason * option error :=
  checkNode (st_gen (ca_store c)) (set_cache g c) pod (NodeInfoMap (pi_nodeInfoSnapshot p)) name.

(** The tree of the pool can serve the next search. *)
Definition ready g (poolName : string) : Prop :=
  ∃ p, ca_pools (gs_cache g) !! poolName = Some p ∧ tree_wf (pi_nodeTree p) ∧ in_round (pi_nodeTree p).

Lemma findNodes_spec schedule g poolName pod nodes c p g' filtered failed :
  cycle g poolName c p →
  findNodesThatFit schedule (set_cache g c) poolName pod nodes = Some (g', inr (filtered, failed)) →
  (∃ tree, g' = set_nodeTree (set_cache g c) poolName tree ∧ tree_wf tree ∧ in_round tree) ∧
  (∀ node, node ∈ filtered → ∃ name, name ∈ all_nodes (pi_nodeTree p) ∧
    found (NodeInfoMap (pi_nodeInfoSnapshot p)) (verdict g c p pod) name node) ∧
  (filtered = [] → ∀ name, name ∈ all_nodes (pi_nodeTree p) →
    ∃ r, failed !! name = Some r ∧ verdict g c p pod name = (false, r, None)).
Proof.
  intros [Hp Ht Hr Hn Hs Hpr Hex]. unfold findNodesThatFit, snapshot_of, Cache_NodeInfoSnapshot, Cache_NodeTree.
  cbn [gs_cache set_cache gs_predicates]. rewrite Hp. cbn [fmap option_fmap option_map mbind option_bind].
  rewrite bool_decide_false by (by rewrite map_size_empty_iff).
  set (n := NodeTree_NumNodes (pi_nodeTree p)).
  assert (n = Z.of_nat (length (all_nodes (pi_nodeTree p)))) as En by apply Ht.
  assert (wrap32 n = n) as Hw by (apply wrap32_id; unfold int32, MinInt32, MaxInt32 in *; lia). rewrite Hw.
  cbn [gs_percentageOfNodesToScore set_cache]. pose proof (numFeasible_range (gs_percentageOfNodesToScore g) n) as Hrange.
  set (num := numFeasibleNodesToFind (gs_percentageOfNodesToScore g) n) in *. specialize (Hrange ltac:(lia) Hs).
  destruct (num <? 0) eqn:Ez; bool_to_prop; [lia|]. cbn [mbind option_bind].
  fold (verdict g c p pod). destruct (run_search _ _ _ _ _ schedule) as [s|] eqn:Erun; [|done]. cbn [mbind option_bind].
  destruct (bool_decide (size (se_errs s) = O)) eqn:Ee; cbn [negb]; [|done].
  apply bool_decide_eq_true, map_size_empty_iff in Ee.
  assert (gs_extenders (set_nodeTree (set_cache g c) poolName (se_tree s)) = []) as Hex'.
  { unfold set_nodeTree. cbn [gs_cache set_cache]. by rewrite Hp. }
  rewrite (bool_decide_true (length (gs_extenders _) = O)) by (by rewrite Hex').
  rewrite andb_false_r. intros [= <- <- <-].
  destruct (search_spec (NodeInfoMap (pi_nodeInfoSnapshot p)) (verdict g c p pod) (pi_nodeTree p) (Z.to_nat n) num
    Ht Hr ltac:(lia) ltac:(lia) schedule s Erun Ee) as ([Hwf Hin] & Hlen & Hfound & Hfailed & Hrest).
  split_and!; [by exists (se_tree s)|done|]. intros Hnil name Hname. rewrite Hnil in Hrest. simpl in Hrest.
  destruct (Hrest ltac:(destruct (all_nodes (pi_nodeTree p)); [by apply not_elem_of_nil in Hname|simpl in En; lia]) name Hname)
    as [[r Er]|(node & ?%not_elem_of_nil & _)]; [|done]. exists r. split; [done|]. by apply Hfailed.
Qed.

End schedule.

(** ** Choosing the victims on a node *)

(** What the algorithm relies on of the metadata: it describes the pods on the node under
    trial, also after pods of that node were removed and added again. *)
Class MetadataLaws (M : Type) {Meta : PredicateMetadata M} := {
  (** the metadata is that of the cluster with these pods on the node *)
  describes : option Node → M → list Pod → Prop;
  (** what is asked of the pods that are on the node at first *)
  admissible : list Pod → Prop;
  describes_add node U m p info l :
    admissible U → l ⊆ U → p ∈ U → ni_node info = node → describes node m l → describes node (meta_AddPod m p info) (l ++ [p]);
  describes_remove node U m p l l' :
    admissible U → l ⊆ U → p ∉ l' → describes node m l → l ≡ₚ p :: l' → describes node (meta_RemovePod m p) l'
}.

(** No two pods use the same host port. *)
Definition ports_disjoint (l : list Pod) : Prop :=
  ∀ p q b, p ∈ l → q ∈ l → b ∈ pod_bindings p → b ∈ pod_bindings q → p = q.

(** The part of a [NodeInfo] that adding and removing pods leaves alone. *)
Definition frame (n : NodeInfo) :=
  (ni_node n, ni_allocatableResource n, (ni_taints n, ni_taintsErr n), (ni_imageStates n, ni_TransientInfo n),
   (ni_memoryPressureCondition n, ni_diskPressureCondition n, ni_pidPressureCondition n)).

Section victims.
Context {K8s : K8sLib} {KLaws : K8sLaws} {Range : MapRange} {Sort : GoSort}.
Context {M Q : Type} {Meta : PredicateMetadata M} {Laws : MetadataLaws M} {Queue : SchedulingPoolQueue Q}.
Implicit Types (pod p v : Pod) (t : @trial M) (l : list Pod).
Context (info0 : NodeInfo).
Abbreviation pods t := (ni_pods (tr_info t)).

(** A trial whose node is [info0] with some of its pods. *)
Record good t : Prop := {
  gd_inv : NodeInfo_inv (tr_info t);
  gd_ports : ports_ok (tr_info t);
  gd_frame : frame (tr_info t) = frame info0;
  gd_sub p : p ∈ pods t → p ∈ ni_pods info0;
  gd_meta m : tr_meta t = Some m → describes (ni_node info0) m (pods t)
}.
Context (Hadm : admissible (ni_pods info0)).

Lemma AddPod_pods gen n pod : ni_pods (NodeInfo_AddPod gen n pod).2 = ni_pods n ++ [pod].
Proof. unfold NodeInfo_AddPod. by destruct (calculateResource pod) as [[res cpu] mem]. Qed.
Lemma AddPod_frame gen n pod : frame (NodeInfo_AddPod gen n pod).2 = frame n.
Proof. unfold NodeInfo_AddPod. by destruct (calculateResource pod) as [[res cpu] mem]. Qed.
Lemma RemovePod_frame gen n pod : frame (NodeInfo_RemovePod gen n pod).1.2 = frame n.
Proof.
  unfold NodeInfo_RemovePod. destruct (GetPodKey pod); [done|]. destruct (find_index _ (ni_pods n)); [|done].
  by destruct (calculateResource pod) as [[res cpu] mem].
Qed.

Lemma trial_add_good t pod :
  good t → pod ∈ ni_pods info0 → pod_UID pod ≠ EmptyString → pod_UID pod ∉ pod_UID <$> pods t →
  good (trial_addPod t pod) ∧ pods (trial_addPod t pod) = pods t ++ [pod].
Proof.
  intros [Hi Hp Hf Hs Hm] Hin Hu Hnew. unfold trial_addPod.
  pose proof (AddPod_inv (tr_gen t) _ _ Hi Hu Hnew) as Hi'. pose proof (AddPod_ports (tr_gen t) _ pod Hp) as Hp'.
  pose proof (AddPod_pods (tr_gen t) (tr_info t) pod) as El. pose proof (AddPod_frame (tr_gen t) (tr_info t) pod) as Ef.
  destruct (NodeInfo_AddPod (tr_gen t) (tr_info t) pod) as [gen n]. simpl in *. split; [|done]. split; simpl.
  - done.
  - done.
  - by rewrite Ef.
  - intros p. rewrite El, elem_of_app, list_elem_of_singleton. intros [?| ->]; auto.
  - intros m (m0 & Em & ->)%fmap_Some. rewrite El. apply (describes_add _ (ni_pods info0)); [done|done|done| |by apply Hm].
    by injection (eq_trans Ef Hf).
Qed.

Lemma trial_remove_good t pod :
  ports_disjoint (ni_pods info0) → good t → pod ∈ pods t →
  good (trial_removePod t pod) ∧ pods t ≡ₚ pod :: pods (trial_removePod t pod).
Proof.
  intros Hd [Hi Hp Hf Hs Hm] Hin. unfold trial_removePod.
  pose proof (RemovePod_frame (tr_gen t) (tr_info t) pod) as Ef.
  destruct (RemovePod_spec (tr_gen t) (tr_info t) pod Hi Hin) as (n & E & Hi' & Hl & _ & _ & _ & Eu).
  rewrite E in *. simpl in *. split; [|done]. split; simpl.
  - done.
  - eapply (RemovePod_ports (tr_info t)); [done|done|done|done|]. intros q b Hq Hb Hb'. apply (Hd q pod b); auto.
  - by rewrite Ef.
  - intros p Hp'. apply Hs. rewrite Hl. by right.
  - intros m (m0 & Em & ->)%fmap_Some. apply (describes_remove _ (ni_pods info0) _ _ (ni_pods (tr_info t)));
      [done|done| |by apply Hm|done].
    pose proof (nv_keys _ Hi) as Hnd. rewrite Hl, fmap_cons in Hnd. apply NoDup_cons in Hnd as [Hnd _].
    intros Hp'. by apply Hnd, list_elem_of_fmap_2.
Qed.

(** A removal writes into the array only at or before the place of the pod. *)
Lemma swap_delete_keeps {A} (l : list A) i j : (i < j)%nat → (S j < length l)%nat → swap_delete i l !! j = l !! j.
Proof.
  intros Hij Hj. unfold swap_delete. destruct (last l) as [x|] eqn:El; [|done].
  rewrite lookup_take_lt by lia. rewrite list_lookup_insert_ne by lia. done.
Qed.

(** The loop visits every pod of the node once, although removals move pods in
    the array it goes over. *)
Lemma victims_loop_spec victim (orig : list Pod) :
  NoDup (pod_UID <$> orig) → (∀ p, p ∈ orig → p ∈ ni_pods info0) → ports_disjoint (ni_pods info0) →
  ∀ k i arr t acc, (i + k = length orig)%nat → good t → (∃ tail, arr = pods t ++ tail) →
    (∀ j, (i ≤ j)%nat → arr !! j = orig !! j) →
    (∀ j p, (i ≤ j)%nat → orig !! j = Some p → p ∈ pods t) →
    victims_loop k i arr victim t acc =
      Some (foldl trial_removePod t (filter victim (drop i orig)), acc ++ filter victim (drop i orig)).
Proof.
  intros Hnd Horig Hdis. induction k as [|k IH]; intros i arr t acc Hk Hg [tail Earr] Hsame Hin; cbn [victims_loop].
  { rewrite drop_ge by lia. by rewrite app_nil_r. }
  destruct (lookup_lt_is_Some_2 orig i) as [p Ep]; [lia|]. rewrite Hsame, Ep by lia. cbn [mbind option_bind].
  rewrite (drop_S _ _ _ Ep), filter_cons. destruct (victim p) eqn:Ev;
    [rewrite decide_True by done|rewrite decide_False by auto].
  2:{ apply IH; [lia|done|by exists tail|intros j Hj; apply Hsame; lia|intros j q Hj; apply Hin; lia]. }
  assert (p ∈ pods t) as Hpt by (apply (Hin i); [lia|done]).
  destruct (trial_remove_good t p Hdis Hg Hpt) as [Hg' Hl].
  assert (∃ i', pods t !! i' = Some p ∧ (i' ≤ i)%nat ∧ pods (trial_removePod t p) = swap_delete i' (pods t)) as (i' & Ei' & Hle & Epods).
  { destruct (find_key_in (pods t) p (nv_keys _ (gd_inv _ Hg)) Hpt (nv_uids _ (gd_inv _ Hg) _ Hpt)) as (i' & Ef & Ei').
    exists i'. split_and!; [done| |].
    - destruct (decide (i' ≤ i)%nat) as [|Hgt]; [done|]. exfalso.
      assert (orig !! i' = Some p) as Eo by (rewrite <-Hsame by lia; rewrite Earr; by apply lookup_app_l_Some).
      assert (i' = i); [|lia]. eapply (NoDup_lookup _ _ _ (pod_UID p) Hnd); rewrite list_lookup_fmap; [by rewrite Eo|by rewrite Ep].
    - unfold trial_removePod, NodeInfo_RemovePod. rewrite GetPodKey_ok by (apply (nv_uids _ (gd_inv _ Hg) _ Hpt)).
      rewrite Ef. by destruct (calculateResource p) as [[res cpu] mem]. }
  assert (length (pods t) = S (length (pods (trial_removePod t p)))) as Hlen by (by apply Permutation_length in Hl).
  set (pods' := pods (trial_removePod t p)) in *. cbn [foldl]. rewrite (IH (S i)); [|lia|done| | |].
  - by rewrite <-app_assoc.
  - by eexists.
  - intros j Hj. rewrite <-Hsame by lia. destruct (decide (j < length pods')%nat) as [Hj'|Hj'].
    + rewrite lookup_app_l by done. rewrite Epods, swap_delete_keeps by lia. rewrite Earr. by rewrite lookup_app_l by lia.
    + rewrite lookup_app_r, lookup_drop by lia. f_equal. lia.
  - intros j q Hj Eq. pose proof (Hin j q ltac:(lia) Eq) as Hq. rewrite Hl in Hq. apply elem_of_cons in Hq as [->|?]; [|done].
    exfalso. assert (j = i); [|lia]. eapply (NoDup_lookup _ _ _ (pod_UID p) Hnd); rewrite list_lookup_fmap; [by rewrite Eq|by rewrite Ep].
Qed.

(** Removing the pods of a list one by one. *)
Lemma remove_all l : ports_disjoint (ni_pods info0) → ∀ t rest,
  good t → pods t ≡ₚ l ++ rest → good (foldl trial_removePod t l) ∧ pods (foldl trial_removePod t l) ≡ₚ rest.
Proof.
  intros Hd. induction l as [|p l IH]; intros t rest Hg Hl; [done|]. cbn [foldl].
  destruct (trial_remove_good t p Hd Hg) as [Hg' Hl']; [rewrite Hl; by left|]. apply IH; [done|].
  rewrite Hl in Hl'. simpl in Hl'. by apply Permutation_cons_inv in Hl'.
Qed.

(** The verdict depends on which pods are on the node only. *)
Section reprieve.
Context (fits : @trial M → bool) (F : list Pod → bool).
Context (Hperm : ∀ l l', l ≡ₚ l' → F l = F l') (Hfits : ∀ t, good t → fits t = F (pods t)).
Context (Hdis : ports_disjoint (ni_pods info0)).

(** Fewer pods never hurt. *)
Definition antitone : Prop := ∀ l l', l ⊆+ l' → F l' = true → F l = true.

Lemma reprieve_one t vs p :
  good t → F (pods t) = true → p ∈ ni_pods info0 → pod_UID p ≠ EmptyString → pod_UID p ∉ pod_UID <$> pods t →
  ∃ t', good t' ∧ F (pods t') = true ∧
    ((reprievePod fits (t, vs) p = (t', vs, true) ∧ pods t' ≡ₚ pods t ++ [p]) ∨
     (reprievePod fits (t, vs) p = (t', vs ++ [p], false) ∧ pods t' ≡ₚ pods t ∧ F (p :: pods t) = false)).
Proof.
  intros Hg HF Hin Hu Hnew. destruct (trial_add_good t p Hg Hin Hu Hnew) as [Hg1 E1]. unfold reprievePod. cbn [fst snd].
  destruct (fits (trial_addPod t p)) eqn:Ef.
  - exists (trial_addPod t p). rewrite (Hfits _ Hg1) in Ef. split_and!; [done|done|]. left. split; [done|]. by rewrite E1.
  - destruct (trial_remove_good (trial_addPod t p) p Hdis Hg1) as [Hg2 E2]; [rewrite E1; apply elem_of_app; right; by left|].
    rewrite E1, Permutation_app_comm in E2. simpl in E2. apply Permutation_cons_inv in E2.
    exists (trial_removePod (trial_addPod t p) p). split_and!; [done|by rewrite <-(Hperm _ _ E2)|]. right.
    split_and!; [done|by symmetry|]. rewrite (Hfits _ Hg1), E1 in Ef. rewrite <-Ef. apply Hperm.
    by rewrite (Permutation_app_comm _ [p]).
Qed.

Lemma reprieve_all (L : list Pod) : ∀ t vs,
  good t → F (pods t) = true → (∀ p, p ∈ L → p ∈ ni_pods info0 ∧ pod_UID p ≠ EmptyString) →
  NoDup (pod_UID <$> (pods t ++ L)) →
  ∃ t' vs' kept, foldl (λ s p, (reprievePod fits s p).1) (t, vs) L = (t', vs ++ vs') ∧ good t' ∧
    F (pods t') = true ∧ L ≡ₚ vs' ++ kept ∧ pods t' ≡ₚ pods t ++ kept ∧
    (antitone → ∀ v, v ∈ vs' → F (v :: pods t') = false).
Proof.
  induction L as [|p L IH]; intros t vs Hg HF HL Hnd.
  { exists t, [], []. cbn [foldl]. rewrite !app_nil_r. split_and!; try done. by intros _ v ?%not_elem_of_nil. }
  cbn [foldl]. destruct (HL p) as [Hin Hu]; [by left|].
  assert (pods t ++ p :: L ≡ₚ (pods t ++ [p]) ++ L) as Hmid by (by rewrite <-app_assoc).
  assert (pod_UID p ∉ pod_UID <$> pods t) as Hnew.
  { rewrite fmap_app, fmap_cons in Hnd. apply NoDup_app in Hnd as (_ & Hnot & _). intros Hx. by apply (Hnot _ Hx); left. }
  assert (∀ q, q ∈ L → q ∈ ni_pods info0 ∧ pod_UID q ≠ EmptyString) as HL' by (intros q Hq; apply HL; by right).
  destruct (reprieve_one t vs p Hg HF Hin Hu Hnew) as (t1 & Hg1 & HF1 & [[E1 Hp1]|(E1 & Hp1 & Hno)]); rewrite E1; cbn [fst].
  - destruct (IH t1 vs Hg1 HF1 HL') as (t2 & vs2 & kept & E2 & Hg2 & HF2 & HL2 & Hp2 & Hmin); [by rewrite Hp1, <-Hmid|].
    exists t2, vs2, (p :: kept). split_and!; [done|done|done| | |done].
    + rewrite HL2. by rewrite Permutation_middle.
    + rewrite Hp2, Hp1. by rewrite <-app_assoc.
  - destruct (IH t1 (vs ++ [p]) Hg1 HF1 HL') as (t2 & vs2 & kept & E2 & Hg2 & HF2 & HL2 & Hp2 & Hmin).
    { rewrite Hp1. eapply sublist_NoDup; [exact Hnd|]. apply fmap_sublist, sublist_app; [done|]. by constructor. }
    exists t2, (p :: vs2), kept. rewrite E2. split_and!; [by rewrite <-app_assoc|done|done|by rewrite HL2| |].
    + by rewrite Hp2, Hp1.
    + intros Hanti v [->|Hv]%elem_of_cons; [|by apply Hmin]. apply not_true_iff_false. intros HF'.
      apply not_true_iff_false in Hno. apply Hno. eapply Hanti; [|exact HF']. rewrite Hp2, Hp1.
      apply submseteq_skip. by apply submseteq_inserts_r.
Qed.
(** Two passes: the violating pods first, then the others. *)
Lemma reprieve_two (L1 L2 : list Pod) t :
  good t → F (pods t) = true → (∀ p, p ∈ L1 ++ L2 → p ∈ ni_pods info0 ∧ pod_UID p ≠ EmptyString) →
  NoDup (pod_UID <$> (pods t ++ L1 ++ L2)) →
  ∃ t2 vs1 t3 vs2 kept, foldl (λ s p, (reprievePod fits s p).1) (t, []) L1 = (t2, vs1) ∧
    foldl (λ s p, (reprievePod fits s p).1) (t2, vs1) L2 = (t3, vs1 ++ vs2) ∧ vs1 ⊆ L1 ∧ vs2 ⊆ L2 ∧
    pods t ++ L1 ++ L2 ≡ₚ (vs1 ++ vs2) ++ kept ∧ F kept = true ∧
    (antitone → ∀ v, v ∈ vs1 ++ vs2 → F (v :: kept) = false).
Proof.
  intros Hg HF HL Hnd.
  destruct (reprieve_all L1 t [] Hg HF) as (t2 & vs1 & k1 & E1 & Hg2 & HF2 & HL1 & Hp2 & Hmin1).
  { intros p Hp. apply HL, elem_of_app. by left. }
  { rewrite app_assoc, fmap_app in Hnd. by apply NoDup_app in Hnd as [? _]. }
  destruct (reprieve_all L2 t2 vs1 Hg2 HF2) as (t3 & vs2 & k2 & E2 & Hg3 & HF3 & HL2 & Hp3 & Hmin2).
  { intros p Hp. apply HL, elem_of_app. by right. }
  { assert (pods t ++ L1 ++ L2 ≡ₚ (pods t2 ++ L2) ++ vs1) as Hp by (rewrite Hp2, HL1; solve_Permutation).
    rewrite Hp, fmap_app in Hnd. by apply NoDup_app in Hnd as [? _]. }
  exists t2, vs1, t3, vs2, (pods t3). split_and!; [done|done| | | |done|].
  - rewrite HL1. set_solver.
  - rewrite HL2. set_solver.
  - rewrite Hp3, Hp2, HL1, HL2. solve_Permutation.
  - intros Hanti v [Hv|Hv]%elem_of_app; [|by apply Hmin2]. apply not_true_iff_false. intros HF'.
    specialize (Hmin1 Hanti v Hv). apply not_true_iff_false in Hmin1. apply Hmin1. eapply Hanti; [|exact HF'].
    rewrite Hp3. apply submseteq_skip. by apply submseteq_inserts_r.
Qed.
End reprieve.

(** The loop that also counts is the same loop. *)
Lemma counting_loop (fits : @trial M → bool) (L : list Pod) : ∀ s n,
  foldl (λ (a : @trial M * list Pod * Z) p,
    let '(s, n) := a in let '(s, ok) := reprievePod fits s p in (s, if ok : bool then n else n + 1)) (s, n) L =
  let r := foldl (λ s p, (reprievePod fits s p).1) s L in
  (r, n + Z.of_nat (length r.2) - Z.of_nat (length s.2)).
Proof.
  induction L as [|p L IH]; intros s n; cbn [foldl]; [f_equal; lia|].
  destruct (reprievePod fits s p) as [s1 ok] eqn:E. rewrite IH. cbn [fst]. f_equal.
  unfold reprievePod in E. destruct (fits _); injection E as <- <-; cbn [snd]; [lia|]. rewrite length_app. simpl. lia.
Qed.

Lemma filterPods_spec (l : list Pod) pdbs :
  filterPodsWithPDBViolation l pdbs =
    (filter (λ p, pdbForPodIsViolated pdbs p) l, filter (λ p, negb (pdbForPodIsViolated pdbs p)) l).
Proof.
  unfold filterPodsWithPDBViolation.
  assert (∀ a b, foldl (λ s pod, if pdbForPodIsViolated pdbs pod then (s.1 ++ [pod], s.2) else (s.1, s.2 ++ [pod])) (a, b) l =
    (a ++ filter (λ p, pdbForPodIsViolated pdbs p) l, b ++ filter (λ p, negb (pdbForPodIsViolated pdbs p)) l)) as H; [|apply H].
  induction l as [|p l IH]; intros a b; cbn [foldl]; [by rewrite !app_nil_r|]. rewrite !filter_cons.
  destruct (pdbForPodIsViolated pdbs p); cbn [negb fst snd]; rewrite IH.
  - rewrite decide_True, decide_False by auto. by rewrite <-app_assoc.
  - rewrite decide_False, decide_True by auto. by rewrite <-app_assoc.
Qed.

Lemma filter_split {A} (f : A → bool) (l : list A) : l ≡ₚ filter (λ x, f x) l ++ filter (λ x, negb (f x)) l.
Proof.
  induction l as [|x l IH]; [done|]. rewrite !filter_cons. destruct (f x); cbn [negb].
  - rewrite decide_True, decide_False by auto. simpl. by rewrite <-IH.
  - rewrite decide_False, decide_True by auto. by rewrite <-Permutation_middle, <-IH.
Qed.

(** C8: the victims on a node are enough and not too many. The function returns; it accepts
    the node exactly if the pod fits once all eligible pods (of other pools, or of lower
    priority in its own) are gone; the victims are then eligible, their number that violates a
    disruption budget is the one reported, the pod fits when they are gone, and, if fewer pods never hurt
    the pod, putting back any one of them leaves no room for it. The pods of the node must be such that
    the metadata can follow their removal and addition ([MetadataLaws]). *)
Theorem selectVictims_correct gen poolName pod meta funcs ordering (queue : Q) pdbs (F : list Pod → bool) :
  NodeInfo_inv info0 → ports_ok info0 → ports_disjoint (ni_pods info0) →
  (∀ m, meta = Some m → describes (ni_node info0) m (ni_pods info0)) → (∀ l l', l ≡ₚ l' → F l = F l') →
  (∀ t, good t →
    (podFitsOnNode (tr_gen t) pod (tr_meta t) (Some (tr_info t)) funcs ordering queue false).1.1 = F (pods t)) →
  let eligible := potentialVictim poolName pod queue in
  ∃ victims n ok,
    selectVictimsOnNode gen poolName pod meta (Some info0) funcs ordering queue pdbs = Some (victims, n, ok) ∧
    ok = F (filter (λ p, negb (eligible p)) (ni_pods info0)) ∧
    (ok = true →
      (∀ v, v ∈ victims → eligible v = true) ∧
      n = Z.of_nat (length (filter (λ v, pdbForPodIsViolated pdbs v) victims)) ∧
      ∃ kept, ni_pods info0 ≡ₚ victims ++ kept ∧ F kept = true ∧
        (antitone F → ∀ v, v ∈ victims → F (v :: kept) = false)).
Proof.
  intros Hi Hp Hd Hm Hperm Hfits eligible. unfold selectVictimsOnNode. rewrite NodeInfo_Clone_id.
  set (t0 := MkTrial gen info0 meta). assert (good t0) as Hg0 by (split; [done|done|done|done|exact Hm]).
  rewrite (victims_loop_spec _ (ni_pods info0) (nv_keys _ Hi) ltac:(done) Hd (length (ni_pods info0)) 0 (ni_pods info0) t0 []);
    [|done|done|exists []; by rewrite app_nil_r|done|intros j p _ E; by apply list_elem_of_lookup_2 in E].
  rewrite drop_0. cbn [mbind option_bind app]. set (t1 := foldl trial_removePod t0 (filter eligible (ni_pods info0))).
  destruct (remove_all (filter eligible (ni_pods info0)) Hd t0 (filter (λ p, negb (eligible p)) (ni_pods info0)) Hg0
    (filter_split eligible (ni_pods info0))) as [Hg1 Hp1]. fold t1 in Hg1, Hp1.
  set (fits := λ t : @trial M, (podFitsOnNode (tr_gen t) pod (tr_meta t) (Some (tr_info t)) funcs ordering queue false).1.1).
  assert (fits t1 = F (filter (λ p, negb (eligible p)) (ni_pods info0))) as Hf1
    by (unfold fits; rewrite (Hfits _ Hg1); by apply Hperm).
  change (filter (λ x : Pod, potentialVictim poolName pod queue x) (ni_pods info0)) with (filter eligible (ni_pods info0)).
  fold t1 fits. change (podFitsOnNode (tr_gen t1) pod (tr_meta t1) (Some (tr_info t1)) funcs ordering queue false).1.1 with (fits t1).
  destruct (fits t1) eqn:Ef1; cbn [negb]; [|exists [], 0, false; split_and!; [done|by rewrite <-Hf1|done]].
  set (cands := go_sort (SelfPoolHasHigherPriorityFunc poolName) (filter eligible (ni_pods info0))).
  assert (cands ≡ₚ filter eligible (ni_pods info0)) as Hcands by apply go_sort_perm.
  rewrite filterPods_spec, counting_loop. cbv zeta.
  set (L1 := filter (λ p, pdbForPodIsViolated pdbs p) cands). set (L2 := filter (λ p, negb (pdbForPodIsViolated pdbs p)) cands).
  assert (cands ≡ₚ L1 ++ L2) as HL by apply filter_split.
  assert (ni_pods info0 ≡ₚ pods t1 ++ L1 ++ L2) as Hall
    by (rewrite Hp1, <-HL, Hcands; rewrite (filter_split eligible (ni_pods info0)) at 1; apply Permutation_app_comm).
  destruct (reprieve_two fits F Hperm Hfits Hd L1 L2 t1) as (t2 & vs1 & t3 & vs2 & kept & E1 & E2 & Hs1 & Hs2 & Hk & HF & Hmin);
    [done|by rewrite <-(Hfits _ Hg1)| |by rewrite <-Hall; apply nv_keys|].
  { intros p Hin. assert (p ∈ ni_pods info0) by (rewrite Hall; apply elem_of_app; by right).
    split; [done|]. by apply (nv_uids _ Hi). }
  rewrite E1, E2. cbn [fst snd]. eexists _, _, true. split_and!; [done|by rewrite <-Hf1|]. intros _. split_and!.
  - intros v Hv. assert (v ∈ cands) as Hvc by (rewrite HL; set_solver). rewrite Hcands in Hvc.
    apply list_elem_of_filter in Hvc as [Hel _]. by apply Is_true_true.
  - rewrite filter_app, (filter_all _ vs1), (filter_none _ vs2), app_nil_r; [cbn [length]; lia| |].
    + intros v Hv. apply Hs2, list_elem_of_filter in Hv as [Hv _]. by apply negb_True.
    + intros v Hv. by apply Hs1, list_elem_of_filter in Hv as [Hv _].
  - exists kept. split_and!; [by rewrite Hall|done|done].
Qed.
End victims.

(** ** Examples *)
Module GenericExample.
#[local] Existing Instance docK8s.
#[local] Existing Instance docK8s_laws.
#[local] Existing Instance stdRange.
#[local] Existing Instance stdSort.

(** Metadata that counts the pods of the node; a queue that is the list of the pods
    nominated to the node "n1". *)
#[local] Instance count_meta : PredicateMetadata nat :=
  {| meta_ShallowCopy m := m; meta_AddPod m _ _ := S m; meta_RemovePod m _ := pred m |}.
#[local] Instance count_laws : MetadataLaws nat.
Proof.
  refine {| describes _ m l := m = length l; admissible _ := True |}.
  - intros node U m p info l _ _ _ _ ->. simpl. rewrite length_app. simpl. lia.
  - intros node U m p l l' _ _ _ -> Hl. by rewrite Hl.
Defined.
#[local] Instance list_queue : SchedulingPoolQueue (list Pod) :=
  {| spq_NominatedPodsForNode q name := if bool_decide (name = "n1"%string) then q else [];
     spq_GetPoolQueueNameIfNotPresent _ p := GetPodAnnotationsPoolName (Some p) |}.
#[local] Instance no_errors : ErrorsLib :=
  {| NewAggregate _ := "errors"%string; CreateAggregateFromMessageCountMap _ := "errors"%string |}.

(** The pod fits if fewer than [k] pods are on the node. *)
Definition few (k : nat) : FitPredicate nat := λ _ _ info,
  match info with
  | None => (false, [], Some "node not found"%string)
  | Some info => if (length (ni_pods info) <? k)%nat then (true, [], None) else (false, [FailureReason "full"], None)
  end.
Definition funcs (k : nat) : gmap string (FitPredicate nat) := {["few"%string := few k]}.

Definition prio_pod (name : string) (priority : Z) : Pod :=
  MkPod (MkObjectMeta name "default" ("uid-" +:+ name) EmptyString 0 ∅ ∅ 0 None 0)
    (MkPodSpec "n1" "ai-scheduler" (Some priority) [] [] None ∅ [] [] 0) (MkPodStatus EmptyString [] 0).
Definition n1 : Node := PoolInfoExample.mkNode "n1".
Definition info1 : NodeInfo :=
  (NodeInfo_AddPod 2 (NodeInfo_AddPod 1 (NewNodeInfo 0 []).2 (prio_pod "a" 1)).2 (prio_pod "b" 2)).2.
Definition on_n1 : NodeInfo := (NodeInfo_SetNode 3 info1 n1).2.

Lemma few_reasons k : gives_reasons (funcs k).
Proof.
  unfold funcs. intros key predicate pod meta ni reasons [<- <-]%lookup_singleton_Some. unfold few.
  destruct ni as [info|]; [|done]. destruct (_ <? k)%nat; [done|]. by intros [= <-].
Qed.

Lemma selectHost_round_robin_witness :
  ∃ hp, selectHost 3 [MkHostPriority "a" 5; MkHostPriority "b" 7; MkHostPriority "c" 7] = Some (4, inr (Host hp)) ∧
    Host hp = "c"%string.
Proof.
  destruct (selectHost_round_robin 3 [MkHostPriority "a" 5; MkHostPriority "b" 7; MkHostPriority "c" 7])
    as (hp & E & Hhp & _); [lia|discriminate|].
  exists hp. split; [exact E|]. vm_compute in Hhp. injection Hhp as <-. reflexivity.
Defined.

Lemma numFeasibleNodes_bounds_witness :
  100 <= numFeasibleNodesToFind 0 1000 <= 1000 ∧ numFeasibleNodesToFind 0 1000 = 420.
Proof.
  destruct (numFeasibleNodes_bounds 0 1000) as (H1 & _ & _ & H2); [lia|unfold MaxInt32; lia|]. split; [exact H1|].
  rewrite H2 by lia. reflexivity.
Defined.

Lemma pickOneNode_cheapest_witness :
  ∃ v, pickOneNodeForPreemption
      [(PoolInfoExample.mkNode "n2", MkVictims [prio_pod "b" 2] 0); (n1, MkVictims [prio_pod "a" 1] 0)] "" ([] : list Pod)
    = Some n1 ∧ v = MkVictims [prio_pod "a" 1] 0.
Proof.
  destruct (pickOneNode_cheapest
      [(PoolInfoExample.mkNode "n2", MkVictims [prio_pod "b" 2] 0); (n1, MkVictims [prio_pod "a" 1] 0)] "" ([] : list Pod))
    as (node & v & E & Hin & _ & Hmin).
  - discriminate.
  - intros e [->|He]%elem_of_cons; [|apply list_elem_of_singleton in He as ->];
      (split; [unfold MaxInt32; simpl; lia|split; [unfold numPods, MaxInt32; simpl; lia|]]);
      intros p ->%list_elem_of_singleton; unfold int32, MinInt32, MaxInt32; cbn; lia.
  - exists v. rewrite E. apply elem_of_cons in Hin as [[= -> ->]|Hin].
    + specialize (Hmin ltac:(intros e [->| ->%list_elem_of_singleton]%elem_of_cons; discriminate) _
        (list_elem_of_further _ _ _ (list_elem_of_here _ _))). vm_compute in Hmin. exfalso. revert Hmin. clear. intuition discriminate.
    + apply list_elem_of_singleton in Hin. injection Hin as -> ->. split; reflexivity.
Defined.


(** Four nodes in two zones, of which one fits; two workers. *)
Definition check1 (name : string) : bool * list PredicateFailureReason * option error :=
  if bool_decide (name = "b1"%string) then (true, [], None) else (false, [FailureReason "full"], None).
Definition snap1 : gmap string NodeInfo := {["b1"%string := on_n1]}.
Definition two_workers : list work := [Begin; Begin; Finish 1; Begin; Finish 0; Begin; Finish 0; Finish 0].


(** A zone appears in the middle of a round: a search that goes on from there checks the new node
    twice, leaves out the one node that fits, and finds nothing. *)
Definition zone_added : comp NodeTree :=
  '(nt, _) ← nexts 4 (newNodeTree (map (λ e : string * string, NodeTreeExample.mkNode e.1 e.2)
      [("a1", "a"); ("b1", "b"); ("a2", "a"); ("b2", "b"); ("a3", "a"); ("b3", "b")]%string));
  Some (NodeTree_AddNode nt (NodeTreeExample.mkNode "c1" "c")).

Theorem new_zone_misses_node :
  ∃ nt s, zone_added = Some nt ∧ NodeTree_NumNodes nt = 7 ∧
    run_search {["b2"%string := on_n1]}
      (λ name, if bool_decide (name = "b2"%string) then (true, [], None) else (false, [FailureReason "full"], None))
      7 7 (MkSearch nt O [] [] false ∅ ∅) (sequential 7) = Some s ∧
    se_filtered s = [] ∧ se_failed s !! "b2"%string = None ∧ "b2"%string ∈ all_nodes nt.
Proof.
  destruct zone_added as [nt|] eqn:E; [|vm_compute in E; discriminate]. exists nt.
  vm_compute in E. injection E as <-. eexists.
  split_and!; [reflexivity|reflexivity|vm_compute; reflexivity|reflexivity|reflexivity|apply (bool_decide_unpack _); vm_compute; exact I].
Qed.
(** A cluster of one node, with room for five pods. *)
Definition gs1 : @genericScheduler nat unit (list Pod) :=
  MkGenericScheduler (CacheExample.at_ 1) [] (funcs 5) ["few"%string] (λ _ _, Some O) [] (λ _ _, tt) [] 0 false 0.
Definition refreshed : comp (schedulerCache * option error) :=
  Cache_UpdateNodeInfoSnapshot false (gs_cache gs1) DefaultPoolName.
Definition cache1 : schedulerCache := default (CacheExample.at_ 1) (fst <$> refreshed).
Definition pool1 : PoolInfo := default NewPoolInfo (ca_pools cache1 !! DefaultPoolName).

Lemma cycle1 : cycle gs1 DefaultPoolName cache1 pool1.
Proof.
  assert (pi_nodeTree pool1 = newNodeTree [n1]) as Et by (vm_compute; reflexivity). split.
  - vm_compute. reflexivity.
  - rewrite Et. apply newNodeTree_set.
  - rewrite Et. right. exists O, []. split; [vm_compute; lia|vm_compute; reflexivity].
  - assert (map_Forall (λ name info,
      match ni_node info with Some node => bool_decide (node_Name node = name) | None => true end = true)
      (NodeInfoMap (pi_nodeInfoSnapshot pool1))) as Hall by (apply (bool_decide_unpack _); vm_compute; exact I).
    intros name info node Hi Hn. specialize (Hall name info Hi). cbv beta in Hall. rewrite Hn in Hall. by apply bool_decide_eq_true in Hall.
  - rewrite Et. vm_compute. discriminate.
  - cbn. unfold funcs. apply insert_non_empty.
  - reflexivity.
Qed.


Lemma on_n1_pods : ni_pods on_n1 = [prio_pod "a" 1; prio_pod "b" 2].
Proof. vm_compute. reflexivity. Qed.

Lemma on_n1_inv : NodeInfo_inv on_n1 ∧ ports_ok on_n1.
Proof.
  split.
  - apply SetNode_inv, AddPod_inv; [apply AddPod_inv; [apply NewNodeInfo_empty_inv|..]|..];
      first [discriminate | vm_compute; set_solver].
  - unfold ports_ok. pose proof (SetNode_same 3 info1 n1) as (E1 & _ & E2 & _). unfold on_n1. rewrite E1, E2.
    apply AddPod_ports, AddPod_ports, NewNodeInfo_empty_ports.
Qed.

(** Without nominated pods the verdict is about the number of pods. *)
Lemma fits_few k pod (t : @trial nat) :
  (podFitsOnNode (tr_gen t) pod (tr_meta t) (Some (tr_info t)) (funcs k) ["few"%string] ([] : list Pod) false).1.1 =
    (length (ni_pods (tr_info t)) <? k)%nat.
Proof.
  unfold podFitsOnNode, addNominatedPods.
  assert (∀ node, spq_NominatedPodsForNode ([] : list Pod) (node_Name node) = []) as Hq
    by (intros node; simpl; by case_bool_decide).
  destruct (ni_node (tr_info t)) as [node|]; [rewrite Hq; rewrite bool_decide_true by done|];
    cbn [run_predicates]; unfold funcs; rewrite lookup_singleton_eq; unfold few;
    by destruct (_ <? k)%nat.
Qed.

(** Room for two pods, and two pods of lower priority: the one of lowest priority goes. *)
Lemma selectVictims_correct_witness :
  ∃ victims n,
    selectVictimsOnNode 9 "" (prio_pod "c" 5) (Some 2%nat) (Some on_n1) (funcs 2) ["few"%string] ([] : list Pod) []
      = Some (victims, n, true) ∧ n = 0 ∧ (∀ v, v ∈ victims → GetPodPriority v < 5) ∧
    ∃ kept, ni_pods on_n1 ≡ₚ victims ++ kept ∧ (length kept <? 2)%nat = true.
Proof.
  destruct (selectVictims_correct (Laws := count_laws) on_n1 I 9 "" (prio_pod "c" 5) (Some 2%nat) (funcs 2) ["few"%string] ([] : list Pod) []
    (λ l, (length l <? 2)%nat)) as (victims & n & ok & E & Hok & H).
  - apply on_n1_inv.
  - apply on_n1_inv.
  - intros p q b Hp _ Hb. rewrite on_n1_pods in Hp.
    assert (pod_bindings p = []) as E by (by apply elem_of_cons in Hp as [->| ->%list_elem_of_singleton]).
    rewrite E in Hb. by apply not_elem_of_nil in Hb.
  - intros m [= <-]. rewrite on_n1_pods. reflexivity.
  - intros l l' ->. reflexivity.
  - intros t _. apply fits_few.
  - assert (ok = true) as -> by (rewrite Hok, on_n1_pods; vm_compute; reflexivity).
    destruct (H eq_refl) as (Hv & Hn & kept & Hk & HF & _). exists victims, n.
    split; [exact E|]. split_and!; [| |exists kept; by split].
    + rewrite Hn, filter_none; [reflexivity|]. intros v _. unfold pdbForPodIsViolated. destruct (negb _); exact id.
    + intros v Hin. assert (v ∈ ni_pods on_n1) as Hv' by (rewrite Hk; apply elem_of_app; by left).
      rewrite on_n1_pods in Hv'. apply elem_of_cons in Hv' as [->| ->%list_elem_of_singleton]; reflexivity.
Defined.
End GenericExample.
