(* ===== verification/Extender.v ===== *)
(** * Extenders (src/pkg/scheduler/core/extender.go)

    An extender is a service that takes part in filtering, scoring, preempting and binding over HTTP.
    [HTTPExtender] implements the interface [SchedulerExtender] of the algorithm by one exchange per call: nodes
    and victims are sent by value, or by name and UID if the service caches the nodes, and the answer is
    mapped back to the objects of the snapshot.  The transport and the encoding are parameters. *)
From S2P Require Import Prelude Heap Api Util Resource HostPorts NodeTree NodeInfo PoolInfo Predicates Cache GenericScheduler.
From Stdlib Require Import Ascii.

(** ** Messages (api/types.go): elements of slices and maps of pointers may be nil *)

Record MetaPod := MkMetaPod { mp_UID : string }.
Record MetaVictims := MkMetaVictims { mv_Pods : list (option MetaPod); mv_NumPDBViolations : Z }.
Record ExtenderArgs := MkExtenderArgs {
  ea_Pod : Pod;
  ea_Nodes : option (list Node);
  ea_NodeNames : option (list string)
}.
Record ExtenderFilterResult := MkExtenderFilterResult {
  efr_Nodes : option (list Node);
  efr_NodeNames : option (list string);
  efr_FailedNodes : gmap string string;
  efr_Error : string
}.
Record ExtenderPreemptionArgs := MkExtenderPreemptionArgs {
  epa_Pod : Pod;
  epa_NodeNameToVictims : gmap string Victims;
  epa_NodeNameToMetaVictims : gmap string (option MetaVictims)
}.
Record ExtenderPreemptionResult := MkExtenderPreemptionResult { epr_NodeNameToMetaVictims : gmap string (option MetaVictims) }.
Record ExtenderBindingArgs := MkExtenderBindingArgs {
  eba_PodName : string;
  eba_PodNamespace : string;
  eba_PodUID : string;
  eba_Node : string
}.
Record ExtenderBindingResult := MkExtenderBindingResult { ebr_Error : string }.

(** What is sent. *)
Inductive extender_request :=
| RequestArgs (args : ExtenderArgs)
| RequestPreemption (args : ExtenderPreemptionArgs)
| RequestBinding (args : ExtenderBindingArgs).

(** ** Configuration (api/types.go) *)

Record ExtenderManagedResource := MkExtenderManagedResource { emr_Name : string; IgnoredByScheduler : bool }.
Record ExtenderTLSConfig := MkExtenderTLSConfig {
  tls_Insecure : bool;
  tls_ServerName : string;
  tls_CertFile : string;
  tls_KeyFile : string;
  tls_CAFile : string;
  tls_CertData : string;
  tls_KeyData : string;
  tls_CAData : string
}.
Record ExtenderConfig := MkExtenderConfig {
  URLPrefix : string;
  FilterVerb : string;
  PreemptVerb : string;
  PrioritizeVerb : string;
  ec_Weight : Z;
  BindVerb : string;
  EnableHTTPS : bool;
  TLSConfig : option ExtenderTLSConfig;
  HTTPTimeout : Duration;
  NodeCacheCapable : bool;
  ManagedResources : list ExtenderManagedResource;
  Ignorable : bool
}.

(** client-go rest (the transport of a configuration of TLS), net/http (a POST of a body to a URL with a timeout: the status
    and the body of the answer) and encoding/json. A [Body] is the bytes of a message. *)
Class HTTPLib := {
  Transport : Type;
  Body : Type;
  TransportFor : ExtenderTLSConfig → error + Transport;
  Do : Transport → Duration → string → Body → error + (Z * Body);
  Marshal : extender_request → error + Body;
  DecodeFilterResult : Body → error + ExtenderFilterResult;
  DecodeHostPriorityList : Body → error + HostPriorityList;
  DecodePreemptionResult : Body → error + ExtenderPreemptionResult;
  DecodeBindingResult : Body → error + ExtenderBindingResult
}.
Definition StatusOK : Z := 200.
Definition DefaultExtenderTimeout : Duration := 5 * Second.

(** [strings.TrimRight(s, "/")] *)
Fixpoint trim_slashes (s : string) : string :=
  match s with
  | EmptyString => EmptyString
  | String c s =>
      match trim_slashes s with
      | EmptyString => if (c =? "/")%char then EmptyString else String c EmptyString
      | t => String c t
      end
  end.

Section extender.
Context `{MapRange} `{HTTPLib}.
Implicit Types (pod : Pod) (nodeNameToInfo : gmap string NodeInfo).

Record HTTPExtender := MkHTTPExtender {
  extenderURL : string;
  preemptVerb : string;
  filterVerb : string;
  prioritizeVerb : string;
  bindVerb : string;
  h_weight : Z;
  h_client : Transport * Duration;
  nodeCacheCapable : bool;
  managedResources : gset string;
  ignorable : bool
}.
Implicit Type h : HTTPExtender.

(** The zero value of the part of [restclient.Config] that is used. *)
Definition noTLS : ExtenderTLSConfig :=
  MkExtenderTLSConfig false EmptyString EmptyString EmptyString EmptyString EmptyString EmptyString EmptyString.
Definition makeTransport (config : ExtenderConfig) : error + Transport :=
  let cfg := default noTLS (TLSConfig config) in
  let hasCA := negb (bool_decide (tls_CAFile cfg = EmptyString)) || negb (bool_decide (tls_CAData cfg = EmptyString)) in
  TransportFor (if EnableHTTPS config && negb hasCA
                then MkExtenderTLSConfig true (tls_ServerName cfg) (tls_CertFile cfg) (tls_KeyFile cfg) (tls_CAFile cfg)
                       (tls_CertData cfg) (tls_KeyData cfg) (tls_CAData cfg)
                else cfg).

(** The default timeout is also written to the configuration, which nothing reads again. *)
Definition NewHTTPExtender (config : ExtenderConfig) : error + HTTPExtender :=
  let timeout := if HTTPTimeout config =? 0 then DefaultExtenderTimeout else HTTPTimeout config in
  match makeTransport config with
  | inl err => inl err
  | inr transport =>
      inr (MkHTTPExtender (URLPrefix config) (PreemptVerb config) (FilterVerb config) (PrioritizeVerb config) (BindVerb config)
             (ec_Weight config) (transport, timeout) (NodeCacheCapable config)
             (list_to_set (emr_Name <$> ManagedResources config)) (Ignorable config))
  end.

(** ** One exchange *)

Definition send {R} (decode : Body → error + R) h (action : string) (args : extender_request) : error + R :=
  match Marshal args with
  | inl err => inl err
  | inr out =>
      let url := (trim_slashes (extenderURL h) +:+ "/" +:+ action)%string in
      match Do (h_client h).1 (h_client h).2 url out with
      | inl err => inl err
      | inr (code, body) =>
          if negb (code =? StatusOK) then inl ("Failed " +:+ action +:+ " with extender at URL " +:+ url)%string else decode body
      end
  end.

(** ** Which pods it is interested in *)

Definition hasManagedResources h (containers : list Container) : bool :=
  existsb (λ c, existsb (λ r, bool_decide (r ∈ managedResources h)) (range (Requests c)).*1 ||
                existsb (λ r, bool_decide (r ∈ managedResources h)) (range (Limits c)).*1) containers.
Definition HTTPExtender_IsInterested h pod : bool :=
  if bool_decide (size (managedResources h) = O) then true
  else if hasManagedResources h (pod_Containers pod) then true
  else if hasManagedResources h (InitContainers (pod_Spec pod)) then true
  else false.

Definition HTTPExtender_IsBinder h : bool := negb (bool_decide (bindVerb h = EmptyString)).
Definition HTTPExtender_SupportsPreemption h : bool := (0 <? String.length (preemptVerb h))%nat.

(** ** Filter and scores *)

(** The names or the nodes that are sent; a nil node is dereferenced. *)
Definition extenderArgs h pod (nodes : list (option Node)) : comp ExtenderArgs :=
  nodes ← mapM id nodes;
  Some (if nodeCacheCapable h then MkExtenderArgs pod None (Some (node_Name <$> nodes)) else MkExtenderArgs pod (Some nodes) None).

Definition HTTPExtender_Filter h pod (nodes : list (option Node)) nodeNameToInfo :
    comp (error + (list (option Node) * gmap string string)) :=
  if bool_decide (filterVerb h = EmptyString) then Some (inr (nodes, ∅))
  else
    args ← extenderArgs h pod nodes;
    Some (match send DecodeFilterResult h (filterVerb h) (RequestArgs args) with
          | inl err => inl err
          | inr result =>
              if negb (bool_decide (efr_Error result = EmptyString)) then inl (efr_Error result)
              else
                inr (match (if nodeCacheCapable h then efr_NodeNames result else None) with
                     | Some names => (λ name, NodeInfo_Node (nodeNameToInfo !! name)) <$> names
                     | None => Some <$> default [] (efr_Nodes result)
                     end, efr_FailedNodes result)
          end).

Definition HTTPExtender_Prioritize h pod (nodes : list Node) : error + (HostPriorityList * Z) :=
  if bool_decide (prioritizeVerb h = EmptyString) then inr ((λ node, MkHostPriority (node_Name node) 0) <$> nodes, 0)
  else
    let args := if nodeCacheCapable h then MkExtenderArgs pod None (Some (node_Name <$> nodes)) else MkExtenderArgs pod (Some nodes) None in
    match send DecodeHostPriorityList h (prioritizeVerb h) (RequestArgs args) with
    | inl err => inl err
    | inr result => inr (result, h_weight h)
    end.

(** ** Preemption *)

(** The map from nodes to victims is a list; assigning to a key replaces its entry. *)
Fixpoint set_victims (node : option Node) (v : Victims) (nodeToVictims : list (option Node * Victims)) : list (option Node * Victims) :=
  match nodeToVictims with
  | [] => [(node, v)]
  | e :: l => if bool_decide (e.1 = node) then (node, v) :: l else e :: set_victims node v l
  end.

Definition meta_victims (v : Victims) : MetaVictims := MkMetaVictims ((λ p, Some (MkMetaPod (pod_UID p))) <$> victim_Pods v) 0.
Definition convertToNodeNameToMetaVictims (nodeToVictims : list (option Node * Victims)) : comp (gmap string (option MetaVictims)) :=
  foldl (λ r e, m ← r; node ← e.1; Some (<[node_Name node := Some (meta_victims e.2)]> m)) (Some ∅) nodeToVictims.
Definition convertToNodeNameToVictims (nodeToVictims : list (option Node * Victims)) : comp (gmap string Victims) :=
  foldl (λ r e, m ← r; node ← e.1; Some (<[node_Name node := e.2]> m)) (Some ∅) nodeToVictims.

(** The pod of the node with this UID. *)
Fixpoint find_pod (metaPod : option MetaPod) (pods : list Pod) : comp (option Pod) :=
  match pods with
  | [] => Some None
  | pod :: pods =>
      m ← metaPod;
      if bool_decide (pod_UID pod = mp_UID m) then Some (Some pod) else find_pod metaPod pods
  end.
(** The variable that the last error is made of is nil: the one that was assigned is another one in an inner scope. *)
Definition convertPodUIDToPod h (metaPod : option MetaPod) (nodeName : string) nodeNameToInfo : comp (error + Pod) :=
  match nodeNameToInfo !! nodeName with
  | Some nodeInfo =>
      pod ← find_pod metaPod (ni_pods nodeInfo);
      match pod with
      | Some pod => Some (inr pod)
      | None =>
          node ← ni_node nodeInfo;
          Some (inl ("extender: " +:+ extenderURL h +:+ " claims to preempt pod on node: " +:+ node_Name node +:+
                     ", but the pod is not found on that node")%string)
      end
  | None => panic
  end.

Fixpoint convert_pods h (nodeName : string) nodeNameToInfo (pods : list (option MetaPod)) : comp (error + list Pod) :=
  match pods with
  | [] => Some (inr [])
  | metaPod :: pods =>
      r ← convertPodUIDToPod h metaPod nodeName nodeNameToInfo;
      match r with
      | inl err => Some (inl err)
      | inr pod =>
          r ← convert_pods h nodeName nodeNameToInfo pods;
          Some (match r with inl err => inl err | inr pods => inr (pod :: pods) end)
      end
  end.
Fixpoint convert_victims h nodeNameToInfo (nodeToVictims : list (option Node * Victims)) (l : list (string * option MetaVictims)) :
    comp (error + list (option Node * Victims)) :=
  match l with
  | [] => Some (inr nodeToVictims)
  | (nodeName, metaVictims) :: l =>
      metaVictims ← metaVictims;
      r ← convert_pods h nodeName nodeNameToInfo (mv_Pods metaVictims);
      match r with
      | inl err => Some (inl err)
      | inr pods =>
          convert_victims h nodeNameToInfo (set_victims (NodeInfo_Node (nodeNameToInfo !! nodeName)) (MkVictims pods 0) nodeToVictims) l
      end
  end.
Definition convertToNodeToVictims h (nodeNameToMetaVictims : gmap string (option MetaVictims)) nodeNameToInfo :
    comp (error + list (option Node * Victims)) :=
  convert_victims h nodeNameToInfo [] (range nodeNameToMetaVictims).

Definition HTTPExtender_ProcessPreemption h pod (nodeToVictims : list (option Node * Victims)) nodeNameToInfo :
    comp (error + list (option Node * Victims)) :=
  if negb (HTTPExtender_SupportsPreemption h)
  then Some (inl ("preempt verb is not defined for extender " +:+ extenderURL h +:+ " but run into ProcessPreemption")%string)
  else
    args ← (if nodeCacheCapable h
            then m ← convertToNodeNameToMetaVictims nodeToVictims; Some (MkExtenderPreemptionArgs pod ∅ m)
            else m ← convertToNodeNameToVictims nodeToVictims; Some (MkExtenderPreemptionArgs pod m ∅));
    match send DecodePreemptionResult h (preemptVerb h) (RequestPreemption args) with
    | inl err => Some (inl err)
    | inr result => convertToNodeToVictims h (epr_NodeNameToMetaVictims result) nodeNameToInfo
    end.

(** ** Binding *)

Definition HTTPExtender_Bind h (b : Binding) : option error :=
  if negb (HTTPExtender_IsBinder h) then Some "Unexpected empty bindVerb in extender"%string
  else
    match send DecodeBindingResult h (bindVerb h) (RequestBinding (MkExtenderBindingArgs (b_Name b) (b_Namespace b) (b_UID b) (b_Target b))) with
    | inl err => Some err
    | inr result => if negb (bool_decide (ebr_Error result = EmptyString)) then Some (ebr_Error result) else None
    end.

(** ** The interface *)

Definition http_extender h : SchedulerExtender :=
  MkExtender (HTTPExtender_IsInterested h) (ignorable h) (HTTPExtender_SupportsPreemption h) (HTTPExtender_Filter h)
    (HTTPExtender_Prioritize h) (HTTPExtender_ProcessPreemption h) (HTTPExtender_IsBinder h) (HTTPExtender_Bind h).
End extender.
