(* ===== verification/ExtenderProofs.v ===== *)
(** * Extenders: what they do to the result

    Extenders only take nodes away, and exactly those that a service rejects, whatever the form in which nodes are
    sent; victims survive the way to the service and back. *)
From S2P Require Import Prelude Heap Api Util Resource HostPorts NodeTree NodeInfo PoolInfo PoolInfoProofs Predicates Cache CacheProofs GenericScheduler GenericSchedulerProofs Extender.

Section extender.
Context {Range : MapRange} {Http : HTTPLib}.
Implicit Types (h : HTTPExtender) (pod : Pod).

(** ** Interest *)

(** The containers ask for a resource of the list. *)
Definition asks_for (resources : gset string) (containers : list Container) : Prop :=
  ∃ c r, c ∈ containers ∧ r ∈ resources ∧ (is_Some (Requests c !! r) ∨ is_Some (Limits c !! r)).
Lemma range_keys_exists {A} (m : gmap string A) (resources : gset string) :
  existsb (λ r, bool_decide (r ∈ resources)) (range m).*1 = true ↔ ∃ r, r ∈ resources ∧ is_Some (m !! r).
Proof.
  rewrite existsb_exists. split.
  - intros (r & Hr & Hin%bool_decide_eq_true). apply list_elem_of_In, list_elem_of_fmap in Hr as ([r' x] & -> & Hr). apply range_elem in Hr. eauto.
  - intros (r & Hin & [x Hx]). exists r. split; [|by apply bool_decide_eq_true]. apply list_elem_of_In, list_elem_of_fmap. exists (r, x). split; [done|]. by apply range_elem.
Qed.
Lemma hasManagedResources_spec h containers : hasManagedResources h containers = true ↔ asks_for (managedResources h) containers.
Proof.
  unfold hasManagedResources, asks_for. rewrite existsb_exists. setoid_rewrite <-list_elem_of_In. setoid_rewrite orb_true_iff. setoid_rewrite range_keys_exists. naive_solver.
Qed.
Lemma IsInterested_spec h pod : HTTPExtender_IsInterested h pod = true ↔
  managedResources h = ∅ ∨ asks_for (managedResources h) (pod_Containers pod ++ InitContainers (pod_Spec pod)).
Proof.
  unfold HTTPExtender_IsInterested. rewrite <-hasManagedResources_spec. unfold hasManagedResources at 3. rewrite existsb_app. fold (hasManagedResources h (pod_Containers pod)).
  fold (hasManagedResources h (InitContainers (pod_Spec pod))). rewrite orb_true_iff.
  case_bool_decide as E; [apply size_empty_inv in E; apply leibniz_equiv in E; tauto|].
  assert (managedResources h ≠ ∅) by (intros E'; apply E; by rewrite E', size_empty).
  destruct (hasManagedResources h (pod_Containers pod)), (hasManagedResources h (InitContainers (pod_Spec pod))); naive_solver.
Qed.

(** ** Filtering *)

(** What a service does with a request to filter: it fails, or keeps the nodes with certain names. *)
Inductive behaviour := Down (err : error) | Keeps (keep : string → bool).
Definition behaves h (b : behaviour) : Prop := ∀ args,
  match b, send DecodeFilterResult h (filterVerb h) (RequestArgs args) with
  | Down err, inl err' => err' = err
  | Keeps keep, inr r => efr_Error r = EmptyString ∧
      efr_Nodes r = filter (λ n, keep (node_Name n)) <$> ea_Nodes args ∧ efr_NodeNames r = filter (λ name, keep name) <$> ea_NodeNames args
  | _, _ => False
  end.

Variables (service : HTTPExtender → behaviour) (pod : Pod) (snapshot : gmap string NodeInfo).
(** The nodes are those of the snapshot. *)
Definition in_snapshot (node : Node) : Prop := NodeInfo_Node (snapshot !! node_Name node) = Some node.

Definition consulted h : bool := HTTPExtender_IsInterested h pod && negb (bool_decide (filterVerb h = EmptyString)).
Definition accepts h (node : Node) : bool :=
  match service h with Keeps keep => negb (consulted h) || keep (node_Name node) | Down _ => true end.
Definition all_accept (hs : list HTTPExtender) (node : Node) : bool := forallb (λ h, accepts h node) hs.

Lemma names_in_snapshot (keep : string → bool) nodes : Forall in_snapshot nodes →
  (λ name, NodeInfo_Node (snapshot !! name)) <$> filter (λ name, keep name) (node_Name <$> nodes) = Some <$> filter (λ n, keep (node_Name n)) nodes.
Proof.
  induction 1 as [|n nodes Hn _ IH]; [done|]. rewrite fmap_cons, !filter_cons. destruct (decide (keep (node_Name n))); [|done].
  rewrite !fmap_cons, IH. by rewrite Hn.
Qed.
Lemma mapM_id_Some {A} (l : list A) : mapM id (Some <$> l) = Some l.
Proof. induction l as [|x l IH]; [done|].
  change (mapM id (Some <$> (x :: l))) with (y ← Some x; k ← mapM id (Some <$> l); Some (y :: k)). by rewrite IH.
Qed.

Lemma mapM_id_inv {A} (l : list (option A)) k : mapM id l = Some k → l = Some <$> k.
Proof. intros E%mapM_Some. induction E as [|x y l k E _ IH]; [done|]. rewrite fmap_cons, <-IH. by rewrite <-E. Qed.

(** Nodes sent by value and nodes sent by name are filtered alike. *)
Lemma Filter_spec h keep nodes : behaves h (Keeps keep) → filterVerb h ≠ EmptyString → Forall in_snapshot nodes →
  ∃ messages, HTTPExtender_Filter h pod (Some <$> nodes) snapshot = Some (inr (Some <$> filter (λ n, keep (node_Name n)) nodes, messages)).
Proof.
  intros Hb Hv Hn. unfold HTTPExtender_Filter. rewrite bool_decide_false by done. unfold extenderArgs. rewrite mapM_id_Some. cbn [mbind option_bind].
  set (args := if nodeCacheCapable h then _ else _). pose proof (Hb args) as Ha. cbn [behaves] in Ha.
  destruct (send _ _ _ _) as [?|r]; [done|]. destruct Ha as (He & Hns & Hnames). rewrite bool_decide_true by done. cbn [negb].
  exists (efr_FailedNodes r). rewrite Hns, Hnames. subst args. destruct (nodeCacheCapable h); simpl; [by rewrite names_in_snapshot|done].
Qed.

Lemma Filter_down h err nodes : behaves h (Down err) → filterVerb h ≠ EmptyString → HTTPExtender_Filter h pod (Some <$> nodes) snapshot = Some (inl err).
Proof.
  intros Hb Hv. unfold HTTPExtender_Filter. rewrite bool_decide_false by done. unfold extenderArgs. rewrite mapM_id_Some. cbn [mbind option_bind].
  set (args := if nodeCacheCapable h then _ else _). pose proof (Hb args) as Ha. cbn [behaves] in Ha. destruct (send _ _ _ _) as [?|r]; [by subst|done].
Qed.

Lemma filter_extenders_spec hs : Forall (λ h, behaves h (service h)) hs → ∀ nodes failed, Forall in_snapshot nodes →
  ∃ r, filter_extenders pod snapshot (http_extender <$> hs) (Some <$> nodes) failed = Some r ∧
  match r with
  | inr (l, _) => l = Some <$> filter (λ n, all_accept hs n) nodes
  | inl err => ∃ h, h ∈ hs ∧ consulted h = true ∧ ignorable h = false ∧ service h = Down err
  end.
Proof.
  induction 1 as [|h hs Hb Hbs IH]; intros nodes failed Hn.
  { eexists. split; [done|]. simpl. f_equal. induction nodes as [|n l IHl]; [done|]. rewrite filter_cons_True by done. f_equal. apply IHl. by inv Hn. }
  assert (∀ nodes failed, Forall in_snapshot nodes → (∀ n, n ∈ nodes → accepts h n = true) →
    ∃ r, filter_extenders pod snapshot (http_extender <$> hs) (Some <$> nodes) failed = Some r ∧
    match r with
    | inr (l, _) => l = Some <$> filter (λ n, all_accept (h :: hs) n) nodes
    | inl err => ∃ h', h' ∈ h :: hs ∧ consulted h' = true ∧ ignorable h' = false ∧ service h' = Down err
    end) as Hskip.
  { intros l f Hl Ha. destruct (IH l f Hl) as (r & -> & Hr). exists r. split; [done|]. destruct r as [e|[l' f']].
    - destruct Hr as (h' & ? & ?). exists h'. split; [by right|done].
    - rewrite Hr. f_equal. apply filter_ext_in. intros n Hin. unfold all_accept. simpl. by rewrite Ha. }
  cbn [fmap list_fmap filter_extenders]. cbn [http_extender ext_IsInterested ext_Filter ext_IsIgnorable].
  destruct (HTTPExtender_IsInterested h pod) eqn:Ei; cbn [negb].
  2: { apply Hskip; [done|]. intros n _. unfold accepts, consulted. rewrite Ei. by destruct (service h). }
  destruct (decide (filterVerb h = EmptyString)) as [Ev|Ev].
  { unfold HTTPExtender_Filter. rewrite bool_decide_true by done. cbn [mbind option_bind]. rewrite length_fmap. case_bool_decide as El.
    - apply nil_length_inv in El as ->. eexists. by split.
    - apply Hskip; [done|]. intros n _. unfold accepts, consulted. rewrite (bool_decide_true (_ = _)) by done. rewrite andb_false_r. by destruct (service h). }
  assert (consulted h = true) as Hc by (unfold consulted; by rewrite Ei, bool_decide_false).
  destruct (service h) as [err|keep] eqn:Es.
  - rewrite (Filter_down h err) by done. cbn [mbind option_bind]. destruct (ignorable h) eqn:Eg.
    + apply Hskip; [done|]. intros n _. unfold accepts. by rewrite Es.
    + eexists. split; [done|]. exists h. by split_and!; [left|..].
  - destruct (Filter_spec h keep nodes Hb Ev Hn) as [messages ->]. cbn [mbind option_bind]. rewrite length_fmap.
    assert (∀ n, accepts h n = keep (node_Name n)) as Ea by (intros n; unfold accepts; by rewrite Es, Hc).
    assert (∀ P : Node → bool, filter (λ n, P n) (filter (λ n, keep (node_Name n)) nodes) = filter (λ n, keep (node_Name n) && P n) nodes) as Eff.
    { intros P. rewrite list_filter_filter. apply list_filter_iff. intros n. rewrite andb_True. tauto. }
    case_bool_decide as El.
    + apply nil_length_inv in El. eexists. split; [done|]. cbn beta iota. rewrite El. symmetry.
      rewrite (list_filter_iff _ (λ n, keep (node_Name n) && all_accept hs n)); [by rewrite <-Eff, El|]. intros n. unfold all_accept. simpl. by rewrite Ea.
    + destruct (IH (filter (λ n, keep (node_Name n)) nodes) (foldl (λ (m : FailedPredicateMap) e,
        <[e.1 := default [] (m !! e.1) ++ [FailureReason e.2]]> m) failed (range messages))) as (r & Er & Hr).
      { apply Forall_forall. intros n [_ Hin]%list_elem_of_filter. rewrite Forall_forall in Hn. by apply Hn. }
      exists r. split; [exact Er|]. destruct r as [e|[l f']]; [destruct Hr as (h' & ? & ?); exists h'; split; [by right|done]|].
      rewrite Hr, Eff. f_equal. apply list_filter_iff. intros n. unfold all_accept. simpl. by rewrite Ea.
Qed.
End extender.

(** ** Preemption *)

Section preemption.
Context {Range : MapRange} {Http : HTTPLib}.
Implicit Types (h : HTTPExtender) (pod : Pod).
Variable snapshot : gmap string NodeInfo.

(** What the service was asked: the victims by node. *)
Definition asked h (args : ExtenderPreemptionArgs) : gmap string (option MetaVictims) :=
  if nodeCacheCapable h then epa_NodeNameToMetaVictims args else (λ v, Some (meta_victims v)) <$> epa_NodeNameToVictims args.
(** It names the nodes on which the victims may be evicted, and leaves the victims alone. *)
Definition approves h (keep : string → bool) : Prop := ∀ args, ∃ result,
  send DecodePreemptionResult h (preemptVerb h) (RequestPreemption args) = inr result ∧
  epr_NodeNameToMetaVictims result = filter (λ e, keep e.1) (asked h args).

(** Candidates of the snapshot: victims run on their node, and UIDs there are different. *)
Definition candidate_ok (e : Node * Victims) : Prop := ∃ info,
  snapshot !! node_Name e.1 = Some info ∧ ni_node info = Some e.1 ∧
  (∀ p, p ∈ victim_Pods e.2 → p ∈ ni_pods info) ∧ NoDup (pod_UID <$> ni_pods info).
(** The map with the values [f] for the victims, as the conversions build it. *)
Definition by_name {B} (f : Victims → B) (l : list (Node * Victims)) : gmap string B := list_to_map ((λ e, (node_Name e.1, f e.2)) <$> reverse l).
(** The candidate as it comes back. *)
Definition returned (e : Node * Victims) : option Node * Victims := (Some e.1, MkVictims (victim_Pods e.2) 0).

Lemma by_name_foldl {B} (f : Victims → B) l :
  foldl (λ r e, m ← r; node ← e.1; Some (<[node_Name node := f e.2]> m)) (Some ∅) (prod_map Some id <$> l) = Some (by_name f l).
Proof.
  induction l as [|e l IH] using rev_ind; [done|]. rewrite fmap_app, foldl_app, IH. unfold by_name. by rewrite reverse_app.
Qed.
Lemma by_name_lookup {B} (f : Victims → B) l k x : NoDup ((λ e, node_Name e.1) <$> l) →
  by_name f l !! k = Some x ↔ ∃ e, e ∈ l ∧ k = node_Name e.1 ∧ x = f e.2.
Proof.
  intros Hnd. unfold by_name. rewrite <-elem_of_list_to_map.
  - rewrite list_elem_of_fmap. setoid_rewrite elem_of_reverse. naive_solver.
  - rewrite <-list_fmap_compose. rewrite (reverse_Permutation l). exact Hnd.
Qed.

Lemma NoDup_fmap_filter {A B} (f : A → B) (P : A → Prop) `{!∀ x, Decision (P x)} l : NoDup (f <$> l) → NoDup (f <$> filter P l).
Proof. intros Hl. eapply sublist_NoDup; [exact Hl|]. apply fmap_sublist, sublist_filter. Qed.

Lemma find_pod_spec p pods : p ∈ pods → NoDup (pod_UID <$> pods) → find_pod (Some (MkMetaPod (pod_UID p))) pods = Some (Some p).
Proof.
  intros Hp Hnd. induction pods as [|q pods IH]; [by apply not_elem_of_nil in Hp|]. apply NoDup_cons in Hnd as [Hq Hnd]. cbn [find_pod mbind option_bind mp_UID].
  apply elem_of_cons in Hp as [<-|Hp]; [by rewrite bool_decide_true|]. rewrite bool_decide_false; [by apply IH|].
  intros E. apply Hq. change (pod_UID q ∈ pod_UID <$> pods). rewrite E. by apply list_elem_of_fmap_2.
Qed.
Lemma convert_pods_spec h name info pods : snapshot !! name = Some info → NoDup (pod_UID <$> ni_pods info) → (∀ p, p ∈ pods → p ∈ ni_pods info) →
  convert_pods h name snapshot ((λ p, Some (MkMetaPod (pod_UID p))) <$> pods) = Some (inr pods).
Proof.
  intros Ei Hnd. induction pods as [|p pods IH]; intros Hp; [done|]. cbn [fmap list_fmap convert_pods]. unfold convertPodUIDToPod. rewrite Ei.
  rewrite find_pod_spec by (try apply Hp; by left || done). cbn [mbind option_bind]. rewrite IH by (intros q Hq; apply Hp; by right). done.
Qed.
Lemma set_victims_fresh node v l : node ∉ l.*1 → set_victims node v l = l ++ [(node, v)].
Proof.
  induction l as [|e l IH]; [done|]. rewrite fmap_cons, not_elem_of_cons. intros [He Hl]. cbn [set_victims app]. rewrite bool_decide_false by done. by rewrite IH.
Qed.
Lemma convert_victims_spec h l : ∀ acc, Forall candidate_ok l → NoDup ((λ e, node_Name e.1) <$> l) → (∀ e, e ∈ l → Some e.1 ∉ acc.*1) →
  convert_victims h snapshot acc ((λ e, (node_Name e.1, Some (meta_victims e.2))) <$> l) = Some (inr (acc ++ (returned <$> l))).
Proof.
  induction l as [|e l IH]; intros acc Hok Hnd Hfresh; [by rewrite app_nil_r|]. apply Forall_cons in Hok as [(info & Ei & En & Hv & Hu) Hok].
  rewrite fmap_cons, NoDup_cons in Hnd. destruct Hnd as [He Hnd]. cbn [fmap list_fmap convert_victims mbind option_bind]. cbn [meta_victims mv_Pods].
  rewrite (convert_pods_spec h _ info) by done. cbn [mbind option_bind]. rewrite Ei. cbn [NodeInfo_Node mbind option_bind]. rewrite En.
  rewrite set_victims_fresh by (apply Hfresh; by left). change ((Some e.1, MkVictims (victim_Pods e.2) 0)) with (returned e).
  rewrite IH; [by rewrite <-app_assoc|done|done|]. intros e' He'. rewrite fmap_app, elem_of_app. intros [Ha|Ha]; [apply (Hfresh e'); [by right|done]|].
  apply list_elem_of_singleton in Ha. injection Ha as Ha. apply He. rewrite <-Ha. exact (list_elem_of_fmap_2 (λ e, node_Name e.1) _ _ He').
Qed.

(** C27: victims survive the way to a service and back.  For candidates of the snapshot, whatever the form in which they are sent, the
    candidates that come back are those that the service approves, each with the same pods; the numbers of violated budgets do not come back. *)
Theorem preemption_roundtrip h keep pod cands : HTTPExtender_SupportsPreemption h = true → approves h keep →
  Forall candidate_ok cands → NoDup ((λ e, node_Name e.1) <$> cands) →
  ∃ l, HTTPExtender_ProcessPreemption h pod (prod_map Some id <$> cands) snapshot = Some (inr l) ∧
    l ≡ₚ returned <$> filter (λ e, keep (node_Name e.1)) cands.
Proof.
  intros Hs Hk Hok Hnd. unfold HTTPExtender_ProcessPreemption. rewrite Hs. cbn [negb].
  set (sent := (if nodeCacheCapable h then MkExtenderPreemptionArgs pod ∅ (by_name (λ v, Some (meta_victims v)) cands) else MkExtenderPreemptionArgs pod (by_name id cands) ∅)).
  match goal with |- ∃ l, (?a ≫= _) = _ ∧ _ => assert (a = Some sent) as -> end.
  { unfold sent, convertToNodeNameToMetaVictims, convertToNodeNameToVictims. destruct (nodeCacheCapable h); [by rewrite (by_name_foldl (λ v, Some (meta_victims v)))|by rewrite (by_name_foldl id)]. }
  cbn [mbind option_bind]. destruct (Hk sent) as (result & -> & Er). unfold convertToNodeToVictims.
  assert (∀ k x, asked h sent !! k = Some x ↔ ∃ e, e ∈ cands ∧ k = node_Name e.1 ∧ x = Some (meta_victims e.2)) as Hasked.
  { intros k x. unfold asked, sent. destruct (nodeCacheCapable h); cbn [epa_NodeNameToMetaVictims epa_NodeNameToVictims]; [by rewrite by_name_lookup|].
    rewrite lookup_fmap, fmap_Some. setoid_rewrite by_name_lookup; [|done]. unfold id. naive_solver. }
  assert (range (epr_NodeNameToMetaVictims result) ≡ₚ (λ e, (node_Name e.1, Some (meta_victims e.2))) <$> filter (λ e, keep (node_Name e.1)) cands) as Hrange.
  { apply NoDup_Permutation; [rewrite range_perm; apply NoDup_map_to_list| |].
    - apply (NoDup_fmap_1 fst). rewrite <-list_fmap_compose. by apply (NoDup_fmap_filter (λ e, node_Name e.1)).
    - intros [k x]. rewrite range_elem, Er, map_lookup_filter_Some, Hasked, list_elem_of_fmap. setoid_rewrite list_elem_of_filter. simpl. naive_solver. }
  apply Permutation_map_inv in Hrange as (l & El & Hl). exists (returned <$> l). split; [|by rewrite Hl]. rewrite El. etransitivity.
  { apply convert_victims_spec; [| |by intros e _; apply not_elem_of_nil].
    - rewrite <-Hl. apply Forall_forall. intros e [_ He]%list_elem_of_filter. rewrite Forall_forall in Hok. by apply Hok.
    - rewrite <-Hl. by apply (NoDup_fmap_filter (λ e, node_Name e.1)). }
  done.
Qed.
End preemption.

(** ** Scheduling with extenders *)

Section schedule.
Context {K8s : K8sLib} {Range : MapRange} {Sort : GoSort} {Errs : ErrorsLib} {Http : HTTPLib}.
Context {M PM Q : Type} {Meta : PredicateMetadata M} {Queue : SchedulingPoolQueue Q}.
Implicit Types (pod : Pod) (g : @genericScheduler M PM Q).

Definition without_extenders g : @genericScheduler M PM Q :=
  MkGenericScheduler (gs_cache g) (gs_queue g) (gs_predicates g) (gs_ordering g) (gs_predicateMetaProducer g) (gs_prioritizers g)
    (gs_priorityMetaProducer g) [] (gs_lastNodeIndex g) (gs_alwaysCheckAllPredicates g) (gs_percentageOfNodesToScore g).

Lemma without_set_nodeTree g n t : without_extenders (set_nodeTree g n t) = set_nodeTree (without_extenders g) n t.
Proof. unfold set_nodeTree. cbn [without_extenders gs_cache]. by destruct (ca_pools (gs_cache g) !! n). Qed.
Lemma extenders_set_nodeTree g n t : gs_extenders (set_nodeTree g n t) = gs_extenders g.
Proof. unfold set_nodeTree. by destruct (ca_pools (gs_cache g) !! n). Qed.

(** The search does not depend on the extenders: they are asked about its result. *)
Lemma findNodes_extenders schedule g poolName pod nodes g' filtered failed :
  findNodesThatFit schedule g poolName pod nodes = Some (g', inr (filtered, failed)) →
  gs_extenders g' = gs_extenders g ∧ ∃ sn filtered0 failed0, snapshot_of g poolName = Some sn ∧
    findNodesThatFit schedule (without_extenders g) poolName pod nodes = Some (without_extenders g', inr (filtered0, failed0)) ∧
    (filtered = filtered0 ∧ (filtered = [] ∨ gs_extenders g = []) ∨
     filter_extenders pod sn (gs_extenders g) (Some <$> filtered0) failed0 = Some (inr (Some <$> filtered, failed))).
Proof.
  unfold findNodesThatFit. change (snapshot_of (without_extenders g) poolName) with (snapshot_of g poolName).
  destruct (snapshot_of g poolName) as [sn|]; [|done]. cbn [mbind option_bind]. cbn [without_extenders gs_predicates gs_cache gs_percentageOfNodesToScore].
  match goal with |- (?x ≫= _) = _ → _ => destruct x as [[g1 r1]|] eqn:E1 end; [|done]. cbn [mbind option_bind].
  match goal with |- _ → _ ∧ ∃ sn' f0 m0, _ ∧ (?y ≫= _) = _ ∧ _ => assert (gs_extenders g1 = gs_extenders g ∧ y = Some (without_extenders g1, r1)) as [Ex ->] end.
  { destruct (bool_decide (size (gs_predicates g) = O)); [by injection E1 as <- <-|]. destruct (Cache_NodeTree _ _) as [t|]; [|done]. cbn [mbind option_bind] in *.
    destruct (_ <? 0); [done|]. cbn [mbind option_bind] in *. unfold checkNode in *. cbn [without_extenders gs_predicates gs_ordering gs_queue gs_alwaysCheckAllPredicates gs_predicateMetaProducer].
    destruct (run_search _ _ _ _ _ _) as [s|]; [|done]. cbn [mbind option_bind] in *. injection E1 as <- <-. split; [apply extenders_set_nodeTree|].
    by rewrite without_set_nodeTree. }
  cbn [mbind option_bind]. destruct r1 as [e|[f m]]; [by intros ?; simplify_eq|]. rewrite andb_false_r, Ex.
  destruct (negb (bool_decide (length f = O)) && negb (bool_decide (length (gs_extenders g) = O))) eqn:Eb.
  - destruct (filter_extenders _ _ _ _ _) as [[e|[l f']]|] eqn:Ef; cbn [mbind option_bind]; [by intros ?; simplify_eq| |done].
    destruct (mapM id l) as [l'|] eqn:El; cbn [mbind option_bind]; [|done]. intros E. injection E as <- <- <-. split; [done|]. exists sn, f, m. split_and!; [done|done|]. right.
    rewrite Ef. do 3 f_equal. by apply mapM_id_inv.
  - intros E. injection E as <- <- <-. split; [done|]. exists sn, f, m. split_and!; [done|done|]. left. split; [done|].
    apply andb_false_iff in Eb as [Eb|Eb]; apply negb_false_iff, bool_decide_eq_true, nil_length_inv in Eb; auto.
Qed.

Lemma findNodes_accepted service hs schedule g poolName pod nodes c p g1 filtered failed :
  gs_extenders g = http_extender <$> hs → Forall (λ h, behaves h (service h)) hs → cycle (without_extenders g) poolName c p →
  findNodesThatFit schedule (set_cache g c) poolName pod nodes = Some (g1, inr (filtered, failed)) →
  snapshot_of g1 poolName = Some (NodeInfoMap (pi_nodeInfoSnapshot p)) ∧
  ∀ node, node ∈ filtered → ∃ name, name ∈ all_nodes (pi_nodeTree p) ∧
    found (NodeInfoMap (pi_nodeInfoSnapshot p)) (verdict g c p pod) name node ∧ ∀ h, h ∈ hs → accepts service pod h node = true.
Proof.
  intros Hhs Hb Hc Ef. apply findNodes_extenders in Ef as (_ & sn & f0 & m0 & Esn & Ef0 & Hcase).
  destruct (findNodes_spec schedule (without_extenders g) poolName pod nodes c p _ f0 m0 Hc Ef0) as ((tree & Eg & _) & Hfound & _).
  assert (sn = NodeInfoMap (pi_nodeInfoSnapshot p)) as ->.
  { unfold snapshot_of, Cache_NodeInfoSnapshot in Esn. cbn [gs_cache set_cache] in Esn. rewrite (cy_pool _ _ _ _ Hc) in Esn. by injection Esn. }
  split.
  { change (snapshot_of (without_extenders g1) poolName = Some (NodeInfoMap (pi_nodeInfoSnapshot p))). rewrite Eg.
    unfold set_nodeTree, snapshot_of, Cache_NodeInfoSnapshot. cbn [gs_cache set_cache]. rewrite (cy_pool _ _ _ _ Hc). cbn [gs_cache set_cache ca_pools set_pools].
    by rewrite lookup_insert_eq. }
  cbn [set_cache gs_extenders] in Hcase. intros node Hnode. destruct Hcase as [[-> [->|Hnil]]|Hfilter]; [by apply not_elem_of_nil in Hnode| |].
  - rewrite Hhs in Hnil. apply fmap_nil_inv in Hnil as ->. destruct (Hfound node Hnode) as (name & ? & ?). exists name. split_and!; [done|done|by intros h ?%not_elem_of_nil].
  - rewrite Hhs in Hfilter. destruct (filter_extenders_spec service pod (NodeInfoMap (pi_nodeInfoSnapshot p)) hs Hb f0 m0) as (r & Er & Hr).
    { apply Forall_forall. intros n Hn. destruct (Hfound n Hn) as (name & _ & _ & info & Ei & En). unfold in_snapshot.
      rewrite (cy_named _ _ _ _ Hc name info n Ei En), Ei. exact En. }
    rewrite Hfilter in Er. injection Er as <-. apply (inj (fmap Some)) in Hr. rewrite Hr in Hnode. apply list_elem_of_filter in Hnode as [Ha Hin].
    destruct (Hfound node Hin) as (name & ? & ?). exists name. split_and!; [done|done|]. intros h Hh. apply forallb_True in Ha.
    rewrite Forall_forall in Ha. apply Is_true_true. by apply Ha.
Qed.

(** C16: extenders are respected.  In a cycle with extenders whose services fail or keep some of the nodes, under every interleaving of the workers, the
    suggested host is a node of the pool whose snapshot passes the predicates and that every service which is
    consulted and answers has accepted; extenders with a score cannot bring in another host. *)
Theorem extenders_respected service hs b schedule g poolName pod pvcs nodeList c p g' res :
  gs_extenders g = http_extender <$> hs → Forall (λ h, behaves h (service h)) hs →
  Cache_UpdateNodeInfoSnapshot b (gs_cache g) poolName = Some (c, None) → cycle (without_extenders g) poolName c p →
  Schedule b schedule g poolName pod pvcs nodeList = Some (g', inr res) →
  ∃ name node, name ∈ all_nodes (pi_nodeTree p) ∧ SuggestedHost res = node_Name node ∧
    found (NodeInfoMap (pi_nodeInfoSnapshot p)) (verdict g c p pod) name node ∧
    ∀ h, h ∈ hs → accepts service pod h node = true.
Proof.
  intros Hhs Hb Eu Hc. unfold Schedule. destruct (podPassesBasicChecks _ _ _) as [err|]; [by intros [= <- <-]|].
  destruct nodeList as [err|nodes]; [by intros [= <- <-]|]. case_bool_decide; [by intros [= <- <-]|]. rewrite Eu. cbn [mbind option_bind].
  destruct (findNodesThatFit schedule (set_cache g c) poolName pod nodes) as [[g1 [err|[filtered failed]]]|] eqn:Ef; cbn [mbind option_bind]; [done| |done].
  destruct (findNodes_accepted _ _ _ _ _ _ _ _ _ _ _ _ Hhs Hb Hc Ef) as [Hsn Hfound].
  destruct filtered as [|node [|node' filtered]]; [done| |].
  - intros [= <- <-]. destruct (Hfound node) as (name & Hf); [by left|]. exists name, node. naive_solver.
  - rewrite Hsn. cbn [mbind option_bind].
    destruct (PrioritizeNodes _ _ _ _ _ _) as [[err|l]|] eqn:Ep; cbn [mbind option_bind]; [done| |done].
    apply PrioritizeNodes_hosts in Ep; [|apply Hc].
    destruct (selectHost (gs_lastNodeIndex g1) l) as [[last [err|host]]|] eqn:Eh; cbn [mbind option_bind]; [done| |done].
    intros [= <- <-]. apply selectHost_in in Eh. rewrite Ep in Eh. apply list_elem_of_fmap in Eh as (n & -> & Hin).
    destruct (Hfound n Hin) as (name & Hf). exists name, n. naive_solver.
Qed.
End schedule.

(** ** Example: a service that rejects the node "n3" *)
Module ExtenderExample.
#[local] Existing Instance docK8s.
#[local] Existing Instance stdRange.
#[local] Existing Instance stdSort.
#[local] Existing Instance GenericExample.count_meta.
#[local] Existing Instance GenericExample.list_queue.
#[local] Existing Instance GenericExample.no_errors.

(** Messages stand for their encoding. *)
Inductive message :=
| Request (r : extender_request)
| FilterReply (r : ExtenderFilterResult)
| ScoreReply (l : HostPriorityList)
| PreemptionReply (r : ExtenderPreemptionResult)
| BindingReply (r : ExtenderBindingResult).
Definition keep (name : string) : bool := negb (bool_decide (name = "n3"%string)).
(** It answers a request to filter or to preempt on nodes that it knows by name; and it makes up a node if its address says so. *)
Definition answer (url : string) (m : message) : error + (Z * message) :=
  match m with
  | Request (RequestArgs a) =>
      inr (StatusOK, FilterReply (MkExtenderFilterResult (filter (λ n, keep (node_Name n)) <$> ea_Nodes a) (filter (λ n, keep n) <$> ea_NodeNames a) ∅ EmptyString))
  | Request (RequestPreemption a) =>
      inr (StatusOK, PreemptionReply (MkExtenderPreemptionResult
        (if bool_decide (url = "http://liar/preempt"%string) then {["n9"%string := Some (MkMetaVictims [Some (MkMetaPod "x")] 0)]}
         else if bool_decide (url = "http://vague/preempt"%string) then <["n9"%string := Some (MkMetaVictims [] 0)]> (epa_NodeNameToMetaVictims a)
         else filter (λ e, keep e.1) (epa_NodeNameToMetaVictims a))))
  | Request (RequestBinding _) => inr (StatusOK, BindingReply (MkExtenderBindingResult EmptyString))
  | _ => inl "bad request"%string
  end.
#[local] Instance docHTTP : HTTPLib := {|
  Transport := unit;
  Body := message;
  TransportFor _ := inr tt;
  Do _ _ := answer;
  Marshal r := inr (Request r);
  DecodeFilterResult m := match m with FilterReply r => inr r | _ => inl "unexpected"%string end;
  DecodeHostPriorityList m := match m with ScoreReply r => inr r | _ => inl "unexpected"%string end;
  DecodePreemptionResult m := match m with PreemptionReply r => inr r | _ => inl "unexpected"%string end;
  DecodeBindingResult m := match m with BindingReply r => inr r | _ => inl "unexpected"%string end
|}.

Definition config (url : string) (cached : bool) : ExtenderConfig :=
  MkExtenderConfig url "filter" "preempt" EmptyString 1 EmptyString false None 0 cached [] false.
Definition extender (url : string) (cached : bool) : HTTPExtender :=
  match NewHTTPExtender (config url cached) with
  | inr h => h
  | inl _ => MkHTTPExtender url EmptyString EmptyString EmptyString EmptyString 0 (tt, 0) cached ∅ false
  end.
Definition by_value : HTTPExtender := extender "http://a/" false.
Definition by_names : HTTPExtender := extender "http://b/" true.

Lemma service_behaves url cached : behaves (extender url cached) (Keeps keep).
Proof. intros args. split_and!; reflexivity. Qed.
Lemma service_approves : approves by_names keep.
Proof. intros args. eexists. split; reflexivity. Qed.

(** The cluster of one node, with both forms of the service. *)
Definition gs2 : @genericScheduler nat unit (list Pod) :=
  MkGenericScheduler (gs_cache GenericExample.gs1) [] (GenericExample.funcs 5) ["few"%string] (λ _ _, Some O) [] (λ _ _, tt)
    (http_extender <$> [by_value; by_names]) 0 false 0.

Lemma extenders_respected_witness :
  ∃ g' name node, Schedule false [Begin; Finish 0] gs2 DefaultPoolName (GenericExample.prio_pod "c" 5) (λ _ _, inl "no claim"%string)
      (inr [GenericExample.n1]) = Some (g', inr (MkScheduleResult "n1" 1 1)) ∧
    name ∈ all_nodes (pi_nodeTree GenericExample.pool1) ∧ node_Name node = "n1"%string ∧
    accepts (λ _, Keeps keep) (GenericExample.prio_pod "c" 5) by_names node = true.
Proof.
  assert (∃ g', Schedule false [Begin; Finish 0] gs2 DefaultPoolName (GenericExample.prio_pod "c" 5) (λ _ _, inl "no claim"%string)
    (inr [GenericExample.n1]) = Some (g', inr (MkScheduleResult "n1" 1 1))) as [g' E] by (eexists; vm_compute; reflexivity).
  assert (Forall (λ h, behaves h (Keeps keep)) [by_value; by_names]) as Hb
    by (repeat (apply Forall_cons; split; [apply service_behaves|]); apply Forall_nil_2).
  assert (Cache_UpdateNodeInfoSnapshot false (gs_cache gs2) DefaultPoolName = Some (GenericExample.cache1, None)) as Eu by (vm_compute; reflexivity).
  destruct (extenders_respected (λ _, Keeps keep) [by_value; by_names] _ _ gs2 _ _ _ _ GenericExample.cache1 GenericExample.pool1 _ _
    eq_refl Hb Eu GenericExample.cycle1 E) as (name & node & H1 & H2 & _ & H3).
  exists g', name, node. split; [exact E|]. split; [exact H1|]. split; [symmetry; exact H2|]. apply H3. right. left.
Defined.

(** *** Preemption *)

Definition n1 : Node := GenericExample.n1.
Definition n2 : Node := PoolInfoExample.mkNode "n2".
Definition on_n2 : NodeInfo := (NodeInfo_SetNode 4 (NodeInfo_AddPod 3 (NewNodeInfo 0 []).2 (GenericExample.prio_pod "c" 3)).2 n2).2.
Definition snapshot : gmap string NodeInfo := {["n1" := GenericExample.on_n1; "n2" := on_n2]}%string.
(** The cheaper pod is protected by a budget. *)
Definition on_1 : Victims := MkVictims [GenericExample.prio_pod "a" 1] 1.
Definition on_2 : Victims := MkVictims [GenericExample.prio_pod "c" 3] 0.
Definition cands : list (Node * Victims) := [(n1, on_1); (n2, on_2)].

Lemma preemption_roundtrip_witness :
  ∃ l, HTTPExtender_ProcessPreemption by_names (GenericExample.prio_pod "d" 9) (prod_map Some id <$> cands) snapshot = Some (inr l) ∧
    l ≡ₚ [(Some n1, MkVictims [GenericExample.prio_pod "a" 1] 0); (Some n2, MkVictims [GenericExample.prio_pod "c" 3] 0)].
Proof.
  apply (preemption_roundtrip snapshot by_names keep (GenericExample.prio_pod "d" 9) cands).
  - reflexivity.
  - exact service_approves.
  - repeat (apply Forall_cons; split); [| |apply Forall_nil_2].
    + exists GenericExample.on_n1. split_and!; [reflexivity|reflexivity| |apply (bool_decide_unpack _); vm_compute; exact I].
      intros p ->%list_elem_of_singleton. rewrite GenericExample.on_n1_pods. left.
    + exists on_n2. split_and!; [reflexivity|reflexivity| |apply (bool_decide_unpack _); vm_compute; exact I].
      intros p ->%list_elem_of_singleton. vm_compute. left.
  - apply (bool_decide_unpack _). vm_compute. exact I.
Defined.

(** Without extender the node is chosen on which no budget is violated; an extender that approves of everything changes the
    choice, because the violations do not come back. *)
Example extender_hides_violations :
  pickOneNodeForPreemption cands "" ([] : list Pod) = Some n2 ∧
  (r ← HTTPExtender_ProcessPreemption by_names (GenericExample.prio_pod "d" 9) (prod_map Some id <$> cands) snapshot;
   match r with inr l => mjoin (pickOneNodeForPreemption l "" ([] : list Pod)) | inl _ => None end) = Some n1.
Proof. split; vm_compute; reflexivity. Qed.
(** A node that is not in the snapshot is to be an error; with a victim it is a panic. *)
Example unknown_node_panics :
  HTTPExtender_ProcessPreemption (extender "http://liar" true) (GenericExample.prio_pod "d" 9) (prod_map Some id <$> cands) snapshot = None.
Proof. vm_compute. reflexivity. Qed.
(** Without victims it is accepted, and chosen before the other candidates: nothing is evicted. *)
Example unknown_node_chosen :
  (r ← HTTPExtender_ProcessPreemption (extender "http://vague" true) (GenericExample.prio_pod "d" 9) (prod_map Some id <$> cands) snapshot;
   match r with inr l => pickOneNodeForPreemption l "" ([] : list Pod) | inl _ => None end) = Some None.
Proof. vm_compute. reflexivity. Qed.
End ExtenderExample.
