(* ===== verification/Metadata.v ===== *)
(** * The metadata of the predicates (src/pkg/scheduler/algorithm/predicates/metadata.go)

    What is computed once per scheduling attempt: the request and the ports of the pod, and three
    maps between topology pairs (a label of a node and its value) and pods, from
    which the predicate on inter-pod affinity reads its verdict.  Preemption changes a copy
    of them pod by pod.

    A pod stands for its pointer, and a set of pods is a list without duplicates.
    The workers that collect the maps handle the nodes in the order of the
    iteration over the snapshot; the theorems hold for every order. *)
From S2P Require Import Prelude Heap Api Util Resource HostPorts NodeInfo SchedulingQueue Predicates.

Record topologyPair := MkTopologyPair { tp_key : string; tp_value : string }.
#[global] Instance topologyPair_eq_dec : EqDecision topologyPair.
Proof. solve_decision. Defined.
#[global] Instance topologyPair_countable : Countable topologyPair.
Proof.
  refine (inj_countable' (λ p, (tp_key p, tp_value p)) (λ p, MkTopologyPair p.1 p.2) _). by intros [].
Defined.

Abbreviation podSet := (list Pod).
Record topologyPairsMaps := MkTopologyPairsMaps {
  topologyPairToPods : gmap topologyPair podSet;
  podToTopologyPairs : gmap string (gset topologyPair)
}.
Implicit Types (t : topologyPairsMaps) (pair : topologyPair) (pod : Pod) (node : Node).

Definition newTopologyPairsMaps : topologyPairsMaps := MkTopologyPairsMaps ∅ ∅.

Definition podSet_insert (pod : Pod) (s : podSet) : podSet := if bool_decide (pod ∈ s) then s else s ++ [pod].
Definition podSet_delete (pod : Pod) (s : podSet) : podSet := filter (λ p, p ≠ pod) s.

Definition addTopologyPair t pair pod : topologyPairsMaps :=
  let podFullName := GetPodFullName pod in
  MkTopologyPairsMaps
    (<[pair := podSet_insert pod (default [] (topologyPairToPods t !! pair))]> (topologyPairToPods t))
    (<[podFullName := {[ pair ]} ∪ default ∅ (podToTopologyPairs t !! podFullName)]> (podToTopologyPairs t)).

(** One iteration of the loop of [removePod]; deleting from a nil map does nothing. *)
Definition removePod1 (deletedPod : Pod) (m : gmap topologyPair podSet) pair : gmap topologyPair podSet :=
  match m !! pair with
  | None => m
  | Some s =>
      let s := podSet_delete deletedPod s in
      if bool_decide (length s = O) then delete pair m else <[pair := s]> m
  end.
Definition topologyPairsMaps_removePod t (deletedPod : Pod) : topologyPairsMaps :=
  let deletedPodFullName := GetPodFullName deletedPod in
  MkTopologyPairsMaps
    (foldl (removePod1 deletedPod) (topologyPairToPods t)
       (elements (default ∅ (podToTopologyPairs t !! deletedPodFullName))))
    (delete deletedPodFullName (podToTopologyPairs t)).

Definition appendMaps t (toAppend : option topologyPairsMaps) : topologyPairsMaps :=
  match toAppend with
  | None => t
  | Some a =>
      foldl (λ t (e : topologyPair * podSet), foldl (λ t pod, addTopologyPair t e.1 pod) t e.2) t
        (map_to_list (topologyPairToPods a))
  end.

(** core/v1.Service, which is only handed on. *)
Record Service := MkService { svc_Meta : ObjectMeta; svc_other : N }.

(** A nil slice is [None] where nil and empty differ. *)
Record predicateMetadata := MkPredicateMetadata {
  pm_pod : Pod;
  pm_podBestEffort : bool;
  pm_podRequest : Resource;
  pm_podPorts : list ContainerPort;
  topologyPairsAntiAffinityPodsMap : topologyPairsMaps;
  topologyPairsPotentialAffinityPods : topologyPairsMaps;
  topologyPairsPotentialAntiAffinityPods : topologyPairsMaps;
  serviceAffinityInUse : bool;
  serviceAffinityMatchingPodList : option (list Pod);
  serviceAffinityMatchingPodServices : option (list Service);
  ignoredExtendedResources : option (gset string)
}.
Implicit Type meta : predicateMetadata.

Definition set_topology meta (existing affinity antiAffinity : topologyPairsMaps) : predicateMetadata :=
  MkPredicateMetadata (pm_pod meta) (pm_podBestEffort meta) (pm_podRequest meta) (pm_podPorts meta)
    existing affinity antiAffinity (serviceAffinityInUse meta) (serviceAffinityMatchingPodList meta)
    (serviceAffinityMatchingPodServices meta) (ignoredExtendedResources meta).
Definition set_services meta (inUse : bool) (pods : option (list Pod)) (services : option (list Service)) :
    predicateMetadata :=
  MkPredicateMetadata (pm_pod meta) (pm_podBestEffort meta) (pm_podRequest meta) (pm_podPorts meta)
    (topologyPairsAntiAffinityPodsMap meta) (topologyPairsPotentialAffinityPods meta)
    (topologyPairsPotentialAntiAffinityPods meta) inUse pods services (ignoredExtendedResources meta).
Definition set_ignored meta (ignored : option (gset string)) : predicateMetadata :=
  MkPredicateMetadata (pm_pod meta) (pm_podBestEffort meta) (pm_podRequest meta) (pm_podPorts meta)
    (topologyPairsAntiAffinityPodsMap meta) (topologyPairsPotentialAffinityPods meta)
    (topologyPairsPotentialAntiAffinityPods meta) (serviceAffinityInUse meta) (serviceAffinityMatchingPodList meta)
    (serviceAffinityMatchingPodServices meta) ignored.

(** The producer that RegisterPredicateMetadataProducerWithExtendedResourceOptions registers. *)
Definition extendedResourceProducer (ignored : option (gset string)) meta : predicateMetadata := set_ignored meta ignored.

(** ** Affinity terms *)

Definition GetPodAntiAffinityTerms (podAntiAffinity : option PodAffinity) : list PodAffinityTerm :=
  match podAntiAffinity with None => [] | Some a => RequiredTerms a end.

(** [PodMatchesTermsNamespaceAndSelector] with a selector that is not nil. *)
Definition podMatchesTerm pod (namespaces : gset string) (selector : Selector) : bool :=
  bool_decide (pod_Namespace pod ∈ namespaces) && Selector_Matches selector (Labels (pod_Meta pod)).

Lemma podMatchesTerm_ok pod namespaces selector :
  PodMatchesTermsNamespaceAndSelector pod namespaces (Some selector) = Some (podMatchesTerm pod namespaces selector).
Proof. unfold PodMatchesTermsNamespaceAndSelector, podMatchesTerm. by case_bool_decide. Qed.

Record affinityTermProperties := MkAffinityTermProperties { atp_namespaces : gset string; atp_selector : Selector }.

(** apimachinery labels and kubernetes pkg/apis/core/v1/helper/qos. *)
Class MetadataLib := {
  AsSelector : gmap string string → Selector;
  Everything : Selector;
  GetPodQOS : Pod → string
}.
Definition PodQOSBestEffort : string := "BestEffort".

Definition PodAffinity_of pod : option PodAffinity := a ← spec_Affinity (pod_Spec pod); aff_PodAffinity a.
Definition PodAntiAffinity_of pod : option PodAffinity := a ← spec_Affinity (pod_Spec pod); aff_PodAntiAffinity a.

Section metadata.
Context `{K8sLib} `{MapRange} `{MetadataLib}.

Fixpoint getAffinityTermProperties pod (terms : list PodAffinityTerm) : error + list affinityTermProperties :=
  match terms with
  | [] => inr []
  | term :: terms =>
      match LabelSelectorAsSelector (pat_LabelSelector term) with
      | inl err => inl err
      | inr selector =>
          match getAffinityTermProperties pod terms with
          | inl err => inl err
          | inr properties =>
              inr (MkAffinityTermProperties (GetNamespacesFromPodAffinityTerm pod term) selector :: properties)
          end
      end
  end.

Definition podMatchesAllAffinityTermProperties pod (properties : list affinityTermProperties) : bool :=
  if bool_decide (length properties = O) then false
  else forallb (λ p, podMatchesTerm pod (atp_namespaces p) (atp_selector p)) properties.
Definition podMatchesAnyAffinityTermProperties pod (properties : list affinityTermProperties) : bool :=
  if bool_decide (length properties = O) then false
  else existsb (λ p, podMatchesTerm pod (atp_namespaces p) (atp_selector p)) properties.

Definition targetPodMatchesAffinityOfPod pod (targetPod : Pod) : bool :=
  match PodAffinity_of pod with
  | None => false
  | Some a =>
      match getAffinityTermProperties pod (GetPodAffinityTerms (Some a)) with
      | inl _ => false
      | inr properties => podMatchesAllAffinityTermProperties targetPod properties
      end
  end.
Definition targetPodMatchesAntiAffinityOfPod pod (targetPod : Pod) : bool :=
  match PodAntiAffinity_of pod with
  | None => false
  | Some a =>
      match getAffinityTermProperties pod (GetPodAntiAffinityTerms (Some a)) with
      | inl _ => false
      | inr properties => podMatchesAnyAffinityTermProperties targetPod properties
      end
  end.

(** [if topologyValue, ok := node.Labels[term.TopologyKey]; ok { ...addTopologyPair(pair, pod) }] *)
Definition add_term_pair t node pod (term : PodAffinityTerm) : topologyPairsMaps :=
  match node_Labels node !! pat_TopologyKey term with
  | Some topologyValue => addTopologyPair t (MkTopologyPair (pat_TopologyKey term) topologyValue) pod
  | None => t
  end.

(** The loop over the anti-affinity terms of [owner] that add [placed] where [target] matches. *)
Fixpoint matching_terms_loop (owner target placed : Pod) node (terms : list PodAffinityTerm) t :
    error + topologyPairsMaps :=
  match terms with
  | [] => inr t
  | term :: terms =>
      let namespaces := GetNamespacesFromPodAffinityTerm owner term in
      match LabelSelectorAsSelector (pat_LabelSelector term) with
      | inl err => inl err
      | inr selector =>
          matching_terms_loop owner target placed node terms
            (if podMatchesTerm target namespaces selector then add_term_pair t node placed term else t)
      end
  end.

Definition getMatchingAntiAffinityTopologyPairsOfPod (newPod existingPod : Pod) node :
    error + option topologyPairsMaps :=
  match PodAntiAffinity_of existingPod with
  | None => inr None
  | Some a =>
      match matching_terms_loop existingPod newPod existingPod node (GetPodAntiAffinityTerms (Some a)) newTopologyPairsMaps with
      | inl err => inl err
      | inr t => inr (Some t)
      end
  end.

(** ** Computing the maps *)

Fixpoint existing_pods_loop pod node (pods : list Pod) t : error + topologyPairsMaps :=
  match pods with
  | [] => inr t
  | existingPod :: pods =>
      match getMatchingAntiAffinityTopologyPairsOfPod pod existingPod node with
      | inl err => inl err
      | inr toAppend => existing_pods_loop pod node pods (appendMaps t toAppend)
      end
  end.
Fixpoint existing_nodes_loop pod (nodes : list (string * NodeInfo)) t : error + topologyPairsMaps :=
  match nodes with
  | [] => inr t
  | (_, nodeInfo) :: nodes =>
      match ni_node nodeInfo with
      | None => inl "node not found"%string
      | Some node =>
          match existing_pods_loop pod node (ni_podsWithAffinity nodeInfo) t with
          | inl err => inl err
          | inr t => existing_nodes_loop pod nodes t
          end
      end
  end.
Definition getTPMapMatchingExistingAntiAffinity pod (nodeInfoMap : gmap string NodeInfo) : error + topologyPairsMaps :=
  existing_nodes_loop pod (range nodeInfoMap) newTopologyPairsMaps.

(** The maps of one node, for the affinity and the anti-affinity terms of the pod. *)
Fixpoint incoming_pods_loop pod node (properties : list affinityTermProperties)
    (affinityTerms antiAffinityTerms : list PodAffinityTerm) (pods : list Pod) (aff anti : topologyPairsMaps) :
    error + (topologyPairsMaps * topologyPairsMaps) :=
  match pods with
  | [] => inr (aff, anti)
  | existingPod :: pods =>
      let aff := if podMatchesAllAffinityTermProperties existingPod properties
                 then foldl (λ t term, add_term_pair t node existingPod term) aff affinityTerms else aff in
      match matching_terms_loop pod existingPod existingPod node antiAffinityTerms anti with
      | inl err => inl err
      | inr anti => incoming_pods_loop pod node properties affinityTerms antiAffinityTerms pods aff anti
      end
  end.
Definition append_nonempty t (a : topologyPairsMaps) : topologyPairsMaps :=
  if bool_decide (0 < size (topologyPairToPods a))%nat then appendMaps t (Some a) else t.
Fixpoint incoming_nodes_loop pod (properties : list affinityTermProperties)
    (affinityTerms antiAffinityTerms : list PodAffinityTerm) (nodes : list (string * NodeInfo))
    (aff anti : topologyPairsMaps) : error + (topologyPairsMaps * topologyPairsMaps) :=
  match nodes with
  | [] => inr (aff, anti)
  | (_, nodeInfo) :: nodes =>
      match ni_node nodeInfo with
      | None => inl "nodeInfo.Node is nil"%string
      | Some node =>
          match incoming_pods_loop pod node properties affinityTerms antiAffinityTerms (ni_pods nodeInfo)
                  newTopologyPairsMaps newTopologyPairsMaps with
          | inl err => inl err
          | inr (nodeAff, nodeAnti) =>
              incoming_nodes_loop pod properties affinityTerms antiAffinityTerms nodes
                (append_nonempty aff nodeAff) (append_nonempty anti nodeAnti)
          end
      end
  end.
Definition getTPMapMatchingIncomingAffinityAntiAffinity pod (nodeInfoMap : gmap string NodeInfo) :
    error + (topologyPairsMaps * topologyPairsMaps) :=
  match PodAffinity_of pod, PodAntiAffinity_of pod with
  | None, None => inr (newTopologyPairsMaps, newTopologyPairsMaps)
  | a, aa =>
      let affinityTerms := GetPodAffinityTerms a in
      match getAffinityTermProperties pod affinityTerms with
      | inl err => inl err
      | inr properties =>
          incoming_nodes_loop pod properties affinityTerms (GetPodAntiAffinityTerms aa) (range nodeInfoMap)
            newTopologyPairsMaps newTopologyPairsMaps
      end
  end.

(** predicates.go: the largest width in each dimension. *)
Definition GetResourceRequest pod : Resource :=
  foldl (λ r c, SetMaxResource r (Requests c))
    (foldl (λ r c, Resource_Add r (Requests c)) emptyResource (pod_Containers pod)) (InitContainers (pod_Spec pod)).

Definition isPodBestEffort pod : bool := bool_decide (GetPodQOS pod = PodQOSBestEffort).

(** [producers] are the registered predicateMetadataProducers, in the order of the iteration. *)
Definition GetMetadata (producers : list (predicateMetadata → predicateMetadata)) pod
    (nodeNameToInfoMap : gmap string NodeInfo) : option predicateMetadata :=
  match getTPMapMatchingExistingAntiAffinity pod nodeNameToInfoMap with
  | inl _ => None
  | inr existingPodAntiAffinityMap =>
      match getTPMapMatchingIncomingAffinityAntiAffinity pod nodeNameToInfoMap with
      | inl _ => None
      | inr (incomingPodAffinityMap, incomingPodAntiAffinityMap) =>
          Some (foldl (λ m f, f m)
            (MkPredicateMetadata pod (isPodBestEffort pod) (GetResourceRequest pod) (GetContainerPorts [pod])
               existingPodAntiAffinityMap incomingPodAffinityMap incomingPodAntiAffinityMap false None None None)
            producers)
      end
  end.

(** ** Changing the metadata *)

(** predicates/utils.go *)
Definition CreateSelectorFromLabels (aL : gmap string string) : Selector :=
  if bool_decide (size aL = O) then Everything else AsSelector aL.

Definition predicateMetadata_RemovePod meta (deletedPod : Pod) : predicateMetadata * option error :=
  let deletedPodFullName := GetPodFullName deletedPod in
  if bool_decide (deletedPodFullName = GetPodFullName (pm_pod meta)) then
    (meta, Some "deletedPod and meta.pod must not be the same"%string)
  else
    let meta := set_topology meta
      (topologyPairsMaps_removePod (topologyPairsAntiAffinityPodsMap meta) deletedPod)
      (topologyPairsMaps_removePod (topologyPairsPotentialAffinityPods meta) deletedPod)
      (topologyPairsMaps_removePod (topologyPairsPotentialAntiAffinityPods meta) deletedPod) in
    (match serviceAffinityInUse meta, serviceAffinityMatchingPodList meta with
     | true, Some (first :: _ as pods) =>
         if bool_decide (pod_Namespace deletedPod = pod_Namespace first) then
           match find_index (λ p, bool_decide (GetPodFullName p = deletedPodFullName)) pods with
           | Some i => set_services meta true (Some (slice_delete i pods)) (serviceAffinityMatchingPodServices meta)
           | None => meta
           end
         else meta
     | _, _ => meta
     end, None).

Definition predicateMetadata_AddPod meta (addedPod : Pod) (nodeInfo : NodeInfo) : predicateMetadata * option error :=
  if bool_decide (GetPodFullName addedPod = GetPodFullName (pm_pod meta)) then
    (meta, Some "addedPod and meta.pod must not be the same"%string)
  else
  match ni_node nodeInfo with
  | None => (meta, Some "invalid node in nodeInfo"%string)
  | Some podNode =>
  match getMatchingAntiAffinityTopologyPairsOfPod (pm_pod meta) addedPod podNode with
  | inl err => (meta, Some err)
  | inr maps =>
      let existing := appendMaps (topologyPairsAntiAffinityPodsMap meta) maps in
      let aff := topologyPairsPotentialAffinityPods meta in
      let anti := topologyPairsPotentialAntiAffinityPods meta in
      let '(aff, anti) :=
        if bool_decide (is_Some (spec_Affinity (pod_Spec (pm_pod meta)))) &&
           negb (bool_decide (pod_NodeName addedPod = EmptyString)) then
          (if targetPodMatchesAffinityOfPod (pm_pod meta) addedPod
           then foldl (λ t term, add_term_pair t podNode addedPod term) aff
                  (GetPodAffinityTerms (PodAffinity_of (pm_pod meta))) else aff,
           if targetPodMatchesAntiAffinityOfPod (pm_pod meta) addedPod
           then foldl (λ t term, add_term_pair t podNode addedPod term) anti
                  (GetPodAntiAffinityTerms (PodAntiAffinity_of (pm_pod meta))) else anti)
        else (aff, anti) in
      let meta := set_topology meta existing aff anti in
      (if serviceAffinityInUse meta && bool_decide (pod_Namespace addedPod = pod_Namespace (pm_pod meta)) &&
          Selector_Matches (CreateSelectorFromLabels (Labels (pod_Meta (pm_pod meta)))) (Labels (pod_Meta addedPod))
       then set_services meta true (Some (default [] (serviceAffinityMatchingPodList meta) ++ [addedPod]))
              (serviceAffinityMatchingPodServices meta)
       else meta, None)
  end
  end.

(** [append([]T(nil), s...)]: the copy of an empty slice is nil. *)
Definition copy_slice {A} (s : option (list A)) : option (list A) :=
  match s with Some (_ :: _) => s | _ => None end.

Definition predicateMetadata_ShallowCopy meta : predicateMetadata :=
  MkPredicateMetadata (pm_pod meta) (pm_podBestEffort meta) (pm_podRequest meta) ([] ++ pm_podPorts meta)
    (appendMaps newTopologyPairsMaps (Some (topologyPairsAntiAffinityPodsMap meta)))
    (appendMaps newTopologyPairsMaps (Some (topologyPairsPotentialAffinityPods meta)))
    (appendMaps newTopologyPairsMaps (Some (topologyPairsPotentialAntiAffinityPods meta)))
    (serviceAffinityInUse meta) (copy_slice (serviceAffinityMatchingPodList meta))
    (copy_slice (serviceAffinityMatchingPodServices meta)) (ignoredExtendedResources meta).

#[global] Instance predicateMetadata_interface : PredicateMetadata predicateMetadata := {|
  meta_ShallowCopy := predicateMetadata_ShallowCopy;
  meta_AddPod m p info := (predicateMetadata_AddPod m p info).1;
  meta_RemovePod m p := (predicateMetadata_RemovePod m p).1
|}.
End metadata.
