(* ===== verification/MetadataProofs.v ===== *)
(** * The metadata of the predicates: proofs

    The topology maps are relations between topology pairs and pods, kept together with
    their inverse.  The maps that [GetMetadata] computes are those of the pods on
    the nodes, and adding or removing a pod changes them to those of the
    pods after the change. *)
From S2P Require Import Prelude Heap Api Util Resource HostPorts NodeInfo SchedulingQueue Predicates Metadata.

Implicit Types (t a : topologyPairsMaps) (pair pr : topologyPair) (pod q : Pod) (node : Node) (meta : predicateMetadata).

(** ** The maps as a relation *)

Definition has t pair pod : Prop := ∃ s, topologyPairToPods t !! pair = Some s ∧ pod ∈ s.

(** The maps are inverse to each other and have no empty entries. *)
Record tpm_ok t : Prop := {
  to_nonempty pair s : topologyPairToPods t !! pair = Some s → s ≠ [];
  to_inverse name pair :
    (∃ s, podToTopologyPairs t !! name = Some s ∧ pair ∈ s) ↔ ∃ pod, has t pair pod ∧ GetPodFullName pod = name
}.

(** Two maps with the same relation. *)
#[global] Instance tpm_equiv : Equiv topologyPairsMaps := λ t a, ∀ pair pod, has t pair pod ↔ has a pair pod.
#[global] Instance tpm_equivalence : Equivalence (≡@{topologyPairsMaps}).
Proof.
  split.
  - by intros t pair pod.
  - intros t a E pair pod. by rewrite (E pair pod).
  - intros t a b E1 E2 pair pod. by rewrite (E1 pair pod), (E2 pair pod).
Qed.

Lemma new_ok : tpm_ok newTopologyPairsMaps.
Proof.
  split; simpl.
  - intros pair s. by rewrite lookup_empty.
  - intros name pair. rewrite lookup_empty. split; [by intros (? & ? & _)|].
    intros (pod & (s & E & _) & _). simpl in E. by rewrite lookup_empty in E.
Qed.
Lemma new_has pair pod : ¬ has newTopologyPairsMaps pair pod.
Proof. intros (s & E & _). simpl in E. by rewrite lookup_empty in E. Qed.

Lemma podSet_insert_elem pod q (s : list Pod) : q ∈ podSet_insert pod s ↔ q = pod ∨ q ∈ s.
Proof. unfold podSet_insert. case_bool_decide; [naive_solver|]. rewrite elem_of_app, list_elem_of_singleton. naive_solver. Qed.

Lemma addTopologyPair_has t pair pod pr q : has (addTopologyPair t pair pod) pr q ↔ (pr = pair ∧ q = pod) ∨ has t pr q.
Proof.
  unfold has, addTopologyPair. simpl. destruct (decide (pair = pr)) as [->|Hne].
  - rewrite lookup_insert_eq. split.
    + intros (s & [= <-] & Hq). apply podSet_insert_elem in Hq as [->|Hq]; [by left|].
      destruct (topologyPairToPods t !! pr) as [s|] eqn:E; simpl in Hq; [eauto|by apply not_elem_of_nil in Hq].
    + intros Hq. eexists. split; [done|]. apply podSet_insert_elem. destruct Hq as [[_ ->]|(s & -> & ?)]; auto.
  - rewrite lookup_insert_ne by done. naive_solver.
Qed.

Lemma addTopologyPair_ok t pair pod : tpm_ok t → tpm_ok (addTopologyPair t pair pod).
Proof.
  intros [Hne Hinv]. split.
  - unfold addTopologyPair. simpl. intros pr s [[<- <-]|[_ E]]%lookup_insert_Some; [|by apply (Hne pr)].
    intros E. assert (pod ∈ podSet_insert pod (default [] (topologyPairToPods t !! pair))) as Hin
      by (apply podSet_insert_elem; by left). rewrite E in Hin. by apply not_elem_of_nil in Hin.
  - intros name pr. setoid_rewrite addTopologyPair_has. unfold addTopologyPair. simpl.
    destruct (decide (GetPodFullName pod = name)) as [<-|Hn].
    + rewrite lookup_insert_eq. split.
      * intros (s & [= <-] & [->%elem_of_singleton|Hin]%elem_of_union); [exists pod; auto|].
        destruct (podToTopologyPairs t !! GetPodFullName pod) as [s|] eqn:E; simpl in Hin; [|set_solver].
        destruct (proj1 (Hinv (GetPodFullName pod) pr)) as (q & ? & ?); [eauto|]. exists q. auto.
      * intros (q & Hq & En). eexists. split; [done|]. apply elem_of_union.
        destruct Hq as [[-> ->]|Hq]; [left; by apply elem_of_singleton|]. right.
        destruct (proj2 (Hinv (GetPodFullName pod) pr)) as (s & -> & ?); [eauto|done].
    + rewrite lookup_insert_ne by done. rewrite Hinv. split.
      * intros (q & ? & ?). exists q. auto.
      * intros (q & [[-> ->]|?] & ?); [done|]. eauto.
Qed.

(** Adding the pairs of a list of entries. *)
Lemma append_pods_has (pods : list Pod) pair : ∀ t pr q,
  has (foldl (λ t pod, addTopologyPair t pair pod) t pods) pr q ↔ has t pr q ∨ (pr = pair ∧ q ∈ pods).
Proof.
  induction pods as [|pod pods IH]; intros t pr q; cbn [foldl].
  - rewrite elem_of_nil. tauto.
  - rewrite IH, addTopologyPair_has, elem_of_cons. naive_solver.
Qed.
Lemma append_list_has (l : list (topologyPair * list Pod)) : ∀ t pr q,
  has (foldl (λ t (e : topologyPair * list Pod), foldl (λ t pod, addTopologyPair t e.1 pod) t e.2) t l) pr q ↔
    has t pr q ∨ ∃ s, (pr, s) ∈ l ∧ q ∈ s.
Proof.
  induction l as [|[pair s] l IH]; intros t pr q; cbn [foldl].
  - setoid_rewrite elem_of_nil. naive_solver.
  - rewrite IH, append_pods_has. setoid_rewrite elem_of_cons. cbn [fst snd]. split.
    + intros [[?|[-> ?]]|(s' & ? & ?)]; eauto 10.
    + intros [?|(s' & [[= -> ->]|?] & ?)]; eauto 10.
Qed.
Lemma appendMaps_has t o pr q :
  has (appendMaps t o) pr q ↔ has t pr q ∨ ∃ a, o = Some a ∧ has a pr q.
Proof.
  destruct o as [a|]; [|naive_solver]. cbn [appendMaps]. rewrite append_list_has. unfold has at 3.
  setoid_rewrite elem_of_map_to_list. naive_solver.
Qed.

Lemma append_ok_fold {A} (f : topologyPairsMaps → A → topologyPairsMaps) (l : list A) :
  (∀ t x, tpm_ok t → tpm_ok (f t x)) → ∀ t, tpm_ok t → tpm_ok (foldl f t l).
Proof. intros Hf. induction l as [|x l IH]; intros t Ht; cbn [foldl]; auto. Qed.
Lemma appendMaps_ok t o : tpm_ok t → tpm_ok (appendMaps t o).
Proof.
  intros Ht. destruct o as [a|]; [|done]. cbn [appendMaps]. apply append_ok_fold; [|done].
  intros t' e Ht'. apply append_ok_fold; [|done]. intros. by apply addTopologyPair_ok.
Qed.

(** ** Removing a pod *)

Definition deleted pod pr (m : gmap topologyPair (list Pod)) : option (list Pod) :=
  s ← m !! pr; let s := podSet_delete pod s in if bool_decide (length s = O) then None else Some s.

Lemma podSet_delete_idemp pod s : podSet_delete pod (podSet_delete pod s) = podSet_delete pod s.
Proof. unfold podSet_delete. rewrite list_filter_filter. apply list_filter_iff. tauto. Qed.

Lemma removePod1_lookup pod m pair pr :
  removePod1 pod m pair !! pr = if decide (pr = pair) then deleted pod pr m else m !! pr.
Proof.
  unfold removePod1, deleted. destruct (decide (pr = pair)) as [->|Hne].
  - destruct (m !! pair) as [s|] eqn:E; [|done]. cbn [mbind option_bind]. cbv zeta.
    case_bool_decide; [by rewrite lookup_delete_eq|by rewrite lookup_insert_eq].
  - destruct (m !! pair) as [s|]; [|done]. cbv zeta.
    case_bool_decide; [by rewrite lookup_delete_ne|by rewrite lookup_insert_ne].
Qed.

Lemma remove_fold_lookup pod l : ∀ m pr,
  foldl (removePod1 pod) m l !! pr = if decide (pr ∈ l) then deleted pod pr m else m !! pr.
Proof.
  induction l as [|pair l IH]; intros m pr; cbn [foldl]; [by rewrite decide_False by apply not_elem_of_nil|].
  rewrite IH. unfold deleted at 1. rewrite removePod1_lookup. destruct (decide (pr = pair)) as [->|Hne].
  - rewrite (decide_True (P := pair ∈ pair :: l)) by (by left). destruct (decide (pair ∈ l)); [|done].
    unfold deleted. destruct (m !! pair) as [s|]; [|done]. cbn [mbind option_bind]. cbv zeta.
    case_bool_decide as Hs; [done|]. cbn [mbind option_bind]. rewrite podSet_delete_idemp. by rewrite bool_decide_false.
  - destruct (decide (pr ∈ l)) as [Hin|Hin].
    + rewrite decide_True by (by right). done.
    + rewrite decide_False; [done|]. by rewrite elem_of_cons; intros [?|?].
Qed.

Lemma removePod_has t pod pr q :
  tpm_ok t → has (topologyPairsMaps_removePod t pod) pr q ↔ has t pr q ∧ q ≠ pod.
Proof.
  intros Hok. unfold topologyPairsMaps_removePod, has. simpl. rewrite remove_fold_lookup.
  destruct (decide _) as [Hin|Hin].
  - unfold deleted. destruct (topologyPairToPods t !! pr) as [s|]; [|naive_solver]. cbn [mbind option_bind]. cbv zeta.
    assert (q ∈ podSet_delete pod s ↔ q ∈ s ∧ q ≠ pod) as Hq by (unfold podSet_delete; rewrite list_elem_of_filter; tauto).
    case_bool_decide as Hs.
    + split; [by intros (? & ? & _)|]. intros [(s' & [= <-] & Hs') Hne]. apply nil_length_inv in Hs.
      assert (q ∈ podSet_delete pod s) as Hx by (by apply Hq). rewrite Hs in Hx. by apply not_elem_of_nil in Hx.
    + split; [intros (s' & [= <-] & Hs'); apply Hq in Hs' as [? ?]; eauto|].
      intros [(s' & [= <-] & Hs') Hne]. eexists. split; [done|]. by apply Hq.
  - split; [|by intros [? _]]. intros (s & E & Hs). split; [eauto|]. intros ->. apply Hin.
    apply elem_of_elements. destruct (proj2 (to_inverse _ Hok (GetPodFullName pod) pr)) as (ps & -> & ?); [|done].
    exists pod. split; [by exists s|done].
Qed.

(** Pods in the maps have different names. *)
Definition names_unique t : Prop :=
  ∀ pr1 pr2 p q, has t pr1 p → has t pr2 q → GetPodFullName p = GetPodFullName q → p = q.

Lemma removePod_ok t pod :
  tpm_ok t → (∀ pr q, has t pr q → GetPodFullName q = GetPodFullName pod → q = pod) →
  tpm_ok (topologyPairsMaps_removePod t pod).
Proof.
  intros Hok Hu. split.
  - intros pr s. unfold topologyPairsMaps_removePod. simpl. rewrite remove_fold_lookup.
    destruct (decide _); [|by apply to_nonempty]. unfold deleted. destruct (_ !! pr) as [s'|]; [|done].
    cbn [mbind option_bind]. cbv zeta. case_bool_decide as Hs; [done|]. intros [= <-] E. by rewrite E in Hs.
  - intros name pr. setoid_rewrite (removePod_has t pod pr _ Hok). unfold topologyPairsMaps_removePod. simpl.
    destruct (decide (GetPodFullName pod = name)) as [<-|Hn].
    + rewrite lookup_delete_eq. split; [by intros (? & ? & _)|]. intros (q & [Hq Hne] & En). by destruct Hne; apply (Hu pr).
    + rewrite lookup_delete_ne by done. rewrite (to_inverse _ Hok). split; [|naive_solver].
      intros (q & ? & <-). exists q. split; [|done]. split; [done|]. by intros ->.
Qed.

(** ** What the maps should hold *)
Section spec.
Context {K8s : K8sLib} {Range : MapRange} {MLib : MetadataLib}.

(** The target is in the namespaces of the term of the owner and matches its selector. *)
Definition term_matches (owner : Pod) (term : PodAffinityTerm) (target : Pod) : Prop :=
  ∃ s, LabelSelectorAsSelector (pat_LabelSelector term) = inr s ∧
    podMatchesTerm target (GetNamespacesFromPodAffinityTerm owner term) s = true.
(** The API server accepts only selectors that can be parsed. *)
Definition valid_terms (terms : list PodAffinityTerm) : Prop :=
  ∀ term, term ∈ terms → ∃ s, LabelSelectorAsSelector (pat_LabelSelector term) = inr s.
(** The pair of the node for the topology key of the term. *)
Definition in_domain node (term : PodAffinityTerm) pr : Prop :=
  tp_key pr = pat_TopologyKey term ∧ node_Labels node !! pat_TopologyKey term = Some (tp_value pr).

Abbreviation anti_terms pod := (GetPodAntiAffinityTerms (PodAntiAffinity_of pod)).
Abbreviation affinity_terms pod := (GetPodAffinityTerms (PodAffinity_of pod)).

(** An anti-affinity term of a pod on the node keeps the new pod away from the pair. *)
Definition keeps_away q node pod pr : Prop :=
  ∃ term, term ∈ anti_terms q ∧ term_matches q term pod ∧ in_domain node term pr.
(** The pod matches all affinity terms of [pod], of which there are some. *)
Definition attracts pod q : Prop :=
  affinity_terms pod ≠ [] ∧ ∀ term, term ∈ affinity_terms pod → term_matches pod term q.

(** Which pod is on which node. *)
Implicit Type at_node : Node → Pod → Prop.
Definition existing_rel at_node pod pr q : Prop := ∃ node, at_node node q ∧ keeps_away q node pod pr.
Definition affinity_rel at_node pod pr q : Prop :=
  ∃ node, at_node node q ∧ attracts pod q ∧ ∃ term, term ∈ affinity_terms pod ∧ in_domain node term pr.
Definition anti_rel at_node pod pr q : Prop :=
  ∃ node, at_node node q ∧ ∃ term, term ∈ anti_terms pod ∧ term_matches pod term q ∧ in_domain node term pr.

(** The maps of the metadata are those of the pods on the nodes. *)
Record describes_nodes at_node meta : Prop := {
  dn_ok : tpm_ok (topologyPairsAntiAffinityPodsMap meta) ∧ tpm_ok (topologyPairsPotentialAffinityPods meta) ∧
    tpm_ok (topologyPairsPotentialAntiAffinityPods meta);
  dn_existing pr q : has (topologyPairsAntiAffinityPodsMap meta) pr q ↔ existing_rel at_node (pm_pod meta) pr q;
  dn_affinity pr q : has (topologyPairsPotentialAffinityPods meta) pr q ↔ affinity_rel at_node (pm_pod meta) pr q;
  dn_anti pr q : has (topologyPairsPotentialAntiAffinityPods meta) pr q ↔ anti_rel at_node (pm_pod meta) pr q
}.

(** ** The loops *)

Lemma add_term_pair_has t node pod term pr q :
  has (add_term_pair t node pod term) pr q ↔ has t pr q ∨ (q = pod ∧ in_domain node term pr).
Proof.
  unfold add_term_pair, in_domain. destruct (node_Labels node !! pat_TopologyKey term) as [v|]; [|naive_solver].
  rewrite addTopologyPair_has. destruct pr as [k v']. simpl. naive_solver.
Qed.
Lemma add_term_pair_ok t node pod term : tpm_ok t → tpm_ok (add_term_pair t node pod term).
Proof. unfold add_term_pair. destruct (_ !! _); [apply addTopologyPair_ok|done]. Qed.

Lemma add_terms_has node pod (terms : list PodAffinityTerm) : ∀ t pr q,
  has (foldl (λ t term, add_term_pair t node pod term) t terms) pr q ↔
    has t pr q ∨ (q = pod ∧ ∃ term, term ∈ terms ∧ in_domain node term pr).
Proof.
  induction terms as [|term terms IH]; intros t pr q; cbn [foldl].
  - setoid_rewrite elem_of_nil. naive_solver.
  - rewrite IH, add_term_pair_has. setoid_rewrite elem_of_cons. naive_solver.
Qed.
Lemma add_terms_ok node pod (terms : list PodAffinityTerm) t :
  tpm_ok t → tpm_ok (foldl (λ t term, add_term_pair t node pod term) t terms).
Proof. apply append_ok_fold. intros. by apply add_term_pair_ok. Qed.

Lemma matching_terms_spec owner target placed node (terms : list PodAffinityTerm) : ∀ t t',
  matching_terms_loop owner target placed node terms t = inr t' →
  (tpm_ok t → tpm_ok t') ∧
  ∀ pr q, has t' pr q ↔ has t pr q ∨
    (q = placed ∧ ∃ term, term ∈ terms ∧ term_matches owner term target ∧ in_domain node term pr).
Proof.
  induction terms as [|term terms IH]; intros t t'; cbn [matching_terms_loop].
  { intros [= <-]. split; [done|]. intros pr q. setoid_rewrite elem_of_nil. naive_solver. }
  destruct (LabelSelectorAsSelector (pat_LabelSelector term)) as [err|sel] eqn:Es; [done|]. intros [Hok Hhas]%IH.
  assert (term_matches owner term target ↔ podMatchesTerm target (GetNamespacesFromPodAffinityTerm owner term) sel = true) as Hm.
  { unfold term_matches. rewrite Es. naive_solver. }
  split.
  - intros Ht. apply Hok. destruct (podMatchesTerm _ _ _); [by apply add_term_pair_ok|done].
  - intros pr q. rewrite Hhas. setoid_rewrite elem_of_cons. destruct (podMatchesTerm _ _ _).
    + rewrite add_term_pair_has. naive_solver.
    + naive_solver.
Qed.
Lemma matching_terms_total owner target placed node (terms : list PodAffinityTerm) : ∀ t,
  valid_terms terms → ∃ t', matching_terms_loop owner target placed node terms t = inr t'.
Proof.
  induction terms as [|term terms IH]; intros t Hv; cbn [matching_terms_loop]; [by eexists|].
  destruct (Hv term) as [s ->]; [by left|]. apply IH. intros term' ?. apply Hv. by right.
Qed.

Lemma getMatching_spec newPod existing node o :
  getMatchingAntiAffinityTopologyPairsOfPod newPod existing node = inr o →
  ∀ pr q, (∃ a, o = Some a ∧ has a pr q) ↔ q = existing ∧ keeps_away existing node newPod pr.
Proof.
  unfold getMatchingAntiAffinityTopologyPairsOfPod, keeps_away. destruct (PodAntiAffinity_of existing) as [pa|].
  - destruct (matching_terms_loop _ _ _ _ _ _) as [err|t'] eqn:E; [done|]. intros [= <-] pr q.
    apply matching_terms_spec in E as [_ E]. specialize (E pr q). pose proof (new_has pr q). naive_solver.
  - intros [= <-] pr q. simpl. setoid_rewrite elem_of_nil. naive_solver.
Qed.
Lemma getMatching_total newPod existing node :
  valid_terms (anti_terms existing) → ∃ o, getMatchingAntiAffinityTopologyPairsOfPod newPod existing node = inr o.
Proof.
  unfold getMatchingAntiAffinityTopologyPairsOfPod. destruct (PodAntiAffinity_of existing) as [pa|]; [|by eexists].
  intros Hv. destruct (matching_terms_total existing newPod existing node _ newTopologyPairsMaps Hv) as [t' ->]. by eexists.
Qed.

Lemma existing_pods_spec pod node (pods : list Pod) : ∀ t t',
  existing_pods_loop pod node pods t = inr t' →
  (tpm_ok t → tpm_ok t') ∧
  ∀ pr q, has t' pr q ↔ has t pr q ∨ (q ∈ pods ∧ keeps_away q node pod pr).
Proof.
  induction pods as [|p pods IH]; intros t t'; cbn [existing_pods_loop].
  { intros [= <-]. split; [done|]. intros pr q. rewrite elem_of_nil. tauto. }
  destruct (getMatchingAntiAffinityTopologyPairsOfPod pod p node) as [err|o] eqn:E; [done|]. intros [Hok Hhas]%IH.
  pose proof (getMatching_spec _ _ _ _ E) as Ho. split; [intros Ht; by apply Hok, appendMaps_ok|].
  intros pr q. rewrite Hhas, appendMaps_has, Ho, elem_of_cons. naive_solver.
Qed.
Lemma existing_nodes_spec pod (nodes : list (string * NodeInfo)) : ∀ t t',
  existing_nodes_loop pod nodes t = inr t' →
  (tpm_ok t → tpm_ok t') ∧
  ∀ pr q, has t' pr q ↔ has t pr q ∨ ∃ name info node, (name, info) ∈ nodes ∧ ni_node info = Some node ∧
    q ∈ ni_podsWithAffinity info ∧ keeps_away q node pod pr.
Proof.
  induction nodes as [|[name info] nodes IH]; intros t t'; cbn [existing_nodes_loop].
  { intros [= <-]. split; [done|]. intros pr q. setoid_rewrite elem_of_nil. naive_solver. }
  destruct (ni_node info) as [node|] eqn:En; [|done].
  destruct (existing_pods_loop pod node (ni_podsWithAffinity info) t) as [err|t1] eqn:E; [done|]. intros [Hok2 Hhas2]%IH.
  apply existing_pods_spec in E as [Hok1 Hhas1]. split; [auto|]. intros pr q. rewrite Hhas2, Hhas1.
  setoid_rewrite elem_of_cons. split.
  - intros [[?|[? ?]]|(n & i & nd & ? & ? & ?)]; [by left|right; exists name, info, node; auto|right; exists n, i, nd; auto].
  - intros [?|(n & i & nd & [[= -> ->]|?] & Hnd & ?)]; [auto| |right; exists n, i, nd; auto].
    left. right. rewrite En in Hnd. by injection Hnd as <-.
Qed.

Lemma properties_spec pod (terms : list PodAffinityTerm) : ∀ properties,
  getAffinityTermProperties pod terms = inr properties →
  length properties = length terms ∧ valid_terms terms ∧
  ∀ q, (forallb (λ p, podMatchesTerm q (atp_namespaces p) (atp_selector p)) properties = true ↔
         ∀ term, term ∈ terms → term_matches pod term q) ∧
       (existsb (λ p, podMatchesTerm q (atp_namespaces p) (atp_selector p)) properties = true ↔
         ∃ term, term ∈ terms ∧ term_matches pod term q).
Proof.
  induction terms as [|term terms IH]; intros properties; cbn [getAffinityTermProperties].
  { intros [= <-]. split_and!; [done|by intros ? ?%not_elem_of_nil|]. intros q. split.
    - split; [|done]. by intros _ ? ?%not_elem_of_nil.
    - split; [done|]. by intros (? & ?%not_elem_of_nil & _). }
  destruct (LabelSelectorAsSelector (pat_LabelSelector term)) as [err|sel] eqn:Es; [done|].
  destruct (getAffinityTermProperties pod terms) as [err|ps]; [done|]. intros [= <-].
  destruct (IH ps eq_refl) as (Hlen & Hv & Hq). split_and!; [simpl; lia| |].
  - intros t' [->|?]%elem_of_cons; [eauto|auto].
  - intros q. destruct (Hq q) as [Hall Hany]. cbn [forallb existsb atp_namespaces atp_selector].
    assert (podMatchesTerm q (GetNamespacesFromPodAffinityTerm pod term) sel = true ↔ term_matches pod term q) as Hm
      by (unfold term_matches; rewrite Es; naive_solver).
    rewrite andb_true_iff, orb_true_iff, Hm, Hall, Hany. setoid_rewrite elem_of_cons. naive_solver.
Qed.
Lemma properties_total pod (terms : list PodAffinityTerm) :
  valid_terms terms → ∃ properties, getAffinityTermProperties pod terms = inr properties.
Proof.
  induction terms as [|term terms IH]; intros Hv; cbn [getAffinityTermProperties]; [by eexists|].
  destruct (Hv term) as [s ->]; [by left|]. destruct IH as [ps ->]; [intros t' ?; apply Hv; by right|]. by eexists.
Qed.

Lemma matches_all_spec pod q properties :
  getAffinityTermProperties pod (affinity_terms pod) = inr properties →
  podMatchesAllAffinityTermProperties q properties = true ↔ attracts pod q.
Proof.
  intros E. destruct (properties_spec _ _ _ E) as (Hlen & _ & Hq). unfold podMatchesAllAffinityTermProperties, attracts.
  case_bool_decide as Hl; rewrite Hlen in Hl.
  - apply nil_length_inv in Hl. rewrite Hl. naive_solver.
  - rewrite (proj1 (Hq q)). split; [|by intros []]. intros Hall. split; [|done]. by intros E'; rewrite E' in Hl.
Qed.

Lemma incoming_pods_spec pod node properties (pods : list Pod) : ∀ aff anti aff' anti',
  getAffinityTermProperties pod (affinity_terms pod) = inr properties →
  incoming_pods_loop pod node properties (affinity_terms pod) (anti_terms pod) pods aff anti = inr (aff', anti') →
  (tpm_ok aff → tpm_ok aff') ∧ (tpm_ok anti → tpm_ok anti') ∧
  (∀ pr q, has aff' pr q ↔ has aff pr q ∨
    (q ∈ pods ∧ attracts pod q ∧ ∃ term, term ∈ affinity_terms pod ∧ in_domain node term pr)) ∧
  (∀ pr q, has anti' pr q ↔ has anti pr q ∨
    (q ∈ pods ∧ ∃ term, term ∈ anti_terms pod ∧ term_matches pod term q ∧ in_domain node term pr)).
Proof.
  induction pods as [|p pods IH]; intros aff anti aff' anti' Ep; cbn [incoming_pods_loop].
  { intros [= <- <-]. setoid_rewrite elem_of_nil. naive_solver. }
  destruct (matching_terms_loop pod p p node (anti_terms pod) anti) as [err|anti1] eqn:E; [done|].
  intros (Ha2 & Hn2 & Hha2 & Hhn2)%IH; [|done]. apply matching_terms_spec in E as [Hn1 Hhn1].
  pose proof (matches_all_spec pod p properties Ep) as Hall. split_and!.
  - intros Ht. apply Ha2. destruct (podMatchesAllAffinityTermProperties p properties); [by apply add_terms_ok|done].
  - auto.
  - intros pr q. rewrite Hha2, elem_of_cons. destruct (podMatchesAllAffinityTermProperties p properties).
    + rewrite add_terms_has. pose proof (proj1 Hall eq_refl) as Hp. split.
      * intros [[?|[-> ?]]|[? ?]]; auto.
      * intros [?|[[->|?] [? ?]]]; auto.
    + split; [intros [?|[? ?]]; auto|]. intros [?|[[->|?] [? ?]]]; auto. by assert (false = true) by (by apply Hall).
  - intros pr q. rewrite Hhn2, Hhn1, elem_of_cons. split.
    + intros [[?|[-> ?]]|[? ?]]; auto.
    + intros [?|[[->|?] ?]]; auto.
Qed.

Lemma append_nonempty_has t a pr q : has (append_nonempty t a) pr q ↔ has t pr q ∨ has a pr q.
Proof.
  unfold append_nonempty. case_bool_decide as Hs; [rewrite appendMaps_has; naive_solver|].
  split; [by left|]. intros [?|(s & E & _)]; [done|]. assert (size (topologyPairToPods a) = O) as Hz by lia.
  apply map_size_empty_iff in Hz. by rewrite Hz, lookup_empty in E.
Qed.
Lemma append_nonempty_ok t a : tpm_ok t → tpm_ok (append_nonempty t a).
Proof. unfold append_nonempty. case_bool_decide; [apply appendMaps_ok|done]. Qed.

Lemma incoming_nodes_spec pod properties (nodes : list (string * NodeInfo)) : ∀ aff anti aff' anti',
  getAffinityTermProperties pod (affinity_terms pod) = inr properties →
  incoming_nodes_loop pod properties (affinity_terms pod) (anti_terms pod) nodes aff anti = inr (aff', anti') →
  let at_node node q := ∃ name info, (name, info) ∈ nodes ∧ ni_node info = Some node ∧ q ∈ ni_pods info in
  (tpm_ok aff → tpm_ok aff') ∧ (tpm_ok anti → tpm_ok anti') ∧
  (∀ pr q, has aff' pr q ↔ has aff pr q ∨ affinity_rel at_node pod pr q) ∧
  (∀ pr q, has anti' pr q ↔ has anti pr q ∨ anti_rel at_node pod pr q).
Proof.
  induction nodes as [|[name info] nodes IH]; intros aff anti aff' anti' Ep; cbn [incoming_nodes_loop]; cbv zeta.
  { intros [= <- <-]. unfold affinity_rel, anti_rel. setoid_rewrite elem_of_nil. naive_solver. }
  destruct (ni_node info) as [node|] eqn:En; [|done].
  destruct (incoming_pods_loop _ _ _ _ _ _ _ _) as [err|[aff1 anti1]] eqn:E; [done|].
  intros (Ha2 & Hn2 & Hha2 & Hhn2)%IH; [|done].
  apply incoming_pods_spec in E as (Ha1 & Hn1 & Hha1 & Hhn1); [|done].
  assert (∀ (R : Node → Pod → Prop) q, (∃ nd, (∃ n i, (n, i) ∈ (name, info) :: nodes ∧ ni_node i = Some nd ∧ q ∈ ni_pods i) ∧ R nd q) ↔
    (q ∈ ni_pods info ∧ R node q) ∨ ∃ nd, (∃ n i, (n, i) ∈ nodes ∧ ni_node i = Some nd ∧ q ∈ ni_pods i) ∧ R nd q) as Hsplit.
  { intros R q. setoid_rewrite elem_of_cons. split.
    - intros (nd & (n & i & [[= -> ->]|?] & Hnd & ?) & ?); [left; rewrite En in Hnd; by injection Hnd as ->|right; eauto 10].
    - intros [[? ?]|(nd & (n & i & ? & ? & ?) & ?)]; [exists node; eauto 10|exists nd; eauto 10]. }
  split_and!.
  - intros Ht. by apply Ha2, append_nonempty_ok.
  - intros Ht. by apply Hn2, append_nonempty_ok.
  - intros pr q. rewrite Hha2, append_nonempty_has, Hha1. pose proof (new_has pr q).
    pose proof (Hsplit (λ nd q, attracts pod q ∧ ∃ term, term ∈ affinity_terms pod ∧ in_domain nd term pr) q) as Hs.
    cbv beta in Hs. unfold affinity_rel. rewrite Hs. tauto.
  - intros pr q. rewrite Hhn2, append_nonempty_has, Hhn1. pose proof (new_has pr q).
    pose proof (Hsplit (λ nd q, ∃ term, term ∈ anti_terms pod ∧ term_matches pod term q ∧ in_domain nd term pr) q) as Hs.
    cbv beta in Hs. unfold anti_rel. rewrite Hs. tauto.
Qed.

(** ** The metadata of a snapshot *)

(** The pods on the nodes of a snapshot. *)
Definition snapshot_at (nodeInfoMap : gmap string NodeInfo) node q : Prop :=
  ∃ name info, nodeInfoMap !! name = Some info ∧ ni_node info = Some node ∧ q ∈ ni_pods info.

(** A producer that leaves the pod and the topology maps alone. *)
Definition keeps_topology (f : predicateMetadata → predicateMetadata) : Prop :=
  ∀ meta, pm_pod (f meta) = pm_pod meta ∧
    topologyPairsAntiAffinityPodsMap (f meta) = topologyPairsAntiAffinityPodsMap meta ∧
    topologyPairsPotentialAffinityPods (f meta) = topologyPairsPotentialAffinityPods meta ∧
    topologyPairsPotentialAntiAffinityPods (f meta) = topologyPairsPotentialAntiAffinityPods meta.

Lemma producers_keep (producers : list (predicateMetadata → predicateMetadata)) :
  Forall keeps_topology producers → keeps_topology (λ meta, foldl (λ m f, f m) meta producers).
Proof.
  induction 1 as [|f producers Hf _ IH]; intros meta; [done|]. cbn [foldl].
  destruct (IH (f meta)) as (-> & -> & -> & ->). apply Hf.
Qed.

Lemma describes_same at_node meta meta' :
  pm_pod meta' = pm_pod meta →
  topologyPairsAntiAffinityPodsMap meta' = topologyPairsAntiAffinityPodsMap meta →
  topologyPairsPotentialAffinityPods meta' = topologyPairsPotentialAffinityPods meta →
  topologyPairsPotentialAntiAffinityPods meta' = topologyPairsPotentialAntiAffinityPods meta →
  describes_nodes at_node meta → describes_nodes at_node meta'.
Proof. intros E1 E2 E3 E4 [H1 H2 H3 H4]. split; rewrite ?E1, ?E2, ?E3, ?E4; done. Qed.

Lemma keeps_away_affinity q node pod pr : keeps_away q node pod pr → hasPodAffinityConstraints q = true.
Proof.
  intros (term & Hin & _). unfold PodAntiAffinity_of, hasPodAffinityConstraints in *.
  destruct (spec_Affinity (pod_Spec q)) as [a|]; simpl in *; [|by apply not_elem_of_nil in Hin].
  destruct (aff_PodAntiAffinity a); [|by apply not_elem_of_nil in Hin]. by rewrite orb_true_r.
Qed.

Lemma incoming_cases pod nodeInfoMap r :
  getTPMapMatchingIncomingAffinityAntiAffinity pod nodeInfoMap = inr r →
  (PodAffinity_of pod = None ∧ PodAntiAffinity_of pod = None ∧ r = (newTopologyPairsMaps, newTopologyPairsMaps)) ∨
  ∃ properties, getAffinityTermProperties pod (affinity_terms pod) = inr properties ∧
    incoming_nodes_loop pod properties (affinity_terms pod) (anti_terms pod) (range nodeInfoMap)
      newTopologyPairsMaps newTopologyPairsMaps = inr r.
Proof.
  unfold getTPMapMatchingIncomingAffinityAntiAffinity.
  destruct (PodAffinity_of pod), (PodAntiAffinity_of pod); [| | |intros [= <-]; by left];
    (destruct (getAffinityTermProperties _ _) as [|ps]; [done|]; right; by exists ps).
Qed.
Lemma incoming_describes pod nodeInfoMap aff anti :
  getTPMapMatchingIncomingAffinityAntiAffinity pod nodeInfoMap = inr (aff, anti) →
  (tpm_ok aff ∧ tpm_ok anti) ∧ (∀ pr q, has aff pr q ↔ affinity_rel (snapshot_at nodeInfoMap) pod pr q) ∧
  (∀ pr q, has anti pr q ↔ anti_rel (snapshot_at nodeInfoMap) pod pr q).
Proof.
  pose proof new_ok as Hnew. intros [(E1 & E2 & [= -> ->])|(ps & Ep & El)]%incoming_cases.
  - unfold affinity_rel, anti_rel. rewrite E1, E2. simpl. setoid_rewrite elem_of_nil.
    split_and!; [done|done| |]; intros pr q; pose proof (new_has pr q); naive_solver.
  - apply incoming_nodes_spec in El as (Ha & Hn & Hha & Hhn); [|done]. split; [auto|].
    unfold affinity_rel, anti_rel, snapshot_at in *. setoid_rewrite range_elem in Hha. setoid_rewrite range_elem in Hhn.
    split; intros pr q; pose proof (new_has pr q); [rewrite Hha|rewrite Hhn]; naive_solver.
Qed.

Lemma GetMetadata_describes producers pod nodeInfoMap meta :
  Forall keeps_topology producers → (∀ name info, nodeInfoMap !! name = Some info → NodeInfo_inv info) →
  GetMetadata producers pod nodeInfoMap = Some meta →
  pm_pod meta = pod ∧ describes_nodes (snapshot_at nodeInfoMap) meta.
Proof.
  intros Hp Hinv. unfold GetMetadata, getTPMapMatchingExistingAntiAffinity.
  destruct (existing_nodes_loop _ _ _) as [err|existing] eqn:E1; [done|].
  destruct (getTPMapMatchingIncomingAffinityAntiAffinity pod nodeInfoMap) as [err|[aff anti]] eqn:E2; [done|].
  apply existing_nodes_spec in E1 as [Hok1 Hhas1].
  assert ((tpm_ok aff ∧ tpm_ok anti) ∧ (∀ pr q, has aff pr q ↔ affinity_rel (snapshot_at nodeInfoMap) pod pr q) ∧
    (∀ pr q, has anti pr q ↔ anti_rel (snapshot_at nodeInfoMap) pod pr q)) as (Hok2 & Haff & Hanti).
  { by apply incoming_describes. }
  set (meta0 := MkPredicateMetadata _ _ _ _ _ _ _ _ _ _ _). intros [= <-].
  destruct (producers_keep producers Hp meta0) as (Hpod & Hm1 & Hm2 & Hm3). split; [done|].
  apply (describes_same _ meta0); [done|done|done|done|]. split; cbn [meta0 pm_pod topologyPairsAntiAffinityPodsMap topologyPairsPotentialAffinityPods topologyPairsPotentialAntiAffinityPods].
  - split; [apply Hok1, new_ok|done].
  - intros pr q. rewrite Hhas1. unfold existing_rel, snapshot_at. setoid_rewrite range_elem. pose proof (new_has pr q). split.
    + intros [?|(name & info & node & Hi & Hn & Hq & Hk)]; [done|].
      rewrite (nv_affinity _ (Hinv _ _ Hi)) in Hq. apply list_elem_of_filter in Hq as [_ Hq]. eauto 10.
    + intros (node & (name & info & Hi & Hn & Hq) & Hk). right. exists name, info, node. split_and!; try done.
      rewrite (nv_affinity _ (Hinv _ _ Hi)). apply list_elem_of_filter. split; [|done].
      by rewrite (keeps_away_affinity _ _ _ _ Hk).
  - done.
  - done.
Qed.

(** ** Changing the metadata *)

(** A pod can be added exactly: its selectors parse, it is not the pod itself, it has a node,
    and it matches all anti-affinity terms of the pod or none. *)
Record addable pod q : Prop := {
  ad_terms : valid_terms (anti_terms q);
  ad_name : GetPodFullName q ≠ GetPodFullName pod;
  ad_node : pod_NodeName q ≠ EmptyString;
  ad_own : valid_terms (affinity_terms pod) ∧ valid_terms (anti_terms pod);
  ad_uniform term term' : term ∈ anti_terms pod → term' ∈ anti_terms pod → term_matches pod term q → term_matches pod term' q
}.

Lemma target_affinity pod q :
  valid_terms (affinity_terms pod) → targetPodMatchesAffinityOfPod pod q = true ↔ attracts pod q.
Proof.
  intros Hv. destruct (properties_total pod _ Hv) as [ps Ep]. rewrite <-(matches_all_spec pod q ps Ep).
  unfold targetPodMatchesAffinityOfPod. revert Ep. destruct (PodAffinity_of pod) as [a|]; [by intros ->|].
  intros [= <-]. done.
Qed.
Lemma target_anti pod q :
  valid_terms (anti_terms pod) →
  targetPodMatchesAntiAffinityOfPod pod q = true ↔ ∃ term, term ∈ anti_terms pod ∧ term_matches pod term q.
Proof.
  intros Hv. destruct (properties_total pod _ Hv) as [ps Ep]. destruct (properties_spec pod _ _ Ep) as (Hlen & _ & Hq).
  destruct (Hq q) as [_ Hany]. unfold targetPodMatchesAntiAffinityOfPod. revert Ep Hlen Hany.
  destruct (PodAntiAffinity_of pod) as [a|]; intros Ep Hlen Hany.
  - rewrite Ep, <-Hany. unfold podMatchesAnyAffinityTermProperties. case_bool_decide as Hz; [|done].
    apply nil_length_inv in Hz. by rewrite Hz.
  - split; [done|]. by intros (term & ?%not_elem_of_nil & _).
Qed.

Lemma no_affinity pod : spec_Affinity (pod_Spec pod) = None → affinity_terms pod = [] ∧ anti_terms pod = [].
Proof. unfold PodAffinity_of, PodAntiAffinity_of. by intros ->. Qed.

(** Adding the pod at the node. *)
Definition placed_at at_node node q : Node → Pod → Prop := λ n p, at_node n p ∨ (n = node ∧ p = q).
Definition without at_node q : Node → Pod → Prop := λ n p, at_node n p ∧ p ≠ q.

Lemma placed_split at_node node q (R : Node → Pod → Prop) p :
  (∃ n, placed_at at_node node q n p ∧ R n p) ↔ (∃ n, at_node n p ∧ R n p) ∨ (p = q ∧ R node q).
Proof.
  unfold placed_at. split.
  - intros (n & [?|[-> ->]] & ?); eauto.
  - intros [(n & ? & ?)|[-> ?]]; [exists n|exists node]; auto.
Qed.

(** What [AddPod] does to the two maps of the terms of the pod itself. *)
Lemma own_terms_added pod q node aff anti aff' anti' :
  addable pod q → tpm_ok aff → tpm_ok anti →
  (if bool_decide (is_Some (spec_Affinity (pod_Spec pod))) && negb (bool_decide (pod_NodeName q = EmptyString)) then
     (if targetPodMatchesAffinityOfPod pod q then foldl (λ t term, add_term_pair t node q term) aff (affinity_terms pod) else aff,
      if targetPodMatchesAntiAffinityOfPod pod q then foldl (λ t term, add_term_pair t node q term) anti (anti_terms pod) else anti)
   else (aff, anti)) = (aff', anti') →
  (tpm_ok aff' ∧ tpm_ok anti') ∧
  (∀ pr p, has aff' pr p ↔ has aff pr p ∨
    (p = q ∧ attracts pod q ∧ ∃ term, term ∈ affinity_terms pod ∧ in_domain node term pr)) ∧
  (∀ pr p, has anti' pr p ↔ has anti pr p ∨
    (p = q ∧ ∃ term, term ∈ anti_terms pod ∧ term_matches pod term q ∧ in_domain node term pr)).
Proof.
  intros [_ _ Hnode [Hv1 Hv2] Huni] Hok1 Hok2. rewrite (bool_decide_false (pod_NodeName q = EmptyString)) by done.
  cbn [negb]. rewrite andb_true_r. case_bool_decide as Haff.
  2:{ intros [= <- <-]. destruct (no_affinity pod) as [E1 E2]; [by destruct (spec_Affinity (pod_Spec pod)); [destruct Haff|]|].
      unfold attracts. rewrite E1, E2. setoid_rewrite elem_of_nil. naive_solver. }
  pose proof (target_affinity pod q Hv1) as Ht1. pose proof (target_anti pod q Hv2) as Ht2. intros [= <- <-].
  split; [split|split].
  - destruct (targetPodMatchesAffinityOfPod pod q); [by apply add_terms_ok|done].
  - destruct (targetPodMatchesAntiAffinityOfPod pod q); [by apply add_terms_ok|done].
  - intros pr p. destruct (targetPodMatchesAffinityOfPod pod q).
    + rewrite add_terms_has. pose proof (proj1 Ht1 eq_refl). naive_solver.
    + split; [by left|]. intros [?|(_ & ? & _)]; [done|]. by assert (false = true) by (by apply Ht1).
  - intros pr p. destruct (targetPodMatchesAntiAffinityOfPod pod q).
    + rewrite add_terms_has. destruct (proj1 Ht2 eq_refl) as (term0 & Hin0 & Hm0). split.
      * intros [?|(-> & term & ? & ?)]; [by left|]. right. split; [done|]. exists term. split_and!; [done|by eapply (Huni term0)|done].
      * intros [?|(-> & term & ? & _ & ?)]; [by left|]. right. eauto.
    + split; [by left|]. intros [?|(_ & term & ? & ? & _)]; [done|]. assert (false = true); [|done]. apply Ht2. eauto.
Qed.

Lemma AddPod_describes at_node meta q info node :
  describes_nodes at_node meta → addable (pm_pod meta) q → ni_node info = Some node →
  let '(meta', err) := predicateMetadata_AddPod meta q info in
  err = None ∧ pm_pod meta' = pm_pod meta ∧ describes_nodes (placed_at at_node node q) meta'.
Proof.
  intros [(Hok1 & Hok2 & Hok3) He Ha Hn] Had Hnode. unfold predicateMetadata_AddPod.
  rewrite bool_decide_false by apply Had. rewrite Hnode.
  destruct (getMatching_total (pm_pod meta) q node (ad_terms _ _ Had)) as [o Eo]. rewrite Eo.
  pose proof (getMatching_spec _ _ _ _ Eo) as Ho.
  match goal with |- context [if ?b then (?x1, ?x2) else (?y1, ?y2)] => destruct (if b then (x1, x2) else (y1, y2)) as [aff anti] eqn:E end. apply own_terms_added in E as ([Hoka Hokn] & Hha & Hhn); [|done|done|done].
  set (meta1 := set_topology meta _ aff anti).
  assert (describes_nodes (placed_at at_node node q) meta1) as Hd.
  { split; cbn [meta1 set_topology topologyPairsAntiAffinityPodsMap topologyPairsPotentialAffinityPods
      topologyPairsPotentialAntiAffinityPods pm_pod].
    - split; [by apply appendMaps_ok|done].
    - intros pr p. rewrite appendMaps_has, Ho, He. unfold existing_rel.
      rewrite (placed_split at_node node q (λ n p, keeps_away p n (pm_pod meta) pr) p). tauto.
    - intros pr p. rewrite Hha, Ha. unfold affinity_rel.
      rewrite (placed_split at_node node q (λ n p, attracts (pm_pod meta) p ∧ ∃ term, term ∈ affinity_terms (pm_pod meta) ∧
        in_domain n term pr) p). tauto.
    - intros pr p. rewrite Hhn, Hn. unfold anti_rel.
      rewrite (placed_split at_node node q (λ n p, ∃ term, term ∈ anti_terms (pm_pod meta) ∧ term_matches (pm_pod meta) term p ∧
        in_domain n term pr) p). tauto. }
  destruct (serviceAffinityInUse meta1 && _ && _); [|by split_and!].
  split_and!; [done|done|]. by eapply describes_same, Hd.
Qed.

Lemma RemovePod_describes at_node meta q :
  describes_nodes at_node meta → GetPodFullName q ≠ GetPodFullName (pm_pod meta) →
  (∀ n p, at_node n p → GetPodFullName p = GetPodFullName q → p = q) →
  let '(meta', err) := predicateMetadata_RemovePod meta q in
  err = None ∧ pm_pod meta' = pm_pod meta ∧ describes_nodes (without at_node q) meta'.
Proof.
  intros [(Hok1 & Hok2 & Hok3) He Ha Hn] Hne Hu. unfold predicateMetadata_RemovePod.
  rewrite bool_decide_false by done. set (meta1 := set_topology meta _ _ _).
  assert (describes_nodes (without at_node q) meta1) as Hd.
  { split; cbn [meta1 set_topology topologyPairsAntiAffinityPodsMap topologyPairsPotentialAffinityPods
      topologyPairsPotentialAntiAffinityPods pm_pod].
    - split_and!; apply removePod_ok; try done; intros pr p Hp Ep.
      + apply He in Hp as (n & ? & _). by apply (Hu n).
      + apply Ha in Hp as (n & ? & _). by apply (Hu n).
      + apply Hn in Hp as (n & ? & _). by apply (Hu n).
    - intros pr p. rewrite removePod_has, He by done. unfold existing_rel, without. naive_solver.
    - intros pr p. rewrite removePod_has, Ha by done. unfold affinity_rel, without. naive_solver.
    - intros pr p. rewrite removePod_has, Hn by done. unfold anti_rel, without. naive_solver. }
  assert (∀ meta2, pm_pod meta2 = pm_pod meta1 → topologyPairsAntiAffinityPodsMap meta2 = topologyPairsAntiAffinityPodsMap meta1 →
    topologyPairsPotentialAffinityPods meta2 = topologyPairsPotentialAffinityPods meta1 →
    topologyPairsPotentialAntiAffinityPods meta2 = topologyPairsPotentialAntiAffinityPods meta1 →
    pm_pod meta2 = pm_pod meta ∧ describes_nodes (without at_node q) meta2) as Hsame.
  { intros meta2 E1 E2 E3 E4. split; [by rewrite E1|]. by eapply describes_same, Hd. }
  split; [done|]. destruct (serviceAffinityInUse meta1); [|by apply Hsame].
  destruct (serviceAffinityMatchingPodList meta1) as [[|first pods]|]; [by apply Hsame| |by apply Hsame].
  destruct (bool_decide _); [|by apply Hsame]. destruct (find_index _ _); by apply Hsame.
Qed.

Lemma ShallowCopy_describes at_node meta :
  describes_nodes at_node meta →
  pm_pod (predicateMetadata_ShallowCopy meta) = pm_pod meta ∧ describes_nodes at_node (predicateMetadata_ShallowCopy meta).
Proof.
  intros [(Hok1 & Hok2 & Hok3) He Ha Hn]. split; [done|]. pose proof new_ok as Hnew.
  assert (∀ t pr q, has (appendMaps newTopologyPairsMaps (Some t)) pr q ↔ has t pr q) as Hcopy.
  { intros t pr q. rewrite appendMaps_has. pose proof (new_has pr q). naive_solver. }
  split; cbn [predicateMetadata_ShallowCopy topologyPairsAntiAffinityPodsMap topologyPairsPotentialAffinityPods
    topologyPairsPotentialAntiAffinityPods pm_pod]; [|intros pr q; by rewrite Hcopy..].
  split_and!; by apply appendMaps_ok.
Qed.
End spec.
