(* ===== verification/PredicateFuncs.v ===== *)
(** * The predicates (src/pkg/scheduler/algorithm/predicates/predicates.go)

    Each predicate says whether a pod fits on a node, and why not.  A node that is
    nil is handled as in the source: some predicates report an error, others a failure.  The
    predicates on volumes are in VolumePredicates. *)
From S2P Require Import Prelude Heap Api Util Resource HostPorts NodeInfo SchedulingQueue Predicates Metadata.

(** kubernetes pkg/apis/core/v1/helper *)
Class PredicateLib := {
  IsExtendedResourceName : string → bool;
  MatchNodeSelectorTerms : list NodeSelectorTerm → gmap string string → gmap string string → bool;
  TolerationsTolerateTaint : list Toleration → Taint → bool;
  TolerationsTolerateTaintsWithFilter : list Toleration → list Taint → (Taint → bool) → bool
}.

Definition NodeFieldSelectorKeyNodeName : string := "metadata.name".
Definition TaintNodeUnschedulable : string := "node.kubernetes.io/unschedulable".
Definition TaintEffectNoSchedule : string := "NoSchedule".
Definition TaintEffectNoExecute : string := "NoExecute".
Definition NodeReady : string := "Ready".
Definition NodeNetworkUnavailable : string := "NetworkUnavailable".
Definition ConditionTrue : string := "True".
Definition ConditionFalse : string := "False".

Abbreviation verdict_of := (bool * list PredicateFailureReason * option error)%type.
Definition fits_node : verdict_of := (true, [], None).
Definition node_not_found : verdict_of := (false, [], Some "node not found"%string).
Definition fails (r : PredicateFailureReason) : verdict_of := (false, [r], None).
(** [return len(predicateFails) == 0, predicateFails, nil] *)
Definition fits_unless (predicateFails : list PredicateFailureReason) : verdict_of :=
  (bool_decide (length predicateFails = O), predicateFails, None).

Section predicates.
Context `{K8sLib} `{MapRange} `{MetadataLib} `{PredicateLib}.
Implicit Types (pod : Pod) (meta : option predicateMetadata) (nodeInfo : option NodeInfo) (node : Node).

(** ** Resources *)

(** [if allocatable < request+used { append(NewInsufficientResourceError(...)) }] *)
Definition check_resource (name : string) (request used allocatable : Z) : list PredicateFailureReason :=
  if allocatable <? add64 request used then [InsufficientResourceError name request used allocatable] else [].

Definition check_scalar (ignored : gset string) (request used allocatable : gmap string Z) (e : string * Z) :
    list PredicateFailureReason :=
  let '(rName, rQuant) := e in
  if IsExtendedResourceName rName && bool_decide (rName ∈ ignored) then []
  else check_resource rName rQuant (at0 used rName) (at0 allocatable rName).

Definition PodFitsResources : FitPredicate predicateMetadata := λ pod meta nodeInfo,
  match NodeInfo_Node nodeInfo with
  | None => node_not_found
  | Some _ =>
      let allowedPodNumber := NodeInfo_AllowedPodNumber nodeInfo in
      let numPods := Z.of_nat (length (NodeInfo_Pods nodeInfo)) in
      let predicateFails :=
        if allowedPodNumber <? numPods + 1
        then [InsufficientResourceError ResourcePods 1 numPods allowedPodNumber] else [] in
      let '(podRequest, ignored) :=
        match meta with
        | Some m => (pm_podRequest m, default ∅ (ignoredExtendedResources m))
        | None => (GetResourceRequest pod, ∅)
        end in
      if (MilliCPU podRequest =? 0) && (Memory podRequest =? 0) && (EphemeralStorage podRequest =? 0) &&
         bool_decide (size (ScalarResources podRequest) = O) then fits_unless predicateFails
      else
        let allocatable := NodeInfo_AllocatableResource nodeInfo in
        let requested := NodeInfo_RequestedResource nodeInfo in
        fits_unless (predicateFails
          ++ check_resource ResourceCPU (MilliCPU podRequest) (MilliCPU requested) (MilliCPU allocatable)
          ++ check_resource ResourceMemory (Memory podRequest) (Memory requested) (Memory allocatable)
          ++ check_resource ResourceEphemeralStorage (EphemeralStorage podRequest) (EphemeralStorage requested)
               (EphemeralStorage allocatable)
          ++ (range (ScalarResources podRequest) ≫=
               check_scalar ignored (ScalarResources podRequest) (ScalarResources requested) (ScalarResources allocatable)))
  end.

(** ** Node selectors and names *)

Definition nodeMatchesNodeSelectorTerms node (nodeSelectorTerms : list NodeSelectorTerm) : bool :=
  MatchNodeSelectorTerms nodeSelectorTerms (node_Labels node) {[NodeFieldSelectorKeyNodeName := node_Name node]}.

(** labels.SelectorFromSet is Set.AsSelector. *)
Definition podMatchesNodeSelectorAndAffinityTerms pod node : bool :=
  if negb (bool_decide (size (NodeSelector (pod_Spec pod)) = O)) &&
     negb (Selector_Matches (AsSelector (NodeSelector (pod_Spec pod))) (node_Labels node)) then false
  else
    match (a ← spec_Affinity (pod_Spec pod); aff_NodeAffinity a) with
    | Some nodeAffinity =>
        match RequiredNodeSelector nodeAffinity with
        | None => true
        | Some nodeSelectorTerms => nodeMatchesNodeSelectorTerms node nodeSelectorTerms
        end
    | None => true
    end.

Definition PodMatchNodeSelector : FitPredicate predicateMetadata := λ pod _ nodeInfo,
  match NodeInfo_Node nodeInfo with
  | None => node_not_found
  | Some node => if podMatchesNodeSelectorAndAffinityTerms pod node then fits_node else fails ErrNodeSelectorNotMatch
  end.

Definition PodFitsHost : FitPredicate predicateMetadata := λ pod _ nodeInfo,
  if bool_decide (pod_NodeName pod = EmptyString) then fits_node
  else
    match NodeInfo_Node nodeInfo with
    | None => node_not_found
    | Some node => if bool_decide (pod_NodeName pod = node_Name node) then fits_node else fails ErrPodNotMatchHostName
    end.

Record NodeLabelChecker := MkNodeLabelChecker { nlc_labels : list string; nlc_presence : bool }.
Definition CheckNodeLabelPresence (n : NodeLabelChecker) : FitPredicate predicateMetadata := λ _ _ nodeInfo,
  match NodeInfo_Node nodeInfo with
  | None => node_not_found
  | Some node =>
      if existsb (λ label, let exists_ := bool_decide (is_Some (node_Labels node !! label)) in
            (exists_ && negb (nlc_presence n)) || (negb exists_ && nlc_presence n)) (nlc_labels n)
      then fails ErrNodeLabelPresenceViolated else fits_node
  end.
Definition NewNodeLabelPredicate (labels : list string) (presence : bool) : FitPredicate predicateMetadata :=
  CheckNodeLabelPresence (MkNodeLabelChecker labels presence).

(** ** Ports *)

Definition portsConflict (existingPorts : HostPortInfo) (wantPorts : list ContainerPort) : bool :=
  existsb (λ cp, CheckConflict existingPorts (HostIP cp) (Protocol cp) (HostPort cp)) wantPorts.

Definition PodFitsHostPorts : FitPredicate predicateMetadata := λ pod meta nodeInfo,
  let wantPorts := match meta with Some m => pm_podPorts m | None => GetContainerPorts [pod] end in
  if bool_decide (length wantPorts = O) then fits_node
  else if portsConflict (NodeInfo_UsedPorts nodeInfo) wantPorts then fails ErrPodNotFitsHostPorts
  else fits_node.

(** ** Combinations *)

(** The steps of a combined predicate: the reasons of failures are collected, an error
    ends it with the reasons so far. *)
Fixpoint run_all (pod : Pod) meta nodeInfo (predicates : list (FitPredicate predicateMetadata))
    (predicateFails : list PredicateFailureReason) : verdict_of :=
  match predicates with
  | [] => fits_unless predicateFails
  | predicate :: predicates =>
      let '(fit, reasons, err) := predicate pod meta nodeInfo in
      match err with
      | Some err => (false, predicateFails, Some err)
      | None => run_all pod meta nodeInfo predicates (if negb fit then predicateFails ++ reasons else predicateFails)
      end
  end.

Definition noncriticalPredicates : FitPredicate predicateMetadata := λ pod meta nodeInfo,
  run_all pod meta nodeInfo [PodFitsResources] [].
Definition EssentialPredicates : FitPredicate predicateMetadata := λ pod meta nodeInfo,
  run_all pod meta nodeInfo [PodFitsHost; PodFitsHostPorts; PodMatchNodeSelector] [].
Definition GeneralPredicates : FitPredicate predicateMetadata := λ pod meta nodeInfo,
  run_all pod meta nodeInfo [noncriticalPredicates; EssentialPredicates] [].

(** ** Taints and conditions *)

Definition CheckNodeUnschedulablePredicate : FitPredicate predicateMetadata := λ pod _ nodeInfo,
  match NodeInfo_Node nodeInfo with
  | None => fails ErrNodeUnknownCondition
  | Some node =>
      let podToleratesUnschedulable := TolerationsTolerateTaint (Tolerations (pod_Spec pod))
        (MkTaint TaintNodeUnschedulable EmptyString TaintEffectNoSchedule) in
      if Unschedulable node && negb podToleratesUnschedulable then fails ErrNodeUnschedulable else fits_node
  end.

Definition podToleratesNodeTaints pod nodeInfo (filter : Taint → bool) : verdict_of :=
  let '(taints, err) := NodeInfo_Taints nodeInfo in
  match err with
  | Some err => (false, [], Some err)
  | None =>
      if TolerationsTolerateTaintsWithFilter (Tolerations (pod_Spec pod)) taints filter then fits_node
      else fails ErrTaintsTolerationsNotMatch
  end.
Definition PodToleratesNodeTaints : FitPredicate predicateMetadata := λ pod _ nodeInfo,
  match NodeInfo_Node nodeInfo with
  | None => fails ErrNodeUnknownCondition
  | Some _ =>
      podToleratesNodeTaints pod nodeInfo (λ t,
        bool_decide (taint_Effect t = TaintEffectNoSchedule) || bool_decide (taint_Effect t = TaintEffectNoExecute))
  end.
Definition PodToleratesNodeNoExecuteTaints : FitPredicate predicateMetadata := λ pod _ nodeInfo,
  podToleratesNodeTaints pod nodeInfo (λ t, bool_decide (taint_Effect t = TaintEffectNoExecute)).

Definition CheckNodeMemoryPressurePredicate : FitPredicate predicateMetadata := λ pod meta nodeInfo,
  let podBestEffort := match meta with Some m => pm_podBestEffort m | None => isPodBestEffort pod end in
  if negb podBestEffort then fits_node
  else if bool_decide (NodeInfo_MemoryPressureCondition nodeInfo = ConditionTrue) then fails ErrNodeUnderMemoryPressure
  else fits_node.
Definition CheckNodeDiskPressurePredicate : FitPredicate predicateMetadata := λ _ _ nodeInfo,
  if bool_decide (NodeInfo_DiskPressureCondition nodeInfo = ConditionTrue) then fails ErrNodeUnderDiskPressure else fits_node.
Definition CheckNodePIDPressurePredicate : FitPredicate predicateMetadata := λ _ _ nodeInfo,
  if bool_decide (NodeInfo_PIDPressureCondition nodeInfo = ConditionTrue) then fails ErrNodeUnderPIDPressure else fits_node.

Definition condition_reasons (cond : NodeCondition) : list PredicateFailureReason :=
  if bool_decide (ncond_Type cond = NodeReady) && negb (bool_decide (ncond_Status cond = ConditionTrue))
  then [ErrNodeNotReady]
  else if bool_decide (ncond_Type cond = NodeNetworkUnavailable) && negb (bool_decide (ncond_Status cond = ConditionFalse))
  then [ErrNodeNetworkUnavailable]
  else [].
Definition CheckNodeConditionPredicate : FitPredicate predicateMetadata := λ _ _ nodeInfo,
  match NodeInfo_Node nodeInfo with
  | None => fails ErrNodeUnknownCondition
  | Some node =>
      fits_unless ((node_Conditions node ≫= condition_reasons) ++
                   (if Unschedulable node then [ErrNodeUnschedulable] else []))
  end.

(** ** Inter-pod affinity *)

Definition NodesHaveSameTopologyKey (nodeA nodeB : Node) (topologyKey : string) : bool :=
  if bool_decide (topologyKey = EmptyString) then false
  else
    match node_Labels nodeA !! topologyKey, node_Labels nodeB !! topologyKey with
    | Some a, Some b => bool_decide (a = b)
    | _, _ => false
    end.

(** The node lister and the pod lister of the checker. The boolean of an error of the node
    lister is [IsNotFound]. *)
Record PodAffinityChecker := MkPodAffinityChecker {
  GetNodeInfo : string → (bool * error) + Node;
  FilteredPods : (Pod → bool) → error + list Pod
}.
Implicit Type c : PodAffinityChecker.

(** Whether all terms and topologies match, and whether all terms match. *)
Definition podMatchesPodAffinityTerms c pod (targetPod : Pod) node (terms : list PodAffinityTerm) : error + (bool * bool) :=
  if bool_decide (length terms = O) then inl "terms array is empty"%string
  else
  match getAffinityTermProperties pod terms with
  | inl err => inl err
  | inr props =>
      if negb (podMatchesAllAffinityTermProperties targetPod props) then inr (false, false)
      else
      match GetNodeInfo c (pod_NodeName targetPod) with
      | inl (_, err) => inl err
      | inr targetPodNode =>
          (fix loop (terms : list PodAffinityTerm) : error + (bool * bool) :=
             match terms with
             | [] => inr (true, true)
             | term :: terms =>
                 if bool_decide (pat_TopologyKey term = EmptyString) then
                   inl "empty topologyKey is not allowed except for PreferredDuringScheduling pod anti-affinity"%string
                 else if negb (NodesHaveSameTopologyKey node targetPodNode (pat_TopologyKey term)) then inr (false, true)
                 else loop terms
             end) terms
      end
  end.

Fixpoint pairs_of_pods c pod (existingPods : list Pod) (t : topologyPairsMaps) : error + topologyPairsMaps :=
  match existingPods with
  | [] => inr t
  | existingPod :: existingPods =>
      match GetNodeInfo c (pod_NodeName existingPod) with
      | inl (true, _) => pairs_of_pods c pod existingPods t
      | inl (false, err) => inl err
      | inr existingPodNode =>
          match getMatchingAntiAffinityTopologyPairsOfPod pod existingPod existingPodNode with
          | inl err => inl err
          | inr maps => pairs_of_pods c pod existingPods (appendMaps t maps)
          end
      end
  end.
Definition getMatchingAntiAffinityTopologyPairsOfPods c pod (existingPods : list Pod) : error + topologyPairsMaps :=
  pairs_of_pods c pod existingPods newTopologyPairsMaps.

(** [nodeInfo.Filter] of a node with an object. *)
Definition node_filter (info : NodeInfo) node (pod : Pod) : bool := default false (NodeInfo_Filter info pod).

(** A failure with an error, if any; [None] when satisfied. *)
Definition satisfiesExistingPodsAntiAffinity c pod meta (info : NodeInfo) node : option (PredicateFailureReason * option error) :=
  match (match meta with
         | Some m => inr (topologyPairsAntiAffinityPodsMap m)
         | None =>
             match FilteredPods c (node_filter info node) with
             | inl err => inl ("Failed to get all pods, " +:+ err)%string
             | inr filteredPods =>
                 match getMatchingAntiAffinityTopologyPairsOfPods c pod filteredPods with
                 | inl err => inl ("Failed to get all terms that pod " +:+ pod_Namespace pod +:+ "/" +:+ pod_Name pod
                                   +:+ " matches, err: " +:+ err)%string
                 | inr maps => inr maps
                 end
             end
         end) with
  | inl err => Some (ErrExistingPodsAntiAffinityRulesNotMatch, Some err)
  | inr topologyMaps =>
      if existsb (λ e : string * string,
           bool_decide (is_Some (topologyPairToPods topologyMaps !! MkTopologyPair e.1 e.2))) (range (node_Labels node))
      then Some (ErrExistingPodsAntiAffinityRulesNotMatch, None) else None
  end.

Definition term_pair_exists node (topologyPairs : topologyPairsMaps) (term : PodAffinityTerm) : bool :=
  match node_Labels node !! pat_TopologyKey term with
  | Some topologyValue =>
      bool_decide (is_Some (topologyPairToPods topologyPairs !! MkTopologyPair (pat_TopologyKey term) topologyValue))
  | None => false
  end.
Definition nodeMatchesAllTopologyTerms (topologyPairs : topologyPairsMaps) node (terms : list PodAffinityTerm) : bool :=
  forallb (term_pair_exists node topologyPairs) terms.
Definition nodeMatchesAnyTopologyTerm (topologyPairs : topologyPairsMaps) node (terms : list PodAffinityTerm) : bool :=
  existsb (term_pair_exists node topologyPairs) terms.

(** The verdict from the metadata. *)
Definition own_terms_fast pod (m : predicateMetadata) node : option PredicateFailureReason :=
  let potentialAffinity := topologyPairsPotentialAffinityPods m in
  let affinityTerms := GetPodAffinityTerms (PodAffinity_of pod) in
  let antiAffinityTerms := GetPodAntiAffinityTerms (PodAntiAffinity_of pod) in
  if bool_decide (0 < length affinityTerms)%nat &&
     negb (nodeMatchesAllTopologyTerms potentialAffinity node affinityTerms) &&
     negb (bool_decide (size (topologyPairToPods potentialAffinity) = O) && targetPodMatchesAffinityOfPod pod pod)
  then Some ErrPodAffinityRulesNotMatch
  else if bool_decide (0 < length antiAffinityTerms)%nat &&
     nodeMatchesAnyTopologyTerm (topologyPairsPotentialAntiAffinityPods m) node antiAffinityTerms
  then Some ErrPodAntiAffinityRulesNotMatch
  else None.

(** The verdict without metadata: the state of the loop over the pods is whether a match and
    whether a match of the terms was found. *)
Fixpoint own_terms_slow_loop c pod node (affinityTerms antiAffinityTerms : list PodAffinityTerm) (pods : list Pod)
    (matchFound termsSelectorMatchFound : bool) : (PredicateFailureReason * option error) + (bool * bool) :=
  match pods with
  | [] => inr (matchFound, termsSelectorMatchFound)
  | targetPod :: pods =>
      match (if negb matchFound && bool_decide (0 < length affinityTerms)%nat then
               match podMatchesPodAffinityTerms c pod targetPod node affinityTerms with
               | inl err => inl (ErrPodAffinityRulesNotMatch, Some ("Cannot schedule pod " +:+ pod_Namespace pod +:+ "/" +:+
                    pod_Name pod +:+ " onto node " +:+ node_Name node +:+ ", because of PodAffinity, err: " +:+ err)%string)
               | inr (affTermsMatch, termsSelectorMatch) =>
                   inr (if affTermsMatch : bool then true else matchFound,
                        if termsSelectorMatch : bool then true else termsSelectorMatchFound)
               end
             else inr (matchFound, termsSelectorMatchFound)) with
      | inl f => inl f
      | inr (matchFound, termsSelectorMatchFound) =>
          if bool_decide (0 < length antiAffinityTerms)%nat then
            match podMatchesPodAffinityTerms c pod targetPod node antiAffinityTerms with
            | inl _ | inr (true, _) => inl (ErrPodAntiAffinityRulesNotMatch, None)
            | inr (false, _) =>
                own_terms_slow_loop c pod node affinityTerms antiAffinityTerms pods matchFound termsSelectorMatchFound
            end
          else own_terms_slow_loop c pod node affinityTerms antiAffinityTerms pods matchFound termsSelectorMatchFound
      end
  end.

Definition satisfiesPodsAffinityAntiAffinity c pod meta (info : NodeInfo) node : option (PredicateFailureReason * option error) :=
  match meta with
  | Some m => (λ r, (r, None)) <$> own_terms_fast pod m node
  | None =>
      match FilteredPods c (node_filter info node) with
      | inl err => Some (ErrPodAffinityRulesNotMatch, Some err)
      | inr filteredPods =>
          let affinityTerms := GetPodAffinityTerms (PodAffinity_of pod) in
          let antiAffinityTerms := GetPodAntiAffinityTerms (PodAntiAffinity_of pod) in
          match own_terms_slow_loop c pod node affinityTerms antiAffinityTerms filteredPods false false with
          | inl f => Some f
          | inr (matchFound, termsSelectorMatchFound) =>
              if negb matchFound && bool_decide (0 < length affinityTerms)%nat &&
                 (termsSelectorMatchFound || negb (targetPodMatchesAffinityOfPod pod pod))
              then Some (ErrPodAffinityRulesNotMatch, None) else None
          end
      end
  end.

Definition InterPodAffinityMatches c : FitPredicate predicateMetadata := λ pod meta nodeInfo,
  match nodeInfo, NodeInfo_Node nodeInfo with
  | Some info, Some node =>
      match satisfiesExistingPodsAntiAffinity c pod meta info node with
      | Some (failed, err) => (false, [ErrPodAffinityNotMatch; failed], err)
      | None =>
          match PodAffinity_of pod, PodAntiAffinity_of pod with
          | None, None => fits_node
          | _, _ =>
              match satisfiesPodsAffinityAntiAffinity c pod meta info node with
              | Some (failed, err) => (false, [ErrPodAffinityNotMatch; failed], err)
              | None => fits_node
              end
          end
      end
  | _, _ => node_not_found
  end.
End predicates.
