(* ===== verification/PredicateProofs.v ===== *)
(** * The predicates: proofs

    A node that passes the predicate on resources is not overcommitted by the pod; the
    verdict on inter-pod affinity, which is read off the topology maps, is the one that the
    terms of all pods ask for; a predicate that fails gives a reason; and the verdict of
    a predicate whose reasons preemption takes to be hopeless does not depend on the pods
    of the node. *)
From S2P Require Import Prelude Heap Api Util Resource HostPorts NodeTree NodeInfo PoolInfo.
From S2P Require Import SchedulingQueue Predicates PoolInfoProofs Cache CacheProofs GenericScheduler GenericSchedulerProofs Metadata MetadataProofs PredicateFuncs.
From Stdlib Require Import Ascii.

(** ** Resources *)

(** The dimensions of a resource vector. *)
Inductive dim := DCPU | DMemory | DEphemeral | DScalar (k : string).
Definition amount (d : dim) (r : Resource) : Z :=
  match d with
  | DCPU => MilliCPU r
  | DMemory => Memory r
  | DEphemeral => EphemeralStorage r
  | DScalar k => at0 (ScalarResources r) k
  end.

Lemma bind_nil {A B} (f : A → list B) (l : list A) x : (l ≫= f) = [] → x ∈ l → f x = [].
Proof.
  intros E Hx. destruct (f x) as [|y r] eqn:Ef; [done|]. assert (y ∈ l ≫= f) as Hy
    by (apply list_elem_of_bind; exists x; rewrite Ef; split; [by left|done]).
  rewrite E in Hy. by apply not_elem_of_nil in Hy.
Qed.

Section resources.
Context {K8s : K8sLib} {Range : MapRange} {MLib : MetadataLib} {PLib : PredicateLib}.
Implicit Types (pod : Pod) (info : NodeInfo) (meta : option predicateMetadata) (d : dim).

Lemma SetMaxResource1_ge r e d : amount d r <= amount d (SetMaxResource1 r e).
Proof.
  destruct e as [k v]. unfold SetMaxResource1. repeat case_bool_decide.
  - destruct (Memory r <? Quantity_Value v) eqn:E; bool_to_prop; destruct d; simpl; lia.
  - destruct (MilliCPU r <? Quantity_MilliValue v) eqn:E; bool_to_prop; destruct d; simpl; lia.
  - destruct (EphemeralStorage r <? Quantity_Value v) eqn:E; bool_to_prop; destruct d; simpl; lia.
  - destruct (IsScalarResourceName k); [|lia]. cbv zeta.
    destruct (at0 (ScalarResources r) k <? Quantity_Value v) eqn:E; bool_to_prop; [|lia].
    destruct d as [| | |k']; simpl; try lia. unfold at0 in *. destruct (decide (k = k')) as [->|].
    + rewrite lookup_insert_eq. simpl. lia.
    + rewrite lookup_insert_ne by done. lia.
Qed.

Lemma foldl_ge {A} (f : Resource → A → Resource) d (l : list A) :
  (∀ r x, amount d r <= amount d (f r x)) → ∀ r, amount d r <= amount d (foldl f r l).
Proof. intros Hf. induction l as [|x l IH]; intros r; cbn [foldl]; [lia|]. etrans; [apply (Hf r x)|apply IH]. Qed.

(** The request that is checked covers what the pod adds to the node. *)
Lemma request_covers pod d : amount d (pod_request pod) <= amount d (GetResourceRequest pod).
Proof.
  assert (amount d (pod_request pod) =
    amount d (foldl (λ r c, Resource_Add r (Requests c)) emptyResource (pod_Containers pod))) as ->.
  { unfold pod_request, calculateResource.
    assert (∀ l (a : Resource * Z * Z), (foldl (λ a c, let '(res, non0CPU, non0Mem) := a in
        let '(cpu, mem) := GetNonzeroRequests (Requests c) in
        (Resource_Add res (Requests c), add64 non0CPU cpu, add64 non0Mem mem)) a l).1.1 =
      foldl (λ r c, Resource_Add r (Requests c)) a.1.1 l) as Hl.
    { induction l as [|c l IH]; intros [[res cpu] mem]; cbn [foldl]; [done|].
      destruct (GetNonzeroRequests (Requests c)). by rewrite IH. }
    specialize (Hl (pod_Containers pod) (emptyResource, 0, 0)). cbn [fst] in Hl. rewrite <-Hl. destruct (foldl _ _ _) as [[res cpu] mem]. by destruct d. }
  apply foldl_ge. intros r c. apply foldl_ge. intros. apply SetMaxResource1_ge.
Qed.

(** The request and the ignored resources that the predicate uses. *)
Definition checked_request pod meta : Resource :=
  match meta with Some m => pm_podRequest m | None => GetResourceRequest pod end.
Definition ignores meta d : Prop :=
  ∃ m s k, meta = Some m ∧ ignoredExtendedResources m = Some s ∧ d = DScalar k ∧ k ∈ s ∧ IsExtendedResourceName k = true.

Lemma fits_unless_true l : (fits_unless l).1.1 = true ↔ l = [].
Proof. unfold fits_unless. cbn [fst]. rewrite bool_decide_eq_true. split; [apply nil_length_inv|by intros ->]. Qed.

Lemma check_resource_nil name a b c : check_resource name a b c = [] ↔ add64 a b <= c.
Proof. unfold check_resource. destruct (c <? add64 a b) eqn:E; bool_to_prop; [split; [done|lia]|tauto]. Qed.

Lemma fits_dims pod meta info :
  (PodFitsResources pod meta (Some info)).1.1 = true →
  Z.of_nat (length (ni_pods info)) + 1 <= AllowedPodNumber (ni_allocatableResource info) ∧
  ∀ d, ¬ ignores meta d → amount d (checked_request pod meta) = 0 ∨
    add64 (amount d (checked_request pod meta)) (amount d (ni_requestedResource info)) <=
      amount d (ni_allocatableResource info).
Proof.
  unfold PodFitsResources. cbn [NodeInfo_Node NodeInfo_AllowedPodNumber NodeInfo_Pods from_option mbind option_bind
    NodeInfo_AllocatableResource NodeInfo_RequestedResource].
  destruct (ni_node info) as [node|]; [|done].
  assert (∀ (b : Z * Z), (if b.1 <? b.2 then [InsufficientResourceError ResourcePods 1
    (Z.of_nat (length (ni_pods info))) b.1] else []) = [] ↔ b.2 <= b.1) as Hpods.
  { intros b. destruct (b.1 <? b.2) eqn:E; bool_to_prop; [split; [done|lia]|tauto]. }
  specialize (Hpods (AllowedPodNumber (ni_allocatableResource info), Z.of_nat (length (ni_pods info)) + 1)). cbn [fst snd] in Hpods.
  set (req := checked_request pod meta). set (ign := match meta with Some m => default ∅ (ignoredExtendedResources m) | None => ∅ end).
  assert ((match meta with Some m => (pm_podRequest m, default ∅ (ignoredExtendedResources m)) | None => (GetResourceRequest pod, ∅) end)
    = (req, ign)) as -> by (by unfold req, ign; destruct meta).
  destruct ((MilliCPU req =? 0) && (Memory req =? 0) && (EphemeralStorage req =? 0) && bool_decide (size (ScalarResources req) = O)) eqn:Ez.
  { rewrite fits_unless_true, Hpods. intros Hp. split; [done|]. intros d _. left.
    rewrite !andb_true_iff, bool_decide_eq_true, map_size_empty_iff in Ez. destruct Ez as (((? & ?) & ?) & Hs). bool_to_prop.
    destruct d; simpl; try done. by rewrite Hs. }
  rewrite fits_unless_true. intros (Hp & (Hcpu & (Hmem & (Heph & Hsc)%app_nil)%app_nil)%app_nil)%app_nil. rewrite Hpods in Hp.
  split; [done|]. intros [| | |k] Hi; cbn [amount]; [right; by apply check_resource_nil in Hcpu|
    right; by apply check_resource_nil in Hmem|right; by apply check_resource_nil in Heph|].
  destruct (ScalarResources req !! k) as [q|] eqn:Ek; [|left; unfold at0; by rewrite Ek].
  right. assert ((k, q) ∈ range (ScalarResources req)) as Hin by (by apply range_elem).
  apply (bind_nil _ _ _ Hsc) in Hin. unfold check_scalar in Hin.
  assert (IsExtendedResourceName k && bool_decide (k ∈ ign) = false) as Hig.
  { apply not_true_iff_false. rewrite andb_true_iff, bool_decide_eq_true. intros [Hx Hk]. apply Hi.
    unfold ign in Hk. destruct meta as [m|]; [|set_solver]. destruct (ignoredExtendedResources m) as [s|] eqn:Es; [|set_solver].
    by exists m, s, k. }
  rewrite Hig in Hin. apply check_resource_nil in Hin. unfold at0 at 1. by rewrite Ek.
Qed.

(** What is asked of the numbers: quantities are not negative and their sum is in range. *)
Definition in_range pod info d : Prop :=
  0 <= amount d (pod_request pod) ∧ 0 <= amount d (ni_requestedResource info) ∧
  amount d (GetResourceRequest pod) + amount d (ni_requestedResource info) <= MaxInt64.

Lemma AddPod_amount gen info pod d :
  NodeInfo_inv info →
  amount d (ni_requestedResource (NodeInfo_AddPod gen info pod).2) =
    add64 (amount d (ni_requestedResource info)) (amount d (pod_request pod)).
Proof.
  intros Hi. destruct (nv_int64 _ Hi) as [(_ & _ & _ & _ & Hs) _]. unfold NodeInfo_AddPod, pod_request.
  destruct (calculateResource pod) as [[res cpu] mem]. destruct d; simpl; try done. by apply scalars_add.
Qed.

(** C17: a node is not overcommitted: if the predicate on resources lets a pod on a node then, after
    the pod was added, the node has at most the pods it allows, and in every
    dimension that the predicate does not ignore its pods request at most what is
    allocatable, or the pod requests nothing there. The quantities must not be negative and
    their sum must be in the range of int64. *)
Theorem no_overcommit gen pod meta info :
  NodeInfo_inv info → (∀ m, meta = Some m → pm_podRequest m = GetResourceRequest pod) →
  (∀ d, in_range pod info d) → (PodFitsResources pod meta (Some info)).1.1 = true →
  let info' := (NodeInfo_AddPod gen info pod).2 in
  Z.of_nat (length (ni_pods info')) <= AllowedPodNumber (ni_allocatableResource info') ∧
  ∀ d, ¬ ignores meta d →
    amount d (ni_requestedResource info') <= amount d (ni_allocatableResource info') ∨
    amount d (ni_requestedResource info') = amount d (ni_requestedResource info).
Proof.
  intros Hi Hm Hr (Hp & Hd)%fits_dims info'. subst info'.
  assert (ni_allocatableResource (NodeInfo_AddPod gen info pod).2 = ni_allocatableResource info ∧
    ni_pods (NodeInfo_AddPod gen info pod).2 = ni_pods info ++ [pod]) as [-> ->]
    by (unfold NodeInfo_AddPod; by destruct (calculateResource pod) as [[res cpu] mem]).
  split; [rewrite length_app; simpl; lia|]. intros d Hg. destruct (Hr d) as (H0 & H1 & H2).
  pose proof (request_covers pod d) as Hc. rewrite (AddPod_amount gen info pod d Hi).
  assert (checked_request pod meta = GetResourceRequest pod) as Eq by (destruct meta; [by apply Hm|done]).
  specialize (Hd d Hg). rewrite Eq in Hd.
  assert (∀ x, amount d (pod_request pod) <= x <= amount d (GetResourceRequest pod) →
    add64 (amount d (ni_requestedResource info)) x = amount d (ni_requestedResource info) + x) as Hadd.
  { intros x Hx. unfold add64. apply wrap64_id. unfold int64, MinInt64 in *. lia. }
  rewrite (Hadd (amount d (pod_request pod))) by lia. destruct Hd as [Hz|Hd]; [right; lia|left].
  rewrite add64_comm, (Hadd (amount d (GetResourceRequest pod))) in Hd by lia. lia.
Qed.
End resources.

(** ** Inter-pod affinity *)
Section affinity.
Context {K8s : K8sLib} {Range : MapRange} {MLib : MetadataLib} {PLib : PredicateLib}.
Implicit Types (pod q : Pod) (node n : Node) (m : predicateMetadata) (at_node : Node → Pod → Prop).
Abbreviation anti_terms pod := (GetPodAntiAffinityTerms (PodAntiAffinity_of pod)).
Abbreviation affinity_terms pod := (GetPodAffinityTerms (PodAffinity_of pod)).

(** The nodes have the same value of the topology key of the term. *)
Definition same_domain node n (term : PodAffinityTerm) : Prop :=
  ∃ v, node_Labels node !! pat_TopologyKey term = Some v ∧ node_Labels n !! pat_TopologyKey term = Some v.

(** What the terms ask for: no pod near the node minds the new pod; near the node
    there is, for every affinity term of the new pod, a pod that matches all of its
    terms, or there is no such pod anywhere and it matches its own terms; and the new
    pod minds no pod near the node. *)
Definition affinity_ok at_node pod node : Prop :=
  (∀ n q term, at_node n q → term ∈ anti_terms q → term_matches q term pod → ¬ same_domain node n term) ∧
  (affinity_terms pod = [] ∨
   (∀ term, term ∈ affinity_terms pod → ∃ n q, at_node n q ∧ attracts pod q ∧ same_domain node n term) ∨
   ((∀ n q term, at_node n q → attracts pod q → term ∈ affinity_terms pod →
       node_Labels n !! pat_TopologyKey term = None) ∧ attracts pod pod)) ∧
  (∀ n q term, at_node n q → term ∈ anti_terms pod → term_matches pod term q → ¬ same_domain node n term).

Lemma pair_exists (t : topologyPairsMaps) pr :
  tpm_ok t → is_Some (topologyPairToPods t !! pr) ↔ ∃ q, has t pr q.
Proof.
  intros Hok. unfold has. split.
  - intros [s E]. pose proof (to_nonempty _ Hok _ _ E). destruct s as [|q s]; [done|]. exists q, (q :: s). split; [done|by left].
  - intros (q & s & E & _). by eexists.
Qed.

Lemma in_domain_pair node n term :
  (∃ v, node_Labels node !! pat_TopologyKey term = Some v ∧ in_domain n term (MkTopologyPair (pat_TopologyKey term) v)) ↔
  same_domain node n term.
Proof. unfold in_domain, same_domain. simpl. naive_solver. Qed.

Lemma existing_check m at_node node :
  describes_nodes at_node m →
  existsb (λ e : string * string, bool_decide (is_Some (topologyPairToPods (topologyPairsAntiAffinityPodsMap m) !!
    MkTopologyPair e.1 e.2))) (range (node_Labels node)) = false ↔
  ∀ n q term, at_node n q → term ∈ anti_terms q → term_matches q term (pm_pod m) → ¬ same_domain node n term.
Proof.
  intros [(Hok & _ & _) He _ _]. rewrite <-not_true_iff_false, existsb_exists. split.
  - intros Hno n q term Hat Hin Hm (v & Hv & Hv'). apply Hno. exists (pat_TopologyKey term, v).
    split; [by apply list_elem_of_In, range_elem|]. apply bool_decide_eq_true, (pair_exists _ _ Hok). exists q.
    apply He. exists n. split; [done|]. by exists term.
  - intros Hall ([k v] & Hin%list_elem_of_In%range_elem & Hs). apply bool_decide_eq_true, (pair_exists _ _ Hok) in Hs.
    destruct Hs as (q & Hq). apply He in Hq as (n & Hat & term & Ht & Hm & Hk & Hv). simpl in *. subst k.
    apply (Hall n q term); try done. by exists v.
Qed.

Lemma term_pair_has node t term :
  tpm_ok t → term_pair_exists node t term = true ↔
  ∃ v q, node_Labels node !! pat_TopologyKey term = Some v ∧ has t (MkTopologyPair (pat_TopologyKey term) v) q.
Proof.
  intros Hok. unfold term_pair_exists. destruct (node_Labels node !! pat_TopologyKey term) as [v|]; [|naive_solver].
  rewrite bool_decide_eq_true, (pair_exists _ _ Hok). naive_solver.
Qed.

(** The topology key of the term determines the pair. *)
Lemma affinity_pair at_node pod node term :
  term ∈ affinity_terms pod →
  (∃ v q, node_Labels node !! pat_TopologyKey term = Some v ∧
    affinity_rel at_node pod (MkTopologyPair (pat_TopologyKey term) v) q) ↔
  ∃ n q, at_node n q ∧ attracts pod q ∧ same_domain node n term.
Proof.
  intros Hin. unfold affinity_rel, in_domain, same_domain. simpl. split.
  - intros (v & q & Hv & n & Hat & Ha & term' & _ & Ek & Hv'). exists n, q. rewrite <-Ek in Hv'. eauto 10.
  - intros (n & q & Hat & Ha & v & Hv & Hv'). exists v, q. eauto 12.
Qed.
Lemma anti_pair at_node pod node :
  (∃ term v q, term ∈ anti_terms pod ∧ node_Labels node !! pat_TopologyKey term = Some v ∧
    anti_rel at_node pod (MkTopologyPair (pat_TopologyKey term) v) q) ↔
  ∃ n q term, at_node n q ∧ term ∈ anti_terms pod ∧ term_matches pod term q ∧ same_domain node n term.
Proof.
  unfold anti_rel, in_domain, same_domain. simpl. split.
  - intros (term & v & q & _ & Hv & n & Hat & term' & Hin' & Hm & Ek & Hv'). exists n, q, term'.
    rewrite Ek in Hv. eauto 10.
  - intros (n & q & term & Hat & Hin & Hm & v & Hv & Hv'). exists term, v, q. eauto 12.
Qed.

Lemma verdict_bool {A} (b1 b2 b3 b4 b5 b6 : bool) (x y : A) :
  (if b1 && negb b2 && negb (b3 && b4) then Some x else if b5 && b6 then Some y else None) = None ↔
  (b1 = false ∨ b2 = true ∨ (b3 = true ∧ b4 = true)) ∧ (b5 = false ∨ b6 = false).
Proof. destruct b1, b2, b3, b4, b5, b6; cbn [andb negb]; intuition congruence. Qed.
Lemma empty_length {A} (l : list A) : bool_decide (0 < length l)%nat = false ↔ l = [].
Proof. rewrite bool_decide_eq_false. destruct l; simpl; split; [done|lia|lia|done]. Qed.

Lemma own_terms_check pod m at_node node :
  describes_nodes at_node m → pm_pod m = pod → valid_terms (affinity_terms pod) →
  own_terms_fast pod m node = None ↔
  (affinity_terms pod = [] ∨
   (∀ term, term ∈ affinity_terms pod → ∃ n q, at_node n q ∧ attracts pod q ∧ same_domain node n term) ∨
   ((∀ n q term, at_node n q → attracts pod q → term ∈ affinity_terms pod →
       node_Labels n !! pat_TopologyKey term = None) ∧ attracts pod pod)) ∧
  (∀ n q term, at_node n q → term ∈ anti_terms pod → term_matches pod term q → ¬ same_domain node n term).
Proof.
  intros [(_ & Hok2 & Hok3) _ Ha Hn] Ep Hv. rewrite Ep in Ha, Hn. unfold own_terms_fast. cbv zeta.
  assert (nodeMatchesAllTopologyTerms (topologyPairsPotentialAffinityPods m) node (affinity_terms pod) = true ↔
    ∀ term, term ∈ affinity_terms pod → ∃ n q, at_node n q ∧ attracts pod q ∧ same_domain node n term) as Hall.
  { unfold nodeMatchesAllTopologyTerms. rewrite forallb_forall. setoid_rewrite <-list_elem_of_In.
    apply forall_proper. intros term. split; intros Ht Hin; specialize (Ht Hin).
    - apply (term_pair_has _ _ _ Hok2) in Ht as (v & q & Hl & Hq). apply Ha in Hq.
      apply (affinity_pair at_node pod node term Hin). eauto.
    - apply (affinity_pair at_node pod node term Hin) in Ht as (v & q & Hl & Hq). apply (term_pair_has _ _ _ Hok2).
      exists v, q. split; [done|]. by apply Ha. }
  assert (nodeMatchesAnyTopologyTerm (topologyPairsPotentialAntiAffinityPods m) node (anti_terms pod) = true ↔
    ∃ n q term, at_node n q ∧ term ∈ anti_terms pod ∧ term_matches pod term q ∧ same_domain node n term) as Hany.
  { unfold nodeMatchesAnyTopologyTerm. rewrite existsb_exists, <-anti_pair. setoid_rewrite <-list_elem_of_In.
    apply exist_proper. intros term. rewrite (term_pair_has _ _ _ Hok3). setoid_rewrite <-Hn. naive_solver. }
  assert (bool_decide (size (topologyPairToPods (topologyPairsPotentialAffinityPods m)) = O) = true ↔
    ∀ n q term, at_node n q → attracts pod q → term ∈ affinity_terms pod → node_Labels n !! pat_TopologyKey term = None) as Hempty.
  { rewrite bool_decide_eq_true, map_size_empty_iff. split.
    - intros E n q term Hat Hatt Hin. destruct (node_Labels n !! pat_TopologyKey term) as [v|] eqn:El; [|done].
      assert (has (topologyPairsPotentialAffinityPods m) (MkTopologyPair (pat_TopologyKey term) v) q) as (s & Es & _).
      { apply Ha. exists n. split_and!; [done|done|]. by exists term. }
      by rewrite E, lookup_empty in Es.
    - intros Hnone. apply map_empty. intros pr. apply eq_None_not_Some. intros [q Hq]%(pair_exists _ _ Hok2).
      apply Ha in Hq as (n & Hat & Hatt & term & Hin & Ek & El). by rewrite (Hnone n q term) in El. }
  pose proof (target_affinity pod pod Hv) as Hself.
  rewrite verdict_bool, Hall, Hempty, Hself, !empty_length, <-not_true_iff_false, Hany.
  split; (intros [Haff Hanti]; split; [exact Haff|]).
  - intros n q term Hat Hin Hm Hs. destruct Hanti as [E|Hanti]; [|apply Hanti; eauto 10].
    rewrite E in Hin. by apply not_elem_of_nil in Hin.
  - right. intros (n & q & term & Hat & Hin & Hm & Hs). by apply (Hanti n q term).
Qed.

Lemma interpod_spec c pod m at_node info node :
  describes_nodes at_node m → pm_pod m = pod → valid_terms (affinity_terms pod) → ni_node info = Some node →
  (InterPodAffinityMatches c pod (Some m) (Some info)).2 = None ∧
  ((InterPodAffinityMatches c pod (Some m) (Some info)).1.1 = true ↔ affinity_ok at_node pod node).
Proof.
  intros Hd Ep Hv Hn. unfold InterPodAffinityMatches, satisfiesExistingPodsAntiAffinity, affinity_ok.
  cbn [NodeInfo_Node mbind option_bind]. rewrite Hn. pose proof (existing_check m at_node node Hd) as Hex. rewrite Ep in Hex.
  pose proof (own_terms_check pod m at_node node Hd Ep Hv) as Hown.
  destruct (existsb _ (range (node_Labels node))).
  { split; [done|]. split; [done|]. intros [Hall _]. by apply Hex in Hall. }
  pose proof (proj1 Hex eq_refl) as Hall.
  assert (PodAffinity_of pod = None → PodAntiAffinity_of pod = None → own_terms_fast pod m node = None) as Hnone
    by (intros E1 E2; unfold own_terms_fast; by rewrite E1, E2).
  cbn [satisfiesPodsAffinityAntiAffinity fmap option_fmap option_map].
  destruct (own_terms_fast pod m node) as [r|]; destruct (PodAffinity_of pod), (PodAntiAffinity_of pod);
    (split; [done|]); cbn [fits_node fst]; (split; [|try done]); try done;
    try (intros _; split; [done|by apply Hown]); try (intros [_ H]; by apply Hown in H).
  by specialize (Hnone eq_refl eq_refl).
Qed.

(** ** Changing the metadata and asking again *)

Inductive meta_op := MAdd (q : Pod) (info : NodeInfo) (node : Node) | MRemove (q : Pod).
Definition meta_exec m (op : meta_op) : predicateMetadata :=
  match op with
  | MAdd q info _ => (predicateMetadata_AddPod m q info).1
  | MRemove q => (predicateMetadata_RemovePod m q).1
  end.
Definition meta_model at_node (op : meta_op) : Node → Pod → Prop :=
  match op with MAdd q _ node => placed_at at_node node q | MRemove q => without at_node q end.
(** What preemption and the addition of nominated pods do: pods that can be added exactly, and
    the removal of pods by a name that is theirs alone. *)
Definition meta_legal pod at_node (op : meta_op) : Prop :=
  match op with
  | MAdd q info node => addable pod q ∧ ni_node info = Some node
  | MRemove q => GetPodFullName q ≠ GetPodFullName pod ∧ ∀ n p, at_node n p → GetPodFullName p = GetPodFullName q → p = q
  end.
Fixpoint meta_legals pod at_node (ops : list meta_op) : Prop :=
  match ops with [] => True | op :: ops => meta_legal pod at_node op ∧ meta_legals pod (meta_model at_node op) ops end.

Lemma meta_ops_describe ops : ∀ at_node m,
  describes_nodes at_node m → meta_legals (pm_pod m) at_node ops →
  pm_pod (foldl meta_exec m ops) = pm_pod m ∧ describes_nodes (foldl meta_model at_node ops) (foldl meta_exec m ops).
Proof.
  induction ops as [|op ops IH]; intros at_node m Hd; cbn [foldl meta_legals]; [done|]. intros [Hl Hls].
  assert (pm_pod (meta_exec m op) = pm_pod m ∧ describes_nodes (meta_model at_node op) (meta_exec m op)) as [Ep Hd'].
  { destruct op as [q info node|q]; cbn [meta_exec meta_model meta_legal] in *.
    - pose proof (AddPod_describes at_node m q info node Hd (proj1 Hl) (proj2 Hl)) as Ha.
      destruct (predicateMetadata_AddPod m q info) as [m' e]. by destruct Ha as (_ & ? & ?).
    - pose proof (RemovePod_describes at_node m q Hd (proj1 Hl) (proj2 Hl)) as Ha.
      destruct (predicateMetadata_RemovePod m q) as [m' e]. by destruct Ha as (_ & ? & ?). }
  destruct (IH _ _ Hd') as [Ep2 Hd2]; [by rewrite Ep|]. split; [by rewrite Ep2|done].
Qed.

End affinity.

(** ** The metadata follows the trial evictions

    The interface that the proof of preemption asks for, discharged by the metadata. *)
Section laws.
Context {K8s : K8sLib} {Range : MapRange} {MLib : MetadataLib}.
(** The pod that is scheduled and the pods on the other nodes. *)
Context (pod : Pod) (other : Node → Pod → Prop).

Definition with_pods (node : Node) (l : list Pod) : Node → Pod → Prop :=
  λ n q, other n q ∨ (n = node ∧ q ∈ l).
Definition meta_describes (node : option Node) (m : predicateMetadata) (l : list Pod) : Prop :=
  pm_pod m = pod ∧ ∃ nd, node = Some nd ∧ describes_nodes (with_pods nd l) m.
(** Pods that can be added exactly and whose names are theirs alone. *)
Definition meta_admissible (U : list Pod) : Prop :=
  (∀ q, q ∈ U → addable pod q) ∧
  (∀ q n p, q ∈ U → other n p → GetPodFullName p ≠ GetPodFullName q) ∧
  (∀ p q, p ∈ U → q ∈ U → GetPodFullName p = GetPodFullName q → p = q).

Lemma describes_iff (R1 R2 : Node → Pod → Prop) m :
  (∀ n q, R1 n q ↔ R2 n q) → describes_nodes R1 m → describes_nodes R2 m.
Proof.
  intros HR [H1 H2 H3 H4]. split; [done| | |]; intros pr q; [rewrite H2|rewrite H3|rewrite H4];
    unfold existing_rel, affinity_rel, anti_rel; by setoid_rewrite HR.
Qed.

Definition predicateMetadata_laws : MetadataLaws predicateMetadata.
Proof.
  refine {| describes := meta_describes; admissible := meta_admissible |}.
  - intros node U m p info l (Had & _ & _) Hl Hp Hn [Ep (nd & -> & Hd)]. cbn [meta_AddPod predicateMetadata_interface].
    rewrite <-Ep in Had. pose proof (AddPod_describes _ m p info nd Hd (Had p Hp) Hn) as Ha.
    destruct (predicateMetadata_AddPod m p info) as [m' e]. destruct Ha as (_ & Ep' & Hd'). split; [change (pm_pod m' = pod); congruence|].
    exists nd. split; [done|]. eapply describes_iff, Hd'. intros n q. unfold placed_at, with_pods.
    rewrite elem_of_app, list_elem_of_singleton. naive_solver.
  - intros node U m p l l' (Had & Hother & Huniq) Hl Hnot [Ep (nd & -> & Hd)] Hp. cbn [meta_RemovePod predicateMetadata_interface].
    assert (p ∈ U) as HpU by (apply Hl; rewrite Hp; by left). destruct (Had p HpU) as [_ Hname _ _ _]. rewrite <-Ep in Hname.
    pose proof (RemovePod_describes _ m p Hd Hname) as Ha.
    destruct (predicateMetadata_RemovePod m p) as [m' e]. destruct Ha as (_ & Ep' & Hd').
    { intros n q [Ho|[-> Hq]] En; [by destruct (Hother p n q HpU Ho)|]. apply Huniq; auto. }
    split; [change (pm_pod m' = pod); congruence|]. exists nd. split; [done|]. eapply describes_iff, Hd'. intros n q. unfold without, with_pods.
    rewrite Hp, elem_of_cons. split.
    + intros [[?|[? [?|?]]] ?]; [by left|done|by right].
    + intros [Ho|[-> Hq]]; split; [by left| |by auto|by intros ->].
      intros ->. by destruct (Hother p n p HpU Ho).
Defined.
End laws.

(** ** Reasons *)
Section reasons.
Context {K8s : K8sLib} {Range : MapRange} {MLib : MetadataLib} {PLib : PredicateLib}.
Implicit Types (pod : Pod) (info : NodeInfo) (meta : option predicateMetadata) (P : FitPredicate predicateMetadata).

(** The predicates that look at the node only, not at its pods. *)
Definition node_predicates (labels : list string) (presence : bool) : list (FitPredicate predicateMetadata) :=
  [PodMatchNodeSelector; PodFitsHost; NewNodeLabelPredicate labels presence; CheckNodeUnschedulablePredicate;
   PodToleratesNodeTaints; PodToleratesNodeNoExecuteTaints; CheckNodeMemoryPressurePredicate;
   CheckNodeDiskPressurePredicate; CheckNodePIDPressurePredicate; CheckNodeConditionPredicate].
(** Those that look at the pods of the node, and the combinations. *)
Definition pod_predicates : list (FitPredicate predicateMetadata) :=
  [PodFitsResources; PodFitsHostPorts; noncriticalPredicates; EssentialPredicates; GeneralPredicates].
Definition best_effort pod meta : bool :=
  match meta with Some m => pm_podBestEffort m | None => isPodBestEffort pod end.

Ltac node_cases HP :=
  unfold node_predicates in HP; rewrite !elem_of_cons, elem_of_nil in HP; destruct_or! HP; try done; subst;
  unfold PodMatchNodeSelector, PodFitsHost, NewNodeLabelPredicate, CheckNodeLabelPresence, CheckNodeUnschedulablePredicate,
    PodToleratesNodeTaints, PodToleratesNodeNoExecuteTaints, podToleratesNodeTaints, CheckNodeMemoryPressurePredicate,
    CheckNodeDiskPressurePredicate, CheckNodePIDPressurePredicate, CheckNodeConditionPredicate;
  cbn [NodeInfo_Node NodeInfo_Taints NodeInfo_MemoryPressureCondition NodeInfo_DiskPressureCondition
    NodeInfo_PIDPressureCondition from_option mbind option_bind].

Lemma node_predicates_frame labels presence P pod meta meta' info info' :
  P ∈ node_predicates labels presence → best_effort pod meta' = best_effort pod meta → frame info' = frame info →
  P pod meta' (Some info') = P pod meta (Some info).
Proof.
  intros HP Hb Hf. unfold best_effort in Hb. unfold frame in Hf. injection Hf as E1 E2 E3 E4 E5 E6 E7 E8 E9.
  node_cases HP; by rewrite ?E1, ?E3, ?E4, ?E7, ?E8, ?E9, ?Hb.
Qed.

Lemma unresolvable_app l l' : existsb unresolvable (l ++ l') = existsb unresolvable l || existsb unresolvable l'.
Proof. apply existsb_app. Qed.

Lemma condition_reasons_unresolvable l :
  (l ≫= condition_reasons) ≠ [] → existsb unresolvable (l ≫= condition_reasons) = true.
Proof.
  induction l as [|c l IH]; [done|]. cbn [mbind list_bind]. rewrite unresolvable_app. unfold condition_reasons at 1 3.
  repeat case_match; [done|done|]. exact IH.
Qed.

(** Preemption takes every failure of such a predicate to be hopeless. *)
Lemma node_predicates_unresolvable labels presence P pod meta info reasons :
  P ∈ node_predicates labels presence → P pod meta (Some info) = (false, reasons, None) → existsb unresolvable reasons = true.
Proof.
  intros HP. node_cases HP; repeat case_match; try done; try (by intros [= <-]);
    unfold fits_unless; intros [= E <-]; apply bool_decide_eq_false in E; rewrite unresolvable_app, orb_true_iff.
  - by right.
  - left. rewrite app_nil_r in E. apply condition_reasons_unresolvable. by intros Hn; rewrite Hn in E.
Qed.

(** A failure that preemption takes to be hopeless is one, whatever pods are on the node. *)
Definition hopeless P : Prop :=
  ∀ pod meta info reasons meta' info',
    P pod meta (Some info) = (false, reasons, None) → existsb unresolvable reasons = true →
    best_effort pod meta' = best_effort pod meta → frame info' = frame info →
    (P pod meta' (Some info')).2 ≠ None ∨ ∃ reasons', P pod meta' (Some info') = (false, reasons', None) ∧ reasons' ≠ [].

Lemma unresolvable_nonempty l : existsb unresolvable l = true → l ≠ [].
Proof. by intros E ->. Qed.

Lemma node_predicates_hopeless labels presence P : P ∈ node_predicates labels presence → hopeless P.
Proof.
  intros HP pod meta info reasons meta' info' E Hu Hb Hf. right. exists reasons.
  rewrite (node_predicates_frame _ _ _ _ _ _ _ _ HP Hb Hf). split; [done|by apply unresolvable_nonempty].
Qed.

Lemma resolvable_hopeless P :
  (∀ pod meta info reasons, P pod meta (Some info) = (false, reasons, None) → existsb unresolvable reasons = false) →
  hopeless P.
Proof. intros HP pod meta info reasons meta' info' E Hu. by rewrite (HP _ _ _ _ E) in Hu. Qed.

Lemma check_resource_resolvable name a b c : existsb unresolvable (check_resource name a b c) = false.
Proof. unfold check_resource. by destruct (_ <? _). Qed.
Lemma bind_resolvable {A} (f : A → list PredicateFailureReason) l :
  (∀ x, existsb unresolvable (f x) = false) → existsb unresolvable (l ≫= f) = false.
Proof.
  intros Hf. induction l as [|x l IH]; [done|]. cbn [mbind list_bind]. by rewrite unresolvable_app, Hf.
Qed.

Lemma PodFitsResources_resolvable pod meta info reasons :
  PodFitsResources pod meta (Some info) = (false, reasons, None) → existsb unresolvable reasons = false.
Proof.
  unfold PodFitsResources, fits_unless. destruct (NodeInfo_Node (Some info)); [|done].
  destruct (match meta with Some _ => _ | None => _ end) as [req ign].
  assert (∀ b (x y z : Z), existsb unresolvable (if b : bool then [InsufficientResourceError ResourcePods x y z] else []) = false)
    as Hp by (by intros []).
  destruct (_ && _ && _ && _); intros [= _ <-]; [by apply Hp|].
  rewrite !unresolvable_app, Hp, !check_resource_resolvable. apply bind_resolvable. intros [k v]. unfold check_scalar.
  destruct (_ && _); [done|apply check_resource_resolvable].
Qed.

(** *** Combinations *)

Lemma run_all_failed l pod meta ni : ∀ failed reasons b,
  run_all pod meta ni l failed = (b, reasons, None) →
  b = bool_decide (reasons = []) ∧ (∀ P, P ∈ l → (P pod meta ni).2 = None) ∧
  ∀ r, r ∈ reasons ↔ r ∈ failed ∨ ∃ P rs, P ∈ l ∧ P pod meta ni = (false, rs, None) ∧ r ∈ rs.
Proof.
  induction l as [|P l IH]; intros failed reasons b; cbn [run_all].
  - unfold fits_unless. intros [= <- <-]. split_and!; [|by intros P ?%not_elem_of_nil|].
    + apply bool_decide_ext. destruct failed; simpl; by split.
    + intros r. split; [by left|]. intros [?|(P & rs & ?%not_elem_of_nil & _)]; done.
  - destruct (P pod meta ni) as [[fit rs] [err|]] eqn:EP; [done|]. intros (E1 & E2 & E3)%IH. split_and!; [done| |].
    + intros Q [->|HQ]%elem_of_cons; [by rewrite EP|by apply E2].
    + intros r. rewrite E3. setoid_rewrite elem_of_cons. destruct fit; cbn [negb].
      * split; [intros [?|(Q & rs' & ? & ? & ?)]; [by left|right; exists Q, rs'; auto]|].
        intros [?|(Q & rs' & [->|?] & ? & ?)]; [by left|congruence|right; by exists Q, rs'].
      * rewrite elem_of_app. split.
        -- intros [[?|?]|(Q & rs' & ? & ? & ?)]; [by left|right; exists P, rs; auto|right; exists Q, rs'; auto].
        -- intros [?|(Q & rs' & [->|?] & EQ & ?)]; [auto|rewrite EP in EQ; injection EQ as ->; auto|right; by exists Q, rs'].
Qed.

Lemma existsb_elem (f : PredicateFailureReason → bool) l : existsb f l = true ↔ ∃ r, r ∈ l ∧ f r = true.
Proof. rewrite existsb_exists. by setoid_rewrite <-list_elem_of_In. Qed.

Lemma run_all_hopeless l : Forall hopeless l → hopeless (λ pod meta ni, run_all pod meta ni l []).
Proof.
  intros Hl pod meta info reasons meta' info' (_ & _ & Hr)%run_all_failed (r & Hin & Hu)%existsb_elem Hb Hf.
  apply Hr in Hin as [?%not_elem_of_nil|(P & rs & HP & EP & Hin)]; [done|].
  destruct (run_all pod meta' (Some info') l []) as [[b rs'] [err|]] eqn:E; [by left|]. right. exists rs'.
  apply run_all_failed in E as (-> & Herr & Hr'). rewrite Forall_forall in Hl.
  destruct (Hl P HP pod meta info rs meta' info') as [He|(rs2 & E2 & Hne)]; try done.
  { apply existsb_elem. by exists r. }
  { by destruct (He (Herr P HP)). }
  assert (rs' ≠ []) as Hrs'.
  { destruct rs2 as [|r2 rs2]; [done|]. intros ->. apply (not_elem_of_nil r2), Hr'. right. exists P, (r2 :: rs2).
    split_and!; [done|done|by left]. }
  by rewrite bool_decide_false.
Qed.

Lemma pod_predicates_hopeless P : P ∈ pod_predicates → hopeless P.
Proof.
  assert (hopeless PodFitsResources) as H1 by (apply resolvable_hopeless, PodFitsResources_resolvable).
  assert (hopeless PodFitsHostPorts) as H2.
  { apply resolvable_hopeless. unfold PodFitsHostPorts. intros pod meta info reasons. repeat case_match; try done; by intros [= <-]. }
  assert (∀ P, P ∈ [PodFitsHost; PodMatchNodeSelector] → hopeless P) as H3.
  { intros Q HQ. apply (node_predicates_hopeless [] true). unfold node_predicates. set_solver. }
  assert (hopeless noncriticalPredicates) as H4 by (apply (run_all_hopeless [_]); auto).
  assert (hopeless EssentialPredicates) as H5.
  { apply (run_all_hopeless [_; _; _]). rewrite !Forall_cons, Forall_nil. split_and!; [|done| |done]; apply H3; set_solver. }
  assert (hopeless GeneralPredicates) as H6 by (apply (run_all_hopeless [_; _]); auto).
  unfold pod_predicates. rewrite !elem_of_cons, elem_of_nil. intros HP. by destruct_or! HP; subst.
Qed.

(** *** The whole check *)

Definition standard_funcs labels presence (funcs : gmap string (FitPredicate predicateMetadata)) : Prop :=
  ∀ key P, funcs !! key = Some P → P ∈ node_predicates labels presence ++ pod_predicates.

Lemma standard_hopeless labels presence funcs key P :
  standard_funcs labels presence funcs → funcs !! key = Some P → hopeless P.
Proof.
  intros Hs HP%Hs. apply elem_of_app in HP as [?|?]; [by eapply node_predicates_hopeless|by apply pod_predicates_hopeless].
Qed.

Lemma run_predicates_failed pod meta ni funcs always ordering : ∀ failed reasons,
  run_predicates pod meta ni funcs always ordering failed = inr reasons →
  (∀ r, r ∈ reasons → r ∈ failed ∨ ∃ key P rs, key ∈ ordering ∧ funcs !! key = Some P ∧ P pod meta ni = (false, rs, None) ∧ r ∈ rs) ∧
  (always = true → failed ⊆ reasons ∧ ∀ key P, key ∈ ordering → funcs !! key = Some P →
     ∃ b rs, P pod meta ni = (b, rs, None) ∧ (b = false → rs ⊆ reasons)).
Proof.
  induction ordering as [|key ordering IH]; intros failed reasons; cbn [run_predicates].
  { intros [= <-]. split; [by left|]. intros _. split; [done|]. by intros key P ?%not_elem_of_nil. }
  destruct (funcs !! key) as [P|] eqn:EP.
  - destruct (P pod meta ni) as [[fit rs] [err|]] eqn:E; [done|]. destruct fit; cbn [negb].
    + intros [H1 H2]%IH. split.
      * intros r [?|(k & Q & rs' & ? & ? & ?)]%H1; [by left|]. right. exists k, Q, rs'. rewrite elem_of_cons. auto.
      * intros [H3 H4]%H2. split; [done|]. intros k Q [->|Hk]%elem_of_cons EQ; [|by apply (H4 k)].
        injection (eq_trans (eq_sym EP) EQ) as <-. by exists true, rs.
    + destruct always; cbn [negb].
      * intros [H1 H2]%IH. split.
        -- intros r [Hr|(k & Q & rs' & ? & ? & ?)]%H1; [apply elem_of_app in Hr as [?|?]; [by left|]|];
             right; [exists key, P, rs|exists k, Q, rs']; rewrite elem_of_cons; auto.
        -- intros _. destruct H2 as [H3 H4]; [done|]. split; [set_solver|]. intros k Q [->|Hk]%elem_of_cons EQ; [|by apply (H4 k)].
           injection (eq_trans (eq_sym EP) EQ) as <-. exists false, rs. split; [done|]. set_solver.
      * intros [= <-]. split; [|done]. intros r [?|?]%elem_of_app; [by left|]. right. exists key, P, rs.
        rewrite elem_of_cons. auto.
  - intros [H1 H2]%IH. split.
    + intros r [?|(k & Q & rs' & ? & ? & ?)]%H1; [by left|]. right. exists k, Q, rs'. rewrite elem_of_cons. auto.
    + intros [H3 H4]%H2. split; [done|]. intros k Q [->|Hk]%elem_of_cons EQ; [discriminate (eq_trans (eq_sym EP) EQ)|by apply (H4 k)].
Qed.

Lemma AddPod_best_effort pod m p info : best_effort pod (Some (predicateMetadata_AddPod m p info).1) = best_effort pod (Some m).
Proof. unfold predicateMetadata_AddPod. repeat case_match; done. Qed.

Context {Q : Type} {Queue : SchedulingPoolQueue Q}.

(** *** A failure gives a reason *)

Definition explains P : Prop := ∀ pod meta ni reasons, P pod meta ni = (false, reasons, None) → reasons ≠ [].

Lemma run_all_explains l : explains (λ pod meta ni, run_all pod meta ni l []).
Proof. intros pod meta ni reasons (E & _)%run_all_failed. by apply eq_sym, bool_decide_eq_false in E. Qed.

Lemma predicate_explains labels presence c P :
  P ∈ InterPodAffinityMatches c :: node_predicates labels presence ++ pod_predicates → explains P.
Proof.
  assert (∀ l reasons, fits_unless l = (false, reasons, None) → reasons ≠ []) as Hunless.
  { intros l reasons. unfold fits_unless. intros [= E <-]. apply bool_decide_eq_false in E. by intros ->. }
  rewrite elem_of_cons, elem_of_app. intros [->|[HP|HP]] pod meta ni reasons.
  - unfold InterPodAffinityMatches. repeat case_match; try done; by intros [= <-].
  - node_cases HP; repeat case_match; try done; try (by intros [= <-]); apply Hunless.
  - unfold pod_predicates in HP. rewrite !elem_of_cons, elem_of_nil in HP. destruct_or! HP; try done; subst.
    + unfold PodFitsResources. repeat case_match; try done; apply Hunless.
    + unfold PodFitsHostPorts. repeat case_match; try done; by intros [= <-].
    + apply (run_all_explains [_]).
    + apply (run_all_explains [_; _; _]).
    + apply (run_all_explains [_; _]).
Qed.

(** What the verdict on a node asks of the predicates holds of these. *)
Lemma predicates_give_reasons labels presence c (funcs : gmap string (FitPredicate predicateMetadata)) :
  (∀ key P, funcs !! key = Some P → P ∈ InterPodAffinityMatches c :: node_predicates labels presence ++ pod_predicates) →
  gives_reasons funcs.
Proof. intros Hf key P pod meta ni reasons HP. apply (predicate_explains labels presence c P). by apply (Hf key). Qed.

(** The nominated pods change neither the node nor what is known of the pod. *)
Lemma addNominatedPods_frame gen pod meta info (queue : Q) :
  ∃ info', (addNominatedPods gen pod meta (Some info) queue).2 = Some info' ∧ frame info' = frame info ∧
    best_effort pod (addNominatedPods gen pod meta (Some info) queue).1.2 = best_effort pod meta.
Proof.
  unfold addNominatedPods. destruct (ni_node info) as [node|]; [|by exists info]. cbv zeta.
  destruct (bool_decide _); [by exists info|].
  set (l := spq_NominatedPodsForNode queue (node_Name node)).
  assert (∀ s : Z * NodeInfo * option predicateMetadata,
    let s' := foldl (λ (s : Z * NodeInfo * option predicateMetadata) p, let '(gen, info, meta) := s in
        if (GetPodPriority pod <=? GetPodPriority p) && negb (bool_decide (pod_UID p = pod_UID pod)) then
          let '(gen, info) := NodeInfo_AddPod gen info p in (gen, info, (λ m, meta_AddPod m p info) <$> meta)
        else s) s l in
    frame s'.1.2 = frame s.1.2 ∧ best_effort pod s'.2 = best_effort pod s.2) as Hfold.
  { induction l as [|p l IH]; intros [[g i] mt]; cbn [foldl]; [done|].
    destruct ((_ <=? _) && _); [|apply IH]. pose proof (AddPod_frame g i p) as Ef.
    destruct (NodeInfo_AddPod g i p) as [g' i']. destruct (IH (g', i', (λ m, meta_AddPod m p i') <$> mt)) as [-> ->].
    split; [done|]. destruct mt as [m|]; [|done]. apply AddPod_best_effort. }
  destruct (Hfold (gen, NodeInfo_Clone info, meta_ShallowCopy <$> meta)) as [Hf Hb]. clear Hfold.
  destruct (foldl _ _ l) as [[g i] mt]. exists i. cbn [fst snd] in *. rewrite NodeInfo_Clone_id in Hf.
  split_and!; [done|done|]. rewrite Hb. by destruct meta.
Qed.

(** The reasons of a failed check are those of one pass. *)
Lemma podFits_failed gen pod meta info funcs ordering (queue : Q) always reasons :
  podFitsOnNode gen pod meta (Some info) funcs ordering queue always = (false, reasons, None) →
  ∃ meta1 info1, frame info1 = frame info ∧ best_effort pod meta1 = best_effort pod meta ∧
    run_predicates pod meta1 (Some info1) funcs always ordering [] = inr reasons.
Proof.
  unfold podFitsOnNode. destruct (addNominatedPods_frame gen pod meta info queue) as (info1 & E1 & Hf & Hb).
  destruct (addNominatedPods gen pod meta (Some info) queue) as [[added meta1] ni1]. cbn [fst snd] in *. subst ni1.
  destruct (run_predicates pod meta1 (Some info1) funcs always ordering []) as [err|failed] eqn:E; [done|].
  destruct (negb added || negb (bool_decide (length failed = O))) eqn:Ea.
  { intros [= _ <-]. by exists meta1, info1. }
  apply orb_false_iff in Ea as [_ Ef%negb_false_iff%bool_decide_eq_true%nil_length_inv]. subst failed.
  destruct (run_predicates pod meta (Some info) funcs always ordering []) as [err|failed] eqn:E'; [done|].
  intros [= _ <-]. by exists meta, info.
Qed.

End reasons.

(** ** Concrete clusters *)
Module PredicateExample.
#[local] Existing Instance docK8s.
#[local] Existing Instance docK8s_laws.
#[local] Existing Instance stdRange.

(** Selectors on labels, the pods without requests as best effort, and taints by key and effect. *)
#[local] Instance docMetadata : MetadataLib := {|
  AsSelector s := MkSelector (doc_matches (MkLabelSelector s [])) (bool_decide (s = ∅));
  Everything := MkSelector (λ _, true) true;
  GetPodQOS p := if forallb (λ c, bool_decide (size (Requests c) = O)) (pod_Containers p) then PodQOSBestEffort else "Burstable"%string
|}.
#[local] Instance docPredicates : PredicateLib := {|
  IsExtendedResourceName r := negb (no_char "/"%char r);
  MatchNodeSelectorTerms terms labels _ :=
    existsb (λ t, doc_matches (MkLabelSelector ∅
      ((λ r, MkLabelSelectorRequirement (nsr_Key r) (nsr_Operator r) (nsr_Values r)) <$> MatchExpressions t)) labels) terms;
  TolerationsTolerateTaint tolerations taint := existsb (λ t, bool_decide (tol_Key t = taint_Key taint)) tolerations;
  TolerationsTolerateTaintsWithFilter tolerations taints filter :=
    forallb (λ taint, negb (filter taint) || existsb (λ t, bool_decide (tol_Key t = taint_Key taint)) tolerations) taints
|}.
#[local] Instance list_queue : SchedulingPoolQueue (list Pod) :=
  {| spq_NominatedPodsForNode q _ := q; spq_GetPoolQueueNameIfNotPresent _ p := GetPodAnnotationsPoolName (Some p) |}.

Definition mkNode (name : string) (labels : gmap string string) : Node :=
  let res : ResourceList := {[ResourceCPU := NewMilliQuantity 4000; ResourcePods := NewQuantity 10]} in
  MkNode (MkObjectMeta name EmptyString EmptyString EmptyString 0 labels ∅ 0 None 0) [] false res res [] [] 0.
Definition app (name : string) : gmap string string := {["app"%string := name]}.
Definition mkPod (name node : string) (labels : gmap string string) (affinity : option Affinity) (cpu : Z) : Pod :=
  MkPod (MkObjectMeta name "default" ("uid-" +:+ name) EmptyString 0 labels ∅ 0 None 0)
    (MkPodSpec node "ai-scheduler" None
       [MkContainer EmptyString {[ResourceCPU := NewMilliQuantity cpu]} ∅ []] [] affinity ∅ [] [] 0)
    (MkPodStatus EmptyString [] 0).
Definition mkInfo (node : Node) (pods : list Pod) : NodeInfo :=
  (NodeInfo_SetNode 9 (foldl (λ i p, (NodeInfo_AddPod 1 i p).2) (NewNodeInfo 0 []).2 pods) node).2.
Definition term (appName key : string) : PodAffinityTerm := MkPodAffinityTerm (Some (MkLabelSelector (app appName) [])) [] key.
Definition anti (terms : list PodAffinityTerm) : option Affinity := Some (MkAffinity None None (Some (MkPodAffinity terms []))).
Definition near (terms : list PodAffinityTerm) : option Affinity := Some (MkAffinity None (Some (MkPodAffinity terms [])) None).
(** A lister of the nodes and pods of the cluster. *)
Definition lister (nodes : list Node) (pods : list Pod) : PodAffinityChecker :=
  MkPodAffinityChecker
    (λ name, match list_find (λ n, node_Name n = name) nodes with Some (_, n) => inr n | None => inl (true, "not found"%string) end)
    (λ f, inr (List.filter f pods)).

Definition n1 : Node := mkNode "n1" {["zone" := "z1"; "rack" := "r1"]}%string.
Definition n2 : Node := mkNode "n2" {["zone" := "z2"; "rack" := "r1"]}%string.
Definition web : Pod := mkPod "web" "n1" (app "web") None 500.
Definition web2 : Pod := mkPod "web2" "n2" (app "web") None 500.
Definition info1 : NodeInfo := mkInfo n1 [web].
Definition cluster : gmap string NodeInfo := {["n1" := info1; "n2" := mkInfo n2 []]}%string.
(** A pod that keeps away from "web" in its zone. *)
Definition shy : Pod := mkPod "shy" "" (app "web") (anti [term "web" "zone"]) 3500.

Lemma info1_inv : NodeInfo_inv info1.
Proof. apply SetNode_inv, AddPod_inv; [apply NewNodeInfo_empty_inv|done|apply not_elem_of_nil]. Qed.

Lemma no_overcommit_witness :
  amount DCPU (ni_requestedResource (NodeInfo_AddPod 5 info1 shy).2) = 4000 ∧
  ∀ d, amount d (ni_requestedResource (NodeInfo_AddPod 5 info1 shy).2) <= amount d (ni_allocatableResource info1) ∨
    amount d (ni_requestedResource (NodeInfo_AddPod 5 info1 shy).2) = amount d (ni_requestedResource info1).
Proof.
  split; [vm_compute; reflexivity|].
  assert (∀ d, in_range shy info1 d) as Hr by (intros [| | |k]; vm_compute; split_and!; intros [=]).
  destruct (no_overcommit 5 shy None info1 info1_inv) as [_ Hd]; [done|exact Hr|vm_compute; reflexivity|].
  intros d. apply (Hd d). by intros (m & s & k & [=] & _).
Defined.

Lemma cluster_inv name info : cluster !! name = Some info → NodeInfo_inv info.
Proof.
  unfold cluster. rewrite lookup_insert_Some, lookup_singleton_Some. intros [[_ <-]|[_ [_ <-]]]; [apply info1_inv|].
  apply SetNode_inv, NewNodeInfo_empty_inv.
Qed.

Definition shy_meta : predicateMetadata := default (MkPredicateMetadata shy false emptyResource []
  newTopologyPairsMaps newTopologyPairsMaps newTopologyPairsMaps false None None None) (GetMetadata [] shy cluster).
(** "web" is evicted from "n1" and "web2" is placed on "n2". *)
Definition shy_ops : list meta_op := [MRemove web; MAdd web2 (mkInfo n2 [web2]) n2].
Definition here : PodAffinityChecker := lister [n1; n2] [web].

Lemma shy_terms p : p = shy ∨ p = web2 → valid_terms (GetPodAffinityTerms (PodAffinity_of p)) ∧ valid_terms (GetPodAntiAffinityTerms (PodAntiAffinity_of p)).
Proof.
  intros [->| ->]; (split; [by intros t ?%not_elem_of_nil|]); intros t Ht; [|by apply not_elem_of_nil in Ht].
  apply list_elem_of_singleton in Ht. subst t. by eexists.
Qed.

Lemma shy_legal : meta_legals shy (snapshot_at cluster) shy_ops.
Proof.
  assert (∀ n p, snapshot_at cluster n p → p = web) as Honly.
  { intros n p (name & info & Hl & _ & Hp). revert Hl Hp. unfold cluster.
    rewrite lookup_insert_Some, lookup_singleton_Some. intros [[_ <-]|[_ [_ <-]]]; [|by intros ?%not_elem_of_nil].
    change (p ∈ [web] → p = web). by intros ?%list_elem_of_singleton. }
  split; [|split; [|done]]; cbn [meta_legal].
  - split; [done|]. intros n p Hp _. by apply (Honly n).
  - split; [|done]. split.
    + apply shy_terms. by right.
    + done.
    + done.
    + apply shy_terms. by left.
    + intros t t'. intros Ht Ht'. apply list_elem_of_singleton in Ht, Ht'. by subst.
Qed.


Definition funcs : gmap string (FitPredicate predicateMetadata) :=
  {["GeneralPredicates" := GeneralPredicates; "CheckNodeUnschedulable" := CheckNodeUnschedulablePredicate]}%string.
Definition ordering : list string := ["CheckNodeUnschedulable"; "GeneralPredicates"]%string.
(** A pod for another host, and one that is too big for the node. *)
Definition elsewhere : Pod := mkPod "elsewhere" "n9" ∅ None 3900.
Definition big : Pod := mkPod "big" "" ∅ None 3900.

Lemma funcs_standard : standard_funcs [] true funcs.
Proof.
  intros key P. unfold funcs. rewrite lookup_insert_Some, lookup_singleton_Some. unfold node_predicates, pod_predicates.
  intros [[_ <-]|[_ [_ <-]]]; set_solver.
Qed.


(** *** Where the pieces disagree *)

(** [AddPod] enters the pairs of all anti-affinity terms of the pod if one of them matches;
    [GetMetadata] only those of the terms that match.  The pod minds "web" in its zone and
    "db" in its rack; "web" in the rack of "n2" but in another zone is no obstacle
    if it was there from the start, and is one if it was added. *)
Definition picky : Pod := mkPod "picky" "" ∅ (anti [term "web" "zone"; term "db" "rack"]) 100.
Example AddPod_extra_pairs :
  let empty : gmap string NodeInfo := {["n1" := mkInfo n1 []; "n2" := mkInfo n2 []]}%string in
  (λ m, (InterPodAffinityMatches here picky (Some m) (Some (mkInfo n2 []))).1.1) <$> GetMetadata [] picky cluster = Some true ∧
  (λ m, (InterPodAffinityMatches here picky (Some (meta_AddPod m web info1)) (Some (mkInfo n2 []))).1.1)
    <$> GetMetadata [] picky empty = Some false.
Proof. vm_compute. done. Qed.

(** A nominated pod has no node name yet, so the anti-affinity of the pod ignores it: the
    pod fits next to a pod that it minds and that must go first. *)
Definition nominated : Pod := mkPod "nominated" "" (app "web") None 100.
Example nominated_antiaffinity_ignored :
  let free := mkInfo n1 [] in
  let fit queue := (λ m, (podFitsOnNode 9 shy (Some m) (Some free) {["MatchInterPodAffinity"%string := InterPodAffinityMatches here]}
    ["MatchInterPodAffinity"%string] queue false).1.1) <$> GetMetadata [] shy {["n1"%string := free]} in
  fit [nominated] = Some true ∧ fit [web] = Some false.
Proof. vm_compute. done. Qed.

(** The check without metadata fails only if a pod matches all anti-affinity terms, the
    check with metadata if it matches one. *)
Example paths_disagree :
  let infos := cluster in
  (InterPodAffinityMatches here picky None (Some info1)).1.1 = true ∧
  (InterPodAffinityMatches here picky (GetMetadata [] picky infos) (Some info1)).1.1 = false.
Proof. vm_compute. done. Qed.

(** A failure of the affinity rules can be resolved: the pod wants to be near "web" in zone
    and floor, but its node has no floor; without "web" it is the first of its kind and fits. *)
Definition first : Pod := mkPod "first" "" (app "web") (near [term "web" "zone"; term "web" "floor"]) 100.
Example affinity_failure_resolvable :
  let m := GetMetadata [] first cluster in
  InterPodAffinityMatches here first m (Some info1) = (false, [ErrPodAffinityNotMatch; ErrPodAffinityRulesNotMatch], None) ∧
  unresolvable ErrPodAffinityRulesNotMatch = true ∧
  InterPodAffinityMatches here first ((λ m, meta_RemovePod m web) <$> m) (Some (mkInfo n1 [])) = (true, [], None).
Proof. vm_compute. done. Qed.
End PredicateExample.
