(* ===== verification/VolumePredicates.v ===== *)
(** * Predicates on volumes and services
    (src/pkg/scheduler/algorithm/predicates/predicates.go, csi_volume_predicate.go, utils.go)

    Disks that cannot be shared, the number of volumes that can be attached to a node, the
    zones of volumes, the binding of volumes, and the affinity of the pods of a service.
    Claims, volumes and storage classes are found through listers, which are arguments; so
    are the volume binder, the feature gates and the constants of the volume utilities of
    Kubernetes. *)
From S2P Require Import Prelude Heap Api Util Resource HostPorts NodeInfo SchedulingQueue Predicates Metadata PredicateFuncs.
From Stdlib Require Import Ascii.

(** ** Conflicts between disks *)

Definition haveOverlap (a1 a2 : list string) : bool :=
  let m : gset string := foldl (λ m val, {[ val ]} ∪ m) ∅ a1 in existsb (λ val, bool_decide (val ∈ m)) a2.

(** [volume.X != nil && existingVolume.X != nil] and the test on the two. *)
Definition both {A} (x y : option A) (f : A → A → bool) : bool :=
  match x, y with Some x, Some y => f x y | _, _ => false end.
(** The same name, unless both are read-only. *)
Definition same_disk (disk existingDisk : DiskSource) : bool :=
  bool_decide (disk_Name disk = disk_Name existingDisk) && negb (disk_ReadOnly disk && disk_ReadOnly existingDisk).
Definition same_image (rbd existing : RBDVolumeSource) : bool :=
  haveOverlap (CephMonitors rbd) (CephMonitors existing) && bool_decide (RBDPool rbd = RBDPool existing) &&
  bool_decide (RBDImage rbd = RBDImage existing) && negb (rbd_ReadOnly rbd && rbd_ReadOnly existing).

Definition volumes_conflict (volume existingVolume : Volume) : bool :=
  both (GCEPersistentDisk volume) (GCEPersistentDisk existingVolume) same_disk ||
  both (AWSElasticBlockStore volume) (AWSElasticBlockStore existingVolume) (λ a b, bool_decide (a = b)) ||
  both (ISCSI volume) (ISCSI existingVolume) same_disk ||
  both (RBD volume) (RBD existingVolume) same_image.
Definition isVolumeConflict (volume : Volume) (pod : Pod) : bool :=
  if negb (bool_decide (is_Some (GCEPersistentDisk volume))) && negb (bool_decide (is_Some (AWSElasticBlockStore volume))) &&
     negb (bool_decide (is_Some (RBD volume))) && negb (bool_decide (is_Some (ISCSI volume))) then false
  else existsb (volumes_conflict volume) (Volumes (pod_Spec pod)).

Definition NoDiskConflict : FitPredicate predicateMetadata := λ pod _ nodeInfo,
  if existsb (λ v, existsb (isVolumeConflict v) (NodeInfo_Pods nodeInfo)) (Volumes (pod_Spec pod))
  then fails ErrDiskConflict else fits_node.

(** ** Claims and volumes *)

Record CSIPersistentVolumeSource := MkCSISource { csi_Driver : string; csi_VolumeHandle : string }.
(** core/v1.PersistentVolume: the labels and the sources, as in [Volume]. *)
Record PersistentVolume := MkPersistentVolume {
  pv_Labels : gmap string string;
  pv_GCEPersistentDisk : option DiskSource;
  pv_AWSElasticBlockStore : option string;
  pv_AzureDisk : option string;
  pv_Cinder : option string;
  pv_CSI : option CSIPersistentVolumeSource
}.
(** core/v1.PersistentVolumeClaim: the name of the volume and the class that the
    helper GetPersistentVolumeClaimClass finds. *)
Record Claim := MkClaim { VolumeName : string; GetPersistentVolumeClaimClass : string }.
(** storage/v1.StorageClass *)
Record StorageClass := MkStorageClass { VolumeBindingMode : option string }.
Definition VolumeBindingWaitForFirstConsumer : string := "WaitForFirstConsumer".

(** The listers; they may return nil without an error. *)
Definition PersistentVolumeInfo : Type := string → error + option PersistentVolume.
Definition PersistentVolumeClaimInfo : Type := string → string → error + option Claim.
Definition StorageClassInfo : Type := string → error + option StorageClass.

(** kubernetes pkg/volume/util, cloud-provider volume/helpers and the feature gates. *)
Class VolumeLib := {
  EBSVolumeLimitKey : string;
  GCEVolumeLimitKey : string;
  AzureVolumeLimitKey : string;
  CinderVolumeLimitKey : string;
  EBSNitroLimitRegex_matches : string → bool;
  DefaultMaxEBSNitroVolumeLimit : Z;
  DefaultMaxEBSVolumes : Z;
  DefaultMaxCinderVolumes : Z;
  GetCSIAttachLimitKey : string → string;
  LabelZonesToSet : string → error + gset string;
  feature_AttachVolumeLimit : bool;
  feature_BalanceAttachedNodeVolumes : bool
}.

(** ** Limits on in-tree volumes *)

Record VolumeFilter := MkVolumeFilter {
  FilterVolume : Volume → option string;
  FilterPersistentVolume : PersistentVolume → option string
}.
Definition EBSVolumeFilter : VolumeFilter := MkVolumeFilter AWSElasticBlockStore pv_AWSElasticBlockStore.
Definition GCEPDVolumeFilter : VolumeFilter :=
  MkVolumeFilter (λ vol, disk_Name <$> GCEPersistentDisk vol) (λ pv, disk_Name <$> pv_GCEPersistentDisk pv).
Definition AzureDiskVolumeFilter : VolumeFilter := MkVolumeFilter AzureDisk pv_AzureDisk.
Definition CinderVolumeFilter : VolumeFilter := MkVolumeFilter Cinder pv_Cinder.

Definition DefaultMaxGCEPDVolumes : Z := 16.
Definition DefaultMaxAzureDiskVolumes : Z := 16.
Definition KubeMaxPDVols : string := "KUBE_MAX_PD_VOLS".
Definition EBSVolumeFilterType : string := "EBS".
Definition GCEPDVolumeFilterType : string := "GCE".
Definition AzureDiskVolumeFilterType : string := "AzureDisk".
Definition CinderVolumeFilterType : string := "Cinder".
Definition LabelInstanceType : string := "beta.kubernetes.io/instance-type".
Definition LabelZoneFailureDomain : string := "failure-domain.beta.kubernetes.io/zone".
Definition LabelZoneRegion : string := "failure-domain.beta.kubernetes.io/region".

(** strconv.Atoi: an optional sign and decimal digits, in the range of int. *)
Fixpoint parse_digits (s : string) (acc : Z) : option Z :=
  match s with
  | EmptyString => Some acc
  | String c s =>
      let d := Z.of_nat (nat_of_ascii c) - 48 in
      if (0 <=? d) && (d <=? 9) then parse_digits s (acc * 10 + d) else None
  end.
Definition Atoi (s : string) : option Z :=
  let '(sign, digits) :=
    match s with
    | String c rest => if bool_decide (c = "+"%char) then (1, rest) else if bool_decide (c = "-"%char) then (-1, rest) else (1, s)
    | EmptyString => (1, s)
    end in
  if bool_decide (digits = EmptyString) then None
  else n ← parse_digits digits 0; let v := sign * n in if bool_decide (int64 v) then Some v else None.

(** [os.Getenv] is an argument. *)
Definition getMaxVolLimitFromEnv (Getenv : string → string) : Z :=
  let rawMaxVols := Getenv KubeMaxPDVols in
  if negb (bool_decide (rawMaxVols = EmptyString)) then
    match Atoi rawMaxVols with
    | None => -1
    | Some parsedMaxVols => if parsedMaxVols <=? 0 then -1 else parsedMaxVols
    end
  else -1.

Section volumes.
Context `{K8sLib} `{MapRange} `{MetadataLib} `{PredicateLib} `{VolumeLib}.
Implicit Types (pod : Pod) (nodeInfo : option NodeInfo) (node : Node).

Definition getMaxEBSVolume (nodeInstanceType : string) : Z :=
  if EBSNitroLimitRegex_matches nodeInstanceType then DefaultMaxEBSNitroVolumeLimit else DefaultMaxEBSVolumes.

(** Reading the labels of a nil node panics. *)
Definition getMaxVolumeFunc (Getenv : string → string) (filterName : string) (node : option Node) : comp Z :=
  let maxVolumesFromEnv := getMaxVolLimitFromEnv Getenv in
  if 0 <? maxVolumesFromEnv then Some maxVolumesFromEnv
  else
    node ← node;
    let nodeInstanceType := default EmptyString (node_Labels node !! LabelInstanceType) in
    Some (if bool_decide (filterName = EBSVolumeFilterType) then getMaxEBSVolume nodeInstanceType
          else if bool_decide (filterName = GCEPDVolumeFilterType) then DefaultMaxGCEPDVolumes
          else if bool_decide (filterName = AzureDiskVolumeFilterType) then DefaultMaxAzureDiskVolumes
          else if bool_decide (filterName = CinderVolumeFilterType) then DefaultMaxCinderVolumes
          else -1).

Record MaxPDVolumeCountChecker := MkMaxPDVolumeCountChecker {
  pdc_filter : VolumeFilter;
  pdc_volumeLimitKey : string;
  pdc_maxVolumeFunc : option Node → comp Z;
  pdc_pvInfo : PersistentVolumeInfo;
  pdc_pvcInfo : PersistentVolumeClaimInfo;
  randomVolumeIDPrefix : string
}.

(** The random prefix is an argument; the process ends on another filter name. *)
Definition NewMaxPDVolumeCountPredicate (Getenv : string → string) (prefix filterName : string)
    (pvInfo : PersistentVolumeInfo) (pvcInfo : PersistentVolumeClaimInfo) : comp MaxPDVolumeCountChecker :=
  let checker filter key := MkMaxPDVolumeCountChecker filter key (getMaxVolumeFunc Getenv filterName) pvInfo pvcInfo prefix in
  if bool_decide (filterName = EBSVolumeFilterType) then Some (checker EBSVolumeFilter EBSVolumeLimitKey)
  else if bool_decide (filterName = GCEPDVolumeFilterType) then Some (checker GCEPDVolumeFilter GCEVolumeLimitKey)
  else if bool_decide (filterName = AzureDiskVolumeFilterType) then Some (checker AzureDiskVolumeFilter AzureVolumeLimitKey)
  else if bool_decide (filterName = CinderVolumeFilterType) then Some (checker CinderVolumeFilter CinderVolumeLimitKey)
  else None.
Implicit Type c : MaxPDVolumeCountChecker.

(** The id that stands for a claim whose volume is not known. *)
Definition claim_id c (namespace pvcName : string) : string :=
  (randomVolumeIDPrefix c +:+ "-" +:+ namespace +:+ "/" +:+ pvcName)%string.

(** The id that a volume adds to the set, if any. *)
Definition volume_id c (namespace : string) (vol : Volume) : error + option string :=
  match FilterVolume (pdc_filter c) vol with
  | Some id => inr (Some id)
  | None =>
      match PersistentVolumeClaim vol with
      | None => inr None
      | Some pvcName =>
          if bool_decide (pvcName = EmptyString) then inl "PersistentVolumeClaim had no name"%string
          else
            let pvID := claim_id c namespace pvcName in
            match pdc_pvcInfo c namespace pvcName with
            | inl _ | inr None => inr (Some pvID)
            | inr (Some pvc) =>
                if bool_decide (VolumeName pvc = EmptyString) then inr (Some pvID)
                else
                  match pdc_pvInfo c (VolumeName pvc) with
                  | inl _ | inr None => inr (Some pvID)
                  | inr (Some pv) => inr (FilterPersistentVolume (pdc_filter c) pv)
                  end
            end
      end
  end.
Fixpoint filterVolumes c (volumes : list Volume) (namespace : string) (filteredVolumes : gset string) : error + gset string :=
  match volumes with
  | [] => inr filteredVolumes
  | vol :: volumes =>
      match volume_id c namespace vol with
      | inl err => inl err
      | inr (Some id) => filterVolumes c volumes namespace ({[ id ]} ∪ filteredVolumes)
      | inr None => filterVolumes c volumes namespace filteredVolumes
      end
  end.
Fixpoint filterVolumes_pods c (pods : list Pod) (filteredVolumes : gset string) : error + gset string :=
  match pods with
  | [] => inr filteredVolumes
  | existingPod :: pods =>
      match filterVolumes c (Volumes (pod_Spec existingPod)) (pod_Namespace existingPod) filteredVolumes with
      | inl err => inl err
      | inr filteredVolumes => filterVolumes_pods c pods filteredVolumes
      end
  end.

(** The verdict, and the transient information that it leaves in the node, if any. *)
Definition MaxPDVolumeCount_predicate c pod nodeInfo : comp (verdict_of * option nodeTransientInfo) :=
  if bool_decide (length (Volumes (pod_Spec pod)) = O) then Some (fits_node, None)
  else
  match filterVolumes c (Volumes (pod_Spec pod)) (pod_Namespace pod) ∅ with
  | inl err => Some ((false, [], Some err), None)
  | inr newVolumes =>
      if bool_decide (size newVolumes = O) then Some (fits_node, None)
      else
      match filterVolumes_pods c (NodeInfo_Pods nodeInfo) ∅ with
      | inl err => Some ((false, [], Some err), None)
      | inr existingVolumes =>
          let numExistingVolumes := Z.of_nat (size existingVolumes) in
          let newVolumes := newVolumes ∖ existingVolumes in
          let numNewVolumes := Z.of_nat (size newVolumes) in
          maxAttachLimit ← pdc_maxVolumeFunc c (NodeInfo_Node nodeInfo);
          let maxAttachLimit :=
            if feature_AttachVolumeLimit
            then default maxAttachLimit (from_option VolumeLimits ∅ nodeInfo !! pdc_volumeLimitKey c) else maxAttachLimit in
          if maxAttachLimit <? numExistingVolumes + numNewVolumes then Some (fails ErrMaxVolumeCountExceeded, None)
          else
            Some (fits_node,
              if bool_decide (is_Some nodeInfo) && feature_BalanceAttachedNodeVolumes
              then Some (MkNodeTransientInfo (maxAttachLimit - numExistingVolumes) numNewVolumes) else None)
      end
  end.

(** ** Limits on CSI volumes *)

Record CSIMaxVolumeLimitChecker := MkCSIMaxVolumeLimitChecker {
  csic_pvInfo : PersistentVolumeInfo;
  csic_pvcInfo : PersistentVolumeClaimInfo
}.

(** The handle and the limit key of a volume, if it counts. A nil claim or volume without
    an error panics. *)
Definition csi_volume (k : CSIMaxVolumeLimitChecker) (namespace : string) (vol : Volume) :
    comp (error + option (string * string)) :=
  match PersistentVolumeClaim vol with
  | None => Some (inr None)
  | Some pvcName =>
      if bool_decide (pvcName = EmptyString) then Some (inl "PersistentVolumeClaim had no name"%string)
      else
      match csic_pvcInfo k namespace pvcName with
      | inl _ => Some (inr None)
      | inr pvc =>
          pvc ← pvc;
          if bool_decide (VolumeName pvc = EmptyString) then Some (inr None)
          else
          match csic_pvInfo k (VolumeName pvc) with
          | inl _ => Some (inr None)
          | inr pv =>
              pv ← pv;
              Some (inr ((λ csiSource, (csi_VolumeHandle csiSource, GetCSIAttachLimitKey (csi_Driver csiSource))) <$> pv_CSI pv))
          end
      end
  end.
Fixpoint filterAttachableVolumes (k : CSIMaxVolumeLimitChecker) (volumes : list Volume) (namespace : string)
    (result : gmap string string) : comp (error + gmap string string) :=
  match volumes with
  | [] => Some (inr result)
  | vol :: volumes =>
      r ← csi_volume k namespace vol;
      match r with
      | inl err => Some (inl err)
      | inr None => filterAttachableVolumes k volumes namespace result
      | inr (Some (handle, volumeLimitKey)) => filterAttachableVolumes k volumes namespace (<[handle := volumeLimitKey]> result)
      end
  end.
Fixpoint filterAttachable_pods (k : CSIMaxVolumeLimitChecker) (pods : list Pod) (result : gmap string string) :
    comp (error + gmap string string) :=
  match pods with
  | [] => Some (inr result)
  | existingPod :: pods =>
      r ← filterAttachableVolumes k (Volumes (pod_Spec existingPod)) (pod_Namespace existingPod) result;
      match r with
      | inl err => Some (inl err)
      | inr result => filterAttachable_pods k pods result
      end
  end.

(** [count[key]++] for every volume. *)
Definition count_keys (volumes : gmap string string) : gmap string Z :=
  foldl (λ count e, <[e.2 := at0 count e.2 + 1]> count) ∅ (range volumes).

Definition attachableLimitPredicate (k : CSIMaxVolumeLimitChecker) pod nodeInfo : comp verdict_of :=
  if negb feature_AttachVolumeLimit then Some fits_node
  else if bool_decide (length (Volumes (pod_Spec pod)) = O) then Some fits_node
  else
    let nodeVolumeLimits := from_option VolumeLimits ∅ nodeInfo in
    if bool_decide (size nodeVolumeLimits = O) then Some fits_node
    else
      r ← filterAttachableVolumes k (Volumes (pod_Spec pod)) (pod_Namespace pod) ∅;
      match r with
      | inl err => Some (false, [], Some err)
      | inr newVolumes =>
          if bool_decide (size newVolumes = O) then Some fits_node
          else
            r ← filterAttachable_pods k (NodeInfo_Pods nodeInfo) ∅;
            match r with
            | inl err => Some (false, [], Some err)
            | inr attachedVolumes =>
                let newVolumes := foldl (λ m e, delete e.1 m) newVolumes (range attachedVolumes) in
                let attachedVolumeCount := count_keys attachedVolumes in
                let newVolumeCount := count_keys newVolumes in
                Some (if existsb (λ e : string * Z,
                        match nodeVolumeLimits !! e.1 with
                        | Some maxVolumeLimit => maxVolumeLimit <? at0 attachedVolumeCount e.1 + e.2
                        | None => false
                        end) (range newVolumeCount)
                      then fails ErrMaxVolumeCountExceeded else fits_node)
            end
      end.

(** ** Zones *)

Definition zone_label (e : string * string) : bool :=
  negb (negb (bool_decide (e.1 = LabelZoneFailureDomain)) && negb (bool_decide (e.1 = LabelZoneRegion))).
Definition nodeConstraints_of node : gmap string string :=
  foldl (λ m e, if zone_label e then <[e.1 := e.2]> m else m) ∅ (range (node_Labels node)).
(** The labels of a volume against those of the node; a label that cannot be parsed is ignored. *)
Definition zone_mismatch (nodeConstraints : gmap string string) (e : string * string) : bool :=
  if zone_label e then
    match LabelZonesToSet e.2 with
    | inl _ => false
    | inr volumeVSet => negb (bool_decide (default EmptyString (nodeConstraints !! e.1) ∈ volumeVSet))
    end
  else false.

Record VolumeZoneChecker := MkVolumeZoneChecker {
  vzc_pvInfo : PersistentVolumeInfo;
  vzc_pvcInfo : PersistentVolumeClaimInfo;
  vzc_classInfo : StorageClassInfo
}.

Fixpoint volume_zone_loop (z : VolumeZoneChecker) (namespace : string) (nodeConstraints : gmap string string)
    (volumes : list Volume) : verdict_of :=
  match volumes with
  | [] => fits_node
  | volume :: volumes =>
      match PersistentVolumeClaim volume with
      | None => volume_zone_loop z namespace nodeConstraints volumes
      | Some pvcName =>
          if bool_decide (pvcName = EmptyString) then (false, [], Some "PersistentVolumeClaim had no name"%string)
          else
          match vzc_pvcInfo z namespace pvcName with
          | inl err => (false, [], Some err)
          | inr None => (false, [], Some ("PersistentVolumeClaim was not found: " +:+ quoted pvcName)%string)
          | inr (Some pvc) =>
              if bool_decide (VolumeName pvc = EmptyString) then
                let scName := GetPersistentVolumeClaimClass pvc in
                let not_bound := (false, [], Some ("PersistentVolumeClaim is not bound: " +:+ quoted pvcName)%string) in
                if bool_decide (scName = EmptyString) then not_bound
                else
                match vzc_classInfo z scName with
                | inr (Some class) =>
                    match VolumeBindingMode class with
                    | None => (false, [], Some ("VolumeBindingMode not set for StorageClass " +:+ quoted scName)%string)
                    | Some mode =>
                        if bool_decide (mode = VolumeBindingWaitForFirstConsumer)
                        then volume_zone_loop z namespace nodeConstraints volumes else not_bound
                    end
                | _ => not_bound
                end
              else
              match vzc_pvInfo z (VolumeName pvc) with
              | inl err => (false, [], Some err)
              | inr None => (false, [], Some ("PersistentVolume not found: " +:+ quoted (VolumeName pvc))%string)
              | inr (Some pv) =>
                  if existsb (zone_mismatch nodeConstraints) (range (pv_Labels pv)) then fails ErrVolumeZoneConflict
                  else volume_zone_loop z namespace nodeConstraints volumes
              end
          end
      end
  end.
Definition VolumeZone_predicate (z : VolumeZoneChecker) : FitPredicate predicateMetadata := λ pod _ nodeInfo,
  if bool_decide (length (Volumes (pod_Spec pod)) = O) then fits_node
  else
  match NodeInfo_Node nodeInfo with
  | None => node_not_found
  | Some node =>
      let nodeConstraints := nodeConstraints_of node in
      if bool_decide (size nodeConstraints = O) then fits_node
      else volume_zone_loop z (pod_Namespace pod) nodeConstraints (Volumes (pod_Spec pod))
  end.

(** ** Binding of volumes *)

Definition podHasPVCs pod : bool := existsb (λ vol, bool_decide (is_Some (PersistentVolumeClaim vol))) (Volumes (pod_Spec pod)).

(** [FindPodVolumes] of the binder: whether unbound and bound volumes are satisfied. *)
Definition VolumeBinding_predicate (FindPodVolumes : Pod → Node → error + (bool * bool)) : FitPredicate predicateMetadata :=
  λ pod _ nodeInfo,
  if negb (podHasPVCs pod) then fits_node
  else
  match NodeInfo_Node nodeInfo with
  | None => node_not_found
  | Some node =>
      match FindPodVolumes pod node with
      | inl err => (false, [], Some err)
      | inr (unboundSatisfied, boundSatisfied) =>
          fits_unless ((if negb boundSatisfied then [ErrVolumeNodeConflict] else []) ++
                       (if negb unboundSatisfied then [ErrVolumeBindConflict] else []))
      end
  end.

(** ** Service affinity *)

Definition FindLabelsInSet (labelsToKeep : list string) (selector : gmap string string) : gmap string string :=
  foldl (λ aL l, match selector !! l with Some v => <[l := v]> aL | None => aL end) ∅ labelsToKeep.
Definition AddUnsetLabelsToMap (aL : gmap string string) (labelsToAdd : list string) (labelSet : gmap string string) :
    gmap string string :=
  foldl (λ aL l, if bool_decide (is_Some (aL !! l)) then aL
    else match labelSet !! l with Some v => <[l := v]> aL | None => aL end) aL labelsToAdd.
Definition FilterPodsByNamespace (pods : list Pod) (ns : string) : list Pod :=
  filter (λ nsPod, pod_Namespace nsPod = ns) pods.

(** The listers give a slice besides an error, which is only logged. *)
Record ServiceAffinity := MkServiceAffinity {
  sa_podLister : Selector → list Pod * option error;
  sa_serviceLister : Pod → option (list Service) * option error;
  sa_nodeInfo : string → (bool * error) + Node;
  sa_labels : list string
}.

(** What the producer computes of the pod of the metadata. *)
Definition service_matches (s : ServiceAffinity) pod : option (list Service) * list Pod :=
  let services := (sa_serviceLister s pod).1 in
  let allMatches := (sa_podLister s (CreateSelectorFromLabels (Labels (pod_Meta pod)))).1 in
  (services, FilterPodsByNamespace allMatches (pod_Namespace pod)).
Definition serviceAffinityMetadataProducer (s : ServiceAffinity) (pm : predicateMetadata) : predicateMetadata :=
  let '(services, pods) := service_matches s (pm_pod pm) in set_services pm true (Some pods) services.

Definition checkServiceAffinity (s : ServiceAffinity) : FitPredicate predicateMetadata := λ pod meta nodeInfo,
  let '(services, pods) :=
    match (m ← meta; match serviceAffinityMatchingPodList m, serviceAffinityMatchingPodServices m with
                     | None, None => None
                     | pods, services => Some (default [] services, default [] pods)
                     end) with
    | Some r => r
    | None => let '(services, pods) := service_matches s pod in (default [] services, pods)
    end in
  let filteredPods := from_option (λ n, FilterOutPods n pods) pods nodeInfo in
  match NodeInfo_Node nodeInfo with
  | None => node_not_found
  | Some node =>
      let affinityLabels := FindLabelsInSet (sa_labels s) (NodeSelector (pod_Spec pod)) in
      match (if bool_decide (size affinityLabels < length (sa_labels s))%nat then
               match services, filteredPods with
               | _ :: _, filteredPod :: _ =>
                   match sa_nodeInfo s (pod_NodeName filteredPod) with
                   | inl (_, err) => inl err
                   | inr nodeWithAffinityLabels =>
                       inr (AddUnsetLabelsToMap affinityLabels (sa_labels s) (node_Labels nodeWithAffinityLabels))
                   end
               | _, _ => inr affinityLabels
               end
             else inr affinityLabels) with
      | inl err => (false, [], Some err)
      | inr affinityLabels =>
          if Selector_Matches (CreateSelectorFromLabels affinityLabels) (node_Labels node) then fits_node
          else fails ErrServiceAffinityViolated
      end
  end.
End volumes.
