(* ===== verification/VolumeProofs.v ===== *)
(** * Predicates on ports and volumes: proofs

    A node whose pods were let in by the predicates on ports and disks has no two pods
    that exclude each other, and the number of volumes that are attached to it stays within
    its limits, however the pods share volumes. *)
From S2P Require Import Prelude Heap Api Util Resource HostPorts.
From S2P Require Import NodeInfo SchedulingQueue Predicates Metadata PredicateFuncs VolumePredicates.

(** ** Conflicts *)

(** What two pods on a node may not do: mount a disk that is not read-only for both, or
    the same EBS volume. *)
Definition shares_disk (d e : DiskSource) : Prop :=
  disk_Name d = disk_Name e ∧ ¬ (disk_ReadOnly d = true ∧ disk_ReadOnly e = true).
Definition shares_image (r s : RBDVolumeSource) : Prop :=
  (∃ mon, mon ∈ CephMonitors r ∧ mon ∈ CephMonitors s) ∧ RBDPool r = RBDPool s ∧ RBDImage r = RBDImage s ∧
  ¬ (rbd_ReadOnly r = true ∧ rbd_ReadOnly s = true).
Definition conflict (v w : Volume) : Prop :=
  (∃ d e, GCEPersistentDisk v = Some d ∧ GCEPersistentDisk w = Some e ∧ shares_disk d e) ∨
  (∃ id, AWSElasticBlockStore v = Some id ∧ AWSElasticBlockStore w = Some id) ∨
  (∃ d e, ISCSI v = Some d ∧ ISCSI w = Some e ∧ shares_disk d e) ∨
  (∃ r s, RBD v = Some r ∧ RBD w = Some s ∧ shares_image r s).

Lemma haveOverlap_spec a b : haveOverlap a b = true ↔ ∃ x, x ∈ a ∧ x ∈ b.
Proof.
  unfold haveOverlap. assert (∀ (l : list string) (m : gset string) x, x ∈ foldl (λ m val, {[ val ]} ∪ m) m l ↔ x ∈ l ∨ x ∈ m) as Hm.
  { induction l as [|y l IH]; intros m x; cbn [foldl]; [set_solver|]. rewrite IH. set_solver. }
  rewrite existsb_exists. setoid_rewrite <-list_elem_of_In. setoid_rewrite bool_decide_eq_true. setoid_rewrite Hm. set_solver.
Qed.

Lemma both_spec {A} (x y : option A) f : both x y f = true ↔ ∃ a b, x = Some a ∧ y = Some b ∧ f a b = true.
Proof. unfold both. destruct x, y; naive_solver. Qed.

Lemma nand_spec b c : negb (b && c) = true ↔ ¬ (b = true ∧ c = true).
Proof. destruct b, c; simpl; naive_solver. Qed.

Lemma same_disk_spec d e : same_disk d e = true ↔ shares_disk d e.
Proof. unfold same_disk, shares_disk. by rewrite andb_true_iff, bool_decide_eq_true, nand_spec. Qed.
Lemma same_image_spec r s : same_image r s = true ↔ shares_image r s.
Proof.
  unfold same_image, shares_image. rewrite !andb_true_iff, haveOverlap_spec, !bool_decide_eq_true, nand_spec. tauto.
Qed.

Lemma volumes_conflict_spec v w : volumes_conflict v w = true ↔ conflict v w.
Proof.
  unfold volumes_conflict, conflict. rewrite !orb_true_iff, !both_spec. setoid_rewrite same_disk_spec.
  setoid_rewrite same_image_spec. setoid_rewrite bool_decide_eq_true.
  assert ((∃ a b : string, AWSElasticBlockStore v = Some a ∧ AWSElasticBlockStore w = Some b ∧ a = b) ↔
    ∃ id, AWSElasticBlockStore v = Some id ∧ AWSElasticBlockStore w = Some id) as -> by naive_solver.
  tauto.
Qed.

Lemma conflict_sym v w : conflict v w → conflict w v.
Proof.
  assert (∀ d e, shares_disk d e → shares_disk e d) as Hd by (unfold shares_disk; intuition).
  assert (∀ r s, shares_image r s → shares_image s r) as Hi by (unfold shares_image; intros r s ((m & ? & ?) & ?); intuition eauto).
  intros [(d & e & ? & ? & ?)|[(id & ? & ?)|[(d & e & ? & ? & ?)|(r & s & ? & ? & ?)]]]; unfold conflict; eauto 10.
Qed.

(** The fast path leaves out no conflict. *)
Lemma isVolumeConflict_spec v q :
  isVolumeConflict v q = true ↔ ∃ w, w ∈ Volumes (pod_Spec q) ∧ conflict v w.
Proof.
  assert (existsb (volumes_conflict v) (Volumes (pod_Spec q)) = true ↔ ∃ w, w ∈ Volumes (pod_Spec q) ∧ conflict v w) as Hs.
  { rewrite existsb_exists. setoid_rewrite <-list_elem_of_In. by setoid_rewrite volumes_conflict_spec. }
  unfold isVolumeConflict. destruct (_ && _ && _ && _) eqn:E; [|done]. split; [done|]. intros (w & _ & Hc).
  rewrite !andb_true_iff, !negb_true_iff, !bool_decide_eq_false in E. destruct E as (((H1 & H2) & H3) & H4).
  destruct Hc as [(d & _ & ? & _)|[(d & ? & _)|[(d & _ & ? & _)|(d & _ & ? & _)]]];
    [destruct H1|destruct H2|destruct H4|destruct H3]; by exists d.
Qed.

Definition pods_conflict (p q : Pod) : Prop :=
  ∃ v w, v ∈ Volumes (pod_Spec p) ∧ w ∈ Volumes (pod_Spec q) ∧ conflict v w.
Definition ports_clash (p q : Pod) : Prop :=
  ∃ b c, b ∈ pod_bindings p ∧ c ∈ pod_bindings q ∧ clash b c.

Lemma pods_conflict_sym p q : pods_conflict p q → pods_conflict q p.
Proof. intros (v & w & ? & ? & ?%conflict_sym). by exists w, v. Qed.
Lemma ports_clash_sym p q : ports_clash p q → ports_clash q p.
Proof. intros (b & c & ? & ? & Hc & Hi). exists c, b. unfold clash. naive_solver. Qed.

Lemma fails_iff (b : bool) r (l : list Pod) (Q : Pod → Prop) :
  (b = true ↔ ∃ q, q ∈ l ∧ Q q) →
  ((if b then fails r else fits_node).1.1 = true ↔ ∀ q, q ∈ l → ¬ Q q) ∧
  ((if b then fails r else fits_node).1.1 = false → ∃ q, q ∈ l ∧ Q q).
Proof.
  intros Hb. split; [|destruct b; [by intros; apply Hb|done]]. destruct b; simpl.
  - split; [done|]. destruct (proj1 Hb eq_refl) as (q & Hq & HQ). intros Hall. by destruct (Hall q Hq).
  - split; [|done]. intros _ q Hq HQ. discriminate (proj2 Hb (ex_intro _ q (conj Hq HQ))).
Qed.

Lemma NoDiskConflict_spec pod meta info :
  ((NoDiskConflict pod meta (Some info)).1.1 = true ↔ ∀ q, q ∈ ni_pods info → ¬ pods_conflict pod q) ∧
  ((NoDiskConflict pod meta (Some info)).1.1 = false → ∃ q, q ∈ ni_pods info ∧ pods_conflict pod q).
Proof.
  unfold NoDiskConflict. cbn [NodeInfo_Pods from_option]. apply fails_iff.
  rewrite existsb_exists. setoid_rewrite existsb_exists. setoid_rewrite <-list_elem_of_In.
  setoid_rewrite isVolumeConflict_spec. unfold pods_conflict. naive_solver.
Qed.

Section admission.
Context {K8s : K8sLib} {KLaws : K8sLaws} {Range : MapRange} {MLib : MetadataLib} {PLib : PredicateLib} {VLib : VolumeLib}.
Implicit Types (pod p q : Pod) (info n : NodeInfo) (meta : option predicateMetadata).

Lemma pod_ports_want pod : GetContainerPorts [pod] = pod_ports pod.
Proof.
  unfold GetContainerPorts, pod_ports. simpl. rewrite app_nil_r.
  induction (pod_Containers pod) as [|c l IH]; [done|]. cbn. by f_equal.
Qed.

Lemma PodFitsHostPorts_spec pod meta info :
  ports_ok info → (∀ m, meta = Some m → pm_podPorts m = GetContainerPorts [pod]) →
  ((PodFitsHostPorts pod meta (Some info)).1.1 = true ↔ ∀ q, q ∈ ni_pods info → ¬ ports_clash pod q) ∧
  ((PodFitsHostPorts pod meta (Some info)).1.1 = false → ∃ q, q ∈ ni_pods info ∧ ports_clash pod q).
Proof.
  intros Hok Hm. unfold PodFitsHostPorts.
  assert (match meta with Some m => pm_podPorts m | None => GetContainerPorts [pod] end = pod_ports pod) as ->
    by (rewrite <-pod_ports_want; destruct meta; [by apply Hm|done]).
  cbn [NodeInfo_UsedPorts from_option].
  assert (portsConflict (ni_usedPorts info) (pod_ports pod) = true ↔ ∃ q, q ∈ ni_pods info ∧ ports_clash pod q) as Hs.
  { unfold portsConflict, ports_clash. rewrite existsb_exists. setoid_rewrite <-list_elem_of_In. setoid_rewrite CheckConflict_exact.
    setoid_rewrite (Hok _). unfold pod_bindings at 2. setoid_rewrite list_elem_of_omap. naive_solver. }
  case_bool_decide as El.
  - apply nil_length_inv in El. split; [|done]. split; [|done]. intros _ q Hq (b & c & Hb & _). unfold pod_bindings in Hb. rewrite El in Hb.
    by apply not_elem_of_nil in Hb.
  - by apply fails_iff.
Qed.

(** The life of a node: pods are let in by the two predicates and taken out again. *)
Inductive admit_step : Z * NodeInfo → Z * NodeInfo → Prop :=
| let_in gen n pod meta :
    pod_UID pod ≠ EmptyString → pod_UID pod ∉ pod_UID <$> ni_pods n →
    (∀ m, meta = Some m → pm_podPorts m = GetContainerPorts [pod]) →
    (PodFitsHostPorts pod meta (Some n)).1.1 = true → (NoDiskConflict pod meta (Some n)).1.1 = true →
    admit_step (gen, n) (NodeInfo_AddPod gen n pod)
| evict gen n pod : pod ∈ ni_pods n → admit_step (gen, n) (NodeInfo_RemovePod gen n pod).1
| update_node gen n node : admit_step (gen, n) (NodeInfo_SetNode gen n node).

(** Every two pods of the list, at different places, are compatible. *)
Definition apart (l : list Pod) : Prop :=
  ∀ p q l', l ≡ₚ p :: q :: l' → ¬ ports_clash p q ∧ ¬ pods_conflict p q.

Lemma apart_snoc l pod :
  apart l → (∀ q, q ∈ l → ¬ ports_clash pod q ∧ ¬ pods_conflict pod q) → apart (l ++ [pod]).
Proof.
  intros Hl Hp p q l' E. rewrite <-Permutation_cons_append in E.
  assert (pod ∈ p :: q :: l') as Hin by (rewrite <-E; by left).
  apply elem_of_cons in Hin as [->|[->|Hin]%elem_of_cons].
  - apply Permutation_cons_inv in E. apply Hp. rewrite E. by left.
  - pose proof (Permutation_cons_inv (Permutation_trans E (perm_swap q p l'))) as E'.
    destruct (Hp p) as [H1 H2]; [rewrite E'; by left|].
    split; intros ?; [apply H1|apply H2]; auto using ports_clash_sym, pods_conflict_sym.
  - apply list_elem_of_split in Hin as (l1 & l2 & ->). apply (Hl p q (l1 ++ l2)).
    apply (Permutation_cons_inv (a := pod)). rewrite E. symmetry. apply (Permutation_middle (p :: q :: l1)).
Qed.

Lemma apart_remove l pod l' : apart l → l ≡ₚ pod :: l' → apart l'.
Proof. intros Hl E p q l2 E2. apply (Hl p q (pod :: l2)). rewrite E, E2. apply (Permutation_middle [p; q]). Qed.

Lemma apart_distinct l p q : NoDup l → apart l → p ∈ l → q ∈ l → p ≠ q → ¬ ports_clash p q ∧ ¬ pods_conflict p q.
Proof.
  intros Hnd Hl (l1 & l2 & ->)%list_elem_of_split Hq Hne. rewrite <-Permutation_middle in Hq, Hnd.
  apply elem_of_cons in Hq as [?|(l3 & l4 & E)%list_elem_of_split]; [done|].
  apply (Hl p q (l3 ++ l4)). rewrite <-Permutation_middle, E. by rewrite <-Permutation_middle.
Qed.

Lemma binding_clash p q b : b ∈ pod_bindings p → b ∈ pod_bindings q → ports_clash p q.
Proof. intros Hp Hq. exists b, b. split_and!; [done..|]. split; [done|by left]. Qed.

Lemma admit_inv s s' :
  admit_step s s' → NodeInfo_inv s.2 ∧ ports_ok s.2 ∧ apart (ni_pods s.2) →
  NodeInfo_inv s'.2 ∧ ports_ok s'.2 ∧ apart (ni_pods s'.2).
Proof.
  intros [g n pod meta Hu Hf Hm H1 H2|g n pod Hin|g n node] (Hi & Hp & Ha); cbn [fst snd] in *.
  - split_and!; [by apply AddPod_inv|by apply AddPod_ports|].
    assert (ni_pods (NodeInfo_AddPod g n pod).2 = ni_pods n ++ [pod]) as ->
      by (unfold NodeInfo_AddPod; by destruct (calculateResource pod) as [[res cpu] mem]).
    apply apart_snoc; [done|]. intros q Hq. split.
    + by apply (PodFitsHostPorts_spec pod meta n Hp Hm).
    + by apply (NoDiskConflict_spec pod meta n).
  - destruct (RemovePod_spec g n pod Hi Hin) as (n' & -> & Hi' & Hl & _ & _ & _ & Eu). cbn [fst snd].
    split_and!; [done| |by eapply apart_remove]. eapply (RemovePod_ports n); try done. intros q b Hq Hbq Hb.
    destruct (decide (q = pod)) as [|Hne]; [done|].
    destruct (apart_distinct _ q pod (NoDup_fmap_1 _ _ (nv_keys _ Hi)) Ha Hq Hin Hne) as [Hc _].
    destruct Hc. by eapply binding_clash.
  - pose proof (SetNode_same g n node) as (E1 & _ & E2 & _). split_and!; [by apply SetNode_inv| |by rewrite E1].
    unfold ports_ok. by rewrite E1, E2.
Qed.

End admission.

(** ** Attached volumes *)
Section counts.
Context {K8s : K8sLib} {Range : MapRange} {MLib : MetadataLib} {PLib : PredicateLib} {VLib : VolumeLib}.
Implicit Types (pod p q : Pod) (info n : NodeInfo) (c : MaxPDVolumeCountChecker) (s : gset string).

Lemma filterVolumes_acc c vols ns : ∀ acc,
  filterVolumes c vols ns acc = match filterVolumes c vols ns ∅ with inl e => inl e | inr s => inr (s ∪ acc) end.
Proof.
  induction vols as [|v vols IH]; intros acc; cbn [filterVolumes]; [by rewrite (left_id_L ∅ (∪))|].
  destruct (volume_id c ns v) as [e|[id|]]; [done| |apply IH].
  rewrite IH, (IH ({[id]} ∪ ∅)). destruct (filterVolumes c vols ns ∅) as [e|s]; [done|]. f_equal. set_solver.
Qed.

Definition pod_volumes c pod : error + gset string := filterVolumes c (Volumes (pod_Spec pod)) (pod_Namespace pod) ∅.

Lemma filterVolumes_pods_snoc c l pod : ∀ acc,
  filterVolumes_pods c (l ++ [pod]) acc =
    match filterVolumes_pods c l acc with
    | inl e => inl e
    | inr s => match pod_volumes c pod with inl e => inl e | inr new => inr (new ∪ s) end
    end.
Proof.
  induction l as [|p l IH]; intros acc; cbn [filterVolumes_pods app].
  - rewrite filterVolumes_acc. unfold pod_volumes. by destruct (filterVolumes _ _ _ ∅).
  - destruct (filterVolumes c _ _ acc); [done|]. apply IH.
Qed.

(** The limit that applies to a node. *)
Definition volume_limit c (node : Node) info : option Z :=
  max ← pdc_maxVolumeFunc c (Some node);
  Some (if feature_AttachVolumeLimit then default max (VolumeLimits info !! pdc_volumeLimitKey c) else max).

(** C40: the limit on attached volumes is kept exactly: the predicate lets a pod on a node if and only if the
    pod mounts no volume of the kind, or the number of different volumes that the pods of the
    node and the new pod mount together is within the limit of the node; volumes
    that are mounted by several pods count once, and so do claims whose volume is unknown. *)
Theorem volume_count_exact c gen pod info node limit new all :
  ni_node info = Some node → volume_limit c node info = Some limit →
  pod_volumes c pod = inr new →
  filterVolumes_pods c (ni_pods (NodeInfo_AddPod gen info pod).2) ∅ = inr all →
  ∃ fit reasons transient,
    MaxPDVolumeCount_predicate c pod (Some info) = Some ((fit, reasons, None), transient) ∧
    (fit = true ↔ new = ∅ ∨ Z.of_nat (size all) <= limit) ∧
    (fit = false → reasons = [ErrMaxVolumeCountExceeded] ∧ transient = None).
Proof.
  intros Hn Hl Hnew Hall.
  assert (ni_pods (NodeInfo_AddPod gen info pod).2 = ni_pods info ++ [pod]) as E
    by (unfold NodeInfo_AddPod; by destruct (calculateResource pod) as [[res cpu] mem]).
  rewrite E, filterVolumes_pods_snoc, Hnew in Hall. unfold MaxPDVolumeCount_predicate. unfold pod_volumes in Hnew.
  case_bool_decide as Ev.
  { apply nil_length_inv in Ev. rewrite Ev in Hnew. injection Hnew as <-. exists true, [], None. naive_solver. }
  rewrite Hnew. case_bool_decide as Es.
  { apply size_empty_inv in Es. exists true, [], None. split; [done|]. split; [|done]. split; [|done]. intros _. left.
    by apply leibniz_equiv. }
  cbn [NodeInfo_Pods from_option]. destruct (filterVolumes_pods c (ni_pods info) ∅) as [e|old]; [done|].
  injection Hall as <-. unfold volume_limit in Hl. cbn [NodeInfo_Node mbind option_bind] in *. rewrite Hn.
  destruct (pdc_maxVolumeFunc c (Some node)) as [max|]; [|done]. injection Hl as Hl. cbn [mbind option_bind from_option] in Hl |- *. rewrite Hl.
  assert (Z.of_nat (size old) + Z.of_nat (size (new ∖ old)) = Z.of_nat (size (new ∪ old))) as ->.
  { assert (new ∪ old = old ∪ new) as -> by set_solver. pose proof (size_union_alt old new) as Hu. rewrite Hu. lia. }
  assert (new ≠ ∅) as Hne by (intros ->; by rewrite size_empty in Es).
  destruct (limit <? Z.of_nat (size (new ∪ old))) eqn:Elt; bool_to_prop.
  - exists false, [ErrMaxVolumeCountExceeded], None. split; [done|]. split; [|done]. split; [done|]. intros [?|?]; [done|lia].
  - eexists true, [], _. split; [reflexivity|]. split; [|done]. split; [by right|done].
Qed.

(** *** CSI volumes *)
Implicit Types (k : CSIMaxVolumeLimitChecker) (m : gmap string string) (key : string).

(** The number of volumes with a limit key. *)
Definition volumes_of key m : nat := size (filter (λ e, e.2 = key) m).

Lemma count_list key (l : list (string * string)) : ∀ count : gmap string Z,
  at0 (foldl (λ count e, <[e.2 := at0 count e.2 + 1]> count) count l) key =
    at0 count key + Z.of_nat (length (filter (λ e : string * string, e.2 = key) l)).
Proof.
  induction l as [|e l IH]; intros count; cbn [foldl]; [simpl; lia|]. rewrite IH, filter_cons. unfold at0 at 1.
  destruct (decide (e.2 = key)) as [<-|Hne].
  - rewrite lookup_insert_eq. cbn [length default from_option]. rewrite Nat2Z.inj_succ. unfold id. lia.
  - rewrite lookup_insert_ne by done. done.
Qed.
Lemma count_list_dom key (l : list (string * string)) : ∀ count : gmap string Z,
  is_Some (foldl (λ count e, <[e.2 := at0 count e.2 + 1]> count) count l !! key) ↔
    is_Some (count !! key) ∨ ∃ e, e ∈ l ∧ e.2 = key.
Proof.
  induction l as [|e l IH]; intros count; cbn [foldl]; [set_solver|]. rewrite IH, lookup_insert_is_Some'. set_solver.
Qed.

Lemma volumes_of_list key m : volumes_of key m = length (filter (λ e : string * string, e.2 = key) (range m)).
Proof.
  unfold volumes_of. rewrite <-length_map_to_list. apply Permutation_length.
  rewrite range_perm. apply NoDup_Permutation.
  - apply NoDup_map_to_list.
  - apply NoDup_filter, NoDup_map_to_list.
  - intros [i x]. rewrite elem_of_map_to_list, list_elem_of_filter, elem_of_map_to_list, map_lookup_filter_Some. simpl. tauto.
Qed.

Lemma count_keys_at key m : at0 (count_keys m) key = Z.of_nat (volumes_of key m).
Proof. unfold count_keys. rewrite count_list, volumes_of_list. unfold at0. rewrite lookup_empty. simpl. lia. Qed.
Lemma count_keys_dom key m : is_Some (count_keys m !! key) ↔ ∃ h, m !! h = Some key.
Proof.
  unfold count_keys. rewrite count_list_dom, lookup_empty. setoid_rewrite range_perm. split.
  - intros [[? [=]]|([h x] & Hin%elem_of_map_to_list & <-)]. by exists h.
  - intros [h Hh]. right. exists (h, key). split; [by apply elem_of_map_to_list|done].
Qed.

Lemma delete_all m (l : list (string * string)) : ∀ acc : gmap string string,
  foldl (λ m e, delete e.1 m) acc l = filter (λ e, e.1 ∉ l.*1) acc.
Proof.
  induction l as [|e l IH]; intros acc; cbn [foldl].
  - symmetry. apply map_filter_id. intros i x _. apply not_elem_of_nil.
  - rewrite IH. apply map_eq. intros i. apply option_eq. intros x. rewrite !map_lookup_filter_Some, lookup_delete_Some.
    cbn [fmap list_fmap fst]. rewrite not_elem_of_cons. naive_solver.
Qed.
Lemma delete_range m m' : foldl (λ m e, delete e.1 m) m (range m') = m ∖ m'.
Proof.
  rewrite (delete_all m'). apply map_eq. intros i. apply option_eq. intros x.
  rewrite map_lookup_filter_Some, lookup_difference_Some. cbn [fst].
  assert (i ∉ (range m').*1 ↔ m' !! i = None) as ->; [|done].
  rewrite range_perm, eq_None_not_Some. apply not_iff_compat. rewrite list_elem_of_fmap. split.
  - intros ([j y] & -> & Hin%elem_of_map_to_list). by exists y.
  - intros [y Hy]. exists (i, y). split; [done|by apply elem_of_map_to_list].
Qed.

Lemma volumes_of_union key m m' :
  (volumes_of key m' + volumes_of key (m ∖ m'))%nat = volumes_of key (m' ∪ m).
Proof.
  assert (m' ##ₘ m ∖ m') as Hd by (by apply map_disjoint_difference_r1).
  unfold volumes_of. rewrite <-map_size_disj_union by (by apply map_disjoint_filter).
  rewrite <-map_filter_union by done. f_equal. f_equal. apply map_eq. intros i. apply option_eq. intros x.
  rewrite !lookup_union_Some_raw, lookup_difference_Some. naive_solver.
Qed.

(** The limits on CSI volumes are kept exactly: with the feature enabled, the predicate turns a
    pod away if and only if, for some driver that the node has a limit for, the pod brings a volume that is
    not attached yet and the different volumes of the driver on the node and in the
    pod exceed the limit. It does not panic if the lookups of the volumes do not. *)
Theorem csi_count_exact k pod info attached new :
  feature_AttachVolumeLimit = true →
  filterAttachableVolumes k (Volumes (pod_Spec pod)) (pod_Namespace pod) ∅ = Some (inr new) →
  filterAttachable_pods k (ni_pods info) ∅ = Some (inr attached) →
  ∃ fit reasons, attachableLimitPredicate k pod (Some info) = Some (fit, reasons, None) ∧
    (fit = false ↔ ∃ key limit h, VolumeLimits info !! key = Some limit ∧ new !! h = Some key ∧ attached !! h = None ∧
      limit < Z.of_nat (volumes_of key (attached ∪ new))).
Proof.
  intros Hf Hnew Hatt. unfold attachableLimitPredicate. rewrite Hf. cbn [negb from_option NodeInfo_Pods].
  case_bool_decide as Ev.
  { apply nil_length_inv in Ev. rewrite Ev in Hnew. injection Hnew as <-. exists true, []. split; [done|].
    split; [done|]. by intros (key & limit & h & _ & [=] & _). }
  case_bool_decide as El.
  { apply map_size_empty_inv in El. exists true, []. split; [done|]. split; [done|].
    intros (key & limit & h & E & _). by rewrite El in E. }
  rewrite Hnew. cbn [mbind option_bind]. case_bool_decide as En.
  { apply map_size_empty_inv in En. subst new. exists true, []. split; [done|]. split; [done|].
    by intros (key & limit & h & _ & [=] & _). }
  rewrite Hatt. cbn [mbind option_bind]. rewrite delete_range.
  set (b := existsb _ _). exists (negb b), (if b then [ErrMaxVolumeCountExceeded] else []). split; [by destruct b|].
  rewrite negb_false_iff. unfold b. clear b. rewrite existsb_exists. setoid_rewrite <-list_elem_of_In. split.
  - intros ([key count] & Hin%range_elem & Hlt). cbn [fst snd] in Hlt.
    destruct (VolumeLimits info !! key) as [limit|] eqn:Ek; [|done]. bool_to_prop.
    destruct (proj1 (count_keys_dom key (new ∖ attached))) as [h [Hh Hh']%lookup_difference_Some]; [by eexists|].
    exists key, limit, h. split_and!; [done..|]. rewrite <-volumes_of_union.
    pose proof (count_keys_at key (new ∖ attached)) as Hc. unfold at0 in Hc at 1. rewrite Hin in Hc. simpl in Hc.
    rewrite count_keys_at in Hlt. lia.
  - intros (key & limit & h & Ek & Hh & Hh' & Hlt).
    destruct (proj2 (count_keys_dom key (new ∖ attached))) as [count Hcount].
    { exists h. by apply lookup_difference_Some. }
    exists (key, count). split; [by apply range_elem|]. cbn [fst snd]. rewrite Ek.
    pose proof (count_keys_at key (new ∖ attached)) as Hc. unfold at0 in Hc at 1. rewrite Hcount in Hc. simpl in Hc.
    rewrite count_keys_at. rewrite <-volumes_of_union in Hlt. apply Z.ltb_lt. lia.
Qed.
End counts.

(** ** Example: disks on a node *)
Module VolumeExample.
#[local] Existing Instance docK8s.
#[local] Existing Instance docK8s_laws.
#[local] Existing Instance stdRange.
#[local] Instance docVolumes : VolumeLib := {|
  EBSVolumeLimitKey := "attachable-volumes-aws-ebs";
  GCEVolumeLimitKey := "attachable-volumes-gce-pd";
  AzureVolumeLimitKey := "attachable-volumes-azure-disk";
  CinderVolumeLimitKey := "attachable-volumes-cinder";
  EBSNitroLimitRegex_matches t := String.prefix "c5" t || String.prefix "m5" t || String.prefix "t3" t;
  DefaultMaxEBSNitroVolumeLimit := 25;
  DefaultMaxEBSVolumes := 39;
  DefaultMaxCinderVolumes := 256;
  GetCSIAttachLimitKey driver := ("attachable-volumes-csi-" +:+ driver)%string;
  LabelZonesToSet v := inr {[ v ]};
  feature_AttachVolumeLimit := true;
  feature_BalanceAttachedNodeVolumes := false
|}.

Definition ebs (id : string) : Volume := MkVolume None None (Some id) None None None None 0.
Definition gce (name : string) (readOnly : bool) : Volume :=
  MkVolume None (Some (MkDiskSource name readOnly)) None None None None None 0.
Definition claim (name : string) : Volume := MkVolume (Some name) None None None None None None 0.
Definition mkPod (name : string) (port : Z) (volumes : list Volume) : Pod :=
  MkPod (MkObjectMeta name "default" ("uid-" +:+ name) EmptyString 0 ∅ ∅ 0 None 0)
    (MkPodSpec "n1" "ai-scheduler" None
       [MkContainer EmptyString ∅ ∅ [MkContainerPort EmptyString EmptyString port]] [] None ∅ [] volumes 0)
    (MkPodStatus EmptyString [] 0).
Definition node (limits : ResourceList) : Node :=
  MkNode (MkObjectMeta "n1" EmptyString EmptyString EmptyString 0 ∅ ∅ 0 None 0) [] false limits limits [] [] 0.

Definition reader : Pod := mkPod "reader" 80 [gce "data" true; ebs "vol-1"].
Definition reader2 : Pod := mkPod "reader2" 81 [gce "data" true].
Definition writer : Pod := mkPod "writer" 82 [gce "data" false].
Definition s1 : Z * NodeInfo := NodeInfo_AddPod 1 (NewNodeInfo 0 []).2 reader.
Definition s2 : Z * NodeInfo := NodeInfo_AddPod s1.1 s1.2 reader2.

Lemma disks_s2 : rtc admit_step (NewNodeInfo 0 []) s2.
Proof.
  apply (rtc_l _ _ s1).
  - apply (let_in 1 (NewNodeInfo 0 []).2 reader None); [done|apply not_elem_of_nil|done|vm_compute; reflexivity..].
  - apply rtc_once. rewrite (surjective_pairing s1).
    apply (let_in s1.1 s1.2 reader2 None); [done|vm_compute; set_solver|done|vm_compute; reflexivity..].
Qed.


(** Claims: "a" is bound to an EBS volume, "b" to a CSI volume, other claims are not found. *)
Definition pvcs : PersistentVolumeClaimInfo := λ _ name,
  if bool_decide (name = "a"%string) then inr (Some (MkClaim "pv-a" EmptyString))
  else if bool_decide (name = "b"%string) then inr (Some (MkClaim "pv-b" EmptyString))
  else inl "not found"%string.
Definition pvs : PersistentVolumeInfo := λ name,
  if bool_decide (name = "pv-a"%string) then inr (Some (MkPersistentVolume ∅ None (Some "vol-a"%string) None None None))
  else inr (Some (MkPersistentVolume ∅ None None None None (Some (MkCSISource "d" "handle-b")))).
Definition checker : MaxPDVolumeCountChecker :=
  default (MkMaxPDVolumeCountChecker EBSVolumeFilter EmptyString (λ _, None) pvs pvcs EmptyString)
    (NewMaxPDVolumeCountPredicate (λ _, EmptyString) "rnd" "EBS" pvs pvcs).
(** At most two EBS volumes and no CSI volume; one EBS volume is attached. *)
Definition n1 : Node := node {["attachable-volumes-aws-ebs" := NewQuantity 2; "attachable-volumes-csi-d" := NewQuantity 0]}%string.
Definition info : NodeInfo := (NodeInfo_SetNode 5 s1.2 n1).2.
Definition one_more : Pod := mkPod "one" 90 [claim "a"; ebs "vol-1"].
Definition two_more : Pod := mkPod "two" 90 [claim "a"; claim "missing"].
Definition csi_pod : Pod := mkPod "csi" 90 [claim "b"].

Lemma volume_count_exact_witness :
  (∃ r t, MaxPDVolumeCount_predicate checker one_more (Some info) = Some ((true, r, None), t)) ∧
  (∃ r t, MaxPDVolumeCount_predicate checker two_more (Some info) = Some ((false, r, None), t)).
Proof.
  destruct (volume_count_exact checker 9 one_more info n1 2 {["vol-a"; "vol-1"]}%string {["vol-a"; "vol-1"]}%string)
    as (fit & r & t & E & [_ Hfit] & _); [vm_compute; reflexivity..|]. rewrite Hfit in E by (right; vm_compute; discriminate).
  destruct (volume_count_exact checker 9 two_more info n1 2 {["vol-a"; "rnd-default/missing"]}%string
    {["vol-a"; "vol-1"; "rnd-default/missing"]}%string) as (fit' & r' & t' & E' & [Hfit' _] & _); [vm_compute; reflexivity..|].
  split; [by exists r, t|]. exists r', t'. destruct fit'; [|done]. exfalso.
  destruct (Hfit' eq_refl) as [He|Hle]; [|vm_compute in Hle; exact (Hle eq_refl)].
  apply (f_equal (λ s : gset string, bool_decide ("vol-a"%string ∈ s))) in He. vm_compute in He. discriminate.
Defined.

Lemma csi_count_exact_witness :
  ∃ r, attachableLimitPredicate (MkCSIMaxVolumeLimitChecker pvs pvcs) csi_pod (Some info) = Some (false, r, None).
Proof.
  destruct (csi_count_exact (MkCSIMaxVolumeLimitChecker pvs pvcs) csi_pod info ∅ {["handle-b" := "attachable-volumes-csi-d"]}%string)
    as (fit & r & E & [_ Hfit]); [done|vm_compute; reflexivity..|]. exists r. rewrite E. rewrite Hfit; [done|].
  exists "attachable-volumes-csi-d"%string, 0, "handle-b"%string. split_and!; [vm_compute; reflexivity..|].
  vm_compute. reflexivity.
Defined.
End VolumeExample.
