(* ===== verification/Float64.v ===== *)
(** * Go's float64

    The priority functions compute with float64.  A finite number is kept as a multiple of the
    least positive float64, 2^-1074, so it is an integer; an operation computes the exact
    result as a ratio of integers and rounds it once, to nearest with ties to even (IEEE 754).  The
    sign of a zero is not kept: it shows only in a division by zero, and the divisors of the
    program are differences and conversions of integers that are positive zeros if they are
    zero.  The multiplications and additions of the program are not fused. *)
From S2P Require Import Prelude.

(** ** Numbers *)

Declare Scope float_scope.
Delimit Scope float_scope with float.
Inductive float64 := Finite (v : Z) | Infinite (neg : bool) | NaN.
Bind Scope float_scope with float64.
#[export] Instance float64_eq_dec : EqDecision float64.
Proof. solve_decision. Defined.

(** The number one. *)
Definition float_one : Z := 2 ^ 1074.
(** What the format cannot hold any more, 2^1024. *)
Definition float_limit : Z := 2 ^ 2098.

(** The integer nearest to [n / d]. *)
Definition nearest_even (n d : Z) : Z :=
  let q := n / d in
  let r := n mod d in
  if 2 * r <? d then q else if d <? 2 * r then q + 1 else if Z.even q then q else q + 1.

(** The multiple of a power of two with 53 significant bits that is nearest to [n / d], for [0 <= n]. *)
Definition round_ratio (n d : Z) : Z :=
  let k := Z.max 0 (Z.log2 (n / d) - 52) in
  nearest_even n (d * 2 ^ k) * 2 ^ k.
Definition round_signed (n d : Z) : Z := if n <? 0 then - round_ratio (- n) d else round_ratio n d.

Definition float_of_ratio (n d : Z) : float64 :=
  let v := round_signed n d in
  if Z.abs v <? float_limit then Finite v else Infinite (n <? 0).

(** ** Operations *)

Definition float_of_int (z : Z) : float64 := float_of_ratio (z * float_one) 1.
Definition float_neg (x : float64) : float64 :=
  match x with Finite v => Finite (- v) | Infinite b => Infinite (negb b) | NaN => NaN end.
Definition float_add (x y : float64) : float64 :=
  match x, y with
  | Finite v, Finite w => float_of_ratio (v + w) 1
  | Infinite a, Infinite b => if Bool.eqb a b then Infinite a else NaN
  | Infinite a, Finite _ | Finite _, Infinite a => Infinite a
  | NaN, _ | _, NaN => NaN
  end.
Definition float_sub (x y : float64) : float64 := float_add x (float_neg y).
Definition float_mul (x y : float64) : float64 :=
  match x, y with
  | Finite v, Finite w => float_of_ratio (v * w) float_one
  | Infinite a, Infinite b => Infinite (xorb a b)
  | Infinite a, Finite v | Finite v, Infinite a => if v =? 0 then NaN else Infinite (xorb a (v <? 0))
  | NaN, _ | _, NaN => NaN
  end.
Definition float_div (x y : float64) : float64 :=
  match x, y with
  | Finite v, Finite w =>
      if w =? 0 then if v =? 0 then NaN else Infinite (v <? 0)
      else float_of_ratio (v * float_one * Z.sgn w) (Z.abs w)
  | Finite _, Infinite _ => Finite 0
  | Infinite a, Finite v => Infinite (xorb a (v <? 0))
  | Infinite _, Infinite _ => NaN
  | NaN, _ | _, NaN => NaN
  end.
Definition float_abs (x : float64) : float64 :=
  match x with Finite v => Finite (Z.abs v) | Infinite _ => Infinite false | NaN => NaN end.
Definition float_ltb (x y : float64) : bool :=
  match x, y with
  | Finite v, Finite w => v <? w
  | Infinite a, Infinite b => a && negb b
  | Infinite a, Finite _ => a
  | Finite _, Infinite b => negb b
  | NaN, _ | _, NaN => false
  end.
Definition float_leb (x y : float64) : bool :=
  match x, y with
  | Finite v, Finite w => v <=? w
  | Infinite a, Infinite b => a || negb b
  | Infinite a, Finite _ => a
  | Finite _, Infinite b => negb b
  | NaN, _ | _, NaN => false
  end.

(** The conversion to int64 drops the fraction; what it gives for a number out of range is up to
    the implementation of Go. *)
Class FloatConversion := { unrepresentable : float64 → Z; unrepresentable_int64 x : int64 (unrepresentable x) }.
Definition int_of_float `{FloatConversion} (x : float64) : Z :=
  match x with
  | Finite v => let z := Z.quot v float_one in if bool_decide (int64 z) then z else unrepresentable x
  | _ => unrepresentable x
  end.

Infix "+" := float_add : float_scope.
Infix "-" := float_sub : float_scope.
Infix "*" := float_mul : float_scope.
Infix "/" := float_div : float_scope.

(** ** Rounding *)

Lemma one_pos : 0 < float_one.
Proof. unfold float_one. lia. Qed.
Lemma float_limit_pos : 0 < float_limit.
Proof. unfold float_limit. lia. Qed.
Lemma one_pow : float_one = 2 ^ 1074.
Proof. done. Qed.
Lemma one_limit : 2 ^ 53 * float_one < float_limit.
Proof. unfold float_one, float_limit. lia. Qed.
Lemma one_limit64 : 2 ^ 64 * float_one < float_limit.
Proof. unfold float_one, float_limit. lia. Qed.
#[global] Opaque float_one float_limit.

Lemma div_le_cross n d n' d' : 0 < d → 0 < d' → n * d' <= n' * d → n / d <= n' / d'.
Proof.
  intros Hd Hd' H. apply Z.div_le_lower_bound; [done|]. pose proof (Z.mul_div_le n d Hd). nia.
Qed.

Lemma nearest_even_bounds n d : 0 < d → n / d <= nearest_even n d <= n / d + 1.
Proof. intros Hd. unfold nearest_even. repeat case_match; lia. Qed.
Lemma nearest_even_mono n d n' d' : 0 < d → 0 < d' → n * d' <= n' * d → nearest_even n d <= nearest_even n' d'.
Proof.
  intros Hd Hd' H. pose proof (div_le_cross n d n' d' Hd Hd' H) as Hq.
  pose proof (nearest_even_bounds n d Hd) as Hb. pose proof (nearest_even_bounds n' d' Hd') as Hb'.
  destruct (decide (n / d = n' / d')) as [Eq|]; [|lia].
  assert ((n mod d) * d' <= (n' mod d') * d) as Hr.
  { rewrite (Z.div_mod n d), (Z.div_mod n' d') in H by lia. rewrite Eq in H. nia. }
  unfold nearest_even. rewrite Eq.
  destruct (Z.ltb_spec (2 * (n mod d)) d) as [|H1], (Z.ltb_spec (2 * (n' mod d')) d') as [H1'|H1'];
    [lia|repeat case_match; lia| |]; [exfalso; nia|].
  destruct (Z.ltb_spec d (2 * (n mod d))) as [H2|H2], (Z.ltb_spec d' (2 * (n' mod d'))) as [H2'|H2'];
    [lia|exfalso; nia|repeat case_match; lia|repeat case_match; lia].
Qed.
Lemma nearest_even_exact v d : 0 < d → nearest_even (v * d) d = v.
Proof.
  intros Hd. unfold nearest_even. rewrite Z.mod_mul, Z.div_mul by lia. by destruct (Z.ltb_spec (2 * 0) d); [|lia].
Qed.

(** The exponent of the last bit. *)
Definition last_bit (n d : Z) : Z := Z.max 0 (Z.log2 (n / d) - 52).

Lemma round_ratio_upper n d : 0 <= n → 0 < d → round_ratio n d <= 2 ^ (last_bit n d + 53).
Proof.
  intros Hn Hd. unfold round_ratio. fold (last_bit n d). set (k := last_bit n d). assert (0 <= k) as Hk by (unfold k, last_bit; lia).
  assert (0 < 2 ^ k) as H2 by (apply Z.pow_pos_nonneg; lia).
  rewrite Z.pow_add_r, Z.mul_comm by lia. apply Z.mul_le_mono_nonneg_l; [lia|].
  pose proof (nearest_even_bounds n (d * 2 ^ k) ltac:(nia)) as [_ Hb].
  enough (n / (d * 2 ^ k) < 2 ^ 53) by lia. rewrite <-Z.div_div by lia. apply Z.div_lt_upper_bound; [lia|].
  rewrite <-Z.pow_add_r by lia. pose proof (Z.div_pos n d ltac:(lia) ltac:(lia)) as Hq. destruct (decide (n / d = 0)) as [E|E].
  - rewrite E. apply Z.pow_pos_nonneg; lia.
  - pose proof (Z.log2_spec (n / d) ltac:(lia)) as [_ Hlog]. eapply Z.lt_le_trans; [exact Hlog|].
    apply Z.pow_le_mono_r; unfold k, last_bit; lia.
Qed.
Lemma round_ratio_lower n d : 0 <= n → 0 < d → 0 < last_bit n d → 2 ^ (last_bit n d + 52) <= round_ratio n d.
Proof.
  intros Hn Hd Hk. unfold round_ratio. fold (last_bit n d). set (k := last_bit n d) in *.
  assert (0 < 2 ^ k) as H2 by (apply Z.pow_pos_nonneg; lia).
  rewrite Z.pow_add_r, Z.mul_comm by lia. apply Z.mul_le_mono_nonneg_r; [lia|].
  pose proof (nearest_even_bounds n (d * 2 ^ k) ltac:(nia)) as [Hb _]. etrans; [|exact Hb].
  rewrite <-Z.div_div by lia. apply Z.div_le_lower_bound; [lia|]. rewrite <-Z.pow_add_r by lia.
  pose proof (Z.div_pos n d ltac:(lia) ltac:(lia)) as Hq.
  assert (n / d ≠ 0) as E by (intros E; unfold k, last_bit in Hk; rewrite E in Hk; simpl in Hk; lia).
  pose proof (Z.log2_spec (n / d) ltac:(lia)) as [Hlog _]. etrans; [|exact Hlog].
  apply Z.pow_le_mono_r; unfold k, last_bit in *; lia.
Qed.
Lemma round_ratio_nonneg n d : 0 <= n → 0 < d → 0 <= round_ratio n d.
Proof.
  intros Hn Hd. unfold round_ratio. fold (last_bit n d). assert (0 < 2 ^ last_bit n d) by (apply Z.pow_pos_nonneg; unfold last_bit; lia).
  apply Z.mul_nonneg_nonneg; [|lia]. etrans; [|by apply nearest_even_bounds; nia]. apply Z.div_pos; nia.
Qed.

(** Rounding is monotone. *)
Lemma round_ratio_mono n d n' d' : 0 <= n → 0 < d → 0 < d' → n * d' <= n' * d → round_ratio n d <= round_ratio n' d'.
Proof.
  intros Hn Hd Hd' H. assert (0 <= n') as Hn' by nia. pose proof (div_le_cross n d n' d' Hd Hd' H) as Hq.
  assert (last_bit n d <= last_bit n' d') as Hk by (apply Z.log2_le_mono in Hq; unfold last_bit; lia).
  destruct (decide (last_bit n d = last_bit n' d')) as [E|E].
  - unfold round_ratio. fold (last_bit n d) (last_bit n' d'). rewrite E.
    assert (0 < 2 ^ last_bit n' d') by (apply Z.pow_pos_nonneg; unfold last_bit; lia).
    apply Z.mul_le_mono_nonneg_r; [lia|]. apply nearest_even_mono; nia.
  - assert (0 <= last_bit n d) by (unfold last_bit; lia).
    etrans; [by apply round_ratio_upper|]. etrans; [|apply round_ratio_lower; lia]. apply Z.pow_le_mono_r; lia.
Qed.
Lemma round_signed_mono n d n' d' : 0 < d → 0 < d' → n * d' <= n' * d → round_signed n d <= round_signed n' d'.
Proof.
  intros Hd Hd' H. unfold round_signed. destruct (Z.ltb_spec n 0), (Z.ltb_spec n' 0).
  - apply Z.opp_le_mono. rewrite !Z.opp_involutive. apply round_ratio_mono; lia.
  - pose proof (round_ratio_nonneg (- n) d ltac:(lia) Hd). pose proof (round_ratio_nonneg n' d' ltac:(lia) Hd'). lia.
  - exfalso. nia.
  - by apply round_ratio_mono.
Qed.

(** What the format holds is not changed. *)
Definition representable (v : Z) : Prop := (∃ m j, v = m * 2 ^ j ∧ Z.abs m <= 2 ^ 53 ∧ 0 <= j) ∧ Z.abs v < float_limit.

Lemma round_ratio_exact m j d : 0 <= m < 2 ^ 53 → 0 <= j → 0 < d → round_ratio (m * 2 ^ j * d) d = m * 2 ^ j.
Proof.
  intros Hm Hj Hd. unfold round_ratio. rewrite Z.div_mul by lia. set (k := Z.max 0 _).
  assert (k <= j) as Hk.
  { subst k. destruct (decide (m = 0)) as [->|]; [simpl; lia|]. rewrite Z.log2_mul_pow2 by lia.
    assert (Z.log2 m < 53) by (apply Z.log2_lt_pow2; lia). lia. }
  assert (2 ^ j = 2 ^ (j - k) * 2 ^ k) as E by (rewrite <-Z.pow_add_r by lia; f_equal; lia).
  assert (0 < 2 ^ k) by (apply Z.pow_pos_nonneg; lia).
  replace (m * 2 ^ j * d) with ((m * 2 ^ (j - k)) * (d * 2 ^ k)) by (rewrite E; ring).
  rewrite nearest_even_exact by nia. rewrite E. ring.
Qed.
Lemma round_signed_exact v d : representable v → 0 < d → round_signed (v * d) d = v.
Proof.
  intros [(m & j & -> & Hm & Hj) _] Hd.
  assert (∀ m, 0 <= m <= 2 ^ 53 → round_ratio (m * 2 ^ j * d) d = m * 2 ^ j) as Hpos.
  { intros m' Hm'. destruct (decide (m' = 2 ^ 53)) as [->|]; [|apply round_ratio_exact; lia].
    replace (2 ^ 53 * 2 ^ j) with (2 ^ 52 * 2 ^ (j + 1)) by (rewrite Z.pow_add_r by lia; ring). apply round_ratio_exact; lia. }
  assert (0 < 2 ^ j) by (apply Z.pow_pos_nonneg; lia).
  unfold round_signed. destruct (Z.ltb_spec (m * 2 ^ j * d) 0).
  - replace (- (m * 2 ^ j * d)) with ((- m) * 2 ^ j * d) by ring. rewrite Hpos; nia.
  - apply Hpos. nia.
Qed.

(** The integers up to 2^53. *)
Lemma representable_int z : Z.abs z <= 2 ^ 53 → representable (z * float_one).
Proof.
  intros Hz. pose proof one_limit. pose proof one_pos. split; [exists z, 1074; by rewrite one_pow|]. nia.
Qed.
Lemma representable_0 : representable 0.
Proof. apply (representable_int 0). lia. Qed.
Lemma representable_1 : representable float_one.
Proof. rewrite <-(Z.mul_1_l float_one). by apply representable_int. Qed.
Create HintDb floats.
#[export] Hint Resolve representable_0 representable_1 : floats.

(** ** Intervals *)

Definition between (lo hi : Z) (x : float64) : Prop := ∃ v, x = Finite v ∧ lo <= v <= hi.

Lemma between_mono lo hi lo' hi' x : between lo hi x → lo' <= lo → hi <= hi' → between lo' hi' x.
Proof. intros (v & -> & Hv) ? ?. exists v. split; [done|lia]. Qed.

Lemma of_ratio_between n d lo hi :
  0 < d → representable lo → representable hi → lo * d <= n → n <= hi * d → between lo hi (float_of_ratio n d).
Proof.
  intros Hd Hlo Hhi Hl Hh.
  assert (lo <= round_signed n d) as H1 by (rewrite <-(round_signed_exact lo d) by done; apply round_signed_mono; nia).
  assert (round_signed n d <= hi) as H2 by (rewrite <-(round_signed_exact hi d) by done; apply round_signed_mono; nia).
  destruct Hlo as [_ Hlo], Hhi as [_ Hhi]. unfold float_of_ratio. destruct (Z.ltb_spec (Z.abs (round_signed n d)) float_limit); [|lia].
  by eexists.
Qed.

Lemma float_of_ratio_0 d : 0 < d → float_of_ratio 0 d = Finite 0.
Proof. intros Hd. destruct (of_ratio_between 0 d 0 0) as (v & -> & Hv); [done|apply representable_0|apply representable_0|lia|lia|]. f_equal. lia. Qed.
Lemma float_of_int_exact z : Z.abs z <= 2 ^ 53 → float_of_int z = Finite (z * float_one).
Proof.
  intros Hz. destruct (of_ratio_between (z * float_one) 1 (z * float_one) (z * float_one)) as (v & E & Hv); try by auto using representable_int; lia.
  unfold float_of_int. rewrite E. f_equal. lia.
Qed.
Lemma add_between a b c d lo hi x y :
  between a b x → between c d y → representable lo → representable hi → lo <= a + c → b + d <= hi → between lo hi (x + y).
Proof. intros (v & -> & Hv) (w & -> & Hw) Hlo Hhi Hl Hh. apply of_ratio_between; [done..|lia|lia]. Qed.
Lemma sub_between a b c d lo hi x y :
  between a b x → between c d y → representable lo → representable hi → lo <= a - d → b - c <= hi → between lo hi (x - y).
Proof.
  intros Hx (w & -> & Hw) Hlo Hhi Hl Hh. apply (add_between a b (- d) (- c)); [done| |done..|lia|lia]. exists (- w). split; [done|lia].
Qed.
Lemma mul_between b d hi x y :
  between 0 b x → between 0 d y → representable hi → b * d <= hi * float_one → between 0 hi (x * y).
Proof.
  intros (v & -> & Hv) (w & -> & Hw) Hhi Hh. pose proof one_pos. apply of_ratio_between; [done|apply representable_0|done|nia|nia].
Qed.
Lemma div_between v w : 0 <= v <= w → 0 < w → between 0 float_one (Finite v / Finite w).
Proof.
  intros Hv Hw. pose proof one_pos. unfold float_div. destruct (Z.eqb_spec w 0); [lia|]. rewrite Z.sgn_pos, Z.abs_eq by lia.
  apply of_ratio_between; [done|apply representable_0|apply representable_1|nia|nia].
Qed.
Lemma abs_between b x : between (- b) b x → between 0 b (float_abs x).
Proof. intros (v & -> & Hv). exists (Z.abs v). split; [done|lia]. Qed.
Lemma square_between x : between (- float_one) float_one x → between 0 float_one (x * x).
Proof.
  intros (v & -> & Hv). pose proof one_pos. apply of_ratio_between; [done|apply representable_0|apply representable_1|nia|nia].
Qed.

Lemma int_of_float_between `{FloatConversion} a b x :
  between (a * float_one) (b * float_one) x → 0 <= a → b <= MaxInt64 → a <= int_of_float x <= b.
Proof.
  intros (v & -> & Hv) Ha Hb. pose proof one_pos. unfold int_of_float.
  assert (a <= v ÷ float_one <= b) as Hq.
  { rewrite Z.quot_div_nonneg by nia. split; [apply Z.div_le_lower_bound; nia|]. apply Z.div_le_upper_bound; nia. }
  rewrite bool_decide_true; [done|]. unfold int64, MinInt64 in *. lia.
Qed.

Lemma int_of_float_0 `{FloatConversion} : int_of_float (Finite 0) = 0.
Proof. unfold int_of_float. rewrite Z.quot_0_l by (pose proof one_pos; lia). by rewrite bool_decide_true. Qed.

(** ** Order *)

Definition fle (x y : float64) : Prop := float_leb x y = true.

Lemma of_ratio_mono n d n' d' : 0 < d → 0 < d' → n * d' <= n' * d → fle (float_of_ratio n d) (float_of_ratio n' d').
Proof.
  intros Hd Hd' H. pose proof (round_signed_mono n d n' d' Hd Hd' H) as Hm. pose proof float_limit_pos.
  assert (∀ m e, 0 < e → n < 0 ∨ True → (m <? 0) = true → round_signed m e <= 0) as Hneg.
  { intros m e He _ Hm0. unfold round_signed. rewrite Hm0. apply Z.ltb_lt in Hm0. pose proof (round_ratio_nonneg (- m) e ltac:(lia) He). lia. }
  assert (∀ m e, 0 < e → (m <? 0) = false → 0 <= round_signed m e) as Hpos.
  { intros m e He Hm0. unfold round_signed. rewrite Hm0. apply Z.ltb_ge in Hm0. by apply round_ratio_nonneg. }
  unfold fle, float_of_ratio.
  destruct (Z.ltb_spec (Z.abs (round_signed n d)) float_limit), (Z.ltb_spec (Z.abs (round_signed n' d')) float_limit);
    destruct (n <? 0) eqn:En, (n' <? 0) eqn:En'; simpl; try done; try (by apply Z.leb_le);
    try (pose proof (Hneg n d Hd (or_intror I) En)); try (pose proof (Hpos n d Hd En));
    try (pose proof (Hneg n' d' Hd' (or_intror I) En')); try (pose proof (Hpos n' d' Hd' En')); lia.
Qed.
Lemma add_mono x y x' y' :
  fle (Finite x) (Finite x') → fle (Finite y) (Finite y') → fle (Finite x + Finite y) (Finite x' + Finite y').
Proof. unfold fle at 1 2. simpl. rewrite !Z.leb_le. intros ? ?. apply of_ratio_mono; lia. Qed.
Lemma mul_mono x y x' y' : 0 <= x <= x' → 0 <= y <= y' → fle (Finite x * Finite y) (Finite x' * Finite y').
Proof. intros Hx Hy. pose proof one_pos. apply of_ratio_mono; [done..|]. apply Z.mul_le_mono_nonneg_r; [lia|]. apply Z.mul_le_mono_nonneg; lia. Qed.
Lemma div_mono v v' w : v <= v' → 0 < w → fle (Finite v / Finite w) (Finite v' / Finite w).
Proof.
  intros Hv Hw. pose proof one_pos. unfold float_div. destruct (Z.eqb_spec w 0); [lia|]. rewrite Z.sgn_pos, Z.abs_eq by lia.
  apply of_ratio_mono; [done..|]. apply Z.mul_le_mono_nonneg_r; [lia|]. nia.
Qed.
Lemma int_of_float_mono `{FloatConversion} b x y :
  between 0 (b * float_one) x → between 0 (b * float_one) y → b <= MaxInt64 → fle x y → int_of_float x <= int_of_float y.
Proof.
  intros Hx Hy Hb Hle. pose proof one_pos.
  assert (∀ v, 0 <= v <= b * float_one → int_of_float (Finite v) = v / float_one) as E.
  { intros v Hv. unfold int_of_float. rewrite Z.quot_div_nonneg by lia. rewrite bool_decide_true; [done|].
    assert (0 <= v / float_one <= b) by (split; [apply Z.div_pos; lia|apply Z.div_le_upper_bound; nia]). unfold int64, MinInt64. lia. }
  destruct Hx as (v & -> & Hv), Hy as (w & -> & Hw). unfold fle in Hle. simpl in Hle. apply Z.leb_le in Hle.
  rewrite !E by done. apply Z.div_le_mono; lia.
Qed.

(** Sums of integers are exact up to 2^53. *)
Lemma add_int a b : Z.abs (a + b) <= 2 ^ 53 → (Finite (a * float_one) + Finite (b * float_one))%float = Finite ((a + b) * float_one).
Proof.
  intros H. rewrite <-(float_of_int_exact (a + b)) by done. unfold float_of_int. simpl. f_equal. ring.
Qed.
