(* ===== verification/Priorities.v ===== *)
(** * Priority functions (src/pkg/scheduler/algorithm/priorities)

    A priority function gives every node a score; [PrioritizeNodes] (GenericScheduler.v) adds the
    scores up with their weights.  Most consist of a map, for one node, and a reduce, which puts the
    results on the scale of 0 to [MaxPriority]; the affinity between pods is scored for all
    nodes at once.  The metadata that the map functions get is [None] for nil.  Logging is left out. *)
From S2P Require Import Prelude Heap Api Util Backoff SchedulingQueue Resource HostPorts NodeTree NodeInfo PoolInfo Predicates Cache GenericScheduler Metadata PredicateFuncs VolumePredicates Float64.
From Stdlib Require Import Ascii.

(** ** Libraries

    apimachinery meta/v1 and labels, kubernetes core/v1/helper and util/parsers. The controllers that a node
    wants to avoid are pointers. *)
Record OwnerReference := MkOwnerReference { owner_Kind : string; owner_UID : string }.
Class PriorityLib := {
  SelectorFromSet : gmap string string → Selector;
  GetControllerOf : Pod → option OwnerReference;
  NodeSelectorRequirementsAsSelector : list NodeSelectorRequirement → error + Selector;
  GetAvoidPodsFromNodeAnnotations : gmap string string → error + list (option OwnerReference);
  DefaultImageTag : string
}.
(** client-go util/workqueue: the calls that workers make under a lock, the calls of each worker in their order. *)
Class Workers := {
  interleave : ∀ {A}, list (list A) → list A;
  interleave_perm {A} (ls : list (list A)) : interleave ls ≡ₚ concat ls
}.
Definition TaintEffectPreferNoSchedule : string := "PreferNoSchedule".

(** The listers of services and controllers: the selectors of what matches a pod. *)
Record Listers := MkListers {
  GetPodServices : Pod → error + list (gmap string string);
  GetPodControllers : Pod → error + list (gmap string string);
  GetPodReplicaSets : Pod → error + list (option LabelSelector);
  GetPodStatefulSets : Pod → error + list (option LabelSelector)
}.

(** ** api/types.go *)
Definition MaxPriority : Z := 10.
Definition MaxTotalPriority : Z := MaxInt64.

Definition set_Score (hp : HostPriority) (score : Z) : HostPriority := MkHostPriority (Host hp) score.
(** [return schedulerapi.HostPriority{}, fmt.Errorf("node not found")] *)
Definition no_node : HostPriority * option error := (MkHostPriority EmptyString 0, Some "node not found"%string).
Definition scored (node : Node) (score : Z) : HostPriority * option error := (MkHostPriority (node_Name node) score, None).

(** ** Normalisation (reduce.go) *)

Definition maxCount (result : HostPriorityList) : Z :=
  foldl (λ m hp, if m <? Score hp then Score hp else m) 0 result.
Definition NormalizeReduce (maxPriority : Z) (reverse : bool) (result : HostPriorityList) : HostPriorityList :=
  let max := maxCount result in
  if max =? 0 then if reverse then (λ hp, set_Score hp maxPriority) <$> result else result
  else (λ hp,
    let score := Z.quot (mul64 maxPriority (Score hp)) max in
    set_Score hp (if reverse then sub64 maxPriority score else score)) <$> result.

(** ** Scores of resources *)

(** *** Least and most requested (least_requested.go, most_requested.go) *)

Definition leastRequestedScore (requested capacity : Z) : Z :=
  if capacity =? 0 then 0 else if capacity <? requested then 0
  else Z.quot (mul64 (sub64 capacity requested) MaxPriority) capacity.
Definition leastResourceScorer (requested allocable : Resource) (includeVolumes : bool) (requestedVolumes allocatableVolumes : Z) : comp Z :=
  Some (Z.quot (add64 (leastRequestedScore (MilliCPU requested) (MilliCPU allocable))
                      (leastRequestedScore (Memory requested) (Memory allocable))) 2).

Definition mostRequestedScore (requested capacity : Z) : Z :=
  if capacity =? 0 then 0 else if capacity <? requested then 0
  else Z.quot (mul64 requested MaxPriority) capacity.
Definition mostResourceScorer (requested allocable : Resource) (includeVolumes : bool) (requestedVolumes allocatableVolumes : Z) : comp Z :=
  Some (Z.quot (add64 (mostRequestedScore (MilliCPU requested) (MilliCPU allocable))
                      (mostRequestedScore (Memory requested) (Memory allocable))) 2).

(** *** A function given by points (requested_to_capacity_ratio.go)

    The texts of the errors are without the numbers. *)
Record FunctionShapePoint := MkFunctionShapePoint { Utilization : Z; point_Score : Z }.
Definition FunctionShape : Type := list FunctionShapePoint.
Definition minUtilization : Z := 0.
Definition maxUtilization : Z := 100.
Definition minScore : Z := 0.
Definition maxScore : Z := MaxPriority.

Fixpoint unsorted (points : list FunctionShapePoint) : bool :=
  match points with
  | p :: ((q :: _) as points) => (Utilization q <=? Utilization p) || unsorted points
  | _ => false
  end.
Fixpoint out_of_range (points : list FunctionShapePoint) : option error :=
  match points with
  | [] => None
  | p :: points =>
      if Utilization p <? minUtilization then Some "utilization values must not be less than the minimum"%string
      else if maxUtilization <? Utilization p then Some "utilization values must not be greater than the maximum"%string
      else if point_Score p <? minScore then Some "score values must not be less than the minimum"%string
      else if maxScore <? point_Score p then Some "score valuses not be greater than the maximum"%string
      else out_of_range points
  end.
Definition NewFunctionShape (points : list FunctionShapePoint) : error + FunctionShape :=
  if bool_decide (length points = O) then inl "at least one point must be specified"%string
  else if unsorted points then inl "utilization values must be sorted"%string
  else match out_of_range points with Some err => inl err | None => inr points end.
Definition defaultFunctionShape : FunctionShape :=
  match NewFunctionShape [MkFunctionShapePoint 0 10; MkFunctionShapePoint 100 0] with inl _ => [] | inr shape => shape end.

(** The loop over the points after [prev]. A shape without points is read out of range; points at the same
    utilization divide by zero. *)
Fixpoint broken_linear (prev : option FunctionShapePoint) (shape : FunctionShape) (p : Z) : comp Z :=
  match shape with
  | [] => point_Score <$> prev
  | q :: shape =>
      if p <=? Utilization q then
        match prev with
        | None => Some (point_Score q)
        | Some r =>
            let width := sub64 (Utilization q) (Utilization r) in
            if width =? 0 then None
            else Some (add64 (point_Score r)
                   (wrap64 (Z.quot (mul64 (sub64 (point_Score q) (point_Score r)) (sub64 p (Utilization r))) width)))
        end
      else broken_linear (Some q) shape p
  end.
Definition buildBrokenLinearFunction (shape : FunctionShape) (p : Z) : comp Z := broken_linear None shape p.

Definition resourceScoringFunction (shape : FunctionShape) (requested capacity : Z) : comp Z :=
  if (capacity =? 0) || (capacity <? requested) then buildBrokenLinearFunction shape maxUtilization
  else buildBrokenLinearFunction shape
         (sub64 maxUtilization (wrap64 (Z.quot (mul64 (sub64 capacity requested) maxUtilization) capacity))).
Definition buildRequestedToCapacityRatioScorerFunction (shape : FunctionShape) (requested allocable : Resource)
    (includeVolumes : bool) (requestedVolumes allocatableVolumes : Z) : comp Z :=
  cpuScore ← resourceScoringFunction shape (MilliCPU requested) (MilliCPU allocable);
  memoryScore ← resourceScoringFunction shape (Memory requested) (Memory allocable);
  Some (Z.quot (add64 cpuScore memoryScore) 2).

(** *** Balanced use (balanced_resource_allocation.go) *)

Definition fractionOfCapacity (requested capacity : Z) : float64 :=
  if capacity =? 0 then float_of_int 1 else (float_of_int requested / float_of_int capacity)%float.

(** [1 <= x] *)
Definition is_full (x : float64) : bool := float_leb (float_of_int 1) x.

Section priorities.
Context `{K8sLib} `{MapRange} `{VolumeLib} `{PredicateLib} `{PriorityLib} `{FloatConversion}.
Implicit Types (pod : Pod) (nodeInfo : option NodeInfo) (ls : Listers).

Definition balancedResourceScorer (requested allocable : Resource) (includeVolumes : bool) (requestedVolumes allocatableVolumes : Z) : comp Z :=
  let cpuFraction := fractionOfCapacity (MilliCPU requested) (MilliCPU allocable) in
  let memoryFraction := fractionOfCapacity (Memory requested) (Memory allocable) in
  Some (
    if includeVolumes && feature_BalanceAttachedNodeVolumes && (0 <? allocatableVolumes) then
      let volumeFraction := (float_of_int requestedVolumes / float_of_int allocatableVolumes)%float in
      if is_full cpuFraction || is_full memoryFraction || is_full volumeFraction then 0
      else
        let mean := ((cpuFraction + memoryFraction + volumeFraction) / float_of_int 3)%float in
        let variance := (((cpuFraction - mean) * (cpuFraction - mean) + (memoryFraction - mean) * (memoryFraction - mean) +
                          (volumeFraction - mean) * (volumeFraction - mean)) / float_of_int 3)%float in
        int_of_float ((float_of_int 1 - variance) * float_of_int MaxPriority)%float
    else if is_full cpuFraction || is_full memoryFraction then 0
    else
      let diff := float_abs (cpuFraction - memoryFraction)%float in
      int_of_float ((float_of_int 1 - diff) * float_of_int MaxPriority)%float).

(** ** Metadata (metadata.go) *)

Definition getNonZeroRequests pod : Resource :=
  foldl (λ r c, let '(cpu, memory) := GetNonzeroRequests (Requests c) in
    MkResource (add64 (MilliCPU r) cpu) (add64 (Memory r) memory) (EphemeralStorage r) (AllowedPodNumber r) (ScalarResources r))
    emptyResource (pod_Containers pod).

Definition getAllTolerationPreferNoSchedule (tolerations : list Toleration) : list Toleration :=
  filter (λ t, tol_Effect t = EmptyString ∨ tol_Effect t = TaintEffectPreferNoSchedule) tolerations.

Definition getFirstServiceSelector pod ls : option Selector :=
  match GetPodServices ls pod with
  | inr (service :: _) => Some (SelectorFromSet service)
  | _ => None
  end.

(** The selectors of a lister; an error of the lister or in a selector is ignored. *)
Definition set_selectors (r : error + list (gmap string string)) : list Selector :=
  match r with inl _ => [] | inr l => SelectorFromSet <$> l end.
Definition label_selectors (r : error + list (option LabelSelector)) : list Selector :=
  match r with
  | inl _ => []
  | inr l => omap (λ s, match LabelSelectorAsSelector s with inl _ => None | inr sel => Some sel end) l
  end.
Definition getSelectors pod ls : list Selector :=
  set_selectors (GetPodServices ls pod) ++ set_selectors (GetPodControllers ls pod) ++
  label_selectors (GetPodReplicaSets ls pod) ++ label_selectors (GetPodStatefulSets ls pod).

Record priorityMetadata := MkPriorityMetadata {
  nonZeroRequest : Resource;
  podTolerations : list Toleration;
  pm_affinity : option Affinity;
  podSelectors : list Selector;
  controllerRef : option OwnerReference;
  podFirstServiceSelector : option Selector;
  totalNumNodes : Z
}.
Implicit Type meta : option priorityMetadata.

(** Of a factory with these listers; the pod is not nil. *)
Definition PriorityMetadata ls pod (nodeNameToInfo : gmap string NodeInfo) : option priorityMetadata :=
  Some (MkPriorityMetadata (getNonZeroRequests pod) (getAllTolerationPreferNoSchedule (Tolerations (pod_Spec pod)))
    (spec_Affinity (pod_Spec pod)) (getSelectors pod ls) (GetControllerOf pod) (getFirstServiceSelector pod ls)
    (Z.of_nat (size nodeNameToInfo))).
Definition EmptyPriorityMetadataProducer pod (nodeNameToInfo : gmap string NodeInfo) : option priorityMetadata := None.

(** ** The score of the allocation (resource_allocation.go) *)

Record ResourceAllocationPriority := MkResourceAllocationPriority {
  ra_Name : string;
  scorer : Resource → Resource → bool → Z → Z → comp Z
}.

(** A slice has a length of at least zero, so pods without volumes are treated alike. *)
Definition PriorityMap (r : ResourceAllocationPriority) pod meta nodeInfo : comp (HostPriority * option error) :=
  match nodeInfo, NodeInfo_Node nodeInfo with
  | Some info, Some node =>
      let allocatable := ni_allocatableResource info in
      let requested := match meta with Some m => nonZeroRequest m | None => getNonZeroRequests pod end in
      let requested := MkResource (add64 (MilliCPU requested) (MilliCPU (ni_nonzeroRequest info)))
        (add64 (Memory requested) (Memory (ni_nonzeroRequest info))) (EphemeralStorage requested)
        (AllowedPodNumber requested) (ScalarResources requested) in
      let trans := TransNodeInfo (ni_TransientInfo info) in
      score ← (if feature_BalanceAttachedNodeVolumes
               then scorer r requested allocatable true (RequestedVolumes trans) (AllocatableVolumesCount trans)
               else scorer r requested allocatable false 0 0);
      Some (scored node score)
  | _, _ => Some no_node
  end.

Definition leastResourcePriority : ResourceAllocationPriority := MkResourceAllocationPriority "LeastResourceAllocation" leastResourceScorer.
Definition LeastRequestedPriorityMap := PriorityMap leastResourcePriority.
Definition mostResourcePriority : ResourceAllocationPriority := MkResourceAllocationPriority "MostResourceAllocation" mostResourceScorer.
Definition MostRequestedPriorityMap := PriorityMap mostResourcePriority.
Definition balancedResourcePriority : ResourceAllocationPriority :=
  MkResourceAllocationPriority "BalancedResourceAllocation" balancedResourceScorer.
Definition BalancedResourceAllocationMap := PriorityMap balancedResourcePriority.
Definition RequestedToCapacityRatioResourceAllocationPriority (shape : FunctionShape) : ResourceAllocationPriority :=
  MkResourceAllocationPriority "RequestedToCapacityRatioResourceAllocationPriority" (buildRequestedToCapacityRatioScorerFunction shape).
Definition RequestedToCapacityRatioResourceAllocationPriorityDefault : ResourceAllocationPriority :=
  RequestedToCapacityRatioResourceAllocationPriority defaultFunctionShape.

(** ** Limits (resource_limits.go) *)

Definition computeScore (limit allocatable : Z) : Z :=
  if negb (limit =? 0) && negb (allocatable =? 0) && (limit <=? allocatable) then 1 else 0.
Definition getResourceLimits pod : Resource :=
  foldl (λ r c, SetMaxResource r (Limits c)) (foldl (λ r c, Resource_Add r (Limits c)) emptyResource (pod_Containers pod))
    (InitContainers (pod_Spec pod)).
Definition ResourceLimitsPriorityMap pod meta nodeInfo : comp (HostPriority * option error) :=
  match nodeInfo, NodeInfo_Node nodeInfo with
  | Some info, Some node =>
      let podLimits := getResourceLimits pod in
      let cpuScore := computeScore (MilliCPU podLimits) (MilliCPU (ni_allocatableResource info)) in
      let memScore := computeScore (Memory podLimits) (Memory (ni_allocatableResource info)) in
      Some (scored node (if (cpuScore =? 1) || (memScore =? 1) then 1 else 0))
  | _, _ => Some no_node
  end.

(** ** Images (image_locality.go) *)

Definition mb : Z := 1024 * 1024.
Definition minThreshold : Z := 23 * mb.
Definition maxThreshold : Z := 1000 * mb.

(** [strings.LastIndex] of one character *)
Fixpoint last_index (c : ascii) (s : string) : Z :=
  match s with
  | EmptyString => -1
  | String a s => let i := last_index c s in if 0 <=? i then i + 1 else if (a =? c)%char then 0 else -1
  end.
Definition normalizedImageName (name : string) : string :=
  if last_index ":"%char name <=? last_index "/"%char name then (name +:+ ":" +:+ DefaultImageTag)%string else name.

Definition scaledImageScore (imageState : ImageStateSummary) (totalNumNodes : Z) : Z :=
  let spread := (float_of_int (NumNodes imageState) / float_of_int totalNumNodes)%float in
  int_of_float (float_of_int (Size imageState) * spread)%float.
Definition sumImageScores (info : NodeInfo) (containers : list Container) (totalNumNodes : Z) : Z :=
  foldl (λ sum c,
    match ni_imageStates info !! normalizedImageName (Image c) with
    | Some state => add64 sum (scaledImageScore state totalNumNodes)
    | None => sum
    end) 0 containers.
Definition calculatePriority (sumScores : Z) : Z :=
  let sumScores := if sumScores <? minThreshold then minThreshold else if maxThreshold <? sumScores then maxThreshold else sumScores in
  Z.quot (mul64 MaxPriority (sub64 sumScores minThreshold)) (maxThreshold - minThreshold).
Definition ImageLocalityPriorityMap pod meta nodeInfo : comp (HostPriority * option error) :=
  match nodeInfo, NodeInfo_Node nodeInfo with
  | Some info, Some node =>
      Some (scored node (match meta with
                         | Some m => calculatePriority (sumImageScores info (pod_Containers pod) (totalNumNodes m))
                         | None => 0
                         end))
  | _, _ => Some no_node
  end.

(** ** Properties of the node *)

(** *** Node affinity (node_affinity.go): weights are [int32] *)
Fixpoint preferred_weight (node : Node) (count : Z) (terms : list (Z * NodeSelectorTerm)) : error + Z :=
  match terms with
  | [] => inr count
  | (weight, preference) :: terms =>
      if weight =? 0 then preferred_weight node count terms
      else
        match NodeSelectorRequirementsAsSelector (MatchExpressions preference) with
        | inl err => inl err
        | inr nodeSelector =>
            preferred_weight node (if Selector_Matches nodeSelector (node_Labels node) then wrap32 (count + weight) else count) terms
        end
  end.
Definition CalculateNodeAffinityPriorityMap pod meta nodeInfo : comp (HostPriority * option error) :=
  match NodeInfo_Node nodeInfo with
  | None => Some no_node
  | Some node =>
      let affinity := match meta with Some m => pm_affinity m | None => spec_Affinity (pod_Spec pod) end in
      let terms := match a ← affinity; aff_NodeAffinity a with Some na => PreferredNodeTerms na | None => [] end in
      Some (match preferred_weight node 0 terms with
            | inl err => (MkHostPriority EmptyString 0, Some err)
            | inr count => scored node count
            end)
  end.
Definition CalculateNodeAffinityPriorityReduce : HostPriorityList → HostPriorityList := NormalizeReduce MaxPriority false.

(** *** A label (node_label.go) *)
Record NodeLabelPrioritizer := MkNodeLabelPrioritizer { nl_label : string; nl_presence : bool }.
Definition CalculateNodeLabelPriorityMap (n : NodeLabelPrioritizer) pod meta nodeInfo : comp (HostPriority * option error) :=
  match NodeInfo_Node nodeInfo with
  | None => Some no_node
  | Some node =>
      let exists_ := bool_decide (is_Some (node_Labels node !! nl_label n)) in
      Some (scored node (if (exists_ && nl_presence n) || (negb exists_ && negb (nl_presence n)) then MaxPriority else 0))
  end.

(** *** Pods to avoid (node_prefer_avoid_pods.go) *)
Fixpoint avoids_controller (c : OwnerReference) (avoids : list (option OwnerReference)) : comp bool :=
  match avoids with
  | [] => Some false
  | avoid :: avoids =>
      a ← avoid;
      if bool_decide (owner_Kind a = owner_Kind c) && bool_decide (owner_UID a = owner_UID c) then Some true
      else avoids_controller c avoids
  end.
Definition CalculateNodePreferAvoidPodsPriorityMap pod meta nodeInfo : comp (HostPriority * option error) :=
  match NodeInfo_Node nodeInfo with
  | None => Some no_node
  | Some node =>
      match (match meta with Some m => controllerRef m | None => GetControllerOf pod end) with
      | None => Some (scored node MaxPriority)
      | Some c =>
          if negb (bool_decide (owner_Kind c = "ReplicationController"%string)) && negb (bool_decide (owner_Kind c = "ReplicaSet"%string))
          then Some (scored node MaxPriority)
          else
            match GetAvoidPodsFromNodeAnnotations (Annotations (node_Meta node)) with
            | inl _ => Some (scored node MaxPriority)
            | inr avoids => b ← avoids_controller c avoids; Some (scored node (if (b : bool) then 0 else MaxPriority))
            end
      end
  end.

(** *** Taints (taint_toleration.go) *)
Definition countIntolerableTaintsPreferNoSchedule (taints : list Taint) (tolerations : list Toleration) : Z :=
  foldl (λ n taint,
    if negb (bool_decide (taint_Effect taint = TaintEffectPreferNoSchedule)) then n
    else if negb (TolerationsTolerateTaint tolerations taint) then add64 n 1 else n) 0 taints.
Definition ComputeTaintTolerationPriorityMap pod meta nodeInfo : comp (HostPriority * option error) :=
  match NodeInfo_Node nodeInfo with
  | None => Some no_node
  | Some node =>
      let tolerations := match meta with Some m => podTolerations m | None => getAllTolerationPreferNoSchedule (Tolerations (pod_Spec pod)) end in
      Some (scored node (countIntolerableTaintsPreferNoSchedule (Taints node) tolerations))
  end.
Definition ComputeTaintTolerationPriorityReduce : HostPriorityList → HostPriorityList := NormalizeReduce MaxPriority true.

(** ** Spreading (selector_spreading.go) *)

Definition zoneWeighting : float64 := float_of_ratio (2 * float_one) 3.

Definition countMatchingPods (namespace : string) (selectors : list Selector) (info : NodeInfo) : Z :=
  if bool_decide (length (ni_pods info) = O) || bool_decide (length selectors = O) then 0
  else foldl (λ count pod,
    if bool_decide (namespace = pod_Namespace pod) && bool_decide (DeletionTimestamp (pod_Meta pod) = None) &&
       forallb (λ selector, Selector_Matches selector (Labels (pod_Meta pod))) selectors
    then add64 count 1 else count) 0 (ni_pods info).

Definition CalculateSpreadPriorityMap ls pod meta nodeInfo : comp (HostPriority * option error) :=
  match nodeInfo, NodeInfo_Node nodeInfo with
  | Some info, Some node =>
      let selectors := match meta with Some m => podSelectors m | None => getSelectors pod ls end in
      Some (scored node (if bool_decide (length selectors = O) then 0 else countMatchingPods (pod_Namespace pod) selectors info))
  | _, _ => Some no_node
  end.

(** A host that the snapshot does not have is a nil dereference. *)
Definition zone_of (nodeNameToInfo : gmap string NodeInfo) (host : string) : comp string :=
  node ← NodeInfo_Node (nodeNameToInfo !! host); Some (GetZoneKey node).
Fixpoint count_zones (nodeNameToInfo : gmap string NodeInfo) (countsByZone : gmap string Z) (result : HostPriorityList) : comp (gmap string Z) :=
  match result with
  | [] => Some countsByZone
  | hp :: result =>
      zoneID ← zone_of nodeNameToInfo (Host hp);
      count_zones nodeNameToInfo
        (if bool_decide (zoneID = EmptyString) then countsByZone
         else <[zoneID := add64 (default 0 (countsByZone !! zoneID)) (Score hp)]> countsByZone) result
  end.
(** [MaxPriorityFloat64 * (float64(max-count) / float64(max))] *)
Definition spread_score (max count : Z) : float64 :=
  if 0 <? max then (float_of_int MaxPriority * (float_of_int (sub64 max count) / float_of_int max))%float
  else float_of_int MaxPriority.
Definition zone_score (nodeScore zoneScore : float64) : float64 :=
  (nodeScore * (float_of_int 1 - zoneWeighting) + zoneWeighting * zoneScore)%float.
Definition CalculateSpreadPriorityReduce (nodeNameToInfo : gmap string NodeInfo) (result : HostPriorityList) : comp HostPriorityList :=
  countsByZone ← count_zones nodeNameToInfo ∅ result;
  let maxCountByNodeName := maxCount result in
  let maxCountByZone := foldl (λ m e, if m <? e.2 then e.2 else m) 0 (range countsByZone) in
  let haveZones := negb (bool_decide (size countsByZone = O)) in
  mapM (λ hp,
    let fScore := spread_score maxCountByNodeName (Score hp) in
    fScore ← (if (haveZones : bool) then
                zoneID ← zone_of nodeNameToInfo (Host hp);
                Some (if bool_decide (zoneID = EmptyString) then fScore
                      else zone_score fScore (spread_score maxCountByZone (default 0 (countsByZone !! zoneID))))
              else Some fScore);
    Some (set_Score hp (int_of_float fScore))) result.

(** *** Service anti-affinity *)
Record ServiceAntiAffinity := MkServiceAntiAffinity { saa_listers : Listers; saa_label : string }.

Definition CalculateAntiAffinityPriorityMap (s : ServiceAntiAffinity) pod meta nodeInfo : comp (HostPriority * option error) :=
  match nodeInfo, NodeInfo_Node nodeInfo with
  | Some info, Some node =>
      let first := match meta with Some m => podFirstServiceSelector m | None => getFirstServiceSelector pod (saa_listers s) end in
      Some (scored node (countMatchingPods (pod_Namespace pod) (option_list first) info))
  | _, _ => Some no_node
  end.

(** The label of each host that has it, and the pods per label. *)
Fixpoint count_labels (label : string) (nodeNameToInfo : gmap string NodeInfo) (status : gmap string string) (podCounts : gmap string Z)
    (result : HostPriorityList) : comp (gmap string string * gmap string Z) :=
  match result with
  | [] => Some (status, podCounts)
  | hp :: result =>
      node ← NodeInfo_Node (nodeNameToInfo !! Host hp);
      match node_Labels node !! label with
      | None => count_labels label nodeNameToInfo status podCounts result
      | Some l => count_labels label nodeNameToInfo (<[Host hp := l]> status)
                    (<[l := add64 (default 0 (podCounts !! l)) (Score hp)]> podCounts) result
      end
  end.
Definition CalculateAntiAffinityPriorityReduce (s : ServiceAntiAffinity) (nodeNameToInfo : gmap string NodeInfo) (result : HostPriorityList) :
    comp HostPriorityList :=
  '(status, podCounts) ← count_labels (saa_label s) nodeNameToInfo ∅ ∅ result;
  let numServicePods := foldl (λ n hp, add64 n (Score hp)) 0 result in
  Some ((λ hp,
    match status !! Host hp with
    | None => set_Score hp 0
    | Some l => set_Score hp (int_of_float (spread_score numServicePods (default 0 (podCounts !! l))))
    end) <$> result).

(** ** Affinity between pods (interpod_affinity.go)

    The workers take the nodes of the snapshot, and go over the pods of each; every change of
    the counts is made under a lock.  So the workers produce calls, in some
    interleaving, and the counts are what the calls do one after the other. *)

Record InterPodAffinity := MkInterPodAffinity {
  ipa_GetNodeInfo : string → (bool * error) + Node;
  hardPodAffinityWeight : Z
}.

Inductive affinity_call :=
| ProcessTerm (term : PodAffinityTerm) (podDefiningAffinityTerm podToCheck : Pod) (fixedNode : Node) (weight : float64)
| SetError (err : error).

Record podAffinityPriorityMap := MkPodAffinityPriorityMap {
  pm_counts : gmap string float64;
  pm_firstError : option error
}.
Definition newPodAffinityPriorityMap : podAffinityPriorityMap := MkPodAffinityPriorityMap ∅ None.
Definition setError (p : podAffinityPriorityMap) (err : error) : podAffinityPriorityMap :=
  match pm_firstError p with Some _ => p | None => MkPodAffinityPriorityMap (pm_counts p) (Some err) end.
Definition pm_count (p : podAffinityPriorityMap) (node : Node) : float64 := default (Finite 0) (pm_counts p !! node_Name node).

Definition add_weight (topologyKey : string) (fixedNode : Node) (weight : float64) (counts : gmap string float64) (node : Node) : gmap string float64 :=
  if NodesHaveSameTopologyKey node fixedNode topologyKey
  then <[node_Name node := (default (Finite 0) (counts !! node_Name node) + weight)%float]> counts else counts.
Definition processTerm (nodes : list Node) (p : podAffinityPriorityMap) (term : PodAffinityTerm)
    (podDefiningAffinityTerm podToCheck : Pod) (fixedNode : Node) (weight : float64) : podAffinityPriorityMap :=
  match LabelSelectorAsSelector (pat_LabelSelector term) with
  | inl err => setError p err
  | inr selector =>
      if podMatchesTerm podToCheck (GetNamespacesFromPodAffinityTerm podDefiningAffinityTerm term) selector then
        MkPodAffinityPriorityMap (foldl (add_weight (pat_TopologyKey term) fixedNode weight) (pm_counts p) nodes) (pm_firstError p)
      else p
  end.
Definition run_call (nodes : list Node) (p : podAffinityPriorityMap) (c : affinity_call) : podAffinityPriorityMap :=
  match c with
  | ProcessTerm term definer pod fixedNode weight => processTerm nodes p term definer pod fixedNode weight
  | SetError err => setError p err
  end.

Definition processTerms (terms : list (Z * PodAffinityTerm)) (podDefiningAffinityTerm podToCheck : Pod) (fixedNode : Node) (multiplier : Z) :
    list affinity_call :=
  (λ wt, ProcessTerm wt.2 podDefiningAffinityTerm podToCheck fixedNode (float_of_int (wrap32 (wt.1 * multiplier)))) <$> terms.
Definition preferred_terms (a : option PodAffinity) : list (Z * PodAffinityTerm) := match a with Some a => PreferredTerms a | None => [] end.

Definition processPod (ipa : InterPodAffinity) pod (existingPod : Pod) : list affinity_call :=
  match ipa_GetNodeInfo ipa (pod_NodeName existingPod) with
  | inl (true, _) => []
  | inl (false, err) => [SetError err]
  | inr existingPodNode =>
      processTerms (preferred_terms (PodAffinity_of pod)) pod existingPod existingPodNode 1 ++
      processTerms (preferred_terms (PodAntiAffinity_of pod)) pod existingPod existingPodNode (-1) ++
      match PodAffinity_of existingPod with
      | Some a =>
          (if 0 <? hardPodAffinityWeight ipa then
             (λ term, ProcessTerm term existingPod pod existingPodNode (float_of_int (hardPodAffinityWeight ipa))) <$> RequiredTerms a
           else []) ++
          processTerms (PreferredTerms a) existingPod pod existingPodNode 1
      | None => []
      end ++
      processTerms (preferred_terms (PodAntiAffinity_of existingPod)) existingPod pod existingPodNode (-1)
  end.
Definition processNode (ipa : InterPodAffinity) pod (info : NodeInfo) : list affinity_call :=
  match ni_node info with
  | None => []
  | Some _ =>
      (if bool_decide (is_Some (PodAffinity_of pod)) || bool_decide (is_Some (PodAntiAffinity_of pod))
       then ni_pods info else ni_podsWithAffinity info) ≫= processPod ipa pod
  end.

(** workqueue.ParallelizeUntil: what the workers do, in some order. *)
Context `{Workers}.

Definition affinity_score (count minCount maxCount : float64) : Z :=
  int_of_float (if float_ltb (Finite 0) (maxCount - minCount)%float
                then (float_of_int MaxPriority * ((count - minCount) / (maxCount - minCount)))%float else Finite 0).
Definition CalculateInterPodAffinityPriority (ipa : InterPodAffinity) pod (nodeNameToInfo : gmap string NodeInfo) (nodes : list Node) :
    HostPriorityList * option error :=
  let pm := foldl (run_call nodes) newPodAffinityPriorityMap (interleave ((λ e, processNode ipa pod e.2) <$> range nodeNameToInfo)) in
  match pm_firstError pm with
  | Some err => ([], Some err)
  | None =>
      let maxCount := foldl (λ m node, if float_ltb m (pm_count pm node) then pm_count pm node else m) (Finite 0) nodes in
      let minCount := foldl (λ m node, if float_ltb (pm_count pm node) m then pm_count pm node else m) (Finite 0) nodes in
      ((λ node, MkHostPriority (node_Name node) (affinity_score (pm_count pm node) minCount maxCount)) <$> nodes, None)
  end.

(** ** The registered functions (algorithmprovider/defaults/register_priorities.go)

    A configuration with a function for all nodes has no map. *)
Abbreviation Config := (PriorityConfig (option priorityMetadata)).

Definition no_map pod meta nodeInfo : comp (HostPriority * option error) := None.
Definition map_only (f : Pod → option priorityMetadata → option NodeInfo → comp (HostPriority * option error)) (weight : Z) : Config :=
  MkPriorityConfig _ f None None weight.
Definition map_reduce (f : Pod → option priorityMetadata → option NodeInfo → comp (HostPriority * option error))
    (reduce : gmap string NodeInfo → HostPriorityList → comp HostPriorityList) (weight : Z) : Config :=
  MkPriorityConfig _ f (Some (λ _ _ infos l, l ← reduce infos l; Some (l, None))) None weight.

Definition selectorSpread ls (weight : Z) : Config := map_reduce (CalculateSpreadPriorityMap ls) CalculateSpreadPriorityReduce weight.
Definition interPodAffinity (ipa : InterPodAffinity) (weight : Z) : Config :=
  MkPriorityConfig _ no_map None (Some (λ pod infos nodes, Some (CalculateInterPodAffinityPriority ipa pod infos nodes))) weight.
Definition leastRequested (weight : Z) : Config := map_only LeastRequestedPriorityMap weight.
Definition mostRequested (weight : Z) : Config := map_only MostRequestedPriorityMap weight.
Definition requestedToCapacityRatio (shape : FunctionShape) (weight : Z) : Config :=
  map_only (PriorityMap (RequestedToCapacityRatioResourceAllocationPriority shape)) weight.
Definition balancedAllocation (weight : Z) : Config := map_only BalancedResourceAllocationMap weight.
Definition nodePreferAvoidPods (weight : Z) : Config := map_only CalculateNodePreferAvoidPodsPriorityMap weight.
Definition nodeAffinity (weight : Z) : Config :=
  map_reduce CalculateNodeAffinityPriorityMap (λ _ l, Some (CalculateNodeAffinityPriorityReduce l)) weight.
Definition taintToleration (weight : Z) : Config :=
  map_reduce ComputeTaintTolerationPriorityMap (λ _ l, Some (ComputeTaintTolerationPriorityReduce l)) weight.
Definition imageLocality (weight : Z) : Config := map_only ImageLocalityPriorityMap weight.
Definition equalPriority (weight : Z) : Config :=
  map_only (λ _ _ nodeInfo, Some (match EqualPriorityMap nodeInfo with
                                  | inl err => (MkHostPriority EmptyString 0, Some err)
                                  | inr hp => (hp, None)
                                  end)) weight.
Definition resourceLimits (weight : Z) : Config := map_only ResourceLimitsPriorityMap weight.
Definition nodeLabel (n : NodeLabelPrioritizer) (weight : Z) : Config := map_only (CalculateNodeLabelPriorityMap n) weight.
Definition serviceAntiAffinity (sa : ServiceAntiAffinity) (weight : Z) : Config :=
  map_reduce (CalculateAntiAffinityPriorityMap sa) (CalculateAntiAffinityPriorityReduce sa) weight.

(** The functions of the default provider, in the order of their names (defaults.go). *)
Definition defaultPriorities ls (ipa : InterPodAffinity) : list Config :=
  [balancedAllocation 1; imageLocality 1; interPodAffinity ipa 1; leastRequested 1; nodeAffinity 1;
   nodePreferAvoidPods 10000; selectorSpread ls 1; taintToleration 1].

(** ** Weights (factory/plugins.go) *)
Fixpoint validate_weights (totalPriority : Z) (configs : list Config) : option error :=
  match configs with
  | [] => None
  | config :: configs =>
      if sub64 MaxTotalPriority totalPriority <? mul64 (pc_Weight config) MaxPriority
      then Some "total priority of priority functions has overflown"%string
      else validate_weights (add64 totalPriority (mul64 (pc_Weight config) MaxPriority)) configs
  end.
Definition validateSelectedConfigs (configs : list Config) : option error := validate_weights 0 configs.
End priorities.
