(* ===== verification/PriorityProofs.v ===== *)
(** * The scores of priority functions

    Every registered function stays on the scale of 0 to [MaxPriority], so that the weights mean what
    they say and the sum does not overflow; the affinity between pods is
    scored exactly, whatever the interleaving of the workers. *)
From S2P Require Import Prelude Heap Api Util Backoff SchedulingQueue Resource HostPorts NodeTree NodeInfo PoolInfo Predicates Cache GenericScheduler Metadata PredicateFuncs VolumePredicates Float64 Priorities.

Definition on_scale (z : Z) : Prop := 0 <= z <= MaxPriority.
Definition all_on_scale (l : HostPriorityList) : Prop := Forall (λ hp, on_scale (Score hp)) l.

(** A score that can be put on the scale without overflow. *)
Definition countable (z : Z) : Prop := 0 <= z /\ z * MaxPriority <= MaxInt64.

(** Arithmetic that does not wrap. *)
Ltac in_range := unfold on_scale, countable, int64, int32, MinInt64, MaxInt64, MinInt32, MaxInt32, maxUtilization, minUtilization, maxScore, minScore, MaxPriority in *; first [lia|nia].
Ltac no_wrap := unfold add64, sub64, mul64; rewrite wrap64_id by in_range.

Lemma quot_on_scale a b : 0 <= a → 0 < b → a <= b * MaxPriority → on_scale (Z.quot a b).
Proof.
  intros Ha Hb H. unfold on_scale. rewrite Z.quot_div_nonneg by lia. split; [apply Z.div_pos; lia|]. by apply Z.div_le_upper_bound.
Qed.
Lemma average_on_scale a b : on_scale a → on_scale b → on_scale (Z.quot (add64 a b) 2).
Proof.
  intros Ha Hb. no_wrap. apply quot_on_scale; in_range.
Qed.

(** ** Normalisation *)

Lemma maxCount_acc l : ∀ m, m <= foldl (λ m hp, if m <? Score hp then Score hp else m) m l ∧
  Forall (λ hp, Score hp <= foldl (λ m hp, if m <? Score hp then Score hp else m) m l) l ∧
  (foldl (λ m hp, if m <? Score hp then Score hp else m) m l = m ∨
   ∃ hp, hp ∈ l ∧ Score hp = foldl (λ m hp, if m <? Score hp then Score hp else m) m l).
Proof.
  induction l as [|hp l IH]; intros m; simpl; [split_and!; [lia|constructor|by left]|].
  destruct (IH (if m <? Score hp then Score hp else m)) as (H1 & H2 & H3). destruct (Z.ltb_spec m (Score hp)).
  - split_and!; [lia|by constructor|]. right. destruct H3 as [->|(x & Hx & E)]; [exists hp|exists x]; split; auto; set_solver.
  - split_and!; [done|constructor; [lia|done]|]. destruct H3 as [->|(x & Hx & E)]; [by left|]. right. exists x. split; [set_solver|done].
Qed.
Lemma maxCount_spec l : 0 <= maxCount l ∧ (∀ hp, hp ∈ l → Score hp <= maxCount l) ∧
  (0 < maxCount l → ∃ hp, hp ∈ l ∧ Score hp = maxCount l).
Proof.
  unfold maxCount. destruct (maxCount_acc l 0) as (H1 & H2 & H3). rewrite Forall_forall in H2. split_and!; [done..|].
  intros ?. destruct H3 as [H3|?]; [lia|done].
Qed.

Lemma NormalizeReduce_scale reverse l : Forall (λ hp, countable (Score hp)) l → all_on_scale (NormalizeReduce MaxPriority reverse l).
Proof.
  intros Hl. rewrite Forall_forall in Hl. destruct (maxCount_spec l) as (H0 & Hle & _). unfold NormalizeReduce.
  destruct (Z.eqb_spec (maxCount l) 0) as [E|E].
  - destruct reverse; apply Forall_forall; [intros hp (x & -> & _)%list_elem_of_fmap; simpl; in_range|].
    intros hp Hin. pose proof (Hle hp Hin). destruct (Hl hp Hin). in_range.
  - apply Forall_forall. intros hp (x & -> & Hin)%list_elem_of_fmap. pose proof (Hle x Hin). destruct (Hl x Hin) as [Hx1 Hx2]. simpl.
    assert (mul64 MaxPriority (Score x) = Score x * MaxPriority) as Em.
    { no_wrap. lia. }
    rewrite Em. assert (on_scale (Z.quot (Score x * MaxPriority) (maxCount l))) as Hs by (apply quot_on_scale; in_range).
    destruct reverse; [|done]. no_wrap. in_range.
Qed.

(** ** Resources *)

(** An amount that a node can have, and an amount that pods can ask for. *)
Definition capacity_ok (c : Z) : Prop := 0 <= c ∧ c * maxUtilization <= MaxInt64.
Definition request_ok (r : Z) : Prop := 0 <= r <= MaxInt64.

Lemma leastRequestedScore_scale r c : request_ok r → capacity_ok c → on_scale (leastRequestedScore r c).
Proof.
  intros Hr [Hc1 Hc2]. unfold leastRequestedScore, request_ok in *. destruct (Z.eqb_spec c 0); [in_range|]. destruct (Z.ltb_spec c r); [in_range|].
  unfold sub64. rewrite wrap64_id by in_range. no_wrap. apply quot_on_scale; in_range.
Qed.
Lemma mostRequestedScore_scale r c : request_ok r → capacity_ok c → on_scale (mostRequestedScore r c).
Proof.
  intros Hr [Hc1 Hc2]. unfold mostRequestedScore, request_ok in *. destruct (Z.eqb_spec c 0); [in_range|]. destruct (Z.ltb_spec c r); [in_range|].
  no_wrap. apply quot_on_scale; in_range.
Qed.

(** *** The function given by points *)

Definition point_ok (p : FunctionShapePoint) : Prop := minUtilization <= Utilization p <= maxUtilization ∧ on_scale (point_Score p).
Definition shape_ok (shape : FunctionShape) : Prop :=
  shape ≠ [] ∧ StronglySorted (λ p q, Utilization p < Utilization q) shape ∧ Forall point_ok shape.

Lemma unsorted_false l : unsorted l = false → StronglySorted (λ p q, Utilization p < Utilization q) l.
Proof.
  intros Hl. apply Sorted_StronglySorted; [intros p q r; lia|]. induction l as [|p [|q l] IH]; [constructor|by repeat constructor|].
  cbn [unsorted] in Hl. apply orb_false_iff in Hl as [Hle%Z.leb_gt Hl]. constructor; [by apply IH|by constructor].
Qed.
Lemma out_of_range_None l : out_of_range l = None → Forall point_ok l.
Proof.
  induction l as [|p l IH]; [constructor|]. cbn [out_of_range].
  destruct (Z.ltb_spec (Utilization p) minUtilization), (Z.ltb_spec maxUtilization (Utilization p)),
    (Z.ltb_spec (point_Score p) minScore), (Z.ltb_spec maxScore (point_Score p)); try done.
  intros E. constructor; [|by apply IH]. split; in_range.
Qed.
(** [NewFunctionShape] lets good shapes through only. *)
Lemma NewFunctionShape_ok points shape : NewFunctionShape points = inr shape → shape = points ∧ shape_ok shape.
Proof.
  unfold NewFunctionShape. case_bool_decide as Hl; [done|]. destruct (unsorted points) eqn:Es; [done|].
  destruct (out_of_range points) eqn:Eo; [done|]. intros [= <-]. split; [done|]. split_and!; [by intros ->|by apply unsorted_false|by apply out_of_range_None].
Qed.

(** Between two points the value is between theirs. *)
Lemma segment_between a b x w : 0 <= x <= w → 0 < w → Z.min a b <= a + Z.quot ((b - a) * x) w <= Z.max a b.
Proof.
  intros Hx Hw. destruct (Z.le_gt_cases a b).
  - rewrite Z.quot_div_nonneg by nia. assert (0 <= (b - a) * x / w <= b - a); [|lia].
    split; [apply Z.div_pos; nia|]. apply Z.div_le_upper_bound; nia.
  - replace ((b - a) * x) with (- ((a - b) * x)) by ring. rewrite Z.quot_opp_l, Z.quot_div_nonneg by nia.
    assert (0 <= (a - b) * x / w <= a - b); [|lia]. split; [apply Z.div_pos; nia|]. apply Z.div_le_upper_bound; nia.
Qed.
Lemma broken_linear_scale shape p : ∀ r, point_ok r → Utilization r < p → p <= maxUtilization →
  Forall (λ q, Utilization r < Utilization q) shape → StronglySorted (λ p q, Utilization p < Utilization q) shape → Forall point_ok shape →
  ∃ z, broken_linear (Some r) shape p = Some z ∧ on_scale z.
Proof.
  induction shape as [|q shape IH]; intros r Hr Hp Hmax Hlt Hs Hok; simpl; [exists (point_Score r); split; [done|apply Hr]|].
  apply Forall_cons in Hlt as [Hlt _], Hok as [Hq Hok]. apply StronglySorted_inv in Hs as [Hs Hq'].
  destruct (Z.leb_spec p (Utilization q)); [|by apply IH].
  destruct Hr as [Hru Hrs], Hq as [Hqu Hqs].
  pose proof (segment_between (point_Score r) (point_Score q) (p - Utilization r) (Utilization q - Utilization r) ltac:(lia) ltac:(lia)) as Hseg.
  unfold sub64. rewrite !(wrap64_id (Utilization q - _)), (wrap64_id (point_Score q - _)), (wrap64_id (p - _)) by in_range.
  destruct (Z.eqb_spec (Utilization q - Utilization r) 0); [lia|]. unfold mul64. rewrite (wrap64_id (_ * _)) by in_range.
  unfold add64. rewrite (wrap64_id (Z.quot _ _)) by in_range. rewrite wrap64_id by in_range. eexists. split; [done|]. in_range.
Qed.
Lemma buildBrokenLinearFunction_scale shape p : shape_ok shape → p <= maxUtilization →
  ∃ z, buildBrokenLinearFunction shape p = Some z ∧ on_scale z.
Proof.
  intros (Hne & Hs & Hok) Hp. destruct shape as [|q shape]; [done|]. unfold buildBrokenLinearFunction. simpl.
  apply Forall_cons in Hok as [Hq Hok]. apply StronglySorted_inv in Hs as [Hs Hq'].
  destruct (Z.leb_spec p (Utilization q)); [exists (point_Score q); split; [done|apply Hq]|]. by apply broken_linear_scale.
Qed.
Lemma resourceScoringFunction_scale shape r c : shape_ok shape → request_ok r → capacity_ok c →
  ∃ z, resourceScoringFunction shape r c = Some z ∧ on_scale z.
Proof.
  intros Hs Hr [Hc1 Hc2]. unfold resourceScoringFunction, request_ok in *. destruct (_ || _) eqn:E; [by apply buildBrokenLinearFunction_scale|].
  apply orb_false_iff in E as [E1%Z.eqb_neq E2%Z.ltb_ge]. apply buildBrokenLinearFunction_scale; [done|].
  unfold sub64 at 2, mul64. rewrite (wrap64_id (c - r)), (wrap64_id (_ * _)) by in_range.
  assert (0 <= Z.quot ((c - r) * maxUtilization) c <= maxUtilization) as Hq.
  { rewrite Z.quot_div_nonneg by in_range. split; [apply Z.div_pos; in_range|]. apply Z.div_le_upper_bound; in_range. }
  rewrite (wrap64_id (Z.quot _ _)) by in_range. unfold sub64. rewrite wrap64_id by in_range. lia.
Qed.

(** *** Fractions *)

Lemma representable_pow j : 0 <= j <= 64 → representable (2 ^ j * float_one).
Proof.
  intros Hj. split; [|pose proof one_limit64; pose proof one_pos; assert (2 ^ j <= 2 ^ 64) by (apply Z.pow_le_mono_r; lia); nia].
  exists 1, (j + 1074). split_and!; [|done|lia]. rewrite one_pow, Z.pow_add_r by lia. lia.
Qed.
Lemma float_of_int_nonneg z : 0 <= z <= MaxInt64 → ∃ v, float_of_int z = Finite v ∧ 0 <= v.
Proof.
  intros Hz. pose proof one_pos.
  destruct (of_ratio_between (z * float_one) 1 0 (2 ^ 63 * float_one)) as (v & E & Hv); [done|apply representable_0|apply representable_pow; lia|lia|in_range|].
  exists v. split; [exact E|lia].
Qed.
Lemma float_of_int_mono z z' : z <= z' → fle (float_of_int z) (float_of_int z').
Proof. intros. pose proof one_pos. apply of_ratio_mono; [done..|nia]. Qed.
Lemma float_of_int_pos z : 0 < z <= MaxInt64 → ∃ v, float_of_int z = Finite v ∧ float_one <= v.
Proof.
  intros Hz. destruct (float_of_int_nonneg z) as (v & E & Hv); [lia|]. exists v. split; [done|].
  pose proof (float_of_int_mono 1 z ltac:(lia)) as Hm. rewrite E, float_of_int_exact in Hm by done. apply Z.leb_le in Hm. lia.
Qed.

Lemma fraction_finite r c : request_ok r → request_ok c → ∃ v, fractionOfCapacity r c = Finite v ∧ 0 <= v.
Proof.
  intros Hr Hc. unfold fractionOfCapacity, request_ok in *. pose proof one_pos. destruct (Z.eqb_spec c 0).
  { exists float_one. rewrite float_of_int_exact by done. split; [f_equal; lia|lia]. }
  destruct (float_of_int_pos c) as (w & -> & Hw); [lia|]. destruct (float_of_int_nonneg r) as (v & E & Hv); [lia|].
  pose proof (float_of_int_mono r (2 ^ 63) ltac:(in_range)) as Hm. rewrite E in *.
  assert (v <= 2 ^ 63 * float_one) as Hv'.
  { destruct (of_ratio_between (2 ^ 63 * float_one) 1 (2 ^ 63 * float_one) (2 ^ 63 * float_one)) as (x & Ex & Hx); [done|apply representable_pow; lia|apply representable_pow; lia|lia|lia|].
    unfold float_of_int in Hm at 1. rewrite Ex in Hm. apply Z.leb_le in Hm. lia. }
  unfold float_div. destruct (Z.eqb_spec w 0); [lia|]. rewrite Z.sgn_pos, Z.abs_eq by lia.
  destruct (of_ratio_between (v * float_one * 1) w 0 (2 ^ 63 * float_one)) as (x & Ex & Hx); [lia|apply representable_0|apply representable_pow; lia|nia|nia|].
  exists x. split; [done|lia].
Qed.
Lemma not_full_between v : 0 <= v → is_full (Finite v) = false → between 0 float_one (Finite v).
Proof.
  intros Hv. unfold is_full. rewrite float_of_int_exact by done. simpl. intros ?%Z.leb_gt. exists v. split; [done|lia].
Qed.

Lemma float_10 : float_of_int MaxPriority = Finite (10 * float_one).
Proof. by apply float_of_int_exact. Qed.
Lemma representable_small z : 0 <= z <= 100 → representable (z * float_one).
Proof. intros. apply representable_int. lia. Qed.

Lemma times_10 x : between 0 float_one x → between 0 (10 * float_one) (float_of_int MaxPriority * x).
Proof.
  intros Hx. rewrite float_10. apply (mul_between (10 * float_one) float_one); [|done|by apply representable_small|lia].
  pose proof one_pos. exists (10 * float_one). split; [done|lia].
Qed.
Lemma float_mul_comm x y : (x * y = y * x)%float.
Proof.
  destruct x as [v|a|], y as [w|b|]; simpl; try done; [by rewrite Z.mul_comm|by rewrite xorb_comm].
Qed.

Section scores.
Context {K8s : K8sLib} {Range : MapRange} {Vol : VolumeLib} {Pred : PredicateLib} {Pri : PriorityLib} {Conv : FloatConversion}.

Lemma int_on_scale x : between 0 (10 * float_one) x → on_scale (int_of_float x).
Proof. intros Hx. apply (int_of_float_between 0 10); [done|lia|in_range]. Qed.
Lemma scaled_on_scale x : between 0 float_one x → on_scale (int_of_float ((float_of_int 1 - x) * float_of_int MaxPriority)%float).
Proof.
  intros Hx. apply int_on_scale. rewrite float_mul_comm. apply times_10. rewrite float_of_int_exact by done. pose proof one_pos.
  apply (sub_between float_one float_one 0 float_one); auto using representable_0, representable_1; [|lia|lia].
  exists (1 * float_one). split; [done|lia].
Qed.

Lemma mean_between x y z : between 0 float_one x → between 0 float_one y → between 0 float_one z →
  between 0 float_one ((x + y + z) / float_of_int 3).
Proof.
  intros Hx Hy Hz. pose proof one_pos.
  assert (between 0 (3 * float_one) (x + y + z)) as (v & -> & Hv).
  { apply (add_between 0 (2 * float_one) 0 float_one); [|done|apply representable_0|by apply representable_small|lia|lia].
    apply (add_between 0 float_one 0 float_one); [done|done|apply representable_0|by apply representable_small|lia|lia]. }
  rewrite float_of_int_exact by done. apply div_between; lia.
Qed.
Lemma deviation_between x m : between 0 float_one x → between 0 float_one m → between 0 float_one ((x - m) * (x - m)).
Proof.
  intros Hx Hm. apply square_between. pose proof one_pos.
  apply (sub_between 0 float_one 0 float_one); [done|done| |apply representable_1|lia|lia].
  replace (- float_one) with (-1 * float_one) by lia. by apply representable_int.
Qed.

(** The amounts of a node and of the pods on it. *)
Record measured (requested allocable : Resource) : Prop := {
  ms_cpu : request_ok (MilliCPU requested) ∧ capacity_ok (MilliCPU allocable);
  ms_memory : request_ok (Memory requested) ∧ capacity_ok (Memory allocable)
}.
Definition scores (sc : Resource → Resource → bool → Z → Z → comp Z) : Prop :=
  ∀ requested allocable volumes requestedVolumes allocatableVolumes,
    measured requested allocable → request_ok requestedVolumes → int64 allocatableVolumes →
    ∃ z, sc requested allocable volumes requestedVolumes allocatableVolumes = Some z ∧ on_scale z.

Lemma least_scores : scores leastResourceScorer.
Proof. intros r a b rv av [[] []] _ _. eexists. split; [done|]. by apply average_on_scale; apply leastRequestedScore_scale. Qed.
Lemma most_scores : scores mostResourceScorer.
Proof. intros r a b rv av [[] []] _ _. eexists. split; [done|]. by apply average_on_scale; apply mostRequestedScore_scale. Qed.
Lemma ratio_scores shape : shape_ok shape → scores (buildRequestedToCapacityRatioScorerFunction shape).
Proof.
  intros Hs r a b rv av [[] []] _ _. unfold buildRequestedToCapacityRatioScorerFunction.
  destruct (resourceScoringFunction_scale shape (MilliCPU r) (MilliCPU a)) as (x & -> & Hx); [done..|].
  destruct (resourceScoringFunction_scale shape (Memory r) (Memory a)) as (y & -> & Hy); [done..|].
  eexists. split; [done|]. by apply average_on_scale.
Qed.
Lemma balanced_scores : scores balancedResourceScorer.
Proof.
  intros r a b rv av [[Hr1 Ha1] [Hr2 Ha2]] Hrv Hav. unfold balancedResourceScorer. eexists. split; [done|].
  assert (∀ c, capacity_ok c → request_ok c) as Hc by (intros c []; unfold request_ok; in_range).
  destruct (fraction_finite (MilliCPU r) (MilliCPU a)) as (x & -> & Hx); [auto..|].
  destruct (fraction_finite (Memory r) (Memory a)) as (y & -> & Hy); [auto..|].
  destruct (b && feature_BalanceAttachedNodeVolumes && (0 <? av)) eqn:Eb.
  - apply andb_true_iff in Eb as [_ Hav0%Z.ltb_lt].
    assert (∃ z, (float_of_int rv / float_of_int av)%float = Finite z ∧ 0 <= z) as (z & -> & Hz).
    { destruct (fraction_finite rv av) as (z & E & Hz); [done|unfold request_ok; in_range|]. exists z. split; [|done]. rewrite <-E.
      unfold fractionOfCapacity. by destruct (Z.eqb_spec av 0); [lia|]. }
    destruct (is_full (Finite x)) eqn:Ex; [cbn [orb]; in_range|]. destruct (is_full (Finite y)) eqn:Ey; [cbn [orb]; in_range|]. destruct (is_full (Finite z)) eqn:Ez; [cbn [orb]; in_range|].
    apply not_full_between in Ex, Ey, Ez; [|done..]. pose proof (mean_between _ _ _ Ex Ey Ez) as Hm.
    cbn [orb]. apply scaled_on_scale, mean_between; by apply deviation_between.
  - destruct (is_full (Finite x)) eqn:Ex; [cbn [orb]; in_range|]. destruct (is_full (Finite y)) eqn:Ey; [cbn [orb]; in_range|].
    apply not_full_between in Ex, Ey; [|done..]. cbn [orb]. apply scaled_on_scale, abs_between. pose proof one_pos.
    apply (sub_between 0 float_one 0 float_one); [done|done| |apply representable_1|lia|lia].
    replace (- float_one) with (-1 * float_one) by lia. by apply representable_int.
Qed.

(** ** Spreading *)

Lemma spread_score_between max count : 0 <= count <= max → max <= MaxInt64 → between 0 (10 * float_one) (spread_score max count).
Proof.
  intros Hc Hm. unfold spread_score. pose proof one_pos. destruct (Z.ltb_spec 0 max); [|rewrite float_10; eexists; split; [done|lia]].
  apply times_10. unfold sub64. rewrite wrap64_id by in_range.
  destruct (float_of_int_nonneg (max - count)) as (v & Ev & Hv); [lia|]. destruct (float_of_int_pos max) as (w & Ew & Hw); [lia|].
  pose proof (float_of_int_mono (max - count) max ltac:(lia)) as Hle. rewrite Ev, Ew in *. apply Z.leb_le in Hle. apply div_between; lia.
Qed.
(** The fewer pods, the higher the score. *)
Lemma spread_score_antitone max count count' :
  0 <= count → count <= count' → count' <= max → max <= MaxInt64 → fle (spread_score max count') (spread_score max count).
Proof.
  intros H0 Hc Hc' Hm. unfold spread_score. pose proof one_pos. destruct (Z.ltb_spec 0 max); [|rewrite float_10; apply Z.leb_refl].
  unfold sub64. rewrite !wrap64_id by in_range.
  destruct (float_of_int_nonneg (max - count)) as (v & Ev & Hv); [lia|]. destruct (float_of_int_nonneg (max - count')) as (v' & Ev' & Hv'); [lia|].
  destruct (float_of_int_pos max) as (w & Ew & Hw); [lia|].
  pose proof (float_of_int_mono (max - count') (max - count) ltac:(lia)) as Hle.
  pose proof (float_of_int_mono (max - count) max ltac:(lia)) as Hle2. rewrite Ev, Ev', Ew in *. apply Z.leb_le in Hle, Hle2.
  pose proof (div_mono v' v w Hle ltac:(lia)) as Hd.
  destruct (div_between v' w) as (x' & Ex' & Hx'); [lia..|]. destruct (div_between v w) as (x & Ex & Hx); [lia..|].
  rewrite Ex, Ex' in *. apply Z.leb_le in Hd. rewrite float_10. apply mul_mono; lia.
Qed.

Lemma zone_weights : ∃ a b, (float_of_int 1 - zoneWeighting)%float = Finite a ∧ zoneWeighting = Finite b ∧
  0 <= a <= float_one ∧ 0 <= b <= float_one.
Proof.
  exists (match (float_of_int 1 - zoneWeighting)%float with Finite v => v | _ => 0 end), (match zoneWeighting with Finite v => v | _ => 0 end).
  split_and!; vm_compute; (reflexivity || discriminate).
Qed.
Lemma zone_max : zone_score (Finite (10 * float_one)) (Finite (10 * float_one)) = Finite (10 * float_one).
Proof. vm_compute. reflexivity. Qed.

Lemma zone_parts x : between 0 (10 * float_one) x → ∃ v w,
  (x * (float_of_int 1 - zoneWeighting))%float = Finite v ∧ (zoneWeighting * x)%float = Finite w ∧ 0 <= v <= 10 * float_one ∧ 0 <= w <= 10 * float_one.
Proof.
  intros Hx. destruct zone_weights as (a & b & -> & -> & Ha & Hb). pose proof one_pos.
  destruct (mul_between (10 * float_one) float_one (10 * float_one) x (Finite a)) as (v & -> & Hv); [done|by eexists|by apply representable_small|lia|].
  destruct (mul_between float_one (10 * float_one) (10 * float_one) (Finite b) x) as (w & -> & Hw); [by eexists|done|by apply representable_small|lia|].
  eauto 10.
Qed.
Lemma zone_score_mono x y x' y' :
  between 0 (10 * float_one) x → between 0 (10 * float_one) y → between 0 (10 * float_one) x' → between 0 (10 * float_one) y' →
  fle x x' → fle y y' → fle (zone_score x y) (zone_score x' y').
Proof.
  intros Hx Hy Hx' Hy' Hxx Hyy. unfold zone_score.
  destruct (zone_parts x Hx) as (v & _ & Ev & _ & _), (zone_parts x' Hx') as (v' & _ & Ev' & _ & _),
    (zone_parts y Hy) as (_ & w & _ & Ew & _ & _), (zone_parts y' Hy') as (_ & w' & _ & Ew' & _ & _).
  destruct zone_weights as (a & b & Ea & Eb & Ha & Hb).
  destruct Hx as (m & -> & ?), Hy as (n & -> & ?), Hx' as (m' & -> & ?), Hy' as (n' & -> & ?). apply Z.leb_le in Hxx, Hyy.
  assert (fle (Finite v) (Finite v')) by (rewrite <-Ev, <-Ev', Ea; apply mul_mono; lia).
  assert (fle (Finite w) (Finite w')) by (rewrite <-Ew, <-Ew', Eb; apply mul_mono; lia).
  rewrite Ev, Ev', Ew, Ew'. by apply add_mono.
Qed.
Lemma zone_score_between x y : between 0 (10 * float_one) x → between 0 (10 * float_one) y → between 0 (10 * float_one) (zone_score x y).
Proof.
  intros Hx Hy. pose proof one_pos. assert (between 0 (10 * float_one) (Finite (10 * float_one))) as H10 by (eexists; split; [done|lia]).
  assert (fle (zone_score x y) (zone_score (Finite (10 * float_one)) (Finite (10 * float_one)))) as Hle.
  { apply zone_score_mono; try done; [destruct Hx as (v & -> & ?)|destruct Hy as (v & -> & ?)]; apply Z.leb_le; lia. }
  rewrite zone_max in Hle. destruct (zone_parts x Hx) as (v & _ & Ev & _ & Hv & _), (zone_parts y Hy) as (_ & w & _ & Ew & _ & Hw).
  assert (zone_score x y = Finite v + Finite w)%float as E by (unfold zone_score; congruence).
  assert (between 0 (20 * float_one) (Finite v + Finite w)) as (u & Eu & Hu).
  { apply (add_between 0 (10 * float_one) 0 (10 * float_one)); [..|lia|lia].
    - exists v. split; [reflexivity|exact Hv].
    - exists w. split; [reflexivity|exact Hw].
    - apply representable_0.
    - apply representable_small. lia. }
  rewrite E, Eu in *. apply Z.leb_le in Hle. exists u. split; [done|lia].
Qed.

(** *** Reductions *)

Definition total (l : HostPriorityList) : Z := foldr (λ hp n, Score hp + n) 0 l.
(** The nodes of the hosts are in the snapshot. *)
Definition known (infos : gmap string NodeInfo) (l : HostPriorityList) : Prop := Forall (λ hp, is_Some (NodeInfo_Node (infos !! Host hp))) l.
(** Counts of pods that can be added up. *)
Definition counted (l : HostPriorityList) : Prop := Forall (λ hp, 0 <= Score hp) l ∧ total l <= MaxInt64.

Lemma total_nonneg l : Forall (λ hp, 0 <= Score hp) l → 0 <= total l.
Proof. induction 1; simpl; lia. Qed.
Lemma counted_le l hp : counted l → hp ∈ l → 0 <= Score hp <= total l.
Proof.
  intros [Hl _] Hin. induction Hl as [|x l Hx Hl IH]; [by apply not_elem_of_nil in Hin|]. pose proof (total_nonneg l Hl).
  apply elem_of_cons in Hin as [->|Hin]; simpl; [lia|]. specialize (IH Hin). lia.
Qed.
Lemma maxCount_le l : counted l → maxCount l <= MaxInt64.
Proof.
  intros Hc. destruct (maxCount_spec l) as (H0 & _ & Hex). destruct (Z.eq_dec (maxCount l) 0); [in_range|].
  destruct Hex as (hp & Hin & <-); [lia|]. destruct (counted_le l hp Hc Hin). destruct Hc. lia.
Qed.

Lemma mapM_exists {A B} (f : A → option B) (P : A → B → Prop) l :
  Forall (λ x, ∃ y, f x = Some y ∧ P x y) l → ∃ k, mapM f l = Some k ∧ Forall2 P l k.
Proof.
  induction 1 as [|x l (y & E & Hy) _ (k & Ek & Hk)]; [exists []; by split|]. exists (y :: k). split; [simpl; by rewrite E, Ek|by constructor].
Qed.

Lemma fold_max_ge {A} (f : A → Z) l x : ∀ m, x ∈ l → f x <= foldl (λ m e, if m <? f e then f e else m) m l.
Proof.
  assert (∀ l m, m <= foldl (λ m e, if m <? f e then f e else m) m l) as Hacc.
  { clear. induction l as [|y l IH]; intros m; simpl; [lia|]. etrans; [|apply IH]. destruct (Z.ltb_spec m (f y)); lia. }
  induction l as [|y l IH]; intros m Hin; [by apply not_elem_of_nil in Hin|]. simpl. apply elem_of_cons in Hin as [->|Hin]; [|by apply IH].
  etrans; [|apply Hacc]. destruct (Z.ltb_spec m (f y)); lia.
Qed.
Lemma fold_max_le {A} (f : A → Z) l b : ∀ m, m <= b → (∀ x, x ∈ l → f x <= b) → foldl (λ m e, if m <? f e then f e else m) m l <= b.
Proof.
  induction l as [|y l IH]; intros m Hm Hb; simpl; [done|]. apply IH; [|intros x Hx; apply Hb; by right].
  pose proof (Hb y ltac:(by left)). destruct (Z.ltb_spec m (f y)); lia.
Qed.

Lemma count_zones_ok infos l : ∀ m b, (∀ z c, m !! z = Some c → 0 <= c <= b) → Forall (λ hp, 0 <= Score hp) l → 0 <= b → b + total l <= MaxInt64 →
  known infos l → ∃ m', count_zones infos m l = Some m' ∧ (∀ z c, m' !! z = Some c → 0 <= c <= MaxInt64) ∧
    (∀ z, is_Some (m !! z) → is_Some (m' !! z)) ∧
    (∀ hp z, hp ∈ l → zone_of infos (Host hp) = Some z → z ≠ EmptyString → is_Some (m' !! z)).
Proof.
  induction l as [|hp l IH]; intros m b Hm Hl Hb Hsum Hk; simpl.
  { exists m. split_and!; [done| |done|by intros hp z ?%not_elem_of_nil]. intros z c E. apply Hm in E. simpl in Hsum. lia. }
  apply Forall_cons in Hl as [Hhp Hl], Hk as [[node Ek] Hk]. simpl in Hsum. unfold zone_of. rewrite Ek. cbn [mbind option_bind].
  set (m1 := if bool_decide _ then m else _). pose proof (total_nonneg l Hl).
  assert (∀ z, is_Some (m !! z) → is_Some (m1 !! z)) as Hgrow.
  { intros z Hz. unfold m1. case_bool_decide; [done|]. rewrite lookup_insert_is_Some'. by right. }
  destruct (IH m1 (b + Score hp)) as (m' & Em & Hm' & Hold & Hnew); [|done|lia|lia|done|].
  { intros z c. unfold m1. case_bool_decide; [intros E; apply Hm in E; lia|]. rewrite lookup_insert_Some. intros [[_ <-]|[_ E]]; [|apply Hm in E; lia].
    assert (0 <= default 0 (m !! GetZoneKey node) <= b) as Hd by (destruct (m !! GetZoneKey node) eqn:E; [by apply Hm in E|simpl; lia]).
    unfold add64. rewrite wrap64_id by in_range. lia. }
  exists m'. split_and!; [done|done|auto|]. intros hp' z [->|Hin]%elem_of_cons Ez Hz; [|by eapply Hnew].
  unfold zone_of in Ez. rewrite Ek in Ez. injection Ez as <-. apply Hold. unfold m1. rewrite bool_decide_false by done. by rewrite lookup_insert_eq.
Qed.

(** The hosts stay, and the scores are on the scale. *)
Definition rescored (x y : HostPriority) : Prop := Host y = Host x ∧ on_scale (Score y).

Lemma spread_reduce_ok infos l : counted l → known infos l →
  ∃ l', CalculateSpreadPriorityReduce infos l = Some l' ∧ Forall2 rescored l l'.
Proof.
  intros Hc Hk. pose proof Hc as [Hnn Hsum]. unfold CalculateSpreadPriorityReduce.
  destruct (count_zones_ok infos l ∅ 0) as (m & -> & Hm & _ & Hz); [by intros z c; rewrite lookup_empty|done|done|lia|done|]. cbn [mbind option_bind].
  destruct (maxCount_spec l) as (Hmax0 & Hmax & _). pose proof (maxCount_le l Hc) as HmaxI. set (maxZone := foldl _ 0 (range m)).
  assert (∀ z c, m !! z = Some c → c <= maxZone) as HmaxZ by (intros z c E; apply (fold_max_ge snd (range m) (z, c)); by apply range_elem).
  assert (maxZone <= MaxInt64) as HmaxZI.
  { apply (fold_max_le snd); [in_range|]. intros [z c] E%range_elem. apply Hm in E. simpl. lia. }
  apply mapM_exists. apply Forall_forall. intros hp Hin. unfold known in Hk. rewrite Forall_forall in Hk. destruct (Hk hp Hin) as [node En].
  assert (between 0 (10 * float_one) (spread_score (maxCount l) (Score hp))) as Hs.
  { apply spread_score_between; [|done]. pose proof (counted_le l hp Hc Hin). pose proof (Hmax hp Hin). lia. }
  destruct (negb _); [|eexists; split; [done|]; split; [done|by apply int_on_scale]].
  destruct (zone_of infos (Host hp)) as [z|] eqn:Ez; [|unfold zone_of in Ez; by rewrite En in Ez]. cbn [mbind option_bind].
  eexists. split; [done|]. split; [done|]. simpl. apply int_on_scale. case_bool_decide; [done|].
  apply zone_score_between; [done|]. destruct (Hz hp z Hin Ez) as [c Ec]; [done|]. rewrite Ec. simpl.
  apply spread_score_between; [|done]. pose proof (Hm z c Ec). pose proof (HmaxZ z c Ec). lia.
Qed.

Lemma sum_scores_small l : ∀ n, 0 <= n → Forall (λ hp, 0 <= Score hp) l → n + total l <= MaxInt64 → foldl (λ n hp, add64 n (Score hp)) n l = n + total l.
Proof.
  induction l as [|hp l IH]; intros n Hn Hl Hs; simpl in *; [lia|]. apply Forall_cons in Hl as [Hhp Hl]. pose proof (total_nonneg l Hl).
  unfold add64 at 2. rewrite wrap64_id by in_range. rewrite IH by (done || lia). lia.
Qed.
Lemma count_labels_ok label infos l : ∀ st pc b, (∀ z c, pc !! z = Some c → 0 <= c <= b) → (∀ h z, st !! h = Some z → is_Some (pc !! z)) →
  Forall (λ hp, 0 <= Score hp) l → 0 <= b → b + total l <= MaxInt64 → known infos l →
  ∃ st' pc', count_labels label infos st pc l = Some (st', pc') ∧ (∀ z c, pc' !! z = Some c → 0 <= c <= b + total l) ∧
    (∀ h z, st' !! h = Some z → is_Some (pc' !! z)).
Proof.
  induction l as [|hp l IH]; intros st pc b Hpc Hst Hl Hb Hsum Hk; cbn [count_labels].
  { exists st, pc. split_and!; [done| |done]. intros z c E. apply Hpc in E. simpl. lia. }
  apply Forall_cons in Hl as [Hhp Hl], Hk as [[node Ek] Hk]. simpl in Hsum. rewrite Ek. cbn [mbind option_bind]. pose proof (total_nonneg l Hl). simpl.
  destruct (node_Labels node !! label) as [lb|].
  - set (v := add64 _ _). assert (0 <= v <= b + Score hp) as Hv.
    { unfold v. assert (0 <= default 0 (pc !! lb) <= b) as Hd by (destruct (pc !! lb) eqn:E; [by apply Hpc in E|simpl; lia]).
      unfold add64. rewrite wrap64_id by in_range. lia. }
    destruct (IH (<[Host hp := lb]> st) (<[lb := v]> pc) (b + Score hp)) as (st' & pc' & E & H1 & H2); [| |done|lia|lia|done|].
    + intros z c. rewrite lookup_insert_Some. intros [[_ <-]|[_ E]]; [lia|]. apply Hpc in E. lia.
    + intros h z. rewrite lookup_insert_is_Some'. rewrite lookup_insert_Some. intros [[_ ->]|[_ E]]; [by left|right; by eapply Hst].
    + exists st', pc'. split_and!; [done| |done]. intros z c E'. apply H1 in E'. lia.
  - destruct (IH st pc b) as (st' & pc' & E & H1 & H2); [done|done|done|lia|lia|done|].
    exists st', pc'. split_and!; [done| |done]. intros z c E'. apply H1 in E'. lia.
Qed.
Lemma antiAffinity_reduce_ok sa infos l : counted l → known infos l →
  ∃ l', CalculateAntiAffinityPriorityReduce sa infos l = Some l' ∧ Forall2 rescored l l'.
Proof.
  intros [Hnn Hsum] Hk. unfold CalculateAntiAffinityPriorityReduce.
  destruct (count_labels_ok (saa_label sa) infos l ∅ ∅ 0) as (st & pc & -> & Hpc & Hst); [by intros ? ?; rewrite lookup_empty..|done|done|lia|done|].
  cbn [mbind option_bind]. eexists. split; [done|]. rewrite sum_scores_small by (done || lia).
  rewrite Forall2_fmap_r. apply Forall_Forall2_diag, Forall_forall. intros hp Hin.
  unfold compose. destruct (st !! Host hp) as [lb|] eqn:E; [|split; [done|simpl; in_range]]. split; [done|]. simpl. apply int_on_scale.
  destruct (Hst _ _ E) as [c Ec]. rewrite Ec. simpl. apply spread_score_between; [by apply Hpc in Ec|lia].
Qed.
Lemma normalize_reduce_ok reverse l : Forall (λ hp, countable (Score hp)) l → Forall2 rescored l (NormalizeReduce MaxPriority reverse l).
Proof.
  intros Hl. apply (NormalizeReduce_scale reverse) in Hl as Hs. assert (Host <$> NormalizeReduce MaxPriority reverse l = Host <$> l) as Eh.
  { unfold NormalizeReduce. destruct (_ =? 0); [destruct reverse; [|done]|]; by rewrite <-list_fmap_compose. }
  clear Hl. revert Hs Eh. generalize (NormalizeReduce MaxPriority reverse l). induction l as [|x l IH]; intros [|y k] Hs Eh; try done.
  apply Forall_cons in Hs as [Hy Hs]. injection Eh as E1 E2. constructor; [done|by apply IH].
Qed.
End scores.

(** ** One function, all nodes *)

Section configs.
Context {K8s : K8sLib} {Range : MapRange} {Vol : VolumeLib} {Pred : PredicateLib} {Pri : PriorityLib} {Conv : FloatConversion} {Work : Workers}.
Variable ls : Listers.
Variable pod : Pod.
Variable infos : gmap string NodeInfo.
Variable nodes : list Node.

Definition pods_on (node : Node) : Z := match infos !! node_Name node with Some info => Z.of_nat (length (ni_pods info)) | None => 0 end.

(** What the functions rely on: the snapshot has the nodes, the amounts are those of a cluster that exists, the
    weights of the preferences are positive, and the annotations on pods to avoid are complete. *)
Record node_ok (node : Node) (info : NodeInfo) (n : Node) : Prop := {
  no_info : infos !! node_Name node = Some info;
  no_node : ni_node info = Some n;
  no_name : node_Name n = node_Name node;
  no_cpu : 0 <= MilliCPU (getNonZeroRequests pod) ∧ 0 <= MilliCPU (ni_nonzeroRequest info) ∧
    MilliCPU (getNonZeroRequests pod) + MilliCPU (ni_nonzeroRequest info) <= MaxInt64 ∧ capacity_ok (MilliCPU (ni_allocatableResource info));
  no_memory : 0 <= Memory (getNonZeroRequests pod) ∧ 0 <= Memory (ni_nonzeroRequest info) ∧
    Memory (getNonZeroRequests pod) + Memory (ni_nonzeroRequest info) <= MaxInt64 ∧ capacity_ok (Memory (ni_allocatableResource info));
  no_volumes : request_ok (RequestedVolumes (TransNodeInfo (ni_TransientInfo info))) ∧ int64 (AllocatableVolumesCount (TransNodeInfo (ni_TransientInfo info)));
  no_taints : countable (Z.of_nat (length (Taints n)));
  no_avoids avoids : GetAvoidPodsFromNodeAnnotations (Annotations (node_Meta n)) = inr avoids → Forall is_Some avoids
}.
Definition preferences : list (Z * NodeSelectorTerm) :=
  match a ← spec_Affinity (pod_Spec pod); aff_NodeAffinity a with Some na => PreferredNodeTerms na | None => [] end.
Record cluster_ok : Prop := {
  co_nodes node : node ∈ nodes → ∃ info n, node_ok node info n;
  co_pods : foldr (λ node k, pods_on node + k) 0 nodes <= MaxInt64;
  co_preferences : Forall (λ wt, 0 <= wt.1) preferences ∧ foldr (λ wt k, wt.1 + k) 0 preferences <= MaxInt32
}.
Hypothesis Hok : cluster_ok.

(** The metadata of this pod, or none. *)
Variable meta : option priorityMetadata.
Hypothesis Hmeta : meta = None ∨ meta = PriorityMetadata ls pod infos.

Definition map_ok (f : Pod → option priorityMetadata → option NodeInfo → comp (HostPriority * option error)) (P : Node → Z → Prop) : Prop :=
  ∀ node info n, node ∈ nodes → node_ok node info n → ∃ hp err, f pod meta (Some info) = Some (hp, err) ∧ P node (Score hp) ∧ (err = None → Host hp = node_Name node).
Definition placed (P : Node → Z → Prop) (node : Node) (hp : HostPriority) : Prop := Host hp = node_Name node ∧ P node (Score hp).
Definition config_ok (config : PriorityConfig (option priorityMetadata)) : Prop :=
  ∃ l errs, config_scores pod infos meta nodes config = Some (l, errs) ∧ (errs = [] → Forall2 (placed (λ _, on_scale)) nodes l).

Lemma map_scores f P reduce w : map_ok f P → ∃ l errs,
  (l ← mapM (λ node, '(hp, err) ← pc_Map (MkPriorityConfig _ f reduce None w) pod meta (infos !! node_Name node);
     Some (match err with Some _ => MkHostPriority (node_Name node) (Score hp) | None => hp end, err)) nodes;
   Some (l.*1, l.*2 ≫= option_list)) = Some (l, errs) ∧ Forall2 (placed P) nodes l.
Proof.
  intros Hf. cbn [pc_Map]. match goal with |- context [mapM ?g nodes] => destruct (mapM_exists g (λ node x, placed P node x.1) nodes) as (k & Ek & Hk) end.
  - apply Forall_forall. intros node Hin. destruct (co_nodes Hok node Hin) as (info & n & Hn). rewrite (no_info _ _ _ Hn).
    destruct (Hf node info n Hin Hn) as (hp & err & -> & HP & Hh). cbn [mbind option_bind]. eexists. split; [done|]. simpl.
    destruct err; [by split|]. split; [by apply Hh|done].
  - rewrite Ek. cbn [mbind option_bind]. eexists _, _. split; [done|]. by rewrite Forall2_fmap_r.
Qed.
Lemma map_only_ok f w : map_ok f (λ _, on_scale) → config_ok (map_only f w).
Proof.
  intros Hf. unfold config_ok, config_scores, map_only. cbn [pc_Function pc_Reduce].
  destruct (map_scores f (λ _, on_scale) None w Hf) as (l & errs & -> & Hl). cbn [mbind option_bind]. eauto.
Qed.
Lemma placed_rescored P ns l l' : Forall2 (placed P) ns l → Forall2 rescored l l' → Forall2 (placed (λ _, on_scale)) ns l'.
Proof.
  intros H. revert l'. induction H as [|node hp ns l [Hh _] H IH]; intros l' Hr; [inversion Hr; constructor|].
  inversion Hr as [|? y ? k [Hy1 Hy2] Hk]; subst. constructor; [|by apply IH]. split; [congruence|done].
Qed.
Lemma map_reduce_ok f P reduce w : map_ok f P →
  (∀ l, Forall2 (placed P) nodes l → ∃ l', reduce infos l = Some l' ∧ Forall2 rescored l l') → config_ok (map_reduce f reduce w).
Proof.
  intros Hf Hr. unfold config_ok, config_scores, map_reduce. cbn [pc_Function pc_Reduce].
  destruct (map_scores f P (Some (λ _ _ infos l, l ← reduce infos l; Some (l, None))) w Hf) as (l & errs & -> & Hl). cbn [mbind option_bind].
  destruct (Hr l Hl) as (l' & -> & Hl'). cbn [mbind option_bind]. eexists _, _. split; [done|]. intros _. by eapply placed_rescored.
Qed.

(** *** Resources, limits and images *)

Lemma resource_map_ok r : scores (scorer r) → map_ok (PriorityMap r) (λ _, on_scale).
Proof.
  intros Hr node info n Hin Hn. unfold PriorityMap. simpl. rewrite (no_node _ _ _ Hn).
  assert (match meta with Some m => nonZeroRequest m | None => getNonZeroRequests pod end = getNonZeroRequests pod) as -> by (by destruct Hmeta as [->| ->]).
  set (req := MkResource _ _ _ _ _). set (trans := TransNodeInfo _).
  assert (measured req (ni_allocatableResource info)) as Hm.
  { destruct (no_cpu _ _ _ Hn) as (? & ? & ? & ?), (no_memory _ _ _ Hn) as (? & ? & ? & ?). unfold req, add64, request_ok.
    split; cbn [MilliCPU Memory]; rewrite wrap64_id by (unfold int64, MinInt64; lia); (split; [unfold request_ok; lia|done]). }
  destruct (no_volumes _ _ _ Hn) as [Hv1 Hv2].
  assert (∃ z, (if feature_BalanceAttachedNodeVolumes then scorer r req (ni_allocatableResource info) true (RequestedVolumes trans) (AllocatableVolumesCount trans)
    else scorer r req (ni_allocatableResource info) false 0 0) = Some z ∧ on_scale z) as (z & -> & Hz).
  { destruct feature_BalanceAttachedNodeVolumes; apply Hr; try done; unfold request_ok; in_range. }
  cbn [mbind option_bind]. eexists _, _. split; [done|]. split; [done|]. intros _. simpl. apply Hn.
Qed.
Lemma limits_map_ok : map_ok ResourceLimitsPriorityMap (λ _, on_scale).
Proof.
  intros node info n Hin Hn. unfold ResourceLimitsPriorityMap. simpl. rewrite (no_node _ _ _ Hn). eexists _, _. split; [done|].
  split; [simpl; destruct (_ || _); in_range|]. intros _. apply Hn.
Qed.
Lemma calculatePriority_scale z : on_scale (calculatePriority z).
Proof.
  unfold calculatePriority. set (s := if z <? minThreshold then _ else _).
  assert (minThreshold <= s <= maxThreshold) as Hs.
  { unfold s, minThreshold, maxThreshold, mb. destruct (Z.ltb_spec z (23 * (1024 * 1024))); [lia|]. destruct (Z.ltb_spec (1000 * (1024 * 1024)) z); lia. }
  clearbody s. unfold sub64. unfold minThreshold, maxThreshold, mb in *. rewrite wrap64_id by in_range. no_wrap. apply quot_on_scale; in_range.
Qed.
Lemma image_map_ok : map_ok ImageLocalityPriorityMap (λ _, on_scale).
Proof.
  intros node info n Hin Hn. unfold ImageLocalityPriorityMap. simpl. rewrite (no_node _ _ _ Hn). eexists _, _. split; [done|].
  split; [simpl; destruct meta; [apply calculatePriority_scale|in_range]|]. intros _. apply Hn.
Qed.

(** *** The node *)

Lemma equal_map_ok : map_ok (pc_Map (equalPriority 1)) (λ _, on_scale).
Proof.
  intros node info n Hin Hn. simpl. unfold EqualPriorityMap. simpl. rewrite (no_node _ _ _ Hn). eexists _, _. split; [done|].
  split; [simpl; in_range|]. intros _. apply Hn.
Qed.
Lemma label_map_ok nl : map_ok (CalculateNodeLabelPriorityMap nl) (λ _, on_scale).
Proof.
  intros node info n Hin Hn. unfold CalculateNodeLabelPriorityMap. simpl. rewrite (no_node _ _ _ Hn). eexists _, _. split; [done|].
  split; [simpl; destruct (_ || _); in_range|]. intros _. apply Hn.
Qed.
Lemma avoids_controller_total c avoids : Forall is_Some avoids → ∃ b, avoids_controller c avoids = Some b.
Proof. induction 1 as [|a l [x ->] _ IH]; simpl; [eauto|]. destruct (_ && _); eauto. Qed.
Lemma avoid_map_ok : map_ok CalculateNodePreferAvoidPodsPriorityMap (λ _, on_scale).
Proof.
  intros node info n Hin Hn. unfold CalculateNodePreferAvoidPodsPriorityMap. simpl. rewrite (no_node _ _ _ Hn).
  assert (∀ z, on_scale z → ∃ hp err, Some (scored n z) = Some (hp, err) ∧ on_scale (Score hp) ∧ (err = None → Host hp = node_Name node)) as Hz.
  { intros z Hz. eexists _, _. split; [done|]. split; [done|]. intros _. apply Hn. }
  destruct (match meta with Some m => controllerRef m | None => GetControllerOf pod end) as [c|]; [|apply Hz; in_range].
  destruct (_ && _); [apply Hz; in_range|].
  destruct (GetAvoidPodsFromNodeAnnotations _) as [err|avoids] eqn:Ea; [apply Hz; in_range|].
  destruct (avoids_controller_total c avoids) as [b ->]; [by eapply no_avoids|]. cbn [mbind option_bind]. apply Hz. destruct b; in_range.
Qed.
Lemma preferred_weight_bounds n terms : ∀ count, 0 <= count → Forall (λ wt, 0 <= wt.1) terms → count + foldr (λ wt k, wt.1 + k) 0 terms <= MaxInt32 →
  match preferred_weight n count terms with inl _ => True | inr z => 0 <= z <= MaxInt32 end.
Proof.
  induction terms as [|[w t] terms IH]; intros count Hc Hw Hs; simpl in *; [lia|]. apply Forall_cons in Hw as [Hw0 Hw]. simpl in Hw0.
  assert (0 <= foldr (λ wt k, wt.1 + k) 0 terms) by (clear -Hw; induction Hw; simpl; lia).
  destruct (w =? 0); [apply IH; done || lia|]. destruct (NodeSelectorRequirementsAsSelector _); [done|].
  apply IH; [|done|]; destruct (Selector_Matches _ _); try lia; rewrite wrap32_id by in_range; lia.
Qed.
Lemma affinity_map_ok : map_ok CalculateNodeAffinityPriorityMap (λ _, countable).
Proof.
  intros node info n Hin Hn. unfold CalculateNodeAffinityPriorityMap. simpl. rewrite (no_node _ _ _ Hn).
  assert (match meta with Some m => pm_affinity m | None => spec_Affinity (pod_Spec pod) end = spec_Affinity (pod_Spec pod)) as -> by (by destruct Hmeta as [->| ->]).
  fold preferences. destruct (co_preferences Hok) as [Hp Hs].
  pose proof (preferred_weight_bounds n preferences 0 ltac:(lia) Hp ltac:(lia)) as Hw.
  destruct (preferred_weight n 0 preferences) as [err|z]; eexists _, _; (split; [done|]); [split; [simpl; in_range|done]|].
  split; [simpl; in_range|]. intros _. apply Hn.
Qed.
Lemma count_taints_bounds taints tolerations : ∀ k, 0 <= k → k + Z.of_nat (length taints) <= MaxInt64 →
  0 <= foldl (λ n taint, if negb (bool_decide (taint_Effect taint = TaintEffectPreferNoSchedule)) then n
    else if negb (TolerationsTolerateTaint tolerations taint) then add64 n 1 else n) k taints <= k + Z.of_nat (length taints).
Proof.
  induction taints as [|t taints IH]; intros k Hk Hl; simpl in *; [lia|]. destruct (negb _).
  - specialize (IH k). lia.
  - destruct (negb _); [|specialize (IH k); lia].
    assert (add64 k 1 = k + 1) as -> by (unfold add64; apply wrap64_id; in_range). specialize (IH (k + 1)). lia.
Qed.
Lemma taint_map_ok : map_ok ComputeTaintTolerationPriorityMap (λ _, countable).
Proof.
  intros node info n Hin Hn. unfold ComputeTaintTolerationPriorityMap. simpl. rewrite (no_node _ _ _ Hn). eexists _, _. split; [done|].
  split; [|intros _; apply Hn]. simpl. unfold countIntolerableTaintsPreferNoSchedule. destruct (no_taints _ _ _ Hn) as [_ Ht].
  pose proof (count_taints_bounds (Taints n) (match meta with Some m => podTolerations m | None => getAllTolerationPreferNoSchedule (Tolerations (pod_Spec pod)) end) 0
    ltac:(lia) ltac:(in_range)) as Hb. in_range.
Qed.

(** *** Spreading *)

Lemma count_if_bounds {A} (f : A → bool) l : ∀ k, 0 <= k → k + Z.of_nat (length l) <= MaxInt64 →
  0 <= foldl (λ n x, if f x then add64 n 1 else n) k l <= k + Z.of_nat (length l).
Proof.
  induction l as [|x l IH]; intros k Hk Hl; simpl in *; [lia|]. destruct (f x); [|specialize (IH k); lia].
  assert (add64 k 1 = k + 1) as -> by (unfold add64; apply wrap64_id; in_range). specialize (IH (k + 1)). lia.
Qed.
Lemma pods_on_le node : node ∈ nodes → 0 <= pods_on node <= MaxInt64.
Proof.
  intros Hin. pose proof (co_pods Hok) as Hs. revert Hs Hin. clear Hok.
  assert (∀ n, 0 <= pods_on n) as Hp by (intros n; unfold pods_on; case_match; lia).
  induction nodes as [|n ns IH]; simpl; intros Hs Hin; [by apply not_elem_of_nil in Hin|].
  assert (0 <= foldr (λ node k, pods_on node + k) 0 ns) by (clear -Hp; induction ns; simpl; [lia|pose proof (Hp a); lia]).
  pose proof (Hp n). apply elem_of_cons in Hin as [->|Hin]; [lia|]. apply IH; [lia|done].
Qed.
Definition pods_count (node : Node) (z : Z) : Prop := 0 <= z <= pods_on node.

Lemma countMatchingPods_bounds ns selectors node info n : node ∈ nodes → node_ok node info n → pods_count node (countMatchingPods ns selectors info).
Proof.
  intros Hin Hn. pose proof (pods_on_le node Hin) as Hp. unfold pods_count, pods_on, countMatchingPods in *. rewrite (no_info _ _ _ Hn) in *.
  destruct (_ || _); [lia|]. apply (count_if_bounds _ _ 0); lia.
Qed.
Lemma placed_counted P ns l : (∀ node z, node ∈ ns → P node z → pods_count node z) → foldr (λ node k, pods_on node + k) 0 ns <= MaxInt64 →
  Forall2 (placed P) ns l → counted l.
Proof.
  intros HP Hs Hl. assert (Forall (λ hp, 0 <= Score hp) l ∧ total l <= foldr (λ node k, pods_on node + k) 0 ns) as [H1 H2]; [|split; [done|lia]].
  clear Hs. induction Hl as [|node hp ns l [_ Hh] Hl IH]; simpl; [split; [constructor|lia]|].
  destruct IH as [IH1 IH2]; [intros ? ? ?; apply HP; by right|]. destruct (HP node (Score hp)) as [? ?]; [by left|done|]. split; [by constructor|lia].
Qed.
Lemma placed_known P l : (∀ node, node ∈ nodes → ∃ info n, node_ok node info n) → Forall2 (placed P) nodes l → known infos l.
Proof.
  clear Hok. intros Hn Hl. unfold known. revert Hn Hl. generalize l. induction nodes as [|node ns IH]; intros k Hn Hl; inversion Hl as [|? hp ? l' [Hh _] Hl']; subst; constructor.
  - destruct (Hn node) as (info & n & H); [by left|]. rewrite Hh, (no_info _ _ _ H). exists n. apply H.
  - apply IH; [|done]. intros ? ?. apply Hn. by right.
Qed.
Lemma spread_map_ok ls' : map_ok (CalculateSpreadPriorityMap ls') pods_count.
Proof.
  intros node info n Hin Hn. unfold CalculateSpreadPriorityMap. simpl. rewrite (no_node _ _ _ Hn). eexists _, _. split; [done|].
  split; [|intros _; apply Hn]. simpl. case_bool_decide; [|by eapply countMatchingPods_bounds]. unfold pods_count. pose proof (pods_on_le node Hin). lia.
Qed.
Lemma antiAffinity_map_ok sa : map_ok (CalculateAntiAffinityPriorityMap sa) pods_count.
Proof.
  intros node info n Hin Hn. unfold CalculateAntiAffinityPriorityMap. simpl. rewrite (no_node _ _ _ Hn). eexists _, _. split; [done|].
  split; [|intros _; apply Hn]. by eapply countMatchingPods_bounds.
Qed.
End configs.
