(* ===== verification/AffinityScoreProofs.v ===== *)
(** * The score of the affinity between pods

    The workers add weights to the counts of nodes in an order that nobody controls, as
    float64.  The weights are small integers, so the additions are exact and their order does not matter: the
    score of a node depends on its attraction only, the sum of the weights of the terms that are
    satisfied there. *)
From S2P Require Import Prelude Heap Api Util Backoff SchedulingQueue Resource HostPorts NodeTree NodeInfo PoolInfo Predicates Cache GenericScheduler Metadata PredicateFuncs VolumePredicates Float64 Priorities PriorityProofs.

(** Sums over lists. *)
Definition sumZ {A} (f : A → Z) (l : list A) : Z := foldr (λ x k, f x + k) 0 l.
#[export] Instance sumZ_perm {A} (f : A → Z) : Proper ((≡ₚ) ==> eq) (sumZ f).
Proof. intros l l' H. unfold sumZ. induction H; simpl; lia. Qed.
Lemma sumZ_app {A} (f : A → Z) l l' : sumZ f (l ++ l') = sumZ f l + sumZ f l'.
Proof. unfold sumZ. induction l; simpl; lia. Qed.
Lemma sumZ_ext {A} (f g : A → Z) l : (∀ x, x ∈ l → f x = g x) → sumZ f l = sumZ g l.
Proof. unfold sumZ. induction l as [|x l IH]; simpl; intros H; [done|]. rewrite IH by (intros; apply H; by right). by rewrite (H x) by left. Qed.
Lemma sumZ_fmap {A B} (f : B → Z) (g : A → B) l : sumZ f (g <$> l) = sumZ (λ x, f (g x)) l.
Proof. induction l as [|x l IH]; [done|]. change (f (g x) + sumZ f (g <$> l) = f (g x) + sumZ (λ x, f (g x)) l). by rewrite IH. Qed.
Lemma sumZ_bind {A B} (f : B → Z) (g : A → list B) l : sumZ f (l ≫= g) = sumZ (λ x, sumZ f (g x)) l.
Proof. induction l as [|x l IH]; [done|]. cbn [mbind list_bind]. rewrite sumZ_app, IH. done. Qed.
Lemma sumZ_0 {A} (f : A → Z) l : (∀ x, x ∈ l → f x = 0) → sumZ f l = 0.
Proof. intros H. rewrite (sumZ_ext f (λ _, 0)) by done. clear. unfold sumZ. by induction l. Qed.
(** Elements that contribute nothing may be left out. *)
Lemma sumZ_filter {A} (f : A → Z) (P : A → Prop) `{!∀ x, Decision (P x)} l : (∀ x, x ∈ l → ¬ P x → f x = 0) → sumZ f (filter P l) = sumZ f l.
Proof.
  induction l as [|x l IH]; intros Hz; [done|]. rewrite filter_cons.
  assert (sumZ f (filter P l) = sumZ f l) as E by (apply IH; intros; apply Hz; [by right|done]).
  change (sumZ f (if decide (P x) then x :: filter P l else filter P l) = f x + sumZ f l).
  destruct (decide (P x)); [change (f x + sumZ f (filter P l) = f x + sumZ f l); lia|]. rewrite (Hz x) by (by left || done). lia.
Qed.

Section affinity.
Context {K8s : K8sLib} {Range : MapRange} {Conv : FloatConversion} {Work : Workers}.
Implicit Types (pod : Pod) (node : Node) (nodes : list Node) (p : podAffinityPriorityMap) (c : affinity_call).

(** ** Calls *)

Definition term_matches (definer checked : Pod) (t : PodAffinityTerm) : bool :=
  match LabelSelectorAsSelector (pat_LabelSelector t) with
  | inl _ => false
  | inr selector => podMatchesTerm checked (GetNamespacesFromPodAffinityTerm definer t) selector
  end.
(** The term holds for a pod on [node] and a pod on [fixedNode]. *)
Definition holds_at (definer checked : Pod) (t : PodAffinityTerm) (fixedNode node : Node) : bool :=
  term_matches definer checked t && NodesHaveSameTopologyKey node fixedNode (pat_TopologyKey t).

(** A call without error that adds an integer of at most [b], and what it adds to a node. *)
Definition call_ok (b : Z) c : Prop :=
  match c with
  | ProcessTerm t _ _ _ w => (∃ sel, LabelSelectorAsSelector (pat_LabelSelector t) = inr sel) ∧ ∃ z, w = float_of_int z ∧ Z.abs z <= b
  | SetError _ => False
  end.
Definition int_weight (x : float64) : Z := match x with Finite v => Z.quot v float_one | _ => 0 end.
Definition call_value node c : Z :=
  match c with
  | ProcessTerm t definer checked fixedNode w => if holds_at definer checked t fixedNode node then int_weight w else 0
  | SetError _ => 0
  end.
Definition value node (cs : list affinity_call) : Z := sumZ (call_value node) cs.

Lemma int_weight_int z : Z.abs z <= 2 ^ 53 → int_weight (float_of_int z) = z.
Proof. intros Hz. rewrite float_of_int_exact by done. simpl. pose proof one_pos. apply Z.quot_mul. lia. Qed.


Lemma add_weights key fixedNode w l : NoDup (node_Name <$> l) → ∀ counts node, node ∈ l →
  foldl (add_weight key fixedNode w) counts l !! node_Name node =
  if NodesHaveSameTopologyKey node fixedNode key then Some (default (Finite 0) (counts !! node_Name node) + w)%float else counts !! node_Name node.
Proof.
  assert (∀ l counts k, k ∉ (node_Name <$> l) → foldl (add_weight key fixedNode w) counts l !! k = counts !! k) as Hout.
  { clear. induction l as [|n l IH]; intros counts k Hk; [done|]. simpl in *. apply not_elem_of_cons in Hk as [Hne Hk]. rewrite IH by done.
    unfold add_weight. destruct (NodesHaveSameTopologyKey _ _ _); [by rewrite lookup_insert_ne|done]. }
  induction l as [|n l IH]; intros Hnd counts node Hin; [by apply not_elem_of_nil in Hin|]. simpl in Hnd. apply NoDup_cons in Hnd as [Hn Hnd]. simpl.
  apply elem_of_cons in Hin as [->|Hin].
  - rewrite Hout by done. unfold add_weight. destruct (NodesHaveSameTopologyKey _ _ _); [by rewrite lookup_insert_eq|done].
  - rewrite IH by done. assert (node_Name n ≠ node_Name node) by (intros E; apply Hn; rewrite E; by apply list_elem_of_fmap_2).
    unfold add_weight at 1 2. destruct (NodesHaveSameTopologyKey n fixedNode key); [by rewrite lookup_insert_ne|done].
Qed.

(** The counts are the exact sums. *)
Definition holds_sums nodes p (sum : Node → Z) : Prop :=
  pm_firstError p = None ∧ ∀ node, node ∈ nodes → pm_count p node = Finite (sum node * float_one).

Lemma run_call_sums nodes p c sum b d : NoDup (node_Name <$> nodes) → call_ok d c → 0 <= b → 0 <= d → b + d <= 2 ^ 53 →
  holds_sums nodes p sum → (∀ node, Z.abs (sum node) <= b) →
  holds_sums nodes (run_call nodes p c) (λ node, sum node + call_value node c) ∧ ∀ node, Z.abs (sum node + call_value node c) <= b + d.
Proof.
  intros Hnd Hc Hb Hd Hbd [He Hsum] Hle. destruct c as [t definer checked fixedNode w|err]; [|done]. destruct Hc as ((sel & Hsel) & z & -> & Hz).
  assert (∀ node, call_value node (ProcessTerm t definer checked fixedNode (float_of_int z)) = if holds_at definer checked t fixedNode node then z else 0) as Ev.
  { intros node. simpl. by rewrite int_weight_int by lia. }
  split; [|intros node; rewrite Ev; specialize (Hle node); destruct (holds_at _ _ _ _ _); lia].
  unfold holds_sums. setoid_rewrite Ev. clear Ev. simpl. unfold processTerm, holds_at, term_matches. rewrite Hsel.
  destruct (podMatchesTerm _ _ _); simpl; [|split; [done|intros node Hin; rewrite Z.add_0_r; by apply Hsum]].
  split; [done|]. intros node Hin. specialize (Hsum node Hin). specialize (Hle node). unfold pm_count in *. simpl. rewrite add_weights by done.
  destruct (NodesHaveSameTopologyKey _ _ _); simpl; [|by rewrite Z.add_0_r]. rewrite Hsum, float_of_int_exact by lia. apply add_int. lia.
Qed.
Lemma run_calls_sums nodes d cs : ∀ p sum b, NoDup (node_Name <$> nodes) → Forall (call_ok d) cs → 0 <= b → 0 <= d → b + d * Z.of_nat (length cs) <= 2 ^ 53 →
  holds_sums nodes p sum → (∀ node, Z.abs (sum node) <= b) →
  holds_sums nodes (foldl (run_call nodes) p cs) (λ node, sum node + value node cs) ∧ ∀ node, Z.abs (sum node + value node cs) <= b + d * Z.of_nat (length cs).
Proof.
  induction cs as [|c cs IH]; intros p sum b Hnd Hcs Hb Hd Hbd Hp Hle; simpl.
  { unfold holds_sums. setoid_rewrite Z.add_0_r. split; [done|]. intros node. specialize (Hle node). lia. }
  apply Forall_cons in Hcs as [Hc Hcs]. cbn [length] in Hbd.
  destruct (run_call_sums nodes p c sum b d) as [H1 H2]; [done..|lia|done|done|].
  destruct (IH (run_call nodes p c) (λ node, sum node + call_value node c) (b + d)) as [H3 H4]; [done|done|lia|done|lia|done|done|].
  unfold holds_sums in *. setoid_rewrite Z.add_assoc. split; [done|]. intros node. specialize (H4 node). simpl in H4. rewrite <-Z.add_assoc in H4. lia.
Qed.

(** ** Attraction *)

Variable ipa : InterPodAffinity.
Variable pod : Pod.

(** The weights of the terms of [definer] that hold. *)
Definition weigh node (definer checked : Pod) (fixedNode : Node) (sign : Z) (terms : list (Z * PodAffinityTerm)) : Z :=
  sumZ (λ wt, if holds_at definer checked wt.2 fixedNode node then wt.1 * sign else 0) terms.
Definition required_terms (a : option PodAffinity) : list PodAffinityTerm := match a with Some a => RequiredTerms a | None => [] end.
(** What an existing pod, which is on [fixedNode], contributes: the preferences of the new pod, its own, and for
    each term that it requires the symmetric weight. *)
Definition pull node (e : Pod) (fixedNode : Node) : Z :=
  weigh node pod e fixedNode 1 (preferred_terms (PodAffinity_of pod)) + weigh node pod e fixedNode (-1) (preferred_terms (PodAntiAffinity_of pod)) +
  sumZ (λ t, if holds_at e pod t fixedNode node then Z.max 0 (hardPodAffinityWeight ipa) else 0) (required_terms (PodAffinity_of e)) +
  weigh node e pod fixedNode 1 (preferred_terms (PodAffinity_of e)) + weigh node e pod fixedNode (-1) (preferred_terms (PodAntiAffinity_of e)).
Definition pull_of node (e : Pod) : Z := match ipa_GetNodeInfo ipa (pod_NodeName e) with inr fixedNode => pull node e fixedNode | inl _ => 0 end.
Definition attraction (infos : gmap string NodeInfo) node : Z :=
  sumZ (λ e, match ni_node e.2 with Some _ => sumZ (pull_of node) (ni_pods e.2) | None => 0 end) (map_to_list infos).

(** Weights between 0 and 100, and selectors that can be parsed. *)
Definition term_ok (t : PodAffinityTerm) : Prop := ∃ sel, LabelSelectorAsSelector (pat_LabelSelector t) = inr sel.
Definition weighted_ok (wt : Z * PodAffinityTerm) : Prop := 0 <= wt.1 <= 100 ∧ term_ok wt.2.
Definition pod_terms_ok (e : Pod) : Prop :=
  Forall weighted_ok (preferred_terms (PodAffinity_of e)) ∧ Forall weighted_ok (preferred_terms (PodAntiAffinity_of e)) ∧
  Forall term_ok (required_terms (PodAffinity_of e)).

Lemma processTerms_ok terms definer checked fixedNode m : Forall weighted_ok terms → m = 1 ∨ m = -1 →
  Forall (call_ok 100) (processTerms terms definer checked fixedNode m) ∧
  ∀ node, sumZ (call_value node) (processTerms terms definer checked fixedNode m) = weigh node definer checked fixedNode m terms.
Proof.
  intros Ht Hm. rewrite Forall_forall in Ht. assert (∀ w, 0 <= w <= 100 → wrap32 (w * m) = w * m) as Ew.
  { intros w Hw. apply wrap32_id. destruct Hm as [->| ->]; in_range. }
  split.
  - apply Forall_forall. intros c (wt & -> & Hin)%list_elem_of_fmap. destruct (Ht wt Hin) as [Hw Hs]. split; [done|].
    exists (wt.1 * m). rewrite Ew by done. split; [done|]. destruct Hm as [->| ->]; lia.
  - intros node. unfold processTerms. rewrite sumZ_fmap. apply sumZ_ext. intros wt Hin. destruct (Ht wt Hin) as [Hw _]. cbn [call_value].
    rewrite Ew by done. rewrite int_weight_int; [done|]. destruct Hm as [->| ->]; lia.
Qed.
Lemma processPod_ok e : hardPodAffinityWeight ipa <= 100 → pod_terms_ok pod → pod_terms_ok e →
  (∀ err, ipa_GetNodeInfo ipa (pod_NodeName e) = inl err → err.1 = true) →
  Forall (call_ok 100) (processPod ipa pod e) ∧ ∀ node, sumZ (call_value node) (processPod ipa pod e) = pull_of node e.
Proof.
  intros Hh (P1 & P2 & P3) (E1 & E2 & E3) Hn. unfold processPod, pull_of.
  destruct (ipa_GetNodeInfo ipa (pod_NodeName e)) as [[[] err]|n]; [split; [constructor|done]|by specialize (Hn _ eq_refl)|]. clear Hn.
  destruct (processTerms_ok _ pod e n 1 P1 ltac:(by left)) as [A1 B1], (processTerms_ok _ pod e n (-1) P2 ltac:(by right)) as [A2 B2],
    (processTerms_ok _ e pod n 1 E1 ltac:(by left)) as [A3 B3], (processTerms_ok _ e pod n (-1) E2 ltac:(by right)) as [A4 B4].
  set (hard := if 0 <? hardPodAffinityWeight ipa then (λ term, ProcessTerm term e pod n (float_of_int (hardPodAffinityWeight ipa))) <$> required_terms (PodAffinity_of e) else []).
  assert (Forall (call_ok 100) hard ∧ ∀ node, sumZ (call_value node) hard =
    sumZ (λ t, if holds_at e pod t n node then Z.max 0 (hardPodAffinityWeight ipa) else 0) (required_terms (PodAffinity_of e))) as [A5 B5].
  { unfold hard. rewrite Forall_forall in E3. destruct (Z.ltb_spec 0 (hardPodAffinityWeight ipa)).
    - split; [|intros node; rewrite sumZ_fmap; apply sumZ_ext; intros t _; cbn [call_value]; rewrite int_weight_int, Z.max_r by lia; done].
      apply Forall_forall. intros c (t & -> & Hin)%list_elem_of_fmap. split; [by apply E3|]. exists (hardPodAffinityWeight ipa). split; [done|lia].
    - split; [constructor|]. intros node. symmetry. apply sumZ_0. intros t _. rewrite Z.max_l by lia. by destruct (holds_at _ _ _ _ _). }
  assert (∀ node, sumZ (call_value node) (match PodAffinity_of e with
      | Some a => (if 0 <? hardPodAffinityWeight ipa then (λ term, ProcessTerm term e pod n (float_of_int (hardPodAffinityWeight ipa))) <$> RequiredTerms a else []) ++
                  processTerms (PreferredTerms a) e pod n 1
      | None => [] end) = sumZ (call_value node) hard + sumZ (call_value node) (processTerms (preferred_terms (PodAffinity_of e)) e pod n 1)) as B6.
  { intros node. unfold hard. destruct (PodAffinity_of e); simpl; [by rewrite sumZ_app|]. by destruct (0 <? _). }
  split; [|intros node; rewrite !sumZ_app, B6, B1, B2, B3, B4, B5; unfold pull; lia].
  rewrite !Forall_app. split_and!; [done|done| |done]. unfold hard in A5. destruct (PodAffinity_of e); [|constructor]. by apply Forall_app.
Qed.

Lemma no_constraints e : hasPodAffinityConstraints e = false → PodAffinity_of e = None ∧ PodAntiAffinity_of e = None.
Proof.
  unfold hasPodAffinityConstraints, PodAffinity_of, PodAntiAffinity_of. destruct (spec_Affinity (pod_Spec e)) as [[na [pa|] [pan|]]|]; simpl; done.
Qed.

Variable infos : gmap string NodeInfo.
Variable nodes : list Node.

Definition calls : list affinity_call := concat ((λ e, processNode ipa pod e.2) <$> range infos).
(** The snapshot and the terms: names of nodes are different, the pods with constraints are known, nodes of pods are found
    or known to be gone, and there are not more than about 4.5 * 10^13 pairs of a pod and a term. *)
Record affinity_ok : Prop := {
  ao_names : NoDup (node_Name <$> nodes);
  ao_hard : hardPodAffinityWeight ipa <= 100;
  ao_pod : pod_terms_ok pod;
  ao_infos k info : infos !! k = Some info →
    ni_podsWithAffinity info ≡ₚ filter (λ q, hasPodAffinityConstraints q) (ni_pods info) ∧
    ∀ e, e ∈ ni_pods info → pod_terms_ok e ∧ ∀ err, ipa_GetNodeInfo ipa (pod_NodeName e) = inl err → err.1 = true;
  ao_small : 100 * Z.of_nat (length calls) <= 2 ^ 52
}.
Hypothesis Hok : affinity_ok.

(** Pods without constraints may be left out if the new pod has none. *)
Lemma processNode_ok k info : infos !! k = Some info →
  Forall (call_ok 100) (processNode ipa pod info) ∧
  ∀ node, sumZ (call_value node) (processNode ipa pod info) = match ni_node info with Some _ => sumZ (pull_of node) (ni_pods info) | None => 0 end.
Proof.
  intros Ek. destruct (ao_infos Hok k info Ek) as [Hp Hpods]. unfold processNode. destruct (ni_node info); [|split; [constructor|done]].
  assert (∀ e, e ∈ ni_pods info → Forall (call_ok 100) (processPod ipa pod e) ∧ ∀ node, sumZ (call_value node) (processPod ipa pod e) = pull_of node e) as He.
  { intros e Hin. destruct (Hpods e Hin). by apply processPod_ok; try apply Hok. }
  assert (∀ l, (∀ e, e ∈ l → e ∈ ni_pods info) → Forall (call_ok 100) (l ≫= processPod ipa pod) ∧
    ∀ node, sumZ (call_value node) (l ≫= processPod ipa pod) = sumZ (pull_of node) l) as Hl.
  { intros l Hl. split; [apply Forall_bind, Forall_forall; intros e Hin; by apply He, Hl|].
    intros node. rewrite sumZ_bind. apply sumZ_ext. intros e Hin. by apply He, Hl. }
  destruct (bool_decide (is_Some (PodAffinity_of pod)) || bool_decide (is_Some (PodAntiAffinity_of pod))) eqn:Ec; [by apply Hl|].
  apply orb_false_iff in Ec as [Ea%bool_decide_eq_false Eb%bool_decide_eq_false]. rewrite <-eq_None_not_Some in Ea, Eb.
  destruct (Hl (ni_podsWithAffinity info)) as [H1 H2]; [intros e; rewrite Hp; by intros [_ ?]%list_elem_of_filter|].
  split; [done|]. intros node. rewrite H2, Hp. apply sumZ_filter. intros e Hin Hno. apply Is_true_false in Hno.
  apply no_constraints in Hno as [E1 E2]. unfold pull_of, pull. rewrite Ea, Eb, E1, E2. by destruct (ipa_GetNodeInfo _ _).
Qed.
Lemma calls_ok : Forall (call_ok 100) calls ∧ ∀ node, value node calls = attraction infos node.
Proof.
  assert (∀ node, attraction infos node =
    sumZ (λ e, match ni_node e.2 with Some _ => sumZ (pull_of node) (ni_pods e.2) | None => 0 end) (range infos)) as Ea.
  { intros node. unfold attraction. by rewrite range_perm. }
  setoid_rewrite Ea. clear Ea. unfold calls, value.
  assert (∀ e, e ∈ range infos → infos !! e.1 = Some e.2) as Hr by (intros [k info]; apply range_elem).
  assert (∀ l, (∀ e, e ∈ l → infos !! e.1 = Some e.2) → Forall (call_ok 100) (concat ((λ e, processNode ipa pod e.2) <$> l)) ∧
    ∀ node, sumZ (call_value node) (concat ((λ e, processNode ipa pod e.2) <$> l)) =
            sumZ (λ e, match ni_node e.2 with Some _ => sumZ (pull_of node) (ni_pods e.2) | None => 0 end) l) as H; [|by apply H].
  clear Hr. induction l as [|e l IH]; intros Hl; [split; [constructor|done]|]. destruct IH as [IH1 IH2]; [intros; apply Hl; by right|].
  destruct (processNode_ok e.1 e.2) as [H1 H2]; [apply Hl; by left|]. split; [cbn; by apply Forall_app|]. intros node. cbn [fmap list_fmap concat].
  rewrite sumZ_app, H2, IH2. done.
Qed.

Lemma attraction_small node : Z.abs (attraction infos node) <= 2 ^ 52.
Proof.
  destruct calls_ok as [Hc Hv]. destruct (run_calls_sums [] 100 calls newPodAffinityPriorityMap (λ _, 0) 0) as [_ H];
    [constructor|done|done|done|pose proof (ao_small Hok); lia|by split; [|intros ? ?%not_elem_of_nil]|done|].
  specialize (H node). rewrite Hv in H. pose proof (ao_small Hok). lia.
Qed.

(** The extremes, with zero. *)
Definition lowest : Z := foldl (λ m node, Z.min m (attraction infos node)) 0 nodes.
Definition highest : Z := foldl (λ m node, Z.max m (attraction infos node)) 0 nodes.

Lemma fold_extreme (op : Z → Z → Z) (keep : float64 → float64 → bool) (f : Node → Z) (count : Node → float64) l :
  (∀ a b, (if keep (Finite (a * float_one)) (Finite (b * float_one)) then b else a) = op a b) → (∀ node, node ∈ l → count node = Finite (f node * float_one)) →
  ∀ m, foldl (λ m node, if keep m (count node) then count node else m) (Finite (m * float_one)) l = Finite (foldl (λ m node, op m (f node)) m l * float_one).
Proof.
  intros Hop. induction l as [|n l IH]; intros Hc m; [done|]. simpl. rewrite Hc by (by left). rewrite <-Hop.
  destruct (keep _ _); (apply IH; intros; apply Hc; by right).
Qed.
Definition scaled (a : Z) : Z := affinity_score (Finite (a * float_one)) (Finite (lowest * float_one)) (Finite (highest * float_one)).

Lemma priority_value :
  CalculateInterPodAffinityPriority ipa pod infos nodes = ((λ node, MkHostPriority (node_Name node) (scaled (attraction infos node))) <$> nodes, None).
Proof.
  unfold CalculateInterPodAffinityPriority. set (cs := interleave _). destruct calls_ok as [Hc Hv].
  assert (cs ≡ₚ calls) as Hperm by apply interleave_perm. pose proof (ao_small Hok) as Hs.
  destruct (run_calls_sums nodes 100 cs newPodAffinityPriorityMap (λ _, 0) 0) as [[He Hcount] _];
    [apply Hok|by rewrite Hperm|done|done|rewrite Hperm; lia| |done|].
  { split; [done|]. intros node _. unfold pm_count. simpl. by rewrite lookup_empty. }
  rewrite He. f_equal. pose proof one_pos.
  assert (∀ node, node ∈ nodes → pm_count (foldl (run_call nodes) newPodAffinityPriorityMap cs) node = Finite (attraction infos node * float_one)) as Hnode.
  { intros node Hin. rewrite Hcount by done. simpl. unfold value. rewrite Hperm. fold (value node calls). by rewrite Hv. }
  rewrite <-(Z.mul_0_l float_one).
  rewrite (fold_extreme Z.max float_ltb (attraction infos)); [|intros a b; simpl; destruct (Z.ltb_spec (a * float_one) (b * float_one)); nia|done].
  rewrite (fold_extreme Z.min (λ m x, float_ltb x m) (attraction infos)); [|intros a b; simpl; destruct (Z.ltb_spec (b * float_one) (a * float_one)); nia|done].
  apply list_fmap_ext. intros _ node Hin%list_elem_of_lookup_2. by rewrite Hnode.
Qed.

Lemma sub_int a b : Z.abs (a - b) <= 2 ^ 53 → (Finite (a * float_one) - Finite (b * float_one))%float = Finite ((a - b) * float_one).
Proof. intros Hd. unfold float_sub. simpl float_neg. rewrite <-Z.mul_opp_l. by apply add_int. Qed.

Lemma extremes : lowest <= 0 <= highest ∧ (∀ node, node ∈ nodes → lowest <= attraction infos node <= highest) ∧
  - 2 ^ 52 <= lowest ∧ highest <= 2 ^ 52.
Proof.
  assert (∀ l m m', lowest = lowest → m <= m' → foldl (λ m node, Z.min m (attraction infos node)) m l <= m ∧
    m' <= foldl (λ m node, Z.max m (attraction infos node)) m' l ∧
    (∀ node, node ∈ l → foldl (λ m node, Z.min m (attraction infos node)) m l <= attraction infos node <= foldl (λ m node, Z.max m (attraction infos node)) m' l) ∧
    (- 2 ^ 52 <= m → - 2 ^ 52 <= foldl (λ m node, Z.min m (attraction infos node)) m l) ∧
    (m' <= 2 ^ 52 → foldl (λ m node, Z.max m (attraction infos node)) m' l <= 2 ^ 52)) as Hf.
  { intros l. induction l as [|n l IH]; intros m m' _ Hm; simpl; [split_and!; [lia|lia|by intros ? ?%not_elem_of_nil|lia|lia]|].
    pose proof (attraction_small n). destruct (IH (Z.min m (attraction infos n)) (Z.max m' (attraction infos n))) as (H1 & H2 & H3 & H4 & H5); [done|lia|].
    split_and!; [lia|lia| |intros; apply H4; lia|intros; apply H5; lia]. intros node [->|Hin]%elem_of_cons; [lia|by apply H3]. }
  destruct (Hf nodes 0 0) as (H1 & H2 & H3 & H4 & H5); [done|lia|]. split_and!; [done|done|done|by apply H4|by apply H5].
Qed.

(** The part of the way from the lowest to the highest, as a float64. *)
Lemma way a : lowest <= a <= highest → lowest < highest →
  scaled a = int_of_float (float_of_int MaxPriority * (Finite ((a - lowest) * float_one) / Finite ((highest - lowest) * float_one))).
Proof.
  intros Ha Hlt. pose proof extremes as (_ & _ & H1 & H2). pose proof one_pos. unfold scaled, affinity_score. rewrite !sub_int by lia. simpl float_ltb.
  destruct (Z.ltb_spec 0 ((highest - lowest) * float_one)); [done|nia].
Qed.
Lemma scaled_flat a : lowest = highest → scaled a = 0.
Proof.
  intros E. unfold scaled, affinity_score. rewrite E, sub_int by lia. rewrite Z.sub_diag, Z.mul_0_l. apply int_of_float_0.
Qed.
Lemma scaled_on_scale' a : lowest <= a <= highest → on_scale (scaled a).
Proof.
  intros Ha. pose proof one_pos. destruct (decide (lowest = highest)); [rewrite scaled_flat by done; in_range|].
  rewrite way by lia. apply int_on_scale, times_10, div_between; nia.
Qed.
Lemma scaled_mono a b : lowest <= a → a <= b → b <= highest → scaled a <= scaled b.
Proof.
  intros Ha Hab Hb. pose proof one_pos. destruct (decide (lowest = highest)); [rewrite !scaled_flat by done; lia|].
  rewrite !way by lia. destruct (div_between ((a - lowest) * float_one) ((highest - lowest) * float_one)) as (x & Ex & Hx); [nia..|].
  destruct (div_between ((b - lowest) * float_one) ((highest - lowest) * float_one)) as (y & Ey & Hy); [nia..|].
  pose proof (div_mono ((a - lowest) * float_one) ((b - lowest) * float_one) ((highest - lowest) * float_one) ltac:(nia) ltac:(nia)) as Hle.
  apply (int_of_float_mono 10); [by apply times_10, div_between; nia..|in_range|]. rewrite Ex, Ey in *. apply Z.leb_le in Hle. rewrite float_10. apply mul_mono; lia.
Qed.
Lemma scaled_top : lowest < highest → scaled highest = MaxPriority.
Proof.
  intros Hlt. pose proof one_pos. rewrite way by lia.
  assert (Finite ((highest - lowest) * float_one) / Finite ((highest - lowest) * float_one) = Finite float_one)%float as ->.
  { unfold float_div. destruct (Z.eqb_spec ((highest - lowest) * float_one) 0); [nia|]. rewrite Z.sgn_pos, Z.abs_eq by nia.
    set (w := (highest - lowest) * float_one). assert (0 < w) by (unfold w; nia).
    destruct (of_ratio_between (w * float_one * 1) w float_one float_one) as (v & -> & Hv); [done|apply representable_1|apply representable_1|nia|nia|]. f_equal. lia. }
  rewrite float_10. destruct (of_ratio_between (10 * float_one * float_one) float_one (10 * float_one) (10 * float_one)) as (v & Ev & Hv);
    [done|by apply representable_small|by apply representable_small|lia|lia|].
  simpl. rewrite Ev. assert (v = 10 * float_one) as -> by lia. unfold int_of_float. rewrite Z.quot_mul by lia. by rewrite bool_decide_true by in_range.
Qed.
Lemma scaled_bottom : scaled lowest = 0.
Proof.
  pose proof one_pos. pose proof extremes as (H0 & _). destruct (decide (lowest = highest)); [by apply scaled_flat|]. rewrite way by lia. rewrite Z.sub_diag.
  assert (Finite (0 * float_one) / Finite ((highest - lowest) * float_one) = Finite 0)%float as ->.
  { unfold float_div. destruct (Z.eqb_spec ((highest - lowest) * float_one) 0); [nia|]. rewrite !Z.mul_0_l. apply float_of_ratio_0. nia. }
  rewrite float_10. unfold float_mul. rewrite Z.mul_0_r, float_of_ratio_0 by done. apply int_of_float_0.
Qed.

(** C12: the score of the affinity between pods is exact.  The attraction of a node is the sum of the weights of all terms that hold
    there: the preferences of the new pod for and against pods that run, theirs for and against it, and the symmetric weight for what they
    require.  Whatever the interleaving of the workers, and although only the pods with constraints are visited
    if the new pod has none, the scores are a function of the attractions alone: on the scale, growing with
    the attraction, [MaxPriority] for the most attractive node if something attracts, and zero for the most repulsive. *)
Theorem interpod_priority_exact :
  CalculateInterPodAffinityPriority ipa pod infos nodes = ((λ node, MkHostPriority (node_Name node) (scaled (attraction infos node))) <$> nodes, None) ∧
  ∀ node, node ∈ nodes →
    on_scale (scaled (attraction infos node)) ∧
    (∀ node', node' ∈ nodes → attraction infos node <= attraction infos node' → scaled (attraction infos node) <= scaled (attraction infos node')) ∧
    (0 < attraction infos node → (∀ node', node' ∈ nodes → attraction infos node' <= attraction infos node) → scaled (attraction infos node) = MaxPriority) ∧
    (attraction infos node < 0 → (∀ node', node' ∈ nodes → attraction infos node <= attraction infos node') → scaled (attraction infos node) = 0).
Proof.
  split; [exact priority_value|]. intros node Hin. pose proof extremes as (H0 & Hall & _). pose proof (Hall node Hin) as Hn.
  split_and!; [by apply scaled_on_scale'|intros node' Hin' Hle; pose proof (Hall node' Hin'); apply scaled_mono; lia|..].
  - intros Hpos Htop. assert (attraction infos node = highest) as ->; [|by apply scaled_top; lia].
    assert (highest <= attraction infos node); [|lia]. clear -Htop Hpos. unfold highest. 
    assert (∀ l m, (∀ n, n ∈ l → attraction infos n <= attraction infos node) → m <= attraction infos node → foldl (λ m n, Z.max m (attraction infos n)) m l <= attraction infos node) as H; [|apply H; [done|lia]].
    induction l as [|n l IH]; intros m Hl Hm; simpl; [done|]. apply IH; [intros; apply Hl; by right|]. pose proof (Hl n ltac:(by left)). lia.
  - intros Hneg Hbot. assert (attraction infos node = lowest) as ->; [|by apply scaled_bottom].
    assert (attraction infos node <= lowest); [|lia]. clear -Hbot Hneg. unfold lowest.
    assert (∀ l m, (∀ n, n ∈ l → attraction infos node <= attraction infos n) → attraction infos node <= m → attraction infos node <= foldl (λ m n, Z.min m (attraction infos n)) m l) as H; [|apply H; [done|lia]].
    induction l as [|n l IH]; intros m Hl Hm; simpl; [done|]. apply IH; [intros; apply Hl; by right|]. pose proof (Hl n ltac:(by left)). lia.
Qed.
End affinity.
