(* ===== verification/PrioritizeProofs.v ===== *)
(** * The sum of the scores

    [PrioritizeNodes] with registered functions: it does not panic, the weighted sum of the scores is exact, and no node
    that asks to be spared a pod is preferred to one that does not. *)
From S2P Require Import Prelude Heap Api Util Backoff SchedulingQueue Resource HostPorts NodeTree NodeInfo PoolInfo Predicates Cache GenericScheduler Metadata PredicateFuncs VolumePredicates Float64 Priorities PriorityProofs AffinityScoreProofs.

(** ** Weights *)

Section weights.
Context {K8s : K8sLib} {Range : MapRange} {Errs : ErrorsLib} {Vol : VolumeLib} {Pred : PredicateLib} {Pri : PriorityLib} {Conv : FloatConversion} {Work : Workers}.
Abbreviation Config := (PriorityConfig (option priorityMetadata)).
Implicit Types (configs : list Config) (l : HostPriorityList).

Definition total_weight configs : Z := sumZ pc_Weight configs.
(** The weights that the validation of a policy lets through. *)
Definition weight_ok (config : Config) : Prop := 0 <= pc_Weight config /\ pc_Weight config * MaxPriority <= MaxInt64.

Lemma total_weight_nonneg configs : Forall weight_ok configs → 0 <= total_weight configs.
Proof. unfold total_weight. induction 1 as [|c cs [Hc _] _ IH]; simpl; lia. Qed.
(** The check of the weights is right: it is passed exactly if the highest total can be represented. *)
Lemma validate_weights_spec configs : ∀ t, 0 <= t <= MaxInt64 → Forall weight_ok configs →
  (validate_weights t configs = None ↔ t + total_weight configs * MaxPriority <= MaxInt64).
Proof.
  induction configs as [|c cs IH]; intros t Ht Hcs; [unfold total_weight; simpl; split; [lia|done]|].
  apply Forall_cons in Hcs as [[H1 H2] Hcs]. pose proof (total_weight_nonneg cs Hcs) as Hn. cbn [validate_weights]. unfold MaxTotalPriority.
  change (total_weight (c :: cs)) with (pc_Weight c + total_weight cs).
  unfold sub64, mul64. rewrite !wrap64_id by in_range. destruct (Z.ltb_spec (MaxInt64 - t) (pc_Weight c * MaxPriority)).
  - split; [done|]. unfold MaxPriority in *. lia.
  - unfold add64. rewrite wrap64_id by in_range. rewrite IH by (done || in_range). unfold MaxPriority in *. lia.
Qed.

(** ** Sums *)

Definition score_at l (i : nat) : Z := match l !! i with Some hp => Score hp | None => 0 end.
Definition weighted (results : list (HostPriorityList * Z)) (i : nat) : Z := sumZ (λ r, r.2 * score_at r.1 i) results.

Lemma weighted_sum_exact i results : ∀ acc, 0 <= acc →
  Forall (λ r, (∃ hp, r.1 !! i = Some hp ∧ on_scale (Score hp)) ∧ 0 <= r.2) results → acc + MaxPriority * sumZ snd results <= MaxInt64 →
  weighted_sum i acc results = Some (acc + weighted results i) ∧ 0 <= weighted results i <= MaxPriority * sumZ snd results.
Proof.
  induction results as [|[l w] results IH]; intros acc Hacc Hr Hs; [unfold weighted; simpl; split; [f_equal; lia|lia]|].
  apply Forall_cons in Hr as [[(hp & Ehp & Hhp) Hw] Hr]. simpl in Ehp, Hw.
  change (sumZ snd ((l, w) :: results)) with (w + sumZ snd results) in *. change (weighted ((l, w) :: results) i) with (w * score_at l i + weighted results i).
  unfold score_at. rewrite Ehp.
  assert (0 <= sumZ snd results) as Hn by (clear -Hr; induction Hr as [|r rs [_ Hr'] _ IH]; [done|change (sumZ snd (r :: rs)) with (r.2 + sumZ snd rs); lia]).
  cbn [weighted_sum]. rewrite Ehp. cbn [mbind option_bind].
  assert (0 <= Score hp * w <= MaxPriority * w) as Hm by (unfold on_scale in Hhp; nia).
  unfold MaxPriority in *. unfold mul64, add64. rewrite (wrap64_id (Score hp * w)), wrap64_id by (unfold int64, MinInt64; lia).
  destruct (IH (acc + Score hp * w)) as [-> Hb]; [lia|done|lia|]. split; [f_equal; lia|lia].
Qed.
Lemma sum_scores_exact results nodes : ∀ i, Forall (λ r, 0 <= r.2 ∧ ∀ k, (k < length nodes)%nat → ∃ hp, r.1 !! (i + k)%nat = Some hp ∧ on_scale (Score hp)) results →
  MaxPriority * sumZ snd results <= MaxInt64 →
  ∃ l, sum_scores i nodes results = Some l ∧ length l = length nodes ∧ ∀ k hp, l !! k = Some hp → ∃ node, nodes !! k = Some node ∧ hp = MkHostPriority (node_Name node) (weighted results (i + k)) ∧
    0 <= Score hp <= MaxPriority * sumZ snd results.
Proof.
  induction nodes as [|node nodes IH]; intros i Hr Hs; [exists []; by split_and!|]. cbn [sum_scores].
  destruct (weighted_sum_exact i results 0) as [-> Hb]; [done| |lia|].
  { eapply Forall_impl; [exact Hr|]. intros r [Hw Hk]. split; [|done]. destruct (Hk O) as (hp & E & Hhp); [simpl; lia|]. rewrite Nat.add_0_r in E. eauto. }
  cbn [mbind option_bind]. destruct (IH (S i)) as (l & -> & Hlen & Hl); [|done|].
  { eapply Forall_impl; [exact Hr|]. intros r [Hw Hk]. split; [done|]. intros k Hlt. destruct (Hk (S k)) as (hp & E & Hhp); [simpl; lia|].
    rewrite Nat.add_succ_r in E. eauto. }
  eexists. split; [done|]. split; [simpl; by rewrite Hlen|]. intros [|k] hp; simpl.
  - intros [= <-]. exists node. rewrite Nat.add_0_r. split_and!; [done|done|simpl; lia..].
  - intros E. destruct (Hl k hp E) as (n & En & -> & Hsc). exists n. by rewrite Nat.add_succ_r.
Qed.
End weights.

(** ** All functions *)

Section prioritize.
Context {K8s : K8sLib} {Range : MapRange} {Errs : ErrorsLib} {Vol : VolumeLib} {Pred : PredicateLib} {Pri : PriorityLib} {Conv : FloatConversion} {Work : Workers}.
Abbreviation Config := (PriorityConfig (option priorityMetadata)).
Variables (ls : Listers) (ipa : InterPodAffinity).

(** The functions that are registered or that a policy can ask for. *)
Inductive builtin : Config → Prop :=
| builtin_spread ls' w : builtin (selectorSpread ls' w)
| builtin_interpod w : builtin (interPodAffinity ipa w)
| builtin_least w : builtin (leastRequested w)
| builtin_most w : builtin (mostRequested w)
| builtin_ratio points shape w : NewFunctionShape points = inr shape → builtin (requestedToCapacityRatio shape w)
| builtin_balanced w : builtin (balancedAllocation w)
| builtin_avoid w : builtin (nodePreferAvoidPods w)
| builtin_affinity w : builtin (nodeAffinity w)
| builtin_taint w : builtin (taintToleration w)
| builtin_image w : builtin (imageLocality w)
| builtin_equal w : builtin (equalPriority w)
| builtin_limits w : builtin (resourceLimits w)
| builtin_label nl w : builtin (nodeLabel nl w)
| builtin_anti sa w : builtin (serviceAntiAffinity sa w).

Lemma defaults_builtin : Forall builtin (defaultPriorities ls ipa).
Proof. repeat constructor. Qed.

Lemma placed_countable P ns l : (∀ node z, P node z → countable z) → Forall2 (placed P) ns l → Forall (λ hp, countable (Score hp)) l.
Proof. intros HP. induction 1 as [|node hp ns l [_ Hh] _ IH]; [apply Forall_nil_2|]. apply Forall_cons. split; [by eapply HP|done]. Qed.

Variables (pod : Pod) (infos : gmap string NodeInfo) (nodes : list Node).
Hypothesis Hok : cluster_ok pod infos nodes.
Hypothesis Haff : affinity_ok ipa pod infos nodes.
Variable meta : option priorityMetadata.
Hypothesis Hmeta : meta = None ∨ meta = PriorityMetadata ls pod infos.

Lemma interpod_ok w : config_ok pod infos nodes meta (interPodAffinity ipa w).
Proof.
  unfold config_ok, config_scores, interPodAffinity. cbn [pc_Function pc_Reduce mbind option_bind].
  rewrite (priority_value ipa pod infos nodes Haff). cbn [mbind option_bind option_list]. eexists _, _. split; [done|]. intros _.
  rewrite Forall2_fmap_r. apply Forall_Forall2_diag, Forall_forall. intros node Hin. split; [done|]. simpl.
  apply scaled_on_scale'; [done|]. pose proof (extremes ipa pod infos nodes Haff) as (_ & Hall & _). by apply Hall.
Qed.
Lemma builtin_ok config : builtin config → config_ok pod infos nodes meta config.
Proof.
  pose proof placed_countable as Hcount.
  pose proof (placed_known pod infos nodes) as Hknown. pose proof (co_nodes _ _ _ Hok) as Hn. pose proof (co_pods _ _ _ Hok) as Hpods.
  destruct 1.
  - eapply map_reduce_ok; [done|by apply spread_map_ok|]. intros l Hl. apply spread_reduce_ok; [by eapply placed_counted|by eapply Hknown].
  - apply interpod_ok.
  - apply map_only_ok; [done|]. eapply resource_map_ok; [done..|apply least_scores].
  - apply map_only_ok; [done|]. eapply resource_map_ok; [done..|apply most_scores].
  - apply map_only_ok; [done|]. eapply resource_map_ok; [done..|]. apply NewFunctionShape_ok in H as [-> Hs]. by apply ratio_scores.
  - apply map_only_ok; [done|]. eapply resource_map_ok; [done..|apply balanced_scores].
  - apply map_only_ok; [done|]. by eapply avoid_map_ok.
  - eapply map_reduce_ok; [done|by eapply affinity_map_ok|]. intros l Hl. eexists. split; [done|]. apply normalize_reduce_ok. by apply (Hcount (λ _, countable) nodes).
  - eapply map_reduce_ok; [done|by eapply taint_map_ok|]. intros l Hl. eexists. split; [done|]. apply normalize_reduce_ok. by apply (Hcount (λ _, countable) nodes).
  - apply map_only_ok; [done|]. by eapply image_map_ok.
  - apply map_only_ok; [done|]. by eapply equal_map_ok.
  - apply map_only_ok; [done|]. by eapply limits_map_ok.
  - apply map_only_ok; [done|]. by eapply label_map_ok.
  - eapply map_reduce_ok; [done|by apply antiAffinity_map_ok|]. intros l Hl. apply antiAffinity_reduce_ok; [by eapply placed_counted|by eapply Hknown].
Qed.

(** The scores of the functions, without errors. *)
Definition results_of (configs : list Config) (results : list HostPriorityList) : Prop :=
  Forall2 (λ config l, config_scores pod infos meta nodes config = Some (l, []) ∧ Forall2 (placed (λ _, on_scale)) nodes l) configs results.

Lemma zip_weights configs results : results_of configs results → Forall weight_ok configs →
  Forall (λ r, 0 <= r.2 ∧ ∀ k, (k < length nodes)%nat → ∃ hp, r.1 !! (0 + k)%nat = Some hp ∧ on_scale (Score hp)) (zip results (pc_Weight <$> configs)) ∧
  sumZ snd (zip results (pc_Weight <$> configs)) = total_weight configs.
Proof.
  unfold results_of. induction 1 as [|c l cs results [_ Hl] _ IH]; intros Hw; [split; [constructor|done]|].
  apply Forall_cons in Hw as [[Hc _] Hw]. destruct (IH Hw) as [IH1 IH2]. cbn [fmap list_fmap zip zip_with]. split.
  - constructor; [|done]. split; [done|]. intros k Hk. simpl. apply lookup_lt_is_Some in Hk as [node Hk].
    destruct (Forall2_lookup_l _ _ _ _ _ Hl Hk) as (hp & E & _ & Hs). eauto.
  - change (pc_Weight c + sumZ snd (zip results (pc_Weight <$> cs)) = pc_Weight c + total_weight cs). by rewrite IH2.
Qed.

Lemma prioritize_total configs : Forall builtin configs → configs ≠ [] → Forall weight_ok configs → validateSelectedConfigs configs = None →
  ∃ r, PrioritizeNodes pod infos meta configs nodes [] = Some r ∧ ∀ l, r = inr l → ∃ results, results_of configs results ∧ length l = length nodes ∧
    ∀ i hp, l !! i = Some hp → ∃ node, nodes !! i = Some node ∧ hp = MkHostPriority (node_Name node) (weighted (zip results (pc_Weight <$> configs)) i) ∧
      0 <= Score hp <= MaxPriority * total_weight configs.
Proof.
  intros Hb Hne Hw Hv. unfold PrioritizeNodes. rewrite bool_decide_false by (by destruct configs). cbn [andb].
  destruct (mapM_exists (config_scores pod infos meta nodes)
    (λ config r, config_scores pod infos meta nodes config = Some r ∧ (r.2 = [] → Forall2 (placed (λ _, on_scale)) nodes r.1)) configs) as (rs & -> & Hrs).
  { eapply Forall_impl; [exact Hb|]. intros c Hc. destruct (builtin_ok c Hc) as (l & errs & E & Hl). exists (l, errs). by rewrite E. }
  cbn [mbind option_bind]. case_bool_decide as Herr; cbn [negb]; [|eexists; split; [done|by intros l]].
  assert (results_of configs (rs.*1)) as Hres.
  { clear -Hrs Herr. unfold results_of. rewrite Forall2_fmap_r. induction Hrs as [|c [l e] cs rs [E Hl] Hrs IH]; constructor.
    - destruct e; [|done]. split; [done|by apply Hl].
    - apply IH. simpl in Herr. rewrite length_app in Herr. lia. }
  unfold validateSelectedConfigs in Hv. apply validate_weights_spec in Hv; [|in_range|done].
  destruct (zip_weights configs (rs.*1) Hres Hw) as [Hz Ez].
  destruct (sum_scores_exact (zip (rs.*1) (pc_Weight <$> configs)) nodes O Hz) as (l & El & Hlen & Hl); [rewrite Ez; lia|].
  change (map fst rs) with (rs.*1). change (map pc_Weight configs) with (pc_Weight <$> configs). rewrite El. cbn [mbind option_bind].
  eexists. split; [done|]. rewrite bool_decide_true by done. cbn [negb]. intros l' [= <-]. exists (rs.*1). split_and!; [done|done|].
  intros i hp E. rewrite <-Ez. by apply Hl.
Qed.

(** C11: the sum of the scores is exact.  With registered functions whose weights pass the validation, on a cluster whose amounts are
    not absurd, [PrioritizeNodes] does not panic; and when no function reports an error, every function gives every node a score between 0 and
    [MaxPriority], and the score of a node is the weighted sum of these, without overflow. *)
Theorem prioritize_exact configs : Forall builtin configs → configs ≠ [] → Forall weight_ok configs → validateSelectedConfigs configs = None →
  ∃ r, PrioritizeNodes pod infos meta configs nodes [] = Some r ∧ ∀ l, r = inr l → ∃ results, results_of configs results ∧ length l = length nodes ∧
    ∀ i hp, l !! i = Some hp → ∃ node, nodes !! i = Some node ∧ hp = MkHostPriority (node_Name node) (weighted (zip results (pc_Weight <$> configs)) i) ∧
      0 <= Score hp <= MaxPriority * total_weight configs.
Proof. intros. by apply prioritize_total. Qed.

(** *** Pods to avoid *)

(** The node asks to be spared the pods of the controller of the pod. *)
Definition spares (n : Node) : Prop := ∃ c avoids, GetControllerOf pod = Some c ∧
  (owner_Kind c = "ReplicationController"%string ∨ owner_Kind c = "ReplicaSet"%string) ∧
  GetAvoidPodsFromNodeAnnotations (Annotations (node_Meta n)) = inr avoids ∧ Some c ∈ avoids.

Lemma avoids_controller_spec c avoids b : avoids_controller c avoids = Some b → (Some c ∈ avoids ↔ b = true).
Proof.
  induction avoids as [|[a|] l IH]; [intros [= <-]; set_solver| |done]. cbn [avoids_controller mbind option_bind]. destruct (_ && _) eqn:E.
  - apply andb_true_iff in E as [E1%bool_decide_eq_true E2%bool_decide_eq_true]. intros [= <-]. split; [done|]. intros _.
    destruct a, c; simpl in *; subst. apply list_elem_of_here.
  - intros Hl. rewrite elem_of_cons, <-(IH Hl). split; [intros [[= <-]|?]; [|done]|by right]. by rewrite !bool_decide_true in E.
Qed.
Lemma avoid_score info n hp err : ni_node info = Some n → CalculateNodePreferAvoidPodsPriorityMap pod meta (Some info) = Some (hp, err) →
  (spares n → Score hp = 0) ∧ (¬ spares n → Score hp = MaxPriority).
Proof.
  intros En. unfold CalculateNodePreferAvoidPodsPriorityMap. simpl. rewrite En.
  assert (match meta with Some m => controllerRef m | None => GetControllerOf pod end = GetControllerOf pod) as -> by (by destruct Hmeta as [->| ->]).
  unfold spares. destruct (GetControllerOf pod) as [c|]; [|intros [= <- <-]; naive_solver].
  destruct (negb _ && negb _) eqn:Ek.
  { apply andb_true_iff in Ek as [E1%negb_true_iff%bool_decide_eq_false E2%negb_true_iff%bool_decide_eq_false]. intros [= <- <-]. naive_solver. }
  assert (owner_Kind c = "ReplicationController"%string ∨ owner_Kind c = "ReplicaSet"%string) as Hk.
  { destruct (bool_decide (owner_Kind c = "ReplicationController"%string)) eqn:E1; [left; by apply bool_decide_eq_true in E1|].
    destruct (bool_decide (owner_Kind c = "ReplicaSet"%string)) eqn:E2; [right; by apply bool_decide_eq_true in E2|done]. }
  destruct (GetAvoidPodsFromNodeAnnotations _) as [e|avoids]; [intros [= <- <-]; naive_solver|].
  destruct (avoids_controller c avoids) as [b|] eqn:Eb; [|done]. cbn [mbind option_bind]. apply avoids_controller_spec in Eb. intros [= <- <-]. simpl.
  split; [intros (c' & avoids' & [= <-] & _ & [= <-] & Hin); by apply Eb in Hin as ->|].
  intros Hno. destruct b; [|done]. destruct Hno. exists c, avoids. split_and!; [done|done|done|by apply Eb].
Qed.
Lemma map_only_lookup f w l errs i node : config_scores pod infos meta nodes (map_only f w) = Some (l, errs) → nodes !! i = Some node →
  ∃ hp err, f pod meta (infos !! node_Name node) = Some (hp, err) ∧ score_at l i = Score hp.
Proof.
  unfold config_scores, map_only. cbn [pc_Function pc_Reduce pc_Map]. destruct (mapM _ nodes) as [k|] eqn:Em; [|done]. cbn [mbind option_bind]. intros [= <- _] Hi.
  apply mapM_Some_1 in Em. destruct (Forall2_lookup_l _ _ _ _ _ Em Hi) as ([hp' e] & Ek & Ef).
  destruct (f pod meta (infos !! node_Name node)) as [[hp err]|]; [|done]. cbn [mbind option_bind] in Ef. exists hp, err. split; [done|].
  unfold score_at. rewrite list_lookup_fmap, Ek. simpl. injection Ef as <- _. by destruct err.
Qed.

(** C39: nodes that ask to be spared a pod come last.  The weight of this function is meant to override all others: with the default
    functions, a node whose annotation names the controller of the pod has a lower total than each node whose annotation does not. *)
Theorem spared_nodes_last l i j a b ia ib na nb hpa hpb :
  PrioritizeNodes pod infos meta (defaultPriorities ls ipa) nodes [] = Some (inr l) →
  nodes !! i = Some a → infos !! node_Name a = Some ia → ni_node ia = Some na → spares na → l !! i = Some hpa →
  nodes !! j = Some b → infos !! node_Name b = Some ib → ni_node ib = Some nb → ¬ spares nb → l !! j = Some hpb →
  Score hpa < Score hpb.
Proof.
  intros E Ea Eia Ena Ha Ela Eb Eib Enb Hb Elb.
  destruct (prioritize_total (defaultPriorities ls ipa)) as (r & Er & Hr); [apply defaults_builtin|done|repeat (apply Forall_cons; split; [split; simpl; in_range|]); apply Forall_nil_2|by vm_compute|].
  rewrite E in Er. injection Er as <-. destruct (Hr l eq_refl) as (results & Hres & _ & Hl). clear Hr E.
  destruct (Hl i hpa Ela) as (a' & Ea' & -> & _). rewrite Ea in Ea'. injection Ea' as <-. destruct (Hl j hpb Elb) as (b' & Eb' & -> & _). rewrite Eb in Eb'. injection Eb' as <-.
  unfold results_of, defaultPriorities in Hres. repeat (apply Forall2_cons_inv_l in Hres as (? & ? & [? ?] & Hres & ->)). apply Forall2_nil_inv_l in Hres as ->.
  assert (∀ r k node, Forall2 (placed (λ _, on_scale)) nodes r → nodes !! k = Some node → on_scale (score_at r k)) as Hscale.
  { intros r k node Hr Hk. destruct (Forall2_lookup_l _ _ _ _ _ Hr Hk) as (hp & Ehp & _ & Hs). unfold score_at. by rewrite Ehp. }
  match goal with H : config_scores _ _ _ _ (nodePreferAvoidPods _) = Some (?r, _) |- _ =>
    destruct (map_only_lookup _ _ _ _ _ _ H Ea) as (hp & err & Ef & Es); destruct (map_only_lookup _ _ _ _ _ _ H Eb) as (hp' & err' & Ef' & Es') end.
  rewrite Eia in Ef. rewrite Eib in Ef'. destruct (avoid_score _ _ _ _ Ena Ef) as [Hsa _], (avoid_score _ _ _ _ Enb Ef') as [_ Hsb].
  rewrite (Hsa Ha) in Es. rewrite (Hsb Hb) in Es'. simpl. unfold weighted, sumZ. simpl.
  repeat match goal with H : Forall2 (placed _) nodes ?r |- _ => pose proof (Hscale r i a H Ea); pose proof (Hscale r j b H Eb); clear H end.
  rewrite Es, Es'. unfold on_scale, MaxPriority in *. lia.
Qed.
End prioritize.
