(* ===== verification/PriorityExample.v ===== *)
(** * Example: scores on two nodes

    A pod of a replica set that likes to be near "web"; one node runs a pod of "web", the other asks to be spared the pods
    of the replica set. *)
From S2P Require Import Prelude Heap Api Util Backoff SchedulingQueue Resource HostPorts NodeTree NodeInfo PoolInfo Predicates Cache GenericScheduler GenericSchedulerProofs Metadata MetadataProofs PredicateFuncs PredicateProofs VolumePredicates VolumeProofs Float64 Priorities PriorityProofs AffinityScoreProofs PrioritizeProofs.

Module PriorityExample.
#[local] Existing Instance docK8s.
#[local] Existing Instance docK8s_laws.
#[local] Existing Instance stdRange.
#[local] Existing Instance PredicateExample.docPredicates.
#[local] Existing Instance VolumeExample.docVolumes.
#[local] Existing Instance GenericExample.no_errors.

(** Owners and the pods to avoid are read from annotations that hold a UID. *)
#[local] Instance docPriorities : PriorityLib := {|
  SelectorFromSet s := MkSelector (doc_matches (MkLabelSelector s [])) (bool_decide (s = ∅));
  GetControllerOf p := MkOwnerReference "ReplicaSet" <$> Annotations (pod_Meta p) !! "owner"%string;
  NodeSelectorRequirementsAsSelector rs := inr (MkSelector (doc_matches (MkLabelSelector ∅
    ((λ r, MkLabelSelectorRequirement (nsr_Key r) (nsr_Operator r) (nsr_Values r)) <$> rs))) false);
  GetAvoidPodsFromNodeAnnotations a := inr (match a !! "avoid"%string with Some uid => [Some (MkOwnerReference "ReplicaSet" uid)] | None => [] end);
  DefaultImageTag := "latest"
|}.
Lemma MinInt64_int64 : int64 MinInt64.
Proof. in_range. Qed.
(** The conversion of the amd64 processors, and a single worker. *)
#[local] Instance amd64 : FloatConversion := {| unrepresentable _ := MinInt64; unrepresentable_int64 _ := MinInt64_int64 |}.
#[local] Instance one_worker : Workers := {| interleave A := @concat A; interleave_perm A ls := Permutation_refl (concat ls) |}.

Definition capacity : ResourceList :=
  {[ResourceCPU := NewMilliQuantity 4000; ResourceMemory := NewQuantity 8589934592; ResourcePods := NewQuantity 10]}.
Definition mkNode (name zone : string) (annotations : gmap string string) : Node :=
  MkNode (MkObjectMeta name EmptyString EmptyString EmptyString 0 {["zone"%string := zone]} annotations 0 None 0) [] false capacity capacity [] [] 0.
Definition n1 : Node := mkNode "n1" "z1" ∅.
Definition n2 : Node := mkNode "n2" "z2" {["avoid" := "rs-1"]}%string.
Definition web : Pod := PredicateExample.mkPod "web" "n1" (PredicateExample.app "web") None 500.
Definition infos : gmap string NodeInfo := {["n1" := PredicateExample.mkInfo n1 [web]; "n2" := PredicateExample.mkInfo n2 []]}%string.

(** The pod would rather be in the zone of "web". *)
Definition near_web : Affinity := MkAffinity None (Some (MkPodAffinity [] [(50, PredicateExample.term "web" "zone")])) None.
Definition pod : Pod :=
  MkPod (MkObjectMeta "api" "default" "uid-api" EmptyString 0 (PredicateExample.app "api") {["owner" := "rs-1"]}%string 0 None 0)
    (MkPodSpec EmptyString "ai-scheduler" None [MkContainer "api:v1" {[ResourceCPU := NewMilliQuantity 1000]} ∅ []] [] (Some near_web) ∅ [] [] 0)
    (MkPodStatus EmptyString [] 0).
Definition listers : Listers := MkListers (λ _, inr [PredicateExample.app "api"]) (λ _, inr []) (λ _, inr []) (λ _, inr []).
Definition ipa : InterPodAffinity := MkInterPodAffinity
  (λ name, if bool_decide (name = "n1"%string) then inr n1 else if bool_decide (name = "n2"%string) then inr n2 else inl (true, "not found"%string)) 1.
Definition all_nodes : list Node := [n1; n2].

(** ** The cluster is one that exists *)

Lemma infos_cases k info : infos !! k = Some info → info = PredicateExample.mkInfo n1 [web] ∨ info = PredicateExample.mkInfo n2 [].
Proof. unfold infos. rewrite lookup_insert_Some, lookup_singleton_Some. intros [[_ <-]|[_ [_ <-]]]; [by left|by right]. Qed.

Ltac small := vm_compute; repeat match goal with |- _ ∧ _ => split end; intros [=].
Lemma node_ok_1 : node_ok pod infos n1 (PredicateExample.mkInfo n1 [web]) n1.
Proof.
  split; [vm_compute; reflexivity|vm_compute; reflexivity|reflexivity|small|small|small|small|].
  intros avoids. vm_compute. intros [= <-]. apply Forall_nil_2.
Qed.
Lemma node_ok_2 : node_ok pod infos n2 (PredicateExample.mkInfo n2 []) n2.
Proof.
  split; [vm_compute; reflexivity|vm_compute; reflexivity|reflexivity|small|small|small|small|].
  intros avoids. vm_compute. intros [= <-]. apply Forall_cons. split; [by eexists|apply Forall_nil_2].
Qed.
Lemma cluster_good : cluster_ok pod infos all_nodes.
Proof.
  split; [|small|split; [apply Forall_nil_2|small]].
  intros node Hn. apply elem_of_cons in Hn as [->|Hn]; [do 2 eexists; apply node_ok_1|].
  apply list_elem_of_singleton in Hn as ->. do 2 eexists. apply node_ok_2.
Qed.
Lemma affinity_good : AffinityScoreProofs.affinity_ok ipa pod infos all_nodes.
Proof.
  split.
  - apply (bool_decide_unpack _). vm_compute. exact I.
  - small.
  - split; [|split]; [|apply Forall_nil_2|apply Forall_nil_2]. apply Forall_cons. split; [|apply Forall_nil_2].
    split; [small|]. by eexists.
  - intros k info [->| ->]%infos_cases.
    + split; [vm_compute; reflexivity|]. intros e He. apply list_elem_of_singleton in He as ->.
      split; [split_and!; apply Forall_nil_2|]. intros err. vm_compute. intros [=].
    + split; [vm_compute; reflexivity|]. intros e He. by apply not_elem_of_nil in He.
  - small.
Qed.

(** ** Scores *)

Lemma interpod_priority_exact_witness :
  CalculateInterPodAffinityPriority ipa pod infos all_nodes = ([MkHostPriority "n1" 10; MkHostPriority "n2" 0], None) ∧
  attraction ipa pod infos n1 = 50.
Proof.
  split; [|vm_compute; reflexivity].
  etransitivity; [apply (interpod_priority_exact ipa pod infos all_nodes affinity_good)|vm_compute; reflexivity].
Defined.

(** Two functions with their weights, and the total. *)
Lemma prioritize_exact_witness :
  PrioritizeNodes pod infos None [leastRequested 3; interPodAffinity ipa 2] all_nodes [] =
    Some (inr [MkHostPriority "n1" 41; MkHostPriority "n2" 24]) ∧
  ∃ results, length results = 2%nat ∧ weighted (zip results [3; 2]) 0 = 41.
Proof.
  assert (PrioritizeNodes pod infos None [leastRequested 3; interPodAffinity ipa 2] all_nodes [] =
    Some (inr [MkHostPriority "n1" 41; MkHostPriority "n2" 24])) as E by (vm_compute; reflexivity).
  split; [exact E|].
  destruct (prioritize_exact listers ipa pod infos all_nodes cluster_good affinity_good None (or_introl eq_refl) [leastRequested 3; interPodAffinity ipa 2])
    as (r & Er & Hr).
  - repeat (apply Forall_cons; split); [constructor|constructor|apply Forall_nil_2].
  - discriminate.
  - repeat (apply Forall_cons; split); [small|small|apply Forall_nil_2].
  - vm_compute. reflexivity.
  - rewrite E in Er. injection Er as <-. destruct (Hr _ eq_refl) as (results & Hres & _ & Hl).
    destruct (Hl 0%nat _ eq_refl) as (node & _ & Ehp & _). exists results. split; [|injection Ehp as _ Ehp; symmetry; exact Ehp].
    symmetry. exact (Forall2_length _ _ _ Hres).
Defined.

(** Although it runs no pod at all, the node that asks to be spared comes last. *)
Lemma spared_nodes_last_witness : ∃ l hp1 hp2,
  PrioritizeNodes pod infos (PriorityMetadata listers pod infos) (defaultPriorities listers ipa) all_nodes [] = Some (inr l) ∧
  l !! 0%nat = Some hp1 ∧ l !! 1%nat = Some hp2 ∧ Score hp2 < Score hp1.
Proof.
  exists [MkHostPriority "n1" 100043; MkHostPriority "n2" 35], (MkHostPriority "n1" 100043), (MkHostPriority "n2" 35).
  assert (PrioritizeNodes pod infos (PriorityMetadata listers pod infos) (defaultPriorities listers ipa) all_nodes [] =
    Some (inr [MkHostPriority "n1" 100043; MkHostPriority "n2" 35])) as E by (vm_compute; reflexivity).
  split; [exact E|]. split; [reflexivity|]. split; [reflexivity|].
  refine (spared_nodes_last listers ipa pod infos all_nodes cluster_good affinity_good _ (or_intror eq_refl)
    _ 1 0 n2 n1 _ _ n2 n1 _ _ E eq_refl (no_info _ _ _ _ _ node_ok_2) (PriorityProofs.no_node _ _ _ _ _ node_ok_2) _ eq_refl
    eq_refl (no_info _ _ _ _ _ node_ok_1) (PriorityProofs.no_node _ _ _ _ _ node_ok_1) _ eq_refl).
  - exists (MkOwnerReference "ReplicaSet" "rs-1"), [Some (MkOwnerReference "ReplicaSet" "rs-1")].
    split; [reflexivity|]. split; [by right|]. split; [reflexivity|]. by apply list_elem_of_singleton.
  - intros (c & avoids & _ & _ & [= <-] & Hc). by apply not_elem_of_nil in Hc.
Defined.
End PriorityExample.
