(* ===== verification/Plugins.v ===== *)
(** * The registry of predicates and priorities (src/pkg/scheduler/factory/plugins.go, algorithmprovider/defaults)

    Predicates and priority functions are registered under names when the program starts; an algorithm provider is a set of names of
    each kind, and a policy can register more.  The registry is a state of global variables.  Sets of keys are
    references to a store, because two providers share one set.  The registry does not call a predicate,
    so its function is represented by the function it is and what it was made of.  [klog.Fatalf] ends the process, like a panic.  Texts of errors
    leave out quotes and numbers. *)
From S2P Require Import Prelude Heap Api Util Resource HostPorts NodeTree NodeInfo PoolInfo Predicates Cache GenericScheduler Metadata PredicateFuncs VolumePredicates Float64 Priorities.
From Stdlib Require Import Ascii.

(** ** Policies (api/types.go); a nil slice is [None] where nil and empty differ *)

Record LabelsPresence := MkLabelsPresence { lp_Labels : list string; lp_Presence : bool }.
Record PredicateArgument := MkPredicateArgument {
  arg_ServiceAffinity : option (list string);
  arg_LabelsPresence : option LabelsPresence
}.
Record PredicatePolicy := MkPredicatePolicy { pp_Name : string; pp_Argument : option PredicateArgument }.

Record LabelPreference := MkLabelPreference { lpr_Label : string; lpr_Presence : bool }.
Record UtilizationShapePoint := MkUtilizationShapePoint { usp_Utilization : Z; usp_Score : Z }.
Record PriorityArgument := MkPriorityArgument {
  arg_ServiceAntiAffinity : option string;
  arg_LabelPreference : option LabelPreference;
  arg_RequestedToCapacityRatio : option (list UtilizationShapePoint)
}.
Record PriorityPolicy := MkPriorityPolicy { prp_Name : string; prp_Weight : Z; prp_Argument : option PriorityArgument }.

(** ** Functions *)

(** The predicates; the constructors of checkers are applied to the listers of the arguments. *)
Inductive predicate_fn :=
| FnPodFitsHostPorts | FnPodFitsResources | FnPodFitsHost | FnPodMatchNodeSelector | FnNoDiskConflict | FnGeneralPredicates
| FnCheckNodeMemoryPressure | FnCheckNodeDiskPressure | FnCheckNodePIDPressure | FnCheckNodeCondition
| FnPodToleratesNodeTaints | FnCheckNodeUnschedulable
| FnVolumeZone | FnMaxPDVolumeCount (filterName : string) | FnCSIMaxVolumeLimit | FnPodAffinity | FnVolumeBinding
| FnServiceAffinity (labels : list string) | FnNodeLabel (labels : list string) (presence : bool).
#[global] Instance predicate_fn_eq_dec : EqDecision predicate_fn.
Proof. solve_decision. Defined.
(** The functions that add to the metadata of predicates. *)
Inductive producer_fn :=
| ServiceAffinityProducer (labels : list string)
| ExtendedResourceProducer (ignoredExtendedResources : gset string).

(** The arguments of the factories that the priority functions use. *)
Record PluginFactoryArgs := MkPluginFactoryArgs {
  pa_listers : Listers;
  pa_NodeInfo : string → (bool * error) + Node;
  pa_HardPodAffinitySymmetricWeight : Z
}.

Definition DefaultProvider : string := "DefaultProvider".
Definition ClusterAutoscalerProvider : string := "ClusterAutoscalerProvider".

(** [sets.String.List]: the elements in order *)
Definition set_List (s : gset string) : list string := merge_sort (λ a b, Is_true (String.leb a b)) (elements s).

(** The regular expression [^[a-zA-Z0-9]([-a-zA-Z0-9]*[a-zA-Z0-9])$] *)
Definition in_chars (lo hi c : ascii) : bool := (lo <=? c)%char && (c <=? hi)%char.
Definition alphanumeric (c : ascii) : bool := in_chars "a" "z" c || in_chars "A" "Z" c || in_chars "0" "9" c.
(** [[-a-zA-Z0-9]*[a-zA-Z0-9]] *)
Fixpoint valid_rest (s : string) : bool :=
  match s with
  | EmptyString => false
  | String c EmptyString => alphanumeric c
  | String c s => (alphanumeric c || (c =? "-")%char) && valid_rest s
  end.
Definition validName (name : string) : bool := match name with EmptyString => false | String c s => alphanumeric c && valid_rest s end.

Section plugins.
Context `{K8sLib} `{MapRange} `{VolumeLib} `{PredicateLib} `{PriorityLib} `{FloatConversion} `{Workers}.
Abbreviation Config := (PriorityConfig (option priorityMetadata)).
Abbreviation MapFunction := (Pod → option priorityMetadata → option NodeInfo → comp (HostPriority * option error)).
Abbreviation ReduceFunction := (Pod → option priorityMetadata → gmap string NodeInfo → HostPriorityList → comp (HostPriorityList * option error)).
Abbreviation PriorityFunction := (Pod → gmap string NodeInfo → list Node → comp (HostPriorityList * option error)).

(** ** The registry *)

(** A nil function is [None]; making a function may end the process. *)
Record PriorityConfigFactory := MkPriorityConfigFactory {
  pcf_Function : option (PluginFactoryArgs → PriorityFunction);
  pcf_MapReduceFunction : option (PluginFactoryArgs → comp (MapFunction * option ReduceFunction));
  pcf_Weight : Z
}.
(** Two references to sets. *)
Record AlgorithmProviderConfig := MkAlgorithmProviderConfig { FitPredicateKeys : nat; PriorityFunctionKeys : nat }.
Abbreviation PriorityMetadataProducer := (Pod → gmap string NodeInfo → option priorityMetadata).

Record Registry := MkRegistry {
  rg_sets : list (gset string);
  fitPredicateMap : gmap string predicate_fn;
  mandatoryFitPredicates : gset string;
  priorityFunctionMap : gmap string PriorityConfigFactory;
  algorithmProviderMap : gmap string AlgorithmProviderConfig;
  priorityMetadataProducer : option (PluginFactoryArgs → PriorityMetadataProducer);
  predicateMetadataProducer : bool;
  predicateMetadataProducers : gmap string producer_fn
}.
Implicit Types (r : Registry) (name key : string).

Definition emptyRegistry : Registry := MkRegistry [] ∅ ∅ ∅ ∅ None false ∅.
Definition set_sets r s := MkRegistry s (fitPredicateMap r) (mandatoryFitPredicates r) (priorityFunctionMap r) (algorithmProviderMap r)
  (priorityMetadataProducer r) (predicateMetadataProducer r) (predicateMetadataProducers r).
Definition set_predicates r m s := MkRegistry (rg_sets r) m s (priorityFunctionMap r) (algorithmProviderMap r)
  (priorityMetadataProducer r) (predicateMetadataProducer r) (predicateMetadataProducers r).
Definition set_priorities r m := MkRegistry (rg_sets r) (fitPredicateMap r) (mandatoryFitPredicates r) m (algorithmProviderMap r)
  (priorityMetadataProducer r) (predicateMetadataProducer r) (predicateMetadataProducers r).
Definition set_providers r m := MkRegistry (rg_sets r) (fitPredicateMap r) (mandatoryFitPredicates r) (priorityFunctionMap r) m
  (priorityMetadataProducer r) (predicateMetadataProducer r) (predicateMetadataProducers r).
Definition set_producers r m := MkRegistry (rg_sets r) (fitPredicateMap r) (mandatoryFitPredicates r) (priorityFunctionMap r) (algorithmProviderMap r)
  (priorityMetadataProducer r) (predicateMetadataProducer r) m.

(** A set by its reference; changing it in place; a new one. *)
Definition keys_at r (ref : nat) : gset string := default ∅ (rg_sets r !! ref).
Definition change_set r (ref : nat) (f : gset string → gset string) : Registry := set_sets r (alter f ref (rg_sets r)).
Definition new_set r (s : gset string) : Registry * nat := (set_sets r (rg_sets r ++ [s]), length (rg_sets r)).

Definition validateAlgorithmNameOrDie name : comp unit := if validName name then Some tt else panic.

(** ** Predicates *)

Definition RegisterFitPredicateFactory r name (predicateFactory : predicate_fn) : comp (Registry * string) :=
  _ ← validateAlgorithmNameOrDie name;
  Some (set_predicates r (<[name := predicateFactory]> (fitPredicateMap r)) (mandatoryFitPredicates r), name).
Definition RegisterFitPredicate r name (predicate : predicate_fn) : comp (Registry * string) := RegisterFitPredicateFactory r name predicate.
Definition RegisterMandatoryFitPredicate r name (predicate : predicate_fn) : comp (Registry * string) :=
  _ ← validateAlgorithmNameOrDie name;
  Some (set_predicates r (<[name := predicate]> (fitPredicateMap r)) ({[ name ]} ∪ mandatoryFitPredicates r), name).
Definition RemoveFitPredicate r name : comp Registry :=
  _ ← validateAlgorithmNameOrDie name;
  Some (set_predicates r (delete name (fitPredicateMap r)) (mandatoryFitPredicates r ∖ {[ name ]})).

(** The provider, or the error that it is not registered. *)
Definition GetAlgorithmProvider r name : error + AlgorithmProviderConfig :=
  match algorithmProviderMap r !! name with
  | Some provider => inr provider
  | None => inl ("plugin " +:+ name +:+ " has not been registered")%string
  end.
Definition RemovePredicateKeyFromAlgoProvider r (providerName : string) key : comp (Registry * option error) :=
  _ ← validateAlgorithmNameOrDie providerName;
  Some (match GetAlgorithmProvider r providerName with
        | inl err => (r, Some err)
        | inr provider => (change_set r (FitPredicateKeys provider) (λ s, s ∖ {[ key ]}), None)
        end).
Definition InsertPredicateKeyToAlgoProvider r (providerName : string) key : comp (Registry * option error) :=
  _ ← validateAlgorithmNameOrDie providerName;
  Some (match GetAlgorithmProvider r providerName with
        | inl err => (r, Some err)
        | inr provider => (change_set r (FitPredicateKeys provider) (λ s, {[ key ]} ∪ s), None)
        end).
Definition RemovePredicateKeyFromAlgorithmProviderMap r key : Registry :=
  foldl (λ r e, change_set r (FitPredicateKeys e.2) (λ s, s ∖ {[ key ]})) r (range (algorithmProviderMap r)).
Definition InsertPredicateKeyToAlgorithmProviderMap r key : Registry :=
  foldl (λ r e, change_set r (FitPredicateKeys e.2) (λ s, {[ key ]} ∪ s)) r (range (algorithmProviderMap r)).
Definition InsertPriorityKeyToAlgorithmProviderMap r key : Registry :=
  foldl (λ r e, change_set r (PriorityFunctionKeys e.2) (λ s, {[ key ]} ∪ s)) r (range (algorithmProviderMap r)).

Definition IsFitPredicateRegistered r name : bool := bool_decide (is_Some (fitPredicateMap r !! name)).
Definition ListRegisteredFitPredicates r : list string := (range (fitPredicateMap r)).*1.

(** Exactly one argument. *)
Definition validatePredicateOrDie (predicate : PredicatePolicy) : comp unit :=
  match pp_Argument predicate with
  | None => Some tt
  | Some a => if (length (option_list (arg_ServiceAffinity a)) + length (option_list (arg_LabelsPresence a)) =? 1)%nat then Some tt else panic
  end.
Definition RegisterCustomFitPredicate r (policy : PredicatePolicy) : comp (Registry * string) :=
  _ ← validatePredicateOrDie policy;
  match pp_Argument policy with
  | Some a =>
      match arg_ServiceAffinity a, arg_LabelsPresence a with
      | Some labels, _ => RegisterFitPredicateFactory r (pp_Name policy) (FnServiceAffinity labels)
      | None, Some l => RegisterFitPredicateFactory r (pp_Name policy) (FnNodeLabel (lp_Labels l) (lp_Presence l))
      | None, None => panic
      end
  | None => match fitPredicateMap r !! pp_Name policy with Some _ => Some (r, pp_Name policy) | None => panic end
  end.

(** ** Metadata *)

Definition RegisterPriorityMetadataProducerFactory r (f : PluginFactoryArgs → PriorityMetadataProducer) : Registry :=
  MkRegistry (rg_sets r) (fitPredicateMap r) (mandatoryFitPredicates r) (priorityFunctionMap r) (algorithmProviderMap r) (Some f)
    (predicateMetadataProducer r) (predicateMetadataProducers r).
(** The one factory there is, NewPredicateMetadataFactory. *)
Definition RegisterPredicateMetadataProducerFactory r : Registry :=
  MkRegistry (rg_sets r) (fitPredicateMap r) (mandatoryFitPredicates r) (priorityFunctionMap r) (algorithmProviderMap r)
    (priorityMetadataProducer r) true (predicateMetadataProducers r).
(** predicates/metadata.go *)
Definition RegisterPredicateMetadataProducer r name (precomp : producer_fn) : Registry :=
  set_producers r (<[name := precomp]> (predicateMetadataProducers r)).
Definition RegisterPredicateMetadataProducerWithExtendedResourceOptions r (ignoredExtendedResources : gset string) : Registry :=
  RegisterPredicateMetadataProducer r "PredicateWithExtendedResourceOptions" (ExtendedResourceProducer ignoredExtendedResources).

Definition getPriorityMetadataProducer r (args : PluginFactoryArgs) : PriorityMetadataProducer :=
  match priorityMetadataProducer r with None => EmptyPriorityMetadataProducer | Some f => f args end.
(** Whether the metadata is computed; nil otherwise. *)
Definition getPredicateMetadataProducer r : bool := predicateMetadataProducer r.

(** ** Priorities *)

Definition RegisterPriorityConfigFactory r name (pcf : PriorityConfigFactory) : comp (Registry * string) :=
  _ ← validateAlgorithmNameOrDie name;
  Some (set_priorities r (<[name := pcf]> (priorityFunctionMap r)), name).
Definition RegisterPriorityFunction r name (function : PriorityFunction) (weight : Z) : comp (Registry * string) :=
  RegisterPriorityConfigFactory r name (MkPriorityConfigFactory (Some (λ _, function)) None weight).
Definition RegisterPriorityFunction2 r name (mapFunction : MapFunction) (reduceFunction : option ReduceFunction) (weight : Z) : comp (Registry * string) :=
  RegisterPriorityConfigFactory r name (MkPriorityConfigFactory None (Some (λ _, Some (mapFunction, reduceFunction))) weight).

Definition validatePriorityOrDie (priority : PriorityPolicy) : comp unit :=
  match prp_Argument priority with
  | None => Some tt
  | Some a => if (length (option_list (arg_ServiceAntiAffinity a)) + length (option_list (arg_LabelPreference a)) +
                  length (option_list (arg_RequestedToCapacityRatio a)) =? 1)%nat then Some tt else panic
  end.
Definition buildScoringFunctionShapeFromRequestedToCapacityRatioArguments (arguments : list UtilizationShapePoint) : comp FunctionShape :=
  match NewFunctionShape ((λ p, MkFunctionShapePoint (usp_Utilization p) (usp_Score p)) <$> arguments) with
  | inl _ => panic
  | inr shape => Some shape
  end.
(** The map and the reduce function of a configuration. *)
Definition functions_of (c : Config) : MapFunction * option ReduceFunction := (pc_Map c, pc_Reduce c).
Definition RegisterCustomPriorityFunction r (policy : PriorityPolicy) : comp (Registry * string) :=
  _ ← validatePriorityOrDie policy;
  pcf ←
    match prp_Argument policy with
    | Some a =>
        match arg_ServiceAntiAffinity a, arg_LabelPreference a, arg_RequestedToCapacityRatio a with
        | Some label, _, _ =>
            Some (MkPriorityConfigFactory None (Some (λ args, Some (functions_of (serviceAntiAffinity (MkServiceAntiAffinity (pa_listers args) label) 0)))) (prp_Weight policy))
        | None, Some l, _ =>
            Some (MkPriorityConfigFactory None (Some (λ _, Some (functions_of (nodeLabel (MkNodeLabelPrioritizer (lpr_Label l) (lpr_Presence l)) 0)))) (prp_Weight policy))
        | None, None, Some shape =>
            Some (MkPriorityConfigFactory None (Some (λ _,
              shape ← buildScoringFunctionShapeFromRequestedToCapacityRatioArguments shape;
              Some (functions_of (requestedToCapacityRatio shape 0)))) (prp_Weight policy))
        | None, None, None => panic
        end
    | None =>
        existingPcf ← priorityFunctionMap r !! prp_Name policy;
        Some (MkPriorityConfigFactory (pcf_Function existingPcf) (pcf_MapReduceFunction existingPcf) (prp_Weight policy))
    end;
  RegisterPriorityConfigFactory r (prp_Name policy) pcf.
Definition IsPriorityFunctionRegistered r name : bool := bool_decide (is_Some (priorityFunctionMap r !! name)).
Definition ListRegisteredPriorityFunctions r : list string := (range (priorityFunctionMap r)).*1.

(** ** Providers *)

Definition RegisterAlgorithmProvider r name (predicateKeys priorityKeys : nat) : comp (Registry * string) :=
  _ ← validateAlgorithmNameOrDie name;
  Some (set_providers r (<[name := MkAlgorithmProviderConfig predicateKeys priorityKeys]> (algorithmProviderMap r)), name).
Definition ListAlgorithmProviders r : list string := set_List (dom (algorithmProviderMap r)).

(** ** From names to functions *)

(** Calling the factory of a predicate: the service affinity registers what computes its metadata. *)
Definition make_predicate r name (f : predicate_fn) : Registry :=
  match f with
  | FnServiceAffinity labels => RegisterPredicateMetadataProducer r name (ServiceAffinityProducer labels)
  | _ => r
  end.
Fixpoint fit_predicates r (fitPredicates : gmap string predicate_fn) (names : list string) : Registry * (error + gmap string predicate_fn) :=
  match names with
  | [] => (r, inr fitPredicates)
  | name :: names =>
      match fitPredicateMap r !! name with
      | None => (r, inl ("invalid predicate name " +:+ name +:+ " specified - no corresponding function found")%string)
      | Some factory => fit_predicates (make_predicate r name factory) (<[name := factory]> fitPredicates) names
      end
  end.
Definition getFitPredicateFunctions r (names : gset string) : Registry * (error + gmap string predicate_fn) :=
  match fit_predicates r ∅ (set_List names) with
  | (r, inl err) => (r, inl err)
  | (r, inr fitPredicates) =>
      let '(r, fitPredicates) := foldl (λ '(r, m) name,
        match fitPredicateMap r !! name with
        | Some factory => (make_predicate r name factory, <[name := factory]> m)
        | None => (r, m)
        end) (r, fitPredicates) (elements (mandatoryFitPredicates r)) in
      (r, inr fitPredicates)
  end.

Definition make_config (args : PluginFactoryArgs) (factory : PriorityConfigFactory) : comp Config :=
  match pcf_Function factory with
  | Some function => Some (MkPriorityConfig _ no_map None (Some (function args)) (pcf_Weight factory))
  | None =>
      make ← pcf_MapReduceFunction factory;
      '(mapFunction, reduceFunction) ← make args;
      Some (MkPriorityConfig _ mapFunction reduceFunction None (pcf_Weight factory))
  end.
Fixpoint priority_configs r (args : PluginFactoryArgs) (names : list string) : comp (error + list Config) :=
  match names with
  | [] => Some (inr [])
  | name :: names =>
      match priorityFunctionMap r !! name with
      | None => Some (inl ("invalid priority name " +:+ name +:+ " specified - no corresponding function found")%string)
      | Some factory =>
          config ← make_config args factory;
          l ← priority_configs r args names;
          Some (match l with inl err => inl err | inr l => inr (config :: l) end)
      end
  end.
Definition getPriorityFunctionConfigs r (names : gset string) (args : PluginFactoryArgs) : comp (error + list Config) :=
  l ← priority_configs r args (set_List names);
  Some (match l with
        | inl err => inl err
        | inr configs => match validateSelectedConfigs configs with Some err => inl err | None => inr configs end
        end).
End plugins.
