(* ===== verification/ConfigFactory.v ===== *)
(** * Providers and the construction of a scheduler (src/pkg/scheduler/algorithmprovider/defaults, factory/factory.go, api/validation)

    What the packages register when the program starts, the changes that feature gates ask for, the validation of a policy, and how the
    keys of a provider or a policy become the functions of a scheduler.  Each operation takes and returns the registry.  Informers, clients
    and the other parts of a configuration that are handed on unchanged are left out. *)
From S2P Require Import Prelude Heap Api Util Resource HostPorts NodeTree NodeInfo PoolInfo Predicates Cache GenericScheduler Extender Metadata PredicateFuncs VolumePredicates Float64 Priorities Plugins.

(** kubernetes util/validation: what is wrong with a name *)
Class ValidationLib := { IsQualifiedName : string → list error }.

(** ** Policies (api/types.go) *)
Record Policy := MkPolicy {
  pol_Predicates : option (list PredicatePolicy);
  pol_Priorities : option (list PriorityPolicy);
  pol_ExtenderConfigs : list ExtenderConfig;
  pol_HardPodAffinitySymmetricWeight : Z;
  pol_AlwaysCheckAllPredicates : bool
}.
Definition MaxWeight : Z := Z.quot MaxInt64 MaxPriority.

Section factory.
Context `{K8sLib} `{MapRange} `{ErrorsLib} `{VolumeLib} `{PredicateLib} `{PriorityLib} `{FloatConversion} `{Workers} `{HTTPLib} `{ValidationLib}.
Abbreviation Config := (PriorityConfig (option priorityMetadata)).
Implicit Types (r : Registry).

(** ** Registration (register_predicates.go, register_priorities.go, defaults.go) *)

Definition register_all r (l : list (string * predicate_fn)) : comp Registry :=
  foldl (λ (x : comp Registry) e, r ← x; '(r, _) ← RegisterFitPredicate r e.1 e.2; Some r) (Some r) l.
Definition predicates_before : list (string * predicate_fn) :=
  [("PodFitsPorts", FnPodFitsHostPorts); ("PodFitsHostPorts", FnPodFitsHostPorts); ("PodFitsResources", FnPodFitsResources);
   ("HostName", FnPodFitsHost); ("MatchNodeSelector", FnPodMatchNodeSelector); ("NoVolumeZoneConflict", FnVolumeZone);
   ("MaxEBSVolumeCount", FnMaxPDVolumeCount EBSVolumeFilterType); ("MaxGCEPDVolumeCount", FnMaxPDVolumeCount GCEPDVolumeFilterType);
   ("MaxAzureDiskVolumeCount", FnMaxPDVolumeCount AzureDiskVolumeFilterType); ("MaxCSIVolumeCountPred", FnCSIMaxVolumeLimit);
   ("MaxCinderVolumeCount", FnMaxPDVolumeCount CinderVolumeFilterType); ("MatchInterPodAffinity", FnPodAffinity);
   ("NoDiskConflict", FnNoDiskConflict); ("GeneralPredicates", FnGeneralPredicates);
   ("CheckNodeMemoryPressure", FnCheckNodeMemoryPressure); ("CheckNodeDiskPressure", FnCheckNodeDiskPressure);
   ("CheckNodePIDPressure", FnCheckNodePIDPressure)]%string.
Definition predicates_after : list (string * predicate_fn) := [("PodToleratesNodeTaints", FnPodToleratesNodeTaints); ("CheckVolumeBinding", FnVolumeBinding)]%string.
Definition register_predicates_init r : comp Registry :=
  let r := RegisterPredicateMetadataProducerFactory r in
  r ← register_all r predicates_before;
  '(r, _) ← RegisterMandatoryFitPredicate r "CheckNodeCondition" FnCheckNodeCondition;
  register_all r predicates_after.

(** A factory of functions that do not depend on the arguments, and of the two that do. *)
Definition map_factory (c : Config) : PriorityConfigFactory := MkPriorityConfigFactory None (Some (λ _, Some (functions_of c))) (pc_Weight c).
Definition spread_factory (restrict : Listers → Listers) : PriorityConfigFactory :=
  MkPriorityConfigFactory None (Some (λ args, Some (functions_of (selectorSpread (restrict (pa_listers args)) 1)))) 1.
Definition interpod_of (args : PluginFactoryArgs) : InterPodAffinity :=
  MkInterPodAffinity (pa_NodeInfo args) (pa_HardPodAffinitySymmetricWeight args).
Definition interpod_factory : PriorityConfigFactory :=
  MkPriorityConfigFactory (Some (λ args pod infos nodes, Some (CalculateInterPodAffinityPriority (interpod_of args) pod infos nodes))) None 1.
(** The lister of services only: the others are empty. *)
Definition services_only (ls : Listers) : Listers := MkListers (GetPodServices ls) (λ _, inr []) (λ _, inr []) (λ _, inr []).
Definition init_priorities : list (string * PriorityConfigFactory) :=
  [("ServiceSpreadingPriority", spread_factory services_only); ("EqualPriority", map_factory (equalPriority 1));
   ("MostRequestedPriority", map_factory (mostRequested 1));
   ("RequestedToCapacityRatioPriority", map_factory (requestedToCapacityRatio defaultFunctionShape 1));
   ("SelectorSpreadPriority", spread_factory id); ("InterPodAffinityPriority", interpod_factory);
   ("LeastRequestedPriority", map_factory (leastRequested 1)); ("BalancedResourceAllocation", map_factory (balancedAllocation 1));
   ("NodePreferAvoidPodsPriority", map_factory (nodePreferAvoidPods 10000)); ("NodeAffinityPriority", map_factory (nodeAffinity 1));
   ("TaintTolerationPriority", map_factory (taintToleration 1)); ("ImageLocalityPriority", map_factory (imageLocality 1))]%string.
Definition register_priorities_init r : comp Registry :=
  let r := RegisterPriorityMetadataProducerFactory r (λ args, PriorityMetadata (pa_listers args)) in
  foldl (λ (x : comp Registry) e, r ← x; '(r, _) ← RegisterPriorityConfigFactory r e.1 e.2; Some r) (Some r) init_priorities.

Definition defaultPredicates : gset string := list_to_set
  ["NoVolumeZoneConflict"; "MaxEBSVolumeCount"; "MaxGCEPDVolumeCount"; "MaxAzureDiskVolumeCount"; "MaxCSIVolumeCountPred";
   "MatchInterPodAffinity"; "NoDiskConflict"; "GeneralPredicates"; "CheckNodeMemoryPressure"; "CheckNodeDiskPressure";
   "CheckNodePIDPressure"; "CheckNodeCondition"; "PodToleratesNodeTaints"; "CheckVolumeBinding"]%string.
Definition defaultPriorityKeys : gset string := list_to_set
  ["SelectorSpreadPriority"; "InterPodAffinityPriority"; "LeastRequestedPriority"; "BalancedResourceAllocation";
   "NodePreferAvoidPodsPriority"; "NodeAffinityPriority"; "TaintTolerationPriority"; "ImageLocalityPriority"]%string.
Definition copyAndReplace (set : gset string) (replaceWhat replaceWith : string) : gset string :=
  if bool_decide (replaceWhat ∈ set) then {[ replaceWith ]} ∪ (set ∖ {[ replaceWhat ]}) else set.
(** Both providers get the same set of predicates. *)
Definition registerAlgorithmProvider r (predSet priSet : nat) : comp Registry :=
  '(r, _) ← RegisterAlgorithmProvider r DefaultProvider predSet priSet;
  let '(r, copied) := new_set r (copyAndReplace (keys_at r priSet) "LeastRequestedPriority" "MostRequestedPriority") in
  '(r, _) ← RegisterAlgorithmProvider r ClusterAutoscalerProvider predSet copied;
  Some r.
Definition defaults_init r : comp Registry :=
  let '(r, predSet) := new_set r defaultPredicates in
  let '(r, priSet) := new_set r defaultPriorityKeys in
  registerAlgorithmProvider r predSet priSet.
(** The files of the package in the order of their names. *)
Definition program_init : comp Registry :=
  r ← defaults_init emptyRegistry;
  r ← register_predicates_init r;
  register_priorities_init r.

(** The two feature gates. *)
Definition ApplyFeatureGates (taintNodesByCondition resourceLimitsPriorityFunction : bool) r : comp Registry :=
  r ← (if taintNodesByCondition then
         r ← RemoveFitPredicate r "CheckNodeCondition";
         r ← RemoveFitPredicate r "CheckNodeMemoryPressure";
         r ← RemoveFitPredicate r "CheckNodeDiskPressure";
         r ← RemoveFitPredicate r "CheckNodePIDPressure";
         let r := RemovePredicateKeyFromAlgorithmProviderMap r "CheckNodeCondition" in
         let r := RemovePredicateKeyFromAlgorithmProviderMap r "CheckNodeMemoryPressure" in
         let r := RemovePredicateKeyFromAlgorithmProviderMap r "CheckNodeDiskPressure" in
         let r := RemovePredicateKeyFromAlgorithmProviderMap r "CheckNodePIDPressure" in
         '(r, _) ← RegisterMandatoryFitPredicate r "PodToleratesNodeTaints" FnPodToleratesNodeTaints;
         '(r, _) ← RegisterMandatoryFitPredicate r "CheckNodeUnschedulable" FnCheckNodeUnschedulable;
         let r := InsertPredicateKeyToAlgorithmProviderMap r "PodToleratesNodeTaints" in
         Some (InsertPredicateKeyToAlgorithmProviderMap r "CheckNodeUnschedulable")
       else Some r);
  if resourceLimitsPriorityFunction then
    '(r, _) ← RegisterPriorityConfigFactory r "ResourceLimitsPriority" (map_factory (resourceLimits 1));
    '(r, key) ← RegisterPriorityConfigFactory r "ResourceLimitsPriority" (map_factory (resourceLimits 1));
    Some (InsertPriorityKeyToAlgorithmProviderMap r key)
  else Some r.

(** ** Validation of a policy (api/validation/validation.go) *)

Definition validateExtendedResourceName (name : string) : list error :=
  match IsQualifiedName name with
  | [] => if IsExtendedResourceName name then [] else [(name +:+ " is an invalid extended resource name")%string]
  | errs => errs
  end.
Definition priority_errors (priority : PriorityPolicy) : list error :=
  if (prp_Weight priority <=? 0) || (MaxWeight <=? prp_Weight priority)
  then [("Priority " +:+ prp_Name priority +:+ " should have a positive weight applied to it or it has overflown")%string] else [].
(** The errors of the managed resources, and the names seen. *)
Fixpoint resource_errors (seen : gset string) (resources : list ExtenderManagedResource) : list error * gset string :=
  match resources with
  | [] => ([], seen)
  | resource :: resources =>
      let name := emr_Name resource in
      let duplicate := if bool_decide (name ∈ seen) then [("Duplicate extender managed resource name " +:+ name)%string] else [] in
      let '(errs, seen) := resource_errors ({[ name ]} ∪ seen) resources in
      (validateExtendedResourceName name ++ duplicate ++ errs, seen)
  end.
Fixpoint extender_errors (binders : nat) (seen : gset string) (extenders : list ExtenderConfig) : list error * nat :=
  match extenders with
  | [] => ([], binders)
  | extender :: extenders =>
      let weight := if negb (bool_decide (PrioritizeVerb extender = EmptyString)) && (ec_Weight extender <=? 0)
        then [("Priority for extender " +:+ URLPrefix extender +:+ " should have a positive weight applied to it")%string] else [] in
      let '(resources, seen) := resource_errors seen (ManagedResources extender) in
      let '(errs, binders) := extender_errors (if bool_decide (BindVerb extender = EmptyString) then binders else S binders) seen extenders in
      (weight ++ resources ++ errs, binders)
  end.
Definition ValidatePolicy (policy : Policy) : option error :=
  let '(extenders, binders) := extender_errors O ∅ (pol_ExtenderConfigs policy) in
  match (default [] (pol_Priorities policy) ≫= priority_errors) ++ extenders ++
        (if (1 <? binders)%nat then ["Only one extender can implement bind"%string] else []) with
  | [] => None
  | errs => Some (NewAggregate errs)
  end.

(** ** The configurator (factory.go) *)

Record configFactory := MkConfigFactory {
  cf_listers : Listers;
  cf_nodeInfo : string → (bool * error) + Node;
  cf_hardPodAffinitySymmetricWeight : Z;
  cf_alwaysCheckAllPredicates : bool
}.
Implicit Type c : configFactory.
(** The parts of the algorithm that are configured. *)
Record SchedulerConfig := MkSchedulerConfig {
  sc_predicates : gmap string predicate_fn;
  sc_hasPredicateMeta : bool;
  sc_prioritizers : list Config;
  sc_priorityMetaProducer : Pod → gmap string NodeInfo → option priorityMetadata;
  sc_extenders : list HTTPExtender;
  sc_alwaysCheckAllPredicates : bool
}.

Definition getPluginArgs c : PluginFactoryArgs := MkPluginFactoryArgs (cf_listers c) (cf_nodeInfo c) (cf_hardPodAffinitySymmetricWeight c).
Definition CreateFromKeys r c (predicateKeys priorityKeys : gset string) (extenders : list HTTPExtender) : comp (Registry * (error + SchedulerConfig)) :=
  if (cf_hardPodAffinitySymmetricWeight c <? 1) || (100 <? cf_hardPodAffinitySymmetricWeight c)
  then Some (r, inl "invalid hardPodAffinitySymmetricWeight: must be in the range 1-100"%string)
  else
    match getFitPredicateFunctions r predicateKeys with
    | (r, inl err) => Some (r, inl err)
    | (r, inr predicateFuncs) =>
        configs ← getPriorityFunctionConfigs r priorityKeys (getPluginArgs c);
        Some (r, match configs with
                 | inl err => inl err
                 | inr priorityConfigs =>
                     inr (MkSchedulerConfig predicateFuncs (getPredicateMetadataProducer r) priorityConfigs
                            (getPriorityMetadataProducer r (getPluginArgs c)) extenders (cf_alwaysCheckAllPredicates c))
                 end)
    end.
Definition CreateFromProvider r c (providerName : string) : comp (Registry * (error + SchedulerConfig)) :=
  match GetAlgorithmProvider r providerName with
  | inl err => Some (r, inl err)
  | inr provider => CreateFromKeys r c (keys_at r (FitPredicateKeys provider)) (keys_at r (PriorityFunctionKeys provider)) []
  end.
Definition Create r c : comp (Registry * (error + SchedulerConfig)) := CreateFromProvider r c DefaultProvider.

(** The keys that a policy asks for: those of the default provider, or what it registers. *)
Definition policy_predicates r (l : option (list PredicatePolicy)) : comp (Registry * (error + gset string)) :=
  match l with
  | None => Some (r, match GetAlgorithmProvider r DefaultProvider with inl err => inl err | inr p => inr (keys_at r (FitPredicateKeys p)) end)
  | Some l =>
      '(r, keys) ← foldl (λ (x : comp (Registry * gset string)) policy, '(r, keys) ← x; '(r, key) ← RegisterCustomFitPredicate r policy; Some (r, {[ key ]} ∪ keys)) (Some (r, ∅)) l;
      Some (r, inr keys)
  end.
Definition policy_priorities r (l : option (list PriorityPolicy)) : comp (Registry * (error + gset string)) :=
  match l with
  | None => Some (r, match GetAlgorithmProvider r DefaultProvider with inl err => inl err | inr p => inr (keys_at r (PriorityFunctionKeys p)) end)
  | Some l =>
      '(r, keys) ← foldl (λ (x : comp (Registry * gset string)) policy, '(r, keys) ← x; '(r, key) ← RegisterCustomPriorityFunction r policy; Some (r, {[ key ]} ∪ keys)) (Some (r, ∅)) l;
      Some (r, inr keys)
  end.
Fixpoint policy_extenders (l : list ExtenderConfig) : error + list HTTPExtender :=
  match l with
  | [] => inr []
  | config :: l =>
      match NewHTTPExtender config with
      | inl err => inl err
      | inr extender => match policy_extenders l with inl err => inl err | inr extenders => inr (extender :: extenders) end
      end
  end.
(** The extended resources that the scheduler is to ignore. *)
Definition ignored_resources (l : list ExtenderConfig) : gset string :=
  list_to_set (l ≫= λ config, emr_Name <$> filter (λ res, IgnoredByScheduler res = true) (ManagedResources config)).

Definition CreateFromConfig r c (policy : Policy) : comp (Registry * configFactory * (error + SchedulerConfig)) :=
  match ValidatePolicy policy with
  | Some err => Some (r, c, inl err)
  | None =>
      '(r, predicateKeys) ← policy_predicates r (pol_Predicates policy);
      match predicateKeys with
      | inl err => Some (r, c, inl err)
      | inr predicateKeys =>
          '(r, priorityKeys) ← policy_priorities r (pol_Priorities policy);
          match priorityKeys with
          | inl err => Some (r, c, inl err)
          | inr priorityKeys =>
              match policy_extenders (pol_ExtenderConfigs policy) with
              | inl err => Some (r, c, inl err)
              | inr extenders =>
                  let r := if bool_decide (length (pol_ExtenderConfigs policy) = O) then r
                           else RegisterPredicateMetadataProducerWithExtendedResourceOptions r (ignored_resources (pol_ExtenderConfigs policy)) in
                  let c := MkConfigFactory (cf_listers c) (cf_nodeInfo c)
                    (if pol_HardPodAffinitySymmetricWeight policy =? 0 then cf_hardPodAffinitySymmetricWeight c else pol_HardPodAffinitySymmetricWeight policy)
                    (pol_AlwaysCheckAllPredicates policy || cf_alwaysCheckAllPredicates c) in
                  '(r, config) ← CreateFromKeys r c predicateKeys priorityKeys extenders;
                  Some (r, c, config)
              end
          end
      end
  end.

(** ** Pods with a node (factory.go) *)

Definition assignedPodLister_List (List : Selector → error + list Pod) (selector : Selector) : error + list Pod :=
  match List selector with
  | inl err => inl err
  | inr l => inr (filter (λ pod, negb (bool_decide (pod_NodeName pod = EmptyString))) l)
  end.
Definition assignedPodNamespaceLister_List (List : Selector → error + list Pod) (selector : Selector) : error + list Pod :=
  match List selector with
  | inl err => inl err
  | inr l => inr (filter (λ pod, negb (bool_decide (pod_NodeName pod = EmptyString))) l)
  end.
Definition assignedPodNamespaceLister_Get (get : string → error + Pod) (NewNotFound : string → error) (name : string) : error + Pod :=
  match get name with
  | inl err => inl err
  | inr pod => if negb (bool_decide (pod_NodeName pod = EmptyString)) then inr pod else inl (NewNotFound name)
  end.
End factory.
