(* ===== verification/PluginProofs.v ===== *)
(** * The registry: every name that a scheduler is made of has a function

    The invariant of the registry, which the start of the program, the feature gates and every policy keep; from it, what a scheduler
    that is created from a provider or a policy consists of, and which errors a policy can give. *)
From S2P Require Import Prelude Heap Api Util Resource HostPorts NodeTree NodeInfo PoolInfo Predicates Cache GenericScheduler Extender Metadata PredicateFuncs VolumePredicates Float64 Priorities PriorityProofs AffinityScoreProofs PrioritizeProofs Plugins ConfigFactory.

Lemma set_List_elem s x : x ∈ set_List s ↔ x ∈ s.
Proof. unfold set_List. by rewrite merge_sort_Permutation, elem_of_elements. Qed.

Section registry.
Context {K8s : K8sLib} {Range : MapRange} {Errs : ErrorsLib} {Vol : VolumeLib} {Pred : PredicateLib} {Pri : PriorityLib} {Conv : FloatConversion} {Work : Workers} {Http : HTTPLib} {Val : ValidationLib}.
Abbreviation Config := (PriorityConfig (option priorityMetadata)).
Implicit Types (r : Registry) (f : PriorityConfigFactory).

(** ** The invariant *)

(** A factory makes a registered function with its weight, which is one that a validated policy can have. *)
Record factory_ok f : Prop := {
  fo_makes args config : make_config args f = Some config → builtin (interpod_of args) config ∧ pc_Weight config = pcf_Weight f;
  fo_weight : 0 <= pcf_Weight f ∧ pcf_Weight f * MaxPriority <= MaxInt64
}.
Definition known_keys {A} (m : gmap string A) (s : gset string) : Prop := ∀ key, key ∈ s → is_Some (m !! key).
(** Keys of predicates in [X] are on their way out: their function may be gone already. *)
Record provider_ok (X : gset string) r (p : AlgorithmProviderConfig) : Prop := {
  po_predicates : known_keys (fitPredicateMap r) (keys_at r (FitPredicateKeys p) ∖ X);
  po_priorities : known_keys (priorityFunctionMap r) (keys_at r (PriorityFunctionKeys p))
}.
(** The metadata of predicates and of priorities is computed by the functions of their packages. *)
Definition producers_ok r : Prop :=
  predicateMetadataProducer r = true ∧ priorityMetadataProducer r = Some (λ args, PriorityMetadata (pa_listers args)).
Record registry_ok_except (X : gset string) r : Prop := {
  ro_providers name p : algorithmProviderMap r !! name = Some p → provider_ok X r p;
  ro_apart name name' p p' : algorithmProviderMap r !! name = Some p → algorithmProviderMap r !! name' = Some p' → FitPredicateKeys p ≠ PriorityFunctionKeys p';
  ro_default : is_Some (algorithmProviderMap r !! DefaultProvider);
  ro_mandatory : known_keys (fitPredicateMap r) (mandatoryFitPredicates r);
  ro_factories name f : priorityFunctionMap r !! name = Some f → factory_ok f;
  ro_producers : producers_ok r
}.
Definition registry_ok r : Prop := registry_ok_except ∅ r.

(** ** Registering keeps it *)

Lemma known_insert {A} (m : gmap string A) k x s : known_keys m s → known_keys (<[k := x]> m) s.
Proof. intros Hm key Hk. destruct (Hm key Hk) as [y Hy]. destruct (decide (k = key)) as [->|]; [rewrite lookup_insert_eq|rewrite lookup_insert_ne by done]; eauto. Qed.
Lemma known_union {A} (m : gmap string A) k s : is_Some (m !! k) → known_keys m s → known_keys m ({[ k ]} ∪ s).
Proof. intros Hk Hm key [->%elem_of_singleton|?]%elem_of_union; [done|by apply Hm]. Qed.
Lemma known_subset {A} (m : gmap string A) s s' : s' ⊆ s → known_keys m s → known_keys m s'.
Proof. intros Hs Hm key Hk. by apply Hm, Hs. Qed.

(** One step of the registry that adds to its maps of functions. *)
Record extends r r' : Prop := {
  ex_sets : rg_sets r' = rg_sets r;
  ex_providers : algorithmProviderMap r' = algorithmProviderMap r;
  ex_producers : producers_ok r → producers_ok r';
  ex_predicates s : known_keys (fitPredicateMap r) s → known_keys (fitPredicateMap r') s;
  ex_priorities s : known_keys (priorityFunctionMap r) s → known_keys (priorityFunctionMap r') s
}.
#[local] Instance extends_preorder : PreOrder extends.
Proof. split; [by intros r|]. intros r1 r2 r3 [] []. split; [congruence|congruence|auto|auto|auto]. Qed.

Lemma extends_ok X r r' : registry_ok_except X r → extends r r' → known_keys (fitPredicateMap r') (mandatoryFitPredicates r') →
  (∀ name f, priorityFunctionMap r' !! name = Some f → factory_ok f) → registry_ok_except X r'.
Proof.
  intros [H1 H2 H3 H4 H5 H6] [E1 E2 E5 E3 E4] Hm Hf. split; [|by rewrite E2|by rewrite E2|done|done|auto].
  rewrite E2. intros name p Hp. destruct (H1 name p Hp) as [A B]. split; unfold keys_at; rewrite E1; auto.
Qed.
Lemma RegisterFitPredicate_ok X r name fn r' key : registry_ok_except X r → RegisterFitPredicateFactory r name fn = Some (r', key) →
  registry_ok_except X r' ∧ extends r r' ∧ key = name ∧ is_Some (fitPredicateMap r' !! name).
Proof.
  intros Hr. unfold RegisterFitPredicateFactory, validateAlgorithmNameOrDie. destruct (validName name); [|done]. cbn [mbind option_bind].
  intros E. injection E as <- <-. assert (extends r (set_predicates r (<[name := fn]> (fitPredicateMap r)) (mandatoryFitPredicates r))) as He by (split; [done|done|done|intros s; apply known_insert|done]).
  split_and!; [|done|done|cbn; rewrite lookup_insert_eq; eauto]. apply (extends_ok _ _ _ Hr He); [apply known_insert, Hr|apply Hr].
Qed.
Lemma RegisterMandatory_ok X r name fn r' key : registry_ok_except X r → RegisterMandatoryFitPredicate r name fn = Some (r', key) →
  registry_ok_except X r' ∧ extends r r' ∧ is_Some (fitPredicateMap r' !! name).
Proof.
  intros Hr. unfold RegisterMandatoryFitPredicate, validateAlgorithmNameOrDie. destruct (validName name); [|done]. cbn [mbind option_bind].
  intros E. injection E as <- _. assert (extends r (set_predicates r (<[name := fn]> (fitPredicateMap r)) ({[name]} ∪ mandatoryFitPredicates r))) as He by (split; [done|done|done|intros s; apply known_insert|done]).
  assert (is_Some (<[name := fn]> (fitPredicateMap r) !! name)) as Hn by (rewrite lookup_insert_eq; eauto).
  split_and!; [|done|done]. apply (extends_ok _ _ _ Hr He); [apply known_union, known_insert, Hr; done|apply Hr].
Qed.
Lemma RegisterPriority_ok X r name f r' key : registry_ok_except X r → factory_ok f → RegisterPriorityConfigFactory r name f = Some (r', key) →
  registry_ok_except X r' ∧ extends r r' ∧ key = name ∧ is_Some (priorityFunctionMap r' !! name).
Proof.
  intros Hr Hf. unfold RegisterPriorityConfigFactory, validateAlgorithmNameOrDie. destruct (validName name); [|done]. cbn [mbind option_bind].
  intros E. injection E as <- <-. assert (extends r (set_priorities r (<[name := f]> (priorityFunctionMap r)))) as He by (split; [done|done|done|done|intros s; apply known_insert]).
  split_and!; [|done|done|cbn; rewrite lookup_insert_eq; eauto]. apply (extends_ok _ _ _ Hr He); [apply Hr|].
  intros n g. cbn. rewrite lookup_insert_Some. intros [[_ <-]|[_ Hg]]; [done|by eapply Hr].
Qed.

(** ** Keys of providers *)

Lemma keys_at_change r ref ref' g : keys_at (change_set r ref g) ref' = if decide (ref = ref' ∧ (ref < length (rg_sets r))%nat) then g (keys_at r ref') else keys_at r ref'.
Proof.
  unfold keys_at, change_set. cbn [rg_sets set_sets]. destruct (decide (ref = ref')) as [->|Hne].
  - rewrite list_lookup_alter_eq. destruct (rg_sets r !! ref') as [s|] eqn:E.
    + rewrite decide_True by (split; [done|by eapply lookup_lt_Some]). done.
    + rewrite decide_False; [done|]. intros [_ Hlt]. apply lookup_ge_None in E. lia.
  - rewrite list_lookup_alter_ne by done. by rewrite decide_False by tauto.
Qed.
Lemma change_set_fields r ref g : let r' := change_set r ref g in
  fitPredicateMap r' = fitPredicateMap r ∧ priorityFunctionMap r' = priorityFunctionMap r ∧ algorithmProviderMap r' = algorithmProviderMap r ∧
  mandatoryFitPredicates r' = mandatoryFitPredicates r ∧ (producers_ok r → producers_ok r') ∧ length (rg_sets r') = length (rg_sets r).
Proof. split_and!; try done. cbn. apply length_alter. Qed.

(** The keys after all sets of the references were changed. *)
Lemma keys_at_changes (ref_of : AlgorithmProviderConfig → nat) (g : gset string → gset string) (l : list (string * AlgorithmProviderConfig)) : (∀ s, g (g s) = g s) → ∀ r ref,
  let r' := foldl (λ r e, change_set r (ref_of e.2) g) r l in
  keys_at r' ref = (if decide (ref ∈ (ref_of ∘ snd) <$> l ∧ (ref < length (rg_sets r))%nat) then g (keys_at r ref) else keys_at r ref) ∧
  fitPredicateMap r' = fitPredicateMap r ∧ priorityFunctionMap r' = priorityFunctionMap r ∧ algorithmProviderMap r' = algorithmProviderMap r ∧
  mandatoryFitPredicates r' = mandatoryFitPredicates r ∧ (producers_ok r → producers_ok r').
Proof.
  intros Hg. induction l as [|e l IH]; intros r ref; cbn zeta; [cbn [foldl]; split_and!; [|done..]; case_decide as Hin; [by destruct Hin as [?%not_elem_of_nil _]|done]|].
  cbn [foldl]. destruct (IH (change_set r (ref_of e.2) g) ref) as (E & -> & -> & -> & -> & Hp). destruct (change_set_fields r (ref_of e.2) g) as (-> & -> & -> & -> & Hp' & El).
  split_and!; try done; try (by intros ?%Hp'%Hp). rewrite E, El, keys_at_change. clear E IH El. change ((ref_of ∘ snd) <$> e :: l) with (ref_of e.2 :: ((ref_of ∘ snd) <$> l)).
  repeat case_decide; rewrite ?Hg; try done; repeat match goal with H : context [_ ∈ _ :: _] |- _ => rewrite elem_of_cons in H end; naive_solver.
Qed.

Section change_keys.
Variables (X : gset string) (r : Registry).
Hypothesis Hr : registry_ok_except X r.
Lemma keys_out_of_range ref : ¬ (ref < length (rg_sets r))%nat → keys_at r ref = ∅.
Proof. intros Hge. unfold keys_at. by rewrite lookup_ge_None_2 by lia. Qed.
Lemma ref_in (ref_of : AlgorithmProviderConfig → nat) name p : algorithmProviderMap r !! name = Some p → ref_of p ∈ (ref_of ∘ snd) <$> range (algorithmProviderMap r).
Proof. intros Hp. apply list_elem_of_fmap. exists (name, p). split; [done|]. by apply range_elem. Qed.
(** Changing the sets of predicates of all providers leaves those of priorities alone, and the other way round. *)
Lemma change_keys_providers (ref_of other : AlgorithmProviderConfig → nat) g :
  (∀ s, g (g s) = g s) → (∀ name name' p p', algorithmProviderMap r !! name = Some p → algorithmProviderMap r !! name' = Some p' → ref_of p ≠ other p') →
  let r' := foldl (λ r e, change_set r (ref_of e.2) g) r (range (algorithmProviderMap r)) in
  ∀ name p, algorithmProviderMap r !! name = Some p →
    (keys_at r' (ref_of p) = g (keys_at r (ref_of p)) ∨ keys_at r' (ref_of p) = ∅) ∧ keys_at r' (other p) = keys_at r (other p).
Proof.
  intros Hg Hne r' name p Hp. destruct (keys_at_changes ref_of g (range (algorithmProviderMap r)) Hg r (ref_of p)) as [E1 _].
  destruct (keys_at_changes ref_of g (range (algorithmProviderMap r)) Hg r (other p)) as [E2 _]. fold r' in E1, E2. rewrite E1, E2. clear E1 E2. split.
  - case_decide as Hd; [by left|]. right. apply keys_out_of_range. intros Hlt. apply Hd. split; [by apply (ref_in ref_of name)|done].
  - rewrite decide_False; [done|]. intros [((n & q) & Eq & Hq)%list_elem_of_fmap _]. apply range_elem in Hq. by apply (Hne n name q p).
Qed.

Lemma RemoveKeys_ok key : registry_ok_except (X ∖ {[ key ]}) (RemovePredicateKeyFromAlgorithmProviderMap r key).
Proof.
  unfold RemovePredicateKeyFromAlgorithmProviderMap. set (g := λ s : gset string, s ∖ {[ key ]}). assert (∀ s, g (g s) = g s) as Hg by (unfold g; set_solver).
  destruct (keys_at_changes FitPredicateKeys g (range (algorithmProviderMap r)) Hg r 0) as (_ & E1 & E2 & E3 & E4 & E5).
  pose proof (change_keys_providers FitPredicateKeys PriorityFunctionKeys g Hg (ro_apart X r Hr)) as Hk. cbn zeta in Hk.
  split; rewrite ?E1, ?E2, ?E3, ?E4; [|apply Hr..|apply E5, Hr]. intros name p Hp. destruct (Hk name p Hp) as [Ha Hb]. destruct (ro_providers X r Hr name p Hp) as [Hp1 Hp2].
  split; rewrite ?E1, ?E2; [|by rewrite Hb]. destruct Ha as [-> | ->]; [|intros k; set_solver]. eapply known_subset; [|exact Hp1]. unfold g. intros k. rewrite !elem_of_difference, !elem_of_singleton. tauto.
Qed.
Lemma InsertKeys_ok key : is_Some (fitPredicateMap r !! key) → registry_ok_except X (InsertPredicateKeyToAlgorithmProviderMap r key).
Proof.
  intros Hkey. unfold InsertPredicateKeyToAlgorithmProviderMap. set (g := λ s : gset string, {[ key ]} ∪ s). assert (∀ s, g (g s) = g s) as Hg by (unfold g; set_solver).
  destruct (keys_at_changes FitPredicateKeys g (range (algorithmProviderMap r)) Hg r 0) as (_ & E1 & E2 & E3 & E4 & E5).
  pose proof (change_keys_providers FitPredicateKeys PriorityFunctionKeys g Hg (ro_apart X r Hr)) as Hk. cbn zeta in Hk.
  split; rewrite ?E1, ?E2, ?E3, ?E4; [|apply Hr..|apply E5, Hr]. intros name p Hp. destruct (Hk name p Hp) as [Ha Hb]. destruct (ro_providers X r Hr name p Hp) as [Hp1 Hp2].
  split; rewrite ?E1, ?E2; [|by rewrite Hb]. destruct Ha as [-> | ->]; [|intros k; set_solver]. unfold g. eapply known_subset; [|by apply (known_union _ key _ Hkey Hp1)]. set_solver.
Qed.
Lemma InsertPriorityKeys_ok key : is_Some (priorityFunctionMap r !! key) → registry_ok_except X (InsertPriorityKeyToAlgorithmProviderMap r key).
Proof.
  intros Hkey. unfold InsertPriorityKeyToAlgorithmProviderMap. set (g := λ s : gset string, {[ key ]} ∪ s). assert (∀ s, g (g s) = g s) as Hg by (unfold g; set_solver).
  destruct (keys_at_changes PriorityFunctionKeys g (range (algorithmProviderMap r)) Hg r 0) as (_ & E1 & E2 & E3 & E4 & E5).
  pose proof (change_keys_providers PriorityFunctionKeys FitPredicateKeys g Hg ltac:(intros n n' q q' Hq Hq' E; by apply (ro_apart X r Hr n' n q' q))) as Hk. cbn zeta in Hk.
  split; rewrite ?E1, ?E2, ?E3, ?E4; [|apply Hr..|apply E5, Hr]. intros name p Hp. destruct (Hk name p Hp) as [Ha Hb]. destruct (ro_providers X r Hr name p Hp) as [Hp1 Hp2].
  split; rewrite ?E1, ?E2; [by rewrite Hb|]. destruct Ha as [-> | ->]; [by apply known_union|intros k; set_solver].
Qed.
Lemma RemoveFitPredicate_ok name r' : RemoveFitPredicate r name = Some r' → registry_ok_except ({[ name ]} ∪ X) r'.
Proof.
  unfold RemoveFitPredicate, validateAlgorithmNameOrDie. destruct (validName name); [|done]. cbn [mbind option_bind]. intros E. injection E as <-.
  destruct Hr as [H1 H2 H3 H4 H5 H6]. split; cbn; [|done|done| |done|done].
  - intros n p Hp. destruct (H1 n p Hp) as [A B]. split; [|exact B]. intros k Hk. cbn. rewrite elem_of_difference, elem_of_union, elem_of_singleton in Hk.
    rewrite lookup_delete_ne by naive_solver. apply A, elem_of_difference. split; [apply Hk|tauto].
  - intros k Hk. rewrite elem_of_difference, elem_of_singleton in Hk. rewrite lookup_delete_ne by naive_solver. apply H4, Hk.
Qed.
End change_keys.

(** ** Factories *)

Definition reweigh (c : Config) (w : Z) : Config := MkPriorityConfig _ (pc_Map c) (pc_Reduce c) (pc_Function c) w.
Lemma builtin_reweigh ipa c w : builtin ipa c → builtin ipa (reweigh c w).
Proof.
  intros [].
  - match goal with |- builtin _ (reweigh (selectorSpread ?ls _) _) => change (builtin ipa (selectorSpread ls w)); exact (builtin_spread ipa ls w) end.
  - exact (builtin_interpod ipa w).
  - exact (builtin_least ipa w).
  - exact (builtin_most ipa w).
  - by apply (builtin_ratio ipa points shape w).
  - change (builtin ipa (balancedAllocation w)). exact (builtin_balanced ipa w).
  - exact (builtin_avoid ipa w).
  - exact (builtin_affinity ipa w).
  - exact (builtin_taint ipa w).
  - exact (builtin_image ipa w).
  - exact (builtin_equal ipa w).
  - exact (builtin_limits ipa w).
  - apply (builtin_label ipa _ w).
  - apply (builtin_anti ipa _ w).
Qed.
Definition small_weight (w : Z) : Prop := 0 <= w ∧ w * MaxPriority <= MaxInt64.
Lemma factory_reweigh f w : factory_ok f → small_weight w → factory_ok (MkPriorityConfigFactory (pcf_Function f) (pcf_MapReduceFunction f) w).
Proof.
  intros [Hm _] Hw. split; [|exact Hw]. intros args config. specialize (Hm args). unfold make_config in *. cbn [pcf_Function pcf_MapReduceFunction pcf_Weight].
  destruct (pcf_Function f) as [fn|].
  - intros E. injection E as <-. split; [|done]. destruct (Hm _ eq_refl) as [Hb _]. apply (builtin_reweigh _ _ w) in Hb. exact Hb.
  - destruct (pcf_MapReduceFunction f) as [mk|]; [|done]. cbn [mbind option_bind] in *. destruct (mk args) as [[m red]|]; [|done]. cbn [mbind option_bind] in *.
    intros E. injection E as <-. split; [|done]. destruct (Hm _ eq_refl) as [Hb _]. apply (builtin_reweigh _ _ w) in Hb. exact Hb.
Qed.
(** A factory of map and reduce functions. *)
Lemma factory_maps (make : PluginFactoryArgs → comp Config) w : small_weight w →
  (∀ args c, make args = Some c → builtin (interpod_of args) c ∧ pc_Function c = None) →
  factory_ok (MkPriorityConfigFactory None (Some (λ args, c ← make args; Some (functions_of c))) w).
Proof.
  intros Hw Hb. split; [|exact Hw]. intros args config. unfold make_config. cbn [pcf_Function pcf_MapReduceFunction pcf_Weight mbind option_bind].
  destruct (make args) as [c|] eqn:E; [|done]. cbn [mbind option_bind functions_of]. intros E'. injection E' as <-. split; [|done].
  destruct (Hb args c E) as [Hc Hf]. apply (builtin_reweigh _ _ w) in Hc. unfold reweigh in Hc. by rewrite Hf in Hc.
Qed.
Lemma map_factory_ok c : small_weight (pc_Weight c) → pc_Function c = None → (∀ ipa, builtin ipa c) → factory_ok (map_factory c).
Proof. intros Hw Hf Hb. apply (factory_maps (λ _, Some c) (pc_Weight c) Hw). intros args c' E. injection E as <-. done. Qed.
Lemma spread_factory_ok restrict : factory_ok (spread_factory restrict).
Proof.
  apply (factory_maps (λ args, Some (selectorSpread (restrict (pa_listers args)) 1)) 1); [unfold small_weight; in_range|].
  intros args c E. injection E as <-. split; [constructor|done].
Qed.
Lemma interpod_factory_ok : factory_ok interpod_factory.
Proof.
  split; [|unfold interpod_factory; cbn [pcf_Weight]; in_range]. intros args config E. unfold interpod_factory, make_config in E. cbn [pcf_Function] in E.
  injection E as <-. split; [|done]. apply (builtin_interpod (interpod_of args) 1).
Qed.

Lemma RegisterCustomFitPredicate_ok X r policy r' key : registry_ok_except X r → RegisterCustomFitPredicate r policy = Some (r', key) →
  registry_ok_except X r' ∧ extends r r' ∧ key = pp_Name policy ∧ is_Some (fitPredicateMap r' !! key).
Proof.
  intros Hr. unfold RegisterCustomFitPredicate. destruct (validatePredicateOrDie policy); [|done]. cbn [mbind option_bind].
  destruct (pp_Argument policy) as [[[labels|] [l|]]|]; cbn [arg_ServiceAffinity arg_LabelsPresence]; try done;
    [intros E; destruct (RegisterFitPredicate_ok X r _ _ _ _ Hr E) as (? & ? & -> & ?); done..|].
  destruct (fitPredicateMap r !! pp_Name policy) eqn:E; [|done]. intros E'. injection E' as <- <-. split_and!; [done|reflexivity|done|by rewrite E].
Qed.
Lemma RegisterCustomPriority_ok X r policy r' key : registry_ok_except X r → small_weight (prp_Weight policy) → RegisterCustomPriorityFunction r policy = Some (r', key) →
  registry_ok_except X r' ∧ extends r r' ∧ key = prp_Name policy ∧ is_Some (priorityFunctionMap r' !! key).
Proof.
  intros Hr Hw. unfold RegisterCustomPriorityFunction. destruct (validatePriorityOrDie policy); [|done]. cbn [mbind option_bind].
  match goal with |- (?x ≫= _) = _ → _ => destruct x as [pcf|] eqn:E end; [|done]. cbn [mbind option_bind]. assert (factory_ok pcf) as Hf.
  { destruct (prp_Argument policy) as [[[label|] [l|] [shape|]]|]; cbn in E; try done;
      try (injection E as <-; apply (factory_maps (λ args, Some (serviceAntiAffinity (MkServiceAntiAffinity (pa_listers args) label) 0))); [done|];
           intros args c Ec; injection Ec as <-; split; [constructor|done]);
      try (injection E as <-; apply (factory_maps (λ _, Some (nodeLabel (MkNodeLabelPrioritizer (lpr_Label l) (lpr_Presence l)) 0))); [done|];
           intros args c Ec; injection Ec as <-; split; [constructor|done]).
    - injection E as <-. split; [|done]. intros args config. unfold make_config. cbn [pcf_Function pcf_MapReduceFunction pcf_Weight mbind option_bind].
      unfold buildScoringFunctionShapeFromRequestedToCapacityRatioArguments. destruct (NewFunctionShape _) as [err|sh] eqn:Es; [done|]. cbn [mbind option_bind].
      intros Ec. injection Ec as <-. split; [|done]. by eapply (builtin_ratio _ _ sh (prp_Weight policy)).
    - destruct (priorityFunctionMap r !! prp_Name policy) as [f|] eqn:Ef; [|done]. injection E as <-. apply factory_reweigh; [by eapply Hr|done]. }
  intros E'. destruct (RegisterPriority_ok X r _ _ _ _ Hr Hf E') as (? & ? & -> & ?). done.
Qed.

(** ** The start of the program *)

Definition add_all {A} (m : gmap string A) (l : list (string * A)) : gmap string A := foldl (λ m e, <[e.1 := e.2]> m) m l.
Lemma add_all_Forall {A} (P : A → Prop) (l : list (string * A)) : Forall (λ e, P e.2) l → ∀ m, (∀ k x, m !! k = Some x → P x) → ∀ k x, add_all m l !! k = Some x → P x.
Proof.
  induction 1 as [|e l He _ IH]; intros m Hm; [done|]. apply IH. intros k x. rewrite lookup_insert_Some. intros [[_ <-]|[_ Hx]]; [done|by eapply Hm].
Qed.
Lemma register_all_value r l : forallb validName l.*1 = true → register_all r l = Some (set_predicates r (add_all (fitPredicateMap r) l) (mandatoryFitPredicates r)).
Proof.
  unfold register_all. revert r. induction l as [|e l IH]; intros r; [by destruct r|]. intros [He Hl]%andb_true_iff. cbn [foldl mbind option_bind].
  unfold RegisterFitPredicate, RegisterFitPredicateFactory, validateAlgorithmNameOrDie. rewrite He. cbn [mbind option_bind]. by rewrite IH.
Qed.
Lemma register_factories_value r l : forallb validName l.*1 = true →
  foldl (λ (x : comp Registry) e, r ← x; '(r, _) ← RegisterPriorityConfigFactory r e.1 e.2; Some r) (Some r) l = Some (set_priorities r (add_all (priorityFunctionMap r) l)).
Proof.
  revert r. induction l as [|e l IH]; intros r; [by destruct r|]. intros [He Hl]%andb_true_iff. cbn [foldl mbind option_bind].
  unfold RegisterPriorityConfigFactory, validateAlgorithmNameOrDie. rewrite He. cbn [mbind option_bind]. by rewrite IH.
Qed.

Lemma known_computed {A} (m : gmap string A) s : forallb (λ k, match m !! k with Some _ => true | None => false end) (elements s) = true → known_keys m s.
Proof.
  intros Hs k Hk. rewrite forallb_forall in Hs. apply elem_of_elements, list_elem_of_In in Hk. specialize (Hs k Hk). destruct (m !! k) as [x|]; [by exists x|done].
Qed.
(** A factory of one of the functions, by the proof that it is one. *)
Ltac factory := apply map_factory_ok; [unfold small_weight; vm_compute; split; intros [=]|reflexivity|intros ipa].

(** What the three files register. *)
Definition init_predicates : gmap string predicate_fn := add_all (<["CheckNodeCondition"%string := FnCheckNodeCondition]> (add_all ∅ predicates_before)) predicates_after.
Record started r : Prop := {
  st_sets : rg_sets r = [defaultPredicates; defaultPriorityKeys; copyAndReplace defaultPriorityKeys "LeastRequestedPriority" "MostRequestedPriority"];
  st_predicates : fitPredicateMap r = init_predicates;
  st_mandatory : mandatoryFitPredicates r = {[ "CheckNodeCondition"%string ]};
  st_priorities : priorityFunctionMap r = add_all ∅ init_priorities;
  st_providers : algorithmProviderMap r = <[ClusterAutoscalerProvider := MkAlgorithmProviderConfig 0 2]> {[ DefaultProvider := MkAlgorithmProviderConfig 0 1 ]};
  st_producers : producers_ok r
}.
Lemma defaults_init_value : ∃ r, defaults_init emptyRegistry = Some r ∧
  algorithmProviderMap r = <[ClusterAutoscalerProvider := MkAlgorithmProviderConfig 0 2]> {[ DefaultProvider := MkAlgorithmProviderConfig 0 1 ]} ∧
  rg_sets r = [defaultPredicates; defaultPriorityKeys; copyAndReplace defaultPriorityKeys "LeastRequestedPriority" "MostRequestedPriority"] ∧
  fitPredicateMap r = ∅ ∧ mandatoryFitPredicates r = ∅ ∧ priorityFunctionMap r = ∅.
Proof. eexists. split; [reflexivity|]. split_and!; reflexivity. Qed.
Lemma register_predicates_value r : fitPredicateMap r = ∅ → mandatoryFitPredicates r = ∅ →
  register_predicates_init r = Some (set_predicates (RegisterPredicateMetadataProducerFactory r) init_predicates {[ "CheckNodeCondition"%string ]}).
Proof.
  intros Hp Hm. unfold register_predicates_init. rewrite register_all_value by (vm_compute; reflexivity).
  cbn [fitPredicateMap mandatoryFitPredicates RegisterPredicateMetadataProducerFactory mbind option_bind]. rewrite Hp, Hm.
  unfold RegisterMandatoryFitPredicate, validateAlgorithmNameOrDie. change (validName "CheckNodeCondition") with true. cbn [mbind option_bind].
  rewrite register_all_value by (vm_compute; reflexivity). cbn [fitPredicateMap mandatoryFitPredicates set_predicates]. by rewrite union_empty_r_L.
Qed.
Lemma register_priorities_value r : priorityFunctionMap r = ∅ →
  register_priorities_init r = Some (set_priorities (RegisterPriorityMetadataProducerFactory r (λ args, PriorityMetadata (pa_listers args))) (add_all ∅ init_priorities)).
Proof. intros Hr. unfold register_priorities_init. rewrite register_factories_value by (vm_compute; reflexivity). cbn [priorityFunctionMap RegisterPriorityMetadataProducerFactory]. by rewrite Hr. Qed.
Lemma three_steps {A} (x : comp A) (f g : A → comp A) a b c : x = Some a → f a = Some b → g b = Some c → (r ← x; r ← f r; g r) = Some c.
Proof. intros -> E ?. cbn. by rewrite E. Qed.
Lemma program_init_value : ∃ r, program_init = Some r ∧ started r.
Proof.
  destruct defaults_init_value as (r1 & E1 & Ep & Es & Ef & Em & Epf). pose proof (register_predicates_value r1 Ef Em) as E2.
  pose proof (register_priorities_value (set_predicates (RegisterPredicateMetadataProducerFactory r1) init_predicates {[ "CheckNodeCondition"%string ]}) Epf) as E3.
  eexists. split; [exact (three_steps _ _ _ _ _ _ E1 E2 E3)|]. split; [exact Es|reflexivity|reflexivity|reflexivity|exact Ep|by split].
Qed.

Lemma init_priorities_ok : Forall (λ e, factory_ok e.2) init_priorities.
Proof.
  apply Forall_cons; split; [cbn [snd]; apply spread_factory_ok|].
  apply Forall_cons; split; [cbn [snd]; factory; exact (builtin_equal ipa 1)|].
  apply Forall_cons; split; [cbn [snd]; factory; exact (builtin_most ipa 1)|].
  apply Forall_cons; split; [cbn [snd]; factory; apply (builtin_ratio ipa defaultFunctionShape); reflexivity|].
  apply Forall_cons; split; [cbn [snd]; apply spread_factory_ok|].
  apply Forall_cons; split; [cbn [snd]; apply interpod_factory_ok|].
  apply Forall_cons; split; [cbn [snd]; factory; exact (builtin_least ipa 1)|].
  apply Forall_cons; split; [cbn [snd]; factory; exact (builtin_balanced ipa 1)|].
  apply Forall_cons; split; [cbn [snd]; factory; exact (builtin_avoid ipa 10000)|].
  apply Forall_cons; split; [cbn [snd]; factory; exact (builtin_affinity ipa 1)|].
  apply Forall_cons; split; [cbn [snd]; factory; exact (builtin_taint ipa 1)|].
  apply Forall_cons; split; [cbn [snd]; factory; exact (builtin_image ipa 1)|].
  apply Forall_nil_2.
Qed.
Lemma copyAndReplace_subset s what with' : copyAndReplace s what with' ⊆ s ∪ {[ with' ]}.
Proof. unfold copyAndReplace. case_bool_decide; set_solver. Qed.
Lemma init_keys_known : known_keys init_predicates defaultPredicates ∧ known_keys init_predicates {[ "CheckNodeCondition"%string ]} ∧
  known_keys (add_all ∅ init_priorities) (defaultPriorityKeys ∪ {[ "MostRequestedPriority"%string ]}).
Proof. split_and!; apply known_computed; vm_compute; reflexivity. Qed.
(** Every name is valid, and every key of the providers has a function. *)
Lemma started_ok r : started r → registry_ok r.
Proof.
  intros [Es Ef Em Epf Ep Hp]. destruct init_keys_known as (H1 & H2 & H3). split; rewrite ?Ef, ?Em, ?Epf, ?Ep; [| |by eexists|exact H2| |exact Hp].
  - intros name p Hn. rewrite lookup_insert_Some, lookup_singleton_Some in Hn.
    split; unfold keys_at; rewrite ?Es, ?Ef, ?Epf; destruct Hn as [[_ <-]|[_ [_ <-]]]; cbn.
    + by rewrite difference_empty_L.
    + by rewrite difference_empty_L.
    + eapply known_subset; [|exact H3]. apply copyAndReplace_subset.
    + eapply known_subset; [|exact H3]. apply union_subseteq_l.
  - intros name name' p p'. rewrite !lookup_insert_Some, !lookup_singleton_Some. intros [[_ <-]|[_ [_ <-]]] [[_ <-]|[_ [_ <-]]]; discriminate.
  - apply add_all_Forall; [exact init_priorities_ok|intros k x [=]].
Qed.

(** ** Feature gates *)

Lemma registry_ok_weaken X Y r : X ⊆ Y → registry_ok_except X r → registry_ok_except Y r.
Proof.
  intros HX [H1 H2 H3 H4 H5 H6]. split; [|done..]. intros name p Hp. destruct (H1 name p Hp) as [A B]. split; [|done].
  eapply known_subset; [|exact A]. intros k. rewrite !elem_of_difference. intros [? Hk]. split; [done|]. intros Hx. by apply Hk, HX.
Qed.
Lemma limits_factory_ok : factory_ok (map_factory (resourceLimits 1)).
Proof. factory. exact (builtin_limits ipa 1). Qed.
(** A computation that returns, and what it returns. *)
Definition returns {A} (x : comp A) (Q : A → Prop) : Prop := ∃ a, x = Some a ∧ Q a.
Lemma returns_bind {A B} (x : comp A) (k : A → comp B) P Q : returns x P → (∀ a, P a → returns (k a) Q) → returns (x ≫= k) Q.
Proof. intros (a & -> & Ha) Hk. exact (Hk a Ha). Qed.
Lemma RemoveFitPredicate_returns X r name : registry_ok_except X r → validName name = true → returns (RemoveFitPredicate r name) (registry_ok_except ({[ name ]} ∪ X)).
Proof.
  intros Hr Hn. destruct (RemoveFitPredicate r name) as [r'|] eqn:E; [exists r'; split; [done|by eapply RemoveFitPredicate_ok]|].
  unfold RemoveFitPredicate, validateAlgorithmNameOrDie in E. by rewrite Hn in E.
Qed.
Lemma RegisterMandatory_returns X r name fn : registry_ok_except X r → validName name = true →
  returns (RegisterMandatoryFitPredicate r name fn) (λ x, registry_ok_except X x.1 ∧ extends r x.1 ∧ is_Some (fitPredicateMap x.1 !! name)).
Proof.
  intros Hr Hn. destruct (RegisterMandatoryFitPredicate r name fn) as [[r' key]|] eqn:E; [exists (r', key); split; [done|by eapply RegisterMandatory_ok]|].
  unfold RegisterMandatoryFitPredicate, validateAlgorithmNameOrDie in E. by rewrite Hn in E.
Qed.
Lemma RegisterPriority_returns X r name f : registry_ok_except X r → factory_ok f → validName name = true →
  returns (RegisterPriorityConfigFactory r name f) (λ x, registry_ok_except X x.1 ∧ extends r x.1 ∧ x.2 = name ∧ is_Some (priorityFunctionMap x.1 !! name)).
Proof.
  intros Hr Hf Hn. destruct (RegisterPriorityConfigFactory r name f) as [[r' key]|] eqn:E; [exists (r', key); split; [done|by eapply RegisterPriority_ok]|].
  unfold RegisterPriorityConfigFactory, validateAlgorithmNameOrDie in E. by rewrite Hn in E.
Qed.
(** What providers lose and gain does not change the functions. *)
Lemma InsertKeys_functions r key : fitPredicateMap (InsertPredicateKeyToAlgorithmProviderMap r key) = fitPredicateMap r.
Proof. by destruct (keys_at_changes FitPredicateKeys (λ s, {[ key ]} ∪ s) (range (algorithmProviderMap r)) ltac:(set_solver) r 0) as (_ & ? & _). Qed.

(** The predicates that the gate replaces leave the providers too, so no key is left without a function. *)
Lemma ApplyFeatureGates_ok a b r : registry_ok r → returns (ApplyFeatureGates a b r) registry_ok.
Proof.
  intros Hr. unfold ApplyFeatureGates. apply (returns_bind _ _ registry_ok).
  - destruct a; [|by exists r].
    eapply returns_bind; [by apply RemoveFitPredicate_returns|]. intros r1 H1. eapply returns_bind; [by apply RemoveFitPredicate_returns|]. intros r2 H2.
    eapply returns_bind; [by apply RemoveFitPredicate_returns|]. intros r3 H3. eapply returns_bind; [by apply RemoveFitPredicate_returns|]. intros r4 H4.
    eapply returns_bind; [apply RegisterMandatory_returns; [apply RemoveKeys_ok, RemoveKeys_ok, RemoveKeys_ok, RemoveKeys_ok, H4|done]|].
    intros [r5 key5] (H5 & _ & Hk5). eapply returns_bind; [by apply RegisterMandatory_returns|]. intros [r6 key6] (H6 & He6 & Hk6). cbn [fst] in *.
    eexists. split; [reflexivity|]. apply (registry_ok_weaken _ ∅) in H6; [|set_solver]. apply InsertKeys_ok; [apply InsertKeys_ok; [done|]|by rewrite InsertKeys_functions].
    apply (ex_predicates _ _ He6 {["PodToleratesNodeTaints"]}); set_solver.
  - intros r1 H1. destruct b; [|by exists r1]. eapply returns_bind; [by apply RegisterPriority_returns; [|apply limits_factory_ok|]|]. intros [r2 key2] (H2 & _).
    eapply returns_bind; [by apply RegisterPriority_returns; [|apply limits_factory_ok|]|]. intros [r3 key3] (H3 & _ & Ek & Hk). cbn [fst snd] in *.
    eexists. split; [reflexivity|]. rewrite Ek. by apply InsertPriorityKeys_ok.
Qed.

(** ** Policies *)

(** The registrations of a policy, one after the other: each adds its key, and earlier keys stay known. *)
Definition register_each {P} (register : Registry → P → comp (Registry * string)) (x : comp (Registry * gset string)) (l : list P) : comp (Registry * gset string) :=
  foldl (λ (x : comp (Registry * gset string)) policy, '(r, keys) ← x; '(r, key) ← register r policy; Some (r, {[ key ]} ∪ keys)) x l.
Lemma register_each_None {P} (register : Registry → P → comp (Registry * string)) l : register_each register None l = None.
Proof. by induction l. Qed.
Lemma register_each_ok {P} (register : Registry → P → comp (Registry * string)) (valid : P → Prop) (known : Registry → gset string → Prop) name_of :
  (∀ r p r' key, registry_ok r → valid p → register r p = Some (r', key) → registry_ok r' ∧ extends r r' ∧ key = name_of p ∧ known r' {[ key ]}) →
  (∀ r s s', known r s → known r s' → known r (s ∪ s')) → (∀ r r' s, extends r r' → known r s → known r' s) →
  ∀ l r keys r' keys', registry_ok r → Forall valid l → known r keys → register_each register (Some (r, keys)) l = Some (r', keys') →
  registry_ok r' ∧ extends r r' ∧ known r' keys' ∧ keys' = list_to_set (name_of <$> l) ∪ keys.
Proof.
  intros Hreg Hunion Hext l. induction l as [|p l IH]; intros r keys r' keys' Hr Hl Hk E.
  { injection E as <- <-. split_and!; [done|reflexivity|done|]. cbn. by rewrite union_empty_l_L. }
  apply Forall_cons in Hl as [Hp Hl]. unfold register_each in E. cbn [foldl mbind option_bind] in E. fold (register_each register) in E. destruct (register r p) as [[r1 key]|] eqn:E1; cbn [mbind option_bind] in E.
  2: { exfalso. pose proof (register_each_None register l) as En. unfold register_each in En. by rewrite En in E. }
  destruct (Hreg r p r1 key Hr Hp E1) as (Hr1 & He1 & Ek & Hk1). destruct (IH r1 ({[ key ]} ∪ keys) r' keys' Hr1 Hl) as (Hr' & He & Hk' & ->); [by apply Hunion, (Hext r)|exact E|].
  split_and!; [done|by transitivity r1|done|]. cbn. rewrite Ek. set_solver.
Qed.
Lemma known_keys_union {A} (m : gmap string A) s s' : known_keys m s → known_keys m s' → known_keys m (s ∪ s').
Proof. intros H1 H2 k [?|?]%elem_of_union; auto. Qed.
Lemma known_singleton {A} (m : gmap string A) k : is_Some (m !! k) → known_keys m {[ k ]}.
Proof. intros Hk k' ->%elem_of_singleton. done. Qed.

(** The keys that are used: those of the default provider, or the names of the policy. *)
Definition names_or {P} (name_of : P → string) (fallback : gset string) (l : option (list P)) : gset string :=
  match l with None => fallback | Some l => list_to_set (name_of <$> l) end.
Lemma default_provider_ok r : registry_ok r → ∃ p, GetAlgorithmProvider r DefaultProvider = inr p ∧ algorithmProviderMap r !! DefaultProvider = Some p ∧
  known_keys (fitPredicateMap r) (keys_at r (FitPredicateKeys p)) ∧ known_keys (priorityFunctionMap r) (keys_at r (PriorityFunctionKeys p)).
Proof.
  intros Hr. destruct (ro_default _ _ Hr) as [p Hp]. exists p. unfold GetAlgorithmProvider. rewrite Hp. destruct (ro_providers _ _ Hr _ _ Hp) as [A B].
  rewrite difference_empty_L in A. done.
Qed.
Definition default_keys r (ref_of : AlgorithmProviderConfig → nat) : gset string :=
  match algorithmProviderMap r !! DefaultProvider with Some p => keys_at r (ref_of p) | None => ∅ end.
Lemma policy_predicates_ok r l r' x : registry_ok r → policy_predicates r l = Some (r', x) →
  registry_ok r' ∧ extends r r' ∧ x = inr (names_or pp_Name (default_keys r FitPredicateKeys) l) ∧
  known_keys (fitPredicateMap r') (names_or pp_Name (default_keys r FitPredicateKeys) l).
Proof.
  intros Hr. unfold policy_predicates, names_or, default_keys. destruct l as [l|].
  - fold (register_each RegisterCustomFitPredicate (Some (r, ∅)) l). destruct (register_each _ _ _) as [[r1 keys]|] eqn:E; [|done]. cbn [mbind option_bind]. intros E'. injection E' as <- <-.
    destruct (register_each_ok RegisterCustomFitPredicate (λ _, True) (λ r, known_keys (fitPredicateMap r)) pp_Name) with l r (∅ : gset string) r1 keys as (H1 & H2 & H3 & H4);
      [|intros; by apply known_keys_union|intros ? ? ? He; apply He|done|by apply Forall_true|intros k Hk; set_solver|exact E|].
    + intros r0 p r2 key H0 _ E0. destruct (RegisterCustomFitPredicate_ok _ _ _ _ _ H0 E0) as (? & ? & ? & ?). split_and!; [done..|by apply known_singleton].
    + rewrite union_empty_r_L in H4. by rewrite <- H4.
  - destruct (default_provider_ok r Hr) as (p & -> & -> & Hp & _). intros E. injection E as <- <-. split_and!; [done|reflexivity|done|done].
Qed.
Lemma policy_priorities_ok r l r' x : registry_ok r → Forall (λ p, small_weight (prp_Weight p)) (default [] l) → policy_priorities r l = Some (r', x) →
  registry_ok r' ∧ extends r r' ∧ x = inr (names_or prp_Name (default_keys r PriorityFunctionKeys) l) ∧
  known_keys (priorityFunctionMap r') (names_or prp_Name (default_keys r PriorityFunctionKeys) l).
Proof.
  intros Hr Hw. unfold policy_priorities, names_or, default_keys. destruct l as [l|].
  - fold (register_each RegisterCustomPriorityFunction (Some (r, ∅)) l). destruct (register_each _ _ _) as [[r1 keys]|] eqn:E; [|done]. cbn [mbind option_bind]. intros E'. injection E' as <- <-.
    destruct (register_each_ok RegisterCustomPriorityFunction (λ p, small_weight (prp_Weight p)) (λ r, known_keys (priorityFunctionMap r)) prp_Name) with l r (∅ : gset string) r1 keys as (H1 & H2 & H3 & H4);
      [|intros; by apply known_keys_union|intros ? ? ? He; apply He|done|done|intros k Hk; set_solver|exact E|].
    + intros r0 p r2 key H0 Hp E0. destruct (RegisterCustomPriority_ok _ _ _ _ _ H0 Hp E0) as (? & ? & ? & ?). split_and!; [done..|by apply known_singleton].
    + rewrite union_empty_r_L in H4. by rewrite <- H4.
  - destruct (default_provider_ok r Hr) as (p & -> & -> & _ & Hp). intros E. injection E as <- <-. split_and!; [done|reflexivity|done|done].
Qed.
Lemma ValidatePolicy_weights policy : ValidatePolicy policy = None → Forall (λ p, 0 < prp_Weight p < MaxWeight) (default [] (pol_Priorities policy)).
Proof.
  unfold ValidatePolicy. destruct (extender_errors O ∅ (pol_ExtenderConfigs policy)) as [errs binders].
  destruct (default [] (pol_Priorities policy) ≫= priority_errors) as [|] eqn:E; [|done]. intros _. induction (default [] (pol_Priorities policy)) as [|p l IH]; [apply Forall_nil_2|].
  rewrite bind_cons in E. apply app_eq_nil in E as [Ep El]. apply Forall_cons. split; [|by apply IH]. unfold priority_errors in Ep.
  destruct (_ || _) eqn:Ew; [done|]. lia.
Qed.
Lemma small_below w : 0 < w < MaxWeight → small_weight w.
Proof. change MaxWeight with 922337203685477580. unfold small_weight. change MaxPriority with 10. change MaxInt64 with 9223372036854775807. lia. Qed.

(** ** From keys to functions *)

(** Making the functions only adds to the producers of metadata. *)
Definition same_functions r r' : Prop := rg_sets r' = rg_sets r ∧ fitPredicateMap r' = fitPredicateMap r ∧ mandatoryFitPredicates r' = mandatoryFitPredicates r ∧
  priorityFunctionMap r' = priorityFunctionMap r ∧ algorithmProviderMap r' = algorithmProviderMap r ∧ priorityMetadataProducer r' = priorityMetadataProducer r ∧ predicateMetadataProducer r' = predicateMetadataProducer r.
Lemma same_functions_refl r : same_functions r r.
Proof. by repeat split. Qed.
Lemma same_functions_trans r1 r2 r3 : same_functions r1 r2 → same_functions r2 r3 → same_functions r1 r3.
Proof. intros (? & ? & ? & ? & ? & ? & ?) (? & ? & ? & ? & ? & ? & ?). unfold same_functions. split_and!; congruence. Qed.
Lemma same_functions_ok X r r' : same_functions r r' → registry_ok_except X r → registry_ok_except X r'.
Proof.
  intros (E1 & E2 & E3 & E4 & E5 & E6 & E7) [H1 H2 H3 H4 H5 H6]. split; rewrite ?E2, ?E3, ?E4, ?E5; [|done..|unfold producers_ok; by rewrite E6, E7].
  intros name p Hp. destruct (H1 name p Hp) as [A B]. split; unfold keys_at; rewrite ?E1, ?E2, ?E4; done.
Qed.
Lemma make_predicate_same r name (fn : predicate_fn) : same_functions r (make_predicate r name fn).
Proof. by destruct fn. Qed.
(** The functions of the map under the names. *)
Definition restricted {A} (m : gmap string A) (s : gset string) : gmap string A := filter (λ e, e.1 ∈ s) m.
Lemma restricted_lookup {A} (m : gmap string A) s k : restricted m s !! k = if decide (k ∈ s) then m !! k else None.
Proof.
  unfold restricted. case_decide as Hk; [|apply map_lookup_filter_None_2; right; intros x _; done].
  destruct (m !! k) as [x|] eqn:E; [by apply map_lookup_filter_Some_2|apply map_lookup_filter_None_2; by left].
Qed.
Lemma restricted_insert {A} (m : gmap string A) s k x : m !! k = Some x → <[k := x]> (restricted m s) = restricted m ({[ k ]} ∪ s).
Proof.
  intros Hx. apply map_eq. intros k'. rewrite restricted_lookup. destruct (decide (k = k')) as [->|Hne].
  - rewrite lookup_insert_eq, decide_True by set_solver. done.
  - rewrite lookup_insert_ne, restricted_lookup by done. repeat case_decide; set_solver.
Qed.

Lemma fit_predicates_ok names : ∀ r s, Forall (λ name, is_Some (fitPredicateMap r !! name)) names → ∃ r',
  fit_predicates r (restricted (fitPredicateMap r) s) names = (r', inr (restricted (fitPredicateMap r) (list_to_set names ∪ s))) ∧ same_functions r r'.
Proof.
  induction names as [|name names IH]; intros r s Hn; [exists r; split; [|apply same_functions_refl]; cbn; by rewrite union_empty_l_L|].
  apply Forall_cons in Hn as [[f Hf] Hn]. cbn [fit_predicates]. rewrite Hf, (restricted_insert _ _ _ _ Hf). pose proof (make_predicate_same r name f) as Hs.
  assert (fitPredicateMap (make_predicate r name f) = fitPredicateMap r) as E by apply Hs. destruct (IH (make_predicate r name f) ({[ name ]} ∪ s)) as (r' & E' & Hs'); [by rewrite E|].
  rewrite E in E'. exists r'. rewrite E'. split; [|by eapply same_functions_trans]. do 3 f_equal. set_solver.
Qed.
Definition add_mandatory := (λ '(r, m) name,
  match fitPredicateMap r !! name with
  | Some factory => (make_predicate r name factory, <[name := factory]> m)
  | None => (r, m)
  end) : Registry * gmap string predicate_fn → string → Registry * gmap string predicate_fn.
Lemma add_mandatory_ok names : ∀ r s, Forall (λ name, is_Some (fitPredicateMap r !! name)) names → ∃ r',
  foldl add_mandatory (r, restricted (fitPredicateMap r) s) names = (r', restricted (fitPredicateMap r) (list_to_set names ∪ s)) ∧ same_functions r r'.
Proof.
  induction names as [|name names IH]; intros r s Hn; [exists r; split; [|apply same_functions_refl]; cbn; by rewrite union_empty_l_L|].
  apply Forall_cons in Hn as [[f Hf] Hn]. cbn [foldl]. unfold add_mandatory at 2. rewrite Hf, (restricted_insert _ _ _ _ Hf). pose proof (make_predicate_same r name f) as Hs.
  assert (fitPredicateMap (make_predicate r name f) = fitPredicateMap r) as E by apply Hs. destruct (IH (make_predicate r name f) ({[ name ]} ∪ s)) as (r' & E' & Hs'); [by rewrite E|].
  rewrite E in E'. exists r'. rewrite E'. split; [|by eapply same_functions_trans]. do 2 f_equal. set_solver.
Qed.
(** The predicates of known keys, and the mandatory ones whatever the keys are. *)
Lemma getFitPredicateFunctions_ok r names : registry_ok r → known_keys (fitPredicateMap r) names → ∃ r',
  getFitPredicateFunctions r names = (r', inr (restricted (fitPredicateMap r) (names ∪ mandatoryFitPredicates r))) ∧ same_functions r r'.
Proof.
  intros Hr Hn. unfold getFitPredicateFunctions. destruct (fit_predicates_ok (set_List names) r ∅) as (r1 & E1 & H1).
  { apply Forall_forall. intros k Hk. by apply Hn, set_List_elem. }
  assert (restricted (fitPredicateMap r) ∅ = ∅) as E0 by (apply map_eq; intros k; rewrite restricted_lookup, decide_False by set_solver; done). rewrite E0 in E1. rewrite E1.
  destruct (add_mandatory_ok (elements (mandatoryFitPredicates r1)) r1 (list_to_set (set_List names) ∪ ∅)) as (r2 & E2 & H2).
  { destruct H1 as (_ & -> & -> & _). apply Forall_forall. intros k Hk. apply (ro_mandatory _ _ Hr). by apply elem_of_elements. }
  destruct H1 as (E3 & E4 & E5 & E6). rewrite E4 in E2. fold add_mandatory. rewrite E2. exists r2. split; [|by eapply same_functions_trans]. do 2 f_equal. f_equal. rewrite E5.
  rewrite list_to_set_elements_L, union_empty_r_L, union_comm_L. f_equal. apply set_eq. intros k. by rewrite elem_of_list_to_set, set_List_elem.
Qed.
Lemma priority_configs_ok r args names x : registry_ok r → Forall (λ name, is_Some (priorityFunctionMap r !! name)) names → priority_configs r args names = Some x →
  ∃ configs, x = inr configs ∧ length configs = length names ∧ Forall (builtin (interpod_of args)) configs ∧ Forall weight_ok configs.
Proof.
  intros Hr. revert x. induction names as [|name names IH]; intros x Hn; cbn [priority_configs].
  { intros E. injection E as <-. exists []. split_and!; [done|done|apply Forall_nil_2|apply Forall_nil_2]. }
  apply Forall_cons in Hn as [[f Hf] Hn]. rewrite Hf. destruct (make_config args f) as [config|] eqn:Ec; [|done]. cbn [mbind option_bind].
  destruct (priority_configs r args names) as [y|] eqn:Ey; [|done]. cbn [mbind option_bind]. intros E. injection E as <-.
  destruct (IH y Hn eq_refl) as (configs & -> & El & Hb & Hw). destruct (ro_factories _ _ Hr _ _ Hf) as [Hmk Hwf]. destruct (Hmk _ _ Ec) as [Hbc Ewc].
  exists (config :: configs). split_and!; [done|cbn; by rewrite El|by apply Forall_cons|apply Forall_cons; split; [|done]]. unfold weight_ok. by rewrite Ewc.
Qed.

(** The configuration after a policy. *)
Definition configured (c : configFactory) (policy : Policy) : configFactory := MkConfigFactory (cf_listers c) (cf_nodeInfo c)
  (if pol_HardPodAffinitySymmetricWeight policy =? 0 then cf_hardPodAffinitySymmetricWeight c else pol_HardPodAffinitySymmetricWeight policy)
  (pol_AlwaysCheckAllPredicates policy || cf_alwaysCheckAllPredicates c).
(** What a scheduler is made of. *)
Record created r (c : configFactory) (predicateKeys priorityKeys : gset string) (extenders : list HTTPExtender) (sc : SchedulerConfig) : Prop := {
  cr_predicates : sc_predicates sc = restricted (fitPredicateMap r) (predicateKeys ∪ mandatoryFitPredicates r);
  cr_known : known_keys (sc_predicates sc) (predicateKeys ∪ mandatoryFitPredicates r);
  cr_metadata : sc_hasPredicateMeta sc = true ∧ sc_priorityMetaProducer sc = PriorityMetadata (cf_listers c);
  cr_builtin : Forall (builtin (interpod_of (getPluginArgs c))) (sc_prioritizers sc) ∧ Forall weight_ok (sc_prioritizers sc);
  cr_valid : validateSelectedConfigs (sc_prioritizers sc) = None;
  cr_length : length (sc_prioritizers sc) = size priorityKeys;
  cr_hard : 1 <= cf_hardPodAffinitySymmetricWeight c <= 100;
  cr_extenders : sc_extenders sc = extenders;
  cr_always : sc_alwaysCheckAllPredicates sc = cf_alwaysCheckAllPredicates c
}.
(** The two errors of the construction from known keys. *)
Inductive create_error r (c : configFactory) (priorityKeys : gset string) : error → Prop :=
| hard_weight_error : ¬ 1 <= cf_hardPodAffinitySymmetricWeight c <= 100 →
    create_error r c priorityKeys "invalid hardPodAffinitySymmetricWeight: must be in the range 1-100"
| overflow_error (configs : list Config) : priority_configs r (getPluginArgs c) (set_List priorityKeys) = Some (inr configs) → MaxInt64 < total_weight configs * MaxPriority →
    create_error r c priorityKeys "total priority of priority functions has overflown".

Lemma priority_configs_same r r' args names : priorityFunctionMap r' = priorityFunctionMap r → priority_configs r' args names = priority_configs r args names.
Proof. intros E. induction names as [|name names IH]; [done|]. cbn [priority_configs]. rewrite E. destruct (priorityFunctionMap r !! name); [|done]. by rewrite IH. Qed.
Lemma create_error_same r r' c keys err : priorityFunctionMap r' = priorityFunctionMap r → create_error r c keys err → create_error r' c keys err.
Proof. intros E [H|configs Ec H]; [by apply hard_weight_error|]. apply (overflow_error r' c keys configs); [|done]. by rewrite (priority_configs_same r r'). Qed.
Lemma validate_weights_error configs err : ∀ t, validate_weights t configs = Some err → err = "total priority of priority functions has overflown"%string.
Proof. induction configs as [|c cs IH]; intros t; cbn [validate_weights]; [done|]. destruct (_ <? _); [by intros [=]|apply IH]. Qed.
Lemma CreateFromKeys_ok r c predicateKeys priorityKeys extenders r' x : registry_ok r → known_keys (fitPredicateMap r) predicateKeys → known_keys (priorityFunctionMap r) priorityKeys →
  CreateFromKeys r c predicateKeys priorityKeys extenders = Some (r', x) →
  same_functions r r' ∧ match x with inl err => create_error r c priorityKeys err | inr sc => created r c predicateKeys priorityKeys extenders sc end.
Proof.
  intros Hr Hp Hq. unfold CreateFromKeys. destruct (_ || _) eqn:Eh.
  { intros E. injection E as <- <-. split; [apply same_functions_refl|]. apply hard_weight_error. lia. }
  destruct (getFitPredicateFunctions_ok r predicateKeys Hr Hp) as (r1 & -> & Hs). destruct (getPriorityFunctionConfigs r1 priorityKeys (getPluginArgs c)) as [y|] eqn:Ey; [|done].
  cbn [mbind option_bind]. intros E. injection E as <- <-. split; [done|]. unfold getPriorityFunctionConfigs in Ey.
  destruct (priority_configs r1 _ _) as [z|] eqn:Ez; [|done]. cbn [mbind option_bind] in Ey. injection Ey as <-.
  destruct (priority_configs_ok r1 (getPluginArgs c) (set_List priorityKeys) z) as (configs & -> & El & Hb & Hw); [by eapply same_functions_ok| |exact Ez|].
  { apply Forall_forall. intros k Hk. destruct Hs as (_ & _ & _ & -> & _). by apply Hq, set_List_elem. }
  assert (length configs = size priorityKeys) as El' by (rewrite El; unfold set_List; by rewrite merge_sort_Permutation).
  destruct (validateSelectedConfigs configs) as [err|] eqn:Ev.
  - unfold validateSelectedConfigs in Ev. rewrite (validate_weights_error _ _ _ Ev). apply (overflow_error r c priorityKeys configs).
    { destruct Hs as (_ & _ & _ & E4 & _). by rewrite <- (priority_configs_same r r1). }
    destruct (decide (0 + total_weight configs * MaxPriority <= MaxInt64)) as [Hle|Hgt]; [|lia]. apply validate_weights_spec in Hle; [by rewrite Ev in Hle|in_range|done].
  - destruct Hs as (E1 & E2 & E3 & E4 & E5 & E6 & E7). destruct (ro_producers _ _ Hr) as [P1 P2]. split; cbn; [done| |split|done|done|done|lia|done|done].
    + intros k Hk. rewrite restricted_lookup, decide_True by done. apply (known_keys_union _ _ _ Hp (ro_mandatory _ _ Hr) k Hk).
    + unfold getPredicateMetadataProducer. by rewrite E7.
    + unfold getPriorityMetadataProducer. by rewrite E6, P2.
Qed.

(** The errors of a policy. *)
Inductive policy_error r (c' : configFactory) (policy : Policy) (priorityKeys : gset string) : error → Prop :=
| invalid_policy err : ValidatePolicy policy = Some err → policy_error r c' policy priorityKeys err
| extender_error err : ValidatePolicy policy = None → policy_extenders (pol_ExtenderConfigs policy) = inl err → policy_error r c' policy priorityKeys err
| creation_error err : ValidatePolicy policy = None → create_error r c' priorityKeys err → policy_error r c' policy priorityKeys err.
(** The names in the policy, or the keys of the default provider. *)
Definition predicate_keys r (policy : Policy) : gset string := names_or pp_Name (default_keys r FitPredicateKeys) (pol_Predicates policy).
Definition priority_keys r (policy : Policy) : gset string := names_or prp_Name (default_keys r PriorityFunctionKeys) (pol_Priorities policy).
Lemma default_keys_same r r' ref_of : rg_sets r' = rg_sets r → algorithmProviderMap r' = algorithmProviderMap r → default_keys r' ref_of = default_keys r ref_of.
Proof. intros E1 E2. unfold default_keys, keys_at. by rewrite E1, E2. Qed.

Lemma CreateFromConfig_ok r c policy r' c' x : registry_ok r → CreateFromConfig r c policy = Some (r', c', x) → registry_ok r' ∧
  match x with
  | inl err => policy_error r' c' policy (priority_keys r policy) err
  | inr sc => c' = configured c policy ∧ ∃ extenders, policy_extenders (pol_ExtenderConfigs policy) = inr extenders ∧
      created r' c' (predicate_keys r policy) (priority_keys r policy) extenders sc
  end.
Proof.
  intros Hr. unfold CreateFromConfig. destruct (ValidatePolicy policy) as [err|] eqn:Ev; [intros E; injection E as <- <- <-; split; [done|by apply invalid_policy]|].
  pose proof (Forall_impl _ _ _ (ValidatePolicy_weights _ Ev) (λ p, small_below (prp_Weight p))) as Hw.
  destruct (policy_predicates r (pol_Predicates policy)) as [[r1 keys]|] eqn:E1; [|done]. cbn [mbind option_bind].
  destruct (policy_predicates_ok r _ r1 keys Hr E1) as (Hr1 & He1 & -> & Hk1). fold (predicate_keys r policy) in *.
  destruct (policy_priorities r1 (pol_Priorities policy)) as [[r2 keys]|] eqn:E2; [|done]. cbn [mbind option_bind].
  destruct (policy_priorities_ok r1 _ r2 keys Hr1 Hw E2) as (Hr2 & He2 & -> & Hk2).
  rewrite (default_keys_same r r1 _ (ex_sets _ _ He1) (ex_providers _ _ He1)) in *. fold (priority_keys r policy) in *.
  destruct (policy_extenders _) as [err|extenders] eqn:Ee; [intros E; injection E as <- <- <-; split; [done|by apply extender_error]|].
  set (r3 := if bool_decide _ then r2 else _). assert (same_functions r2 r3) as Hs3 by (unfold r3; destruct (bool_decide _); [apply same_functions_refl|by repeat split]).
  set (c1 := MkConfigFactory _ _ _ _). destruct (CreateFromKeys r3 c1 _ _ extenders) as [[r4 y]|] eqn:E4; [|done]. cbn [mbind option_bind]. intros E. injection E as <- <- <-.
  pose proof (same_functions_ok _ _ _ Hs3 Hr2) as Hr3. destruct (CreateFromKeys_ok r3 c1 (predicate_keys r policy) (priority_keys r policy) extenders r4 y Hr3) as [Hs4 Hy]; [| |exact E4|].
  - destruct Hs3 as (_ & -> & _). by apply He2.
  - by destruct Hs3 as (_ & _ & _ & -> & _).
  - split; [by eapply same_functions_ok|]. destruct y as [err|sc]; [apply creation_error; [done|]; apply (create_error_same r3); [apply Hs4|done]|]. split; [done|]. exists extenders. split; [done|].
    destruct Hs4 as (_ & E5 & E6 & _). destruct Hy. split; rewrite ?E5, ?E6; done.
Qed.
Lemma CreateFromProvider_ok r c name r' x : registry_ok r → CreateFromProvider r c name = Some (r', x) → registry_ok r' ∧
  match x with
  | inl err => GetAlgorithmProvider r name = inl err ∨ ∃ p, GetAlgorithmProvider r name = inr p ∧ create_error r c (keys_at r (PriorityFunctionKeys p)) err
  | inr sc => ∃ p, GetAlgorithmProvider r name = inr p ∧ created r' c (keys_at r (FitPredicateKeys p)) (keys_at r (PriorityFunctionKeys p)) [] sc
  end.
Proof.
  intros Hr. unfold CreateFromProvider, GetAlgorithmProvider. destruct (algorithmProviderMap r !! name) as [p|] eqn:Ep; [|intros E; injection E as <- <-; split; [done|by left]].
  destruct (ro_providers _ _ Hr _ _ Ep) as [Hp Hq]. rewrite difference_empty_L in Hp. intros E. destruct (CreateFromKeys_ok _ _ _ _ _ _ _ Hr Hp Hq E) as [Hs Hx].
  split; [by eapply same_functions_ok|]. destruct x as [err|sc]; [by right; exists p|]. exists p. split; [done|].
  destruct Hs as (_ & E5 & E6 & _). destruct Hx. split; rewrite ?E5, ?E6; done.
Qed.

(** ** The registry in a running program *)

(** The states of the registry: the start of the program, then feature gates and schedulers that are created, with or without success. *)
Inductive reaches : Registry → Prop :=
| reaches_start r : program_init = Some r → reaches r
| reaches_gates a b r r' : reaches r → ApplyFeatureGates a b r = Some r' → reaches r'
| reaches_provider r c name r' x : reaches r → CreateFromProvider r c name = Some (r', x) → reaches r'
| reaches_config r c policy r' c' x : reaches r → CreateFromConfig r c policy = Some (r', c', x) → reaches r'.
Lemma reaches_ok r : reaches r → registry_ok r.
Proof.
  induction 1 as [r E|a b r r' _ IH E|r c name r' x _ IH E|r c policy r' c' x _ IH E].
  - destruct program_init_value as (r0 & E0 & H0). rewrite E in E0. injection E0 as ->. by apply started_ok.
  - destruct (ApplyFeatureGates_ok a b r IH) as (r0 & E0 & H0). rewrite E in E0. by injection E0 as ->.
  - apply (CreateFromProvider_ok r c name r' x IH E).
  - apply (CreateFromConfig_ok r c policy r' c' x IH E).
Qed.
(** Scores are given with the functions and the metadata of a scheduler, whatever the extenders say. *)
Lemma prioritize_any_extenders pod infos meta (configs : list Config) nodes extenders res : PrioritizeNodes pod infos meta configs nodes [] = Some res → configs ≠ [] →
  ∃ res', PrioritizeNodes pod infos meta configs nodes extenders = Some res'.
Proof.
  intros E Hne. unfold PrioritizeNodes in *. rewrite bool_decide_false in E |- * by (by destruct configs). cbn [andb] in *.
  destruct (mapM _ configs) as [results|]; [|done]. cbn [mbind option_bind] in *. destruct (negb _); [by eexists|].
  destruct (sum_scores _ _ _) as [l|]; [|done]. cbn [mbind option_bind]. by eexists.
Qed.

Lemma created_total r c pkeys qkeys extenders sc pod infos nodes exts : created r c pkeys qkeys extenders sc →
  cluster_ok pod infos nodes → affinity_ok (interpod_of (getPluginArgs c)) pod infos nodes →
  ∃ res, PrioritizeNodes pod infos (sc_priorityMetaProducer sc pod infos) (sc_prioritizers sc) nodes exts = Some res.
Proof.
  intros Hc Hok Haff. destruct (decide (sc_prioritizers sc = [])) as [->|Hne].
  - unfold PrioritizeNodes. cbn [length mapM mbind option_bind]. destruct (_ && _); [by eexists|]. cbn. rewrite bool_decide_true by done. cbn.
    destruct (sum_scores_exact [] nodes O (Forall_nil_2 _)) as (l & E & _); [vm_compute; intros [=]|]. change (zip [] []) with (@nil (HostPriorityList * Z)) in E. rewrite E. by eexists.
  - destruct (cr_builtin _ _ _ _ _ _ Hc) as [Hb Hw]. destruct (prioritize_total (cf_listers c) (interpod_of (getPluginArgs c)) pod infos nodes Hok Haff
      (sc_priorityMetaProducer sc pod infos)) with (sc_prioritizers sc) as (res & E & _); [|exact Hb|exact Hne|exact Hw|apply Hc|].
    + right. by destruct (cr_metadata _ _ _ _ _ _ Hc) as [_ ->].
    + by eapply prioritize_any_extenders.
Qed.

(** C19: the registry never loses a function that it needs.  In every state that a program reaches by starting, applying feature gates and creating schedulers
    (also when creating one fails), each key of a predicate or a priority in an algorithm provider and each mandatory predicate has a registered function, the default
    provider exists, the sets of predicates and of priorities of the providers are apart, and every priority factory makes one of the functions of the program
    with its weight, which [ValidatePolicy] accepts. *)
Theorem registry_invariant r : reaches r → registry_ok r.
Proof. apply reaches_ok. Qed.


(** C29: why a policy is refused.  If [CreateFromConfig] returns an error, then the validation of the policy found it, or an extender has no transport, or the hard affinity
    weight is out of range, or the weights of the priorities overflow; never because a name has no function, since such names end the process when they are registered. *)
Theorem policy_errors r c policy r' c' err : reaches r → CreateFromConfig r c policy = Some (r', c', inl err) →
  policy_error r' c' policy (priority_keys r policy) err ∧ reaches r'.
Proof. intros Hr E. split; [by destruct (CreateFromConfig_ok r c policy r' c' (inl err) (reaches_ok r Hr) E)|by eapply reaches_config]. Qed.
End registry.
