(* ===== verification/ProviderProofs.v ===== *)
(** * The default provider: what the scheduler runs

    The exact predicates and priorities of the default provider under each setting of the feature gates, and that policies in good form do
    not end the process. *)
From S2P Require Import Prelude Heap Api Util Resource HostPorts NodeTree NodeInfo PoolInfo Predicates Cache GenericScheduler Extender Metadata PredicateFuncs VolumePredicates Float64 Priorities PriorityProofs AffinityScoreProofs PrioritizeProofs Plugins ConfigFactory PluginProofs.

Section providers.
Context {K8s : K8sLib} {Range : MapRange} {Errs : ErrorsLib} {Vol : VolumeLib} {Pred : PredicateLib} {Pri : PriorityLib} {Conv : FloatConversion} {Work : Workers} {Http : HTTPLib} {Val : ValidationLib}.
Abbreviation Config := (PriorityConfig (option priorityMetadata)).
Implicit Types (r : Registry).

(** ** Changes of both providers, in whatever order they come *)

Definition two_providers : gmap string AlgorithmProviderConfig :=
  <[ClusterAutoscalerProvider := MkAlgorithmProviderConfig 0 2]> {[ DefaultProvider := MkAlgorithmProviderConfig 0 1 ]}.
Lemma range_two : range two_providers = [(DefaultProvider, MkAlgorithmProviderConfig 0 1); (ClusterAutoscalerProvider, MkAlgorithmProviderConfig 0 2)] ∨
  range two_providers = [(ClusterAutoscalerProvider, MkAlgorithmProviderConfig 0 2); (DefaultProvider, MkAlgorithmProviderConfig 0 1)].
Proof.
  assert (range two_providers ≡ₚ [(DefaultProvider, MkAlgorithmProviderConfig 0 1); (ClusterAutoscalerProvider, MkAlgorithmProviderConfig 0 2)]) as Hp.
  { rewrite range_perm. unfold two_providers. rewrite map_to_list_insert by reflexivity. rewrite map_to_list_singleton. apply perm_swap. }
  symmetry in Hp. apply Permutation_length_2_inv in Hp. tauto.
Qed.
Lemma change_twice r ref g : (∀ s, g (g s) = g s) → change_set (change_set r ref g) ref g = change_set r ref g.
Proof.
  intros Hg. unfold change_set. cbn [rg_sets set_sets]. f_equal. apply list_eq. intros i. destruct (decide (ref = i)) as [->|Hne]; [|by rewrite !list_lookup_alter_ne].
  rewrite !list_lookup_alter_eq. destruct (rg_sets r !! i) as [s|]; [|done]. cbn. by rewrite Hg.
Qed.
Lemma change_commute r ref ref' g : ref ≠ ref' → change_set (change_set r ref g) ref' g = change_set (change_set r ref' g) ref g.
Proof.
  intros Hne. unfold change_set. cbn [rg_sets set_sets]. f_equal. apply list_eq. intros i.
  destruct (decide (ref = i)) as [->|H1]; [by rewrite list_lookup_alter_ne, !list_lookup_alter_eq, list_lookup_alter_ne by done|].
  destruct (decide (ref' = i)) as [->|H2]; [by rewrite list_lookup_alter_eq, list_lookup_alter_ne, list_lookup_alter_ne, list_lookup_alter_eq by done|by rewrite !list_lookup_alter_ne].
Qed.
Lemma change_predicates r g : algorithmProviderMap r = two_providers → (∀ s, g (g s) = g s) →
  foldl (λ r e, change_set r (FitPredicateKeys e.2) g) r (range (algorithmProviderMap r)) = change_set r 0 g.
Proof. intros -> Hg. destruct range_two as [-> | ->]; by apply change_twice. Qed.
Lemma change_priorities r g : algorithmProviderMap r = two_providers →
  foldl (λ r e, change_set r (PriorityFunctionKeys e.2) g) r (range (algorithmProviderMap r)) = change_set (change_set r 1 g) 2 g.
Proof. intros ->. destruct range_two as [-> | ->]; [done|]. by apply change_commute. Qed.


(** ** The registry after the gates *)

(** What a registry with the two providers holds. *)
Record holds m (mandatory : gset string) (sets : list (gset string)) pf r : Prop := {
  ho_predicates : fitPredicateMap r = m;
  ho_mandatory : mandatoryFitPredicates r = mandatory;
  ho_sets : rg_sets r = sets;
  ho_priorities : priorityFunctionMap r = pf;
  ho_providers : algorithmProviderMap r = two_providers;
  ho_producers : producers_ok r
}.
Lemma holds_started r : started r →
  holds init_predicates {[ "CheckNodeCondition"%string ]} [defaultPredicates; defaultPriorityKeys; copyAndReplace defaultPriorityKeys "LeastRequestedPriority" "MostRequestedPriority"]
    (add_all ∅ init_priorities) r.
Proof. intros []. by split. Qed.
Section steps.
Context {m : gmap string predicate_fn} {mandatory : gset string} {k0 k1 k2 : gset string} {pf : gmap string PriorityConfigFactory} {r : Registry}.
Hypothesis Hr : holds m mandatory [k0; k1; k2] pf r.
Lemma holds_remove name : validName name = true → returns (RemoveFitPredicate r name) (holds (delete name m) (mandatory ∖ {[ name ]}) [k0; k1; k2] pf).
Proof. intros Hn. unfold RemoveFitPredicate, validateAlgorithmNameOrDie. rewrite Hn. eexists. split; [reflexivity|]. destruct Hr. split; cbn; by subst. Qed.
Lemma holds_mandatory name fn : validName name = true →
  returns (RegisterMandatoryFitPredicate r name fn) (λ x, holds (<[name := fn]> m) ({[ name ]} ∪ mandatory) [k0; k1; k2] pf x.1).
Proof. intros Hn. unfold RegisterMandatoryFitPredicate, validateAlgorithmNameOrDie. rewrite Hn. eexists. split; [reflexivity|]. destruct Hr. split; cbn; by subst. Qed.
Lemma holds_priority name f : validName name = true → returns (RegisterPriorityConfigFactory r name f) (λ x, holds m mandatory [k0; k1; k2] (<[name := f]> pf) x.1 ∧ x.2 = name).
Proof. intros Hn. unfold RegisterPriorityConfigFactory, validateAlgorithmNameOrDie. rewrite Hn. eexists. split; [reflexivity|]. split; [|done]. destruct Hr. split; cbn; by subst. Qed.
Lemma holds_remove_keys key : holds m mandatory [k0 ∖ {[ key ]}; k1; k2] pf (RemovePredicateKeyFromAlgorithmProviderMap r key).
Proof.
  unfold RemovePredicateKeyFromAlgorithmProviderMap. rewrite change_predicates by (apply Hr || set_solver). destruct Hr. split; cbn; try done. by rewrite ho_sets0.
Qed.
Lemma holds_insert_keys key : holds m mandatory [{[ key ]} ∪ k0; k1; k2] pf (InsertPredicateKeyToAlgorithmProviderMap r key).
Proof.
  unfold InsertPredicateKeyToAlgorithmProviderMap. rewrite change_predicates by (apply Hr || set_solver). destruct Hr. split; cbn; try done. by rewrite ho_sets0.
Qed.
Lemma holds_insert_priorities key : holds m mandatory [k0; {[ key ]} ∪ k1; {[ key ]} ∪ k2] pf (InsertPriorityKeyToAlgorithmProviderMap r key).
Proof.
  unfold InsertPriorityKeyToAlgorithmProviderMap. rewrite change_priorities by apply Hr. destruct Hr. split; cbn; try done. by rewrite ho_sets0.
Qed.
End steps.

(** The functions and the keys under each setting of the gates. *)
Definition gated_predicates (a : bool) : gmap string predicate_fn := (if a then
    <["CheckNodeUnschedulable" := FnCheckNodeUnschedulable]> (<["PodToleratesNodeTaints" := FnPodToleratesNodeTaints]>
      (delete "CheckNodePIDPressure" (delete "CheckNodeDiskPressure" (delete "CheckNodeMemoryPressure" (delete "CheckNodeCondition" init_predicates)))))
  else init_predicates)%string.
Definition gated_mandatory (a : bool) : gset string := (if a then
    {[ "CheckNodeUnschedulable" ]} ∪ ({[ "PodToleratesNodeTaints" ]} ∪ ({[ "CheckNodeCondition" ]} ∖ {[ "CheckNodeCondition" ]} ∖ {[ "CheckNodeMemoryPressure" ]} ∖ {[ "CheckNodeDiskPressure" ]} ∖ {[ "CheckNodePIDPressure" ]}))
  else {[ "CheckNodeCondition" ]})%string.
Definition gated_keys (a : bool) : gset string := (if a then
    {[ "CheckNodeUnschedulable" ]} ∪ ({[ "PodToleratesNodeTaints" ]} ∪
      (defaultPredicates ∖ {[ "CheckNodeCondition" ]} ∖ {[ "CheckNodeMemoryPressure" ]} ∖ {[ "CheckNodeDiskPressure" ]} ∖ {[ "CheckNodePIDPressure" ]}))
  else defaultPredicates)%string.
Definition gated_priorities (b : bool) : gmap string PriorityConfigFactory :=
  if b then <["ResourceLimitsPriority"%string := map_factory (resourceLimits 1)]> (<["ResourceLimitsPriority"%string := map_factory (resourceLimits 1)]> (add_all ∅ init_priorities))
  else add_all ∅ init_priorities.
Definition gated_priority_keys (b : bool) (s : gset string) : gset string := if b then {[ "ResourceLimitsPriority"%string ]} ∪ s else s.

Lemma gates_value a b r : started r → returns (ApplyFeatureGates a b r) (holds (gated_predicates a) (gated_mandatory a)
  [gated_keys a; gated_priority_keys b defaultPriorityKeys; gated_priority_keys b (copyAndReplace defaultPriorityKeys "LeastRequestedPriority" "MostRequestedPriority")] (gated_priorities b)).
Proof.
  intros Hr%holds_started. unfold ApplyFeatureGates. eapply returns_bind.
  - instantiate (1 := holds (gated_predicates a) (gated_mandatory a) [gated_keys a; defaultPriorityKeys; copyAndReplace defaultPriorityKeys "LeastRequestedPriority" "MostRequestedPriority"] (add_all ∅ init_priorities)).
    destruct a; [|by exists r].
    eapply returns_bind; [by apply (holds_remove Hr)|]. clear Hr. clear r. intros r Hr. eapply returns_bind; [by apply (holds_remove Hr)|]. clear Hr. clear r. intros r Hr.
    eapply returns_bind; [by apply (holds_remove Hr)|]. clear Hr. clear r. intros r Hr. eapply returns_bind; [by apply (holds_remove Hr)|]. clear Hr. clear r. intros r Hr.
    eapply returns_bind; [apply (holds_mandatory (holds_remove_keys (holds_remove_keys (holds_remove_keys (holds_remove_keys Hr _) _) _) _)); done|]. clear Hr. clear r. intros [r key] Hr.
    eapply returns_bind; [by apply (holds_mandatory Hr)|]. clear Hr. clear r. intros [r key'] Hr.
    eexists. split; [reflexivity|]. exact (holds_insert_keys (holds_insert_keys Hr _) _).
  - clear Hr. clear r. intros r Hr. destruct b; [|by exists r]. eapply returns_bind; [by apply (holds_priority Hr)|]. clear Hr. clear r. intros [r key] [Hr _].
    eapply returns_bind; [by apply (holds_priority Hr)|]. clear Hr. clear r. intros [r key'] [Hr E]. cbn [fst snd] in *. rewrite E.
    eexists. split; [reflexivity|]. exact (holds_insert_priorities Hr _).
Qed.

(** ** The functions of the default provider *)

Lemma make_map_factory args (config : Config) : pc_Function config = None → make_config args (map_factory config) = Some config.
Proof. destruct config as [m red fn w]. cbn. intros ->. reflexivity. Qed.
Lemma make_spread args restrict : make_config args (spread_factory restrict) = Some (selectorSpread (restrict (pa_listers args)) 1).
Proof. reflexivity. Qed.
Lemma make_interpod args : make_config args interpod_factory = Some (interPodAffinity (interpod_of args) 1).
Proof. reflexivity. Qed.
Lemma priority_configs_value r args names (configs : list Config) :
  Forall2 (λ name config, ∃ f, priorityFunctionMap r !! name = Some f ∧ make_config args f = Some config) names configs → priority_configs r args names = Some (inr configs).
Proof.
  induction 1 as [|name config names configs (f & Ef & Em) _ IH]; [done|]. cbn [priority_configs]. rewrite Ef, Em. cbn [mbind option_bind]. rewrite IH. done.
Qed.
(** The priorities in the order of their names. *)
Definition default_configs (b : bool) (args : PluginFactoryArgs) : list Config :=
  if b then [balancedAllocation 1; imageLocality 1; interPodAffinity (interpod_of args) 1; leastRequested 1; nodeAffinity 1;
             nodePreferAvoidPods 10000; resourceLimits 1; selectorSpread (pa_listers args) 1; taintToleration 1]
  else defaultPriorities (pa_listers args) (interpod_of args).
Definition default_names (b : bool) : list string :=
  if b then ["BalancedResourceAllocation"; "ImageLocalityPriority"; "InterPodAffinityPriority"; "LeastRequestedPriority"; "NodeAffinityPriority";
             "NodePreferAvoidPodsPriority"; "ResourceLimitsPriority"; "SelectorSpreadPriority"; "TaintTolerationPriority"]%string
  else ["BalancedResourceAllocation"; "ImageLocalityPriority"; "InterPodAffinityPriority"; "LeastRequestedPriority"; "NodeAffinityPriority";
        "NodePreferAvoidPodsPriority"; "SelectorSpreadPriority"; "TaintTolerationPriority"]%string.
Lemma default_names_sorted b : set_List (gated_priority_keys b defaultPriorityKeys) = default_names b.
Proof. destruct b; vm_compute; reflexivity. Qed.
Ltac named f := apply Forall2_cons; split; [eexists; split; [reflexivity|exact f]|].
Lemma default_configs_made b r args : priorityFunctionMap r = gated_priorities b → priority_configs r args (default_names b) = Some (inr (default_configs b args)).
Proof.
  intros E. apply priority_configs_value. rewrite E. destruct b; cbn [default_names default_configs]; unfold defaultPriorities.
  - named (make_map_factory args (balancedAllocation 1) eq_refl). named (make_map_factory args (imageLocality 1) eq_refl). named (make_interpod args).
    named (make_map_factory args (leastRequested 1) eq_refl). named (make_map_factory args (nodeAffinity 1) eq_refl). named (make_map_factory args (nodePreferAvoidPods 10000) eq_refl).
    named (make_map_factory args (resourceLimits 1) eq_refl). named (make_spread args id). named (make_map_factory args (taintToleration 1) eq_refl). by apply Forall2_nil.
  - named (make_map_factory args (balancedAllocation 1) eq_refl). named (make_map_factory args (imageLocality 1) eq_refl). named (make_interpod args).
    named (make_map_factory args (leastRequested 1) eq_refl). named (make_map_factory args (nodeAffinity 1) eq_refl). named (make_map_factory args (nodePreferAvoidPods 10000) eq_refl).
    named (make_spread args id). named (make_map_factory args (taintToleration 1) eq_refl). by apply Forall2_nil.
Qed.

(** The predicates of the default provider. *)
Definition default_predicates (a : bool) : gmap string predicate_fn := list_to_map (app
  [("NoVolumeZoneConflict", FnVolumeZone); ("MaxEBSVolumeCount", FnMaxPDVolumeCount EBSVolumeFilterType); ("MaxGCEPDVolumeCount", FnMaxPDVolumeCount GCEPDVolumeFilterType);
   ("MaxAzureDiskVolumeCount", FnMaxPDVolumeCount AzureDiskVolumeFilterType); ("MaxCSIVolumeCountPred", FnCSIMaxVolumeLimit); ("MatchInterPodAffinity", FnPodAffinity);
   ("NoDiskConflict", FnNoDiskConflict); ("GeneralPredicates", FnGeneralPredicates); ("PodToleratesNodeTaints", FnPodToleratesNodeTaints); ("CheckVolumeBinding", FnVolumeBinding)]
  (if a then [("CheckNodeUnschedulable", FnCheckNodeUnschedulable)]
  else [("CheckNodeMemoryPressure", FnCheckNodeMemoryPressure); ("CheckNodeDiskPressure", FnCheckNodeDiskPressure); ("CheckNodePIDPressure", FnCheckNodePIDPressure);
        ("CheckNodeCondition", FnCheckNodeCondition)]))%string.
Lemma default_predicates_exact a : restricted (gated_predicates a) (gated_keys a ∪ gated_mandatory a) = default_predicates a.
Proof. apply (bool_decide_unpack _). destruct a; vm_compute; exact I. Qed.
Lemma default_predicates_ordered a k : is_Some (default_predicates a !! k) → k ∈ predicatesOrdering.
Proof.
  intros Hk%elem_of_dom. assert (dom (default_predicates a) ⊆ list_to_set predicatesOrdering) as Hs.
  { apply (bool_decide_unpack _). destruct a; vm_compute; exact I. }
  by apply Hs, elem_of_list_to_set in Hk.
Qed.
Lemma default_configs_valid b args : validateSelectedConfigs (default_configs b args) = None.
Proof. destruct b; vm_compute; reflexivity. Qed.

(** From the state that the start and the gates give. *)
Definition default_result (a b : bool) (c : configFactory) (sc : SchedulerConfig) : Prop :=
  sc_predicates sc = default_predicates a ∧ (∀ k, is_Some (sc_predicates sc !! k) → k ∈ predicatesOrdering) ∧
  sc_prioritizers sc = default_configs b (getPluginArgs c) ∧
  sc_hasPredicateMeta sc = true ∧ sc_priorityMetaProducer sc = PriorityMetadata (cf_listers c) ∧ sc_extenders sc = [].
Lemma program_starts a b : ∃ r, (r ← program_init; ApplyFeatureGates a b r) = Some r.
Proof. destruct program_init_value as (r0 & E0 & H0). destruct (gates_value a b r0 H0) as (r & Er & _). exists r. rewrite E0. exact Er. Qed.
Lemma default_created a b r c : (r ← program_init; ApplyFeatureGates a b r) = Some r → 1 <= cf_hardPodAffinitySymmetricWeight c <= 100 →
  ∃ r' sc, Create r c = Some (r', inr sc) ∧ default_result a b c sc.
Proof.
  intros Er0 Hc. destruct program_init_value as (r0 & E0 & H0). rewrite E0 in Er0. cbn [mbind option_bind] in Er0. destruct (gates_value a b r0 H0) as (r1 & Er & Hr). rewrite Er0 in Er. injection Er as <-.
  destruct (ApplyFeatureGates_ok a b r0 (started_ok r0 H0)) as (r'' & E'' & Hok). rewrite Er0 in E''. injection E'' as <-. destruct Hr as [Hm Hd Hs Hp Hv Hpr].
  assert (keys_at r 0 = gated_keys a) as K0 by (unfold keys_at; by rewrite Hs). assert (keys_at r 1 = gated_priority_keys b defaultPriorityKeys) as K1 by (unfold keys_at; by rewrite Hs).
  assert (known_keys (fitPredicateMap r) (gated_keys a)) as Hk by (rewrite Hm; apply known_computed; destruct a; vm_compute; reflexivity).
  destruct (getFitPredicateFunctions_ok r (gated_keys a) Hok Hk) as (r1 & E1 & Hs1). rewrite Hm, Hd, default_predicates_exact in E1.
  assert (getPriorityFunctionConfigs r1 (gated_priority_keys b defaultPriorityKeys) (getPluginArgs c) = Some (inr (default_configs b (getPluginArgs c)))) as E2.
  { unfold getPriorityFunctionConfigs. rewrite default_names_sorted, default_configs_made by (destruct Hs1 as (_ & _ & _ & -> & _); exact Hp).
    cbn [mbind option_bind]. by rewrite default_configs_valid. }
  assert (Create r c = Some (r1, inr (MkSchedulerConfig (default_predicates a) (getPredicateMetadataProducer r1) (default_configs b (getPluginArgs c))
    (getPriorityMetadataProducer r1 (getPluginArgs c)) [] (cf_alwaysCheckAllPredicates c)))) as E3.
  { unfold Create, CreateFromProvider, GetAlgorithmProvider. rewrite Hv. change (two_providers !! DefaultProvider) with (Some (MkAlgorithmProviderConfig 0 1)). cbn [FitPredicateKeys PriorityFunctionKeys].
    rewrite K0, K1. unfold CreateFromKeys. destruct (_ || _) eqn:Eh; [lia|]. rewrite E1, E2. done. }
  eexists _, _. split; [exact E3|]. destruct Hs1 as (_ & _ & _ & _ & _ & E6 & E7). destruct Hpr as [P1 P2].
  unfold default_result. cbn [sc_predicates sc_prioritizers sc_hasPredicateMeta sc_priorityMetaProducer sc_extenders].
  split; [reflexivity|]. split; [apply default_predicates_ordered|]. split; [reflexivity|].
  split; [unfold getPredicateMetadataProducer; by rewrite E7|]. split; [unfold getPriorityMetadataProducer; by rewrite E6, P2|reflexivity].
Qed.

(** C21: the scheduler that runs by default.  Under each setting of the two feature gates the program starts, and with a hard affinity weight from 1 to 100 the default provider gives a
    scheduler: its predicates are exactly the default ones (the taint gate puts [CheckNodeUnschedulable] in the place of the four checks of conditions), each with its
    function and each in the order in which [podFitsOnNode] runs them; its priorities are the eight default functions, with the limits of resources as a ninth if that
    gate is on, in the order of their names and with their weights; and predicates and priorities get the metadata of their packages. *)
Theorem default_scheduler a b c : 1 <= cf_hardPodAffinitySymmetricWeight c <= 100 → ∃ r r' sc,
  (r ← program_init; ApplyFeatureGates a b r) = Some r ∧ Create r c = Some (r', inr sc) ∧
  sc_predicates sc = default_predicates a ∧ (∀ k, is_Some (sc_predicates sc !! k) → k ∈ predicatesOrdering) ∧
  sc_prioritizers sc = default_configs b (getPluginArgs c) ∧
  sc_hasPredicateMeta sc = true ∧ sc_priorityMetaProducer sc = PriorityMetadata (cf_listers c) ∧ sc_extenders sc = [].
Proof.
  intros Hc. destruct (program_starts a b) as [r Er]. destruct (default_created a b r c Er Hc) as (r' & sc & E & Hsc). exists r, r', sc. split; [exact Er|]. split; [exact E|exact Hsc].
Qed.

(** ** Policies in good form *)

(** A name of a registered predicate, or one argument and a valid name. *)
Definition predicate_in_form r (p : PredicatePolicy) : Prop :=
  match pp_Argument p with
  | None => is_Some (fitPredicateMap r !! pp_Name p)
  | Some a => validName (pp_Name p) = true ∧ (length (option_list (arg_ServiceAffinity a)) + length (option_list (arg_LabelsPresence a)) = 1)%nat
  end.
Definition shape_points (l : list UtilizationShapePoint) : list FunctionShapePoint := (λ p, MkFunctionShapePoint (usp_Utilization p) (usp_Score p)) <$> l.
Definition priority_in_form r (p : PriorityPolicy) : Prop := validName (prp_Name p) = true ∧
  match prp_Argument p with
  | None => is_Some (priorityFunctionMap r !! prp_Name p)
  | Some a => (length (option_list (arg_ServiceAntiAffinity a)) + length (option_list (arg_LabelPreference a)) + length (option_list (arg_RequestedToCapacityRatio a)) = 1)%nat ∧
      ∀ points, arg_RequestedToCapacityRatio a = Some points → ∃ shape, NewFunctionShape (shape_points points) = inr shape
  end.
(** Every factory makes its function. *)
Definition makes_all r : Prop := ∀ name f args, priorityFunctionMap r !! name = Some f → is_Some (make_config args f).

Lemma predicate_registers r p : predicate_in_form r p → returns (RegisterCustomFitPredicate r p) (λ x, priorityFunctionMap x.1 = priorityFunctionMap r ∧
  ∀ q, predicate_in_form r q → predicate_in_form x.1 q).
Proof.
  unfold predicate_in_form at 1, RegisterCustomFitPredicate, validatePredicateOrDie. destruct (pp_Argument p) as [[sa lp]|].
  - cbn [arg_ServiceAffinity arg_LabelsPresence]. intros [Hn El]. rewrite El. cbn [Nat.eqb mbind option_bind].
    assert (∀ fn, returns (RegisterFitPredicateFactory r (pp_Name p) fn) (λ x, priorityFunctionMap x.1 = priorityFunctionMap r ∧ ∀ q, predicate_in_form r q → predicate_in_form x.1 q)) as Hreg.
    { intros fn. unfold RegisterFitPredicateFactory, validateAlgorithmNameOrDie. rewrite Hn. eexists. split; [reflexivity|]. cbn. split; [done|]. intros q. unfold predicate_in_form.
      destruct (pp_Argument q); [done|]. cbn. intros Hq. destruct (decide (pp_Name p = pp_Name q)) as [->|]; [rewrite lookup_insert_eq; eauto|by rewrite lookup_insert_ne]. }
    destruct sa, lp; [done|apply Hreg|apply Hreg|done].
  - cbn [mbind option_bind]. intros [fn ->]. eexists. split; [reflexivity|]. done.
Qed.
Lemma priority_registers r p : makes_all r → priority_in_form r p → returns (RegisterCustomPriorityFunction r p) (λ x, makes_all x.1 ∧
  ∀ q, priority_in_form r q → priority_in_form x.1 q).
Proof.
  intros Hm [Hn Ha]. unfold RegisterCustomPriorityFunction, validatePriorityOrDie.
  assert (∀ pcf, (∀ args, is_Some (make_config args pcf)) → returns (RegisterPriorityConfigFactory r (prp_Name p) pcf) (λ x, makes_all x.1 ∧ ∀ q, priority_in_form r q → priority_in_form x.1 q)) as Hreg.
  { intros pcf Hpcf. unfold RegisterPriorityConfigFactory, validateAlgorithmNameOrDie. rewrite Hn. eexists. split; [reflexivity|]. cbn. split.
    - intros name f args. cbn. rewrite lookup_insert_Some. intros [[_ <-]|[_ Hf]]; [done|by eapply Hm].
    - intros q [Hq Haq]. split; [done|]. destruct (prp_Argument q); [done|]. cbn. destruct (decide (prp_Name p = prp_Name q)) as [->|]; [rewrite lookup_insert_eq; eauto|by rewrite lookup_insert_ne]. }
  destruct (prp_Argument p) as [[sa lp sh]|].
  - cbn [arg_ServiceAntiAffinity arg_LabelPreference arg_RequestedToCapacityRatio] in *. destruct Ha as [El Hs]. rewrite El. cbn [Nat.eqb mbind option_bind].
    destruct sa as [label|], lp as [l|], sh as [points|]; try done; apply Hreg; intros args; [by eexists|by eexists|].
    destruct (Hs points eq_refl) as [shape E]. unfold make_config, buildScoringFunctionShapeFromRequestedToCapacityRatioArguments. cbn [pcf_Function pcf_MapReduceFunction mbind option_bind].
    fold (shape_points points). rewrite E. by eexists.
  - cbn [mbind option_bind]. destruct Ha as [f Hf]. rewrite Hf. cbn [mbind option_bind]. apply Hreg. intros args. specialize (Hm _ _ args Hf). unfold make_config in *. cbn [pcf_Function pcf_MapReduceFunction pcf_Weight].
    destruct (pcf_Function f); [by eexists|]. destruct (pcf_MapReduceFunction f) as [mk|]; [|by apply is_Some_None in Hm]. cbn [mbind option_bind] in *.
    destruct (mk args) as [[? ?]|]; [by eexists|by apply is_Some_None in Hm].
Qed.
Lemma register_each_returns {P} (register : Registry → P → comp (Registry * string)) (form : Registry → P → Prop) (Q : Registry → Prop) :
  (∀ r p, Q r → form r p → returns (register r p) (λ x, Q x.1 ∧ ∀ q, form r q → form x.1 q)) →
  ∀ l r keys, Q r → Forall (form r) l → returns (register_each register (Some (r, keys)) l) (λ x, Q x.1).
Proof.
  intros Hreg l. induction l as [|p l IH]; intros r keys Hr Hl; [by eexists|]. apply Forall_cons in Hl as [Hp Hl].
  destruct (Hreg r p Hr Hp) as ([r1 key] & E & Hr1 & Hf). unfold register_each. cbn [foldl mbind option_bind]. rewrite E. cbn [mbind option_bind].
  apply IH; [done|]. eapply Forall_impl; [exact Hl|]. apply Hf.
Qed.
Lemma policy_predicates_returns r l : Forall (predicate_in_form r) (default [] l) → returns (policy_predicates r l) (λ x, priorityFunctionMap x.1 = priorityFunctionMap r).
Proof.
  intros Hl. destruct l as [l|]; [|by eexists]. unfold policy_predicates. fold (register_each RegisterCustomFitPredicate (Some (r, ∅)) l).
  eapply returns_bind; [apply (register_each_returns _ predicate_in_form (λ r', priorityFunctionMap r' = priorityFunctionMap r)); [|done|exact Hl]|].
  - intros r1 p Hr1 Hp. destruct (predicate_registers r1 p Hp) as (x & E & Ex & Hf). exists x. split; [done|]. split; [by rewrite Ex|done].
  - intros [r1 keys] Hr1. by eexists.
Qed.
Lemma policy_priorities_returns r l : makes_all r → Forall (priority_in_form r) (default [] l) → returns (policy_priorities r l) (λ x, makes_all x.1).
Proof.
  intros Hm Hl. destruct l as [l|]; [|by eexists]. unfold policy_priorities. fold (register_each RegisterCustomPriorityFunction (Some (r, ∅)) l).
  eapply returns_bind; [apply (register_each_returns _ priority_in_form makes_all); [intros r1 p; apply priority_registers|exact Hm|exact Hl]|]. intros [r1 keys] Hr1. by eexists.
Qed.
Lemma priority_configs_returns r args names : makes_all r → returns (priority_configs r args names) (λ _, True).
Proof.
  intros Hm. induction names as [|name names (x & Ex & _)]; [by eexists|]. cbn [priority_configs]. destruct (priorityFunctionMap r !! name) as [f|] eqn:E; [|by eexists].
  destruct (Hm name f args E) as [config ->]. cbn [mbind option_bind]. rewrite Ex. by eexists.
Qed.
Lemma fit_predicates_same names : ∀ r m, same_functions r (fit_predicates r m names).1.
Proof.
  induction names as [|name names IH]; intros r m; [apply same_functions_refl|]. cbn [fit_predicates]. destruct (fitPredicateMap r !! name) as [fn|]; [|apply same_functions_refl].
  eapply same_functions_trans; [apply make_predicate_same|apply IH].
Qed.
Lemma add_mandatory_same names : ∀ r m, same_functions r (foldl add_mandatory (r, m) names).1.
Proof.
  induction names as [|name names IH]; intros r m; [apply same_functions_refl|]. cbn [foldl]. unfold add_mandatory at 2. destruct (fitPredicateMap r !! name) as [fn|]; [|apply IH].
  eapply same_functions_trans; [apply make_predicate_same|apply IH].
Qed.
Lemma getFitPredicateFunctions_same r names : same_functions r (getFitPredicateFunctions r names).1.
Proof.
  unfold getFitPredicateFunctions. pose proof (fit_predicates_same (set_List names) r ∅) as Hs. destruct (fit_predicates r ∅ (set_List names)) as [r1 [err|m]]; [exact Hs|].
  fold add_mandatory. pose proof (add_mandatory_same (elements (mandatoryFitPredicates r1)) r1 m) as Hs'. destruct (foldl add_mandatory _ _) as [r2 m2]. by eapply same_functions_trans.
Qed.
Lemma CreateFromKeys_returns r c pkeys qkeys extenders : makes_all r → returns (CreateFromKeys r c pkeys qkeys extenders) (λ _, True).
Proof.
  intros Hm. unfold CreateFromKeys. destruct (_ || _); [by eexists|]. pose proof (getFitPredicateFunctions_same r pkeys) as Hs.
  destruct (getFitPredicateFunctions r pkeys) as [r1 [err|m]]; [by eexists|]. assert (makes_all r1) as Hm1 by (intros name f args; destruct Hs as (_ & _ & _ & E & _); cbn in E; rewrite E; apply Hm).
  unfold getPriorityFunctionConfigs. destruct (priority_configs_returns r1 (getPluginArgs c) (set_List qkeys) Hm1) as (x & -> & _). by eexists.
Qed.
Lemma gated_makes_all b r : priorityFunctionMap r = gated_priorities b → makes_all r.
Proof.
  intros E name f args. rewrite E. assert (∀ name f, add_all ∅ init_priorities !! name = Some f → ∀ args, is_Some (make_config args f)) as Hinit.
  { apply (add_all_Forall (λ f, ∀ args, is_Some (make_config args f))); [|intros k x [=]]. unfold init_priorities. repeat (apply Forall_cons; split; [intros args'; by eexists|]). apply Forall_nil_2. }
  unfold gated_priorities. destruct b; [|intros Hf; by eapply Hinit]. rewrite insert_insert_eq, lookup_insert_Some. intros [[_ <-]|[_ Hf]]; [by eexists|by eapply Hinit].
Qed.

(** A policy in good form does not end the process.  After the start of the program, under each setting of the gates, a policy whose predicates and priorities are
    registered names, or valid names with exactly one argument each (and shapes that [NewFunctionShape] accepts), makes [CreateFromConfig] return a scheduler or
    an error: none of the fatal branches of the registration is taken. *)
Theorem policy_returns a b r c policy : (r ← program_init; ApplyFeatureGates a b r) = Some r →
  Forall (predicate_in_form r) (default [] (pol_Predicates policy)) → Forall (priority_in_form r) (default [] (pol_Priorities policy)) →
  is_Some (CreateFromConfig r c policy).
Proof.
  intros Er Hp Hq. destruct program_init_value as (r0 & E0 & H0). rewrite E0 in Er. cbn [mbind option_bind] in Er.
  destruct (gates_value a b r0 H0) as (r1 & E1 & Hr). rewrite Er in E1. injection E1 as <-. pose proof (gated_makes_all b r (ho_priorities _ _ _ _ _ Hr)) as Hm. clear Er Hr E0 H0. clear r0.
  unfold CreateFromConfig. destruct (ValidatePolicy policy); [by eexists|]. destruct (policy_predicates_returns r _ Hp) as ([r1 keys1] & -> & Ep). cbn [mbind option_bind fst] in *.
  destruct keys1 as [err|keys1]; [by eexists|].
  assert (makes_all r1) as Hm1 by (intros name f args; rewrite Ep; apply Hm).
  assert (Forall (priority_in_form r1) (default [] (pol_Priorities policy))) as Hq1 by (eapply Forall_impl; [exact Hq|]; intros q; unfold priority_in_form; by rewrite Ep).
  destruct (policy_priorities_returns r1 _ Hm1 Hq1) as ([r2 keys2] & -> & Hm2). cbn [mbind option_bind fst] in *. destruct keys2 as [err|keys2]; [by eexists|].
  destruct (policy_extenders _) as [err|extenders]; [by eexists|]. set (r3 := if bool_decide _ then r2 else _). assert (makes_all r3) as Hm3 by (unfold r3; by destruct (bool_decide _)).
  match goal with |- context [CreateFromKeys r3 ?c' _ _ _] => destruct (CreateFromKeys_returns r3 c' keys1 keys2 extenders Hm3) as ([r4 x] & -> & _) end. by eexists.
Qed.
End providers.
