(* ===== verification/ComponentConfig.v ===== *)
(** * From a configuration to a scheduler (src/pkg/scheduler/apis/config, scheduler.go, src/cmd/ai-scheduler/app)

    The configuration of the component, its defaults and validation, and how the program makes a scheduler of it: from a provider, or from a policy in a
    file or a config map.  The packages of Kubernetes that parse addresses, and default and validate their own parts of the configuration, are parameters. *)
From S2P Require Import Prelude Heap Api Util Resource HostPorts NodeTree NodeInfo PoolInfo Predicates Cache GenericScheduler Extender Metadata PredicateFuncs VolumePredicates Float64 Priorities PriorityProofs AffinityScoreProofs PrioritizeProofs Plugins ConfigFactory PluginProofs ProviderProofs.

(** ** The configuration (types.go) *)

Record ClientConnectionConfiguration (F : Type) := MkClientConnection { ContentType : string; QPS : F; Burst : Z }.
Arguments MkClientConnection {F} _ _ _.
Arguments ContentType {F} _.
Arguments QPS {F} _.
Arguments Burst {F} _.

(** component-base, net, os and the API server *)
Class ComponentLib := {
  float32 : Type;
  is_zero : float32 → bool;
  fifty : float32;
  LeaderElectionConfiguration : Type;
  LeaderElect : LeaderElectionConfiguration → bool;
  RecommendedDefaultLeaderElectionConfiguration : LeaderElectionConfiguration → LeaderElectionConfiguration;
  ValidateLeaderElectionConfiguration : LeaderElectionConfiguration → list error;
  ValidateClientConnectionConfiguration : ClientConnectionConfiguration float32 → list error;
  SplitHostPort : string → error + (string * string);
  JoinHostPort : string → string → string;
  IsValidSocketAddr : string → list error;
  DefaultSchedulerName : string;
  NamespaceSystem : string;
  InsecureSchedulerPort : string;
  Stat : string → option error;
  ReadFile : string → error + string;
  GetConfigMap : string → string → error + gmap string string;
  DecodePolicy : string → error + Policy
}.

Record SchedulerPolicyConfigMapSource := MkConfigMapSource { cm_Namespace : string; cm_Name : string }.
Record SchedulerPolicySource := MkPolicySource { ps_File : option string; ps_ConfigMap : option SchedulerPolicyConfigMapSource }.
Record SchedulerAlgorithmSource := MkAlgorithmSource { as_Policy : option SchedulerPolicySource; as_Provider : option string }.

Definition SchedulerDefaultProviderName : string := "DefaultProvider".
Definition SchedulerDefaultLockObjectName : string := "ai-scheduler".
Definition SchedulerPolicyConfigMapKey : string := "policy.cfg".
Definition DefaultHardPodAffinitySymmetricWeight : Z := 1.

Section config.
Context {Comp : ComponentLib}.
Record KubeSchedulerLeaderElectionConfiguration := MkLeaderElection {
  le_Configuration : LeaderElectionConfiguration;
  LockObjectNamespace : string;
  LockObjectName : string
}.
Record KubeSchedulerConfiguration := MkConfiguration {
  SchedulerName : string;
  AlgorithmSource : SchedulerAlgorithmSource;
  HardPodAffinitySymmetricWeight : Z;
  LeaderElection : KubeSchedulerLeaderElectionConfiguration;
  ClientConnection : ClientConnectionConfiguration float32;
  HealthzBindAddress : string;
  MetricsBindAddress : string;
  DisablePreemption : bool;
  PercentageOfNodesToScore : Z;
  FailureDomains : string;
  BindTimeoutSeconds : option Z
}.
Implicit Type obj : KubeSchedulerConfiguration.

(** ** Defaults (defaults.go) *)

Definition or_else (s d : string) : string := if bool_decide (s = EmptyString) then d else s.
Definition default_source (s : SchedulerAlgorithmSource) : SchedulerAlgorithmSource :=
  let s := match as_Policy s, as_Provider s with
           | None, None => MkAlgorithmSource None (Some SchedulerDefaultProviderName)
           | None, Some p => if bool_decide (p = EmptyString) then MkAlgorithmSource None (Some SchedulerDefaultProviderName) else s
           | Some _, _ => s
           end in
  match as_Policy s with
  | Some policy =>
      match ps_ConfigMap policy with
      | Some cm => MkAlgorithmSource (Some (MkPolicySource (ps_File policy) (Some (MkConfigMapSource (or_else (cm_Namespace cm) NamespaceSystem) (cm_Name cm))))) (as_Provider s)
      | None => s
      end
  | None => s
  end.
Definition default_address (addr : string) : string :=
  match SplitHostPort addr with
  | inr (host, port) => JoinHostPort (or_else host "0.0.0.0") port
  | inl _ => JoinHostPort "0.0.0.0" InsecureSchedulerPort
  end.
Definition defaultFailureDomains : string := "kubernetes.io/hostname,failure-domain.beta.kubernetes.io/zone,failure-domain.beta.kubernetes.io/region".
Definition SetDefaults_KubeSchedulerConfiguration obj : KubeSchedulerConfiguration :=
  MkConfiguration (or_else (SchedulerName obj) DefaultSchedulerName) (default_source (AlgorithmSource obj))
    (if HardPodAffinitySymmetricWeight obj =? 0 then DefaultHardPodAffinitySymmetricWeight else HardPodAffinitySymmetricWeight obj)
    (MkLeaderElection (RecommendedDefaultLeaderElectionConfiguration (le_Configuration (LeaderElection obj)))
       (or_else (LockObjectNamespace (LeaderElection obj)) NamespaceSystem) (or_else (LockObjectName (LeaderElection obj)) SchedulerDefaultLockObjectName))
    (MkClientConnection (or_else (ContentType (ClientConnection obj)) "application/vnd.kubernetes.protobuf")
       (if is_zero (QPS (ClientConnection obj)) then fifty else QPS (ClientConnection obj))
       (if Burst (ClientConnection obj) =? 0 then 100 else Burst (ClientConnection obj)))
    (default_address (HealthzBindAddress obj)) (default_address (MetricsBindAddress obj))
    (DisablePreemption obj) (PercentageOfNodesToScore obj) (or_else (FailureDomains obj) defaultFailureDomains)
    (Some (default 600 (BindTimeoutSeconds obj))).

(** ** Validation (validation.go) *)

Definition ValidateKubeSchedulerLeaderElectionConfiguration (cc : KubeSchedulerLeaderElectionConfiguration) : list error :=
  if negb (LeaderElect (le_Configuration cc)) then []
  else ValidateLeaderElectionConfiguration (le_Configuration cc) ++
       (if bool_decide (LockObjectNamespace cc = EmptyString) then ["lockObjectNamespace: Required value"%string] else []) ++
       (if bool_decide (LockObjectName cc = EmptyString) then ["lockObjectName: Required value"%string] else []).
Definition ValidateKubeSchedulerConfiguration obj : list error :=
  ValidateClientConnectionConfiguration (ClientConnection obj) ++
  ValidateKubeSchedulerLeaderElectionConfiguration (LeaderElection obj) ++
  (if bool_decide (SchedulerName obj = EmptyString) then ["schedulerName: Required value"%string] else []) ++
  IsValidSocketAddr (HealthzBindAddress obj) ++ IsValidSocketAddr (MetricsBindAddress obj) ++
  (if (HardPodAffinitySymmetricWeight obj <? 0) || (100 <? HardPodAffinitySymmetricWeight obj) then ["hardPodAffinitySymmetricWeight: not in valid range 0-100"%string] else []) ++
  (if bool_decide (BindTimeoutSeconds obj = None) then ["bindTimeoutSeconds: Required value"%string] else []) ++
  (if (PercentageOfNodesToScore obj <? 0) || (100 <? PercentageOfNodesToScore obj) then ["percentageOfNodesToScore: not in valid range 0-100"%string] else []).

(** ** Options of a scheduler (scheduler.go) *)

Record schedulerOptions := MkSchedulerOptions {
  opt_schedulerName : string;
  opt_hardPodAffinitySymmetricWeight : Z;
  opt_disablePreemption : bool;
  opt_percentageOfNodesToScore : Z;
  opt_bindTimeoutSeconds : Z
}.
Definition Option := schedulerOptions → schedulerOptions.
Definition WithName (x : string) : Option := λ o, MkSchedulerOptions x (opt_hardPodAffinitySymmetricWeight o) (opt_disablePreemption o) (opt_percentageOfNodesToScore o) (opt_bindTimeoutSeconds o).
Definition WithHardPodAffinitySymmetricWeight (x : Z) : Option := λ o, MkSchedulerOptions (opt_schedulerName o) x (opt_disablePreemption o) (opt_percentageOfNodesToScore o) (opt_bindTimeoutSeconds o).
Definition WithPreemptionDisabled (x : bool) : Option := λ o, MkSchedulerOptions (opt_schedulerName o) (opt_hardPodAffinitySymmetricWeight o) x (opt_percentageOfNodesToScore o) (opt_bindTimeoutSeconds o).
Definition WithPercentageOfNodesToScore (x : Z) : Option := λ o, MkSchedulerOptions (opt_schedulerName o) (opt_hardPodAffinitySymmetricWeight o) (opt_disablePreemption o) x (opt_bindTimeoutSeconds o).
Definition WithBindTimeoutSeconds (x : Z) : Option := λ o, MkSchedulerOptions (opt_schedulerName o) (opt_hardPodAffinitySymmetricWeight o) (opt_disablePreemption o) (opt_percentageOfNodesToScore o) x.
Definition defaultSchedulerOptions : schedulerOptions := MkSchedulerOptions DefaultSchedulerName DefaultHardPodAffinitySymmetricWeight false DefaultPercentageOfNodesToScore 100.

Definition initPolicyFromFile (policyFile : string) : error + Policy :=
  match Stat policyFile with
  | Some _ => inl ("missing policy config file " +:+ policyFile)%string
  | None =>
      match ReadFile policyFile with
      | inl err => inl ("couldn't read policy config: " +:+ err)%string
      | inr data => match DecodePolicy data with inl err => inl ("invalid policy: " +:+ err)%string | inr policy => inr policy end
      end
  end.
Definition initPolicyFromConfigMap (policyRef : SchedulerPolicyConfigMapSource) : error + Policy :=
  match GetConfigMap (cm_Namespace policyRef) (cm_Name policyRef) with
  | inl err => inl ("couldn't get policy config map " +:+ cm_Namespace policyRef +:+ "/" +:+ cm_Name policyRef +:+ ": " +:+ err)%string
  | inr configMap =>
      match configMap !! SchedulerPolicyConfigMapKey with
      | None => inl ("missing policy config map value at key " +:+ SchedulerPolicyConfigMapKey)%string
      | Some data => match DecodePolicy data with inl err => inl ("invalid policy: " +:+ err)%string | inr policy => inr policy end
      end
  end.
Definition emptyPolicy : Policy := MkPolicy None None [] 0 false.
Definition policy_of (source : SchedulerPolicySource) : error + Policy :=
  match ps_File source, ps_ConfigMap source with
  | Some file, _ => initPolicyFromFile file
  | None, Some cm => initPolicyFromConfigMap cm
  | None, None => inr emptyPolicy
  end.
End config.

(** ** Making the scheduler (scheduler.go, server.go) *)

Section new.
Context {K8s : K8sLib} {Range : MapRange} {Errs : ErrorsLib} {Vol : VolumeLib} {Pred : PredicateLib} {Pri : PriorityLib} {Conv : FloatConversion} {Work : Workers} {Http : HTTPLib} {Val : ValidationLib} {Comp : ComponentLib}.
Implicit Types (r : Registry) (obj : KubeSchedulerConfiguration).

(** The parts of [NewConfigFactory] that the construction uses. *)
Definition NewConfigFactory (ls : Listers) (nodeInfo : string → (bool * error) + Node) (options : schedulerOptions) : configFactory :=
  MkConfigFactory ls nodeInfo (opt_hardPodAffinitySymmetricWeight options) false.
Definition New r (ls : Listers) (nodeInfo : string → (bool * error) + Node) (source : SchedulerAlgorithmSource) (opts : list Option) :
    comp (Registry * (error + SchedulerConfig * schedulerOptions)) :=
  let options := foldl (λ o opt, opt o) defaultSchedulerOptions opts in
  let configurator := NewConfigFactory ls nodeInfo options in
  match as_Provider source, as_Policy source with
  | Some provider, _ =>
      '(r, sc) ← CreateFromProvider r configurator provider;
      Some (r, match sc with inl err => inl ("couldn't create scheduler using provider " +:+ provider +:+ ": " +:+ err)%string | inr sc => inr (sc, options) end)
  | None, Some policySource =>
      match policy_of policySource with
      | inl err => Some (r, inl err)
      | inr policy =>
          '(r, _, sc) ← CreateFromConfig r configurator policy;
          Some (r, match sc with inl err => inl ("couldn't create scheduler from policy: " +:+ err)%string | inr sc => inr (sc, options) end)
      end
  | None, None => Some (r, inl "unsupported algorithm source"%string)
  end.
(** The call in [Run]; the time-out is dereferenced. *)
Definition Run_New r (ls : Listers) (nodeInfo : string → (bool * error) + Node) obj : comp (Registry * (error + SchedulerConfig * schedulerOptions)) :=
  timeout ← BindTimeoutSeconds obj;
  New r ls nodeInfo (AlgorithmSource obj)
    [WithName (SchedulerName obj); WithHardPodAffinitySymmetricWeight (HardPodAffinitySymmetricWeight obj); WithPreemptionDisabled (DisablePreemption obj);
     WithPercentageOfNodesToScore (PercentageOfNodesToScore obj); WithBindTimeoutSeconds timeout].
End new.

(** ** Defaults are stable, and the default configuration gives a scheduler *)

(** What the libraries promise. *)
Class ComponentLaws {Comp : ComponentLib} := {
  split_join s host port : SplitHostPort s = inr (host, port) → SplitHostPort (JoinHostPort (or_else host "0.0.0.0") port) = inr (or_else host "0.0.0.0", port);
  split_default : SplitHostPort (JoinHostPort "0.0.0.0" InsecureSchedulerPort) = inr ("0.0.0.0"%string, InsecureSchedulerPort);
  recommended_stable l : RecommendedDefaultLeaderElectionConfiguration (RecommendedDefaultLeaderElectionConfiguration l) = RecommendedDefaultLeaderElectionConfiguration l;
  fifty_nonzero : is_zero fifty = false;
  names_given : DefaultSchedulerName ≠ EmptyString ∧ NamespaceSystem ≠ EmptyString
}.

Section defaults.
Context {K8s : K8sLib} {Range : MapRange} {Errs : ErrorsLib} {Vol : VolumeLib} {Pred : PredicateLib} {Pri : PriorityLib} {Conv : FloatConversion} {Work : Workers} {Http : HTTPLib} {Val : ValidationLib}.
Context {Comp : ComponentLib} {CLaws : ComponentLaws}.
Implicit Type obj : KubeSchedulerConfiguration.

Lemma or_else_nonempty s d : d ≠ EmptyString → or_else s d ≠ EmptyString.
Proof. intros Hd. unfold or_else. by case_bool_decide. Qed.
Lemma or_else_stable s d : or_else (or_else s d) d = or_else s d.
Proof. unfold or_else. repeat case_bool_decide; congruence. Qed.
Lemma default_address_stable addr : default_address (default_address addr) = default_address addr.
Proof.
  unfold default_address. destruct (SplitHostPort addr) as [err|[host port]] eqn:E; [by rewrite split_default|]. rewrite (split_join _ _ _ E). by rewrite or_else_stable.
Qed.
Lemma default_source_stable s : default_source (default_source s) = default_source s.
Proof.
  unfold default_source. destruct s as [[[file [[ns name]|]]|] [p|]]; cbn; rewrite ?or_else_stable; try done. case_bool_decide as Hp; cbn; [done|]. by rewrite bool_decide_false by done.
Qed.
Lemma default_source_given s : is_Some (as_Policy (default_source s)) ∨ is_Some (as_Provider (default_source s)).
Proof. unfold default_source. destruct s as [[[file [[ns name]|]]|] [p|]]; cbn; try (by left); try (case_bool_decide; cbn); by right; eexists. Qed.
Lemma defaults_stable obj : SetDefaults_KubeSchedulerConfiguration (SetDefaults_KubeSchedulerConfiguration obj) = SetDefaults_KubeSchedulerConfiguration obj.
Proof.
  unfold SetDefaults_KubeSchedulerConfiguration. cbn. rewrite !or_else_stable, default_source_stable, recommended_stable, !default_address_stable. do 2 f_equal.
  - destruct (Z.eqb_spec (HardPodAffinitySymmetricWeight obj) 0) as [|Hne]; [done|]. by rewrite (proj2 (Z.eqb_neq _ _) Hne).
  - destruct (is_zero (QPS (ClientConnection obj))) eqn:E; [by rewrite fifty_nonzero|by rewrite E].
  - destruct (Z.eqb_spec (Burst (ClientConnection obj)) 0) as [|Hne]; [done|]. by rewrite (proj2 (Z.eqb_neq _ _) Hne).
Qed.

Lemma app_nil_both {A} (l l' : list A) : l ++ l' = [] → l = [] ∧ l' = [].
Proof. by apply app_eq_nil. Qed.
(** A configuration with defaults that is valid has its amounts in range. *)
Lemma valid_amounts obj : ValidateKubeSchedulerConfiguration (SetDefaults_KubeSchedulerConfiguration obj) = [] →
  1 <= HardPodAffinitySymmetricWeight (SetDefaults_KubeSchedulerConfiguration obj) <= 100 ∧ 0 <= PercentageOfNodesToScore obj <= 100.
Proof.
  unfold ValidateKubeSchedulerConfiguration. intros (_ & (_ & (_ & (_ & (_ & (Hh & (_ & Hp)%app_nil_both)%app_nil_both)%app_nil_both)%app_nil_both)%app_nil_both)%app_nil_both)%app_nil_both.
  split.
  - destruct (_ || _) eqn:E in Hh; [done|]. assert (HardPodAffinitySymmetricWeight (SetDefaults_KubeSchedulerConfiguration obj) ≠ 0).
    { cbn. destruct (Z.eqb_spec (HardPodAffinitySymmetricWeight obj) 0); [done|done]. } lia.
  - destruct (_ || _) eqn:E in Hp; [done|]. cbn in E. lia.
Qed.

End defaults.
