(* ===== verification/PluginExample.v ===== *)
(** * Example: schedulers from policies *)
From S2P Require Import Prelude Heap Api Util Backoff SchedulingQueue Resource HostPorts NodeTree NodeInfo PoolInfo Predicates Cache GenericScheduler GenericSchedulerProofs Extender ExtenderProofs Metadata MetadataProofs PredicateFuncs PredicateProofs VolumePredicates VolumeProofs Float64 Priorities PriorityProofs AffinityScoreProofs PrioritizeProofs PriorityExample Plugins ConfigFactory PluginProofs ProviderProofs ComponentConfig.
From Stdlib Require Import Ascii.

Module PluginExample.
#[local] Existing Instance docK8s.
#[local] Existing Instance stdRange.
#[local] Existing Instance GenericExample.no_errors.
#[local] Existing Instance PredicateExample.docPredicates.
#[local] Existing Instance VolumeExample.docVolumes.
#[local] Existing Instance PriorityExample.docPriorities.
#[local] Existing Instance PriorityExample.amd64.
#[local] Existing Instance PriorityExample.one_worker.
#[local] Existing Instance ExtenderExample.docHTTP.
(** Every name is accepted. *)
#[local] Instance any_name : ValidationLib := {| IsQualifiedName _ := [] |}.

Definition configurator : configFactory := MkConfigFactory PriorityExample.listers (ipa_GetNodeInfo PriorityExample.ipa) 1 false.
(** A predicate of the program and one of its own, two priorities and an extender. *)
Definition rack : PredicatePolicy := MkPredicatePolicy "rack" (Some (MkPredicateArgument None (Some (MkLabelsPresence ["rack"%string] true)))).
Definition policy (w1 w2 : Z) : Policy := MkPolicy
  (Some [MkPredicatePolicy "GeneralPredicates" None; rack])
  (Some [MkPriorityPolicy "LeastRequestedPriority" w1 None; MkPriorityPolicy "spread" w2 (Some (MkPriorityArgument (Some "zone"%string) None None))])
  [ExtenderExample.config "http://a/" false] 0 true.

(** The parts of a result that are data. *)
Definition summary (x : comp (Registry * configFactory * (error + SchedulerConfig))) : option (error + list string * list Z) :=
  match x with
  | Some (_, _, inr sc) => Some (inr (elements (dom (sc_predicates sc)), pc_Weight <$> sc_prioritizers sc))
  | Some (_, _, inl err) => Some (inl err)
  | None => None
  end.
Definition from_start (p : Policy) : comp (Registry * configFactory * (error + SchedulerConfig)) := r ← program_init; CreateFromConfig r configurator p.
Lemma from_start_some p x : summary (from_start p) = Some x → ∃ r, program_init = Some r ∧ summary (CreateFromConfig r configurator p) = Some x.
Proof. unfold from_start. intros E. destruct program_init_value as (r & E0 & _). rewrite E0 in E. exists r. split; [exact E0|exact E]. Qed.

Lemma registry_invariant_witness : ∃ r, program_init = Some r ∧ known_keys (fitPredicateMap r) (mandatoryFitPredicates r).
Proof.
  destruct program_init_value as (r & E & _). exists r. split; [exact E|].
  exact (ro_mandatory _ _ (registry_invariant r (reaches_start r E))).
Defined.


(** Two weights that are each accepted overflow together. *)
Lemma policy_errors_witness : ∃ r r' c', program_init = Some r ∧
  CreateFromConfig r configurator (policy (MaxWeight - 1) (MaxWeight - 1)) = Some (r', c', inl "total priority of priority functions has overflown"%string) ∧
  policy_error r' c' (policy (MaxWeight - 1) (MaxWeight - 1)) (list_to_set ["LeastRequestedPriority"; "spread"]%string) "total priority of priority functions has overflown".
Proof.
  destruct (from_start_some (policy (MaxWeight - 1) (MaxWeight - 1)) (inl "total priority of priority functions has overflown"%string) ltac:(vm_compute; reflexivity)) as (r & Er & E).
  exists r. destruct (CreateFromConfig r configurator (policy (MaxWeight - 1) (MaxWeight - 1))) as [[[r' c'] [err|sc]]|] eqn:Ec; [|discriminate E|discriminate E].
  injection E as Ee. exists r', c'. rewrite Ee. split; [exact Er|]. split; [reflexivity|].
  destruct (policy_errors r configurator (policy (MaxWeight - 1) (MaxWeight - 1)) r' c' _ (reaches_start r Er) Ec) as [H _]. rewrite Ee in H. exact H.
Defined.

Lemma default_scheduler_witness : ∃ r r' sc, (r ← program_init; ApplyFeatureGates true false r) = Some r ∧ Create r configurator = Some (r', inr sc) ∧
  sc_predicates sc !! "CheckNodeUnschedulable"%string = Some FnCheckNodeUnschedulable ∧ sc_predicates sc !! "CheckNodeCondition"%string = None ∧
  pc_Weight <$> sc_prioritizers sc = [1; 1; 1; 1; 1; 10000; 1; 1].
Proof.
  destruct (default_scheduler true false configurator) as (r & r' & sc & E1 & E2 & Ep & _ & Eq & _); [split; [intros [=]|intros [=]]|].
  exists r, r', sc. split; [exact E1|]. split; [exact E2|]. rewrite Ep, Eq. split; [vm_compute; reflexivity|]. split; vm_compute; reflexivity.
Defined.

Lemma policy_returns_witness : ∃ r, (r ← program_init; ApplyFeatureGates false false r) = Some r ∧ is_Some (CreateFromConfig r configurator (policy 3 2)).
Proof.
  destruct program_init_value as (r & E & Hr). exists r. assert ((r ← program_init; ApplyFeatureGates false false r) = Some r) as Eg by (rewrite E; reflexivity).
  split; [exact Eg|]. apply (policy_returns false false r configurator (policy 3 2) Eg).
  - apply Forall_cons. split; [unfold predicate_in_form; rewrite (st_predicates r Hr); eexists; vm_compute; reflexivity|].
    apply Forall_cons. split; [split; reflexivity|apply Forall_nil_2].
  - apply Forall_cons. split; [split; [reflexivity|]; cbn [prp_Argument]; rewrite (st_priorities r Hr); eexists; reflexivity|].
    apply Forall_cons. split; [split; [reflexivity|]; split; [reflexivity|intros points [=]]|apply Forall_nil_2].
Defined.

(** ** A configuration *)

(** Addresses are split at the first colon. *)
Fixpoint split_address (s : string) : error + (string * string) :=
  match s with
  | EmptyString => inl "missing port in address"%string
  | String c s => if (c =? ":")%char then inr (EmptyString, s) else match split_address s with inl err => inl err | inr (h, p) => inr (String c h, p) end
  end.
#[local] Instance docComponent : ComponentLib := {|
  float32 := Z;
  is_zero z := z =? 0;
  fifty := 50;
  LeaderElectionConfiguration := bool;
  LeaderElect b := b;
  RecommendedDefaultLeaderElectionConfiguration b := b;
  ValidateLeaderElectionConfiguration _ := [];
  ValidateClientConnectionConfiguration _ := [];
  SplitHostPort := split_address;
  JoinHostPort h p := (h +:+ String ":" p)%string;
  IsValidSocketAddr _ := [];
  DefaultSchedulerName := "default-scheduler";
  NamespaceSystem := "kube-system";
  InsecureSchedulerPort := "10251";
  Stat _ := None;
  ReadFile _ := inl "no such file"%string;
  GetConfigMap _ _ := inl "not found"%string;
  DecodePolicy _ := inl "not a policy"%string
|}.
Lemma split_address_join s : ∀ h p q, split_address s = inr (h, p) → split_address (h +:+ String ":" q)%string = inr (h, q).
Proof.
  induction s as [|c s IH]; intros h p q; cbn [split_address]; [done|]. destruct (c =? ":")%char eqn:Ec; [by intros [= <- _]|].
  destruct (split_address s) as [err|[h' p']] eqn:E; [done|]. intros [= <- _]. 
  change (String c h' +:+ String ":" q)%string with (String c (h' +:+ String ":" q)%string). cbn [split_address]. rewrite Ec. by rewrite (IH h' p' q eq_refl).
Qed.
#[local] Instance docComponent_laws : ComponentLaws.
Proof.
  split; [|reflexivity|done|reflexivity|split; discriminate]. intros s host port E. cbn [SplitHostPort JoinHostPort docComponent] in *. unfold or_else.
  case_bool_decide; [reflexivity|by eapply split_address_join].
Qed.
Definition empty_configuration : KubeSchedulerConfiguration :=
  MkConfiguration EmptyString (MkAlgorithmSource None None) 0 (MkLeaderElection false EmptyString EmptyString) (MkClientConnection EmptyString 0 0) EmptyString ":8080" false 0 EmptyString None.


(** ** Two surprises *)

(** A key that is removed from one provider is gone from the other one, too: they share the set. *)
Example provider_removal_leaks :
  (r ← program_init; '(r, _) ← RemovePredicateKeyFromAlgoProvider r ClusterAutoscalerProvider "MatchInterPodAffinity";
   p ← algorithmProviderMap r !! DefaultProvider; Some (bool_decide ("MatchInterPodAffinity"%string ∈ keys_at r (FitPredicateKeys p)))) = Some false.
Proof. vm_compute. reflexivity. Qed.
(** A predicate with a name of its own is in the scheduler, but [podFitsOnNode] goes by the fixed list of names and does not run it: a node without the label is accepted. *)
Example custom_predicate_ignored (f : FitPredicate unit) node :
  ("rack"%string ∉ predicatesOrdering) ∧
  run_predicates PriorityExample.pod None (Some node) {["rack"%string := f]} true predicatesOrdering [] = inr [].
Proof. split; [apply (bool_decide_unpack _); vm_compute; exact I|vm_compute; reflexivity]. Qed.
End PluginExample.
