(* ===== verification/Scheduler.v ===== *)
(** * The scheduling loops (src/pkg/scheduler/scheduler.go and the handlers of
    src/pkg/scheduler/factory/factory.go)

    A loop per pool takes a pod from the queue of the pool, looks for a node and assumes
    the pod there; the binding and, after a failure, the return of the pod to a queue
    run in goroutines of their own.  Meanwhile the informers call the event handlers
    (EventHandlers.v).

    The state is that of the algorithm (cache and queues) with the goroutines in flight.
    A goroutine is what is left of it to run; [run_goroutine] runs it up to the next
    point at which the model lets others interfere: the wait for a pod, the result of the
    algorithm, the goroutine for the binding, an answer for a retry.  What the outside
    answers during a step (clock, API server, listers, volume binder, plugins, the
    interleaving of the workers) is a [World].  A panic, which ends the process, is [None].

    A retry keeps a pointer to the queue it was started for.  A removed queue is
    reachable from such pointers only, so the state need not keep it: [sc_removals] counts
    the queues that were removed per name, and a pointer is the count at its creation. *)
From S2P Require Import Prelude Heap Api Util Backoff SchedulingQueue PoolQueue Resource HostPorts NodeTree NodeInfo PoolInfo Predicates Cache GenericScheduler.

(** ** The outside *)

(** apimachinery api/errors; the kind and the name are those of the status of an error. *)
Class ApiErrors := {
  IsNotFound : error → bool;
  StatusDetails : error → option (string * string)
}.
(** kubernetes pkg/api/v1/pod; the result says whether the condition changed. *)
Class PodUtil := { UpdatePodCondition : PodStatus → PodCondition → PodStatus * bool }.

Record World := MkWorld {
  w_now : Time;
  w_stopped : bool;
  w_podPriorityEnabled : bool;
  w_balancedVolumesEnabled : bool;
  w_workers : list work;
  w_pvcs : string → string → error + (string * option Time);
  w_nodeList : error + list Node;
  w_pdbs : error + list PodDisruptionBudget;
  w_iterate : list (option Node * Victims) → list (option Node * Victims);
  w_GetPod : string → string → error + Pod;
  w_GetNode : string → option error;
  w_UpdateStatus : Pod → option error;
  w_DeletePod : Pod → option error;
  w_Bind : Binding → option error;
  w_AssumePodVolumes : Pod → string → Pod * (error + bool);
  w_BindPodVolumes : Pod → option error;
  w_ReservePlugins : list (Pod → string → option error);
  w_PrebindPlugins : list (string * (Pod → string → bool * option error));
  w_TryBackoffAndWait : bool
}.

(** The writes that reach the API server, in their order. *)
Inductive ApiCall :=
| CallBind (b : Binding)
| CallUpdateStatus (pod : Pod)
| CallDeletePod (pod : Pod).

(** ** Goroutines

    [GStart]: the notification that a queue may be served (eventhandlers.go:112).
    [GLoop]: [scheduleOnePool] before a pod; it may wait in [Pop] on a queue.
    [GSchedule], [GUnfit], [GFits]: [scheduleOne] with a pod, before the algorithm, after its
    error and after its result.  [GBind]: the binding of an assumed pod.
    [GRetry]: the goroutine of the error handler; no [getBackoff] before it waited. *)
Inductive goroutine :=
| GStart (poolName : string)
| GLoop (poolName : string) (waiting : option nat)
| GSchedule (poolName : string) (pod : Pod)
| GUnfit (poolName : string) (pod : Pod) (err : ScheduleError)
| GFits (poolName : string) (pod : Pod) (host : string)
| GBind (poolName : string) (assumed : Pod) (host : string) (allBound : bool)
| GRetry (poolName : string) (podQueue : nat) (podID : string * string) (podSchedulingCycle : Z)
    (needBorrow : bool) (getBackoff : option Duration).

Definition initialGetBackoff : Duration := 100 * 10 ^ 6.
Definition maximalGetBackoff : Duration := 60 * 10 ^ 9.
Definition SchedulerError : string := "SchedulerError".
Definition PodReasonUnschedulable : string := "Unschedulable".

#[export] Instance PoolQueue_SchedulingPoolQueue `{MapRange} {Q} `{!SchedulingQueue Q} : SchedulingPoolQueue (PoolQueue Q) := {|
  spq_NominatedPodsForNode := PoolQueue_NominatedPodsForNode;
  spq_GetPoolQueueNameIfNotPresent := GetPoolQueueNameIfNotPresent
|}.

(** ** The binder (factory.go) *)

(** The first extender that binds, if it is interested; the API server otherwise. *)
Definition getBinderFunc (client : Binding → option error) (extenders : list SchedulerExtender) (pod : Pod) :
    Binding → option error :=
  match list_find ext_IsBinder extenders with
  | Some (_, extenderBinder) => if ext_IsInterested extenderBinder pod then ext_Bind extenderBinder else client
  | None => client
  end.

Definition set_NominatedNodeName (pod : Pod) (name : string) : Pod :=
  MkPod (pod_Meta pod) (pod_Spec pod)
    (MkPodStatus name (Conditions (pod_Status pod)) (status_other (pod_Status pod))).
Definition set_status (pod : Pod) (status : PodStatus) : Pod := MkPod (pod_Meta pod) (pod_Spec pod) status.
Definition set_NodeName (pod : Pod) (host : string) : Pod :=
  let s := pod_Spec pod in
  MkPod (pod_Meta pod)
    (MkPodSpec host (SchedulerName s) (Priority s) (Containers s) (InitContainers s) (spec_Affinity s)
       (NodeSelector s) (Tolerations s) (Volumes s) (spec_other s)) (pod_Status pod).
(** [v1.Node{ObjectMeta: metav1.ObjectMeta{Name: nodeName}}] *)
Definition bare_node (nodeName : string) : Node :=
  MkNode (MkObjectMeta nodeName EmptyString EmptyString EmptyString 0 ∅ ∅ zeroTime None 0) [] false ∅ ∅ [] [] 0.

Section scheduler.
Context `{K8sLib} `{MapRange} `{GoSort} `{ErrorsLib} `{ApiErrors} `{PodUtil}.
Context {M PM Q : Type} `{!PredicateMetadata M} `{!SchedulingQueue Q}.

Record Scheduler := MkScheduler {
  sc_algorithm : @genericScheduler M PM (PoolQueue Q);
  sc_removals : gmap string nat;
  sc_disablePreemption : bool;
  sc_goroutines : list goroutine;
  sc_calls : list ApiCall
}.
Implicit Types (s : Scheduler) (w : World) (pod : Pod).

Definition sc_cache s : schedulerCache := gs_cache (sc_algorithm s).
Definition sc_queue s : PoolQueue Q := gs_queue (sc_algorithm s).

Definition with_algorithm s g : Scheduler :=
  MkScheduler g (sc_removals s) (sc_disablePreemption s) (sc_goroutines s) (sc_calls s).
Definition with_cache s (c : schedulerCache) : Scheduler := with_algorithm s (set_cache (sc_algorithm s) c).
Definition with_queue s (q : PoolQueue Q) : Scheduler :=
  let g := sc_algorithm s in
  with_algorithm s (MkGenericScheduler (gs_cache g) q (gs_predicates g) (gs_ordering g) (gs_predicateMetaProducer g)
    (gs_prioritizers g) (gs_priorityMetaProducer g) (gs_extenders g) (gs_lastNodeIndex g) (gs_alwaysCheckAllPredicates g)
    (gs_percentageOfNodesToScore g)).
Definition with_goroutines s (l : list goroutine) : Scheduler :=
  MkScheduler (sc_algorithm s) (sc_removals s) (sc_disablePreemption s) l (sc_calls s).
(** [go t] *)
Definition spawn s (t : goroutine) : Scheduler := with_goroutines s (sc_goroutines s ++ [t]).
Definition call s (c : ApiCall) : Scheduler :=
  MkScheduler (sc_algorithm s) (sc_removals s) (sc_disablePreemption s) (sc_goroutines s) (sc_calls s ++ [c]).

(** The queue a pointer leads to, if it was not removed. *)
Definition queue_id s (poolName : string) : nat := default O (sc_removals s !! poolName).
Definition queue_at s (poolName : string) (ptr : nat) : option Q :=
  if bool_decide (queue_id s poolName = ptr) then queues (sc_queue s) !! poolName else None.

(** ** Status updates (factory.go) *)

(** The message of the condition is left out. *)
Definition podConditionUpdater_Update w s pod (condition : PodCondition) : Scheduler * option error :=
  let '(status, changed) := UpdatePodCondition (pod_Status pod) condition in
  if changed then (call s (CallUpdateStatus (set_status pod status)), w_UpdateStatus w (set_status pod status))
  else (s, None).
Definition GetUpdatedPod w pod : error + Pod := w_GetPod w (pod_Namespace pod) (pod_Name pod).
Definition DeletePod w s pod : Scheduler * option error := (call s (CallDeletePod pod), w_DeletePod w pod).
Definition SetNominatedNodeName w s pod (nominatedNodeName : string) : Scheduler * option error :=
  let podCopy := set_NominatedNodeName pod nominatedNodeName in
  (call s (CallUpdateStatus podCopy), w_UpdateStatus w podCopy).
Definition RemoveNominatedNodeName w s pod : Scheduler * option error :=
  if bool_decide (NominatedNodeName (pod_Status pod) = EmptyString) then (s, None)
  else SetNominatedNodeName w s pod EmptyString.

(** ** After a failure (factory.go) *)

(** A node that the API server does not know any more is removed from the cache. *)
Definition error_node w s (err : ScheduleError) : comp Scheduler :=
  match err with
  | ErrOther err =>
      if IsNotFound err then
        match StatusDetails err with
        | Some (kind, nodeName) =>
            if bool_decide (kind = "node"%string) then
              match w_GetNode w nodeName with
              | Some err =>
                  if IsNotFound err then '(c, _) ← Cache_RemoveNode (sc_cache s) (bare_node nodeName); Some (with_cache s c)
                  else Some s
              | None => Some s
              end
            else Some s
        | None => Some s
        end
      else Some s
  | _ => Some s
  end.

(** The function that [MakeDefaultErrorFunc] returns. The back-off table it cleans up is used in
    [TryBackoffAndWait] only. *)
Definition MakeDefaultErrorFunc w s (poolName : string) pod (err : ScheduleError) (needBorrow : bool) : comp Scheduler :=
  s ← error_node w s err;
  match PoolQueue_GetQueue (sc_queue s) poolName with
  | inl _ => Some s
  | inr podQueue =>
      Some (spawn s (GRetry poolName (queue_id s poolName) (pod_id pod) (sq_SchedulingCycle podQueue) needBorrow None))
  end.

(** The pool whose queue gets the pod. *)
Definition borrowPoolName s (poolName : string) pod (needBorrow : bool) : comp string :=
  if needBorrow then
    let selfPoolName := GetPoolQueueNameIfNotPresent (sc_queue s) pod in
    borrowPoolName ← BorrowPool (sc_cache s) poolName pod (gs_predicates (sc_algorithm s)) (gs_ordering (sc_algorithm s));
    Some (if negb (bool_decide (borrowPoolName = selfPoolName)) && HasSelfPoolPendingPods (sc_queue s) borrowPoolName
          then selfPoolName else borrowPoolName)
  else Some poolName.

Definition return_pod w s (poolName : string) (podQueue : nat) pod (podSchedulingCycle : Z) (borrowPoolName : string) : comp Scheduler :=
  if bool_decide (borrowPoolName = poolName) then
    match queue_at s poolName podQueue with
    | Some q =>
        r ← sq_AddUnschedulableIfNotPresent (poolQueuePodPriorityComp (sc_queue s) poolName) (w_now w) q pod podSchedulingCycle;
        Some (with_queue s (set_queue (sc_queue s) poolName r.1))
    | None => Some s
    end
  else
    match PoolQueue_GetQueue (sc_queue s) borrowPoolName with
    | inl _ => Some s
    | inr q =>
        r ← sq_AddIfNotPresent (poolQueuePodPriorityComp (sc_queue s) borrowPoolName) (w_now w) q pod;
        Some (with_queue s (set_queue (sc_queue s) borrowPoolName r.1))
    end.

(** One round of the loop of the retry: an error other than NotFound is answered by another round. *)
Definition retry w s (poolName : string) (podQueue : nat) (podID : string * string) (podSchedulingCycle : Z)
    (needBorrow : bool) (getBackoff : Duration) : comp Scheduler :=
  match w_GetPod w podID.1 podID.2 with
  | inr pod =>
      if bool_decide (pod_NodeName pod = EmptyString) then
        borrow ← borrowPoolName s poolName pod needBorrow;
        return_pod w s poolName podQueue pod podSchedulingCycle borrow
      else Some s
  | inl err =>
      if IsNotFound err then Some s
      else
        let d := mul64 getBackoff 2 in
        Some (spawn s (GRetry poolName podQueue podID podSchedulingCycle needBorrow
                         (Some (if maximalGetBackoff <? d then maximalGetBackoff else d))))
  end.
(** ** The steps of a pod (scheduler.go) *)

Definition recordSchedulingFailure w s (poolName : string) pod (err : ScheduleError) (reason : string) (needBorrow : bool) :
    comp Scheduler :=
  s ← MakeDefaultErrorFunc w s poolName pod err needBorrow;
  Some (podConditionUpdater_Update w s pod (MkPodCondition "PodScheduled" "False" reason zeroTime zeroTime)).1.

Fixpoint delete_victims w s (victims : list Pod) : Scheduler * option error :=
  match victims with
  | [] => (s, None)
  | victim :: victims =>
      let '(s, err) := DeletePod w s victim in
      match err with
      | Some err => (s, Some err)
      | None => delete_victims w s victims
      end
  end.
(** The errors are logged. *)
Definition clear_nominated w s (nominatedPodsToClear : list Pod) : Scheduler :=
  foldl (λ s p, (RemoveNominatedNodeName w s p).1) s nominatedPodsToClear.

(** The results are the name of the node, the error and whether to borrow. The error of
    [SetNominatedNodeName] is hidden by the one of the second [GetQueue]. *)
Definition preempt w s (poolName : string) (preemptor : Pod) (scheduleErr : ScheduleError) :
    comp (Scheduler * string * option ScheduleError * bool) :=
  match GetUpdatedPod w preemptor with
  | inl err => Some (s, EmptyString, Some (ErrOther err), false)
  | inr preemptor =>
      r ← Preempt (sc_algorithm s) poolName preemptor scheduleErr (w_pdbs w) (w_iterate w);
      match pr_Err r with
      | Some err => Some (s, EmptyString, Some err, pr_NeedBorrow r)
      | None =>
          match pr_Node r with
          | None => Some (clear_nominated w s (pr_Nominated r), EmptyString, None, pr_NeedBorrow r)
          | Some node =>
              match PoolQueue_GetQueue (sc_queue s) poolName with
              | inl err => Some (s, EmptyString, Some (ErrOther err), false)
              | inr q =>
                  let q := sq_UpdateNominatedPodForNode q preemptor (node_Name node) in
                  let s := with_queue s (set_queue (sc_queue s) poolName q) in
                  let '(s, err) := SetNominatedNodeName w s preemptor (node_Name node) in
                  match err with
                  | Some _ =>
                      match PoolQueue_GetQueue (sc_queue s) poolName with
                      | inl err => Some (s, EmptyString, Some (ErrOther err), false)
                      | inr q =>
                          Some (with_queue s (set_queue (sc_queue s) poolName (sq_DeleteNominatedPodIfExists q preemptor)),
                                EmptyString, None, false)
                      end
                  | None =>
                      let '(s, err) := delete_victims w s (pr_Victims r) in
                      match err with
                      | Some err => Some (s, EmptyString, Some (ErrOther err), false)
                      | None => Some (clear_nominated w s (pr_Nominated r), node_Name node, None, pr_NeedBorrow r)
                      end
                  end
              end
          end
      end
  end.

Definition assumeVolumes w s (poolName : string) (assumed : Pod) (host : string) : comp (Scheduler * Pod * (error + bool)) :=
  let '(assumed, r) := w_AssumePodVolumes w assumed host in
  match r with
  | inl err => s ← recordSchedulingFailure w s poolName assumed (ErrOther err) SchedulerError false; Some (s, assumed, r)
  | inr _ => Some (s, assumed, r)
  end.

(** [assumed] gets the host as its node. *)
Definition assume w s (poolName : string) (assumed : Pod) (host : string) : comp (Scheduler * Pod * option error) :=
  let assumed := set_NodeName assumed host in
  '(c, err) ← AssumePod (sc_cache s) assumed;
  let s := with_cache s c in
  match err with
  | Some err =>
      s ← recordSchedulingFailure w s poolName assumed (ErrOther err) SchedulerError false;
      Some (s, assumed, Some err)
  | None =>
      match PoolQueue_GetQueue (sc_queue s) poolName with
      | inl err => Some (s, assumed, Some err)
      | inr q =>
          Some (with_queue s (set_queue (sc_queue s) poolName (sq_DeleteNominatedPodIfExists q assumed)), assumed, None)
      end
  end.

(** The pod is forgotten, and an error of that is logged. *)
Definition forget s (assumed : Pod) : comp Scheduler :=
  '(c, _) ← ForgetPod (sc_cache s) assumed; Some (with_cache s c).

Definition bindVolumes w s (poolName : string) (assumed : Pod) : comp (Scheduler * option error) :=
  match w_BindPodVolumes w assumed with
  | Some err =>
      s ← forget s assumed;
      s ← recordSchedulingFailure w s poolName assumed (ErrOther err) "VolumeBindingFailed" false;
      Some (s, Some err)
  | None => Some (s, None)
  end.

Definition bind w s (poolName : string) (assumed : Pod) (b : Binding) : comp (Scheduler * option error) :=
  let err := getBinderFunc (w_Bind w) (gs_extenders (sc_algorithm s)) assumed b in
  let s := call s (CallBind b) in
  let s := with_cache s (finishBinding (sc_cache s) assumed (w_now w)).1 in
  match err with
  | Some err =>
      s ← forget s assumed;
      s ← recordSchedulingFailure w s poolName assumed (ErrOther err) SchedulerError false;
      Some (s, Some err)
  | None => Some (s, None)
  end.

(** The first reserve plugin that fails. *)
Fixpoint reserve_error (plugins : list (Pod → string → option error)) (assumed : Pod) (host : string) : option error :=
  match plugins with
  | [] => None
  | pl :: plugins =>
      match pl assumed host with
      | Some err => Some err
      | None => reserve_error plugins assumed host
      end
  end.

(** The first prebind plugin that does not approve: its error and the reason that is recorded. *)
Fixpoint prebind_error (plugins : list (string * (Pod → string → bool * option error))) (assumed : Pod) (host : string) :
    option (error * string) :=
  match plugins with
  | [] => None
  | (name, pl) :: plugins =>
      let '(approved, err) := pl assumed host in
      match err with
      | Some err => Some (err, SchedulerError)
      | None =>
          if negb approved then
            Some (("prebind plugin " +:+ name +:+ " rejected pod " +:+ pod_Name assumed +:+ ".")%string, PodReasonUnschedulable)
          else prebind_error plugins assumed host
      end
  end.

(** [schedule]; the results of the algorithm decide how [scheduleOne] goes on. *)
Definition schedule w s (poolName : string) pod : comp (Scheduler * (ScheduleError + ScheduleResult)) :=
  '(g, r) ← Schedule (w_balancedVolumesEnabled w) (w_workers w) (sc_algorithm s) poolName pod (w_pvcs w) (w_nodeList w);
  Some (with_algorithm s g, r).

(** [scheduleOne] after an error of the algorithm. *)
Definition scheduleOne_unfit w s (poolName : string) pod (err : ScheduleError) : comp Scheduler :=
  '(s, needBorrow) ←
    match err with
    | FitError _ _ _ =>
        if negb (w_podPriorityEnabled w) || sc_disablePreemption s then Some (s, true)
        else if bool_decide (GetPoolQueueNameIfNotPresent (sc_queue s) pod = poolName) then
          '(s, needBorrow) ←
            match GetPool (sc_cache s) poolName with
            | inl _ => Some (s, true)
            | inr p =>
                if DisablePreemption p then Some (s, true)
                else '(s, _, _, needBorrow) ← preempt w s poolName pod err; Some (s, needBorrow)
            end;
          q ← MoveAllBorrowingPodsToSelfQueue (w_now w) (sc_queue s) poolName;
          Some (with_queue s q, needBorrow)
        else Some (s, true)
    | _ => Some (s, true)
    end;
  recordSchedulingFailure w s poolName pod err PodReasonUnschedulable needBorrow.

(** [scheduleOne] after the algorithm found a host. *)
Definition scheduleOne_fits w s (poolName : string) pod (host : string) : comp Scheduler :=
  '(s, assumedPod, r) ← assumeVolumes w s poolName pod host;
  match r with
  | inl _ => Some s
  | inr allBound =>
      match reserve_error (w_ReservePlugins w) assumedPod host with
      | Some err => recordSchedulingFailure w s poolName assumedPod (ErrOther err) SchedulerError false
      | None =>
          '(s, assumedPod, err) ← assume w s poolName assumedPod host;
          match err with
          | Some _ => Some s
          | None => Some (spawn s (GBind poolName assumedPod host allBound))
          end
      end
  end.

(** The goroutine that [scheduleOne] leaves behind. *)
Definition scheduleOne_bind w s (poolName : string) (assumedPod : Pod) (host : string) (allBound : bool) : comp Scheduler :=
  '(s, err) ← (if negb allBound then bindVolumes w s poolName assumedPod else Some (s, None));
  match err with
  | Some _ => Some s
  | None =>
      match prebind_error (w_PrebindPlugins w) assumedPod host with
      | Some (err, reason) =>
          s ← forget s assumedPod;
          recordSchedulingFailure w s poolName assumedPod (ErrOther err) reason false
      | None =>
          '(s, _) ← bind w s poolName assumedPod
                      (MkBinding (pod_Namespace assumedPod) (pod_Name assumedPod) (pod_UID assumedPod) host);
          Some s
      end
  end.

(** ** The loop of a pool *)

(** [scheduleOnePool] up to the next pod: the loop ends when the process stops or the
    queue is closed or deleted. A loop that waits in [Pop] of a removed queue finds it closed. *)
Definition scheduleOnePool_next w s (poolName : string) (waiting : option nat) : comp Scheduler :=
  if w_stopped w then Some s
  else if match waiting with Some ptr => bool_decide (queue_at s poolName ptr = None) | None => false end then Some s
  else
    '(q, r) ← MakeNextPodFunc (sc_queue s) poolName;
    let s := with_queue s q in
    match r with
    | PopPod pod =>
        match DeletionTimestamp (pod_Meta pod) with
        | Some _ => Some (spawn s (GLoop poolName None))
        | None => Some (spawn s (GSchedule poolName pod))
        end
    | PopError err =>
        if bool_decide (err = PriorityQueueClosedError) || bool_decide (err = PriorityQueueDeletedError) then Some s
        else Some (spawn s (GLoop poolName None))
    | PopWait => Some (spawn s (GLoop poolName (Some (queue_id s poolName))))
    end.

Definition run_goroutine w s (t : goroutine) : comp Scheduler :=
  match t with
  | GStart poolName => Some (spawn s (GLoop poolName None))
  | GLoop poolName waiting => scheduleOnePool_next w s poolName waiting
  | GSchedule poolName pod =>
      '(s, r) ← schedule w s poolName pod;
      Some (spawn s (match r with
                     | inl err => GUnfit poolName pod err
                     | inr res => GFits poolName pod (SuggestedHost res)
                     end))
  | GUnfit poolName pod err => s ← scheduleOne_unfit w s poolName pod err; Some (spawn s (GLoop poolName None))
  | GFits poolName pod host => s ← scheduleOne_fits w s poolName pod host; Some (spawn s (GLoop poolName None))
  | GBind poolName assumed host allBound => scheduleOne_bind w s poolName assumed host allBound
  | GRetry poolName podQueue podID podSchedulingCycle needBorrow None =>
      if negb (w_podPriorityEnabled w) && negb (w_TryBackoffAndWait w) then Some s
      else Some (spawn s (GRetry poolName podQueue podID podSchedulingCycle needBorrow (Some initialGetBackoff)))
  | GRetry poolName podQueue podID podSchedulingCycle needBorrow (Some getBackoff) =>
      retry w s poolName podQueue podID podSchedulingCycle needBorrow getBackoff
  end.

(** The [i]-th goroutine runs for a while. *)
Definition step_goroutine w s (i : nat) : comp Scheduler :=
  t ← sc_goroutines s !! i;
  run_goroutine w (with_goroutines s (delete i (sc_goroutines s))) t.

(** [scheduleOne] without interference: the goroutine of the loop alone runs until it is back in
    the loop.  The loop goes on with the goroutine it appended last. *)
Definition scheduleOne w s (poolName : string) : comp Scheduler :=
  s ← scheduleOnePool_next w s poolName None;
  match last (sc_goroutines s) with
  | Some (GSchedule _ _) =>
      s ← step_goroutine w s (pred (length (sc_goroutines s)));
      step_goroutine w s (pred (length (sc_goroutines s)))
  | _ => Some s
  end.
End scheduler.
