(* ===== verification/EventHandlers.v ===== *)
(** * The event handlers (src/pkg/scheduler/eventhandlers.go)

    What the scheduler does when an informer reports a change.  An informer passes objects
    of the type [interface{}], here [object]; a type assertion that is not checked panics.
    Errors are logged.  The handlers run in goroutines of the informers, so [step] lets
    them interleave with the goroutines of Scheduler.v, with the ones that the queues start
    and with the one that expires assumed pods. *)
From S2P Require Import Prelude Heap Api Util Backoff SchedulingQueue PoolQueue Resource HostPorts NodeTree NodeInfo PoolInfo Predicates Cache GenericScheduler VolumePredicates Scheduler.

(** ** Informers (client-go tools/cache) *)

Inductive object :=
| OPod (pod : Pod)
| ONode (node : Node)
| OPool (pool : Pool)
| OStorageClass (sc : StorageClass)
| ODeletedFinalStateUnknown (obj : object)
| OOther.

Record EventHandler (St : Type) := MkEventHandler {
  OnAdd : St → object → comp St;
  OnUpdate : St → object → object → comp St;
  OnDelete : St → object → comp St
}.
Arguments MkEventHandler {St} _ _ _.
Arguments OnAdd {St} _.
Arguments OnUpdate {St} _.
Arguments OnDelete {St} _.

Class InformerLib := {
  FilteringResourceEventHandler {St} : (object → bool) → EventHandler St → EventHandler St
}.
(** Documented: all events go through the filter; an object that starts to pass it after an
    update is an addition, one that stops to pass it a deletion. *)
Class InformerLaws `{InformerLib} := {
  filtering_add {St} f (h : EventHandler St) s o :
    OnAdd (FilteringResourceEventHandler f h) s o = if f o : bool then OnAdd h s o else Some s;
  filtering_update {St} f (h : EventHandler St) s o o' :
    OnUpdate (FilteringResourceEventHandler f h) s o o' =
      if f o : bool then if f o' : bool then OnUpdate h s o o' else OnDelete h s o
      else if f o' : bool then OnAdd h s o' else Some s;
  filtering_delete {St} f (h : EventHandler St) s o :
    OnDelete (FilteringResourceEventHandler f h) s o = if f o : bool then OnDelete h s o else Some s
}.

(** ** Which changes matter *)

Definition nodeSpecUnschedulableChanged (newNode oldNode : Node) : bool :=
  negb (bool_decide (Unschedulable newNode = Unschedulable oldNode)) && bool_decide (Unschedulable newNode = false).
Definition nodeAllocatableChanged (newNode oldNode : Node) : bool :=
  negb (bool_decide (Allocatable oldNode = Allocatable newNode)).
Definition nodeLabelsChanged (newNode oldNode : Node) : bool :=
  negb (bool_decide (node_Labels oldNode = node_Labels newNode)).
Definition nodeTaintsChanged (newNode oldNode : Node) : bool :=
  negb (bool_decide (Taints newNode = Taints oldNode)).
Definition strip_conditions (conditions : list NodeCondition) : gmap string string :=
  foldl (λ m c, <[ncond_Type c := ncond_Status c]> m) ∅ conditions.
Definition nodeConditionsChanged (newNode oldNode : Node) : bool :=
  negb (bool_decide (strip_conditions (node_Conditions oldNode) = strip_conditions (node_Conditions newNode))).
Definition nodeSchedulingPropertiesChanged (newNode oldNode : Node) : bool :=
  if nodeSpecUnschedulableChanged newNode oldNode then true
  else if nodeAllocatableChanged newNode oldNode then true
  else if nodeLabelsChanged newNode oldNode then true
  else if nodeTaintsChanged newNode oldNode then true
  else if nodeConditionsChanged newNode oldNode then true
  else false.

Definition assignedPod (pod : Pod) : bool := negb (bool_decide (pod_NodeName pod = EmptyString)).
Definition responsibleForPod (pod : Pod) (schedulerName : string) : bool :=
  bool_decide (schedulerName = SchedulerName (pod_Spec pod)).

(** The filters of the two handlers of pods. *)
Definition pod_filter (f : Pod → bool) (obj : object) : bool :=
  match obj with
  | OPod pod => f pod
  | ODeletedFinalStateUnknown (OPod pod) => f pod
  | _ => false
  end.
Definition scheduled_filter : object → bool := pod_filter assignedPod.
Definition unscheduled_filter (schedulerName : string) : object → bool :=
  pod_filter (λ pod, negb (assignedPod pod) && responsibleForPod pod schedulerName).

(** The copy without resource version, node name and annotations. *)
Definition stripped (pod : Pod) : Pod :=
  let m := pod_Meta pod in
  let pod := set_NodeName pod EmptyString in
  MkPod (MkObjectMeta (Name m) (Namespace m) (UID m) EmptyString (Generation m) (Labels m) ∅ (CreationTimestamp m)
           (DeletionTimestamp m) (meta_other m)) (pod_Spec pod) (pod_Status pod).

Section handlers.
Context `{K8sLib} `{MapRange} `{GoSort} `{ErrorsLib} `{ApiErrors} `{PodUtil} `{InformerLib}.
Context {M PM Q : Type} `{!PredicateMetadata M} `{!SchedulingQueue Q}.
Abbreviation Scheduler := (@Scheduler M PM Q).
Implicit Types (s : Scheduler) (w : World) (obj : object).

Definition move_all w s : comp Scheduler :=
  q ← PoolQueue_MoveAllToActiveQueue (w_now w) (sc_queue s); Some (with_queue s q).
Definition move_all_in w s (poolName : string) : comp Scheduler :=
  q ← PoolQueue_MoveAllToActiveQueueIn (w_now w) (sc_queue s) poolName; Some (with_queue s q).

(** ** Volumes and services *)

Definition onPvAdd w s obj : comp Scheduler := move_all w s.
Definition onPvUpdate w s (old new : object) : comp Scheduler := move_all w s.
Definition onPvcAdd w s obj : comp Scheduler := move_all w s.
Definition onPvcUpdate w s (old new : object) : comp Scheduler := move_all w s.
Definition onStorageClassAdd w s obj : comp Scheduler :=
  match obj with
  | OStorageClass sc =>
      match VolumeBindingMode sc with
      | Some mode => if bool_decide (mode = VolumeBindingWaitForFirstConsumer) then move_all w s else Some s
      | None => Some s
      end
  | _ => Some s
  end.
Definition onServiceAdd w s obj : comp Scheduler := move_all w s.
Definition onServiceUpdate w s (oldObj newObj : object) : comp Scheduler := move_all w s.
Definition onServiceDelete w s obj : comp Scheduler := move_all w s.

(** ** Pools *)

(** [p.Name()] of the pool with a node; a nil pool has an empty name. *)
Definition pool_name_of_node s (nodeName : string) : string :=
  match GetPoolContainsNode (sc_cache s) nodeName with
  | Some k => match ca_pools (sc_cache s) !! k with Some p => PoolInfo_Name p | None => EmptyString end
  | None => EmptyString
  end.

Definition addPoolToCache w s obj : comp Scheduler :=
  match obj with
  | OPool pool =>
      '(c, err) ← Cache_AddPool (sc_cache s) pool;
      let s := with_cache s c in
      match err with
      | Some _ => Some s
      | None =>
          let s := with_queue s (PoolQueue_AddQueue (sc_queue s) (pool_Name pool)).1 in
          s ← move_all w s;
          Some (spawn s (GStart (pool_Name pool)))
      end
  | _ => Some s
  end.

Definition updatePoolInCache w s (oldObj newObj : object) : comp Scheduler :=
  match oldObj, newObj with
  | OPool oldPool, OPool newPool =>
      '(c, _) ← Cache_UpdatePool (sc_cache s) oldPool newPool;
      let s := with_cache s c in
      if PoolResourcePropertiesChanged oldPool newPool then move_all w s else Some s
  | _, _ => Some s
  end.

(** The object of an event of deletion. *)
Definition deleted_object obj : object := match obj with ODeletedFinalStateUnknown o => o | o => o end.

(** The pointers to the queue of the pool lead to a removed queue from now on. *)
Definition remove_queue w s (poolName : string) : comp Scheduler :=
  '(q, removed) ← PoolQueue_RemoveQueue (w_now w) (sc_queue s) poolName;
  let s := with_queue s q in
  Some (match removed with
        | Some _ => MkScheduler (sc_algorithm s) (<[poolName := S (queue_id s poolName)]> (sc_removals s))
                      (sc_disablePreemption s) (sc_goroutines s) (sc_calls s)
        | None => s
        end).

Definition deletePoolFromCache w s obj : comp Scheduler :=
  match deleted_object obj with
  | OPool pool =>
      '(c, err) ← Cache_RemovePool (sc_cache s) pool;
      let s := with_cache s c in
      match err with
      | Some _ => Some s
      | None => s ← remove_queue w s (pool_Name pool); move_all w s
      end
  | _ => Some s
  end.

(** ** Nodes *)

Definition addNodeToCache w s obj : comp Scheduler :=
  match obj with
  | ONode node =>
      '(c, _) ← Cache_AddNode (sc_cache s) node;
      let s := with_cache s c in
      move_all_in w s (pool_name_of_node s (node_Name node))
  | _ => Some s
  end.

(** [PrintPools] writes to the log. *)
Definition updateNodeInCache w s (oldObj newObj : object) : comp Scheduler :=
  match oldObj, newObj with
  | ONode oldNode, ONode newNode =>
      '(c, _) ← Cache_UpdateNode (sc_cache s) (Some oldNode) newNode;
      let s := with_cache s c in
      let p := pool_name_of_node s (node_Name newNode) in
      if bool_decide (PoolQueue_NumUnschedulablePodsIn (sc_queue s) p = O) || nodeSchedulingPropertiesChanged newNode oldNode
      then move_all_in w s p else Some s
  | _, _ => Some s
  end.

Definition deleteNodeFromCache w s obj : comp Scheduler :=
  match deleted_object obj with
  | ONode node => '(c, _) ← Cache_RemoveNode (sc_cache s) node; Some (with_cache s c)
  | _ => Some s
  end.

(** ** Pods without a node *)

Definition addPodToSchedulingQueue w s obj : comp Scheduler :=
  match obj with
  | OPod pod => '(q, _) ← PoolQueue_Add (w_now w) (sc_queue s) pod; Some (with_queue s q)
  | _ => panic
  end.

Definition skipPodUpdate s (pod : Pod) : bool :=
  match IsAssumedPod (sc_cache s) pod with
  | inl _ => false
  | inr isAssumed =>
      if negb isAssumed then false
      else
        match GetPod (sc_cache s) pod with
        | inl _ => false
        | inr assumedPod => bool_decide (stripped assumedPod = stripped pod)
        end
  end.

Definition updatePodInSchedulingQueue w s (oldObj newObj : object) : comp Scheduler :=
  match newObj with
  | OPod pod =>
      if skipPodUpdate s pod then Some s
      else
        match oldObj with
        | OPod oldPod => '(q, _) ← PoolQueue_Update (w_now w) (sc_queue s) (Some oldPod) pod; Some (with_queue s q)
        | _ => panic
        end
  | _ => panic
  end.

(** The volume binder, which is told as well, is not part of the state. *)
Definition deletePodFromSchedulingQueue s obj : comp Scheduler :=
  match deleted_object obj with
  | OPod pod => '(q, _) ← PoolQueue_Delete (sc_queue s) pod; Some (with_queue s q)
  | _ => Some s
  end.

(** ** Pods with a node *)

Definition addPodToCache w s obj : comp Scheduler :=
  match obj with
  | OPod pod =>
      '(c, _) ← Cache_AddPod (sc_cache s) pod;
      let s := with_cache s c in
      q ← PoolQueue_AssignedPodAdded (w_now w) (sc_queue s) pod;
      Some (with_queue s q)
  | _ => Some s
  end.

Definition updatePodInCache w s (oldObj newObj : object) : comp Scheduler :=
  match oldObj, newObj with
  | OPod oldPod, OPod newPod =>
      '(c, _) ← Cache_UpdatePod (sc_cache s) oldPod newPod;
      let s := with_cache s c in
      q ← PoolQueue_AssignedPodUpdated (w_now w) (sc_queue s) newPod;
      Some (with_queue s q)
  | _, _ => Some s
  end.

Definition deletePodFromCache w s obj : comp Scheduler :=
  match deleted_object obj with
  | OPod pod =>
      '(c, _) ← Cache_RemovePod (sc_cache s) pod;
      let s := with_cache s c in
      move_all_in w s (pool_name_of_node s (pod_NodeName pod))
  | _ => Some s
  end.

(** ** Registration *)

(** The handlers that [AddAllEventHandlers] registers; a nil function does nothing. *)
Inductive registered := HScheduled | HUnscheduled | HPool | HNode | HPv | HPvc | HService | HStorageClass.

Definition AddAllEventHandlers w (schedulerName : string) (h : registered) : EventHandler Scheduler :=
  match h with
  | HScheduled => FilteringResourceEventHandler scheduled_filter
      (MkEventHandler (addPodToCache w) (updatePodInCache w) (deletePodFromCache w))
  | HUnscheduled => FilteringResourceEventHandler (unscheduled_filter schedulerName)
      (MkEventHandler (addPodToSchedulingQueue w) (updatePodInSchedulingQueue w) deletePodFromSchedulingQueue)
  | HPool => MkEventHandler (addPoolToCache w) (updatePoolInCache w) (deletePoolFromCache w)
  | HNode => MkEventHandler (addNodeToCache w) (updateNodeInCache w) (deleteNodeFromCache w)
  | HPv => MkEventHandler (onPvAdd w) (onPvUpdate w) (λ s _, Some s)
  | HPvc => MkEventHandler (onPvcAdd w) (onPvcUpdate w) (λ s _, Some s)
  | HService => MkEventHandler (onServiceAdd w) (onServiceUpdate w) (onServiceDelete w)
  | HStorageClass => MkEventHandler (onStorageClassAdd w) (λ s _ _, Some s) (λ s _, Some s)
  end.

(** ** Steps of the whole scheduler *)

Inductive event :=
| EvAdd (h : registered) (obj : object)
| EvUpdate (h : registered) (oldObj newObj : object)
| EvDelete (h : registered) (obj : object)
| EvRun (i : nat)
| EvQueue (poolName : string) (i : nat)
| EvExpire.

Definition step (schedulerName : string) w s (e : event) : comp Scheduler :=
  match e with
  | EvAdd h obj => OnAdd (AddAllEventHandlers w schedulerName h) s obj
  | EvUpdate h oldObj newObj => OnUpdate (AddAllEventHandlers w schedulerName h) s oldObj newObj
  | EvDelete h obj => OnDelete (AddAllEventHandlers w schedulerName h) s obj
  | EvRun i => step_goroutine w s i
  | EvQueue poolName i =>
      q ← queues (sc_queue s) !! poolName;
      f ← sq_run !! i;
      q ← f (poolQueuePodPriorityComp (sc_queue s) poolName) (w_now w) q;
      Some (with_queue s (set_queue (sc_queue s) poolName q))
  | EvExpire => c ← cleanupAssumedPods (sc_cache s) (w_now w); Some (with_cache s c)
  end.
End handlers.
