(* ===== verification/SchedulerProofs.v ===== *)
(** * The life of a pod

    Every pod that waits for a node is in exactly one place: pending in the queue of one
    pool, or in the hands of one goroutine.  The abstract state is a map from the names of pods to
    places, [life]; [tracks] relates it to the queues and the goroutines of the
    scheduler, and every step of the scheduler, in whatever order events and
    goroutines interleave, moves each pod along the arrows of [life_step] only. *)
From S2P Require Import Prelude Heap Api Util Backoff SchedulingQueue SchedulingQueueProofs PoolQueue PoolQueueProofs Resource HostPorts NodeTree NodeInfo PoolInfo Predicates Cache GenericScheduler VolumePredicates Scheduler EventHandlers.

Abbreviation DefaultPoolName := PoolQueue.DefaultPoolName.

(** ** More on the pool queue *)

Section queues.
Context {Range : MapRange} {Q : Type} {SQ : SchedulingQueue Q} {Laws : SchedulingQueueLaws Q}.
Implicit Types (pq : PoolQueue Q) (q : Q) (p pod : Pod) (m : pods_of) (P : gmap string pods_of).

Lemma pool_holds_mono now now' pq P : now <= now' → pool_holds now pq P → pool_holds now' pq P.
Proof.
  intros Hle H n. specialize (H n). destruct (queues pq !! n), (P !! n); inv H; constructor. by eapply sq_mono.
Qed.

(** An operation on one queue that keeps its pods. *)
Lemma pool_holds_same now pq P n q q' :
  pool_holds now pq P → queues pq !! n = Some q → (∀ m, sq_holds now q m → sq_holds now q' m) →
  pool_holds now (set_queue pq n q') P.
Proof.
  intros H E Hq. destruct (pool_holds_Some _ _ _ _ _ H E) as (m & Em & Hm).
  rewrite <-(insert_id P n m Em). apply pool_holds_set; auto.
Qed.

Lemma MoveAll_queues_keeps now P (l : list (string * Q)) : ∀ pq,
  pool_holds now pq P → NoDup l.*1 → (∀ n q, (n, q) ∈ l → queues pq !! n = Some q) →
  ∃ pq', MoveAll_queues now pq l = Some pq' ∧ pool_holds now pq' P.
Proof.
  induction l as [|[n q] l IH]; intros pq H Hnd Hl; [eauto|]. simpl in Hnd. apply NoDup_cons in Hnd as [Hn Hnd]. simpl.
  assert (queues pq !! n = Some q) as E by (apply Hl; left).
  destruct (pool_holds_Some _ _ _ _ _ H E) as (m & Em & Hm).
  destruct (sq_MoveAll_law (poolQueuePodPriorityComp pq n) now q m Hm) as (q' & -> & Hq'). cbn [mbind option_bind].
  apply IH; [|done|].
  - rewrite <-(insert_id P n m Em). by apply pool_holds_set.
  - intros n' q0 Hin. simpl. rewrite lookup_insert_ne; [apply Hl; by right|].
    intros ->. apply Hn. apply list_elem_of_fmap. by exists (n', q0).
Qed.

Lemma MoveAll_keeps now pq P :
  pool_holds now pq P → ∃ pq', PoolQueue_MoveAllToActiveQueue now pq = Some pq' ∧ pool_holds now pq' P.
Proof.
  intros H. apply MoveAll_queues_keeps; [done| |].
  - rewrite range_perm. apply NoDup_fst_map_to_list.
  - intros n q Hin. by apply range_elem in Hin.
Qed.

Lemma MoveAllIn_keeps now pq P n :
  pool_holds now pq P → ∃ pq', PoolQueue_MoveAllToActiveQueueIn now pq n = Some pq' ∧ pool_holds now pq' P.
Proof.
  intros H. unfold PoolQueue_MoveAllToActiveQueueIn. destruct (queues pq !! n) as [q|] eqn:E; [|eauto].
  destruct (pool_holds_Some _ _ _ _ _ H E) as (m & Em & Hm).
  destruct (sq_MoveAll_law (poolQueuePodPriorityComp pq n) now q m Hm) as (q' & -> & Hq'). simpl. eexists. split; [done|].
  rewrite <-(insert_id P n m Em). by apply pool_holds_set.
Qed.

Lemma getPriorityQueue_lookup pq name q n : getPriorityQueue pq name = inr (q, n) → queues pq !! n = Some q.
Proof. unfold getPriorityQueue. repeat case_match; naive_solver. Qed.

Lemma AssignedAdded_keeps now pq P p :
  pool_holds now pq P → ∃ pq', PoolQueue_AssignedPodAdded now pq p = Some pq' ∧ pool_holds now pq' P.
Proof.
  intros H. unfold PoolQueue_AssignedPodAdded. destruct (getPriorityQueue _ _) as [|[q n]] eqn:E; [eauto|].
  apply getPriorityQueue_lookup in E. destruct (pool_holds_Some _ _ _ _ _ H E) as (m & Em & Hm).
  destruct (sq_Assigned_law (poolQueuePodPriorityComp pq n) now q m p Hm) as (q' & -> & _ & Hq'). simpl. eexists. split; [done|].
  rewrite <-(insert_id P n m Em). by apply pool_holds_set.
Qed.

Lemma AssignedUpdated_keeps now pq P p :
  pool_holds now pq P → ∃ pq', PoolQueue_AssignedPodUpdated now pq p = Some pq' ∧ pool_holds now pq' P.
Proof.
  intros H. unfold PoolQueue_AssignedPodUpdated. destruct (getPriorityQueue _ _) as [|[q n]] eqn:E; [eauto|].
  apply getPriorityQueue_lookup in E. destruct (pool_holds_Some _ _ _ _ _ H E) as (m & Em & Hm).
  destruct (sq_Assigned_law (poolQueuePodPriorityComp pq n) now q m p Hm) as (q' & _ & -> & Hq'). simpl. eexists. split; [done|].
  rewrite <-(insert_id P n m Em). by apply pool_holds_set.
Qed.

Lemma find_queue_Some pq uid n q :
  find_queue pq uid = Some (n, q) → queues pq !! n = Some q ∧ ∃ p, p ∈ sq_PendingPods q ∧ pod_UID p = uid.
Proof.
  unfold find_queue. intros E. destruct (list_find _ _) as [[i e]|] eqn:El; simplify_eq/=.
  apply list_find_Some in El as (Ei & Hp & _). apply list_elem_of_lookup_2, range_elem in Ei. split; [done|].
  apply Is_true_true, existsb_exists in Hp as (p & Hp%list_elem_of_In & Ep%bool_decide_eq_true). eauto.
Qed.

(** Taking a pod out, where it was found. *)
Lemma Delete_removes now pq P p :
  pool_holds now pq P → sq_ok p →
  ∃ pq' P', PoolQueue_Delete pq p = Some (pq', None) ∧ pool_holds now pq' P' ∧
    (P' = P ∨ ∃ n m, P !! n = Some m ∧ P' = <[n := delete (pod_id p) m]> P).
Proof.
  intros H Hok. unfold PoolQueue_Delete. destruct (find_queue _ _) as [[n q]|] eqn:E; [|by eauto 10].
  apply find_queue_Some in E as [E _]. destruct (pool_holds_Some _ _ _ _ _ H E) as (m & Em & Hm).
  destruct (sq_Delete_law (poolQueuePodPriorityComp pq n) now q m p Hm Hok) as (q' & -> & Hq'). simpl.
  eexists _, _. split_and!; [done|by apply pool_holds_set|]. right. by exists n, m.
Qed.

Lemma Update_keeps_ids now pq P old p :
  pool_holds now pq P → sq_ok old → sq_ok p → pod_id old = pod_id p →
  (∀ n m id p', P !! n = Some m → m !! id = Some p' → pod_UID p' = pod_UID p → id = pod_id p) →
  ∃ pq' P', PoolQueue_Update now pq (Some old) p = Some (pq', None) ∧ pool_holds now pq' P' ∧
    (P' = P ∨ ∃ n m, P !! n = Some m ∧ is_Some (m !! pod_id p) ∧ P' = <[n := <[pod_id p := p]> m]> P).
Proof.
  intros H Hold Hok Eid Huid. unfold PoolQueue_Update. destruct (find_queue _ _) as [[n q]|] eqn:E; [|by eauto 10].
  apply find_queue_Some in E as (E & p' & Hp' & Eu). destruct (pool_holds_Some _ _ _ _ _ H E) as (m & Em & Hm).
  apply (proj2 (sq_Pending_law now q m Hm)) in Hp'. pose proof (Huid n m _ _ Em Hp' Eu) as Ei. rewrite Ei in Hp'.
  destruct (sq_Update_law (poolQueuePodPriorityComp pq n) now q m old p Hm Hold Hok Eid) as (q' & Eq & Hq').
  cbn [mbind option_bind]. rewrite Eq. simpl.
  eexists _, _. split_and!; [done|by apply pool_holds_set|]. right. exists n, m. eauto.
Qed.

(** The next pod of a pool. *)
Lemma MakeNextPodFunc_spec now pq P n pq' r :
  pool_holds now pq P → MakeNextPodFunc pq n = Some (pq', r) →
  match r with
  | PopPod p => ∃ m, P !! n = Some m ∧ m !! pod_id p = Some p ∧ pool_holds now pq' (<[n := delete (pod_id p) m]> P)
  | PopError _ => queues pq !! n = None ∧ pool_holds now pq' P
  | PopWait => pool_holds now pq' P
  end.
Proof.
  intros H. unfold MakeNextPodFunc, PoolQueue_GetQueue. destruct (queues pq !! n) as [q|] eqn:E; [|by intros [= <- <-]].
  destruct (pool_holds_Some _ _ _ _ _ H E) as (m & Em & Hm).
  destruct (sq_Pop_law (poolQueuePodPriorityComp pq n) now q m Hm) as (q' & r' & -> & Hr). simpl. intros [= <- <-].
  destruct r'; [|done|by subst; eapply pool_holds_same]. destruct Hr as [Ep Hq']. exists m. split_and!; [done|done|].
  by apply pool_holds_set.
Qed.
End queues.

(** ** Places *)

Inductive life := Pending (poolName : string) | Scheduling | Binding | Retrying.
Abbreviation pod_name := (string * string)%type.
Abbreviation lives := (gmap pod_name life).

(** The pod that a goroutine has in hand. *)
Definition in_hand (t : goroutine) : option (pod_name * life) :=
  match t with
  | GStart _ | GLoop _ _ => None
  | GSchedule _ pod | GUnfit _ pod _ | GFits _ pod _ => Some (pod_id pod, Scheduling)
  | GBind _ pod _ _ => Some (pod_id pod, Binding)
  | GRetry _ _ podID _ _ _ => Some (podID, Retrying)
  end.

Definition queued (P : gmap string pods_of) (A : lives) : Prop :=
  ∀ id n, A !! id = Some (Pending n) ↔ ∃ m, P !! n = Some m ∧ is_Some (m !! id).
Record handled (l : list goroutine) (A : lives) : Prop := {
  ha_once : NoDup (omap in_hand l).*1;
  ha_life id x : (∀ n, x ≠ Pending n) → A !! id = Some x ↔ (id, x) ∈ omap in_hand l
}.

Lemma in_hand_flying t id x : in_hand t = Some (id, x) → ∀ n, x ≠ Pending n.
Proof. destruct t; simpl; intros [=]; by subst. Qed.

Lemma handled_snoc_idle l A t : handled l A → in_hand t = None → handled (l ++ [t]) A.
Proof. intros [Hn Hl] Et. split; [|intros id x Hx]; rewrite omap_app; simpl; rewrite Et, app_nil_r; [done|by apply Hl]. Qed.

Lemma handled_snoc l A t id x :
  handled l A → in_hand t = Some (id, x) → A !! id = None → handled (l ++ [t]) (<[id := x]> A).
Proof.
  intros [Hn Hl] Et Hid. pose proof (in_hand_flying t id x Et) as Hx. split.
  - rewrite omap_app. simpl. rewrite Et, fmap_app. simpl. apply NoDup_app. split_and!; [done| |apply NoDup_singleton].
    intros id' Hin ->%list_elem_of_singleton. apply list_elem_of_fmap in Hin as ([id' x'] & -> & Hin).
    pose proof Hin as Hin'. apply list_elem_of_omap in Hin' as (t' & _ & Et'). apply Hl in Hin; [simpl in *; congruence|].
    by eapply in_hand_flying.
  - intros id' x' Hx'. rewrite omap_app. simpl. rewrite Et, elem_of_app, list_elem_of_singleton.
    rewrite lookup_insert. case_decide as E.
    + subst. split; [intros [= ->]; by right|]. intros [Hin|?]; [|by simplify_eq]. apply Hl in Hin; [congruence|done].
    + rewrite Hl by done. split; [by left|]. intros [?|?]; [done|by simplify_eq].
Qed.

Lemma handled_take_idle l A i t : handled l A → l !! i = Some t → in_hand t = None → handled (delete i l) A.
Proof.
  intros [Hn Hl] Ei Et. assert (omap in_hand (delete i l) = omap in_hand l) as E.
  { rewrite <-(take_drop_middle l i t Ei) at 2. rewrite delete_take_drop, !omap_app. simpl. by rewrite Et. }
  split; by rewrite E.
Qed.

Lemma handled_take l A i t id x :
  handled l A → l !! i = Some t → in_hand t = Some (id, x) → A !! id = Some x ∧ handled (delete i l) (delete id A).
Proof.
  intros [Hn Hl] Ei Et. pose proof (in_hand_flying t id x Et) as Hx.
  assert (omap in_hand l ≡ₚ (id, x) :: omap in_hand (delete i l)) as E.
  { rewrite <-(take_drop_middle l i t Ei) at 1. rewrite delete_take_drop, !omap_app. simpl. rewrite Et.
    by rewrite Permutation_middle. }
  assert (A !! id = Some x) as Eid by (apply Hl; [done|]; rewrite E; left). split; [done|].
  rewrite E in Hn. simpl in Hn. apply NoDup_cons in Hn as [Hout Hn]. split; [done|].
  intros id' x' Hx'. rewrite lookup_delete. case_decide as Ed.
  - subst. split; [done|]. intros Hin. destruct Hout. apply list_elem_of_fmap. by exists (id', x').
  - rewrite Hl by done. rewrite E, elem_of_cons. split; [intros [?|?]; [by simplify_eq|done]|by right].
Qed.

(** A change that is about pending pods only. *)
Lemma handled_pending l A A' :
  handled l A → (∀ id x, (∀ n, x ≠ Pending n) → A' !! id = Some x ↔ A !! id = Some x) → handled l A'.
Proof. intros [Hn Hl] HA. split; [done|]. intros id x Hx. rewrite HA by done. by apply Hl. Qed.

Lemma queued_flying P A id x : queued P A → A !! id = None → (∀ n, x ≠ Pending n) → queued P (<[id := x]> A).
Proof.
  intros H E Hx id' n. rewrite lookup_insert. case_decide as Ed; [|apply H]. subst. split; [congruence|]. intros Hex%H. congruence.
Qed.
Lemma queued_landed P A id x : queued P A → A !! id = Some x → (∀ n, x ≠ Pending n) → queued P (delete id A).
Proof.
  intros H E Hx id' n. rewrite lookup_delete. case_decide as Ed; [|apply H]. subst. split; [congruence|]. intros Hex%H. congruence.
Qed.

(** A pod enters or leaves a queue. *)
Lemma queued_insert P A n m id p :
  queued P A → P !! n = Some m → A !! id = None → queued (<[n := <[id := p]> m]> P) (<[id := Pending n]> A).
Proof.
  intros H Em E id' n'. rewrite !lookup_insert. case_decide as Ed; case_decide as En; subst.
  - split; [intros _|by intros _]. eexists. split; [done|]. by rewrite lookup_insert_eq.
  - split; [intros ?; by simplify_eq|]. intros Hex. apply H in Hex. congruence.
  - rewrite (H id' n'). split; intros (m' & Em' & Hm'); simplify_eq.
    + eexists. split; [done|]. by rewrite lookup_insert_ne.
    + rewrite lookup_insert_ne in Hm' by done. eauto.
  - apply H.
Qed.
Lemma queued_delete P A n m id :
  queued P A → P !! n = Some m → A !! id = Some (Pending n) → queued (<[n := delete id m]> P) (delete id A).
Proof.
  intros H Em E id' n'. rewrite lookup_insert, lookup_delete. case_decide as Ed; case_decide as En; subst.
  - split; [done|]. intros (m' & [= <-] & Hm'). rewrite lookup_delete_eq in Hm'. by destruct Hm'.
  - split; [done|]. intros Hex. apply H in Hex. congruence.
  - rewrite (H id' n'). split; intros (m' & Em' & Hm'); simplify_eq.
    + eexists. split; [done|]. by rewrite lookup_delete_ne.
    + rewrite lookup_delete_ne in Hm' by done. eauto.
  - apply H.
Qed.
(** A pod is replaced by another version. *)
Lemma queued_replace P A n m id p :
  queued P A → P !! n = Some m → is_Some (m !! id) → queued (<[n := <[id := p]> m]> P) A.
Proof.
  intros H Em Hid id' n'. rewrite (H id' n'), lookup_insert. case_decide as En; [|done]. subst. split.
  - intros (m' & Em' & Hm'). simplify_eq. eexists. split; [done|]. rewrite lookup_insert. by case_decide.
  - intros (m' & [= <-] & Hm'). exists m. split; [done|]. rewrite lookup_insert in Hm'. by case_decide; subst.
Qed.

(** ** The arrows *)

Section life_cycle.
Context {K8s : K8sLib} {Range : MapRange} {Sort : GoSort} {Errs : ErrorsLib} {Api : ApiErrors} {Pu : PodUtil}.
Context {M PM Q : Type} {Pm : PredicateMetadata M} {SQ : SchedulingQueue Q}.
Abbreviation Scheduler := (@Scheduler M PM Q).
Implicit Types (s : Scheduler) (w : World) (id : pod_name) (A : lives) (P : gmap string pods_of).

(** The queue that a goroutine is going to use does not exist. *)
Definition without_queue w s (t : goroutine) : Prop :=
  match t with
  | GStart _ | GLoop _ _ => False
  | GSchedule n _ | GUnfit n _ _ | GFits n _ _ | GBind n _ _ _ => queues (sc_queue s) !! n = None
  | GRetry n ptr podID _ needBorrow _ =>
      ∃ pod n', w_GetPod w podID.1 podID.2 = inr pod ∧ borrowPoolName s n pod needBorrow = Some n' ∧
        (n' = n ∧ queue_at s n ptr = None ∨ n' ≠ n ∧ queues (sc_queue s) !! n' = None)
  end.

(** The informer reports that a pod came or went. *)
Definition reports_new (e : event) id : Prop :=
  ∃ pod, pod_id pod = id ∧ (e = EvAdd HUnscheduled (OPod pod) ∨ ∃ old, e = EvUpdate HUnscheduled old (OPod pod)).
Definition reports_gone (e : event) id : Prop :=
  ∃ pod o, pod_id pod = id ∧ deleted_object o = OPod pod ∧ (e = EvDelete HUnscheduled o ∨ ∃ new, e = EvUpdate HUnscheduled o new).

(** Why a pod may leave the scheduler. *)
Inductive leaves w s (e : event) id : life → Prop :=
| lv_deleted n : reports_gone e id → leaves w s e id (Pending n)
| lv_skipped n pod t : pod_id pod = id → DeletionTimestamp (pod_Meta pod) = Some t → leaves w s e id (Pending n)
| lv_bound b pod : (b_Namespace b, b_Name b) = id → getBinderFunc (w_Bind w) (gs_extenders (sc_algorithm s)) pod b = None →
    leaves w s e id Binding
| lv_not_found err : w_GetPod w id.1 id.2 = inl err → IsNotFound err = true → leaves w s e id Retrying
| lv_assigned pod : w_GetPod w id.1 id.2 = inr pod → pod_NodeName pod ≠ EmptyString → leaves w s e id Retrying
| lv_abandoned : w_podPriorityEnabled w = false → w_TryBackoffAndWait w = false → leaves w s e id Retrying
| lv_lost x t : t ∈ sc_goroutines s → in_hand t = Some (id, x) → without_queue w s t → leaves w s e id x.

(** What a step may do to a pod. *)
Inductive life_step w s (e : event) id : option life → option life → Prop :=
| ls_stays x : life_step w s e id x x
| ls_moves n n' : life_step w s e id (Some (Pending n)) (Some (Pending n'))
| ls_new n : reports_new e id → life_step w s e id None (Some (Pending n))
| ls_popped n : life_step w s e id (Some (Pending n)) (Some Scheduling)
| ls_assumed : life_step w s e id (Some Scheduling) (Some Binding)
| ls_failed x : x = Scheduling ∨ x = Binding → life_step w s e id (Some x) (Some Retrying)
| ls_requeued n : life_step w s e id (Some Retrying) (Some (Pending n))
| ls_leaves x : leaves w s e id x → life_step w s e id (Some x) None.

(** ** The relation *)

Context {Laws : SchedulingQueueLaws Q}.

Record tracks (now : Time) s A P : Prop := {
  tr_pool : pool_holds now (sc_queue s) P;
  tr_default : is_Some (P !! DefaultPoolName);
  tr_queued : queued P A;
  tr_handled : handled (sc_goroutines s) A
}.

Lemma tracks_frame now s s' A P :
  tracks now s A P → sc_queue s' = sc_queue s → sc_goroutines s' = sc_goroutines s → tracks now s' A P.
Proof. intros [] E1 E2. split; by rewrite ?E1, ?E2. Qed.

Lemma tracks_mono now now' s A P : now <= now' → tracks now s A P → tracks now' s A P.
Proof. intros Hle []. split; try done. by eapply pool_holds_mono. Qed.

(** The queues hold the same pods. *)
Lemma tracks_queue now s A P q : tracks now s A P → pool_holds now q P → tracks now (with_queue s q) A P.
Proof. intros [] Hq. by split. Qed.

Lemma tracks_spawn_idle now s A P t : tracks now s A P → in_hand t = None → tracks now (spawn s t) A P.
Proof. intros [] Et. split; try done. by apply handled_snoc_idle. Qed.

Lemma tracks_spawn now s A P t id x :
  tracks now s A P → in_hand t = Some (id, x) → A !! id = None → tracks now (spawn s t) (<[id := x]> A) P.
Proof.
  intros [] Et Hid. split; try done; [|by apply handled_snoc]. apply queued_flying; [done..|]. by eapply in_hand_flying.
Qed.

Lemma tracks_take_idle now s A P i t :
  tracks now s A P → sc_goroutines s !! i = Some t → in_hand t = None →
  tracks now (with_goroutines s (delete i (sc_goroutines s))) A P.
Proof. intros [] Ei Et. split; try done. by eapply handled_take_idle. Qed.

Lemma tracks_take now s A P i t id x :
  tracks now s A P → sc_goroutines s !! i = Some t → in_hand t = Some (id, x) →
  A !! id = Some x ∧ tracks now (with_goroutines s (delete i (sc_goroutines s))) (delete id A) P.
Proof.
  intros [] Ei Et. destruct (handled_take _ A _ _ _ _ tr_handled0 Ei Et) as [Hid Hh]. split; [done|].
  split; try done. eapply queued_landed; [done..|]. by eapply in_hand_flying.
Qed.

(** A pod enters the queue of a pool. *)
Lemma tracks_insert now s A P n m p q :
  tracks now s A P → P !! n = Some m → A !! pod_id p = None → sq_holds now q (<[pod_id p := p]> m) →
  tracks now (with_queue s (set_queue (sc_queue s) n q)) (<[pod_id p := Pending n]> A) (<[n := <[pod_id p := p]> m]> P).
Proof.
  intros [] Em Hid Hq. split; simpl.
  - by apply pool_holds_set.
  - rewrite lookup_insert. by case_decide.
  - by apply queued_insert.
  - eapply handled_pending; [done|]. intros id' x Hx. rewrite lookup_insert. case_decide; [|done]. subst.
    split; [|congruence]. intros [= <-]. by destruct (Hx n).
Qed.

(** A pod leaves it. *)
Lemma tracks_remove now s A P n m id q :
  tracks now s A P → P !! n = Some m → is_Some (m !! id) → pool_holds now q (<[n := delete id m]> P) →
  A !! id = Some (Pending n) ∧ tracks now (with_queue s q) (delete id A) (<[n := delete id m]> P).
Proof.
  intros [] Em Hid Hq. assert (A !! id = Some (Pending n)) as E by (apply tr_queued0; eauto). split; [done|].
  split; simpl; [done| |by apply queued_delete|].
  - rewrite lookup_insert. by case_decide.
  - eapply handled_pending; [done|]. intros id' x Hx. rewrite lookup_delete. case_decide; [|done]. subst.
    split; [done|]. intros E'. rewrite E in E'. injection E' as <-. by destruct (Hx n).
Qed.

(** The pod of a goroutine is in no queue. *)
Lemma tracks_absent now s A P n m id : tracks now s A P → A !! id = None → P !! n = Some m → m !! id = None.
Proof.
  intros [] Hid Em. destruct (m !! id) eqn:E; [|done]. assert (A !! id = Some (Pending n)) by (apply tr_queued0; eauto).
  congruence.
Qed.

Lemma tracks_no_queue now s A P n : tracks now s A P → queues (sc_queue s) !! n = None ↔ P !! n = None.
Proof. intros []. by eapply pool_holds_None. Qed.

(** ** Places, concretely *)

Definition place s id (x : life) : Prop :=
  match x with
  | Pending n => ∃ q p, queues (sc_queue s) !! n = Some q ∧ p ∈ sq_PendingPods q ∧ pod_id p = id
  | _ => (id, x) ∈ omap in_hand (sc_goroutines s)
  end.

Lemma tracks_place now s A P id x : tracks now s A P → A !! id = Some x ↔ place s id x.
Proof.
  intros [Hp Hd Hq [_ Hl]]. destruct x as [n| | |]; [|by apply Hl..]. rewrite (Hq id n). simpl. split.
  - intros (m & Em & p & Ep). destruct (pool_holds_Some_r _ _ _ _ _ Hp Em) as (q & Eq & Hm). exists q, p.
    destruct (sq_id _ _ _ _ _ Hm Ep) as [-> _]. split_and!; [done| |done]. by apply (sq_Pending_law _ _ _ Hm).
  - intros (q & p & Eq & Hin & <-). destruct (pool_holds_Some _ _ _ _ _ Hp Eq) as (m & Em & Hm). exists m. split; [done|].
    exists p. by apply (sq_Pending_law _ _ _ Hm).
Qed.
Lemma tracks_None now s A P id : tracks now s A P → A !! id = None ↔ ∀ x, ¬ place s id x.
Proof.
  intros Ht. setoid_rewrite <-(tracks_place now s A P id) at 1; [|done]. destruct (A !! id); split; try done; naive_solver.
Qed.

(** ** The pieces of a step *)

Lemma error_node_frame w s err s' :
  error_node w s err = Some s' → sc_queue s' = sc_queue s ∧ sc_goroutines s' = sc_goroutines s ∧ sc_removals s' = sc_removals s.
Proof.
  unfold error_node. repeat case_match; try by intros [= <-].
  destruct (Cache_RemoveNode _ _) as [[c ?]|]; [|done]. by intros [= <-].
Qed.

(** A failure leaves the pod to a retry, unless the queue is gone. *)
Lemma record_spec w now s n pod err reason nb s' A P :
  recordSchedulingFailure w s n pod err reason nb = Some s' → tracks now s A P → A !! pod_id pod = None →
  sc_queue s' = sc_queue s ∧
  (queues (sc_queue s) !! n = None ∧ tracks now s' A P ∨ tracks now s' (<[pod_id pod := Retrying]> A) P).
Proof.
  unfold recordSchedulingFailure, MakeDefaultErrorFunc. intros E Ht Hid.
  destruct (error_node w s err) as [s1|] eqn:E1; [|done]. apply error_node_frame in E1 as (Eq & Eg & _).
  cbn [mbind option_bind] in E. unfold PoolQueue_GetQueue in E. rewrite Eq in E.
  assert (tracks now s1 A P) as Ht1 by by eapply tracks_frame.
  destruct (queues (sc_queue s) !! n) as [q|] eqn:En; cbn [mbind option_bind] in E; injection E as <-;
    unfold podConditionUpdater_Update; destruct (UpdatePodCondition _ _) as [st []]; (split; [exact Eq|]).
  1,2: right; eapply tracks_frame; [eapply (tracks_spawn now s1 A P (GRetry n _ (pod_id pod) _ nb None)); done|done|done].
  all: left; split; [done|]; by eapply tracks_frame.
Qed.

Lemma delete_victims_frame w l : ∀ s, let s' := (delete_victims w s l).1 in
  sc_queue s' = sc_queue s ∧ sc_goroutines s' = sc_goroutines s.
Proof.
  induction l as [|p l IH]; intros s; [done|]. simpl. destruct (w_DeletePod w p); [done|]. apply (IH (call s _)).
Qed.
Lemma clear_nominated_frame w l : ∀ s, let s' := clear_nominated w s l in
  sc_queue s' = sc_queue s ∧ sc_goroutines s' = sc_goroutines s.
Proof.
  induction l as [|p l IH]; intros s; [done|]. simpl. destruct (IH (RemoveNominatedNodeName w s p).1) as [E1 E2].
  unfold clear_nominated in *. rewrite E1, E2. unfold RemoveNominatedNodeName. by case_match.
Qed.

(** Preemption nominates, deletes victims and clears nominations, and moves no pod. *)
Lemma preempt_spec w now s n pod err s' name err' nb A P :
  preempt w s n pod err = Some (s', name, err', nb) → tracks now s A P → tracks now s' A P.
Proof.
  unfold preempt, PoolQueue_GetQueue. intros E Ht. destruct (GetUpdatedPod w pod) as [e|p]; [by simplify_eq|].
  destruct (Preempt _ _ _ _ _ _) as [r|]; [|done]. cbn [mbind option_bind] in E.
  destruct (pr_Err r); [by simplify_eq|]. destruct (pr_Node r) as [node|].
  2:{ injection E as <- _ _ _. destruct (clear_nominated_frame w (pr_Nominated r) s) as [E1 E2]. by eapply tracks_frame. }
  destruct (queues (sc_queue s) !! n) as [q|] eqn:En; [|by simplify_eq].
  set (s1 := with_queue s (set_queue (sc_queue s) n (sq_UpdateNominatedPodForNode q p (node_Name node)))) in *.
  assert (tracks now s1 A P) as Ht1.
  { apply tracks_queue; [done|]. eapply pool_holds_same; [apply Ht|done|]. intros m Hm. by apply sq_Nominate_law. }
  cbn [SetNominatedNodeName] in E. set (s2 := call s1 _) in *.
  assert (tracks now s2 A P) as Ht2 by by eapply tracks_frame.
  destruct (w_UpdateStatus w _) as [e|].
  - destruct (queues (sc_queue s2) !! n) as [q2|] eqn:En2; [|by simplify_eq]. injection E as <- _ _ _.
    apply tracks_queue; [done|]. eapply pool_holds_same; [apply Ht2|done|]. intros m Hm. by apply sq_Unnominate_law.
  - pose proof (delete_victims_frame w (pr_Victims r) s2) as Hv.
    destruct (delete_victims w s2 (pr_Victims r)) as [s3 [e|]]; cbn in Hv; destruct Hv as [E1 E2].
    + injection E as <- _ _ _. by eapply tracks_frame.
    + injection E as <- _ _ _. destruct (clear_nominated_frame w (pr_Nominated r) s3) as [E3 E4].
      eapply tracks_frame; [exact Ht2|exact (eq_trans E3 E1)|exact (eq_trans E4 E2)].
Qed.

(** Pending pods change their queues. *)
Definition only_moves A A' : Prop :=
  ∀ id, A' !! id = A !! id ∨ ∃ n n', A !! id = Some (Pending n) ∧ A' !! id = Some (Pending n').

Lemma moves_handled l A A' : only_moves A A' → handled l A → handled l A'.
Proof.
  intros Hm Hh. eapply handled_pending; [done|]. intros id x Hx.
  destruct (Hm id) as [->|(n & n' & -> & ->)]; [done|]. split; intros [= <-]; naive_solver.
Qed.

Definition home P (n : string) (m : pods_of) (id : pod_name) (x : life) : option life :=
  Some (match x with
        | Pending k => if decide (k = n) then match m !! id with Some p => Pending (pool_of P p) | None => x end else x
        | _ => x
        end).

Lemma MoveAllBorrowing_moves now s n q A P :
  MoveAllBorrowingPodsToSelfQueue now (sc_queue s) n = Some q → tracks now s A P →
  ∃ A' P', tracks now (with_queue s q) A' P' ∧ only_moves A A' ∧ dom P' = dom P.
Proof.
  intros E Ht. destruct Ht as [Hp Hd Hq Hh]. destruct (P !! n) as [m|] eqn:Em.
  2:{ unfold MoveAllBorrowingPodsToSelfQueue in E. rewrite (proj2 (pool_holds_None now (sc_queue s) P n Hp) Em) in E.
      injection E as <-. exists A, P. split_and!; [by split| |done]. intros id. by left. }
  destruct (MoveAllBorrowing_home now (sc_queue s) P n m Hp Hd Em) as (q' & P' & E' & Hp' & Edom & En & Hhome & Hother).
  rewrite E in E'. injection E' as <-. exists (map_imap (home P n m) A), P'.
  assert (only_moves A (map_imap (home P n m) A)) as Hmoves.
  { intros id. rewrite map_lookup_imap. unfold home. destruct (A !! id) as [[k| | |]|] eqn:EA; simpl; try by left.
    destruct (decide (k = n)) as [->|]; [|by left]. destruct (m !! id); [|by left]. right. eauto. }
  split; [|by split]. split; simpl; [done| | |by eapply moves_handled].
  - rewrite <-elem_of_dom, Edom. by apply elem_of_dom.
  - intros id k. rewrite map_lookup_imap. unfold home. split.
    + destruct (A !! id) as [[k'| | |]|] eqn:EA; simpl; intros [= Ek]; try done.
      apply Hq in EA as (m' & Em' & p & Ep). destruct (decide (k' = n)) as [->|Hne].
      * rewrite Em in Em'. injection Em' as <-. rewrite Ep in Ek. injection Ek as <-.
        destruct (decide (pool_of P p = n)) as [Hn|Hn]; [|by apply Hhome]. rewrite Hn, En. eexists. split; [done|].
        exists p. by apply map_lookup_filter_Some.
      * injection Ek as <-. destruct (Hother k' m' Hne Em') as (t' & Et' & Hsub & _). exists t'. split; [done|].
        exists p. by eapply lookup_weaken.
    + intros (m' & Em' & p & Ep). destruct (decide (k = n)) as [->|Hne].
      * rewrite En in Em'. injection Em' as <-. apply map_lookup_filter_Some in Ep as [Ep Hn]. simpl in Hn.
        assert (A !! id = Some (Pending n)) as -> by (apply Hq; eauto). simpl. rewrite decide_True, Ep by done. by rewrite Hn.
      * assert (is_Some (P !! k)) as [t Et] by (rewrite <-elem_of_dom, <-Edom; by apply elem_of_dom).
        destruct (Hother k t Hne Et) as (t' & Et' & _ & Hfrom). rewrite Em' in Et'. injection Et' as <-.
        destruct (Hfrom id p Ep) as [Ep'|[Ep' Hn]].
        -- assert (A !! id = Some (Pending k)) as -> by (apply Hq; eauto). simpl. by rewrite decide_False.
        -- assert (A !! id = Some (Pending n)) as -> by (apply Hq; eauto). simpl. rewrite decide_True, Ep' by done. by rewrite Hn.
Qed.

Lemma only_moves_refl A : only_moves A A.
Proof. intros id. by left. Qed.
Lemma only_moves_None A A' id : only_moves A A' → A !! id = None → A' !! id = None.
Proof. intros Hm E. destruct (Hm id) as [->|(? & ? & ? & _)]; congruence. Qed.

(** The algorithm found no node: nominations and moves, then a retry. *)
Lemma unfit_spec w s n pod err s' A P :
  scheduleOne_unfit w s n pod err = Some s' → tracks (w_now w) s A P → A !! pod_id pod = None →
  ∃ A1 A' P', only_moves A A1 ∧ tracks (w_now w) s' A' P' ∧
    (A' = A1 ∧ queues (sc_queue s) !! n = None ∨ A' = <[pod_id pod := Retrying]> A1).
Proof.
  unfold scheduleOne_unfit. intros E Ht Hid.
  match type of E with (?x ≫= _) = _ => destruct x as [[s1 nb]|] eqn:E1 end; cbn [mbind option_bind] in E; [|done].
  assert (∃ A1 P1, only_moves A A1 ∧ tracks (w_now w) s1 A1 P1 ∧
    (queues (sc_queue s1) !! n = None → queues (sc_queue s) !! n = None)) as (A1 & P1 & Hm & Ht1 & Hnone).
  { assert (∀ b, Some (s, b) = Some (s1, nb) → ∃ A1 P1, only_moves A A1 ∧ tracks (w_now w) s1 A1 P1 ∧
      (queues (sc_queue s1) !! n = None → queues (sc_queue s) !! n = None)) as Hsame.
    { intros b [= <- _]. exists A, P. split_and!; [apply only_moves_refl|done|done]. }
    destruct err; try by eapply Hsame. destruct (negb _ || _); [by eapply Hsame|].
    case_bool_decide; [|by eapply Hsame].
    match type of E1 with (?x ≫= _) = _ => destruct x as [[s2 nb2]|] eqn:E2 end; cbn [mbind option_bind] in E1; [|done].
    assert (tracks (w_now w) s2 A P) as Ht2.
    { destruct (GetPool _ _) as [|p]; [by simplify_eq|]. destruct (DisablePreemption p); [by simplify_eq|].
      destruct (preempt _ _ _ _ _) as [[[[s3 name] e3] nb3]|] eqn:E3; [|done]. cbn [mbind option_bind] in E2.
      injection E2 as <- <-. by eapply preempt_spec. }
    destruct (MoveAllBorrowingPodsToSelfQueue _ _ _) as [q|] eqn:Eq; [|done]. cbn [mbind option_bind] in E1. injection E1 as <- <-.
    destruct (MoveAllBorrowing_moves _ _ _ _ _ _ Eq Ht2) as (A1 & P1 & Ht1 & Hm & Ed). exists A1, P1. split_and!; [done|done|].
    rewrite (tracks_no_queue _ _ _ _ _ Ht), (tracks_no_queue _ _ _ _ _ Ht1), <-!not_elem_of_dom. by rewrite Ed. }
  destruct (record_spec _ _ _ _ _ _ _ _ _ _ _ E Ht1) as [_ [[Hn Ht']|Ht']]; [by eapply only_moves_None|..].
  - exists A1, A1, P1. split_and!; [done|done|]. left. auto.
  - eexists A1, _, P1. split_and!; [done|done|]. by right.
Qed.

(** The algorithm does not touch the queues. *)
Lemma findNodes_frame {T} (f : @genericScheduler M PM (PoolQueue Q) → T) ws g g' n pod nodes r : (∀ g n t, f (set_nodeTree g n t) = f g) →
  findNodesThatFit ws g n pod nodes = Some (g', r) → f g' = f g.
Proof.
  intros Hf. unfold findNodesThatFit. destruct (snapshot_of g n) as [sn|]; [|done]. cbn [mbind option_bind].
  match goal with |- (?x ≫= _) = _ → _ => destruct x as [[g1 r1]|] eqn:E1 end; [|done]. cbn [mbind option_bind].
  assert (f g1 = f g) as Eq.
  { case_bool_decide; [by simplify_eq|]. destruct (Cache_NodeTree _ _); [|done]. cbn [mbind option_bind] in E1.
    destruct (if _ <? 0 then _ else _); [|done]. cbn [mbind option_bind] in E1. destruct (run_search _ _ _ _ _ _); [|done].
    cbn [mbind option_bind] in E1. injection E1 as <- _. apply Hf. }
  destruct r1 as [e|[fi m]]; [|destruct (_ && _)]; [intros E; injection E; intros; subst; exact Eq| |intros E; injection E; intros; subst; exact Eq].
  destruct (filter_extenders _ _ _ _ _) as [[e|[l m']]|]; cbn [mbind option_bind]; [intros E; injection E; intros; subst; exact Eq| |done].
  destruct (mapM _ _); cbn [mbind option_bind]; [|done]. intros E; injection E; intros; subst; exact Eq.
Qed.
Lemma findNodes_queue ws (g g' : @genericScheduler M PM (PoolQueue Q)) n pod nodes r :
  findNodesThatFit ws g n pod nodes = Some (g', r) → gs_queue g' = gs_queue g.
Proof. apply (findNodes_frame gs_queue). intros. unfold set_nodeTree. by case_match. Qed.
Lemma Schedule_queue b ws (g g' : @genericScheduler M PM (PoolQueue Q)) n pod pvcs nodes r :
  Schedule b ws g n pod pvcs nodes = Some (g', r) → gs_queue g' = gs_queue g.
Proof.
  unfold Schedule. destruct (podPassesBasicChecks _ _ _); [by intros ?; simplify_eq|]. destruct nodes as [|l]; [by intros ?; simplify_eq|].
  case_bool_decide; [by intros ?; simplify_eq|]. destruct (Cache_UpdateNodeInfoSnapshot _ _ _) as [[c e]|]; [|done]. cbn [mbind option_bind].
  destruct e; [by intros ?; simplify_eq|]. destruct (findNodesThatFit _ _ _ _ _) as [[g1 r1]|] eqn:Ef; [|done]. cbn [mbind option_bind].
  apply findNodes_queue in Ef. simpl in Ef. destruct r1 as [e|[[|node [|node' f]] m]]; try by intros ?; simplify_eq.
  destruct (snapshot_of g1 n); [|done]. cbn [mbind option_bind]. destruct (PrioritizeNodes _ _ _ _ _ _) as [[e|l1]|]; cbn [mbind option_bind]; [by intros ?; simplify_eq| |done].
  cbn [mbind option_bind]. destruct (selectHost _ _) as [[k [e|h]]|]; cbn [mbind option_bind]; [by intros ?; simplify_eq|by intros ?; simplify_eq|done].
Qed.

(** What the API server and the volume binder promise: a pod is returned under its name, and valid;
    the binder does not rename a pod. *)
Record world_ok w : Prop := {
  wo_time : 0 <= w_now w;
  wo_get ns name p : w_GetPod w ns name = inr p → pod_id p = (ns, name) ∧ sq_ok p;
  wo_volumes p host : pod_id (w_AssumePodVolumes w p host).1 = pod_id p
}.

Definition queue_missing s (n : string) : Prop := queues (sc_queue s) !! n = None.

(** The algorithm found a host. *)
Lemma fits_spec w s n pod host s' A P :
  scheduleOne_fits w s n pod host = Some s' → world_ok w → tracks (w_now w) s A P → A !! pod_id pod = None →
  queue_missing s n ∧ tracks (w_now w) s' A P ∨
  ∃ x, (x = Retrying ∨ x = Binding) ∧ tracks (w_now w) s' (<[pod_id pod := x]> A) P.
Proof.
  unfold scheduleOne_fits, assumeVolumes. intros E Hw Ht Hid.
  pose proof (wo_volumes w Hw pod host) as Hv. destruct (w_AssumePodVolumes w pod host) as [p1 [err|allBound]]; simpl in Hv.
  all: assert (A !! pod_id p1 = None) as Hid1 by (by rewrite Hv).
  { destruct (recordSchedulingFailure _ _ _ _ _ _ _) as [s1|] eqn:E1; [|done]. cbn [mbind option_bind] in E. injection E as <-.
    destruct (record_spec _ _ _ _ _ _ _ _ _ _ _ E1 Ht Hid1) as [_ [[Hn Ht']|Ht']]; [by left|right]. rewrite Hv in Ht'. eauto. }
  cbn [mbind option_bind] in E. destruct (reserve_error _ _ _) as [err|].
  { destruct (record_spec _ _ _ _ _ _ _ _ _ _ _ E Ht Hid1) as [_ [[Hn Ht']|Ht']]; [by left|right]. rewrite Hv in Ht'. eauto. }
  unfold assume in E. destruct (AssumePod _ _) as [[c [err|]]|] eqn:Ea; cbn [mbind option_bind] in E; [| |done].
  - destruct (recordSchedulingFailure _ _ _ _ _ _ _) as [s1|] eqn:E1; [|done]. cbn [mbind option_bind] in E. injection E as <-.
    assert (tracks (w_now w) (with_cache s c) A P) as Htc by by eapply tracks_frame.
    destruct (record_spec _ _ _ _ _ _ _ _ _ _ _ E1 Htc Hid1) as [_ [[Hn Ht']|Ht']]; [by left|right].
    change (pod_id (set_NodeName p1 host)) with (pod_id p1) in Ht'. rewrite Hv in Ht'. eauto.
  - unfold PoolQueue_GetQueue in E. change (sc_queue (with_cache s c)) with (sc_queue s) in E.
    destruct (queues (sc_queue s) !! n) as [q|] eqn:En; cbn [mbind option_bind] in E; injection E as <-.
    + right. exists Binding. split; [by right|]. rewrite <-Hv.
      apply (tracks_spawn _ _ A P (GBind n (set_NodeName p1 host) host allBound)); [|done|done].
      eapply (tracks_frame _ (with_queue s _)); [|done|done].
      apply tracks_queue; [done|]. eapply pool_holds_same; [apply Ht|done|]. intros m Hm. by apply sq_Unnominate_law.
    + left. split; [done|]. by eapply tracks_frame.
Qed.

Lemma forget_frame s p s' : forget s p = Some s' → sc_queue s' = sc_queue s ∧ sc_goroutines s' = sc_goroutines s.
Proof. unfold forget. destruct (ForgetPod _ _) as [[c e]|]; [|done]. by intros [= <-]. Qed.

(** The pod is forgotten and left to a retry. *)
Lemma forget_record w now s s1 n pod err reason s2 s' A P :
  forget s1 pod = Some s2 → recordSchedulingFailure w s2 n pod err reason false = Some s' →
  sc_queue s1 = sc_queue s → sc_goroutines s1 = sc_goroutines s → tracks now s A P → A !! pod_id pod = None →
  queue_missing s n ∧ tracks now s' A P ∨ tracks now s' (<[pod_id pod := Retrying]> A) P.
Proof.
  intros E1 E2 Eq Eg Ht Hid. apply forget_frame in E1 as [Eq' Eg'].
  assert (tracks now s2 A P) as Ht2 by (eapply tracks_frame; [done|congruence..]).
  destruct (record_spec _ _ _ _ _ _ _ _ _ _ _ E2 Ht2 Hid) as [_ [[Hn Ht']|Ht']]; [left|by right].
  split; [|done]. unfold queue_missing. by rewrite <-Eq, <-Eq'.
Qed.

(** The binding goroutine. *)
Lemma bind_spec w s n pod host allBound s' A P :
  scheduleOne_bind w s n pod host allBound = Some s' → tracks (w_now w) s A P → A !! pod_id pod = None →
  tracks (w_now w) s' A P ∧
    (queue_missing s n ∨
     getBinderFunc (w_Bind w) (gs_extenders (sc_algorithm s)) pod
       (MkBinding (pod_Namespace pod) (pod_Name pod) (pod_UID pod) host) = None) ∨
  tracks (w_now w) s' (<[pod_id pod := Retrying]> A) P.
Proof.
  unfold scheduleOne_bind. intros E Ht Hid.
  assert (∀ (B : Prop) s1 err reason s2, forget s1 pod = Some s2 → recordSchedulingFailure w s2 n pod err reason false = Some s' →
    sc_queue s1 = sc_queue s → sc_goroutines s1 = sc_goroutines s →
    tracks (w_now w) s' A P ∧ (queue_missing s n ∨ B) ∨ tracks (w_now w) s' (<[pod_id pod := Retrying]> A) P) as Hfail.
  { intros B s1 err reason s2 E1 E2 Eq Eg. destruct (forget_record _ _ _ _ _ _ _ _ _ _ _ _ E1 E2 Eq Eg Ht Hid) as [[Hn Ht']|Ht'];
      [left; split; [done|left; exact Hn]|by right]. }
  assert (∀ r, (if negb allBound then bindVolumes w s n pod else Some (s, None)) = Some r →
    r = (s, None) ∨ ∃ s2 err reason, r.2 ≠ None ∧ forget s pod = Some s2 ∧
      recordSchedulingFailure w s2 n pod err reason false = Some r.1) as Hvol.
  { intros r. destruct (negb allBound); [|intros [= <-]; by left]. unfold bindVolumes.
    destruct (w_BindPodVolumes w pod) as [err|]; [|intros [= <-]; by left].
    destruct (forget s pod) as [s2|]; [|done]. cbn [mbind option_bind].
    destruct (recordSchedulingFailure _ _ _ _ _ _ _) as [s3|] eqn:E3; [|done]. intros [= <-]. right. eauto 10. }
  destruct (if negb allBound then _ else _) as [r|] eqn:Er; [|done]. cbn [mbind option_bind] in E.
  destruct (Hvol r eq_refl) as [->|(s2 & err & reason & Hr & E1 & E2)].
  2:{ destruct r as [s3 [e|]]; [|done]. injection E as <-. by eapply Hfail. }
  destruct (prebind_error _ _ _) as [[err reason]|].
  { destruct (forget s pod) as [s2|] eqn:E1; [|done]. cbn [mbind option_bind] in E. by eapply Hfail. }
  unfold bind in E. set (b := MkBinding _ _ _ _) in *.
  change (gs_extenders (sc_algorithm (call s (CallBind b)))) with (gs_extenders (sc_algorithm s)) in E.
  destruct (getBinderFunc _ _ _ b) as [err|] eqn:Eb; cbn [mbind option_bind] in E.
  - destruct (forget _ pod) as [s2|] eqn:E1; [|done]. cbn [mbind option_bind] in E.
    destruct (recordSchedulingFailure _ _ _ _ _ _ _) as [s3|] eqn:E3; [|done]. cbn [mbind option_bind] in E. injection E as <-.
    by eapply Hfail.
  - injection E as <-. left. split; [by eapply tracks_frame|by right].
Qed.

(** One round of a retry. *)
Lemma retry_spec w s n ptr id cycle nb d s' A P :
  retry w s n ptr id cycle nb d = Some s' → world_ok w → tracks (w_now w) s A P → A !! id = None →
  tracks (w_now w) s' A P ∧
    ((∃ err, w_GetPod w id.1 id.2 = inl err ∧ IsNotFound err = true) ∨
     (∃ pod, w_GetPod w id.1 id.2 = inr pod ∧ pod_NodeName pod ≠ EmptyString) ∨
     without_queue w s (GRetry n ptr id cycle nb (Some d))) ∨
  tracks (w_now w) s' (<[id := Retrying]> A) P ∨
  ∃ n' P', tracks (w_now w) s' (<[id := Pending n']> A) P'.
Proof.
  unfold retry. intros E Hw Ht Hid. destruct (w_GetPod w id.1 id.2) as [err|p] eqn:Eg.
  - destruct (IsNotFound err) eqn:Ee; injection E as <-; [left; eauto 10|right; left].
    by apply (tracks_spawn _ _ _ _ (GRetry n ptr id cycle nb _)).
  - destruct (wo_get w Hw _ _ _ Eg) as [Eid Hok]. rewrite <-surjective_pairing in Eid.
    case_bool_decide as Ha; [|injection E as <-; left; eauto 10].
    destruct (borrowPoolName s n p nb) as [n'|] eqn:Eb; [|done]. cbn [mbind option_bind] in E. unfold return_pod in E.
    case_bool_decide as En.
    + subst n'. destruct (queue_at s n ptr) as [q|] eqn:Eq; [|injection E as <-; left; split; [done|do 2 right; exists p, n; auto 10]].
      assert (queues (sc_queue s) !! n = Some q) as Eq' by (unfold queue_at in Eq; by case_bool_decide).
      destruct (pool_holds_Some _ _ _ _ _ (tr_pool _ _ _ _ Ht) Eq') as (m & Em & Hm).
      destruct (sq_AddUnschedulable_law (poolQueuePodPriorityComp (sc_queue s) n) (w_now w) q m p cycle Hm Hok) as (q' & Eu & Hq').
      { rewrite Eid. by eapply tracks_absent. }
      rewrite Eu in E. cbn [mbind option_bind] in E. injection E as <-. right; right. rewrite <-Eid in *.
      eexists n, _. by apply tracks_insert.
    + unfold PoolQueue_GetQueue in E. destruct (queues (sc_queue s) !! n') as [q|] eqn:Eq;
        [|injection E as <-; left; split; [done|do 2 right; exists p, n'; auto 10]].
      destruct (pool_holds_Some _ _ _ _ _ (tr_pool _ _ _ _ Ht) Eq) as (m & Em & Hm).
      destruct (sq_AddIfNotPresent_law (poolQueuePodPriorityComp (sc_queue s) n') (w_now w) q m p Hm Hok) as (q' & Eu & Hq').
      rewrite Eu in E. cbn [mbind option_bind] in E. injection E as <-. right; right. rewrite <-Eid in *.
      eexists n', _. apply tracks_insert; [done|done|done|].
      rewrite insert_union_singleton_r; [done|]. by eapply tracks_absent.
Qed.

(** ** Goroutines *)

(** One pod changes its place, others at most their queue. *)
Lemma life_one w s e A A1 A' id0 x :
  A !! id0 = Some x → only_moves (delete id0 A) A1 → (∀ id, id ≠ id0 → A' !! id = A1 !! id) →
  life_step w s e id0 (Some x) (A' !! id0) → ∀ id, life_step w s e id (A !! id) (A' !! id).
Proof.
  intros E Hm Ho H id. destruct (decide (id = id0)) as [->|Hne]; [by rewrite E|]. rewrite Ho by done.
  destruct (Hm id) as [->|(n & n' & E1 & ->)]; [rewrite lookup_delete_ne by done; constructor|].
  rewrite lookup_delete_ne in E1 by done. rewrite E1. constructor.
Qed.
Lemma life_insert w s e A A1 id0 x y :
  A !! id0 = Some x → only_moves (delete id0 A) A1 → life_step w s e id0 (Some x) (Some y) →
  ∀ id, life_step w s e id (A !! id) (<[id0 := y]> A1 !! id).
Proof.
  intros E Hm H. eapply life_one; [done|done|intros; by rewrite lookup_insert_ne|by rewrite lookup_insert_eq].
Qed.
Lemma life_delete w s e A A1 id0 x :
  A !! id0 = Some x → only_moves (delete id0 A) A1 → life_step w s e id0 (Some x) None →
  ∀ id, life_step w s e id (A !! id) (A1 !! id).
Proof.
  intros E Hm H. eapply life_one; [done|done|done|].
  rewrite (only_moves_None _ _ id0 Hm); [done|by rewrite lookup_delete_eq].
Qed.
Lemma life_same w s e A : ∀ id, life_step w s e id (A !! id) (A !! id).
Proof. intros id. constructor. Qed.

(** The loop of a pool takes a pod. *)
Lemma next_spec w s n wait s' A P e :
  scheduleOnePool_next w s n wait = Some s' → tracks (w_now w) s A P →
  ∃ A' P', tracks (w_now w) s' A' P' ∧ ∀ s0 id, life_step w s0 e id (A !! id) (A' !! id).
Proof.
  unfold scheduleOnePool_next. intros E Ht.
  assert (∀ s1 l, tracks (w_now w) s1 A P → Some (spawn s1 (GLoop n l)) = Some s' →
    ∃ A' P', tracks (w_now w) s' A' P' ∧ ∀ s0 id, life_step w s0 e id (A !! id) (A' !! id)) as Hloop.
  { intros s1 l Hs1 [= <-]. exists A, P. split; [by apply tracks_spawn_idle|]. intros. apply life_same. }
  assert (∀ s1, tracks (w_now w) s1 A P → Some s1 = Some s' →
    ∃ A' P', tracks (w_now w) s' A' P' ∧ ∀ s0 id, life_step w s0 e id (A !! id) (A' !! id)) as Hend.
  { intros s1 Hs1 [= <-]. exists A, P. split; [done|]. intros. apply life_same. }
  destruct (w_stopped w); [by eapply Hend|]. case_match; [by eapply Hend|].
  destruct (MakeNextPodFunc (sc_queue s) n) as [[q r]|] eqn:En; [|done]. cbn [mbind option_bind] in E.
  pose proof (MakeNextPodFunc_spec _ _ _ _ _ _ (tr_pool _ _ _ _ Ht) En) as Hr. destruct r as [p|err|].
  - destruct Hr as (m & Em & Ep & Hq).
    destruct (tracks_remove _ _ _ _ _ _ (pod_id p) q Ht Em ltac:(eauto) Hq) as [EA Ht'].
    destruct (DeletionTimestamp (pod_Meta p)) as [t|] eqn:Ed; injection E as <-.
    + eexists _, _. split; [by apply tracks_spawn_idle|]. intros s0. eapply life_delete; [done|apply only_moves_refl|].
      apply ls_leaves; by eapply lv_skipped.
    + eexists _, _. split; [apply (tracks_spawn _ _ _ _ (GSchedule n p) (pod_id p) Scheduling Ht'); [done|by rewrite lookup_delete_eq]|].
      intros s0. eapply life_insert; [done|apply only_moves_refl|]. constructor.
  - assert (tracks (w_now w) (with_queue s q) A P) as Hs1 by (apply tracks_queue; [done|apply Hr]). case_match; [by eapply Hend|by eapply Hloop].
  - assert (tracks (w_now w) (with_queue s q) A P) as Hs1 by by apply tracks_queue. by eapply Hloop.
Qed.

Lemma goroutine_life w s i s' A P e :
  step_goroutine w s i = Some s' → world_ok w → tracks (w_now w) s A P →
  ∃ A' P', tracks (w_now w) s' A' P' ∧ ∀ id, life_step w s e id (A !! id) (A' !! id).
Proof.
  unfold step_goroutine. intros E Hw Ht. destruct (sc_goroutines s !! i) as [t|] eqn:Ei; [|done]. cbn [mbind option_bind] in E.
  set (s0 := with_goroutines s (delete i (sc_goroutines s))) in *. pose proof (list_elem_of_lookup_2 _ _ _ Ei) as Hin.
  destruct (in_hand t) as [[id x]|] eqn:Eh.
  2:{ pose proof (tracks_take_idle _ _ _ _ _ _ Ht Ei Eh) as Ht0. destruct t; try done; simpl in E.
      - injection E as <-. exists A, P. split; [by apply tracks_spawn_idle|apply life_same].
      - destruct (next_spec _ _ _ _ _ _ _ e E Ht0) as (A' & P' & ? & ?). eauto. }
  destruct (tracks_take _ _ _ _ _ _ _ _ Ht Ei Eh) as [EA Ht0].
  assert (delete id A !! id = None) as Hid by apply lookup_delete_eq.
  assert (without_queue w s t → life_step w s e id (Some x) None) as Hlost by (intros; apply ls_leaves; by eapply lv_lost).
  destruct t as [n|n wait|n pod|n pod err|n pod host|n pod host allBound|n ptr pid cycle nb [d|]]; simplify_eq/=.
  - destruct (schedule _ _ _ _) as [[s1 r]|] eqn:Es; [|done]. cbn [mbind option_bind] in E. injection E as <-.
    exists (<[pod_id pod := Scheduling]> (delete (pod_id pod) A)), P. split.
    + unfold schedule in Es. destruct (Schedule _ _ _ _ _ _ _) as [[g r']|] eqn:Eg; [|done]. cbn [mbind option_bind] in Es.
      apply Schedule_queue in Eg. injection Es as <- <-. apply tracks_spawn; [|by destruct r'|done].
      by eapply tracks_frame; [exact Ht0|exact Eg|].
    + eapply life_insert; [done|apply only_moves_refl|constructor].
  - destruct (scheduleOne_unfit _ _ _ _ _) as [s1|] eqn:Es; [|done]. cbn [mbind option_bind] in E. injection E as <-.
    destruct (unfit_spec _ _ _ _ _ _ _ _ Es Ht0 Hid) as (A1 & A' & P' & Hm & Ht' & [[-> Hn]| ->]);
      eexists _, _; (split; [by apply tracks_spawn_idle|]).
    + eapply life_delete; [done|done|]. by apply Hlost.
    + eapply life_insert; [done|done|]. constructor. by left.
  - destruct (scheduleOne_fits _ _ _ _ _) as [s1|] eqn:Es; [|done]. cbn [mbind option_bind] in E. injection E as <-.
    destruct (fits_spec _ _ _ _ _ _ _ _ Es Hw Ht0 Hid) as [[Hn Ht']|(x & Hx & Ht')];
      eexists _, _; (split; [by apply tracks_spawn_idle|]).
    + eapply life_delete; [done|apply only_moves_refl|]. by apply Hlost.
    + eapply life_insert; [done|apply only_moves_refl|]. destruct Hx as [-> | ->]; constructor. by left.
  - destruct (bind_spec _ _ _ _ _ _ _ _ _ E Ht0 Hid) as [[Ht' Hb]|Ht']; (eexists _, _; split; [done|]).
    + eapply life_delete; [done|apply only_moves_refl|]. destruct Hb as [Hn|Hb]; [by apply Hlost|]. apply ls_leaves; by eapply lv_bound; [|exact Hb].
    + eapply life_insert; [done|apply only_moves_refl|]. constructor. by right.
  - destruct (retry_spec _ _ _ _ _ _ _ _ _ _ _ E Hw Ht0 Hid) as [[Ht' Hwhy]|[Ht'|(n' & P' & Ht')]]; (eexists _, _; split; [done|]).
    + eapply life_delete; [done|apply only_moves_refl|].
      destruct Hwhy as [(err & ? & ?)|[(pod & ? & ?)|Hn]]; [apply ls_leaves; by eapply lv_not_found|apply ls_leaves; by eapply lv_assigned|by apply Hlost].
    + eapply life_insert; [done|apply only_moves_refl|constructor].
    + eapply life_insert; [done|apply only_moves_refl|constructor].
  - destruct (negb (w_podPriorityEnabled w) && negb (w_TryBackoffAndWait w)) eqn:Eb; injection E as <-.
    + exists (delete id A), P. split; [done|]. eapply life_delete; [done|apply only_moves_refl|].
      apply andb_true_iff in Eb as [?%negb_true_iff ?%negb_true_iff]. apply ls_leaves; by apply lv_abandoned.
    + exists (<[id := Retrying]> (delete id A)), P. split; [by apply tracks_spawn|].
      eapply life_insert; [done|apply only_moves_refl|constructor].
Qed.

(** ** Events *)

Lemma move_all_tracks w s s' A P : move_all w s = Some s' → tracks (w_now w) s A P → tracks (w_now w) s' A P.
Proof.
  unfold move_all. intros E Ht. destruct (MoveAll_keeps (w_now w) (sc_queue s) P (tr_pool _ _ _ _ Ht)) as (q & Eq & Hq).
  rewrite Eq in E. injection E as <-. by apply tracks_queue.
Qed.
Lemma move_all_in_tracks w s n s' A P : move_all_in w s n = Some s' → tracks (w_now w) s A P → tracks (w_now w) s' A P.
Proof.
  unfold move_all_in. intros E Ht. destruct (MoveAllIn_keeps (w_now w) (sc_queue s) P n (tr_pool _ _ _ _ Ht)) as (q & Eq & Hq).
  rewrite Eq in E. injection E as <-. by apply tracks_queue.
Qed.

Lemma addPool_tracks w s o s' A P :
  addPoolToCache w s o = Some s' → 0 <= w_now w → tracks (w_now w) s A P → ∃ P', tracks (w_now w) s' A P'.
Proof.
  unfold addPoolToCache. intros E Hw Ht. destruct o as [| |pool| | |]; try (injection E as <-; by exists P).
  destruct (Cache_AddPool _ _) as [[c [err|]]|]; [| |done]; cbn [mbind option_bind] in E.
  { injection E as <-. exists P. by eapply tracks_frame. }
  destruct (move_all _ _) as [s1|] eqn:Em; [|done]. cbn [mbind option_bind] in E. injection E as <-.
  set (n := pool_Name pool) in *.
  assert (∃ P', tracks (w_now w) (with_queue (with_cache s c) (PoolQueue_AddQueue (sc_queue (with_cache s c)) n).1) A P') as [P' Ht'].
  { change (sc_queue (with_cache s c)) with (sc_queue s). unfold PoolQueue_AddQueue. destruct Ht as [Hp Hd Hq Hh].
    destruct (queues (sc_queue s) !! n) as [q|] eqn:En; [by exists P|]. exists (<[n := ∅]> P).
    apply (pool_holds_None _ _ _ _ Hp) in En. split; simpl; [by apply pool_holds_set, sq_New_law| | |done].
    - rewrite lookup_insert. by case_decide.
    - intros id n'. rewrite (Hq id n'), lookup_insert. case_decide; [|done]. subst. split; [intros (m & ? & _); congruence|].
      intros (m & [= <-] & [? Hm]). by rewrite lookup_empty in Hm. }
  exists P'. apply tracks_spawn_idle; [|done]. by eapply move_all_tracks.
Qed.

(** The pods of a removed queue go to the default queue. *)
Lemma remove_queue_moves w s n s' A P :
  remove_queue w s n = Some s' → n ≠ DefaultPoolName → tracks (w_now w) s A P →
  ∃ A' P', tracks (w_now w) s' A' P' ∧ only_moves A A'.
Proof.
  unfold remove_queue. intros E Hn [Hp Hd Hq Hh]. destruct (P !! n) as [m|] eqn:Em.
  2:{ unfold PoolQueue_RemoveQueue in E. rewrite (proj2 (pool_holds_None _ _ _ _ Hp) Em) in E. injection E as <-.
      exists A, P. split; [by split|apply only_moves_refl]. }
  destruct Hd as [d Ed]. destruct (RemoveQueue_conserves _ _ _ _ _ _ Hp Hn Em Ed) as (q' & qr & Er & Hp').
  rewrite Er in E. injection E as <-.
  set (go x := match x with Pending k => if decide (k = n) then Pending DefaultPoolName else x | _ => x end).
  assert (only_moves A (go <$> A)) as Hm.
  { intros id. rewrite lookup_fmap. destruct (A !! id) as [[k| | |]|]; simpl; try by left. case_decide; [|by left]. right. eauto. }
  eexists (go <$> A), _. split; [|done]. split; simpl; [exact Hp'|by rewrite lookup_insert_eq| |by eapply moves_handled].
  intros id k. rewrite lookup_fmap, lookup_insert. case_decide as Hk.
  - subst k. split.
    + destruct (A !! id) as [[k| | |]|] eqn:EA; simpl; try done. apply Hq in EA as (m' & Em' & Hm'). intros [= Ek].
      eexists. split; [done|]. rewrite lookup_union. case_decide as Ek'.
      * subst k. rewrite Em in Em'. injection Em' as <-. destruct Hm' as [p Ep]. rewrite Ep. destruct (d !! id); by eexists.
      * injection Ek as Ek. rewrite Ek, Ed in Em'. injection Em' as <-. destruct Hm' as [p Ep]. rewrite Ep. destruct (m !! id); by eexists.
    + intros (m' & [= <-] & Hm'). rewrite lookup_union in Hm'.
      destruct (d !! id) as [p|] eqn:Edi.
      * assert (A !! id = Some (Pending DefaultPoolName)) as -> by (apply Hq; eauto). simpl. by case_decide.
      * destruct (m !! id) as [p|] eqn:Emi; [|by destruct Hm']. assert (A !! id = Some (Pending n)) as -> by (apply Hq; eauto).
        simpl. by rewrite decide_True.
  - rewrite lookup_delete. case_decide as Hnk.
    + subst k. split; [|by intros (? & ? & _)]. destruct (A !! id) as [[k| | |]|] eqn:EA; simpl; try done. case_decide; intros [= ?]; congruence.
    + rewrite <-(Hq id k). destruct (A !! id) as [[k'| | |]|]; simpl; try done. case_decide as Hk'; [|done].
      subst. split; intros [= ?]; congruence.
Qed.

Lemma deletePool_tracks w s o s' A P :
  deletePoolFromCache w s o = Some s' → tracks (w_now w) s A P → ∃ A' P', tracks (w_now w) s' A' P' ∧ only_moves A A'.
Proof.
  unfold deletePoolFromCache. intros E Ht.
  destruct (deleted_object o) as [| |pool| | |]; try (injection E as <-; exists A, P; split; [done|apply only_moves_refl]).
  destruct (Cache_RemovePool _ _) as [[c err]|] eqn:Ec; [|done]. cbn [mbind option_bind] in E.
  destruct err as [err|]; [injection E as <-; exists A, P; split; [by eapply tracks_frame|apply only_moves_refl]|].
  destruct (remove_queue _ _ _) as [s1|] eqn:Er; [|done]. cbn [mbind option_bind] in E.
  assert (pool_Name pool ≠ DefaultPoolName) as Hn.
  { unfold Cache_RemovePool in Ec. case_bool_decide; [by simplify_eq|done]. }
  destruct (remove_queue_moves _ _ _ _ A P Er Hn) as (A' & P' & Ht' & Hm); [by eapply tracks_frame|].
  exists A', P'. split; [by eapply move_all_tracks|done].
Qed.

(** What the informers promise: a pod that is new is in no place yet; two versions of a pod have the same name, and so
    has the pending pod with their UID. *)
Definition new_pod s (o : object) : Prop := ∀ p, o = OPod p → sq_ok p ∧ ∀ x, ¬ place s (pod_id p) x.
Definition same_pod s (o o' : object) : Prop := ∀ p p', o = OPod p → o' = OPod p' →
  sq_ok p ∧ sq_ok p' ∧ pod_id p = pod_id p' ∧
  ∀ n q p0, queues (sc_queue s) !! n = Some q → p0 ∈ sq_PendingPods q → pod_UID p0 = pod_UID p' → pod_id p0 = pod_id p'.
Definition gone_pod (o : object) : Prop := ∀ p, deleted_object o = OPod p → sq_ok p.

Definition legal (schedulerName : string) (now : Time) s w (e : event) : Prop :=
  let f := unscheduled_filter schedulerName in
  now <= w_now w ∧ world_ok w ∧
  match e with
  | EvAdd HUnscheduled o => new_pod s o
  | EvUpdate HUnscheduled o o' =>
      if f o then if f o' then same_pod s o o' else gone_pod o else new_pod s o'
  | EvDelete HUnscheduled o => gone_pod o
  | _ => True
  end.

Definition lives_on w s e A A' : Prop := ∀ id, life_step w s e id (A !! id) (A' !! id).

Lemma lives_same w s e A : lives_on w s e A A.
Proof. intros id. constructor. Qed.
Lemma moves_on w s e A A' : only_moves A A' → lives_on w s e A A'.
Proof. intros Hm id. destruct (Hm id) as [->|(n & n' & -> & ->)]; constructor. Qed.

Lemma addPod_life w s o s' A P e :
  addPodToSchedulingQueue w s o = Some s' → tracks (w_now w) s A P → new_pod s o →
  (e = EvAdd HUnscheduled o ∨ ∃ old, e = EvUpdate HUnscheduled old o) →
  ∃ A' P', tracks (w_now w) s' A' P' ∧ lives_on w s e A A'.
Proof.
  unfold addPodToSchedulingQueue. intros E Ht Hnew He. destruct o as [p| | | | |]; cbn in E; try discriminate E. destruct (Hnew p eq_refl) as [Hok Hid].
  rewrite <-(tracks_None (w_now w) s A P) in Hid by done.
  destruct (pool_of_exists P p (tr_default _ _ _ _ Ht)) as [m Em].
  destruct (Add_routes (w_now w) (sc_queue s) P p m (tr_pool _ _ _ _ Ht) Hok Em) as (q & Eq & Hq & _).
  rewrite Eq in E. injection E as <-. eexists _, _. split.
  - destruct Ht as [Hp Hd Hqd Hh]. split; [exact Hq| |by eapply queued_insert|].
    + simpl. rewrite lookup_insert. by case_decide.
    + simpl. eapply handled_pending; [done|]. intros id x Hx. rewrite lookup_insert. case_decide; [|done]. subst.
      split; [|congruence]. intros [= <-]. naive_solver.
  - intros id. rewrite lookup_insert. case_decide; [|constructor]. subst. rewrite Hid. apply ls_new. exists p. split; [done|].
    destruct He as [->|[old ->]]; [by left|right; by exists old].
Qed.

Lemma deletePod_life w s o s' A P e :
  deletePodFromSchedulingQueue s o = Some s' → tracks (w_now w) s A P → gone_pod o →
  (e = EvDelete HUnscheduled o ∨ ∃ new, e = EvUpdate HUnscheduled o new) →
  ∃ A' P', tracks (w_now w) s' A' P' ∧ lives_on w s e A A'.
Proof.
  unfold deletePodFromSchedulingQueue. intros E Ht Hgone He. unfold gone_pod in Hgone.
  destruct (deleted_object o) as [p| | | | |] eqn:Eo; try (injection E as <-; exists A, P; split; [done|apply lives_same]).
  destruct (Delete_removes (w_now w) (sc_queue s) P p (tr_pool _ _ _ _ Ht) (Hgone p eq_refl)) as (q & P' & Eq & Hq & HP).
  rewrite Eq in E. injection E as <-. destruct HP as [->|(n & m & Em & ->)].
  { exists A, P. split; [by apply tracks_queue|apply lives_same]. }
  destruct (m !! pod_id p) as [p'|] eqn:Ep.
  - destruct (tracks_remove _ _ _ _ _ _ (pod_id p) q Ht Em ltac:(eauto) Hq) as [EA Ht']. eexists _, _. split; [exact Ht'|].
    unfold lives_on. eapply life_delete; [done|apply only_moves_refl|]. apply ls_leaves, lv_deleted. exists p, o. split_and!; [done|done|].
    destruct He as [->|[new ->]]; [by left|right; by exists new].
  - rewrite delete_id, insert_id in Hq by done. exists A, P. split; [by apply tracks_queue|apply lives_same].
Qed.

Lemma updatePod_life w s o o' s' A P e :
  updatePodInSchedulingQueue w s o o' = Some s' → tracks (w_now w) s A P → same_pod s o o' →
  ∃ A' P', tracks (w_now w) s' A' P' ∧ lives_on w s e A A'.
Proof.
  unfold updatePodInSchedulingQueue. intros E Ht Hsame. destruct o' as [p'| | | | |]; cbn in E; try discriminate E.
  destruct (skipPodUpdate s p'); [injection E as <-; exists A, P; split; [done|apply lives_same]|].
  destruct o as [p| | | | |]; cbn in E; try discriminate E. destruct (Hsame p p' eq_refl eq_refl) as (Hok & Hok' & Eid & Huid).
  destruct (Update_keeps_ids (w_now w) (sc_queue s) P p p' (tr_pool _ _ _ _ Ht) Hok Hok' Eid) as (q & P' & Eq & Hq & HP).
  { intros n m id p0 Em Ep Eu. destruct (pool_holds_Some_r _ _ _ _ _ (tr_pool _ _ _ _ Ht) Em) as (q & Eq & Hq).
    destruct (sq_id _ _ _ _ _ Hq Ep) as [-> _]. eapply Huid; [done| |done]. by apply (sq_Pending_law _ _ _ Hq). }
  rewrite Eq in E. injection E as <-. destruct HP as [->|(n & m & Em & Hm & ->)].
  { exists A, P. split; [by apply tracks_queue|apply lives_same]. }
  eexists A, _. split; [|apply lives_same]. destruct Ht as [Hp Hd Hqd Hh]. split; [exact Hq| |by apply queued_replace|done].
  simpl. rewrite lookup_insert. by case_decide.
Qed.

(** A handler that moves no pod. *)
Lemma handler_same w s e A P s' : tracks (w_now w) s' A P → ∃ A' P', tracks (w_now w) s' A' P' ∧ lives_on w s e A A'.
Proof. intros Ht. exists A, P. split; [done|apply lives_same]. Qed.

Lemma addPodToCache_tracks w s o s' A P : addPodToCache w s o = Some s' → tracks (w_now w) s A P → tracks (w_now w) s' A P.
Proof.
  unfold addPodToCache. intros E Ht. destruct o; try by simplify_eq.
  destruct (Cache_AddPod _ _) as [[c ?]|]; [|done]. cbn [mbind option_bind] in E.
  destruct (AssignedAdded_keeps (w_now w) (sc_queue s) P pod (tr_pool _ _ _ _ Ht)) as (q & Eq & Hq).
  change (sc_queue (with_cache s c)) with (sc_queue s) in E. rewrite Eq in E. injection E as <-.
  apply tracks_queue; [by eapply tracks_frame|done].
Qed.
Lemma updatePodInCache_tracks w s o o' s' A P :
  updatePodInCache w s o o' = Some s' → tracks (w_now w) s A P → tracks (w_now w) s' A P.
Proof.
  unfold updatePodInCache. intros E Ht. destruct o; try by simplify_eq. destruct o'; try by simplify_eq.
  destruct (Cache_UpdatePod _ _ _) as [[c ?]|]; [|done]. cbn [mbind option_bind] in E.
  destruct (AssignedUpdated_keeps (w_now w) (sc_queue s) P pod0 (tr_pool _ _ _ _ Ht)) as (q & Eq & Hq).
  change (sc_queue (with_cache s c)) with (sc_queue s) in E. rewrite Eq in E. injection E as <-.
  apply tracks_queue; [by eapply tracks_frame|done].
Qed.
Lemma deletePodFromCache_tracks w s o s' A P :
  deletePodFromCache w s o = Some s' → tracks (w_now w) s A P → tracks (w_now w) s' A P.
Proof.
  unfold deletePodFromCache. intros E Ht. destruct (deleted_object o); try by simplify_eq.
  destruct (Cache_RemovePod _ _) as [[c ?]|]; [|done]. cbn [mbind option_bind] in E.
  eapply move_all_in_tracks; [exact E|]. by eapply tracks_frame.
Qed.
Lemma addNode_tracks w s o s' A P : addNodeToCache w s o = Some s' → tracks (w_now w) s A P → tracks (w_now w) s' A P.
Proof.
  unfold addNodeToCache. intros E Ht. destruct o; try by simplify_eq.
  destruct (Cache_AddNode _ _) as [[c ?]|]; [|done]. cbn [mbind option_bind] in E.
  eapply move_all_in_tracks; [exact E|]. by eapply tracks_frame.
Qed.
Lemma updateNode_tracks w s o o' s' A P :
  updateNodeInCache w s o o' = Some s' → tracks (w_now w) s A P → tracks (w_now w) s' A P.
Proof.
  unfold updateNodeInCache. intros E Ht. destruct o; try by simplify_eq. destruct o'; try by simplify_eq.
  destruct (Cache_UpdateNode _ _ _) as [[c ?]|]; [|done]. cbn [mbind option_bind] in E.
  assert (tracks (w_now w) (with_cache s c) A P) as Htc by by eapply tracks_frame.
  case_match; [by eapply move_all_in_tracks|by simplify_eq].
Qed.
Lemma updatePool_tracks w s o o' s' A P :
  updatePoolInCache w s o o' = Some s' → tracks (w_now w) s A P → tracks (w_now w) s' A P.
Proof.
  unfold updatePoolInCache. intros E Ht. destruct o; try by simplify_eq. destruct o'; try by simplify_eq.
  destruct (Cache_UpdatePool _ _ _) as [[c ?]|]; [|done]. cbn [mbind option_bind] in E.
  assert (tracks (w_now w) (with_cache s c) A P) as Htc by by eapply tracks_frame.
  case_match; [by eapply move_all_tracks|by simplify_eq].
Qed.

(** ** The theorems *)

Context {Inf : InformerLib} {ILaws : InformerLaws}.
Variable schedulerName : string.

Lemma event_life now s A P w e s' :
  step schedulerName w s e = Some s' → legal schedulerName now s w e → tracks now s A P →
  ∃ A' P', tracks (w_now w) s' A' P' ∧ lives_on w s e A A'.
Proof.
  intros E (Hnow & Hw & He) Ht. apply (tracks_mono _ (w_now w)) in Ht; [|done].
  destruct e as [h o|h o o'|h o|i|n i|]; simpl in E.
  - destruct h; simpl in E; rewrite ?filtering_add in E; simpl in E.
    + destruct (scheduled_filter o); [|injection E as <-]; eapply handler_same; [by eapply addPodToCache_tracks|done].
    + destruct (unscheduled_filter schedulerName o); [|injection E as <-; by eapply handler_same]. eapply addPod_life; eauto.
    + destruct (addPool_tracks _ _ _ _ _ _ E (wo_time _ Hw) Ht) as [P' Ht']. by eapply handler_same.
    + eapply handler_same. by eapply addNode_tracks.
    + eapply handler_same. by eapply move_all_tracks.
    + eapply handler_same. by eapply move_all_tracks.
    + eapply handler_same. by eapply move_all_tracks.
    + eapply handler_same. unfold onStorageClassAdd in E. repeat case_match; simplify_eq; try done. by eapply move_all_tracks.
  - destruct h; simpl in E; rewrite ?filtering_update in E; simpl in E.
    + eapply handler_same. destruct (scheduled_filter o), (scheduled_filter o'); simplify_eq; try done;
        [by eapply updatePodInCache_tracks|by eapply deletePodFromCache_tracks|by eapply addPodToCache_tracks].
    + simpl in He. destruct (unscheduled_filter schedulerName o), (unscheduled_filter schedulerName o').
      * by eapply updatePod_life.
      * eapply deletePod_life; eauto.
      * eapply addPod_life; eauto.
      * injection E as <-. by eapply handler_same.
    + eapply handler_same. by eapply updatePool_tracks.
    + eapply handler_same. by eapply updateNode_tracks.
    + eapply handler_same. by eapply move_all_tracks.
    + eapply handler_same. by eapply move_all_tracks.
    + eapply handler_same. by eapply move_all_tracks.
    + injection E as <-. by eapply handler_same.
  - destruct h; simpl in E; rewrite ?filtering_delete in E; simpl in E; try (injection E as <-; by eapply handler_same).
    + eapply handler_same. destruct (scheduled_filter o); [by eapply deletePodFromCache_tracks|by simplify_eq].
    + destruct (unscheduled_filter schedulerName o); [|injection E as <-; by eapply handler_same]. eapply deletePod_life; eauto.
    + destruct (deletePool_tracks _ _ _ _ _ _ E Ht) as (A' & P' & Ht' & Hm). exists A', P'. split; [done|by apply moves_on].
    + eapply handler_same. unfold deleteNodeFromCache in E. destruct (deleted_object o); try by simplify_eq.
      destruct (Cache_RemoveNode _ _) as [[c ?]|]; [|done]. injection E as <-. by eapply tracks_frame.
    + eapply handler_same. by eapply move_all_tracks.
  - by eapply goroutine_life.
  - destruct (queues (sc_queue s) !! n) as [q|] eqn:Eq; [|done]. cbn [mbind option_bind] in E.
    destruct (sq_run !! i) as [f|] eqn:Ef; [|done]. cbn [mbind option_bind] in E. apply list_elem_of_lookup_2 in Ef.
    destruct (pool_holds_Some _ _ _ _ _ (tr_pool _ _ _ _ Ht) Eq) as (m & Em & Hm).
    destruct (sq_run_law (poolQueuePodPriorityComp (sc_queue s) n) (w_now w) q m f Ef Hm) as (q' & Eq' & Hq').
    rewrite Eq' in E. injection E as <-. eapply handler_same. apply tracks_queue; [done|].
    rewrite <-(insert_id P n m Em). apply pool_holds_set; [apply Ht|done].
  - destruct (cleanupAssumedPods _ _); [|done]. injection E as <-. eapply handler_same. by eapply tracks_frame.
Qed.

(** The scheduler at its start: an empty queue for the default pool, and its loop. *)
Definition started s : Prop :=
  sc_queue s = NewPoolQueue ∧ sc_goroutines s = [GLoop DefaultPoolName None] ∧ sc_removals s = ∅.

Inductive run : Time → Scheduler → list (World * event) → Time → Scheduler → Prop :=
| run_nil now s : run now s [] now s
| run_cons now s w e s1 l now' s2 :
    legal schedulerName now s w e → step schedulerName w s e = Some s1 → run (w_now w) s1 l now' s2 →
    run now s ((w, e) :: l) now' s2.

Lemma started_tracks now s : started s → 0 <= now → tracks now s ∅ {[ DefaultPoolName := ∅ ]}.
Proof.
  intros (Eq & Eg & _) Hn. split.
  - rewrite Eq. intros n. unfold NewPoolQueue. simpl. destruct (decide (n = DefaultPoolName)) as [->|].
    + rewrite !lookup_singleton_eq. constructor. by apply sq_New_law.
    + rewrite !lookup_singleton_ne by done. constructor.
  - rewrite lookup_singleton_eq. eauto.
  - intros id n. rewrite lookup_empty. split; [done|]. intros (m & Em & [p Ep]). apply lookup_singleton_Some in Em as [_ <-].
    by rewrite lookup_empty in Ep.
  - rewrite Eg. split; [constructor|]. intros id x _. simpl. rewrite lookup_empty, elem_of_nil. done.
Qed.

Lemma run_tracks now s l now' s' A P :
  run now s l now' s' → tracks now s A P → ∃ A' P', tracks now' s' A' P'.
Proof.
  intros Hr. revert A P. induction Hr as [|now s w e s1 l now' s2 Hl E _ IH]; intros A P Ht; [eauto|].
  destruct (event_life _ _ _ _ _ _ _ E Hl Ht) as (A' & P' & Ht' & _). by eapply IH.
Qed.


Lemma stays_or_leaves now s l now' s' A P id x :
  run now s l now' s' → tracks now s A P → A !! id = Some x →
  (∃ y, place s' id y) ∨
  ∃ l1 w e l2 now1 s1 y, l = l1 ++ (w, e) :: l2 ∧ run now s l1 now1 s1 ∧ place s1 id y ∧ leaves w s1 e id y.
Proof.
  intros Hr. revert A P x. induction Hr as [|now s w e s1 l now' s2 Hl E _ IH]; intros A P x Ht Hid.
  { left. exists x. by eapply tracks_place. }
  destruct (event_life _ _ _ _ _ _ _ E Hl Ht) as (A' & P' & Ht' & Hlife).
  destruct (A' !! id) as [y|] eqn:Ey.
  - destruct (IH A' P' y Ht' Ey) as [?|(l1 & w1 & e1 & l2 & now1 & s3 & z & -> & Hr1 & Hp & Hlv)]; [by left|right].
    exists ((w, e) :: l1), w1, e1, l2, now1, s3, z. split_and!; [done|by econstructor|done|done].
  - right. exists [], w, e, l, now, s, x. specialize (Hlife id). rewrite Hid, Ey in Hlife.
    split_and!; [done|constructor|by eapply tracks_place|by inv Hlife].
Qed.

End life_cycle.
