(* ===== verification/FrameProofs.v ===== *)
(** * What a step leaves alone

    Most pieces of a step change neither the states of pods in the cache, nor which queues exist, and
    end no goroutine; the theorems on the whole scheduler look only at the pieces that do.
    This file proves the frame of every piece: the names of the queues for the
    operations of the pool queue, the states of pods for those of the cache, and
    [steady] for those of the scheduler. *)
From S2P Require Import Prelude Heap Api Util Backoff SchedulingQueue PoolQueue PoolQueueProofs Resource HostPorts NodeTree NodeInfo PoolInfo Predicates Cache GenericScheduler VolumePredicates Scheduler EventHandlers SchedulerProofs.

(** ** The names of the queues *)

Section names.
Context {Range : MapRange} {Q : Type} {SQ : SchedulingQueue Q}.
Implicit Types (pq : PoolQueue Q) (q : Q) (p pod : Pod).

Definition names pq : gset string := dom (queues pq).
Lemma elem_of_names pq n : n ∈ names pq ↔ is_Some (queues pq !! n).
Proof. apply elem_of_dom. Qed.

Lemma names_set pq n q q' : queues pq !! n = Some q → names (set_queue pq n q') = names pq.
Proof. intros E%elem_of_dom_2. unfold names. simpl. rewrite dom_insert_L. set_solver. Qed.

Lemma MoveAll_queues_names now l : ∀ pq pq', (∀ n q, (n, q) ∈ l → n ∈ names pq) → MoveAll_queues now pq l = Some pq' → names pq' = names pq.
Proof.
  induction l as [|[n q] l IH]; intros pq pq' Hl E; simpl in E; [by simplify_eq|].
  destruct (sq_MoveAllToActiveQueue _ _ _) as [q'|]; [|done]. cbn [mbind option_bind] in E.
  destruct (proj1 (elem_of_dom (queues pq) n)) as [q0 Eq]; [apply (Hl n q); by left|].
  rewrite <-(names_set pq n q0 q' Eq). apply IH; [|done]. intros n' q1 Hin. rewrite (names_set pq n q0 q' Eq). apply (Hl n' q1). by right.
Qed.
Lemma MoveAll_names now pq pq' : PoolQueue_MoveAllToActiveQueue now pq = Some pq' → names pq' = names pq.
Proof. apply MoveAll_queues_names. intros n q Hin%range_elem. by apply elem_of_dom_2 in Hin. Qed.
Lemma MoveAllIn_names now pq n pq' : PoolQueue_MoveAllToActiveQueueIn now pq n = Some pq' → names pq' = names pq.
Proof.
  unfold PoolQueue_MoveAllToActiveQueueIn. destruct (queues pq !! n) as [q|] eqn:Eq; [|by intros [= <-]].
  destruct (sq_MoveAllToActiveQueue _ _ _); [|done]. intros [= <-]. by eapply names_set.
Qed.
Lemma AssignedAdded_names now pq p pq' : PoolQueue_AssignedPodAdded now pq p = Some pq' → names pq' = names pq.
Proof.
  unfold PoolQueue_AssignedPodAdded. destruct (getPriorityQueue _ _) as [|[q n]] eqn:Eq; [by intros [= <-]|]. apply getPriorityQueue_lookup in Eq.
  destruct (sq_AssignedPodAdded _ _ _ _); [|done]. intros [= <-]. by eapply names_set.
Qed.
Lemma AssignedUpdated_names now pq p pq' : PoolQueue_AssignedPodUpdated now pq p = Some pq' → names pq' = names pq.
Proof.
  unfold PoolQueue_AssignedPodUpdated. destruct (getPriorityQueue _ _) as [|[q n]] eqn:Eq; [by intros [= <-]|]. apply getPriorityQueue_lookup in Eq.
  destruct (sq_AssignedPodUpdated _ _ _ _); [|done]. intros [= <-]. by eapply names_set.
Qed.
Lemma Add_names now pq p pq' e : PoolQueue_Add now pq p = Some (pq', e) → names pq' = names pq.
Proof.
  unfold PoolQueue_Add, on_queue. destruct (getPriorityQueue _ _) as [|[q n]] eqn:Eq; [by intros [= <-]|]. apply getPriorityQueue_lookup in Eq.
  destruct (sq_Add _ _ _ _); [|done]. intros [= <- _]. by eapply names_set.
Qed.
Lemma Delete_names pq p pq' e : PoolQueue_Delete pq p = Some (pq', e) → names pq' = names pq.
Proof.
  unfold PoolQueue_Delete. destruct (find_queue _ _) as [[n q]|] eqn:Eq; [|by intros [= <-]]. apply find_queue_Some in Eq as [Eq _].
  destruct (sq_Delete _ _ _); [|done]. intros [= <- _]. by eapply names_set.
Qed.
Lemma Update_names now pq o p pq' e : PoolQueue_Update now pq o p = Some (pq', e) → names pq' = names pq.
Proof.
  unfold PoolQueue_Update. destruct (find_queue _ _) as [[n q]|] eqn:Eq; [|by intros [= <-]]. apply find_queue_Some in Eq as [Eq _].
  destruct o; [|done]. cbn [mbind option_bind]. destruct (sq_Update _ _ _ _ _); [|done]. intros [= <- _]. by eapply names_set.
Qed.
Lemma MoveBorrowing_names now n l : ∀ pq pq', MoveBorrowing_loop now pq n l = Some pq' → names pq' = names pq.
Proof.
  induction l as [|p l IH]; intros pq pq' E; simpl in E; [by simplify_eq|]. destruct (negb _); [|by apply IH].
  destruct (queues pq !! n) as [q|] eqn:Eq; [|done]. cbn [mbind option_bind] in E. destruct (sq_Delete _ _ _) as [d|]; [|done].
  cbn [mbind option_bind] in E. set (self := match _ !! _ with Some _ => _ | None => _ end) in *.
  change (<[n := d.1]> (queues pq)) with (queues (set_queue pq n d.1)) in E.
  destruct (queues (set_queue pq n d.1) !! self) as [q1|] eqn:Eq1; [|done]. cbn [mbind option_bind] in E.
  destruct (sq_AddIfNotPresent _ _ _ _) as [r|]; [|done]. cbn [mbind option_bind] in E. apply IH in E. rewrite E.
  rewrite (names_set _ _ _ _ Eq1). by eapply names_set.
Qed.
Lemma MoveAllBorrowing_names now pq n pq' : MoveAllBorrowingPodsToSelfQueue now pq n = Some pq' → names pq' = names pq.
Proof. unfold MoveAllBorrowingPodsToSelfQueue. destruct (queues pq !! n); [|by intros [= <-]]. apply MoveBorrowing_names. Qed.
Lemma MakeNextPodFunc_names pq n pq' r : MakeNextPodFunc pq n = Some (pq', r) → names pq' = names pq.
Proof.
  unfold MakeNextPodFunc, PoolQueue_GetQueue. destruct (queues pq !! n) as [q|] eqn:Eq; [|by intros [= <-]].
  destruct (sq_Pop _ _); [|done]. intros [= <- _]. by eapply names_set.
Qed.
Lemma RemoveQueue_names now pq n pq' r :
  PoolQueue_RemoveQueue now pq n = Some (pq', r) →
  match r with Some _ => names pq' = names pq ∖ {[ n ]} | None => pq' = pq ∧ n ∉ names pq end.
Proof.
  unfold PoolQueue_RemoveQueue. destruct (queues pq !! n) as [q|] eqn:Eq; [|intros [= <- <-]; split; [done|by apply not_elem_of_dom]].
  simpl. destruct (delete n (queues pq) !! PoolQueue.DefaultPoolName) as [df|] eqn:Ed; cbn [mbind option_bind].
  - destruct (RemoveQueue_loop _ _ _ _); [|done]. intros [= <- <-].
    rewrite (names_set (MkPoolQueue (delete n (queues pq))) _ df _ Ed). unfold names. simpl. apply dom_delete_L.
  - intros [= <- <-]. apply dom_delete_L.
Qed.
End names.

(** ** The states of pods *)

Section cache.
Context {K8s : K8sLib} {Range : MapRange} {Sort : GoSort}.
Implicit Types (c : schedulerCache) (pod : Pod).

Definition pods_part c : gmap string bool * gmap string podState := (ca_assumedPods c, ca_podStates c).

(** The computation leaves the states of pods alone. *)
Definition quiet {A} (get : A → schedulerCache) c (r : comp A) : Prop := ∀ x, r = Some x → pods_part (get x) = pods_part c.

Lemma quiet_ret {A} (get : A → schedulerCache) c x : pods_part (get x) = pods_part c → quiet get c (Some x).
Proof. intros Hx y [= <-]. done. Qed.
Lemma quiet_None {A} (get : A → schedulerCache) c : quiet get c None.
Proof. by intros x. Qed.
Lemma quiet_bind {X Y : Type} (get : X → schedulerCache) (get' : Y → schedulerCache) c (r : comp X) (f : X → comp Y) :
  quiet get c r → (∀ x, quiet get' (get x) (f x)) → quiet get' c (r ≫= f).
Proof.
  intros Hr Hf y E. destruct r as [x|]; [|done]. rewrite (Hf x y E). by apply Hr.
Qed.
(** A computation without a cache. *)
Lemma quiet_pure {X Y : Type} (get : Y → schedulerCache) c (r : comp X) (f : X → comp Y) : (∀ x, quiet get c (f x)) → quiet get c (r ≫= f).
Proof. intros Hf y E. destruct r as [x|]; [|done]. by apply (Hf x). Qed.
Lemma quiet_foldl {A} c (f : comp schedulerCache → A → comp schedulerCache) l : ∀ r,
  quiet id c r → (∀ r x, quiet id c r → quiet id c (f r x)) → quiet id c (foldl f r l).
Proof. induction l as [|x l IH]; intros r Hr Hf; simpl; [done|]. apply IH; auto. Qed.

Lemma on_pool_quiet {A} c k (f : Store → PoolInfo → comp (Store * PoolInfo * A)) : quiet fst c (on_pool c k f).
Proof.
  unfold on_pool. apply quiet_pure. intros p. apply quiet_pure. intros [[st p'] r]. by apply quiet_ret.
Qed.
Lemma on_pool__quiet c k f : quiet id c (on_pool_ c k f).
Proof.
  unfold on_pool_. intros x E. destruct (on_pool c k _) as [[c' u]|] eqn:Eo; [|done]. injection E as <-.
  by apply (on_pool_quiet c k _ _ Eo).
Qed.
Lemma addPod_quiet c pod : quiet id c (addPod c pod).
Proof. apply on_pool__quiet. Qed.
Lemma removePod_quiet c pod : quiet fst c (removePod c pod).
Proof. apply on_pool_quiet. Qed.
Lemma updatePod_quiet c old new : quiet fst c (updatePod c old new).
Proof.
  eapply quiet_bind; [apply removePod_quiet|]. intros [c1 [e|]]; [by apply quiet_ret|].
  eapply quiet_bind; [apply addPod_quiet|]. intros c2. by apply quiet_ret.
Qed.
Lemma removeImages_quiet c node : pods_part (removeNodeImageStates c node) = pods_part c.
Proof. by destruct node. Qed.
Lemma addImages_quiet c node l : quiet id c (addNodeImageStates c node l).
Proof.
  unfold addNodeImageStates. destruct (foldl _ _ _) as [images newSum]. apply quiet_pure. intros info. apply quiet_pure.
  intros st. by apply quiet_ret.
Qed.
Lemma item_SetNode_quiet c l node : quiet id c (item_SetNode c l node).
Proof. apply quiet_pure. intros info. apply quiet_pure. intros st. by apply quiet_ret. Qed.
Lemma item_removeImages_quiet c l : quiet id c (item_removeImages c l).
Proof. apply quiet_pure. intros info. apply quiet_ret, removeImages_quiet. Qed.
Lemma move_item_quiet c from to item : quiet id c (move_item c from to item).
Proof. eapply quiet_bind; [apply on_pool_quiet|]. intros [c1 e]. apply on_pool__quiet. Qed.

Lemma images_of_quiet c k node :
  quiet fst c (p ← ca_pools c !! k; l ← PoolInfo_Nodes p !! node_Name node; c ← addNodeImageStates c node l; Some (c, None : option error)).
Proof.
  apply quiet_pure. intros p. apply quiet_pure. intros l. eapply quiet_bind; [apply addImages_quiet|].
  intros c2. by apply quiet_ret.
Qed.
Lemma AddNode_quiet c node : quiet fst c (Cache_AddNode c node).
Proof.
  unfold Cache_AddNode. apply quiet_pure. intros p. set (c1 := match ContainsNode _ _ with Some _ => _ | None => _ end).
  assert (pods_part c1 = pods_part c) as E1 by (unfold c1; by destruct (ContainsNode _ _)).
  intros x E. rewrite <-E1. revert x E.
  change (quiet fst c1 (c2 ← on_pool_ c1 (matchPoolForNode c (Some node)) (λ st p, PoolInfo_AddNode st p node);
    p ← ca_pools c2 !! matchPoolForNode c (Some node); l ← PoolInfo_Nodes p !! node_Name node;
    c3 ← addNodeImageStates c2 node l; Some (c3, None : option error))).
  eapply quiet_bind; [apply on_pool__quiet|]. intros c2. apply images_of_quiet.
Qed.
Lemma UpdateNode_quiet c old node : quiet fst c (Cache_UpdateNode c old node).
Proof.
  unfold Cache_UpdateNode.
  case_bool_decide; apply quiet_pure; intros p.
  - eapply (quiet_bind id); [destruct (ContainsNode p _); [apply item_removeImages_quiet|by apply quiet_ret]|]. intros c1.
    eapply quiet_bind; [apply on_pool__quiet|]. intros c2. apply images_of_quiet.
  - eapply (quiet_bind fst).
    { destruct (ContainsNode p _); [|by apply quiet_ret]. eapply quiet_bind; [apply item_removeImages_quiet|]. intros c1. apply on_pool_quiet. }
    intros [c1 [e|]]; [by apply quiet_ret|]. apply quiet_pure. intros p1. destruct (ContainsNode p1 _).
    + eapply quiet_bind; [apply item_removeImages_quiet|]. intros c2. eapply quiet_bind; [apply on_pool__quiet|]. intros c3.
      eapply quiet_bind; [apply item_SetNode_quiet|]. intros c4. apply images_of_quiet.
    + eapply quiet_bind; [apply on_pool__quiet|]. intros c2. apply quiet_pure. intros l.
      eapply quiet_bind; [apply item_SetNode_quiet|]. intros c3. apply images_of_quiet.
Qed.
Lemma RemoveNode_quiet c node : quiet fst c (Cache_RemoveNode c node).
Proof.
  eapply quiet_bind; [apply on_pool_quiet|]. intros [c1 [e|]]; apply quiet_ret; [done|]. apply removeImages_quiet.
Qed.

Lemma moveTo_quiet c k : quiet id c (moveAllNodeInfosFromMatchedPoolsTo c k).
Proof.
  unfold moveAllNodeInfosFromMatchedPoolsTo. apply quiet_pure. intros df. eapply (quiet_bind id).
  - apply quiet_foldl; [by apply quiet_ret|]. intros r e Hr. eapply quiet_bind; [exact Hr|]. intros c1. apply quiet_pure. intros info.
    repeat case_match; try (by apply quiet_ret); apply move_item_quiet.
  - intros c1. apply quiet_foldl; [by apply quiet_ret|]. intros r k1 Hr. eapply quiet_bind; [exact Hr|]. intros c2. apply quiet_pure.
    intros pi. destruct (_ || _); [by apply quiet_ret|]. apply quiet_foldl; [by apply quiet_ret|]. intros r2 e Hr2.
    eapply quiet_bind; [exact Hr2|]. intros c3. apply quiet_pure. intros info. apply quiet_pure. intros self.
    case_match; [apply move_item_quiet|by apply quiet_ret].
Qed.
Lemma moveFrom_quiet c k : quiet id c (moveNodeInfosToMatchedPoolFrom c k).
Proof.
  unfold moveNodeInfosToMatchedPoolFrom. apply quiet_pure. intros df. eapply (quiet_bind id).
  - apply quiet_foldl; [by apply quiet_ret|]. intros r e Hr. eapply quiet_bind; [exact Hr|]. intros c1. apply quiet_pure. intros ms.
    repeat case_match; try (by apply quiet_ret); apply move_item_quiet.
  - intros c1. apply quiet_pure. intros pi. apply quiet_foldl; [by apply quiet_ret|]. intros r e Hr. eapply quiet_bind; [exact Hr|].
    intros c2. apply quiet_pure. intros ms. repeat case_match; apply move_item_quiet.
Qed.
Lemma SetPool_at_quiet c k pool : quiet id c (SetPool_at c k pool).
Proof. apply quiet_pure. intros p. by apply quiet_ret. Qed.
Lemma with_pool_quiet c k pool : quiet id c (SetPool_at (with_pool c k) k pool).
Proof.
  assert (pods_part (with_pool c k) = pods_part c) as E by (unfold with_pool; by case_match).
  intros x Ex. rewrite <-E. by apply (SetPool_at_quiet _ k pool).
Qed.
Lemma AddPool_quiet c pool : quiet fst c (Cache_AddPool c pool).
Proof.
  unfold Cache_AddPool. case_bool_decide; [by apply quiet_ret|]. eapply quiet_bind; [apply with_pool_quiet|]. intros c1.
  eapply quiet_bind; [apply moveTo_quiet|]. intros c2. by apply quiet_ret.
Qed.
Lemma UpdatePool_quiet c old pool : quiet fst c (Cache_UpdatePool c old pool).
Proof.
  unfold Cache_UpdatePool. destruct (ca_pools c !! pool_Name pool).
  - eapply quiet_bind; [apply SetPool_at_quiet|]. intros c1. destruct (PoolResourcePropertiesChanged _ _); [|by apply quiet_ret].
    eapply quiet_bind; [apply moveFrom_quiet|]. intros c2. eapply quiet_bind; [apply moveTo_quiet|]. intros c3. by apply quiet_ret.
  - eapply quiet_bind; [apply with_pool_quiet|]. intros c1. eapply quiet_bind; [apply moveTo_quiet|]. intros c2. by apply quiet_ret.
Qed.
Lemma RemovePool_quiet c pool : quiet fst c (Cache_RemovePool c pool).
Proof.
  unfold Cache_RemovePool. case_bool_decide; [by apply quiet_ret|]. destruct (ca_pools c !! pool_Name pool); [|by apply quiet_ret].
  eapply quiet_bind; [apply moveFrom_quiet|]. intros c1. by apply quiet_ret.
Qed.
Lemma UpdateSnapshot_quiet b c n : quiet fst c (Cache_UpdateNodeInfoSnapshot b c n).
Proof.
  unfold Cache_UpdateNodeInfoSnapshot. destruct (ca_pools c !! n); [|by apply quiet_ret].
  eapply quiet_bind; [apply on_pool__quiet|]. intros c1. by apply quiet_ret.
Qed.
End cache.

(** ** The scheduler *)

Section frame.
Context {K8s : K8sLib} {Range : MapRange} {Sort : GoSort} {Errs : ErrorsLib} {Api : ApiErrors} {Pu : PodUtil}.
Context {M PM Q : Type} {Pm : PredicateMetadata M} {SQ : SchedulingQueue Q}.
Abbreviation Scheduler := (@Scheduler M PM Q).
Implicit Types (s : Scheduler) (w : World).

(** The algorithm leaves the states of pods alone. *)
Lemma findNodes_quiet ws (g g' : @genericScheduler M PM (PoolQueue Q)) n pod nodes r :
  findNodesThatFit ws g n pod nodes = Some (g', r) → pods_part (gs_cache g') = pods_part (gs_cache g).
Proof. apply (findNodes_frame (λ g, pods_part (gs_cache g))). intros. unfold set_nodeTree. by case_match. Qed.
Lemma Schedule_quiet b ws (g g' : @genericScheduler M PM (PoolQueue Q)) n pod pvcs nodes r :
  Schedule b ws g n pod pvcs nodes = Some (g', r) → pods_part (gs_cache g') = pods_part (gs_cache g).
Proof.
  unfold Schedule. destruct (podPassesBasicChecks _ _ _); [by intros ?; simplify_eq|]. destruct nodes as [|l]; [by intros ?; simplify_eq|].
  destruct (bool_decide (length l = O)); [by intros ?; simplify_eq|]. destruct (Cache_UpdateNodeInfoSnapshot _ _ _) as [[c e]|] eqn:Ec; [|done].
  apply UpdateSnapshot_quiet in Ec. simpl in Ec. cbn [mbind option_bind].
  destruct e; [intros E; injection E; intros; subst; exact Ec|]. destruct (findNodesThatFit _ _ _ _ _) as [[g1 r1]|] eqn:Ef; [|done]. cbn [mbind option_bind].
  apply findNodes_quiet in Ef. simpl in Ef. assert (pods_part (gs_cache g1) = pods_part (gs_cache g)) as Eg by congruence.
  destruct r1 as [e|[[|node [|node' f]] m]]; try (intros E; injection E; intros; subst; exact Eg).
  destruct (snapshot_of g1 n); [|done]. cbn [mbind option_bind].
  destruct (PrioritizeNodes _ _ _ _ _ _) as [[e|l1]|]; cbn [mbind option_bind]; [intros E; injection E; intros; subst; exact Eg| |done].
  destruct (selectHost _ _) as [[k [e|h]]|]; cbn [mbind option_bind]; [..|done]; intros E; injection E; intros; subst; exact Eg.
Qed.

Lemma elem_delete {A} (l : list A) i t x : l !! i = Some t → x ∈ l → x = t ∨ x ∈ delete i l.
Proof.
  intros E Hx. rewrite <-(take_drop_middle l i t E) in Hx. rewrite delete_take_drop. rewrite elem_of_app in *.
  rewrite elem_of_cons in Hx. tauto.
Qed.

(** The states of pods stay, and no goroutine ends. *)
Record grows s s' : Prop := {
  gr_cache : pods_part (sc_cache s') = pods_part (sc_cache s);
  gr_goroutines t : t ∈ sc_goroutines s → t ∈ sc_goroutines s'
}.
(** The queues stay, and no goroutine ends. *)
Record frames s s' : Prop := {
  fr_names : names (sc_queue s') = names (sc_queue s);
  fr_removals : sc_removals s' = sc_removals s;
  fr_goroutines t : t ∈ sc_goroutines s → t ∈ sc_goroutines s'
}.
Definition steady s s' : Prop := grows s s' ∧ frames s s'.

#[export] Instance grows_preorder : PreOrder grows.
Proof. split; [by split|]. intros s1 s2 s3 [] []. split; [congruence|auto]. Qed.
#[export] Instance frames_preorder : PreOrder frames.
Proof. split; [by split|]. intros s1 s2 s3 [] []. split; [congruence|congruence|auto]. Qed.
#[export] Instance steady_preorder : PreOrder steady.
Proof. split; [intros s; by split|]. intros s1 s2 s3 [] []. split; by etrans. Qed.

Lemma steady_intro s s' :
  pods_part (sc_cache s') = pods_part (sc_cache s) → names (sc_queue s') = names (sc_queue s) → sc_removals s' = sc_removals s →
  (∀ t, t ∈ sc_goroutines s → t ∈ sc_goroutines s') → steady s s'.
Proof. intros. by repeat split. Qed.
Lemma steady_spawn s t : steady s (spawn s t).
Proof. apply steady_intro; [done..|]. intros u Hu. simpl. rewrite elem_of_app. by left. Qed.
Lemma steady_queue s q : names q = names (sc_queue s) → steady s (with_queue s q).
Proof. intros. by apply steady_intro. Qed.
Lemma steady_queue_at s n q q' : queues (sc_queue s) !! n = Some q → steady s (with_queue s (set_queue (sc_queue s) n q')).
Proof. intros E. apply steady_queue. by eapply names_set. Qed.
Lemma steady_cache s c : pods_part c = pods_part (sc_cache s) → steady s (with_cache s c).
Proof. intros. by apply steady_intro. Qed.
Lemma steady_quiet {A} s (get : A → schedulerCache) r x : quiet get (sc_cache s) r → r = Some x → steady s (with_cache s (get x)).
Proof. intros Hq E. apply steady_cache. by apply Hq. Qed.

(** *** Failures and preemption *)

Lemma error_node_steady w s err s' : error_node w s err = Some s' → steady s s'.
Proof.
  unfold error_node. repeat case_match; try by intros [= <-].
  destruct (Cache_RemoveNode _ _) as [[c ?]|] eqn:Ec; [|done]. intros [= <-]. by apply (steady_quiet s _ _ _ (RemoveNode_quiet _ _)) in Ec.
Qed.
Lemma record_steady w s n pod err reason nb s' : recordSchedulingFailure w s n pod err reason nb = Some s' → steady s s'.
Proof.
  unfold recordSchedulingFailure, MakeDefaultErrorFunc. destruct (error_node w s err) as [s1|] eqn:E1; [|done].
  apply error_node_steady in E1. cbn [mbind option_bind].
  assert (∀ s2, steady s s2 → steady s (podConditionUpdater_Update w s2 pod (MkPodCondition "PodScheduled" "False" reason zeroTime zeroTime)).1) as Hup.
  { intros s2 H2. etrans; [exact H2|]. unfold podConditionUpdater_Update. destruct (UpdatePodCondition _ _) as [st []]; by split. }
  destruct (PoolQueue_GetQueue _ _) as [|q]; cbn [mbind option_bind]; intros [= <-]; apply Hup; [done|].
  etrans; [exact E1|apply steady_spawn].
Qed.
Lemma delete_victims_steady w l : ∀ s, steady s (delete_victims w s l).1.
Proof. induction l as [|p l IH]; intros s; [done|]. simpl. destruct (w_DeletePod w p); [by split|]. etrans; [|apply (IH (call s _))]. by split. Qed.
Lemma clear_nominated_steady w l : ∀ s, steady s (clear_nominated w s l).
Proof.
  induction l as [|p l IH]; intros s; [done|]. unfold clear_nominated in *. simpl. etrans; [|apply IH].
  unfold RemoveNominatedNodeName. case_match; by split.
Qed.
Lemma preempt_steady w s n pod err s' name e nb : preempt w s n pod err = Some (s', name, e, nb) → steady s s'.
Proof.
  unfold preempt, PoolQueue_GetQueue. intros E.
  assert (∀ s1, steady s s1 → ∀ l, steady s (clear_nominated w s1 l)) as Hclear by (intros s1 H1 l; etrans; [exact H1|apply clear_nominated_steady]).
  destruct (GetUpdatedPod w pod) as [?|p]; [by simplify_eq|]. destruct (Preempt _ _ _ _ _ _) as [r|]; [|done]. cbn [mbind option_bind] in E.
  destruct (pr_Err r); [by simplify_eq|]. destruct (pr_Node r) as [node|]; [|injection E as <- _ _ _; by apply Hclear].
  destruct (queues (sc_queue s) !! n) as [q|] eqn:Eq; [|by simplify_eq]. cbn [SetNominatedNodeName] in E.
  set (s2 := call (with_queue s _) _) in *.
  assert (steady s s2) as H2 by (etrans; [by eapply steady_queue_at|by split]). clearbody s2.
  destruct (w_UpdateStatus w _).
  - destruct (queues (sc_queue s2) !! n) eqn:Eq2; injection E as <- _ _ _; [|done]. etrans; [exact H2|]. by eapply steady_queue_at.
  - pose proof (delete_victims_steady w (pr_Victims r) s2) as Hv. destruct (delete_victims w s2 (pr_Victims r)) as [s3 e3].
    assert (steady s s3) as H3 by (etrans; [exact H2|exact Hv]).
    destruct e3; injection E as <- _ _ _; [done|by apply Hclear].
Qed.

Lemma unfit_steady w s n pod err s' : scheduleOne_unfit w s n pod err = Some s' → steady s s'.
Proof.
  unfold scheduleOne_unfit. intros E.
  match type of E with (?x ≫= _) = _ => destruct x as [[s1 nb]|] eqn:E1 end; cbn [mbind option_bind] in E; [|done].
  apply record_steady in E. etrans; [|exact E]. clear E s'.
  destruct err; [|by simplify_eq..]. destruct (negb _ || _); [by simplify_eq|]. case_bool_decide; [|by simplify_eq].
  match type of E1 with (?x ≫= _) = _ => destruct x as [[s2 nb2]|] eqn:E2 end; cbn [mbind option_bind] in E1; [|done].
  destruct (MoveAllBorrowingPodsToSelfQueue _ _ _) as [q|] eqn:Eq; [|done]. cbn [mbind option_bind] in E1. injection E1 as <- <-.
  assert (steady s s2) as H2; [|etrans; [exact H2|]; apply steady_queue; by eapply MoveAllBorrowing_names].
  destruct (GetPool _ _) as [|p]; [by simplify_eq|]. destruct (DisablePreemption p); [by simplify_eq|].
  destruct (preempt _ _ _ _ _) as [[[[s3 name] e3] nb3]|] eqn:E3; [|done]. injection E2 as <- <-. by eapply preempt_steady.
Qed.

Lemma return_pod_steady w s n ptr pod cycle n' s' : return_pod w s n ptr pod cycle n' = Some s' → steady s s'.
Proof.
  unfold return_pod. case_bool_decide.
  - destruct (queue_at s n ptr) as [q|] eqn:Eq; [|by intros [= <-]]. destruct (sq_AddUnschedulableIfNotPresent _ _ _ _ _); [|done]. intros [= <-].
    unfold queue_at in Eq. case_bool_decide; [|done]. by eapply steady_queue_at.
  - unfold PoolQueue_GetQueue. destruct (queues (sc_queue s) !! n') as [q|] eqn:Eq; [|by intros [= <-]].
    destruct (sq_AddIfNotPresent _ _ _ _); [|done]. intros [= <-]. by eapply steady_queue_at.
Qed.

(** *** Events *)

Lemma move_all_steady w s s' : move_all w s = Some s' → steady s s'.
Proof. unfold move_all. destruct (PoolQueue_MoveAllToActiveQueue _ _) eqn:E; [|done]. intros [= <-]. apply steady_queue. by eapply MoveAll_names. Qed.
Lemma move_all_in_steady w s n s' : move_all_in w s n = Some s' → steady s s'.
Proof. unfold move_all_in. destruct (PoolQueue_MoveAllToActiveQueueIn _ _ _) eqn:E; [|done]. intros [= <-]. apply steady_queue. by eapply MoveAllIn_names. Qed.
Lemma updatePool_steady w s o o' s' : updatePoolInCache w s o o' = Some s' → steady s s'.
Proof.
  unfold updatePoolInCache. destruct o; try by intros [= <-]. destruct o'; try by intros [= <-].
  destruct (Cache_UpdatePool _ _ _) as [[c e]|] eqn:Ec; [|done]. cbn [mbind option_bind].
  apply (steady_quiet s _ _ _ (UpdatePool_quiet _ _ _)) in Ec. simpl in Ec. destruct (PoolResourcePropertiesChanged _ _); [|by intros [= <-]].
  intros Em%move_all_steady. by etrans.
Qed.
Lemma addNode_steady w s o s' : addNodeToCache w s o = Some s' → steady s s'.
Proof.
  unfold addNodeToCache. destruct o; try by intros [= <-]. destruct (Cache_AddNode _ _) as [[c e]|] eqn:Ec; [|done]. cbn [mbind option_bind].
  apply (steady_quiet s _ _ _ (AddNode_quiet _ _)) in Ec. intros Em%move_all_in_steady. by etrans.
Qed.
Lemma updateNode_steady w s o o' s' : updateNodeInCache w s o o' = Some s' → steady s s'.
Proof.
  unfold updateNodeInCache. destruct o; try by intros [= <-]. destruct o'; try by intros [= <-].
  destruct (Cache_UpdateNode _ _ _) as [[c e]|] eqn:Ec; [|done]. cbn [mbind option_bind].
  apply (steady_quiet s _ _ _ (UpdateNode_quiet _ _ _)) in Ec. simpl in Ec. destruct (_ || _); [|by intros [= <-]].
  intros Em%move_all_in_steady. by etrans.
Qed.
Lemma deleteNode_steady w s o s' : deleteNodeFromCache w s o = Some s' → steady s s'.
Proof.
  unfold deleteNodeFromCache. destruct (deleted_object o); try by intros [= <-].
  destruct (Cache_RemoveNode _ _) as [[c e]|] eqn:Ec; [|done]. intros [= <-]. by apply (steady_quiet s _ _ _ (RemoveNode_quiet _ _)) in Ec.
Qed.
Lemma storageClass_steady w s o s' : onStorageClassAdd w s o = Some s' → steady s s'.
Proof. unfold onStorageClassAdd. repeat case_match; try by intros [= <-]. apply move_all_steady. Qed.
Lemma addPod_steady w s o s' : addPodToSchedulingQueue w s o = Some s' → steady s s'.
Proof.
  unfold addPodToSchedulingQueue. destruct o; try done. destruct (PoolQueue_Add _ _ _) as [[q e]|] eqn:E; [|done]. intros [= <-].
  apply steady_queue. by eapply Add_names.
Qed.
Lemma updatePod_steady w s o o' s' : updatePodInSchedulingQueue w s o o' = Some s' → steady s s'.
Proof.
  unfold updatePodInSchedulingQueue. destruct o'; try done. destruct (skipPodUpdate _ _); [by intros [= <-]|]. destruct o; try done.
  destruct (PoolQueue_Update _ _ _ _) as [[q e]|] eqn:E; [|done]. intros [= <-]. apply steady_queue. by eapply Update_names.
Qed.
Lemma deletePod_steady s o s' : deletePodFromSchedulingQueue s o = Some s' → steady s s'.
Proof.
  unfold deletePodFromSchedulingQueue. destruct (deleted_object o); try by intros [= <-].
  destruct (PoolQueue_Delete _ _) as [[q e]|] eqn:E; [|done]. intros [= <-]. apply steady_queue. by eapply Delete_names.
Qed.
End frame.

(** Proves that a handler that is [steady] keeps an invariant: [inv] keeps it along [steady] steps. *)
Ltac by_steady inv :=
  eapply inv; [|eassumption];
  first [by eapply updatePool_steady|by eapply addNode_steady|by eapply updateNode_steady|by eapply deleteNode_steady
        |by eapply storageClass_steady|by eapply move_all_steady|by eapply addPod_steady|by eapply updatePod_steady
        |by eapply deletePod_steady].
