(* ===== verification/BindingProofs.v ===== *)
(** * Assumed pods and their bindings

    A pod that the cache assumes holds resources of its node.  It gives them back when the
    informer confirms or contradicts the assumption, when it is forgotten, or when it expires;
    and it expires only after its binding is finished.  So every assumed pod whose binding is not
    finished needs a goroutine that finishes it: that is [accounted] below, and the theorem
    says which steps can break it. *)
From S2P Require Import Prelude Heap Api Util Backoff SchedulingQueue PoolQueue PoolQueueProofs Resource HostPorts NodeTree NodeInfo PoolInfo Predicates Cache GenericScheduler VolumePredicates Scheduler EventHandlers SchedulerProofs FrameProofs.

Section cache.
Context {K8s : K8sLib} {Range : MapRange} {Sort : GoSort}.
Implicit Types (c : schedulerCache) (pod : Pod) (B : string → Prop).

(** ** The invariant on the cache *)

(** Every assumed pod has a finished binding, or is in the hands of [B]. *)
Definition accounted c B : Prop := ∀ uid, assumed c uid = true →
  uid ≠ EmptyString ∧ ∃ ps, ca_podStates c !! uid = Some ps ∧ (ps_bindingFinished ps = true ∨ B uid).

Lemma accounted_quiet c c' B : accounted c B → pods_part c' = pods_part c → accounted c' B.
Proof. intros Hc [= E1 E2] uid. unfold assumed. rewrite E1, E2. apply Hc. Qed.
Lemma accounted_mono c B B' : accounted c B → (∀ uid, B uid → B' uid) → accounted c B'.
Proof. intros Hc Hb uid Ha. destruct (Hc uid Ha) as (? & ps & ? & [?|?]); split; eauto. Qed.

(** The state of one pod changes. *)
Lemma accounted_at c c' B key :
  accounted c B → (∀ uid, uid ≠ key → ca_assumedPods c' !! uid = ca_assumedPods c !! uid ∧ ca_podStates c' !! uid = ca_podStates c !! uid) →
  (assumed c' key = true → key ≠ EmptyString ∧ ∃ ps, ca_podStates c' !! key = Some ps ∧ (ps_bindingFinished ps = true ∨ B key)) →
  accounted c' B.
Proof.
  intros Hc Hother Hkey uid Ha. destruct (decide (uid = key)) as [->|Hne]; [by apply Hkey|].
  destruct (Hother uid Hne) as [E1 E2]. rewrite E2. apply Hc. unfold assumed in *. by rewrite <-E1.
Qed.

Lemma GetPodKey_inr pod key : GetPodKey pod = inr key → key = pod_UID pod ∧ key ≠ EmptyString.
Proof. unfold GetPodKey. case_bool_decide; [done|]. by intros [= <-]. Qed.

Lemma AssumePod_accounted c pod c' err B :
  AssumePod c pod = Some (c', err) → accounted c B →
  match err with
  | Some _ => c' = c
  | None => accounted c' (λ uid, B uid ∨ uid = pod_UID pod)
  end.
Proof.
  unfold AssumePod. destruct (GetPodKey pod) as [e|key] eqn:Ek; [by intros [= <- <-]|]. apply GetPodKey_inr in Ek as [-> Hne].
  destruct (ca_podStates c !! pod_UID pod); [by intros [= <- <-]|]. destruct (addPod c pod) as [c1|] eqn:E1; [|done].
  apply addPod_quiet in E1. injection E1 as E1 E2. intros [= <- <-] Hc. apply (accounted_mono _ _ (λ uid, B uid ∨ uid = pod_UID pod)) in Hc; [|auto].
  eapply (accounted_at c); [exact Hc| |].
  - intros uid Hu. simpl. rewrite !lookup_insert_ne by done. unfold id in *. by rewrite E1, E2.
  - intros _. split; [done|]. simpl. rewrite lookup_insert_eq. eauto.
Qed.

Lemma finishBinding_accounted c pod now B :
  accounted c (λ uid, B uid ∨ uid = pod_UID pod) → accounted (finishBinding c pod now).1 B.
Proof.
  intros Hc. unfold finishBinding. destruct (GetPodKey pod) as [e|key] eqn:Ek.
  - intros uid Ha. destruct (Hc uid Ha) as (Hne & ps & E & Hps). split; [done|]. exists ps. split; [done|].
    destruct Hps as [?|[?| ->]]; [by left|by right|]. unfold GetPodKey in Ek. case_bool_decide; done.
  - apply GetPodKey_inr in Ek as [-> Hne].
    assert (assumed c (pod_UID pod) = false → accounted c B) as Hnot.
    { intros Hf uid Ha. destruct (Hc uid Ha) as (? & ps & E & [?|[?| ->]]); [eauto..|congruence]. }
    destruct (ca_podStates c !! pod_UID pod) as [ps|] eqn:Es.
    + destruct (assumed c (pod_UID pod)) eqn:Ea; [|by apply Hnot]. intros uid Ha. simpl.
      destruct (decide (uid = pod_UID pod)) as [->|Hu]; [rewrite lookup_insert_eq; eauto|]. rewrite lookup_insert_ne by done.
      destruct (Hc uid Ha) as (? & ps' & E & [?|[?| ->]]); [eauto..|done].
    + apply Hnot. destruct (assumed c (pod_UID pod)) eqn:Ea; [|done]. destruct (Hc _ Ea) as (_ & ps & E & _). congruence.
Qed.

(** After [ForgetPod] the pod needs no goroutine, unless it failed for an assumed pod. *)
Lemma ForgetPod_accounted c pod c' err B :
  ForgetPod c pod = Some (c', err) → accounted c (λ uid, B uid ∨ uid = pod_UID pod) →
  err = None ∨ assumed c (pod_UID pod) = false → accounted c' B.
Proof.
  unfold ForgetPod. intros E Hc Herr.
  assert (assumed c (pod_UID pod) = false → accounted c B) as Hnot.
  { intros Hf uid Ha. destruct (Hc uid Ha) as (? & ps & E' & [?|[?| ->]]); [eauto..|congruence]. }
  destruct (GetPodKey pod) as [e|key] eqn:Ek; [injection E as <- <-; destruct Herr; [done|auto]|].
  apply GetPodKey_inr in Ek as [-> Hne].
  destruct (ca_podStates c !! pod_UID pod) as [ps|]; [|injection E as <- <-; destruct Herr; [done|auto]].
  case_bool_decide; [|injection E as <- <-; destruct Herr; [done|auto]]. simpl in E.
  destruct (assumed c (pod_UID pod)) eqn:Ea; [|injection E as <- <-; auto].
  destruct Herr as [->|]; [|done]. destruct (removePod c pod) as [[c1 [e|]]|] eqn:Er; [done| |done]. cbn [mbind option_bind] in E.
  apply removePod_quiet in Er. injection Er as E1 E2. injection E as <-.
  intros uid Ha. simpl. destruct (decide (uid = pod_UID pod)) as [->|Hu].
  - unfold assumed in Ha. simpl in Ha. by rewrite lookup_delete_eq in Ha.
  - rewrite lookup_delete_ne by done. simpl in E1, E2. rewrite E2.
    assert (assumed c uid = true) as Ha' by (unfold assumed in *; simpl in Ha; by rewrite lookup_delete_ne, E1 in Ha by done).
    destruct (Hc uid Ha') as (? & ps' & E' & [?|[?| ->]]); [eauto..|done].
Qed.
(** A failing [ForgetPod] of a finished pod does no harm either. *)
Lemma ForgetPod_keeps c pod c' err B : ForgetPod c pod = Some (c', err) → accounted c B → accounted c' B.
Proof.
  intros E Hc. destruct err as [err|].
  - assert (pods_part c' = pods_part c) as Eq; [|by eapply accounted_quiet].
    unfold ForgetPod in E. repeat case_match; simplify_eq; try done; destruct (removePod c pod) as [[c1 [e'|]]|] eqn:Er;
      simplify_eq/=; try done; by apply removePod_quiet in Er.
  - eapply ForgetPod_accounted; [exact E| |by left]. eapply accounted_mono; [exact Hc|auto].
Qed.

Lemma AddPod_accounted c pod c' err B : Cache_AddPod c pod = Some (c', err) → accounted c B → accounted c' B.
Proof.
  unfold Cache_AddPod. intros E Hc. destruct (GetPodKey pod) as [e|key] eqn:Ek; [by simplify_eq|]. apply GetPodKey_inr in Ek as [-> Hne].
  destruct (ca_podStates c !! pod_UID pod) as [ps|] eqn:Es.
  - destruct (assumed c (pod_UID pod)) eqn:Ea; [|by simplify_eq].
    match type of E with (?x ≫= _) = _ => destruct x as [c1|] eqn:E1 end; [|done]. cbn [mbind option_bind] in E. injection E as <- <-.
    assert (pods_part c1 = pods_part c) as [= E2 E3].
    { case_bool_decide; [by simplify_eq/=|]. simpl in E1. destruct (removePod c (ps_pod ps)) as [[c2 e]|] eqn:Er; [|done].
      cbn [mbind option_bind] in E1. apply removePod_quiet in Er. apply addPod_quiet in E1. simpl in Er. unfold id in E1. congruence. }
    eapply (accounted_at c); [exact Hc| |].
    + intros uid Hu. simpl. rewrite lookup_delete_ne, lookup_insert_ne by done. by rewrite E2, E3.
    + unfold assumed. simpl. by rewrite lookup_delete_eq.
  - destruct (addPod c pod) as [c1|] eqn:E1; [|done]. cbn [mbind option_bind] in E. injection E as <- <-.
    apply addPod_quiet in E1. injection E1 as E2 E3. unfold id in *. eapply (accounted_at c); [exact Hc| |].
    + intros uid Hu. simpl. rewrite lookup_insert_ne by done. by rewrite E2, E3.
    + unfold assumed. simpl. rewrite E2. intros Ha. destruct (Hc (pod_UID pod) Ha) as (_ & ps & Es' & _). congruence.
Qed.

Lemma UpdatePod_accounted c old new c' err B : Cache_UpdatePod c old new = Some (c', err) → accounted c B → accounted c' B.
Proof.
  unfold Cache_UpdatePod. intros E Hc. destruct (GetPodKey old) as [e|key] eqn:Ek; [by simplify_eq|]. apply GetPodKey_inr in Ek as [-> Hne].
  destruct (ca_podStates c !! pod_UID old) as [ps|] eqn:Es; [|by simplify_eq].
  destruct (assumed c (pod_UID old)) eqn:Ea; simpl in E; [by simplify_eq|]. case_bool_decide; [|done]. simpl in E.
  destruct (updatePod c old new) as [[c1 e1]|] eqn:E1; [|done]. cbn [mbind option_bind] in E. apply updatePod_quiet in E1.
  destruct e1 as [e1|]; injection E as <- <-; [by eapply accounted_quiet|]. injection E1 as E2 E3.
  eapply (accounted_at c); [exact Hc| |].
  - intros uid Hu. simpl in *. rewrite lookup_insert_ne by done. by rewrite E2, E3.
  - unfold assumed in *. simpl in *. rewrite E2. congruence.
Qed.

Lemma RemovePod_accounted c pod c' err B : Cache_RemovePod c pod = Some (c', err) → accounted c B → accounted c' B.
Proof.
  unfold Cache_RemovePod. intros E Hc. destruct (GetPodKey pod) as [e|key] eqn:Ek; [by simplify_eq|]. apply GetPodKey_inr in Ek as [-> Hne].
  destruct (ca_podStates c !! pod_UID pod) as [ps|] eqn:Es; [|by simplify_eq].
  destruct (assumed c (pod_UID pod)) eqn:Ea; simpl in E; [by simplify_eq|]. case_bool_decide; [|done]. simpl in E.
  destruct (removePod c (ps_pod ps)) as [[c1 e1]|] eqn:E1; [|done]. cbn [mbind option_bind] in E. apply removePod_quiet in E1.
  destruct e1 as [e1|]; injection E as <- <-; [by eapply accounted_quiet|]. injection E1 as E2 E3.
  eapply (accounted_at c); [exact Hc| |].
  - intros uid Hu. simpl in *. rewrite lookup_delete_ne by done. by rewrite E2, E3.
  - unfold assumed in *. simpl in *. rewrite E2. congruence.
Qed.

Lemma cleanup_accounted c now c' B : cleanupAssumedPods c now = Some c' → accounted c B → accounted c' B.
Proof.
  unfold cleanupAssumedPods. intros E Hc. revert E. generalize (range (ca_assumedPods c)). intros l. revert c Hc.
  induction l as [|[key b] l IH]; intros c Hc E; simpl in E; [by simplify_eq|].
  destruct (cleanup1 now c key) as [c1|] eqn:E1.
  2:{ exfalso. clear -E. induction l as [|e l IH]; simpl in E; [done|auto]. }
  apply (IH c1); [|exact E]. clear IH E. unfold cleanup1 in E1.
  destruct (ca_podStates c !! key) as [ps|]; [|done]. cbn [mbind option_bind] in E1. destruct (negb _); [by simplify_eq|].
  destruct (ps_deadline ps) as [d|]; [|done]. cbn [mbind option_bind] in E1. destruct (time_after now d); [|by simplify_eq].
  unfold expirePod in E1. destruct (removePod c (ps_pod ps)) as [[c2 e2]|] eqn:Er; [|done]. cbn [mbind option_bind] in E1.
  apply removePod_quiet in Er. destruct e2 as [e2|]; injection E1 as <-; [by eapply accounted_quiet|]. injection Er as E2 E3.
  eapply (accounted_at c); [exact Hc| |].
  - intros uid Hu. simpl in *. rewrite !lookup_delete_ne by done. by rewrite E2, E3.
  - unfold assumed. simpl. by rewrite lookup_delete_eq.
Qed.
End cache.

(** ** The invariant on the scheduler *)

Section binding.
Context {K8s : K8sLib} {Range : MapRange} {Sort : GoSort} {Errs : ErrorsLib} {Api : ApiErrors} {Pu : PodUtil} {Inf : InformerLib} {ILaws : InformerLaws}.
Context {M PM Q : Type} {Pm : PredicateMetadata M} {SQ : SchedulingQueue Q}.
Abbreviation Scheduler := (@Scheduler M PM Q).
Implicit Types (s : Scheduler) (w : World).

(** The goroutines bind the pod with this UID. *)
Definition binds (l : list goroutine) (uid : string) : Prop :=
  ∃ n pod host allBound, GBind n pod host allBound ∈ l ∧ pod_UID pod = uid.

Definition all_accounted s : Prop := accounted (sc_cache s) (binds (sc_goroutines s)).

Lemma all_mono s s' :
  all_accounted s → pods_part (sc_cache s') = pods_part (sc_cache s) →
  (∀ t, t ∈ sc_goroutines s → t ∈ sc_goroutines s') → all_accounted s'.
Proof.
  intros Hs E Hl. eapply accounted_quiet; [|exact E]. eapply accounted_mono; [exact Hs|].
  intros uid (n & p & h & b & Hin & Hu). exists n, p, h, b. auto.
Qed.

Lemma grows_accounted s s' : grows s s' → all_accounted s → all_accounted s'.
Proof. intros [] Hs. by eapply all_mono. Qed.
Lemma steady_accounted s s' : steady s s' → all_accounted s → all_accounted s'.
Proof. intros [Hg _]. by apply grows_accounted. Qed.

(** ** Steps of goroutines *)

Lemma take_other s i t : sc_goroutines s !! i = Some t → (∀ n p h b, t ≠ GBind n p h b) → all_accounted s →
  all_accounted (with_goroutines s (delete i (sc_goroutines s))).
Proof.
  intros Ei Ht Hs. eapply accounted_mono; [exact Hs|]. intros uid (n & p & h & b & Hin & Hu).
  exists n, p, h, b. split; [|done]. destruct (elem_delete _ _ _ _ Ei Hin) as [<-|]; [|done]. by destruct (Ht n p h b).
Qed.
Lemma take_bind s i n p h b : sc_goroutines s !! i = Some (GBind n p h b) → all_accounted s →
  accounted (sc_cache s) (λ uid, binds (delete i (sc_goroutines s)) uid ∨ uid = pod_UID p).
Proof.
  intros Ei Hs. eapply accounted_mono; [exact Hs|]. intros uid (n' & p' & h' & b' & Hin & Hu).
  destruct (elem_delete _ _ _ _ Ei Hin) as [[= -> -> -> ->]|]; [by right|]. left. by exists n', p', h', b'.
Qed.

Lemma fits_accounted w s n pod host s' :
  scheduleOne_fits w s n pod host = Some s' → all_accounted s → all_accounted s' ∨ queue_missing s n.
Proof.
  unfold scheduleOne_fits, assumeVolumes. intros E Hs. destruct (w_AssumePodVolumes w pod host) as [p1 [err|allBound]].
  { destruct (recordSchedulingFailure _ _ _ _ _ _ _) as [s1|] eqn:E1; [|done]. injection E as <-. left. eapply steady_accounted; [|exact Hs].
    by eapply record_steady. }
  cbn [mbind option_bind] in E. destruct (reserve_error _ _ _) as [err|].
  { left. eapply steady_accounted; [by eapply record_steady|exact Hs]. }
  unfold assume in E. destruct (AssumePod _ _) as [[c [err|]]|] eqn:Ea; cbn [mbind option_bind] in E; [| |done].
  - destruct (recordSchedulingFailure _ _ _ _ _ _ _) as [s1|] eqn:E1; [|done]. cbn [mbind option_bind] in E. injection E as <-. left.
    apply (AssumePod_accounted _ _ _ _ _ Ea) in Hs as Ec. eapply steady_accounted; [by eapply record_steady|].
    unfold all_accounted. change (sc_cache (with_cache s c)) with c. rewrite Ec. exact Hs.
  - apply (AssumePod_accounted _ _ _ _ _ Ea) in Hs as Hc. unfold PoolQueue_GetQueue in E.
    change (sc_queue (with_cache s c)) with (sc_queue s) in E.
    destruct (queues (sc_queue s) !! n) as [q|] eqn:En; cbn [mbind option_bind] in E; injection E as <-; [left|by right].
    unfold all_accounted. change (sc_cache (spawn _ _)) with c. eapply accounted_mono; [exact Hc|]. simpl.
    intros uid [(n' & p' & h' & b' & Hin & Hu)| ->].
    + exists n', p', h', b'. split; [|done]. rewrite elem_of_app. by left.
    + eexists _, _, _, _. split; [rewrite elem_of_app, list_elem_of_singleton; by right|done].
Qed.

(** [ForgetPod] refuses to forget a pod that is assumed. *)
Definition forget_fails (c : schedulerCache) (pod : Pod) : Prop :=
  assumed c (pod_UID pod) = true ∧ ∃ c' err, ForgetPod c pod = Some (c', Some err).

Lemma bind_accounted w s n pod host allBound s' B :
  scheduleOne_bind w s n pod host allBound = Some s' →
  accounted (sc_cache s) (λ uid, B uid ∨ uid = pod_UID pod) → (∀ uid, B uid → binds (sc_goroutines s) uid) →
  all_accounted s' ∨ forget_fails (sc_cache s) pod.
Proof.
  unfold scheduleOne_bind. intros E Hs Hb.
  assert (∀ s1 err reason s2, forget s pod = Some s1 → recordSchedulingFailure w s1 n pod err reason false = Some s2 →
    all_accounted s2 ∨ forget_fails (sc_cache s) pod) as Hfail.
  { intros s1 err reason s2 E1 E2. unfold forget in E1. destruct (ForgetPod (sc_cache s) pod) as [[c e]|] eqn:Ef; [|done].
    cbn [mbind option_bind] in E1. injection E1 as <-.
    destruct (decide (e = None ∨ assumed (sc_cache s) (pod_UID pod) = false)) as [He|He].
    - left. eapply steady_accounted; [by eapply record_steady|]. unfold all_accounted. change (sc_cache (with_cache s c)) with c.
      eapply accounted_mono; [|exact Hb]. by eapply ForgetPod_accounted.
    - right. destruct e as [e|]; [|naive_solver]. split; [|eauto]. destruct (assumed _ _); [done|naive_solver]. }
  match type of E with (?x ≫= _) = _ => destruct x as [[s1 e1]|] eqn:E1 end; cbn [mbind option_bind] in E; [|done].
  assert (s1 = s ∧ e1 = None ∨ is_Some e1 ∧ (all_accounted s1 ∨ forget_fails (sc_cache s) pod)) as [[-> ->]|[[e ->] Hv]].
  { destruct (negb allBound); [|injection E1 as <- <-; by left]. unfold bindVolumes in E1.
    destruct (w_BindPodVolumes w pod) as [err|]; [|injection E1 as <- <-; by left]. right.
    destruct (forget s pod) as [s2|] eqn:E2; [|done]. cbn [mbind option_bind] in E1.
    destruct (recordSchedulingFailure _ _ _ _ _ _ _) as [s3|] eqn:E3; [|done]. injection E1 as <- <-. split; [eauto|]. by eapply Hfail. }
  2:{ by simplify_eq. }
  destruct (prebind_error _ _ _) as [[err reason]|].
  { destruct (forget s pod) as [s2|] eqn:E2; [|done]. cbn [mbind option_bind] in E. by eapply Hfail. }
  left. unfold bind in E. set (b := MkBinding _ _ _ _) in *. set (s2 := with_cache (call s (CallBind b)) _) in *.
  assert (all_accounted s2) as H2.
  { unfold all_accounted. change (sc_cache s2) with (finishBinding (sc_cache s) pod (w_now w)).1. change (sc_goroutines s2) with (sc_goroutines s).
    eapply accounted_mono; [by apply finishBinding_accounted|exact Hb]. }
  destruct (getBinderFunc _ _ _ b) as [err|]; cbn [mbind option_bind] in E; [|by simplify_eq].
  unfold forget in E. destruct (ForgetPod (sc_cache s2) pod) as [[c e]|] eqn:Ef; [|done]. cbn [mbind option_bind] in E.
  destruct (recordSchedulingFailure _ _ _ _ _ _ _) as [s3|] eqn:E3; [|done]. injection E as <-.
  eapply steady_accounted; [by eapply record_steady|]. unfold all_accounted. change (sc_cache (with_cache s2 c)) with c.
  by eapply ForgetPod_keeps.
Qed.

Lemma next_grows w s n wait s' : scheduleOnePool_next w s n wait = Some s' → grows s s'.
Proof.
  unfold scheduleOnePool_next. destruct (w_stopped w); [by intros [= <-]|]. destruct (match wait with Some _ => _ | None => _ end); [by intros [= <-]|].
  destruct (MakeNextPodFunc _ _) as [[q r]|]; [|done]. cbn [mbind option_bind].
  assert (∀ t, grows s (spawn (with_queue s q) t)) as Hsp by (intros t; etrans; [|apply steady_spawn]; by split).
  destruct r as [p|err|]; [destruct (DeletionTimestamp _)|destruct (_ || _)|]; intros [= <-]; try apply Hsp. by split.
Qed.

(** The steps after which an assumed pod may hold its node for ever. *)
Definition leaks s (e : event) : Prop :=
  ∃ i, e = EvRun i ∧
    ((∃ n pod host, sc_goroutines s !! i = Some (GFits n pod host) ∧ queue_missing s n) ∨
     (∃ n pod host b, sc_goroutines s !! i = Some (GBind n pod host b) ∧ forget_fails (sc_cache s) pod)).

Lemma goroutine_accounted w s i s' :
  step_goroutine w s i = Some s' → all_accounted s → all_accounted s' ∨ leaks s (EvRun i).
Proof.
  unfold step_goroutine. intros E Hs. destruct (sc_goroutines s !! i) as [t|] eqn:Ei; [|done]. cbn [mbind option_bind] in E.
  set (s0 := with_goroutines s (delete i (sc_goroutines s))) in *.
  assert ((∀ n p h b, t ≠ GBind n p h b) → all_accounted s0) as H0 by (intros; by eapply take_other).
  assert ((∀ n p h b, t ≠ GBind n p h b) → grows s0 s' → all_accounted s' ∨ leaks s (EvRun i)) as Hgrow.
  { intros Ht Hg. left. eapply grows_accounted; [exact Hg|by apply H0]. }
  destruct t as [n|n wait|n pod|n pod err|n pod host|n pod host allBound|n ptr id cycle nb [d|]]; cbn [run_goroutine] in E.
  - injection E as <-. apply Hgrow; [done|apply steady_spawn].
  - apply Hgrow; [done|]. by eapply next_grows.
  - apply Hgrow; [done|]. unfold schedule in E. destruct (Schedule _ _ _ _ _ _ _) as [[g r]|] eqn:Eg; [|done]. cbn [mbind option_bind] in E.
    apply Schedule_quiet in Eg. injection E as <-. etrans; [|apply steady_spawn]. by split.
  - apply Hgrow; [done|]. destruct (scheduleOne_unfit _ _ _ _ _) as [s1|] eqn:E1; [|done]. injection E as <-. etrans; [|apply steady_spawn].
    by eapply unfit_steady.
  - destruct (scheduleOne_fits _ _ _ _ _) as [s1|] eqn:E1; [|done]. injection E as <-.
    destruct (fits_accounted _ _ _ _ _ _ E1) as [H1|Hm]; [by apply H0|left; eapply steady_accounted; [apply steady_spawn|done]|].
    right. exists i. split; [done|]. left. eauto 10.
  - destruct (bind_accounted _ _ _ _ _ _ _ _ E (take_bind _ _ _ _ _ _ Ei Hs)) as [?|Hf]; [done|by left|].
    right. exists i. split; [done|]. right. eauto 10.
  - apply Hgrow; [done|]. unfold retry in E. destruct (w_GetPod w id.1 id.2) as [err|p].
    + destruct (IsNotFound err); injection E as <-; [done|apply steady_spawn].
    + case_bool_decide; [|by injection E as <-]. destruct (borrowPoolName _ _ _ _) as [n'|]; [|done]. cbn [mbind option_bind] in E. by eapply return_pod_steady.
  - apply Hgrow; [done|]. destruct (_ && _); injection E as <-; [done|apply steady_spawn].
Qed.

(** ** Events *)

Lemma addPool_grows w s o s' : addPoolToCache w s o = Some s' → grows s s'.
Proof.
  unfold addPoolToCache. destruct o; try by intros [= <-]. destruct (Cache_AddPool _ _) as [[c e]|] eqn:Ec; [|done]. cbn [mbind option_bind].
  apply (steady_quiet s _ _ _ (AddPool_quiet _ _)) in Ec as [Ec _]. simpl in Ec. destruct e; [by intros [= <-]|].
  destruct (move_all _ _) as [s1|] eqn:Em; [|done]. intros [= <-]. apply move_all_steady in Em as [Em _].
  etrans; [|apply steady_spawn]. etrans; [|exact Em]. etrans; [exact Ec|]. by split.
Qed.
Lemma deletePool_grows w s o s' : deletePoolFromCache w s o = Some s' → grows s s'.
Proof.
  unfold deletePoolFromCache. destruct (deleted_object o); try by intros [= <-].
  destruct (Cache_RemovePool _ _) as [[c e]|] eqn:Ec; [|done]. cbn [mbind option_bind].
  apply (steady_quiet s _ _ _ (RemovePool_quiet _ _)) in Ec as [Ec _]. simpl in Ec. destruct e; [by intros [= <-]|].
  destruct (remove_queue _ _ _) as [s1|] eqn:Er; [|done]. cbn [mbind option_bind]. intros Em%move_all_steady.
  etrans; [exact Ec|]. etrans; [|apply Em]. unfold remove_queue in Er.
  destruct (PoolQueue_RemoveQueue _ _ _) as [[q [r|]]|]; [| |done]; injection Er as <-; by split.
Qed.

(** The handlers of assigned pods change the states of pods. *)
Lemma addPodToCache_accounted w s o s' : addPodToCache w s o = Some s' → all_accounted s → all_accounted s'.
Proof.
  unfold addPodToCache. intros E Hs. destruct o; try by simplify_eq. destruct (Cache_AddPod _ _) as [[c e]|] eqn:Ec; [|done].
  cbn [mbind option_bind] in E. destruct (PoolQueue_AssignedPodAdded _ _ _); [|done]. injection E as <-. by eapply AddPod_accounted.
Qed.
Lemma updatePodInCache_accounted w s o o' s' : updatePodInCache w s o o' = Some s' → all_accounted s → all_accounted s'.
Proof.
  unfold updatePodInCache. intros E Hs. destruct o; try by simplify_eq. destruct o'; try by simplify_eq.
  destruct (Cache_UpdatePod _ _ _) as [[c e]|] eqn:Ec; [|done]. cbn [mbind option_bind] in E.
  destruct (PoolQueue_AssignedPodUpdated _ _ _); [|done]. injection E as <-. by eapply UpdatePod_accounted.
Qed.
Lemma deletePodFromCache_accounted w s o s' : deletePodFromCache w s o = Some s' → all_accounted s → all_accounted s'.
Proof.
  unfold deletePodFromCache. intros E Hs. destruct (deleted_object o); try by simplify_eq.
  destruct (Cache_RemovePod _ _) as [[c e]|] eqn:Ec; [|done]. cbn [mbind option_bind] in E.
  eapply steady_accounted; [by eapply move_all_in_steady|]. by eapply RemovePod_accounted.
Qed.

Variable schedulerName : string.

Lemma step_accounted w s e s' : step schedulerName w s e = Some s' → all_accounted s → all_accounted s' ∨ leaks s e.
Proof.
  intros E Hs. destruct e as [h o|h o o'|h o|i|n i|]; [| | |by eapply goroutine_accounted| |].
  - left. destruct h; simpl in E; rewrite ?filtering_add in E; simpl in E; try by_steady steady_accounted.
    + destruct (scheduled_filter o); [by eapply addPodToCache_accounted|by injection E as <-].
    + destruct (unscheduled_filter schedulerName o); [by_steady steady_accounted|by injection E as <-].
    + eapply grows_accounted; [by eapply addPool_grows|done].
  - left. destruct h; simpl in E; rewrite ?filtering_update in E; simpl in E; try by_steady steady_accounted.
    + destruct (scheduled_filter o), (scheduled_filter o'); [by eapply updatePodInCache_accounted|by eapply deletePodFromCache_accounted|
        by eapply addPodToCache_accounted|by injection E as <-].
    + destruct (unscheduled_filter schedulerName o), (unscheduled_filter schedulerName o'); try by_steady steady_accounted.
      by injection E as <-.
    + by injection E as <-.
  - left. destruct h; simpl in E; rewrite ?filtering_delete in E; simpl in E; try by_steady steady_accounted; try (by injection E as <-).
    + destruct (scheduled_filter o); [by eapply deletePodFromCache_accounted|by injection E as <-].
    + destruct (unscheduled_filter schedulerName o); [by_steady steady_accounted|by injection E as <-].
    + eapply grows_accounted; [by eapply deletePool_grows|done].
  - left. simpl in E. destruct (queues (sc_queue s) !! n) as [q|]; [|done]. cbn [mbind option_bind] in E. destruct (sq_run !! i) as [f|]; [|done].
    cbn [mbind option_bind] in E. destruct (f _ _ _); [|done]. injection E as <-. eapply grows_accounted; [|exact Hs]. by split.
  - left. simpl in E. destruct (cleanupAssumedPods _ _) as [c|] eqn:Ec; [|done]. injection E as <-. by eapply cleanup_accounted.
Qed.

Context {Laws : SchedulingQueueLaws Q}.

(** C6: every assumed pod gets its binding finished.  From a start with nothing assumed, in every run, an assumed pod has a finished
    binding, so that it expires if the informer stays silent, or a goroutine is
    binding it; unless a step of the run assumed a pod whose queue had been removed,
    or a goroutine could not make the cache forget its pod. *)
Theorem assumed_has_binding now s l now' s' :
  ca_assumedPods (sc_cache s) = ∅ → run schedulerName now s l now' s' →
  (∀ uid, assumed (sc_cache s') uid = true →
     ∃ ps, ca_podStates (sc_cache s') !! uid = Some ps ∧ (ps_bindingFinished ps = true ∨ binds (sc_goroutines s') uid)) ∨
  ∃ l1 w e l2 now1 s1, l = l1 ++ (w, e) :: l2 ∧ run schedulerName now s l1 now1 s1 ∧ leaks s1 e.
Proof.
  intros H0 Hr. assert (all_accounted s) as Hs by (intros uid; unfold assumed; by rewrite H0, lookup_empty). clear H0.
  induction Hr as [now s|now s w e s1 l now' s2 Hl E _ IH]; [left; intros uid Ha; by apply Hs|].
  destruct (step_accounted _ _ _ _ E Hs) as [H1|Hleak].
  - destruct (IH H1) as [?|(l1 & w1 & e1 & l2 & now1 & s3 & -> & Hr1 & Hlk)]; [by left|right].
    exists ((w, e) :: l1), w1, e1, l2, now1, s3. split_and!; [done|by econstructor|done].
  - right. exists [], w, e, l, now, s. split_and!; [done|constructor|done].
Qed.
End binding.
