(* ===== verification/ServedProofs.v ===== *)
(** * Every queue is served

    A pod that is pending is looked at only if some goroutine takes pods from its queue.  The
    loop of a pool ends when its queue is deleted, and a queue that appears is announced by a
    goroutine that starts a loop: so as long as the process is not stopped every queue has
    a loop, or one is about to be started. *)
From S2P Require Import Prelude Heap Api Util Backoff SchedulingQueue PoolQueue PoolQueueProofs Resource HostPorts NodeTree NodeInfo PoolInfo Predicates Cache GenericScheduler VolumePredicates Scheduler EventHandlers SchedulerProofs FrameProofs.

Abbreviation DefaultPoolName := PoolQueue.DefaultPoolName.

(** ** The invariant *)

Section served.
Context {K8s : K8sLib} {Range : MapRange} {Sort : GoSort} {Errs : ErrorsLib} {Api : ApiErrors} {Pu : PodUtil} {Inf : InformerLib} {ILaws : InformerLaws}.
Context {M PM Q : Type} {Pm : PredicateMetadata M} {SQ : SchedulingQueue Q}.
Abbreviation Scheduler := (@Scheduler M PM Q).
Implicit Types (s : Scheduler) (w : World).

(** The goroutine takes pods from the queue, or will. A loop that waits on a removed queue does not. *)
Definition serves s (t : goroutine) (n : string) : Prop :=
  match t with
  | GStart n' | GSchedule n' _ | GUnfit n' _ _ | GFits n' _ _ | GLoop n' None => n' = n
  | GLoop n' (Some ptr) => n' = n ∧ ptr = queue_id s n
  | GBind _ _ _ _ | GRetry _ _ _ _ _ _ => False
  end.
Definition served s : Prop := ∀ n, n ∈ names (sc_queue s) → ∃ t, t ∈ sc_goroutines s ∧ serves s t n.

Lemma serves_frame s s' t n : sc_removals s' = sc_removals s → serves s t n → serves s' t n.
Proof. intros E. unfold serves, queue_id. by rewrite E. Qed.
Lemma frames_served s s' : frames s s' → served s → served s'.
Proof.
  intros [En Er Eg] Hs n Hn. rewrite En in Hn. destruct (Hs n Hn) as (t & Ht & Hserve). exists t. split; [auto|]. by eapply serves_frame.
Qed.
Lemma steady_served s s' : steady s s' → served s → served s'.
Proof. intros [_ Hf]. by apply frames_served. Qed.

Lemma fits_frames w s n pod host s' : scheduleOne_fits w s n pod host = Some s' → frames s s'.
Proof.
  unfold scheduleOne_fits, assumeVolumes. intros E. destruct (w_AssumePodVolumes w pod host) as [p1 [err|allBound]].
  { destruct (recordSchedulingFailure _ _ _ _ _ _ _) as [s1|] eqn:E1; [|done]. injection E as <-. by eapply record_steady. }
  cbn [mbind option_bind] in E. destruct (reserve_error _ _ _) as [err|]; [by eapply record_steady|].
  unfold assume in E. destruct (AssumePod _ _) as [[c [err|]]|]; cbn [mbind option_bind] in E; [| |done].
  - destruct (recordSchedulingFailure _ _ _ _ _ _ _) as [s1|] eqn:E1; [|done]. injection E as <-. apply record_steady in E1. etrans; [|apply E1]. by split.
  - unfold PoolQueue_GetQueue in E. change (sc_queue (with_cache s c)) with (sc_queue s) in E.
    destruct (queues (sc_queue s) !! n) as [q|] eqn:En; cbn [mbind option_bind] in E; injection E as <-; [|by split].
    etrans; [|apply steady_spawn]. etrans; [|by apply (steady_queue_at (with_cache s c) n q)]. by split.
Qed.

Lemma forget_frames s p s' : forget s p = Some s' → frames s s'.
Proof. unfold forget. destruct (ForgetPod _ _) as [[c e]|]; [|done]. intros [= <-]. by split. Qed.
Lemma bind_frames w s n pod host allBound s' : scheduleOne_bind w s n pod host allBound = Some s' → frames s s'.
Proof.
  unfold scheduleOne_bind. intros E.
  assert (∀ s1 err reason s2 s3, frames s s1 → forget s1 pod = Some s2 → recordSchedulingFailure w s2 n pod err reason false = Some s3 → frames s s3) as Hfail.
  { intros s1 err reason s2 s3 H1 H2%forget_frames H3%record_steady. etrans; [exact H1|]. etrans; [exact H2|apply H3]. }
  match type of E with (?x ≫= _) = _ => destruct x as [[s1 e1]|] eqn:E1 end; cbn [mbind option_bind] in E; [|done].
  assert (frames s s1 ∧ (e1 = None → s1 = s)) as [H1 Hs1].
  { destruct (negb allBound); [|injection E1 as <- <-; done]. unfold bindVolumes in E1.
    destruct (w_BindPodVolumes w pod) as [err|]; [|injection E1 as <- <-; done].
    destruct (forget s pod) as [s2|] eqn:E2; [|done]. cbn [mbind option_bind] in E1.
    destruct (recordSchedulingFailure _ _ _ _ _ _ _) as [s3|] eqn:E3; [|done]. injection E1 as <- <-. split; [|done]. by eapply Hfail. }
  destruct e1 as [e1|]; [by simplify_eq|]. rewrite Hs1 in E by done. clear Hs1 H1 E1 s1.
  destruct (prebind_error _ _ _) as [[err reason]|].
  { destruct (forget s pod) as [s2|] eqn:E2; [|done]. cbn [mbind option_bind] in E. by eapply Hfail. }
  unfold bind in E. set (b := MkBinding _ _ _ _) in *. set (s2 := with_cache (call s (CallBind b)) _) in *.
  assert (frames s s2) as H2 by by split.
  destruct (getBinderFunc _ _ _ b) as [err|]; cbn [mbind option_bind] in E; [|by simplify_eq].
  destruct (forget s2 pod) as [s3|] eqn:E3; [|done]. cbn [mbind option_bind] in E.
  destruct (recordSchedulingFailure _ _ _ _ _ _ _) as [s4|] eqn:E4; [|done]. injection E as <-. by eapply Hfail.
Qed.


(** ** Goroutines *)

Context {Laws : SchedulingQueueLaws Q}.

(** A goroutine ends; its successor serves the same queue. *)
Lemma successor s s' i t t' :
  served s → sc_goroutines s !! i = Some t → frames (with_goroutines s (delete i (sc_goroutines s))) s' →
  (∀ n, serves s t n → n ∈ names (sc_queue s) → t' ∈ sc_goroutines s' ∧ serves s' t' n) → served s'.
Proof.
  intros Hs Ei [En Er Eg] Ht n Hn. rewrite En in Hn. destruct (Hs n Hn) as (u & Hu & Hserve).
  destruct (elem_delete _ _ _ _ Ei Hu) as [->|Hin]; [by destruct (Ht n Hserve Hn) as [? ?]; exists t'|].
  exists u. split; [by apply Eg|]. eapply serves_frame; [exact Er|done].
Qed.

Lemma next_served w now s i n wait s' A P :
  scheduleOnePool_next w (with_goroutines s (delete i (sc_goroutines s))) n wait = Some s' → w_stopped w = false →
  sc_goroutines s !! i = Some (GLoop n wait) → tracks now s A P → served s → served s'.
Proof.
  intros E Hw Ei Ht Hs. unfold scheduleOnePool_next in E. rewrite Hw in E. set (s0 := with_goroutines s _) in *.
  destruct (match wait with Some ptr => _ | None => _ end) eqn:Ew.
  { injection E as <-. eapply (successor s s0 i _ (GLoop n None)); [done|done|by split|]. intros n' Hn Hin. exfalso.
    destruct wait as [ptr|]; [|done]. simpl in Hn. destruct Hn as [-> ->]. apply bool_decide_eq_true in Ew.
    unfold queue_at in Ew. rewrite bool_decide_true in Ew by done. apply elem_of_names in Hin as [q Eq]. change (sc_queue s0) with (sc_queue s) in Ew. by rewrite Eq in Ew. }
  destruct (MakeNextPodFunc (sc_queue s0) n) as [[q r]|] eqn:En; [|done]. cbn [mbind option_bind] in E.
  pose proof (MakeNextPodFunc_names _ _ _ _ En) as Enames.
  assert (∀ t', frames s0 (spawn (with_queue s0 q) t')) as Hf by (intros t'; etrans; [|apply steady_spawn]; by split).
  assert (∀ n', serves s (GLoop n wait) n' → n' = n) as Hself by (intros n'; by destruct wait; simpl; [intros [-> _]|intros ->]).
  assert (∀ t', Some (spawn (with_queue s0 q) t') = Some s' → serves (spawn (with_queue s0 q) t') t' n → served s') as Hnext.
  { intros t' [= <-] Hst. eapply (successor s _ i _ t'); [done|done|apply Hf|]. intros n' ->%Hself _. split; [|done].
    simpl. rewrite elem_of_app, list_elem_of_singleton. by right. }
  destruct r as [p|err|].
  - destruct (DeletionTimestamp _); by eapply Hnext.
  - pose proof (MakeNextPodFunc_spec now (sc_queue s0) P n q _ (tr_pool _ _ _ _ Ht) En) as [Hnone _].
    destruct (_ || _); [|by eapply Hnext]. injection E as <-. eapply (successor s _ i _ (GLoop n None)); [done|done|by split|].
    intros n' ->%Hself Hin. exfalso. apply elem_of_names in Hin as [q' Eq]. change (sc_queue s0) with (sc_queue s) in Hnone. congruence.
  - by eapply Hnext.
Qed.

Lemma goroutine_served w now s i s' A P :
  step_goroutine w s i = Some s' → w_stopped w = false → tracks now s A P → served s → served s'.
Proof.
  unfold step_goroutine. intros E Hw Ht Hs. destruct (sc_goroutines s !! i) as [t|] eqn:Ei; [|done]. cbn [mbind option_bind] in E.
  set (s0 := with_goroutines s (delete i (sc_goroutines s))) in *.
  assert (∀ s1 t', s' = spawn s1 t' → frames s0 s1 → (∀ n, serves s t n → serves s' t' n) → served s') as Hthen.
  { intros s1 t' -> Hf Hst. eapply (successor s _ i t t'); [done|done|etrans; [exact Hf|apply steady_spawn]|]. intros n Hn _.
    split; [simpl; rewrite elem_of_app, list_elem_of_singleton; by right|by apply Hst]. }
  assert ((∀ n, ¬ serves s t n) → frames s0 s' → served s') as Hnot.
  { intros Hn Hf. eapply (successor s _ i t t); [done|done|exact Hf|]. intros n Hserve _. by destruct (Hn n). }
  destruct t as [n|n wait|n pod|n pod err|n pod host|n pod host allBound|n ptr id cycle nb [d|]]; cbn [run_goroutine] in E.
  - injection E as <-. by eapply Hthen.
  - by eapply next_served.
  - unfold schedule in E. destruct (Schedule _ _ _ _ _ _ _) as [[g r]|] eqn:Eg; [|done]. cbn [mbind option_bind] in E. apply Schedule_queue in Eg.
    injection E as <-. eapply Hthen; [done|by split; [unfold sc_queue; simpl; by rewrite Eg|..]|]. intros n' <-. by destruct r.
  - destruct (scheduleOne_unfit _ _ _ _ _) as [s1|] eqn:E1; [|done]. injection E as <-. eapply Hthen; [done|by eapply unfit_steady|done].
  - destruct (scheduleOne_fits _ _ _ _ _) as [s1|] eqn:E1; [|done]. injection E as <-. eapply Hthen; [done|by eapply fits_frames|done].
  - apply Hnot; [tauto|]. by eapply bind_frames.
  - apply Hnot; [tauto|]. unfold retry in E. destruct (w_GetPod w id.1 id.2) as [err|p].
    + destruct (IsNotFound err); injection E as <-; [done|apply steady_spawn].
    + case_bool_decide; [|by injection E as <-]. destruct (borrowPoolName _ _ _ _) as [n'|]; [|done]. cbn [mbind option_bind] in E. by eapply return_pod_steady.
  - apply Hnot; [tauto|]. destruct (_ && _); injection E as <-; [done|apply steady_spawn].
Qed.

(** ** Pools *)

Lemma addPool_served w s o s' : addPoolToCache w s o = Some s' → served s → served s'.
Proof.
  unfold addPoolToCache. intros E Hs. destruct o; try by simplify_eq. destruct (Cache_AddPool _ _) as [[c e]|]; [|done]. cbn [mbind option_bind] in E.
  destruct e; [injection E as <-; eapply frames_served; [|exact Hs]; by split|].
  destruct (move_all _ _) as [s1|] eqn:Em; [|done]. injection E as <-. apply move_all_steady in Em as [_ [En Er Eg]].
  intros n Hn. change (sc_queue (spawn s1 (GStart (pool_Name pool)))) with (sc_queue s1) in Hn. rewrite En in Hn. simpl in Hn.
  destruct (decide (n = pool_Name pool)) as [->|Hne].
  { exists (GStart (pool_Name pool)). split; [simpl; rewrite elem_of_app, list_elem_of_singleton; by right|done]. }
  destruct (Hs n) as (t & Ht & Hserve).
  { change (sc_queue (with_cache s c)) with (sc_queue s) in Hn. unfold PoolQueue_AddQueue in Hn. destruct (queues (sc_queue s) !! pool_Name pool); [done|].
    unfold names in *. simpl in Hn. rewrite dom_insert_L in Hn. set_solver. }
  exists t. split; [simpl; rewrite elem_of_app; left; by apply Eg|]. eapply serves_frame; [exact Er|done].
Qed.

(** The queue of another name keeps its identity. *)
Lemma deletePool_served w s o s' : deletePoolFromCache w s o = Some s' → served s → served s'.
Proof.
  unfold deletePoolFromCache. intros E Hs. destruct (deleted_object o); try by simplify_eq.
  destruct (Cache_RemovePool _ _) as [[c e]|]; [|done]. cbn [mbind option_bind] in E.
  destruct e; [injection E as <-; eapply frames_served; [|exact Hs]; by split|].
  destruct (remove_queue _ _ _) as [s1|] eqn:Er; [|done]. cbn [mbind option_bind] in E.
  apply move_all_steady in E. eapply steady_served; [exact E|]. clear E s'. unfold remove_queue in Er.
  destruct (PoolQueue_RemoveQueue _ _ _) as [[q r]|] eqn:Eq; [|done]. cbn [mbind option_bind] in Er. apply RemoveQueue_names in Eq.
  change (sc_queue (with_cache s c)) with (sc_queue s) in Eq.
  destruct r as [r|]; injection Er as <-.
  - intros n Hn. change (n ∈ names q) in Hn. rewrite Eq in Hn. apply elem_of_difference in Hn as [Hn Hne%not_elem_of_singleton].
    destruct (Hs n Hn) as (t & Ht & Hserve). exists t. split; [done|].
    destruct t as [| ? [ptr|]| | | | |]; simpl in *; try done. unfold queue_id in *. simpl. by rewrite lookup_insert_ne.
  - destruct Eq as [-> _]. eapply frames_served; [|exact Hs]. by split.
Qed.

(** ** Assigned pods *)

Lemma addPodToCache_frames w s o s' : addPodToCache w s o = Some s' → frames s s'.
Proof.
  unfold addPodToCache. intros E. destruct o; try by simplify_eq. destruct (Cache_AddPod _ _) as [[c e]|]; [|done]. cbn [mbind option_bind] in E.
  destruct (PoolQueue_AssignedPodAdded _ _ _) as [q|] eqn:Eq; [|done]. injection E as <-. apply AssignedAdded_names in Eq. by split.
Qed.
Lemma updatePodInCache_frames w s o o' s' : updatePodInCache w s o o' = Some s' → frames s s'.
Proof.
  unfold updatePodInCache. intros E. destruct o; try by simplify_eq. destruct o'; try by simplify_eq.
  destruct (Cache_UpdatePod _ _ _) as [[c e]|]; [|done]. cbn [mbind option_bind] in E.
  destruct (PoolQueue_AssignedPodUpdated _ _ _) as [q|] eqn:Eq; [|done]. injection E as <-. apply AssignedUpdated_names in Eq. by split.
Qed.
Lemma deletePodFromCache_frames w s o s' : deletePodFromCache w s o = Some s' → frames s s'.
Proof.
  unfold deletePodFromCache. intros E. destruct (deleted_object o); try by simplify_eq.
  destruct (Cache_RemovePod _ _) as [[c e]|]; [|done]. cbn [mbind option_bind] in E.
  apply move_all_in_steady in E as [_ E]. etrans; [|exact E]. by split.
Qed.

Variable schedulerName : string.

Lemma step_served w now s e s' A P :
  step schedulerName w s e = Some s' → w_stopped w = false → tracks now s A P → served s → served s'.
Proof.
  intros E Hw Ht Hs. destruct e as [h o|h o o'|h o|i|n i|]; [| | |by eapply goroutine_served| |].
  - destruct h; simpl in E; rewrite ?filtering_add in E; simpl in E; try by_steady steady_served.
    + destruct (scheduled_filter o); [|by injection E as <-]. eapply frames_served; [by eapply addPodToCache_frames|done].
    + destruct (unscheduled_filter schedulerName o); [by_steady steady_served|by injection E as <-].
    + by eapply addPool_served.
  - destruct h; simpl in E; rewrite ?filtering_update in E; simpl in E; try by_steady steady_served.
    + destruct (scheduled_filter o), (scheduled_filter o'); [| | |by injection E as <-];
        (eapply frames_served; [|exact Hs]); [by eapply updatePodInCache_frames|by eapply deletePodFromCache_frames|by eapply addPodToCache_frames].
    + destruct (unscheduled_filter schedulerName o), (unscheduled_filter schedulerName o'); try by_steady steady_served.
      by injection E as <-.
    + by injection E as <-.
  - destruct h; simpl in E; rewrite ?filtering_delete in E; simpl in E; try by_steady steady_served; try (by injection E as <-).
    + destruct (scheduled_filter o); [|by injection E as <-]. eapply frames_served; [by eapply deletePodFromCache_frames|done].
    + destruct (unscheduled_filter schedulerName o); [by_steady steady_served|by injection E as <-].
    + by eapply deletePool_served.
  - simpl in E. destruct (queues (sc_queue s) !! n) as [q|] eqn:Eq; [|done]. cbn [mbind option_bind] in E. destruct (sq_run !! i) as [f|]; [|done].
    cbn [mbind option_bind] in E. destruct (f _ _ _); [|done]. injection E as <-. eapply steady_served; [|exact Hs]. by eapply steady_queue_at.
  - simpl in E. destruct (cleanupAssumedPods _ _) as [c|]; [|done]. injection E as <-. eapply frames_served; [|exact Hs]. by split.
Qed.

Lemma started_served s : started s → served s.
Proof.
  intros (Eq & Eg & _) n Hn. rewrite Eq in Hn. unfold names, NewPoolQueue in Hn. simpl in Hn. rewrite dom_singleton_L in Hn.
  apply elem_of_singleton in Hn as ->. exists (GLoop DefaultPoolName None). rewrite Eg. split; [apply list_elem_of_here|done].
Qed.

(** C7: no queue starves for want of a loop.  Until the process is told to stop, in every state that the
    scheduler reaches, whatever the pools that come and go, every queue has a goroutine that takes
    pods from that very queue, is at work on a pod of it, or is about to start doing so. *)
Theorem queues_are_served now0 s0 l now s :
  started s0 → 0 <= now0 → run schedulerName now0 s0 l now s → Forall (λ we, w_stopped we.1 = false) l →
  ∀ n, is_Some (queues (sc_queue s) !! n) → ∃ t, t ∈ sc_goroutines s ∧ serves s t n.
Proof.
  intros Hs Hn Hr Hw n Hq%elem_of_names. revert n Hq. change (served s).
  assert (∃ A P, tracks now0 s0 A P) as (A & P & Ht) by eauto using started_tracks. apply started_served in Hs. clear Hn. revert A P Ht.
  induction Hr as [|now s w e s1 l now' s2 Hl E _ IH]; intros A P Ht; [done|]. apply Forall_cons in Hw as [Hw Hrest].
  destruct (event_life schedulerName _ _ _ _ _ _ _ E Hl Ht) as (A' & P' & Ht' & _). eapply IH; [by eapply step_served|done|exact Ht'].
Qed.
End served.
