(* ===== verification/SchedulerExample.v ===== *)
(** * The scheduler on a small cluster

    The theorems on the whole scheduler applied to a run on one node: a pod is
    added, popped, scheduled and assumed, its binding is rejected, and it goes back to its
    queue.  Then the runs that show what the scheduler does not handle. *)
From S2P Require Import Prelude Heap Api Util Backoff SchedulingQueue SchedulingQueueProofs PoolQueue PoolQueueProofs Resource HostPorts NodeTree NodeInfo PoolInfo PoolInfoProofs Predicates Cache CacheProofs GenericScheduler GenericSchedulerProofs VolumePredicates Scheduler EventHandlers SchedulerProofs FrameProofs BindingProofs ServedProofs.

Module SchedulerExample.
#[local] Existing Instance docK8s.
#[local] Existing Instance docK8s_laws.
#[local] Existing Instance stdRange.
#[local] Existing Instance stdSort.
#[local] Existing Instance GenericExample.count_meta.
#[local] Existing Instance GenericExample.no_errors.

(** The libraries, after their documentation. *)
#[local] Instance docInformer : InformerLib := {|
  FilteringResourceEventHandler St f h := MkEventHandler
    (λ s o, if f o then OnAdd h s o else Some s)
    (λ s o o', if f o then if f o' then OnUpdate h s o o' else OnDelete h s o
               else if f o' then OnAdd h s o' else Some s)
    (λ s o, if f o then OnDelete h s o else Some s)
|}.
#[local] Instance docInformer_laws : InformerLaws.
Proof. by split. Qed.
#[local] Instance docErrors : ApiErrors := {|
  IsNotFound e := String.prefix "not found: " e;
  StatusDetails e := if String.prefix "not found: node " e
                     then Some ("node"%string, String.substring 16 (String.length e - 16) e) else None
|}.
#[local] Instance docPodUtil : PodUtil := {|
  UpdatePodCondition st c := (MkPodStatus (NominatedNodeName st) (Conditions st ++ [c]) (status_other st), true)
|}.

Definition n1 : Node := PoolInfoExample.mkNode "n1".
Definition pod1 : Pod :=
  MkPod (MkObjectMeta "x" "default" "uid-x" EmptyString 0 ∅ ∅ 0 None 0)
    (MkPodSpec EmptyString "ai-scheduler" (Some 5) [] [] None ∅ [] [] 0) (MkPodStatus EmptyString [] 0).

(** The API server knows [pod1], without a node, and the node; the binder answers [bound]. *)
Definition world (now : Time) (bound : option error) : World :=
  MkWorld now false true false [Begin; Finish 0] (λ _ _, inl "no claim"%string) (inr [n1]) (inr []) (λ l, l)
    (λ ns n, if bool_decide ((ns, n) = pod_id pod1) then inr pod1 else inl "not found: pod"%string) (λ _, None) (λ _, None)
    (λ _, None) (λ _, bound) (λ p _, (p, inr true)) (λ _, None) [] [] true.

Abbreviation Sched := (@Scheduler nat unit PriorityQueue).
Definition s0 : Sched :=
  MkScheduler (MkGenericScheduler CacheExample.c0 NewPoolQueue (GenericExample.funcs 5) ["few"%string] (λ _ _, Some O) []
    (λ _ _, tt) [] 0 false 0) ∅ false [GLoop DefaultPoolName None] [].

Fixpoint exec (s : Sched) (l : list (World * event)) : comp Sched :=
  match l with [] => Some s | (w, e) :: l => s ← step "ai-scheduler" w s e; exec s l end.

Lemma world_fine now b : 0 <= now → world_ok (world now b).
Proof.
  intros Hn. split; [done| |done]. intros ns n p. cbn [w_GetPod world]. case_bool_decide as E; [|done].
  intros [= <-]. split; [done|]. by repeat split.
Qed.

(** Events other than those of pods without a node are always legal. *)
Definition plain (e : event) : bool :=
  match e with EvAdd HUnscheduled _ | EvUpdate HUnscheduled _ _ | EvDelete HUnscheduled _ => false | _ => true end.
Lemma plain_legal now (s : Sched) now' b e : 0 <= now → now <= now' → plain e = true → legal "ai-scheduler" now s (world now' b) e.
Proof. intros H0 Hle He. split; [done|]. split; [apply world_fine; lia|]. by destruct e as [[]|[]|[]| | |]. Qed.

(** An event with the time and the answer of the binder. *)
Abbreviation timed := (Time * option error * event)%type.
Definition at_world (x : timed) : World * event := (world x.1.1 x.1.2, x.2).
Fixpoint timely (now : Time) (l : list timed) : bool :=
  match l with [] => true | x :: l => (now <=? x.1.1) && plain x.2 && timely x.1.1 l end.
Definition end_time (now : Time) (l : list timed) : Time := foldl (λ _ x, x.1.1) now l.

Lemma plain_run (l : list timed) : ∀ now (s s' : Sched), 0 <= now → timely now l = true → exec s (at_world <$> l) = Some s' →
  run "ai-scheduler" now s (at_world <$> l) (end_time now l) s'.
Proof.
  induction l as [|x l IH]; intros now s s' Hn Ht E; [injection E as <-; constructor|].
  cbn [timely] in Ht. apply andb_true_iff in Ht as [[Hle%Z.leb_le Hp]%andb_true_iff Ht].
  change (exec s (at_world <$> x :: l)) with (s ← step "ai-scheduler" (world x.1.1 x.1.2) s x.2; exec s (at_world <$> l)) in E.
  destruct (step _ _ s x.2) as [s1|] eqn:E1; [|done]. cbn [mbind option_bind] in E.
  eapply run_cons; [by apply plain_legal|exact E1|]. apply IH; [cbn [w_now world]; lia|done|done].
Qed.

Definition rest : list timed :=
  [(2, None, EvAdd HNode (ONode n1)); (3, None, EvRun 0); (4, None, EvRun 0); (5, None, EvRun 0);
   (6, Some "rejected"%string, EvRun 0); (7, None, EvRun 1); (8, None, EvRun 1)].
Definition added : Sched := default s0 (step "ai-scheduler" (world 1 None) s0 (EvAdd HUnscheduled (OPod pod1))).
Definition after (k : nat) : Sched := default s0 (exec added (at_world <$> take k rest)).

Lemma s0_started : started s0.
Proof. by split_and!. Qed.

Lemma is_some {A} (x : comp A) d : (match x with Some _ => true | None => false end) = true → x = Some (default d x).
Proof. by destruct x. Qed.

Lemma added_run : run "ai-scheduler" 0 s0 [(world 1 None, EvAdd HUnscheduled (OPod pod1))] 1 added.
Proof.
  apply (run_cons "ai-scheduler" 0 s0 (world 1 None) _ added); [|apply (is_some _ s0); vm_compute; reflexivity|apply run_nil].
  split; [done|]. split; [by apply world_fine|]. intros p [= <-]. split; [by repeat split|].
  apply (tracks_None 0 s0 ∅ _ (pod_id pod1) (started_tracks 0 s0 s0_started ltac:(done))). done.
Qed.

Lemma after_run k : timely 1 (take k rest) = true →
  (match exec added (at_world <$> take k rest) with Some _ => true | None => false end) = true →
  run "ai-scheduler" 1 added (at_world <$> take k rest) (end_time 1 (take k rest)) (after k).
Proof. intros Ht He. apply plain_run; [done|done|]. by apply is_some. Qed.

(** The places of the pod: in its queue, with the algorithm, with the binding, with a retry, and in its queue again. *)
Definition seen (s : Sched) : list (string * string) * list (pod_name * life) :=
  (match queues (sc_queue s) !! DefaultPoolName with Some q => pod_id <$> sq_PendingPods q | None => [] end,
   omap in_hand (sc_goroutines s)).
Example life_seen :
  let x := pod_id pod1 in
  (λ k, seen (after k)) <$> [1; 3; 4; 5; 7]%nat =
  [([x], []); ([], [(x, Scheduling)]); ([], [(x, Binding)]); ([], [(x, Retrying)]); ([x], [])].
Proof. vm_compute. reflexivity. Qed.

Lemma run_app name now (s : Sched) l now' s' l' now'' s'' :
  run name now s l now' s' → run name now' s' l' now'' s'' → run name now s (l ++ l') now'' s''.
Proof. induction 1; intros Hr; [done|]. simpl. eapply run_cons; [done|done|auto]. Qed.


Lemma added_place : place added (pod_id pod1) (Pending DefaultPoolName).
Proof.
  destruct (queues (sc_queue added) !! DefaultPoolName) as [q|] eqn:E; [|vm_compute in E; discriminate].
  exists q, pod1. split_and!; [exact E| |done]. vm_compute in E. injection E as <-. vm_compute. left.
Qed.


(** The pod is assumed, and its binding is on the way. *)
Lemma assumed_has_binding_witness :
  (assumed (sc_cache (after 4)) "uid-x" = true) ∧
  ((∀ uid, assumed (sc_cache (after 4)) uid = true →
     ∃ ps, ca_podStates (sc_cache (after 4)) !! uid = Some ps ∧ (ps_bindingFinished ps = true ∨ binds (sc_goroutines (after 4)) uid)) ∨
   ∃ l1 w e l2 now1 s1, at_world <$> take 4 rest = l1 ++ (w, e) :: l2 ∧ run "ai-scheduler" 1 added l1 now1 s1 ∧ leaks s1 e).
Proof.
  split; [vm_compute; reflexivity|].
  apply (assumed_has_binding "ai-scheduler" 1 added (at_world <$> take 4 rest) (end_time 1 (take 4 rest)) (after 4)).
  - vm_compute. reflexivity.
  - apply (after_run 4 eq_refl). vm_compute. reflexivity.
Defined.

Lemma queues_are_served_witness : ∃ t, t ∈ sc_goroutines (after 4) ∧ serves (after 4) t DefaultPoolName.
Proof.
  apply (queues_are_served "ai-scheduler" 0 s0 _ _ (after 4) s0_started ltac:(discriminate)
    (run_app _ _ _ _ _ _ _ _ _ added_run (after_run 4 eq_refl ltac:(vm_compute; reflexivity)))).
  - by repeat constructor.
  - destruct (queues (sc_queue (after 4)) !! DefaultPoolName) as [q|] eqn:E; [by exists q|vm_compute in E; discriminate].
Defined.

(** ** A pool that goes away *)

(** Pool [p] takes the nodes with the label [pool: p]; [pod2] asks for it. *)
Definition pool_p : Pool :=
  MkPool (MkObjectMeta "p" EmptyString EmptyString EmptyString 0 ∅ ∅ 0 None 0)
    (MkPoolSpec (Some (MkLabelSelector {["pool"%string := "p"%string]} [])) true true [] false).
Definition n2 : Node :=
  MkNode (MkObjectMeta "n2" EmptyString EmptyString EmptyString 0 {["pool"%string := "p"%string]} ∅ 0 None 0) [] false
    {[ResourceCPU := NewMilliQuantity 4000]} {[ResourceCPU := NewMilliQuantity 4000]} [] [] 0.
Definition pod2 : Pod :=
  MkPod (MkObjectMeta "y" "default" "uid-y" EmptyString 0 ∅ {[GroupNameAnnotationKey := "p"%string]} 0 None 0)
    (MkPodSpec EmptyString "ai-scheduler" (Some 5) [] [] None ∅ [] [] 0) (MkPodStatus EmptyString [] 0).
(** The loop of [p] has taken [pod2]. *)
Definition with_p : list timed :=
  [(1, None, EvAdd HPool (OPool pool_p)); (2, None, EvAdd HNode (ONode n2)); (3, None, EvAdd HUnscheduled (OPod pod2));
   (4, None, EvRun 1); (5, None, EvRun 1)].
Definition runs (l : list timed) : Sched := default s0 (exec s0 (at_world <$> l)).

Definition lost (s : Sched) (p : Pod) : bool :=
  forallb (λ e, forallb (λ p', negb (bool_decide (pod_id p' = pod_id p))) (sq_PendingPods e.2)) (map_to_list (queues (sc_queue s))) &&
  forallb (λ t, match in_hand t with Some (id, _) => negb (bool_decide (id = pod_id p)) | None => true end) (sc_goroutines s).

(** A pod is assumed and never bound.  When the pool is removed after the algorithm found a host,
    [assume] puts the pod in the cache, does not find the queue and returns: no goroutine
    binds the pod, none forgets it, and since its binding is not finished it does not expire. *)
Theorem assume_without_queue_leaks :
  let s := runs (with_p ++ [(6, None, EvRun 1); (7, None, EvDelete HPool (OPool pool_p)); (8, None, EvRun 1)]) in
  assumed (sc_cache s) "uid-y" = true ∧ ps_bindingFinished <$> ca_podStates (sc_cache s) !! "uid-y"%string = Some false ∧
  lost s pod2 = true.
Proof. split_and!; vm_compute; reflexivity. Qed.

(** A pod is dropped.  When the pool is removed before the algorithm runs, the failure is
    reported to the removed queue's name, [MakeDefaultErrorFunc] does not find the queue, and
    the pod is in no queue, although it still waits for a node. *)
Theorem failure_without_queue_drops :
  let s := runs (with_p ++ [(6, None, EvDelete HPool (OPool pool_p)); (7, None, EvRun 1); (8, None, EvRun 1)]) in
  lost s pod2 = true ∧ ca_podStates (sc_cache s) !! "uid-y"%string = None.
Proof. split; vm_compute; reflexivity. Qed.

(** Two loops serve one pool.  A pool that is removed and added again while its loop has a pod in hand
    gets a second loop; the first goes on with the new queue. *)
Theorem readded_pool_two_loops :
  let s := runs (with_p ++ [(6, None, EvDelete HPool (OPool pool_p)); (7, None, EvAdd HPool (OPool pool_p));
                            (8, None, EvRun 1); (9, None, EvRun 2); (10, None, EvRun 1)]) in
  omap (λ t, match t with GLoop n _ => Some n | _ => None end) (sc_goroutines s) = [DefaultPoolName; "p"; "p"]%string.
Proof. vm_compute. reflexivity. Qed.

(** A node that the API server does not know stays in the cache.  [MakeDefaultErrorFunc] removes it by a node
    object with a name only, whose pool is the default pool; a node of another pool is not found there. *)
Theorem gone_node_stays :
  let w := MkWorld 6 false true false [] (λ _ _, inl EmptyString) (inr []) (inr []) (λ l, l) (λ _ _, inl EmptyString)
    (λ _, Some "not found: node n2"%string) (λ _, None) (λ _, None) (λ _, None) (λ p _, (p, inr true)) (λ _, None) [] [] true in
  ∃ s, error_node w (runs with_p) (ErrOther "not found: node n2") = Some s ∧ GetPoolContainsNode (sc_cache s) "n2" = Some "p"%string.
Proof.
  intros w. exists (default s0 (error_node w (runs with_p) (ErrOther "not found: node n2"))).
  split; [apply is_some|]; vm_compute; reflexivity.
Qed.

(** [preempt] hides an error.  The nomination of [pod1] to [n1] fails at the API server; the nomination is
    withdrawn and no error is returned. *)
Definition low : Pod := set_NodeName
  (MkPod (MkObjectMeta "l" "default" "uid-l" EmptyString 0 ∅ ∅ 0 None 0)
    (MkPodSpec EmptyString "ai-scheduler" (Some 1) [] [] None ∅ [] [] 0) (MkPodStatus EmptyString [] 0)) "n1".
Definition crowded : Sched :=
  let s := runs [(1, None, EvAdd HNode (ONode n1)); (2, None, EvAdd HScheduled (OPod low))] in
  let g := sc_algorithm s in
  with_cache (with_algorithm s (MkGenericScheduler (gs_cache g) (gs_queue g) (GenericExample.funcs 1) (gs_ordering g)
    (gs_predicateMetaProducer g) [] (λ _ _, tt) [] 0 false 0))
    (default (sc_cache s) (fst <$> Cache_UpdateNodeInfoSnapshot false (sc_cache s) DefaultPoolName)).
Theorem preempt_hides_error :
  let w := MkWorld 6 false true false [] (λ _ _, inl EmptyString) (inr []) (inr []) (λ l, l) (λ _ _, inr pod1)
    (λ _, None) (λ _, Some "refused"%string) (λ _, None) (λ _, None) (λ p _, (p, inr true)) (λ _, None) [] [] true in
  ∃ s, preempt w crowded DefaultPoolName pod1 (FitError pod1 1 {["n1"%string := [FailureReason "full"]]}) =
    Some (s, EmptyString, None, false) ∧ sc_calls s = [CallUpdateStatus (set_NominatedNodeName pod1 "n1")].
Proof.
  intros w. destruct (preempt w crowded DefaultPoolName pod1 _) as [[[[s n] e] b]|] eqn:E; [|vm_compute in E; discriminate].
  exists s. vm_compute in E. injection E as <- <- <- <-. split; reflexivity.
Qed.
End SchedulerExample.
